(* ===== verification/_CoqProject ===== *)
-Q . S2P
Prelude.v
U64.v
Bytes.v
Lcs.v
SchemaDb.v
LedgerCounters.v
Position.v
Accumulator.v
AccumulatorProof.v
ProofSoundness.v
MerkleAccumulator.v
Text.v
Crypto.v
Hash.v
SparseMerkleProof.v
SparseMerkleTree.v
ValidatorVerifier.v
LedgerInfo.v
LedgerProof.v
NibblePath.v
NodeType.v
NodeTypeProof.v
NodeCodec.v
JellyfishMerkle.v
JellyfishMerkleNodes.v
JellyfishMerkleProof.v
JellyfishMerkleUpdate.v
JellyfishMerkleBatch.v
Schema.v
Tables.v
LedgerStore.v
LedgerStoreProof.v
StateStore.v
EventStore.v
TransactionStore.v
Pruner.v
LibraDB.v
StateStoreProof.v
EventStoreProof.v
TransactionStoreProof.v
LibraDBProof.v
LibraDBReads.v
PrunerProof.v
Scratchpad.v
ScratchpadProof.v
ConsensusTypes.v
PendingVotes.v
ProposerElection.v
LeaderReputation.v
RoundState.v
BlockTree.v
BlockTreeProof.v
ConsensusDb.v
Recovery.v
BlockStore.v
BlockStoreProof.v
SecureStorage.v
SafetyRules.v
Concrete.v
SafetyRulesProof.v
ConsensusSafety.v
RoundManager.v
RoundManagerProof.v
Network.v
Examples.v
ByteConcrete.v
ConsensusExamples.v
NodeExamples.v
RecoveryExamples.v
LedgerExamples.v
StorageExamples.v
ScratchpadExamples.v
