(* ===== verification/Prelude.v ===== *)
(** * Libra Core: a verification library

    Libra Core is a replicated ledger.  Validators agree on blocks of transactions
    ([src/consensus]); every validator keeps the ledger in a database whose contents are
    authenticated by Merkle trees ([src/types/src/proof], [src/storage]); clients check
    what they read against ledger infos that a quorum of validators has signed
    ([src/types]).  This library models the parts that carry the safety of that chain of
    trust and proves them correct.

    ** Conventions

    A Rust function is a Rocq function of the same name where the name is free; a
    fallible function returns [result E A], whose [Panic] stands for failed assertions,
    [expect]s and indexing; a method that mutates its object is in the monad [M] below,
    which keeps the writes made before a failure.  Unsigned integers are [Z]; arithmetic
    that can wrap goes through the operations of [U64].  Loops that are not structural
    take fuel, and the theorems show that the fuel given by the callers is enough: the
    number of levels of a tree (at most 64), the number of bits of an index, or the length
    of the iterated list.  Loops over the rows of an iterator ([run_loop]) may take 2^64
    rounds; theorems about them ask for fewer rows than that.  The loop that fetches missing
    blocks ([fetch_quorum_cert]) pushes a block to a vector in every round, so its bound is
    that of a vector; the loops of the block tree pass every block once, and the one over
    the peers takes a peer away in every round but the first.  Pruning a tree of
    uncommitted transactions ([prune_node]) goes down 257 levels, one more than a key has
    bits.  Third-party code
    (cryptography, RocksDB) and the serialization LCS appear as type classes whose laws
    are assumptions of the theorems; [Crypto.Symbolic], [Concrete], [ByteConcrete] and
    [SchemaDb.MemRocks] are instances that satisfy them.

    ** The files

    - [Prelude]: results, the state monad and its triples, sums, maps, tactics.
    - [U64]: 64-bit arithmetic and the bit tricks.  [Bytes]: byte strings, their order.
    - [Position] ([types/src/proof/position]): in-order positions of tree nodes; the
      operations are shown to navigate the complete binary tree [inorder level index].
    - [Accumulator] ([types/src/proof/accumulator]): the in-memory accumulator, and the
      reference tree ([nhash], [tree_root]) which it refines.
    - [AccumulatorProof] ([types/src/proof/definition.rs]): inclusion, range, consistency
      and extension proofs and their verifiers.  [ProofSoundness]: a proof of any shape
      that verifies shows the true leaves or exhibits two preimages with one hash.
    - [MerkleAccumulator] ([storage/accumulator]): the accumulator over a store of frozen
      nodes; appending and the proof generators against the reference tree.
    - [Crypto], [Hash] ([crypto/crypto/src]): interfaces of signatures and hashes; hash
      values as bytes, bits and nibbles.
    - [SparseMerkleProof]: proofs of account states, present or absent.
      [SparseMerkleTree]: the proofs of the reference tree, which the verifier accepts.
    - [ValidatorVerifier], [LedgerInfo] ([types/src]): validator sets and quorums; block
      and ledger infos, waypoints, epoch changes and the trusted state of a client.
    - [LedgerProof] ([types/src/transaction], [contract_event.rs],
      [account_state_blob.rs], [proof/definition.rs]): transactions, events, account
      states, and what a client learns when it verifies them under a ledger info.
    - [NibblePath], [NodeType], [JellyfishMerkle] ([storage/jellyfish-merkle]): paths,
      nodes, the cache of an update, batched updates and proofs.  [NodeTypeProof],
      [NodeCodec]: a node has the hash of the four levels it stands for, and is read back
      from its encoding.  [JellyfishMerkleProof], [JellyfishMerkleUpdate],
      [JellyfishMerkleNodes], [JellyfishMerkleBatch]: the stored nodes of a version
      represent a list of entries ([version_tree]); a batch of updates yields the trees of
      the updated entries and keeps those of earlier versions, and the nodes it marks
      stale are reached by earlier versions only.
    - [SchemaDb] ([storage/schemadb]): typed tables over RocksDB.  [Lcs]: serialization.
    - [Schema], [LedgerCounters], [LedgerStore], [StateStore], [EventStore],
      [TransactionStore], [LibraDB] ([storage/libradb]): the codecs, the counters and
      change sets, the stores, and the database as its clients see it.  The stores share
      one database, so each is a view of the state [LibraDB].
    - [Tables]: the column families as finite maps.  [LedgerStoreProof],
      [StateStoreProof], [EventStoreProof], [TransactionStoreProof]: what each store
      writes and reads, on these maps.
    - [LibraDBProof]: the database represents a ledger, a list of transactions with their
      outputs and a list of ledger infos ([db_ok]); saving refines appending to it, and
      opening finds it again.  [LibraDBReads]: every read returns what the ledger holds,
      with proofs that the verifiers of [LedgerProof] accept.
    - [Pruner] ([storage/libradb/src/pruner]): the worker that deletes old state nodes.
      [PrunerProof]: the step relation [sys_step] interleaves its accesses to the database
      with the preparation, the write and the announcement of batches by
      [save_transactions]; versions within the window stay readable, and the worker catches
      up while the index marks stale nodes up to its target.
    - [Scratchpad] ([storage/scratchpad/src/sparse_merkle]): the trees of uncommitted
      transactions, whose nodes are the entries of a heap that the trees share.
      [ScratchpadProof]: over any sequence of new trees, updates and commits ([sp_step])
      every tree represents the stored accounts with its updates applied.
    - [ConsensusTypes] ([consensus/consensus-types]): votes, quorum certificates, blocks.
    - [SecureStorage] ([secure/storage]), [SafetyRules] ([consensus/safety-rules]): the
      component that signs votes, with its persistent state.
    - [SafetyRulesProof]: the invariant of SafetyRules over any sequence of calls,
      restarts and storage failures within an epoch, and what an epoch change leaves behind
      that fails at any of its writes ([interrupted]).  [ConsensusSafety]: no two quorums of an epoch commit
      conflicting blocks while less than a third of the voting power is Byzantine.
    - [PendingVotes] ([consensus/src/pending_votes.rs]): the aggregation of votes into
      certificates, against a count of the ballots.
    - [ProposerElection], [LeaderReputation] ([consensus/src/liveness]): who proposes.
      [RoundState]: the rounds of a validator, which increase.
    - [BlockTree] ([consensus/src/block_storage/block_tree.rs]): the blocks above the last
      committed one.  [BlockTreeProof]: the invariant [tree_ok] of every operation, and
      what pruning and paths are.
    - [ConsensusDb], [Recovery] ([consensus/src/consensusdb],
      [persistent_liveness_storage.rs]): what the node stores, and how it finds its blocks
      again at a restart.  [PersistentLivenessStorage] is the interface that the block
      store uses; the database is an instance that meets its laws.
    - [BlockStore] ([block_storage/block_store.rs], [sync_manager.rs]): the tree with the
      executor, the storage and the peers, each an interface.  [BlockStoreProof]: nothing
      is in memory only, commits are chains, fetched blocks are verified.
    - [RoundManager] ([round_manager.rs], [liveness/proposal_generator.rs]): the handlers
      of the events of a validator.  [RoundManagerProof]: over any sequence of events, a
      validator does not equivocate; [SafetyRules] is an instance of the interface
      [TSafetyRules] that this relies on.
    - [Text]: the text forms of waypoints.  [Concrete], [Network], [Examples],
      [ByteConcrete], [ConsensusExamples], [NodeExamples], [RecoveryExamples],
      [LedgerExamples], [StorageExamples], [ScratchpadExamples]: instances of the
      interfaces, and the theorems applied to them.  [Examples] also runs two behaviours
      worth knowing: a validator that votes twice after an interrupted epoch change, and one
      whose last voted round falls when it repeats a vote.

    Handlers of the round manager run one at a time, as the event loop of the node runs
    them; state that is shared behind locks is part of the one state they pass on.  The
    clock is a sequence of times, random choices are functions of the attempt, messages
    and timers are logged in the order they are sent and started, and the order in which a
    hash map or set is iterated is, where a result depends on it, any permutation of its
    entries ([HashMapOrder], [HashSetOrder]).

    A verifier of accumulator proofs reads only as many bits of an index as the proof has
    levels.  The theorems on proofs therefore speak of the index as it is read
    ([ProofSoundness.index_read]), which is the index itself within the list and its
    remainder by the width of the tree beyond.

    Reads of the database may fail in the model, and their errors are passed on as in the
    code; the laws of RocksDB ([RocksDBLaws]) are those of a disk on which reads succeed,
    while writes may still fail.

    ** Not modelled

    The Move language and its virtual machine, the network, mempool, state synchronizer,
    executor, JSON-RPC and the tools are not modelled.  Of LibraDB, the backup and restore
    handlers and the iterator and restore of the Jellyfish Merkle tree are left out;
    opening the files of RocksDB is I/O.  Of the consensus node, the epoch manager, which
    starts the managers of an epoch and hands them their messages, the network task, and
    the proxies to mempool, executor and state synchronizer are left out; waiting until
    the time of a block has come is left out, and the duration of a round is a parameter,
    as it is computed in floating point.  Cryptographic primitives, RocksDB and LCS are
    interfaces.  An operation on a tree of uncommitted transactions is one step: the locks
    that it takes node by node are not interleaved with another operation's.  Metrics,
    logging and display are left out, except the counters of
    SafetyRules. *)

From Stdlib Require Export ZArith Lia.
From Stdlib Require Sorted.
From stdpp Require Export base option list gmap strings numbers.

#[global] Open Scope Z_scope.

(** ** Rust's [Result], with panics *)

(** The outcome of a fallible Rust function: [Ok], [Err], or a panic (a failed
    [assert!], [expect] or out-of-range index). *)
Inductive result (E A : Type) : Type :=
| Ok (a : A)
| Err (e : E)
| Panic.
Arguments Ok {E A} a.
Arguments Err {E A} e.
Arguments Panic {E A}.

#[global] Instance result_eq_dec `{EqDecision E, EqDecision A} : EqDecision (result E A).
Proof. solve_decision. Defined.

#[global] Instance result_ret E : MRet (result E) := fun _ a => Ok a.
#[global] Instance result_bind E : MBind (result E) := fun _ _ f r =>
  match r with Ok a => f a | Err e => Err e | Panic => Panic end.
#[global] Instance result_fmap E : FMap (result E) := fun _ _ f r =>
  match r with Ok a => Ok (f a) | Err e => Err e | Panic => Panic end.

(** [ensure!(cond, msg)] of the anyhow crate. *)
Definition ensure {E} (b : bool) (e : E) : result E unit := if b then Ok tt else Err e.

(** [assert!(cond)]. *)
Definition assert_ {E} (b : bool) : result E unit := if b then Ok tt else Panic.

(** [opt.ok_or(e)]. *)
Definition ok_or {E A} (o : option A) (e : E) : result E A :=
  match o with Some a => Ok a | None => Err e end.

(** [opt.expect(..)], [opt.unwrap()]. *)
Definition expect {E A} (o : option A) : result E A :=
  match o with Some a => Ok a | None => Panic end.
(** [expect] on a [Result]. *)
Definition result_expect {E E' A} (r : result E A) : result E' A := match r with Ok a => Ok a | _ => Panic end.

(** [r.map_err(f)]. *)
Definition map_err {E E' A} (f : E -> E') (r : result E A) : result E' A :=
  match r with Ok a => Ok a | Err e => Err (f e) | Panic => Panic end.

(** [r.ok()]. *)
Definition result_ok {E A} (r : result E A) : option A :=
  match r with Ok a => Some a | _ => None end.

(** [r.is_ok()]. *)
Definition is_ok {E A} (r : result E A) : bool := match r with Ok _ => true | _ => false end.

(** [iter.map(f).collect::<Result<Vec<_>>>()]: stops at the first failure. *)
Fixpoint result_collect {E A B} (f : A -> result E B) (l : list A) : result E (list B) :=
  match l with
  | [] => Ok []
  | x :: l => y ← f x; ys ← result_collect f l; Ok (y :: ys)
  end.

(** A loop [for x in l { body }] threading a state through a fallible body. *)
Fixpoint result_fold {E A S} (f : S -> A -> result E S) (l : list A) (s : S) : result E S :=
  match l with
  | [] => Ok s
  | x :: l => s' ← f s x; result_fold f l s'
  end.

Lemma filter_none {A} (f : A -> bool) l : (forall x, In x l -> f x = false) -> List.filter f l = [].
Proof.
  induction l as [|x l IH]; [done|]. cbn. intros H. rewrite H by (by left). apply IH. intros; apply H. by right.
Qed.

(** Every index has the one property, or some index has the other. *)
Lemma all_or_some (P Q : nat -> Prop) n : (forall j, (j < n)%nat -> P j \/ Q j) ->
  (forall j, (j < n)%nat -> P j) \/ exists j, (j < n)%nat /\ Q j.
Proof.
  induction n as [|n IH]; intros H; [left; lia|].
  destruct IH as [Hp|(j & Hj & Hq)]; [intros j Hj; apply H; lia| |right; exists j; split; [lia|done]].
  destruct (H n) as [Hn|Hn]; [lia| |right; exists n; split; [lia|done]].
  left. intros j Hj. destruct (decide (j = n)) as [->|]; [done|]. apply Hp. lia.
Qed.

(** Strongly sorted lists, by positions. *)
Lemma strongly_sorted_lookup {A} (R : A -> A -> Prop) l :
  (forall i j x y, (i < j)%nat -> l !! i = Some x -> l !! j = Some y -> R x y) -> Sorted.StronglySorted R l.
Proof.
  induction l as [|x l IH]; intros Hl; constructor.
  - apply IH. intros i j y z Hij Hi Hj. by apply (Hl (S i) (S j)); [lia|..].
  - apply list.Forall_forall. intros y [j Hj]%list_elem_of_lookup. by apply (Hl O (S j)); [lia|..].
Qed.
Lemma strongly_sorted_lookup_1 {A} (R : A -> A -> Prop) l : Sorted.StronglySorted R l ->
  forall i j x y, (i < j)%nat -> l !! i = Some x -> l !! j = Some y -> R x y.
Proof.
  induction 1 as [|x l _ IH Hf]; intros i j y z Hij Hi Hj; [done|]. destruct j as [|j]; [lia|].
  destruct i as [|i]; cbn in Hi, Hj.
  - injection Hi as <-. rewrite list.Forall_forall in Hf. apply Hf. by eapply list_elem_of_lookup_2.
  - by apply (IH i j); [lia|..].
Qed.

Lemma filter_sorted {A} (R : A -> A -> Prop) f l : Sorted.StronglySorted R l -> Sorted.StronglySorted R (List.filter f l).
Proof.
  induction 1 as [|x l _ IH Hl]; cbn; [constructor|]. destruct (f x); [|done]. constructor; [done|].
  apply list.Forall_forall. intros y Hy%list_elem_of_In%filter_In. rewrite list.Forall_forall in Hl. apply Hl.
  apply list_elem_of_In, Hy.
Qed.

(** ** Rows put into a map one after the other *)

Section MapPut.
Context {K V : Type} `{Countable K}.

Definition map_put (rows : list (K * V)) (m : gmap K V) : gmap K V :=
  fold_left (fun m row => <[row.1 := row.2]> m) rows m.

Lemma map_put_app rows1 rows2 m : map_put (rows1 ++ rows2) m = map_put rows2 (map_put rows1 m).
Proof. apply fold_left_app. Qed.

Lemma map_put_notin rows : forall m k, k ∉ rows.*1 -> map_put rows m !! k = m !! k.
Proof.
  induction rows as [|[k' v] rows IH]; intros m k Hk; [done|]. cbn in Hk. apply not_elem_of_cons in Hk as [Hne Hk].
  unfold map_put. cbn [fold_left]. fold (map_put rows (<[k' := v]> m)). rewrite IH, lookup_insert_ne by done. done.
Qed.

(** A key whose rows all carry the same value. *)
Lemma map_put_elem rows : forall m k v, (k, v) ∈ rows -> (forall v', (k, v') ∈ rows -> v' = v) ->
  map_put rows m !! k = Some v.
Proof.
  induction rows as [|[k' v'] rows IH]; intros m k v Hin Hv; [by apply elem_of_nil in Hin|].
  unfold map_put. cbn [fold_left]. fold (map_put rows (<[k' := v']> m)). destruct (decide (k ∈ rows.*1)) as [Hk|Hk].
  - apply IH; [|intros v'' Hv''; apply Hv; by right]. apply list_elem_of_fmap in Hk as ([k1 v1] & -> & Hk).
    cbn in *. by rewrite (Hv v1) in Hk; [|by right].
  - rewrite map_put_notin by done. apply elem_of_cons in Hin as [[= -> ->]|Hin].
    + by rewrite lookup_insert_eq.
    + exfalso. apply Hk. apply list_elem_of_fmap. by exists (k, v).
Qed.

Lemma map_put_inv rows m k v : map_put rows m !! k = Some v -> (k, v) ∈ rows \/ m !! k = Some v.
Proof.
  revert m. induction rows as [|[k' v'] rows IH]; intros m; [by right|]. unfold map_put. cbn [fold_left].
  fold (map_put rows (<[k' := v']> m)). intros [Hin|Hm]%IH; [left; by right|]. cbn in Hm.
  destruct (decide (k' = k)) as [->|].
  - rewrite lookup_insert_eq in Hm. injection Hm as ->. left. by left.
  - rewrite lookup_insert_ne in Hm by done. by right.
Qed.

Lemma map_put_union rows m : map_put rows m = map_put rows ∅ ∪ m.
Proof.
  apply map_eq. intros k. destruct (decide (k ∈ rows.*1)) as [Hk|Hk].
  - assert (Hs : forall m1 m2 : gmap K V, map_put rows m1 !! k = map_put rows m2 !! k /\ is_Some (map_put rows m1 !! k)).
    { clear m. revert Hk. induction rows as [|[k' v'] rows IH]; intros Hk m1 m2; [by apply elem_of_nil in Hk|].
      unfold map_put. cbn [fold_left]. fold (map_put rows (<[k' := v']> m1)). fold (map_put rows (<[k' := v']> m2)).
      destruct (decide (k ∈ rows.*1)) as [Hk'|Hk']; [by apply IH|]. rewrite !map_put_notin by done.
      cbn in Hk. apply elem_of_cons in Hk as [->|?]; [|done]. rewrite !lookup_insert_eq. cbn. by split; [|eexists]. }
    destruct (Hs m ∅) as [E [v Hv]]. rewrite E. symmetry. rewrite E in Hv. rewrite Hv. by apply lookup_union_Some_l.
  - rewrite map_put_notin, lookup_union_r by (done || by rewrite map_put_notin, lookup_empty). done.
Qed.

Lemma map_put_map (w m : gmap K V) : map_put (map_to_list w) m = w ∪ m.
Proof.
  apply map_eq. intros k. destruct (w !! k) as [v|] eqn:E.
  - rewrite (lookup_union_Some_l _ _ _ _ E). apply map_put_elem; [by apply elem_of_map_to_list|].
    intros v' Hv'%elem_of_map_to_list. congruence.
  - rewrite lookup_union_r by done. apply map_put_notin. intros Hk. apply list_elem_of_fmap in Hk as ([k' v] & -> & Hk).
    apply elem_of_map_to_list in Hk. cbn in E. congruence.
Qed.

Lemma map_put_keys (f : K -> V) ks m k : is_Some (map_put (map (fun k => (k, f k)) ks) m !! k) <-> k ∈ ks \/ is_Some (m !! k).
Proof.
  destruct (decide (k ∈ ks)) as [Hk|Hk].
  - rewrite (map_put_elem _ _ _ (f k)); [split; [by left|by eexists]|by apply (list_elem_of_fmap_2 (fun k => (k, f k)))|].
    intros v' Hv'. apply list_elem_of_fmap in Hv' as (k' & E & _). by injection E as -> ->.
  - rewrite map_put_notin; [naive_solver|]. rewrite <- list_fmap_compose. intros Hin. apply Hk.
    apply list_elem_of_fmap in Hin as (k' & -> & ?). done.
Qed.
End MapPut.

(** ** Sums over lists *)

Fixpoint zsum {A} (f : A -> Z) (l : list A) : Z :=
  match l with [] => 0 | x :: l => f x + zsum f l end.

#[global] Instance list_subset_dec `{EqDecision A} (l1 l2 : list A) : Decision (l1 ⊆ l2).
Proof.
  destruct (decide (Forall (fun x => x ∈ l2) l1)) as [Hf|Hf]; rewrite list.Forall_forall in Hf; by constructor.
Defined.

Lemma not_list_subset `{EqDecision A} (l1 l2 : list A) : ~ l1 ⊆ l2 -> exists x, x ∈ l1 /\ x ∉ l2.
Proof.
  intros Hn. destruct (decide (Exists (fun x => x ∉ l2) l1)) as [He|He].
  - apply list.Exists_exists in He. naive_solver.
  - exfalso. apply Hn. intros x Hx. destruct (decide (x ∈ l2)); [done|]. exfalso. apply He.
    apply list.Exists_exists. eauto.
Qed.

Section Sums.
Context {A : Type} (f : A -> Z).

Lemma zsum_app l1 l2 : zsum f (l1 ++ l2) = zsum f l1 + zsum f l2.
Proof. induction l1 as [|x l1 IH]; cbn; lia. Qed.

Lemma zsum_perm l1 l2 : l1 ≡ₚ l2 -> zsum f l1 = zsum f l2.
Proof. induction 1; cbn; lia. Qed.

Lemma zsum_nonneg l : (forall x, x ∈ l -> 0 <= f x) -> 0 <= zsum f l.
Proof.
  induction l as [|x l IH]; cbn; [lia|]. intros Hf. pose proof (Hf x (list_elem_of_here _ _)).
  enough (0 <= zsum f l) by lia. apply IH. intros y Hy. apply Hf. by constructor.
Qed.

Lemma zsum_filter (P : A -> Prop) `{!forall x, Decision (P x)} l :
  zsum f (filter P l) + zsum f (filter (fun x => ~ P x) l) = zsum f l.
Proof.
  induction l as [|x l IH]; [done|]. rewrite !filter_cons.
  destruct (decide (P x)), (decide (~ P x)); cbn; try done; lia.
Qed.

(** A list of distinct elements of another list sums to at most as much. *)
Lemma zsum_subset l1 l2 : (forall x, x ∈ l2 -> 0 <= f x) -> NoDup l1 -> l1 ⊆ l2 -> zsum f l1 <= zsum f l2.
Proof.
  intros Hf Hnd Hsub. assert (Hs : l1 ⊆+ l2) by (by apply NoDup_submseteq).
  apply submseteq_Permutation in Hs as [k Hk]. rewrite (zsum_perm _ _ Hk), zsum_app.
  enough (0 <= zsum f k) by lia. apply zsum_nonneg. intros x Hx. apply Hf. rewrite Hk.
  apply elem_of_app. by right.
Qed.

(** Two subsets of [l] that together weigh more than [l] overlap in at least the
    difference. *)
Lemma zsum_overlap `{!EqDecision A} l1 l2 l : (forall x, x ∈ l -> 0 <= f x) ->
  NoDup l1 -> NoDup l2 -> l1 ⊆ l -> l2 ⊆ l ->
  zsum f l1 + zsum f l2 <= zsum f l + zsum f (filter (fun x => x ∈ l2) l1).
Proof.
  intros Hf H1 H2 S1 S2. rewrite <- (zsum_filter (fun x => x ∈ l2) l1).
  enough (zsum f (filter (fun x => ~ x ∈ l2) l1 ++ l2) <= zsum f l) by (rewrite zsum_app in *; lia).
  apply zsum_subset; [done| |].
  - apply list.NoDup_app. split_and!; [by apply list.NoDup_filter| |done].
    intros x Hx. by apply list_elem_of_filter in Hx as [? _].
  - intros x [Hx|Hx]%elem_of_app; [|by apply S2]. apply list_elem_of_filter in Hx as [_ ?]. by apply S1.
Qed.
End Sums.

Section ResultLemmas.
Context {E : Type}.

Lemma bind_Ok {A B} (m : result E A) (f : A -> result E B) b :
  m ≫= f = Ok b <-> exists a, m = Ok a /\ f a = Ok b.
Proof. destruct m; cbn; naive_solver. Qed.

Lemma fmap_Ok {A B} (m : result E A) (f : A -> B) b :
  f <$> m = Ok b <-> exists a, m = Ok a /\ b = f a.
Proof. destruct m; cbn; naive_solver. Qed.

Lemma ensure_Ok (b : bool) (e : E) u : ensure b e = Ok u <-> b = true.
Proof. destruct b, u; cbn; naive_solver. Qed.

Lemma assert_Ok (b : bool) u : assert_ (E:=E) b = Ok u <-> b = true.
Proof. destruct b, u; cbn; naive_solver. Qed.

Lemma ok_or_Ok {A} (o : option A) (e : E) a : ok_or o e = Ok a <-> o = Some a.
Proof. destruct o; cbn; naive_solver. Qed.

Lemma expect_Ok {A} (o : option A) a : expect (E:=E) o = Ok a <-> o = Some a.
Proof. destruct o; cbn; naive_solver. Qed.

Lemma map_err_Ok {E' A} (f : E -> E') (r : result E A) a :
  map_err f r = Ok a <-> r = Ok a.
Proof. destruct r; cbn; naive_solver. Qed.

Lemma result_collect_app {A B} (f : A -> result E B) l1 l2 :
  result_collect f (l1 ++ l2) =
  y1 ← result_collect f l1; y2 ← result_collect f l2; Ok (y1 ++ y2).
Proof.
  induction l1 as [|x l1 IH]; cbn.
  - by destruct (result_collect f l2).
  - destruct (f x); cbn; try done. rewrite IH.
    destruct (result_collect f l1); cbn; try done. by destruct (result_collect f l2).
Qed.

Lemma result_collect_Ok {A B} (f : A -> result E B) l ys :
  result_collect f l = Ok ys <-> Forall2 (fun x y => f x = Ok y) l ys.
Proof.
  revert ys. induction l as [|x l IH]; intros ys; cbn.
  - split; [intros [= <-]; constructor | inversion 1; done].
  - rewrite bind_Ok. setoid_rewrite bind_Ok. setoid_rewrite IH. split.
    + intros (y & ? & ys' & ? & [= <-]). by constructor.
    + inversion 1; subst. eauto 10.
Qed.

Lemma result_collect_elem {A B} (f : A -> result E B) l ys x :
  result_collect f l = Ok ys -> x ∈ l -> exists y, f x = Ok y.
Proof.
  intros Hf%result_collect_Ok. induction Hf as [|z y l ys Hy _ IH]; [by intros ?%elem_of_nil|].
  intros [->|Hx]%elem_of_cons; eauto.
Qed.

Lemma result_collect_map {A B} (f : A -> result E B) (g : A -> B) l :
  (forall x, In x l -> f x = Ok (g x)) -> result_collect f l = Ok (map g l).
Proof.
  intros Hf. apply result_collect_Ok. induction l as [|x l IH]; constructor.
  - apply Hf; by left.
  - apply IH. intros; apply Hf; by right.
Qed.

Lemma result_fold_app {A S} (f : S -> A -> result E S) l1 l2 s :
  result_fold f (l1 ++ l2) s = s' ← result_fold f l1 s; result_fold f l2 s'.
Proof.
  revert s. induction l1 as [|x l1 IH]; intros s; cbn; [done|].
  destruct (f s x); cbn; auto.
Qed.
End ResultLemmas.

(** ** Loops that exit from their body

    [loop { body }]: the body goes on with a new state ([inl]) or leaves the loop with a
    result ([inr]).  The fuel is binary, so that it can exceed any count of 64 bits and
    the loop still runs as long as its body, no longer. *)
Section Loops.
Context {S R : Type} (body : S -> S + R).

Fixpoint loop_for (fuel : positive) (s : S) : S + R :=
  match fuel with
  | xH => body s
  | xO p => match loop_for p s with inl s' => loop_for p s' | inr r => inr r end
  | xI p =>
    match body s with
    | inl s' => match loop_for p s' with inl s'' => loop_for p s'' | inr r => inr r end
    | inr r => inr r
    end
  end.

(** The same, one round after the other. *)
Fixpoint rounds (n : nat) (s : S) : S + R :=
  match n with
  | O => inl s
  | Datatypes.S n => match body s with inl s' => rounds n s' | inr r => inr r end
  end.

Lemma rounds_add n : forall m s, rounds (n + m) s = match rounds n s with inl s' => rounds m s' | inr r => inr r end.
Proof. induction n as [|n IH]; intros m s; cbn; [done|]. by destruct (body s). Qed.

Lemma loop_for_rounds fuel : forall s, loop_for fuel s = rounds (Pos.to_nat fuel) s.
Proof.
  induction fuel as [p IH|p IH|]; intros s; cbn [loop_for].
  - rewrite Pos2Nat.inj_xI. replace (Datatypes.S (2 * Pos.to_nat p))%nat with (Datatypes.S (Pos.to_nat p + Pos.to_nat p)) by lia.
    cbn [rounds]. destruct (body s) as [s'|r]; [|done]. rewrite rounds_add, IH. by destruct (rounds _ s').
  - rewrite Pos2Nat.inj_xO. replace (2 * Pos.to_nat p)%nat with (Pos.to_nat p + Pos.to_nat p)%nat by lia.
    rewrite rounds_add, IH. by destruct (rounds _ s).
  - change (Pos.to_nat 1) with 1%nat. cbn [rounds]. by destruct (body s).
Qed.

(** A loop that leaves within the fuel. *)
Lemma loop_for_exits fuel n s r : (n <= Pos.to_nat fuel)%nat -> rounds n s = inr r -> loop_for fuel s = inr r.
Proof.
  intros Hn E. rewrite loop_for_rounds. replace (Pos.to_nat fuel) with (n + (Pos.to_nat fuel - n))%nat by lia.
  by rewrite rounds_add, E.
Qed.

(** What the body keeps holds when the loop exits. *)
Lemma rounds_invariant (I : S -> Prop) n : forall s r, I s -> (forall s s', I s -> body s = inl s' -> I s') -> rounds n s = inr r ->
  exists s', I s' /\ body s' = inr r.
Proof.
  induction n as [|n IH]; intros s r Hs Hb Hr; cbn in Hr; [done|]. destruct (body s) as [s'|r'] eqn:E; [by eapply IH; [eapply Hb|..]|].
  injection Hr as <-. by exists s.
Qed.
End Loops.

(** No [Vec] holds more than [usize::MAX] elements, so a loop that fills one runs less
    than this often. *)
Definition vec_fuel : positive := 2 ^ 64.

Lemma vec_fuel_nat n : Z.of_nat n <= 2 ^ 64 -> (n <= Pos.to_nat vec_fuel)%nat.
Proof. intros Hn. apply Nat2Z.inj_le. by rewrite positive_nat_Z. Qed.

(** [loop { .. }] whose result is a [Result]. *)
Definition run_loop {S E A} (body : S -> S + result E A) (s : S) : result E A :=
  match loop_for body vec_fuel s with inl _ => Panic | inr r => r end.

Lemma run_loop_exits {S E A} (body : S -> S + result E A) n s r :
  Z.of_nat n <= 2 ^ 64 -> rounds body n s = inr r -> run_loop body s = r.
Proof. intros Hn E1. unfold run_loop. by rewrite (loop_for_exits body vec_fuel n s r (vec_fuel_nat n Hn) E1). Qed.

Lemma run_loop_invariant {S E A} (body : S -> S + result E A) (I : S -> Prop) s a : I s ->
  (forall s s', I s -> body s = inl s' -> I s') -> run_loop body s = Ok a -> exists s', I s' /\ body s' = inr (Ok a).
Proof.
  unfold run_loop. rewrite loop_for_rounds. intros Hs Hb Hr. destruct (rounds body (Pos.to_nat vec_fuel) s) as [s'|r] eqn:E1; [done|]. subst r.
  by eapply rounds_invariant.
Qed.

(** ** Fallible code over a mutable state

    A method [fn m(&mut self, ..) -> Result<A, E>] keeps the writes it made
    before it failed, so the state is returned on every path. *)
Definition M (S E A : Type) : Type := S -> S * result E A.

Definition m_ret {S E A} (a : A) : M S E A := fun s => (s, Ok a).
Definition m_bind {S E A B} (m : M S E A) (k : A -> M S E B) : M S E B := fun s =>
  match m s with
  | (s', Ok a) => k a s'
  | (s', Err e) => (s', Err e)
  | (s', Panic) => (s', Panic)
  end.
Definition m_lift {S E A} (r : result E A) : M S E A := fun s => (s, r).
Definition m_get {S E} : M S E S := fun s => (s, Ok s).
Definition m_gets {S E A} (f : S -> A) : M S E A := fun s => (s, Ok (f s)).
Definition m_reads {S E A} (f : S -> result E A) : M S E A := fun s => (s, f s).
Definition m_modify {S E} (f : S -> S) : M S E unit := fun s => (f s, Ok tt).
Definition m_ensure {S E} (b : bool) (e : E) : M S E unit := m_lift (ensure b e).
Definition m_err {S E A} (e : E) : M S E A := m_lift (Err e).

(** [r.map_err(f)?] and [r.expect(..)] on such a method. *)
Definition m_map_err {S E E' A} (f : E -> E') (m : M S E A) : M S E' A := fun s => let '(s', r) := m s in (s', map_err f r).
Definition m_expect {S E E' A} (m : M S E A) : M S E' A := fun s => let '(s', r) := m s in (s', result_expect r).
(** [if let Err(e) = m { log }]: the error is dropped. *)
Definition m_ignore {S E E' A} (m : M S E A) : M S E' unit := fun s =>
  match m s with (s', Panic) => (s', Panic) | (s', _) => (s', Ok tt) end.
(** [for x in l { body }]. *)
Fixpoint m_for_each {S E A} (body : A -> M S E unit) (l : list A) : M S E unit :=
  match l with
  | [] => m_ret tt
  | x :: l => m_bind (body x) (fun _ => m_for_each body l)
  end.
(** [loop { body }] in a method. *)
Definition m_loop {S E X A} (body : X -> M S E (X + A)) (x : X) : M S E A := fun s =>
  match loop_for (fun '(s, x) =>
          match body x s with
          | (s, Ok (inl x)) => inl (s, x)
          | (s, Ok (inr a)) => inr (s, Ok a)
          | (s, Err e) => inr (s, Err e)
          | (s, Panic) => inr (s, Panic)
          end) vec_fuel (s, x) with
  | inl (s, _) => (s, Panic)
  | inr r => r
  end.

Declare Scope libra_scope.
Delimit Scope libra_scope with libra.
#[global] Open Scope libra_scope.

Notation "'let*' x := m 'in' k" := (m_bind m (fun x => k))
  (at level 10, x name, m at level 100, k at level 200) : libra_scope.
Notation "'run*' m 'in' k" := (m_bind m (fun _ => k))
  (at level 10, m at level 100, k at level 200) : libra_scope.

Lemma m_bind_Ok {S E A B} (m : M S E A) (k : A -> M S E B) s s' b :
  m_bind m k s = (s', Ok b) <-> exists s1 a, m s = (s1, Ok a) /\ k a s1 = (s', Ok b).
Proof. unfold m_bind. destruct (m s) as [s1 [a|e|]]; naive_solver. Qed.

Lemma m_bind_run {S E A B} (m : M S E A) (k : A -> M S E B) s s' a : m s = (s', Ok a) -> m_bind m k s = k a s'.
Proof. intros E1. unfold m_bind. by rewrite E1. Qed.
Lemma m_bind_lift {S E A B} (r : result E A) (k : A -> M S E B) s a : r = Ok a -> m_bind (m_lift r) k s = k a s.
Proof. by intros ->. Qed.

(** *** Triples: what holds after success and after failure *)

Definition triple {S E A} (P : S -> Prop) (m : M S E A) (Q : A -> S -> Prop) (R : S -> Prop) : Prop :=
  forall s, P s -> match m s with (s', Ok a) => Q a s' | (s', _) => R s' end.

Section Triples.
Context {S E : Type}.

Lemma triple_bind {A B} P (m : M S E A) Q R (k : A -> M S E B) Q' :
  triple P m Q R -> (forall a, triple (Q a) (k a) Q' R) -> triple P (m_bind m k) Q' R.
Proof.
  intros Hm Hk s HP. specialize (Hm s HP). unfold m_bind.
  destruct (m s) as [s1 [a|e|]]; [by apply Hk|done..].
Qed.

Lemma triple_lift {A} (P : S -> Prop) (r : result E A) Q R :
  (forall s, P s -> match r with Ok a => Q a s | _ => R s end) -> triple P (m_lift r) Q R.
Proof. intros Hr s HP. specialize (Hr s HP). cbn. by destruct r. Qed.

Lemma triple_reads {A} (P : S -> Prop) (f : S -> result E A) Q R :
  (forall s, P s -> match f s with Ok a => Q a s | _ => R s end) -> triple P (m_reads f) Q R.
Proof. intros Hf s HP. specialize (Hf s HP). cbn. by destruct (f s). Qed.

Lemma triple_gets {A} (P : S -> Prop) (f : S -> A) Q R :
  (forall s, P s -> Q (f s) s) -> triple P (m_gets (E:=E) f) Q R.
Proof. intros Hf s HP. by apply Hf. Qed.

Lemma triple_ret {A} (P : S -> Prop) (a : A) (Q : A -> S -> Prop) R : (forall s, P s -> Q a s) -> triple P (m_ret (E:=E) a) Q R.
Proof. intros HQ s HP. by apply HQ. Qed.

Lemma triple_err {A} (P : S -> Prop) (e : E) (Q : A -> S -> Prop) R : (forall s, P s -> R s) -> triple P (m_err e) Q R.
Proof. intros HR s HP. by apply HR. Qed.

Lemma triple_modify (P : S -> Prop) (f : S -> S) (Q : unit -> S -> Prop) (R : S -> Prop) : (forall s, P s -> Q tt (f s)) -> triple P (m_modify (E:=E) f) Q R.
Proof. intros HQ s HP. by apply HQ. Qed.

Lemma triple_ensure (P : S -> Prop) (b : bool) (e : E) (Q : unit -> S -> Prop) (R : S -> Prop) :
  (forall s, P s -> if b then Q tt s else R s) -> triple P (m_ensure (S:=S) b e) Q R.
Proof. intros HQ s HP. specialize (HQ s HP). unfold m_ensure, ensure. by destruct b. Qed.

Lemma triple_conseq {A} (P P' : S -> Prop) (m : M S E A) (Q Q' : A -> S -> Prop) (R R' : S -> Prop) :
  triple P m Q R -> (forall s, P' s -> P s) -> (forall a s, Q a s -> Q' a s) -> (forall s, R s -> R' s) ->
  triple P' m Q' R'.
Proof.
  intros Hm HP HQ HR s Hs. specialize (Hm s (HP s Hs)). destruct (m s) as [s1 [a|e|]]; auto.
Qed.

Lemma triple_map_err {E' A} (f : E' -> E) (P : S -> Prop) (m : M S E' A) Q R : triple P m Q R -> triple P (m_map_err f m) Q R.
Proof. intros Hm s HP. specialize (Hm s HP). unfold m_map_err. by destruct (m s) as [s1 [a|e|]]. Qed.
Lemma triple_expect {E' A} (P : S -> Prop) (m : M S E' A) Q R : triple P m Q R -> triple P (m_expect (E':=E) m) Q R.
Proof. intros Hm s HP. specialize (Hm s HP). unfold m_expect. by destruct (m s) as [s1 [a|e|]]. Qed.
Lemma triple_ignore {E' A} (P : S -> Prop) (m : M S E' A) (R : S -> Prop) : triple P m (fun _ => R) R -> triple P (m_ignore (E':=E) m) (fun _ => R) R.
Proof. intros Hm s HP. specialize (Hm s HP). unfold m_ignore. by destruct (m s) as [s1 [a|e|]]. Qed.

Lemma triple_for_each {A} (I : S -> Prop) (body : A -> M S E unit) R l :
  (forall x, x ∈ l -> triple I (body x) (fun _ => I) R) -> triple I (m_for_each body l) (fun _ => I) R.
Proof.
  induction l as [|x l IH]; intros Hb; cbn [m_for_each]; [by apply triple_ret|].
  eapply triple_bind; [apply Hb; by left|]. intros []. apply IH. intros y Hy. apply Hb. by right.
Qed.

Lemma triple_loop {X A} (I : X -> S -> Prop) (body : X -> M S E (X + A)) (Q : A -> S -> Prop) (R : S -> Prop) x :
  (forall x, triple (I x) (body x) (fun r s => match r with inl x => I x s | inr a => Q a s end) R) ->
  (forall x s, I x s -> R s) -> triple (I x) (m_loop body x) Q R.
Proof.
  intros Hb HR s Hs. unfold m_loop. rewrite loop_for_rounds. generalize (Pos.to_nat vec_fuel). intros n. revert s x Hs.
  induction n as [|n IH]; intros s x Hs; cbn [rounds]; [by eapply HR|].
  specialize (Hb x s Hs) as Hx. destruct (body x s) as [s1 [[x1|a]|e|]]; [by apply IH|done..].
Qed.

(** An existential precondition. *)
Lemma triple_exists {A X} (P : X -> S -> Prop) (m : M S E A) Q R :
  (forall x, triple (P x) m Q R) -> triple (fun s => exists x, P x s) m Q R.
Proof. intros Hm s [x Hx]. by apply (Hm x). Qed.

(** A precondition that does not speak of the state. *)
Lemma triple_pure {A} (p : Prop) (P : S -> Prop) (m : M S E A) Q R :
  (p -> triple P m Q R) -> triple (fun s => p /\ P s) m Q R.
Proof. intros Hm s [Hp HP]. by apply (Hm Hp). Qed.
End Triples.

(** ** Invariants of methods *)

(** The method keeps [I], whatever its outcome. *)
Definition preserves {S E A} (I : S -> Prop) (m : M S E A) : Prop := triple I m (fun _ => I) I.

Section Preserves.
Context {S E : Type} (I : S -> Prop).

Lemma preserves_bind {A B} (m : M S E A) (k : A -> M S E B) : preserves I m -> (forall a, preserves I (k a)) -> preserves I (m_bind m k).
Proof. intros Hm Hk. by eapply triple_bind. Qed.
Lemma preserves_lift {A} (r : result E A) : preserves I (m_lift r).
Proof. intros s Hs. cbn. by destruct r. Qed.
Lemma preserves_reads {A} (f : S -> result E A) : preserves I (m_reads f).
Proof. intros s Hs. cbn. by destruct (f s). Qed.
Lemma preserves_gets {A} (f : S -> A) : preserves (E:=E) I (m_gets f).
Proof. by intros s Hs. Qed.
Lemma preserves_ret {A} (a : A) : preserves (E:=E) I (m_ret a).
Proof. by intros s Hs. Qed.
Lemma preserves_err {A} (e : E) : preserves (A:=A) I (m_err e).
Proof. by intros s Hs. Qed.
Lemma preserves_ensure b (e : E) : preserves I (m_ensure b e).
Proof. apply preserves_lift. Qed.
Lemma preserves_ignore {E' A} (m : M S E' A) : preserves I m -> preserves (E:=E) I (m_ignore m).
Proof. intros Hm. by apply triple_ignore. Qed.
Lemma preserves_expect {E' A} (m : M S E' A) : preserves I m -> preserves (E:=E) I (m_expect m).
Proof. intros Hm. by apply triple_expect. Qed.
Lemma preserves_map_err {E' A} (f : E' -> E) (m : M S E' A) : preserves I m -> preserves I (m_map_err f m).
Proof. intros Hm. by apply triple_map_err. Qed.
Lemma preserves_for_each {A} (body : A -> M S E unit) l : (forall x, x ∈ l -> preserves I (body x)) -> preserves I (m_for_each body l).
Proof. apply triple_for_each. Qed.
End Preserves.

Create HintDb preserves.
#[export] Hint Resolve preserves_lift preserves_reads preserves_gets preserves_ret preserves_err preserves_ensure preserves_ignore preserves_expect preserves_map_err : preserves.

(** Follows the structure of a method. *)
Ltac preserve :=
  repeat match goal with
  | |- preserves _ (m_bind _ _) => apply preserves_bind; [|intros ?]
  | |- preserves _ (if ?b then _ else _) => destruct b
  | |- preserves _ (match ?x with _ => _ end) => destruct x
  | |- preserves _ _ => solve [eauto 4 with preserves]
  end.

Create HintDb libra.

(** ** Tactics *)

(** Splits hypotheses [do-block = Ok v] into the steps that succeeded. *)
Ltac res_inv_step :=
  match goal with
  | H : _ ≫= _ = Ok _ |- _ => apply bind_Ok in H as (? & ? & ?)
  | H : _ <$> _ = Ok _ |- _ => apply fmap_Ok in H as (? & ? & ?)
  | H : ensure _ _ = Ok _ |- _ => apply ensure_Ok in H
  | H : assert_ _ = Ok _ |- _ => apply assert_Ok in H
  | H : ok_or _ _ = Ok _ |- _ => apply ok_or_Ok in H
  | H : expect _ = Ok _ |- _ => apply expect_Ok in H
  | H : map_err _ _ = Ok _ |- _ => apply map_err_Ok in H
  | H : Ok _ = Ok _ |- _ => injection H as H
  | H : bool_decide _ = true |- _ => apply bool_decide_eq_true in H
  | H : bool_decide _ = false |- _ => apply bool_decide_eq_false in H
  | H : negb _ = true |- _ => apply negb_true_iff in H
  | H : _ && _ = true |- _ => apply andb_true_iff in H as [? ?]
  | H : Err _ = Ok _ |- _ => discriminate H
  | H : Panic = Ok _ |- _ => discriminate H
  end.
Ltac res_inv := repeat (res_inv_step; simplify_eq/=).

(** Case analysis on the boolean comparisons of integers in goal and context. *)
Ltac zbool_step :=
  match goal with
  | H : context [Z.eqb ?a ?b] |- _ => destruct (Z.eqb_spec a b)
  | H : context [Z.leb ?a ?b] |- _ => destruct (Z.leb_spec a b)
  | H : context [Z.ltb ?a ?b] |- _ => destruct (Z.ltb_spec a b)
  | |- context [Z.eqb ?a ?b] => destruct (Z.eqb_spec a b)
  | |- context [Z.leb ?a ?b] => destruct (Z.leb_spec a b)
  | |- context [Z.ltb ?a ?b] => destruct (Z.ltb_spec a b)
  end.
Ltac zbool := repeat (zbool_step; cbn in *; try done; try lia).
