(* ===== verification/U64.v ===== *)
(** * Unsigned 64-bit integers

    A [u64] of the source is a [Z] in [0, 2^64); arithmetic wraps (the release
    profile: [Cargo.toml] does not enable overflow checks), shifts and bit
    operations are those of [Z] truncated to the width, and the bit-counting
    intrinsics are executable. *)

From S2P Require Import Prelude.

Definition is_u64 (z : Z) : Prop := 0 <= z < 2 ^ 64.
#[global] Instance is_u64_dec z : Decision (is_u64 z).
Proof. unfold is_u64. apply _. Defined.

Definition u64_max : Z := 2 ^ 64 - 1.
Definition wrap64 (z : Z) : Z := z mod 2 ^ 64.

Definition u64_add (a b : Z) : Z := wrap64 (a + b).
Definition u64_sub (a b : Z) : Z := wrap64 (a - b).
Definition u64_mul (a b : Z) : Z := wrap64 (a * b).
Definition u64_shl (a n : Z) : Z := wrap64 (Z.shiftl a n).
Definition u64_shr (a n : Z) : Z := Z.shiftr a n.
Definition u64_not (a : Z) : Z := Z.lxor a (Z.ones 64).
(** [a.checked_add(b)]. *)
Definition u64_checked_add (a b : Z) : option Z :=
  if a + b <? 2 ^ 64 then Some (a + b) else None.

(** [x.trailing_zeros()]. *)
Fixpoint pos_trailing_zeros (p : positive) : Z :=
  match p with xO p => 1 + pos_trailing_zeros p | _ => 0 end.
Definition trailing_zeros64 (x : Z) : Z :=
  match x with Zpos p => pos_trailing_zeros p | _ => 64 end.

(** [x.leading_zeros()]. *)
Definition leading_zeros64 (x : Z) : Z := if x =? 0 then 64 else 63 - Z.log2 x.

(** [x.count_ones()]. *)
Fixpoint pos_count_ones (p : positive) : Z :=
  match p with xO p => pos_count_ones p | xI p => 1 + pos_count_ones p | xH => 1 end.
Definition count_ones64 (x : Z) : Z :=
  match x with Zpos p => pos_count_ones p | _ => 0 end.

(** ** Wrap-around *)

Lemma wrap64_range z : is_u64 (wrap64 z).
Proof. apply Z.mod_pos_bound. lia. Qed.

Lemma wrap64_small z : is_u64 z -> wrap64 z = z.
Proof. apply Z.mod_small. Qed.

Lemma u64_mul_small a b : 0 <= a * b < 2 ^ 64 -> u64_mul a b = a * b.
Proof. intros. by apply Z.mod_small. Qed.

Lemma u64_add_small a b : 0 <= a + b < 2 ^ 64 -> u64_add a b = a + b.
Proof. apply Z.mod_small. Qed.

Lemma u64_sub_small a b : 0 <= a - b < 2 ^ 64 -> u64_sub a b = a - b.
Proof. apply Z.mod_small. Qed.

Lemma u64_shl_small a n : 0 <= n -> 0 <= a * 2 ^ n < 2 ^ 64 -> u64_shl a n = a * 2 ^ n.
Proof. intros. unfold u64_shl. rewrite Z.shiftl_mul_pow2 by lia. by apply Z.mod_small. Qed.

Lemma u64_checked_add_small a b : a + b < 2 ^ 64 -> u64_checked_add a b = Some (a + b).
Proof. intros Hb. unfold u64_checked_add. destruct (Z.ltb_spec (a + b) (2 ^ 64)); [done|lia]. Qed.
Lemma u64_add_range a b : is_u64 (u64_add a b).
Proof. apply wrap64_range. Qed.

#[export] Hint Resolve wrap64_range u64_add_range : libra.
#[export] Hint Rewrite u64_add_small u64_sub_small using lia : libra.

(** ** Bit extensionality *)

Lemma testbit_ge n a i : 0 <= n -> 0 <= a < 2 ^ n -> n <= i -> Z.testbit a i = false.
Proof.
  intros Hn Ha Hi. destruct (decide (a = 0)) as [->|]; [apply Z.bits_0|].
  apply Z.bits_above_log2; [lia|].
  enough (Z.log2 a < n) by lia. apply Z.log2_lt_pow2; lia.
Qed.

Lemma testbit_u64_ge a i : is_u64 a -> 64 <= i -> Z.testbit a i = false.
Proof. intros. by apply (testbit_ge 64). Qed.

Lemma testbit_wrap64 a i : 0 <= i -> Z.testbit (wrap64 a) i = bool_decide (i < 64) && Z.testbit a i.
Proof.
  intros. unfold wrap64. case_bool_decide; cbn.
  - rewrite Z.mod_pow2_bits_low; done.
  - rewrite Z.mod_pow2_bits_high; [done|lia].
Qed.

Lemma testbit_u64_not a i : is_u64 a -> 0 <= i ->
  Z.testbit (u64_not a) i = bool_decide (i < 64) && negb (Z.testbit a i).
Proof.
  intros. unfold u64_not. rewrite Z.lxor_spec. case_bool_decide; cbn.
  - rewrite Z.ones_spec_low by lia. by destruct (Z.testbit a i).
  - rewrite Z.ones_spec_high, testbit_u64_ge by (done || lia). done.
Qed.

Lemma testbit_pow2 n i : 0 <= n -> 0 <= i -> Z.testbit (2 ^ n) i = bool_decide (i = n).
Proof.
  intros. case_bool_decide; subst; [by apply Z.pow2_bits_true|].
  apply Z.pow2_bits_false. congruence.
Qed.

Lemma u64_not_range a : is_u64 a -> is_u64 (u64_not a).
Proof.
  intros Ha. unfold u64_not, is_u64.
  assert (Hn : 0 <= Z.lxor a (Z.ones 64)).
  { apply Z.lxor_nonneg. unfold is_u64 in Ha. rewrite Z.ones_equiv. lia. }
  split; [done|].
  destruct (decide (Z.lxor a (Z.ones 64) = 0)) as [->|]; [lia|].
  apply Z.log2_lt_pow2; [lia|].
  eapply Z.le_lt_trans; [apply Z.log2_lxor; unfold is_u64 in Ha; rewrite ?Z.ones_equiv; lia|].
  apply Z.max_lub_lt.
  - destruct (decide (a = 0)) as [->|]; [done|]. apply Z.log2_lt_pow2; unfold is_u64 in Ha; lia.
  - done.
Qed.

(** ** Bit counting *)

Lemma pos_trailing_zeros_nonneg p : 0 <= pos_trailing_zeros p.
Proof. induction p; cbn [pos_trailing_zeros]; lia. Qed.

(** A positive number is an odd multiple of [2 ^ trailing_zeros]. *)
Lemma pos_trailing_zeros_spec p :
  exists q, 0 <= q /\ Zpos p = (2 * q + 1) * 2 ^ pos_trailing_zeros p.
Proof.
  induction p as [p IH|p IH|]; cbn [pos_trailing_zeros].
  - exists (Zpos p). lia.
  - destruct IH as (q & Hq & IH). exists q. split; [done|].
    rewrite Z.pow_add_r by (done || apply pos_trailing_zeros_nonneg). lia.
  - exists 0. lia.
Qed.

Lemma odd_part_unique a b m n :
  0 <= m -> 0 <= n -> (2 * a + 1) * 2 ^ m = (2 * b + 1) * 2 ^ n -> m = n /\ a = b.
Proof.
  intros Hm Hn H.
  assert (Hlt : forall a b m n, 0 <= m -> m < n ->
    (2 * a + 1) * 2 ^ m <> (2 * b + 1) * 2 ^ n).
  { clear. intros a b m n Hm Hlt H.
    replace n with (m + 1 + (n - m - 1)) in H by lia.
    rewrite !Z.pow_add_r in H by lia.
    assert (0 < 2 ^ m) by (apply Z.pow_pos_nonneg; lia).
    assert (2 * a + 1 = (2 * b + 1) * (2 * 2 ^ (n - m - 1))) by nia. lia. }
  destruct (Z.lt_total m n) as [?|[->|?]].
  - by apply Hlt in H.
  - split; [done|]. assert (0 < 2 ^ n) by (apply Z.pow_pos_nonneg; lia). nia.
  - symmetry in H. by apply Hlt in H.
Qed.

Lemma trailing_zeros64_spec q n : 0 <= q -> 0 <= n ->
  trailing_zeros64 ((2 * q + 1) * 2 ^ n) = n.
Proof.
  intros. assert (0 < 2 ^ n) by (apply Z.pow_pos_nonneg; lia).
  destruct ((2 * q + 1) * 2 ^ n) as [|p|p] eqn:E; [nia| |nia]. cbn.
  destruct (pos_trailing_zeros_spec p) as (q' & ? & E').
  rewrite <- E in E'. apply odd_part_unique in E' as [-> _]; auto using pos_trailing_zeros_nonneg.
Qed.

Lemma trailing_zeros64_pow2 n : 0 <= n -> trailing_zeros64 (2 ^ n) = n.
Proof. intros. rewrite <- (trailing_zeros64_spec 0 n) at 2 by lia. f_equal. lia. Qed.

Lemma trailing_zeros64_decomp x : 0 < x ->
  exists q, 0 <= q /\ 0 <= trailing_zeros64 x /\ x = (2 * q + 1) * 2 ^ trailing_zeros64 x.
Proof.
  destruct x as [|p|p]; try lia. intros _. cbn.
  destruct (pos_trailing_zeros_spec p) as (q & ? & ?).
  exists q. auto using pos_trailing_zeros_nonneg.
Qed.

Lemma trailing_zeros64_range x : is_u64 x -> 0 <= trailing_zeros64 x <= 64.
Proof.
  intros Hx. destruct (decide (x = 0)) as [->|]; [cbn; lia|]. unfold is_u64 in Hx.
  destruct (trailing_zeros64_decomp x) as (q & ? & ? & Hq); [lia|]. split; [done|].
  destruct (decide (trailing_zeros64 x <= 64)); [done|].
  assert (2 ^ 64 <= 2 ^ trailing_zeros64 x) by (apply Z.pow_le_mono_r; lia). nia.
Qed.

Lemma count_ones64_double x : 0 <= x -> count_ones64 (2 * x) = count_ones64 x.
Proof. by destruct x. Qed.

Lemma count_ones64_double_succ x : 0 <= x -> count_ones64 (2 * x + 1) = 1 + count_ones64 x.
Proof. by destruct x. Qed.

Lemma count_ones64_nonneg x : 0 <= count_ones64 x.
Proof.
  destruct x as [|p|p]; cbn; try lia.
  induction p; cbn [pos_count_ones]; lia.
Qed.

Lemma count_ones64_succ x : 0 <= x -> count_ones64 (x + 1) <= count_ones64 x + 1.
Proof.
  destruct x as [|p|p]; [done| |lia]. intros _.
  change (Z.pos p + 1) with (Z.pos (p + 1)). rewrite Pos.add_1_r. cbn [count_ones64].
  induction p as [p IH|p IH|]; [change (Pos.succ p~1) with ((Pos.succ p)~0)%positive| |done];
    cbn [pos_count_ones]; [lia|]. change (Pos.succ p~0) with (p~1)%positive. cbn [pos_count_ones]. lia.
Qed.

Lemma count_ones64_pow2_mul x n : 0 <= x -> 0 <= n -> count_ones64 (x * 2 ^ n) = count_ones64 x.
Proof.
  intros Hx Hn. pattern n. apply natlike_ind; [| |done].
  - f_equal. lia.
  - intros m Hm IH. rewrite Z.pow_succ_r by done.
    replace (x * (2 * 2 ^ m)) with (2 * (x * 2 ^ m)) by lia.
    rewrite count_ones64_double; [done|]. assert (0 < 2 ^ m) by (apply Z.pow_pos_nonneg; lia). nia.
Qed.

Lemma count_ones64_0 x : 0 <= x -> count_ones64 x = 0 -> x = 0.
Proof.
  destruct x as [|p|p]; try done. cbn. intros _.
  enough (0 < pos_count_ones p) by lia.
  induction p; cbn [pos_count_ones]; lia.
Qed.

Lemma leading_zeros64_spec x : 0 < x -> leading_zeros64 x = 63 - Z.log2 x.
Proof. intros. unfold leading_zeros64. by destruct (Z.eqb_spec x 0); [lia|]. Qed.

(** ** Halving *)

Lemma testbit_1 i : 0 <= i -> Z.testbit 1 i = bool_decide (i = 0).
Proof. intros. by apply (testbit_pow2 0). Qed.

Lemma lxor_1_even q : Z.lxor (2 * q) 1 = 2 * q + 1.
Proof.
  apply Z.bits_inj'. intros i Hi. rewrite Z.lxor_spec, testbit_1 by done.
  case_bool_decide; subst.
  - by rewrite Z.testbit_even_0, Z.testbit_odd_0.
  - replace i with (Z.succ (i - 1)) by lia.
    by rewrite Z.testbit_even_succ, Z.testbit_odd_succ, xorb_false_r by lia.
Qed.

Lemma lxor_1_odd q : Z.lxor (2 * q + 1) 1 = 2 * q.
Proof. rewrite <- lxor_1_even, Z.lxor_assoc, Z.lxor_nilpotent. apply Z.lxor_0_r. Qed.

Lemma parity_cases p : exists q, q = p / 2 /\ ((p = 2 * q /\ p mod 2 = 0) \/ (p = 2 * q + 1 /\ p mod 2 = 1)).
Proof.
  exists (p / 2). split; [done|]. pose proof (Z.div_mod p 2 ltac:(lia)).
  pose proof (Z.mod_pos_bound p 2 ltac:(lia)). lia.
Qed.

Lemma parity_odd_even a : exists q, q = a / 2 /\
  ((a = 2 * q /\ Z.odd a = false /\ Z.even a = true) \/
   (a = 2 * q + 1 /\ Z.odd a = true /\ Z.even a = false)).
Proof.
  destruct (parity_cases a) as (q & E & [[Ea _]|[Ea _]]); exists q; split; try done; [left|right];
    (split; [done|]); rewrite Ea, ?Z.odd_add, ?Z.even_add, Z.odd_mul, Z.even_mul; done.
Qed.

Lemma div_pow2_succ p k : p / 2 ^ Z.of_nat (S k) = p / 2 / 2 ^ Z.of_nat k.
Proof.
  rewrite Z.div_div by (try apply Z.pow_pos_nonneg; lia). f_equal.
  by rewrite Nat2Z.inj_succ, Z.pow_succ_r by lia.
Qed.
