(* ===== verification/Bytes.v ===== *)
(** * Byte strings

    Keys and values of the database are byte strings ([Vec<u8>]): lists of [Z] in
    [0, 256).  The file holds the big-endian encodings of the standard library and
    of the [byteorder] reader, and the byte-wise lexicographic order in which
    RocksDB keeps its keys, which on big-endian numbers is the numeric order. *)

From Stdlib Require Import Sorted.
From S2P Require Import Prelude U64.

Notation bytes := (list Z) (only parsing).
Definition is_byte (b : Z) : Prop := 0 <= b < 256.
Definition is_bytes (l : bytes) : Prop := Forall is_byte l.

(** [z.to_be_bytes()] for an [n]-byte integer. *)
Fixpoint to_be_bytes (n : nat) (z : Z) : bytes :=
  match n with
  | O => []
  | S n => (z / 256 ^ Z.of_nat n) mod 256 :: to_be_bytes n z
  end.

(** The number that big-endian bytes stand for. *)
Fixpoint from_be_bytes (l : bytes) : Z :=
  match l with
  | [] => 0
  | b :: l => b * 256 ^ Z.of_nat (length l) + from_be_bytes l
  end.

Definition u64_be (z : Z) : bytes := to_be_bytes 8 z.
#[global] Arguments u64_be : simpl never.

(** [data.read_u64::<BigEndian>()]: reads the first eight bytes. *)
Definition read_u64_be (data : bytes) : result string Z :=
  if (length data <? 8)%nat then Err "failed to fill whole buffer"%string
  else Ok (from_be_bytes (take 8 data)).

(** The order of the keys: byte-wise, a proper prefix first. *)
Fixpoint bytes_ltb (a b : bytes) : bool :=
  match a, b with
  | _, [] => false
  | [], _ :: _ => true
  | x :: a, y :: b => (x <? y) || ((x =? y) && bytes_ltb a b)
  end.
Definition bytes_leb (a b : bytes) : bool := negb (bytes_ltb b a).
Definition bytes_lt (a b : bytes) : Prop := bytes_ltb a b = true.
Definition bytes_le (a b : bytes) : Prop := bytes_leb a b = true.
#[global] Instance bytes_le_dec a b : Decision (bytes_le a b).
Proof. unfold bytes_le. apply _. Defined.

(** ** The order *)

Lemma bytes_ltb_irrefl a : bytes_ltb a a = false.
Proof. induction a as [|x a IH]; cbn; [done|]. by rewrite Z.ltb_irrefl, Z.eqb_refl, IH. Qed.

Lemma bytes_ltb_trans a : forall b c, bytes_ltb a b = true -> bytes_ltb b c = true -> bytes_ltb a c = true.
Proof.
  induction a as [|x a IH]; intros [|y b] [|z c]; cbn; try done.
  rewrite !orb_true_iff, !andb_true_iff, !Z.ltb_lt, !Z.eqb_eq.
  intros [?|[-> ?]] [?|[-> ?]]; [left; lia|by left|by left|]. right. eauto.
Qed.

Lemma bytes_ltb_total a : forall b, bytes_ltb a b = false -> bytes_ltb b a = false -> a = b.
Proof.
  induction a as [|x a IH]; intros [|y b]; cbn; try done.
  rewrite !orb_false_iff, !andb_false_iff, !Z.ltb_ge, !Z.eqb_neq.
  intros [? [?|H1]] [? [?|H2]]; try lia. assert (x = y) as -> by lia. f_equal. auto.
Qed.

#[global] Instance bytes_le_total : Total bytes_le.
Proof.
  intros a b. unfold bytes_le, bytes_leb. destruct (bytes_ltb b a) eqn:E; [|by left].
  right. destruct (bytes_ltb a b) eqn:E'; [|done].
  pose proof (bytes_ltb_trans _ _ _ E E') as H. by rewrite bytes_ltb_irrefl in H.
Qed.

#[global] Instance bytes_le_trans : Transitive bytes_le.
Proof.
  intros a b c. unfold bytes_le, bytes_leb. rewrite !negb_true_iff. intros Hab Hbc.
  destruct (bytes_ltb c a) eqn:E; [|done]. destruct (bytes_ltb b c) eqn:E'.
  - by rewrite (bytes_ltb_trans _ _ _ E' E) in Hab.
  - by rewrite (bytes_ltb_total b c E' Hbc), E in Hab.
Qed.

Lemma bytes_le_antisym a b : bytes_le a b -> bytes_le b a -> a = b.
Proof. unfold bytes_le, bytes_leb. rewrite !negb_true_iff. intros. by apply bytes_ltb_total. Qed.

Lemma bytes_le_lt a b : bytes_le a b -> a <> b -> bytes_lt a b.
Proof.
  intros Hle Hne. unfold bytes_lt. destruct (bytes_ltb a b) eqn:E; [done|].
  exfalso. apply Hne, bytes_ltb_total; [done|]. unfold bytes_le, bytes_leb in Hle. by apply negb_true_iff in Hle.
Qed.

Lemma bytes_leb_false a b : bytes_leb a b = false <-> bytes_lt b a.
Proof. apply negb_false_iff. Qed.

Lemma bytes_lt_le a b : bytes_lt a b -> bytes_le a b.
Proof.
  unfold bytes_lt, bytes_le, bytes_leb. intros H. apply negb_true_iff. destruct (bytes_ltb b a) eqn:E; [|done].
  pose proof (bytes_ltb_trans _ _ _ H E) as Hx. by rewrite bytes_ltb_irrefl in Hx.
Qed.

Lemma bytes_lt_not_le a b : bytes_lt a b <-> ~ bytes_le b a.
Proof. unfold bytes_lt, bytes_le, bytes_leb. rewrite negb_true_iff. destruct (bytes_ltb a b); naive_solver. Qed.

(** ** Big-endian numbers *)

Lemma to_be_bytes_length n z : length (to_be_bytes n z) = n.
Proof. induction n; cbn; congruence. Qed.

Lemma to_be_bytes_bytes n z : is_bytes (to_be_bytes n z).
Proof. induction n; cbn; constructor; [|done]. apply Z.mod_pos_bound. lia. Qed.

Lemma pow256_pos k : 0 <= k -> 0 < 256 ^ k.
Proof. apply Z.pow_pos_nonneg. lia. Qed.

Lemma from_to_be_bytes n z : from_be_bytes (to_be_bytes n z) = z mod 256 ^ Z.of_nat n.
Proof.
  induction n as [|n IH]; cbn [to_be_bytes from_be_bytes]; [by rewrite Z.mod_1_r|].
  rewrite to_be_bytes_length, IH, Nat2Z.inj_succ, Z.pow_succ_r, (Z.mul_comm 256) by lia.
  rewrite Z.rem_mul_r by (pose proof (pow256_pos (Z.of_nat n)); lia). lia.
Qed.

Lemma u64_be_roundtrip z : is_u64 z -> from_be_bytes (u64_be z) = z.
Proof. intros Hz. unfold u64_be. rewrite from_to_be_bytes. change (256 ^ Z.of_nat 8) with (2 ^ 64). by apply Z.mod_small. Qed.

Lemma u64_be_length z : length (u64_be z) = 8%nat.
Proof. apply to_be_bytes_length. Qed.

Lemma read_u64_be_app z rest : is_u64 z -> read_u64_be (u64_be z ++ rest) = Ok z.
Proof.
  intros Hz. unfold read_u64_be. rewrite length_app, u64_be_length.
  change ((8 + length rest <? 8)%nat) with false. cbv iota.
  rewrite (take_app_length' (u64_be z)) by (by rewrite u64_be_length). by rewrite u64_be_roundtrip.
Qed.

Lemma read_u64_be_exact z : is_u64 z -> read_u64_be (u64_be z) = Ok z.
Proof. intros. rewrite <- (app_nil_r (u64_be z)). by apply read_u64_be_app. Qed.

Lemma u64_be_inj a b : is_u64 a -> is_u64 b -> u64_be a = u64_be b -> a = b.
Proof. intros Ha Hb E. by rewrite <- (u64_be_roundtrip a), <- (u64_be_roundtrip b), E. Qed.

Lemma from_be_bytes_bound l : is_bytes l -> 0 <= from_be_bytes l < 256 ^ Z.of_nat (length l).
Proof.
  induction 1 as [|b l Hb _ IH]; cbn [from_be_bytes length]; [lia|].
  rewrite Nat2Z.inj_succ, Z.pow_succ_r by lia. unfold is_byte in Hb. nia.
Qed.

(** On byte strings of one length the order is that of the numbers. *)
Lemma bytes_ltb_be a : forall b, is_bytes a -> is_bytes b -> length a = length b ->
  bytes_ltb a b = (from_be_bytes a <? from_be_bytes b).
Proof.
  induction a as [|x a IH]; intros [|y b] Ha Hb Hl; try done. apply list.Forall_cons in Ha as [Hx Ha]. apply list.Forall_cons in Hb as [Hy Hb].
  injection Hl as Hl. cbn. rewrite IH by done. rewrite Hl.
  pose proof (from_be_bytes_bound a Ha) as Ba. pose proof (from_be_bytes_bound b Hb) as Bb. rewrite Hl in Ba.
  set (w := 256 ^ Z.of_nat (length b)) in *. destruct (Z.ltb_spec x y); cbn.
  - symmetry. apply Z.ltb_lt. nia.
  - destruct (Z.eqb_spec x y) as [->|]; cbn.
    + destruct (Z.ltb_spec (from_be_bytes a) (from_be_bytes b)); symmetry; [apply Z.ltb_lt|apply Z.ltb_ge]; lia.
    + symmetry. apply Z.ltb_ge. nia.
Qed.

Lemma to_from_be_bytes l : is_bytes l -> to_be_bytes (length l) (from_be_bytes l) = l.
Proof.
  intros Hl. pose proof (to_be_bytes_bytes (length l) (from_be_bytes l)) as Hb.
  assert (Hn : from_be_bytes (to_be_bytes (length l) (from_be_bytes l)) = from_be_bytes l).
  { rewrite from_to_be_bytes. apply Z.mod_small. by apply from_be_bytes_bound. }
  apply bytes_ltb_total; rewrite bytes_ltb_be, Hn by (done || by rewrite to_be_bytes_length); apply Z.ltb_irrefl.
Qed.

Lemma bytes_ltb_u64 a b : is_u64 a -> is_u64 b -> bytes_ltb (u64_be a) (u64_be b) = (a <? b).
Proof.
  intros Ha Hb. rewrite bytes_ltb_be by (by rewrite ?u64_be_length || apply to_be_bytes_bytes).
  by rewrite !u64_be_roundtrip.
Qed.

Lemma bytes_le_u64 a b : is_u64 a -> is_u64 b -> bytes_le (u64_be a) (u64_be b) <-> a <= b.
Proof. intros Ha Hb. unfold bytes_le, bytes_leb. rewrite negb_true_iff, bytes_ltb_u64, Z.ltb_ge by done. done. Qed.

(** Comparing concatenations whose first parts have one length. *)
Lemma bytes_ltb_app a : forall b a' b', length a = length b ->
  bytes_ltb (a ++ a') (b ++ b') = bytes_ltb a b || (bool_decide (a = b) && bytes_ltb a' b').
Proof.
  induction a as [|x a IH]; intros [|y b] a' b' Hl; try done. injection Hl as Hl. cbn. rewrite IH by done.
  destruct (Z.ltb_spec x y); [done|]. cbn. destruct (Z.eqb_spec x y) as [->|Hne]; cbn.
  - do 2 f_equal. apply bool_decide_ext. naive_solver.
  - rewrite bool_decide_eq_false_2 by congruence. done.
Qed.

Lemma bytes_ltb_nil_r a : bytes_ltb a [] = false.
Proof. by destruct a. Qed.
