(* ===== verification/Lcs.v ===== *)
(** * Libra canonical serialization

    [common/lcs] serializes values of the types that derive [serde::Serialize].  The
    interface to it is the class [Lcs], and what the database relies on is [LcsLaws]. *)

From S2P Require Import Prelude Bytes.

(** [lcs::to_bytes] and [lcs::from_bytes]; serialization fails on values beyond the
    limits of the format. *)
Class Lcs (T : Type) := {
  lcs_to_bytes : T -> result string bytes;
  lcs_from_bytes : bytes -> result string T
}.
Class LcsLaws (T : Type) `{!Lcs T} : Prop :=
  lcs_roundtrip : forall v raw, lcs_to_bytes v = Ok raw -> lcs_from_bytes raw = Ok v.
