(* ===== verification/SchemaDb.v ===== *)
(** * The schematized database

    [storage/schemadb/src]: typed access to the column families of a RocksDB
    through schemas that encode keys and values.  RocksDB is an interface, given by
    its operations and the laws its documentation states; [MemRocks] is an
    in-memory instance.  The lemmas say that a column family written through its
    schema behaves as a finite map: point reads return the last value put, and
    iterators run through the entries in the order of the encoded keys. *)

From Stdlib Require Import Sorted.
From stdpp Require Import sorting.
From S2P Require Import Prelude U64 Bytes.

Notation ColumnFamilyName := string (only parsing).
Definition DEFAULT_CF_NAME : ColumnFamilyName := "default".

Inductive WriteOp := Value (value : bytes) | Deletion.

(** What a write does to the value at its key. *)
Definition apply_op (op : WriteOp) : option bytes :=
  match op with Value v => Some v | Deletion => None end.

(** ** RocksDB *)

(** A [rocksdb::WriteBatch] is a sequence of puts and deletions. *)
Definition WriteBatch : Type := list (ColumnFamilyName * bytes * WriteOp).

Class RocksDB (rocks raw_iter : Type) := {
  cf_handle : rocks -> ColumnFamilyName -> bool;
  get_cf : rocks -> ColumnFamilyName -> bytes -> result string (option bytes);
  raw_iterator_cf : rocks -> ColumnFamilyName -> raw_iter;
  write_opt : rocks -> WriteBatch -> result string rocks;
  delete_range_cf : rocks -> ColumnFamilyName -> bytes -> bytes -> result string rocks;
  raw_seek_to_first : raw_iter -> raw_iter;
  raw_seek_to_last : raw_iter -> raw_iter;
  raw_seek : raw_iter -> bytes -> raw_iter;
  raw_seek_for_prev : raw_iter -> bytes -> raw_iter;
  raw_next : raw_iter -> raw_iter;
  raw_prev : raw_iter -> raw_iter;
  (** [valid()], [key()] and [value()]: the entry under the cursor. *)
  raw_entry : raw_iter -> option (bytes * bytes);
  raw_status : raw_iter -> result string unit
}.

(** The last operation of a batch on a key. *)
Fixpoint batch_op (batch : WriteBatch) (cf : ColumnFamilyName) (k : bytes) : option WriteOp :=
  match batch with
  | [] => None
  | (cf', k', op) :: batch =>
    match batch_op batch cf k with
    | Some op' => Some op'
    | None => if bool_decide (cf' = cf /\ k' = k) then Some op else None
    end
  end.

Definition key_at_least (k : bytes) (e : bytes * bytes) : bool := bytes_leb k e.1.
Definition key_at_most (k : bytes) (e : bytes * bytes) : bool := bytes_leb e.1 k.

(** The documented behaviour.  An iterator reads a snapshot, the entries of the
    column family in the order of the keys; [forward] and [backward] are the entries
    from the cursor on in either direction, both empty when the iterator is not
    valid.  The laws are those of a disk whose reads succeed: [get_cell] and
    [status_ok] say so, and writes and range deletions may still fail. *)
Class RocksDBLaws (rocks raw_iter : Type) `{!RocksDB rocks raw_iter} := {
  snapshot : raw_iter -> list (bytes * bytes);
  forward : raw_iter -> list (bytes * bytes);
  backward : raw_iter -> list (bytes * bytes);
  cf_cell : rocks -> ColumnFamilyName -> bytes -> option bytes;
  get_cell : forall db cf k, get_cf db cf k = Ok (cf_cell db cf k);
  status_ok : forall it, raw_status it = Ok tt;
  write_get : forall db batch db' cf k, write_opt db batch = Ok db' ->
    cf_cell db' cf k = from_option apply_op (cf_cell db cf k) (batch_op batch cf k);
  write_cf : forall db batch db' cf, write_opt db batch = Ok db' -> cf_handle db' cf = cf_handle db cf;
  range_get : forall db cf b e db' cf' k, delete_range_cf db cf b e = Ok db' ->
    cf_cell db' cf' k = if bool_decide (cf' = cf) && bytes_leb b k && bytes_ltb k e then None else cf_cell db cf' k;
  range_cf : forall db cf b e db' cf', delete_range_cf db cf b e = Ok db' -> cf_handle db' cf' = cf_handle db cf';
  snapshot_sorted : forall db cf,
    StronglySorted (fun e1 e2 => bytes_lt e1.1 e2.1) (snapshot (raw_iterator_cf db cf));
  snapshot_get : forall db cf k v, (k, v) ∈ snapshot (raw_iterator_cf db cf) <-> cf_cell db cf k = Some v;
  first_forward : forall it, forward (raw_seek_to_first it) = snapshot it;
  last_forward : forall it, forward (raw_seek_to_last it) = take 1 (rev (snapshot it));
  last_backward : forall it, backward (raw_seek_to_last it) = rev (snapshot it);
  seek_forward : forall it k, forward (raw_seek it k) = List.filter (key_at_least k) (snapshot it);
  seek_backward : forall it k, backward (raw_seek it k) =
    match List.filter (key_at_least k) (snapshot it) with
    | [] => []
    | e :: _ => e :: rev (List.filter (fun e' => negb (key_at_least k e')) (snapshot it))
    end;
  prev_backward : forall it k, backward (raw_seek_for_prev it k) = rev (List.filter (key_at_most k) (snapshot it));
  prev_forward : forall it k, forward (raw_seek_for_prev it k) =
    match rev (List.filter (key_at_most k) (snapshot it)) with
    | [] => []
    | e :: _ => e :: List.filter (fun e' => negb (key_at_most k e')) (snapshot it)
    end;
  next_forward : forall it, forward (raw_next it) = tail (forward it);
  prev_step_backward : forall it, backward (raw_prev it) = tail (backward it);
  entry_forward : forall it, raw_entry it = head (forward it);
  entry_backward : forall it, raw_entry it = head (backward it)
}.

(** ** Schemas *)

(** The traits [Schema], [KeyCodec] and [ValueCodec]. *)
Record Schema (K V : Type) := mkSchema {
  COLUMN_FAMILY_NAME : ColumnFamilyName;
  encode_key : K -> result string bytes;
  decode_key : bytes -> result string K;
  encode_value : V -> result string bytes;
  decode_value : bytes -> result string V
}.
Arguments mkSchema {K V}.
Arguments COLUMN_FAMILY_NAME {K V}.
Arguments encode_key {K V}.
Arguments decode_key {K V}.
Arguments encode_value {K V}.
Arguments decode_value {K V}.

(** ** Batches *)

Notation SchemaBatch := (gmap ColumnFamilyName (gmap bytes WriteOp)).
Definition batch_new : SchemaBatch := ∅.

(** [self.rows.entry(cf).or_insert_with(BTreeMap::new).insert(key, op)]. *)
Definition batch_insert (self : SchemaBatch) (cf : ColumnFamilyName) (key : bytes) (op : WriteOp) : SchemaBatch :=
  <[cf := <[key := op]> (default ∅ (self !! cf))]> self.

Definition batch_put {K V} (S : Schema K V) (self : SchemaBatch) (key : K) (value : V) : result string SchemaBatch :=
  key ← encode_key S key;
  value ← encode_value S value;
  Ok (batch_insert self (COLUMN_FAMILY_NAME S) key (Value value)).

Definition batch_delete {K V} (S : Schema K V) (self : SchemaBatch) (key : K) : result string SchemaBatch :=
  key ← encode_key S key;
  Ok (batch_insert self (COLUMN_FAMILY_NAME S) key Deletion).

(** ** The database and its iterators *)

Inductive ScanDirection := Forward | Backward.

Section SchemaDb.
Context {rocks raw_iter : Type} `{!RocksDB rocks raw_iter}.

(** The name, which is for logging, is left out; a list of the open column families
    is part of RocksDB's state. *)
Record DB := mkDB { inner : rocks }.

Record SchemaIterator := mkSchemaIterator { db_iter : raw_iter; direction : ScanDirection }.

Definition seek_to_first (self : SchemaIterator) : SchemaIterator :=
  mkSchemaIterator (raw_seek_to_first (db_iter self)) (direction self).
Definition seek_to_last (self : SchemaIterator) : SchemaIterator :=
  mkSchemaIterator (raw_seek_to_last (db_iter self)) (direction self).

(** [seek] and [seek_for_prev] take the encoded seek key. *)
Definition seek (self : SchemaIterator) (key : bytes) : SchemaIterator :=
  mkSchemaIterator (raw_seek (db_iter self) key) (direction self).
Definition seek_for_prev (self : SchemaIterator) (key : bytes) : SchemaIterator :=
  mkSchemaIterator (raw_seek_for_prev (db_iter self) key) (direction self).

Definition next_impl {K V} (S : Schema K V) (self : SchemaIterator)
    : SchemaIterator * result string (option (K * V)) :=
  match raw_entry (db_iter self) with
  | None => (self, _ ← raw_status (db_iter self); Ok None)
  | Some (raw_key, raw_value) =>
    match decode_key S raw_key ≫= fun key => decode_value S raw_value ≫= fun value => Ok (key, value) with
    | Ok kv =>
      (mkSchemaIterator (match direction self with
                         | Forward => raw_next (db_iter self)
                         | Backward => raw_prev (db_iter self)
                         end) (direction self), Ok (Some kv))
    | Err e => (self, Err e)
    | Panic => (self, Panic)
    end
  end.

Definition get_cf_handle (self : DB) (cf_name : ColumnFamilyName) : result string unit :=
  ensure (cf_handle (inner self) cf_name) "DB::cf_handle not found for column family name"%string.

Definition db_get {K V} (S : Schema K V) (self : DB) (schema_key : K) : result string (option V) :=
  k ← encode_key S schema_key;
  _ ← get_cf_handle self (COLUMN_FAMILY_NAME S);
  result ← get_cf (inner self) (COLUMN_FAMILY_NAME S) k;
  match result with
  | Some raw_value => value ← decode_value S raw_value; Ok (Some value)
  | None => Ok None
  end.

Definition iter_with_direction {K V} (S : Schema K V) (self : DB) (direction : ScanDirection)
    : result string SchemaIterator :=
  _ ← get_cf_handle self (COLUMN_FAMILY_NAME S);
  Ok (mkSchemaIterator (raw_iterator_cf (inner self) (COLUMN_FAMILY_NAME S)) direction).
Definition iter {K V} (S : Schema K V) (self : DB) : result string SchemaIterator :=
  iter_with_direction S self Forward.
Definition rev_iter {K V} (S : Schema K V) (self : DB) : result string SchemaIterator :=
  iter_with_direction S self Backward.

(** The rows of each column family, in the iteration order of the map: a key occurs
    once, so the order does not matter. *)
Definition batch_ops (rows : list (ColumnFamilyName * gmap bytes WriteOp)) : WriteBatch :=
  flat_map (fun '(cf, ops) => map (fun '(k, op) => (cf, k, op)) (map_to_list ops)) rows.

Definition write_schemas (self : DB) (batch : SchemaBatch) : result string DB :=
  _ ← result_collect (fun row => get_cf_handle self row.1) (map_to_list batch);
  inner' ← write_opt (inner self) (batch_ops (map_to_list batch));
  Ok (mkDB inner').

Definition db_put {K V} (S : Schema K V) (self : DB) (key : K) (value : V) : result string DB :=
  batch ← batch_put S batch_new key value;
  write_schemas self batch.

Definition range_delete {K V} (S : Schema K V) (self : DB) (raw_begin raw_end : bytes) : result string DB :=
  _ ← get_cf_handle self (COLUMN_FAMILY_NAME S);
  inner' ← delete_range_cf (inner self) (COLUMN_FAMILY_NAME S) raw_begin raw_end;
  Ok (mkDB inner').
End SchemaDb.
Arguments DB : clear implicits.
Arguments SchemaIterator : clear implicits.

(** ** Columns as finite maps *)

(** What a schema owes its users: on the keys and values that occur, decoding undoes
    encoding. *)
Class SchemaLaws {K V} (S : Schema K V) := {
  key_ok : K -> Prop;
  value_ok : V -> Prop;
  key_roundtrip : forall k, key_ok k -> exists raw, encode_key S k = Ok raw /\ decode_key S raw = Ok k;
  value_roundtrip : forall v raw, value_ok v -> encode_value S v = Ok raw -> decode_value S raw = Ok v
}.
Arguments key_ok {K V} S {_}.
Arguments value_ok {K V} S {_}.

Definition ok_bytes (r : result string bytes) : bytes := match r with Ok b => b | _ => [] end.
Definition raw_key {K V} (S : Schema K V) (k : K) : bytes := ok_bytes (encode_key S k).
Definition raw_value {K V} (S : Schema K V) (v : V) : bytes := ok_bytes (encode_value S v).
Definition encode_row {K V} (S : Schema K V) (row : K * V) : bytes * bytes := (raw_key S row.1, raw_value S row.2).

(** The rows of a map in the order of the encoded keys. *)
Definition row_le {K V} (S : Schema K V) (r1 r2 : K * V) : Prop := bytes_le (raw_key S r1.1) (raw_key S r2.1).
#[global] Instance row_le_dec {K V} (S : Schema K V) r1 r2 : Decision (row_le S r1 r2).
Proof. unfold row_le. apply _. Defined.
Definition sorted_rows {K V} `{Countable K} (S : Schema K V) (m : gmap K V) : list (K * V) :=
  merge_sort (row_le S) (map_to_list m).

Lemma filter_map_comm {A B} (f : B -> bool) (g : A -> B) l :
  List.filter f (map g l) = map g (List.filter (fun x => f (g x)) l).
Proof. induction l as [|x l IH]; cbn; [done|]. destruct (f (g x)); cbn; by rewrite IH. Qed.

Section Columns.
Context {rocks raw_iter : Type} `{!RocksDB rocks raw_iter, !RocksDBLaws rocks raw_iter}.
Context {K V : Type} `{Countable K} (S : Schema K V) `{!SchemaLaws S}.

Definition row_ok (row : K * V) : Prop :=
  key_ok S row.1 /\ value_ok S row.2 /\ encode_value S row.2 = Ok (raw_value S row.2).

(** The column family of [S] is open and holds the rows of [m] and nothing else. *)
Record column (db : rocks) (m : gmap K V) : Prop := {
  column_open : cf_handle db (COLUMN_FAMILY_NAME S) = true;
  column_row : forall k v, m !! k = Some v -> row_ok (k, v) /\
    cf_cell db (COLUMN_FAMILY_NAME S) (raw_key S k) = Some (raw_value S v);
  column_only : forall rk rv, cf_cell db (COLUMN_FAMILY_NAME S) rk = Some rv ->
    exists k v, m !! k = Some v /\ rk = raw_key S k
}.

Definition batch_column (b : SchemaBatch) : gmap bytes WriteOp := default ∅ (b !! COLUMN_FAMILY_NAME S).

(** The batch puts the rows of [w] and does nothing else in the column of [S]. *)
Record batch_rows (b : SchemaBatch) (w : gmap K V) : Prop := {
  batch_row : forall k v, w !! k = Some v -> row_ok (k, v) /\
    batch_column b !! raw_key S k = Some (Value (raw_value S v));
  batch_only : forall rk op, batch_column b !! rk = Some op -> exists k v, w !! k = Some v /\ rk = raw_key S k
}.

Lemma encode_key_raw k : key_ok S k -> encode_key S k = Ok (raw_key S k) /\ decode_key S (raw_key S k) = Ok k.
Proof. intros (raw & E & D)%key_roundtrip. unfold raw_key. by rewrite E. Qed.

Lemma raw_key_inj k1 k2 : key_ok S k1 -> key_ok S k2 -> raw_key S k1 = raw_key S k2 -> k1 = k2.
Proof. intros [_ D1]%encode_key_raw [_ D2]%encode_key_raw E. rewrite E in D1. congruence. Qed.

Lemma encode_value_raw v raw : encode_value S v = Ok raw -> raw = raw_value S v.
Proof. unfold raw_value. by intros ->. Qed.

Lemma decode_value_raw row : row_ok row -> decode_value S (raw_value S row.2) = Ok row.2.
Proof. intros (_ & Hv & E). by apply value_roundtrip. Qed.

(** *** Point reads *)

Lemma column_get db m k : column db m -> key_ok S k -> db_get S (mkDB db) k = Ok (m !! k).
Proof.
  intros [Ho Hr Hn] Hk. unfold db_get. destruct (encode_key_raw k Hk) as [-> _]. cbn.
  unfold get_cf_handle. cbn [inner]. rewrite Ho. cbn. rewrite get_cell. cbn. destruct (m !! k) as [v|] eqn:E.
  - destruct (Hr k v E) as [Hok ->]. pose proof (decode_value_raw (k, v) Hok) as D. cbn in D. by rewrite D.
  - destruct (cf_cell db _ (raw_key S k)) as [rv|] eqn:G; [|done].
    destruct (Hn _ _ G) as (k' & v & E' & Eq). destruct (Hr k' v E') as [[Hk' _] _].
    by rewrite (raw_key_inj k k'), E' in E.
Qed.

(** *** Batches *)

Lemma batch_rows_new : batch_rows batch_new ∅.
Proof. split; [by intros k v ?%lookup_empty_Some|]. unfold batch_column, batch_new. intros rk op. rewrite lookup_empty. cbn. by rewrite lookup_empty. Qed.

Lemma batch_put_rows b w k v b' : batch_rows b w -> key_ok S k -> value_ok S v ->
  batch_put S b k v = Ok b' -> batch_rows b' (<[k := v]> w).
Proof.
  intros [Hr Hn] Hk Hv Hp. unfold batch_put in Hp. destruct (encode_key_raw k Hk) as [E _]. rewrite E in Hp. res_inv.
  rename x into raw. match goal with Hx : encode_value S v = _ |- _ => rename Hx into Ev end.
  assert (Hok : row_ok (k, v)) by (repeat split; cbn; [done..|]; by rewrite <- (encode_value_raw _ _ Ev)).
  rewrite (encode_value_raw _ _ Ev).
  assert (Ec : batch_column (batch_insert b (COLUMN_FAMILY_NAME S) (raw_key S k) (Value (raw_value S v))) =
    <[raw_key S k := Value (raw_value S v)]> (batch_column b)).
  { unfold batch_column, batch_insert. by rewrite lookup_insert_eq. }
  split; rewrite Ec.
  - intros k' v'. destruct (decide (k' = k)) as [->|Hne].
    + rewrite lookup_insert_eq. intros [= <-]. by rewrite lookup_insert_eq.
    + rewrite lookup_insert_ne by done. intros Hw. destruct (Hr _ _ Hw) as [Hok' Hg]. split; [done|].
      rewrite lookup_insert_ne; [done|]. intros Eq. apply Hne. symmetry. apply raw_key_inj; [done|apply Hok'|done].
  - intros rk op. destruct (decide (rk = raw_key S k)) as [->|Hne].
    + intros _. exists k, v. by rewrite lookup_insert_eq.
    + rewrite lookup_insert_ne by done. intros (k' & v' & Hw & ->)%Hn. exists k', v'. split; [|done].
      rewrite lookup_insert_ne; [done|]. by intros ->.
Qed.

Lemma batch_put_total b k v : key_ok S k -> is_ok (encode_value S v) = true -> exists b', batch_put S b k v = Ok b'.
Proof.
  intros [E _]%encode_key_raw Hv. unfold batch_put. rewrite E. cbn.
  destruct (encode_value S v); [|done..]. cbn. eauto.
Qed.

(** Rows put in another column family. *)
Lemma batch_put_other {K' V'} (S' : Schema K' V') b w k v b' :
  COLUMN_FAMILY_NAME S' <> COLUMN_FAMILY_NAME S -> batch_put S' b k v = Ok b' -> batch_rows b w -> batch_rows b' w.
Proof.
  intros Hne Hp Hb. unfold batch_put in Hp. res_inv.
  assert (Ec : batch_column (batch_insert b (COLUMN_FAMILY_NAME S') x (Value x0)) = batch_column b).
  { unfold batch_column, batch_insert. by rewrite lookup_insert_ne. }
  destruct Hb as [Hr Hn]. split; by rewrite Ec.
Qed.

(** *** Writes *)

Lemma batch_op_app b1 b2 cf k :
  batch_op (b1 ++ b2) cf k = match batch_op b2 cf k with Some op => Some op | None => batch_op b1 cf k end.
Proof.
  induction b1 as [|[[cf' k'] op] b1 IH]; cbn; [by destruct (batch_op b2 cf k)|]. rewrite IH.
  by destruct (batch_op b2 cf k).
Qed.

Lemma batch_op_other cf cf' k (l : list (bytes * WriteOp)) : cf <> cf' ->
  batch_op (map (fun '(k, op) => (cf', k, op)) l) cf k = None.
Proof.
  intros Hne. induction l as [|[k' op] l IH]; cbn; [done|]. rewrite IH, bool_decide_eq_false_2; [done|]. by intros [-> _].
Qed.

Lemma batch_op_same cf k (l : list (bytes * WriteOp)) : NoDup l.*1 ->
  batch_op (map (fun '(k, op) => (cf, k, op)) l) cf k = list_to_map (M := gmap bytes WriteOp) l !! k.
Proof.
  induction l as [|[k' op] l IH]; cbn; [by rewrite lookup_empty|]. intros [Hn Hd]%list.NoDup_cons. rewrite IH by done.
  destruct (decide (k' = k)) as [->|Hne].
  - rewrite lookup_insert_eq, not_elem_of_list_to_map_1, bool_decide_eq_true_2 by done. done.
  - rewrite lookup_insert_ne by done. destruct (list_to_map l !! k); [done|].
    rewrite bool_decide_eq_false_2; [done|]. by intros [_ ?].
Qed.

Lemma batch_ops_lookup (rows : list (ColumnFamilyName * gmap bytes WriteOp)) cf k : NoDup rows.*1 ->
  batch_op (batch_ops rows) cf k =
  default ∅ (list_to_map (M := gmap ColumnFamilyName (gmap bytes WriteOp)) rows !! cf) !! k.
Proof.
  induction rows as [|[cf' ops] rows IH]; cbn; [by rewrite !lookup_empty|]. intros [Hn Hd]%list.NoDup_cons.
  rewrite batch_op_app. fold (batch_ops rows). rewrite IH by done. destruct (decide (cf' = cf)) as [->|Hne].
  - rewrite lookup_insert_eq, not_elem_of_list_to_map_1 by done. cbn. rewrite lookup_empty.
    rewrite batch_op_same by apply NoDup_fst_map_to_list. by rewrite list_to_map_to_list.
  - rewrite lookup_insert_ne, (batch_op_other cf cf') by done. by destruct (default ∅ (list_to_map rows !! cf) !! k).
Qed.

Lemma write_schemas_get db b db' cf k : write_schemas (mkDB db) b = Ok (mkDB db') ->
  cf_cell db' cf k = from_option apply_op (cf_cell db cf k) (default ∅ (b !! cf) !! k).
Proof.
  unfold write_schemas. cbn [inner]. intros Hw. res_inv.
  match goal with Hx : write_opt _ _ = Ok _ |- _ => rewrite (write_get _ _ _ cf k Hx) end.
  rewrite batch_ops_lookup by apply NoDup_fst_map_to_list. by rewrite list_to_map_to_list.
Qed.

Lemma write_schemas_total db b : (forall cf ops, b !! cf = Some ops -> cf_handle db cf = true) ->
  (exists db', write_opt db (batch_ops (map_to_list b)) = Ok db') -> exists db', write_schemas (mkDB db) b = Ok (mkDB db').
Proof.
  intros Ho [db' Hw]. exists db'. unfold write_schemas. rewrite (result_collect_map _ (fun _ => tt)).
  - cbn [mbind result_bind inner]. by rewrite Hw.
  - intros [cf ops] Hin%list_elem_of_In%elem_of_map_to_list. unfold get_cf_handle. cbn [fst inner]. by rewrite (Ho _ _ Hin).
Qed.

Lemma write_schemas_cf db b db' cf : write_schemas (mkDB db) b = Ok (mkDB db') -> cf_handle db' cf = cf_handle db cf.
Proof. unfold write_schemas. cbn [inner]. intros Hw. res_inv. by eapply write_cf. Qed.

Lemma write_rows db m b w db' : column db m -> batch_rows b w ->
  write_schemas (mkDB db) b = Ok (mkDB db') -> column db' (w ∪ m).
Proof.
  intros [Ho Hr Hn] [Br Bn] Hw. split.
  - by rewrite (write_schemas_cf _ _ _ _ Hw).
  - intros k v Hk. rewrite (write_schemas_get _ _ _ _ _ Hw). fold (batch_column b).
    apply lookup_union_Some_raw in Hk as [Hk|[Hk Hm]].
    + destruct (Br _ _ Hk) as [Hok ->]. done.
    + destruct (Hr _ _ Hm) as [Hok Hg]. split; [done|]. destruct (batch_column b !! raw_key S k) as [op|] eqn:E; [|done].
      destruct (Bn _ _ E) as (k' & v' & Hk' & Eq). destruct (Br _ _ Hk') as [Hok' _].
      by rewrite (raw_key_inj k k'), Hk' in Hk; [|apply Hok|apply Hok'|].
  - intros rk rv. rewrite (write_schemas_get _ _ _ _ _ Hw). fold (batch_column b).
    destruct (batch_column b !! rk) as [op|] eqn:E.
    + intros _. destruct (Bn _ _ E) as (k & v & Hk & ->). exists k, v. split; [|done]. by apply lookup_union_Some_l.
    + cbn. intros (k & v & Hk & ->)%Hn. exists k. destruct (w !! k) as [v'|] eqn:Ew.
      * exists v'. split; [|done]. by apply lookup_union_Some_l.
      * exists v. split; [|done]. by rewrite lookup_union_r.
Qed.
(** The rows of a column are determined. *)
Lemma column_subseteq db m1 m2 : column db m1 -> column db m2 -> m1 ⊆ m2.
Proof.
  intros [_ Hr1 _] [_ Hr2 Hn2]. apply map_subseteq_spec. intros k v Hk. destruct (Hr1 _ _ Hk) as [Hok Hg].
  destruct (Hn2 _ _ Hg) as (k' & v' & Hk' & Eq). destruct (Hr2 _ _ Hk') as [Hok' Hg'].
  apply raw_key_inj in Eq as <-; [|apply Hok|apply Hok']. rewrite Hg in Hg'. injection Hg' as Ev.
  pose proof (decode_value_raw _ Hok) as D. pose proof (decode_value_raw _ Hok') as D'. cbn in D, D'. rewrite Ev, D' in D. by injection D as <-.
Qed.
Lemma column_unique db m1 m2 : column db m1 -> column db m2 -> m1 = m2.
Proof. intros H1 H2. apply (anti_symm (⊆)); by eapply column_subseteq. Qed.

(** *** Deletions *)

Definition without (keys : list K) (m : gmap K V) : gmap K V := foldr delete m keys.

Lemma without_lookup keys m k : without keys m !! k = if bool_decide (k ∈ keys) then None else m !! k.
Proof.
  case_bool_decide; [by apply lookup_foldr_delete|by apply lookup_foldr_delete_not_elem_of].
Qed.

(** The batch deletes [keys] and does nothing else in the column of [S]. *)
Record batch_deletes (b : SchemaBatch) (keys : list K) : Prop := {
  deletes_row : forall k, k ∈ keys -> key_ok S k /\ batch_column b !! raw_key S k = Some Deletion;
  deletes_only : forall rk op, batch_column b !! rk = Some op -> exists k, k ∈ keys /\ rk = raw_key S k
}.

Lemma batch_delete_rows b keys k : batch_deletes b keys -> key_ok S k ->
  exists b', batch_delete S b k = Ok b' /\ batch_deletes b' (keys ++ [k]) /\
    forall cf, cf <> COLUMN_FAMILY_NAME S -> b' !! cf = b !! cf.
Proof.
  intros [Hr Hn] Hk. unfold batch_delete. destruct (encode_key_raw k Hk) as [E _]. rewrite E. cbn. eexists. split; [done|].
  split; [|intros cf Hcf; unfold batch_insert; by rewrite lookup_insert_ne].
  assert (Ec : batch_column (batch_insert b (COLUMN_FAMILY_NAME S) (raw_key S k) Deletion) = <[raw_key S k := Deletion]> (batch_column b)).
  { unfold batch_column, batch_insert. by rewrite lookup_insert_eq. }
  split; rewrite Ec.
  - intros k' Hk'. destruct (decide (raw_key S k' = raw_key S k)) as [Eq|Hne].
    + rewrite Eq, lookup_insert_eq. split; [|done]. apply elem_of_app in Hk' as [Hk'|Hk'%list_elem_of_singleton]; [by apply Hr|by subst].
    + rewrite lookup_insert_ne by done. apply elem_of_app in Hk' as [Hk'|Hk'%list_elem_of_singleton]; [by apply Hr|by subst].
  - intros rk op. destruct (decide (rk = raw_key S k)) as [->|Hne].
    + intros _. exists k. split; [apply elem_of_app; right; by apply list_elem_of_singleton|done].
    + rewrite lookup_insert_ne by done. intros (k' & Hk' & ->)%Hn. exists k'. split; [apply elem_of_app; by left|done].
Qed.

Lemma batch_delete_all_rows {A} (key : A -> K) l : forall b keys, batch_deletes b keys -> Forall (fun x => key_ok S (key x)) l ->
  exists b', result_fold (fun b x => batch_delete S b (key x)) l b = Ok b' /\ batch_deletes b' (keys ++ map key l) /\
    forall cf, cf <> COLUMN_FAMILY_NAME S -> b' !! cf = b !! cf.
Proof.
  induction l as [|x l IH]; intros b keys Hb Hl; cbn [result_fold map].
  - exists b. by rewrite app_nil_r.
  - apply list.Forall_cons in Hl as [Hx Hl]. destruct (batch_delete_rows b keys (key x) Hb Hx) as (b1 & E1 & Hb1 & Ho1). rewrite E1. cbn.
    destruct (IH b1 _ Hb1 Hl) as (b' & E' & Hb' & Ho'). exists b'. split; [done|]. rewrite <- app_assoc in Hb'. split; [done|].
    intros cf Hcf. by rewrite Ho', Ho1.
Qed.

Lemma write_deletes db m b keys db' : column db m -> batch_deletes b keys ->
  write_schemas (mkDB db) b = Ok (mkDB db') -> column db' (without keys m).
Proof.
  intros [Ho Hr Hn] [Br Bn] Hw. split.
  - by rewrite (write_schemas_cf _ _ _ _ Hw).
  - intros k v. rewrite without_lookup. case_bool_decide as Hk; [done|]. intros Hm. destruct (Hr _ _ Hm) as [Hok Hg]. split; [done|].
    rewrite (write_schemas_get _ _ _ _ _ Hw). fold (batch_column b). destruct (batch_column b !! raw_key S k) as [op|] eqn:E; [|done].
    destruct (Bn _ _ E) as (k' & Hk' & Eq). destruct (Br _ Hk') as [Hok' _]. by rewrite (raw_key_inj k k') in Hk; [|apply Hok|done|done].
  - intros rk rv. rewrite (write_schemas_get _ _ _ _ _ Hw). fold (batch_column b). destruct (batch_column b !! rk) as [op|] eqn:E.
    + destruct (Bn _ _ E) as (k & Hk & ->). destruct (Br _ Hk) as [_ E']. rewrite E in E'. by injection E' as ->.
    + cbn. intros (k & v & Hm & ->)%Hn. exists k, v. split; [|done]. rewrite without_lookup. case_bool_decide as Hk; [|done].
      destruct (Br _ Hk) as [_ E']. by rewrite E in E'.
Qed.

(** What is left after the deletion of a range of encoded keys. *)
Definition outside (b e : bytes) (m : gmap K V) : gmap K V :=
  filter (fun row => bytes_leb b (raw_key S row.1) && bytes_ltb (raw_key S row.1) e = false) m.

Lemma range_delete_rows db m b e db' : column db m -> range_delete S (mkDB db) b e = Ok (mkDB db') -> column db' (outside b e m).
Proof.
  intros [Ho Hr Hn] Hw. unfold range_delete, get_cf_handle in Hw. cbn [inner] in Hw. rewrite Ho in Hw. res_inv.
  match goal with Hx : delete_range_cf _ _ _ _ = _ |- _ => rename Hx into Hd end. split.
  - by rewrite (range_cf _ _ _ _ _ _ Hd).
  - intros k v [Hm Hk]%map_lookup_filter_Some. destruct (Hr _ _ Hm) as [Hok Hg]. split; [done|]. rewrite (range_get _ _ _ _ _ _ _ Hd).
    rewrite bool_decide_eq_true_2 by done. cbn [andb fst] in *. by rewrite Hk.
  - intros rk rv. rewrite (range_get _ _ _ _ _ _ _ Hd), bool_decide_eq_true_2 by done. cbn [andb].
    destruct (bytes_leb b rk && bytes_ltb rk e) eqn:Er; [done|]. intros (k & v & Hm & ->)%Hn. exists k, v. split; [|done]. by apply map_lookup_filter_Some.
Qed.

(** A range deleted from another column family. *)
Lemma range_delete_other {K' V'} (S' : Schema K' V') db m b e db' : COLUMN_FAMILY_NAME S' <> COLUMN_FAMILY_NAME S ->
  column db m -> range_delete S' (mkDB db) b e = Ok (mkDB db') -> column db' m.
Proof.
  intros Hne [Ho Hr Hn] Hw. unfold range_delete, get_cf_handle in Hw. cbn [inner] in Hw. res_inv.
  match goal with Hx : delete_range_cf _ _ _ _ = _ |- _ => rename Hx into Hd end.
  assert (Hg : forall k, cf_cell db' (COLUMN_FAMILY_NAME S) k = cf_cell db (COLUMN_FAMILY_NAME S) k).
  { intros k. rewrite (range_get _ _ _ _ _ _ _ Hd), bool_decide_eq_false_2 by done. done. }
  split; [by rewrite (range_cf _ _ _ _ _ _ Hd)| |]; [intros k v; rewrite Hg; apply Hr|intros rk rv; rewrite Hg; apply Hn].
Qed.

End Columns.

(** ** Iterators over columns *)

Section Iterators.
Context {rocks raw_iter : Type} `{!RocksDB rocks raw_iter, !RocksDBLaws rocks raw_iter}.
Context {K V : Type} `{Countable K} (S : Schema K V) `{!SchemaLaws S}.

Definition raw_remaining (it : SchemaIterator raw_iter) : list (bytes * bytes) :=
  match direction it with Forward => forward (db_iter it) | Backward => backward (db_iter it) end.

(** The iterator will return the rows [l] and then end. *)
Definition yields (it : SchemaIterator raw_iter) (l : list (K * V)) : Prop :=
  raw_remaining it = map (encode_row S) l /\ Forall (row_ok S) l.

Lemma raw_entry_remaining it : raw_entry (db_iter it) = head (raw_remaining it).
Proof. unfold raw_remaining. destruct (direction it); [apply entry_forward|apply entry_backward]. Qed.

Lemma next_nil it : yields it [] -> next_impl S it = (it, Ok None).
Proof. intros [E _]. unfold next_impl. by rewrite raw_entry_remaining, E, status_ok. Qed.

Lemma next_cons it row l : yields it (row :: l) ->
  exists it', next_impl S it = (it', Ok (Some row)) /\ yields it' l.
Proof.
  intros [E Hok]. apply list.Forall_cons in Hok as [Hrow Hl]. unfold next_impl. rewrite raw_entry_remaining, E.
  cbn [map head encode_row]. destruct (encode_key_raw S row.1) as [_ D]; [apply Hrow|]. rewrite D. cbn.
  rewrite (decode_value_raw S row Hrow). cbn. destruct row as [k v]. eexists. split; [done|]. split; [|done].
  unfold raw_remaining in *. cbn. destruct (direction it); [rewrite next_forward|rewrite prev_step_backward]; by rewrite E.
Qed.

(** *** The rows in order *)

Definition entry_lt (e1 e2 : bytes * bytes) : Prop := bytes_lt e1.1 e2.1.
Definition row_lt (r1 r2 : K * V) : Prop := bytes_lt (raw_key S r1.1) (raw_key S r2.1).

#[local] Instance entry_lt_antisym : AntiSymm (=) entry_lt.
Proof. intros e1 e2 H1%bytes_lt_le H2. exfalso. by apply bytes_lt_not_le in H2. Qed.

Lemma entry_sorted_nodup l : StronglySorted entry_lt l -> NoDup l.
Proof.
  induction 1 as [|e l _ IH Hf]; constructor; [|done]. intros Hin.
  rewrite list.Forall_forall in Hf. specialize (Hf e Hin). unfold entry_lt, bytes_lt in Hf.
  by rewrite bytes_ltb_irrefl in Hf.
Qed.

#[local] Instance row_le_total : Total (row_le S).
Proof. intros r1 r2. apply bytes_le_total. Qed.
#[local] Instance row_le_trans : Transitive (row_le S).
Proof. intros r1 r2 r3. apply bytes_le_trans. Qed.

Lemma sorted_rows_elem (m : gmap K V) k v : (k, v) ∈ sorted_rows S m <-> m !! k = Some v.
Proof. unfold sorted_rows. rewrite merge_sort_Permutation. apply elem_of_map_to_list. Qed.

Lemma sorted_rows_sorted (m : gmap K V) : (forall k v, m !! k = Some v -> key_ok S k) ->
  StronglySorted row_lt (sorted_rows S m).
Proof.
  intros Hk. pose proof (StronglySorted_merge_sort (row_le S) (map_to_list m)) as Hs. fold (sorted_rows S m) in Hs.
  assert (Hn : NoDup (sorted_rows S m).*1).
  { unfold sorted_rows. rewrite merge_sort_Permutation. apply NoDup_fst_map_to_list. }
  assert (Hin : forall row, row ∈ sorted_rows S m -> key_ok S row.1).
  { intros [k v] Hr%sorted_rows_elem. by eapply Hk. }
  revert Hs Hn Hin. induction 1 as [|row l _ IH Hf]; intros Hn Hin; constructor.
  - apply IH; [by apply list.NoDup_cons in Hn as [_ ?]|]. intros row' ?. apply Hin. by constructor.
  - rewrite list.Forall_forall in *. intros row' Hr'. apply bytes_le_lt; [by apply Hf|]. intros E.
    cbn in Hn. apply list.NoDup_cons in Hn as [Hn _]. apply Hn.
    rewrite (raw_key_inj S row.1 row'.1); [by apply list_elem_of_fmap_2|apply Hin..|done]; by constructor.
Qed.

Lemma row_lt_nodup l : StronglySorted row_lt l -> NoDup l.
Proof.
  induction 1 as [|r l _ IH Hf]; constructor; [|done]. intros Hr. rewrite list.Forall_forall in Hf. specialize (Hf r Hr).
  unfold row_lt, bytes_lt in Hf. by rewrite bytes_ltb_irrefl in Hf.
Qed.

(** Sorted lists of the same rows are equal. *)
Lemma row_lt_unique l1 l2 : StronglySorted row_lt l1 -> StronglySorted row_lt l2 -> (forall r, r ∈ l1 <-> r ∈ l2) -> l1 = l2.
Proof.
  intros H1 H2 Hin. apply (StronglySorted_unique_strong row_lt); [|done|done|].
  - intros r1 r2 _ _ Hlt%bytes_lt_le Hgt%bytes_lt_not_le. done.
  - apply NoDup_Permutation; [by apply row_lt_nodup..|done].
Qed.
Lemma sorted_rows_unique (m : gmap K V) l : (forall k v, m !! k = Some v -> key_ok S k) ->
  StronglySorted row_lt l -> (forall k v, (k, v) ∈ l <-> m !! k = Some v) -> sorted_rows S m = l.
Proof.
  intros Hk Hl Hin. apply row_lt_unique; [by apply sorted_rows_sorted|done|]. intros [k v]. by rewrite Hin, sorted_rows_elem.
Qed.

(** The greatest row of a sorted list is its last. *)
Lemma row_lt_last l r : StronglySorted row_lt l -> r ∈ l -> (forall r', r' ∈ l -> r' = r \/ row_lt r' r) -> head (rev l) = Some r.
Proof.
  intros Hs Hr Hmax. destruct l as [|z l _] using rev_ind; [by apply elem_of_nil in Hr|]. rewrite rev_unit. cbn. f_equal.
  destruct (Hmax z) as [?|Hlt]; [apply elem_of_app; right; by left|done|]. apply elem_of_app in Hr as [Hr|Hr].
  - apply sorting.StronglySorted_app in Hs as (Hs & _ & _). specialize (Hs r z Hr ltac:(by left)).
    apply bytes_lt_le in Hs. by apply bytes_lt_not_le in Hlt.
  - by apply list_elem_of_singleton in Hr.
Qed.

Lemma column_keys db (m : gmap K V) k v : column S db m -> m !! k = Some v -> key_ok S k.
Proof. intros Hc Hm. destruct (column_row S _ _ Hc _ _ Hm) as [[? _] _]. done. Qed.

Lemma encoded_rows_sorted db (m : gmap K V) : column S db m ->
  StronglySorted entry_lt (map (encode_row S) (sorted_rows S m)).
Proof.
  intros Hc. assert (Hs := sorted_rows_sorted m ltac:(intros; by eapply column_keys)).
  induction Hs as [|row l _ IH Hf]; cbn; constructor; [done|]. by apply list.Forall_fmap.
Qed.

Lemma column_snapshot db (m : gmap K V) : column S db m ->
  snapshot (raw_iterator_cf db (COLUMN_FAMILY_NAME S)) = map (encode_row S) (sorted_rows S m).
Proof.
  intros Hc. pose proof (encoded_rows_sorted _ _ Hc) as Hs. apply (StronglySorted_unique entry_lt).
  - apply snapshot_sorted.
  - done.
  - apply NoDup_Permutation; [apply entry_sorted_nodup, snapshot_sorted|by apply entry_sorted_nodup|].
    intros [rk rv]. rewrite snapshot_get. split.
    + intros Hg. destruct (column_only S _ _ Hc _ _ Hg) as (k & v & Hm & ->).
      destruct (column_row S _ _ Hc _ _ Hm) as [_ Hg']. rewrite Hg in Hg'. injection Hg' as ->.
      apply list_elem_of_fmap. exists (k, v). split; [done|]. by apply sorted_rows_elem.
    + intros ([k v] & E & Hm%sorted_rows_elem)%list_elem_of_fmap. cbn in E. injection E as -> ->.
      by apply (column_row S _ _ Hc).
Qed.

Lemma sorted_rows_ok db (m : gmap K V) : column S db m -> Forall (row_ok S) (sorted_rows S m).
Proof.
  intros Hc. apply list.Forall_forall. intros [k v] Hm%sorted_rows_elem. by apply (column_row S _ _ Hc).
Qed.

Definition rows_from (k : bytes) (m : gmap K V) : list (K * V) :=
  List.filter (fun row => bytes_leb k (raw_key S row.1)) (sorted_rows S m).
Definition rows_to (k : bytes) (m : gmap K V) : list (K * V) :=
  List.filter (fun row => bytes_leb (raw_key S row.1) k) (sorted_rows S m).

Lemma column_iter db (m : gmap K V) d : column S db m -> exists it,
  iter_with_direction S (mkDB db) d = Ok it /\ direction it = d /\
  snapshot (db_iter it) = map (encode_row S) (sorted_rows S m).
Proof.
  intros Hc. unfold iter_with_direction, get_cf_handle. cbn [inner]. rewrite (column_open S _ _ Hc). cbn.
  eexists. split_and!; [done|done|]. by apply column_snapshot.
Qed.

Lemma Forall_list_filter {A} (P : A -> Prop) f l : Forall P l -> Forall P (List.filter f l).
Proof. induction 1; cbn; [done|]. destruct (f x); [by constructor|done]. Qed.

(** The results of the ways to position an iterator. *)
Lemma seek_yields db (m : gmap K V) k : column S db m -> exists it,
  iter S (mkDB db) = Ok it /\ yields (seek it k) (rows_from k m).
Proof.
  intros Hc. destruct (column_iter db m Forward Hc) as (it & E & Ed & Es). exists it. split; [done|]. split.
  - unfold raw_remaining, seek. cbn. rewrite Ed, seek_forward, Es, filter_map_comm. done.
  - apply Forall_list_filter. by eapply sorted_rows_ok.
Qed.

Lemma seek_to_first_yields db (m : gmap K V) : column S db m -> exists it,
  iter S (mkDB db) = Ok it /\ yields (seek_to_first it) (sorted_rows S m).
Proof.
  intros Hc. destruct (column_iter db m Forward Hc) as (it & E & Ed & Es). exists it. split; [done|]. split.
  - unfold raw_remaining, seek_to_first. cbn. by rewrite Ed, first_forward.
  - by eapply sorted_rows_ok.
Qed.

Lemma seek_to_last_yields db (m : gmap K V) : column S db m -> exists it,
  iter S (mkDB db) = Ok it /\ yields (seek_to_last it) (take 1 (rev (sorted_rows S m))).
Proof.
  intros Hc. destruct (column_iter db m Forward Hc) as (it & E & Ed & Es). exists it. split; [done|]. split.
  - unfold raw_remaining, seek_to_last. cbn. rewrite Ed, last_forward, Es, <- map_rev. symmetry. apply fmap_take.
  - apply Forall_take, Forall_rev. by eapply sorted_rows_ok.
Qed.

Lemma rev_seek_to_last_yields db (m : gmap K V) : column S db m -> exists it,
  rev_iter S (mkDB db) = Ok it /\ yields (seek_to_last it) (rev (sorted_rows S m)).
Proof.
  intros Hc. destruct (column_iter db m Backward Hc) as (it & E & Ed & Es). exists it. split; [done|]. split.
  - unfold raw_remaining, seek_to_last. cbn. by rewrite Ed, last_backward, Es, map_rev.
  - apply Forall_rev. by eapply sorted_rows_ok.
Qed.

Lemma rev_seek_for_prev_yields db (m : gmap K V) k : column S db m -> exists it,
  rev_iter S (mkDB db) = Ok it /\ yields (seek_for_prev it k) (rev (rows_to k m)).
Proof.
  intros Hc. destruct (column_iter db m Backward Hc) as (it & E & Ed & Es). exists it. split; [done|]. split.
  - unfold raw_remaining, seek_for_prev. cbn. by rewrite Ed, prev_backward, Es, filter_map_comm, map_rev.
  - apply Forall_rev, Forall_list_filter. by eapply sorted_rows_ok.
Qed.

(** A reverse iterator after [seek] returns the first row from the key on and then those
    before it. *)
Lemma rev_seek_yields db (m : gmap K V) k : column S db m -> exists it,
  rev_iter S (mkDB db) = Ok it /\
  yields (seek it k) (match rows_from k m with
    | [] => []
    | row :: _ => row :: rev (List.filter (fun row => negb (bytes_leb k (raw_key S row.1))) (sorted_rows S m))
    end).
Proof.
  intros Hc. destruct (column_iter db m Backward Hc) as (it & E & Ed & Es). exists it. split; [done|].
  assert (Hok := sorted_rows_ok _ _ Hc). split.
  - unfold raw_remaining, seek. cbn. rewrite Ed, seek_backward, Es, !filter_map_comm, <- map_rev.
    unfold rows_from. destruct (List.filter _ (sorted_rows S m)); done.
  - assert (Hr : Forall (row_ok S) (rows_from k m)) by (by apply Forall_list_filter).
    destruct (rows_from k m) as [|row l]; [done|]. apply list.Forall_cons in Hr as [? _].
    constructor; [done|]. by apply Forall_rev, Forall_list_filter.
Qed.

(** A forward iterator after [seek_for_prev] returns the last row up to the key and
    then those after it. *)
Lemma seek_for_prev_yields db (m : gmap K V) k : column S db m -> exists it,
  iter S (mkDB db) = Ok it /\
  yields (seek_for_prev it k) (match rev (rows_to k m) with
    | [] => []
    | row :: _ => row :: List.filter (fun row => negb (bytes_leb (raw_key S row.1) k)) (sorted_rows S m)
    end).
Proof.
  intros Hc. destruct (column_iter db m Forward Hc) as (it & E & Ed & Es). exists it. split; [done|].
  assert (Hok := sorted_rows_ok _ _ Hc). split.
  - unfold raw_remaining, seek_for_prev. cbn. rewrite Ed, prev_forward, Es, !filter_map_comm, <- map_rev.
    unfold rows_to. destruct (rev _); [done|]. cbn. done.
  - assert (Hr : Forall (row_ok S) (rev (rows_to k m))) by (by apply Forall_rev, Forall_list_filter).
    destruct (rev (rows_to k m)) as [|row l]; [done|]. apply list.Forall_cons in Hr as [? _].
    constructor; [done|]. by apply Forall_list_filter.
Qed.
End Iterators.

(** ** An in-memory instance *)

Module MemRocks.

Record rocks := mkRocks { families : list ColumnFamilyName; contents : gmap ColumnFamilyName (gmap bytes bytes) }.

(** The entries before the cursor, in reverse, and those from the cursor on. *)
Record raw_iter := mkIter { entries : list (bytes * bytes); passed : list (bytes * bytes); rest : list (bytes * bytes) }.

Definition mem_get (db : rocks) (cf : ColumnFamilyName) (k : bytes) : option bytes :=
  default ∅ (contents db !! cf) !! k.

Definition entry_le (e1 e2 : bytes * bytes) : Prop := bytes_le e1.1 e2.1.
#[local] Instance entry_le_dec e1 e2 : Decision (entry_le e1 e2).
Proof. unfold entry_le. apply _. Defined.
Definition mem_entries (db : rocks) (cf : ColumnFamilyName) : list (bytes * bytes) :=
  merge_sort entry_le (map_to_list (default ∅ (contents db !! cf))).

Definition write_one (db : rocks) (op : ColumnFamilyName * bytes * WriteOp) : rocks :=
  let '(cf, k, op) := op in
  let col := default ∅ (contents db !! cf) in
  mkRocks (families db) (<[cf := match op with Value v => <[k := v]> col | Deletion => delete k col end]> (contents db)).

Definition in_range (b e k : bytes) : bool := bytes_leb b k && bytes_ltb k e.
Definition mem_delete_range (db : rocks) (cf : ColumnFamilyName) (b e : bytes) : rocks :=
  mkRocks (families db) (<[cf := filter (fun kv => in_range b e kv.1 = false) (default ∅ (contents db !! cf))]> (contents db)).

Definition position (it : raw_iter) (passed rest : list (bytes * bytes)) : raw_iter :=
  mkIter (entries it) passed rest.

#[export] Instance mem_rocks : RocksDB rocks raw_iter := {|
  cf_handle db cf := bool_decide (cf ∈ families db);
  get_cf db cf k := Ok (mem_get db cf k);
  raw_iterator_cf db cf := mkIter (mem_entries db cf) [] [];
  write_opt db batch := Ok (fold_left write_one batch db);
  delete_range_cf db cf b e := Ok (mem_delete_range db cf b e);
  raw_seek_to_first it := position it [] (entries it);
  raw_seek_to_last it := match rev (entries it) with [] => position it [] [] | e :: l => position it l [e] end;
  raw_seek it k := position it (rev (List.filter (fun e => negb (key_at_least k e)) (entries it)))
    (List.filter (key_at_least k) (entries it));
  raw_seek_for_prev it k :=
    match rev (List.filter (key_at_most k) (entries it)) with
    | [] => position it [] []
    | e :: l => position it l (e :: List.filter (fun e' => negb (key_at_most k e')) (entries it))
    end;
  raw_next it := match rest it with [] => it | e :: l => position it (e :: passed it) l end;
  raw_prev it :=
    match rest it, passed it with
    | [], _ => it
    | _, [] => position it [] []
    | _, e :: l => position it l (e :: rest it)
    end;
  raw_entry it := head (rest it);
  raw_status _ := Ok tt
|}.

Definition mem_backward (it : raw_iter) : list (bytes * bytes) :=
  match rest it with [] => [] | e :: _ => e :: passed it end.

Lemma write_one_get db cf k op cf' k' : mem_get (write_one db (cf, k, op)) cf' k' =
  if bool_decide (cf = cf' /\ k = k') then apply_op op else mem_get db cf' k'.
Proof.
  unfold mem_get, write_one. cbn. destruct (decide (cf = cf')) as [<-|Hne].
  - rewrite lookup_insert_eq. cbn. destruct (decide (k = k')) as [<-|Hk].
    + rewrite bool_decide_eq_true_2 by done. destruct op; cbn; by rewrite ?lookup_insert_eq, ?lookup_delete_eq.
    + rewrite bool_decide_eq_false_2 by (by intros [_ ?]).
      destruct op; cbn; by rewrite ?lookup_insert_ne, ?lookup_delete_ne.
  - rewrite lookup_insert_ne, bool_decide_eq_false_2 by (done || by intros [? _]). done.
Qed.

Lemma fold_write_get batch : forall db cf k,
  mem_get (fold_left write_one batch db) cf k = from_option apply_op (mem_get db cf k) (batch_op batch cf k).
Proof.
  induction batch as [|[[cf' k'] op] batch IH]; intros db cf k; [done|]. cbn [fold_left batch_op].
  rewrite IH, write_one_get.
  destruct (batch_op batch cf k); [done|]. by destruct (bool_decide (cf' = cf /\ k' = k)).
Qed.

Lemma fold_write_families batch : forall db, families (fold_left write_one batch db) = families db.
Proof. induction batch as [|[[cf k] op] batch IH]; intros db; cbn; [done|]. by rewrite IH. Qed.

Lemma mem_entries_get db cf k v : (k, v) ∈ mem_entries db cf <-> mem_get db cf k = Some v.
Proof. unfold mem_entries, mem_get. rewrite merge_sort_Permutation. apply elem_of_map_to_list. Qed.

#[local] Instance entry_le_total : Total entry_le.
Proof. intros e1 e2. apply bytes_le_total. Qed.
#[local] Instance entry_le_trans : Transitive entry_le.
Proof. intros e1 e2 e3. apply bytes_le_trans. Qed.

Lemma mem_entries_sorted db cf : StronglySorted (fun e1 e2 => bytes_lt e1.1 e2.1) (mem_entries db cf).
Proof.
  pose proof (StronglySorted_merge_sort entry_le (map_to_list (default ∅ (contents db !! cf)))) as Hs.
  assert (Hn : NoDup (mem_entries db cf).*1).
  { unfold mem_entries. rewrite merge_sort_Permutation. apply NoDup_fst_map_to_list. }
  fold (mem_entries db cf) in Hs. revert Hn. induction Hs as [|e l _ IH Hf]; intros Hn; constructor; cbn in Hn;
    apply list.NoDup_cons in Hn as [Hn Hd]; [by apply IH|].
  rewrite list.Forall_forall in *. intros e' He'. apply bytes_le_lt; [by apply Hf|]. intros E. apply Hn.
  rewrite E. by apply list_elem_of_fmap_2.
Qed.

Lemma mem_delete_range_get db cf b e cf' k : mem_get (mem_delete_range db cf b e) cf' k =
  if bool_decide (cf' = cf) && bytes_leb b k && bytes_ltb k e then None else mem_get db cf' k.
Proof.
  unfold mem_get, mem_delete_range. cbn. destruct (decide (cf' = cf)) as [->|Hne].
  - rewrite lookup_insert_eq, bool_decide_eq_true_2 by done. cbn. change (bytes_leb b k && bytes_ltb k e) with (in_range b e k).
    destruct (in_range b e k) eqn:E.
    + apply map_lookup_filter_None. right. intros v _. cbn. by rewrite E.
    + destruct (default ∅ (contents db !! cf) !! k) eqn:G.
      * by apply map_lookup_filter_Some.
      * apply map_lookup_filter_None. by left.
  - rewrite lookup_insert_ne, bool_decide_eq_false_2 by done. done.
Qed.

#[export] Instance mem_rocks_laws : RocksDBLaws rocks raw_iter.
Proof.
  refine {| snapshot := entries; forward := rest; backward := mem_backward; cf_cell := mem_get |}; cbn.
  - done.
  - done.
  - intros db batch db' cf k [= <-]. apply fold_write_get.
  - intros db batch db' cf [= <-]. by rewrite fold_write_families.
  - intros db cf b e db' cf' k [= <-]. apply mem_delete_range_get.
  - intros db cf b e db' cf' [= <-]. done.
  - apply mem_entries_sorted.
  - apply mem_entries_get.
  - done.
  - intros it. by destruct (rev (entries it)).
  - intros it. by destruct (rev (entries it)).
  - done.
  - intros it k. unfold mem_backward. cbn. by destruct (List.filter (key_at_least k) (entries it)).
  - intros it k. by destruct (rev _).
  - intros it k. by destruct (rev _).
  - intros it. by destruct (rest it) eqn:E; cbn; rewrite ?E.
  - intros it. unfold mem_backward. destruct (rest it) as [|e l] eqn:E; cbn; [by rewrite E|].
    by destruct (passed it) as [|e' l'].
  - done.
  - intros it. unfold mem_backward. by destruct (rest it).
Defined.

(** A column holds no more rows than the family entries. *)
Lemma mem_column_size {K V} `{Countable K} (S : Schema K V) `{!SchemaLaws S} db m : column S db m ->
  (size m <= size (default ∅ (contents db !! COLUMN_FAMILY_NAME S)))%nat.
Proof.
  intros Hc. rewrite <- !length_map_to_list, <- (length_fmap (fun row => raw_key S row.1)), <- (length_fmap fst (map_to_list (default ∅ _))).
  apply submseteq_length, NoDup_submseteq.
  - apply NoDup_fmap_2_strong; [|apply NoDup_map_to_list]. intros [k1 v1] [k2 v2] H1%elem_of_map_to_list H2%elem_of_map_to_list Eq. cbn in Eq.
    destruct (column_row S _ _ Hc _ _ H1) as [[Hk1 _] _], (column_row S _ _ Hc _ _ H2) as [[Hk2 _] _].
    apply (raw_key_inj S) in Eq as ->; [|done..]. by rewrite H1 in H2; injection H2 as ->.
  - intros rk ([k v] & -> & Hkv%elem_of_map_to_list)%list_elem_of_fmap. destruct (column_row S _ _ Hc _ _ Hkv) as [_ Hg]. cbn in Hg |- *.
    apply list_elem_of_fmap. exists (raw_key S k, raw_value S v). split; [done|]. by apply elem_of_map_to_list.
Qed.

(** A column family of a database that nothing was written to. *)
Lemma empty_column {K V} `{Countable K} (S : Schema K V) `{!SchemaLaws S} cfs : COLUMN_FAMILY_NAME S ∈ cfs -> column S (mkRocks cfs ∅) ∅.
Proof.
  intros Ho. split; [by apply bool_decide_eq_true|by intros k v ?%lookup_empty_Some|]. intros rk rv. cbn. unfold mem_get. cbn. by rewrite !lookup_empty.
Qed.
End MemRocks.
