(* ===== verification/LedgerCounters.v ===== *)
(** * Ledger counters and change sets

    [storage/libradb/src/ledger_counters/mod.rs] and
    [storage/libradb/src/change_set.rs]: the statistics kept with every version, and the
    batch of changes that saving transactions collects before it is committed. *)

From S2P Require Import Prelude U64 Bytes SchemaDb.

Inductive LedgerCounter :=
| EventsCreated
| NewStateLeaves
| StaleStateLeaves
| NewStateNodes
| StaleStateNodes.

(** [counter.to_u16()]. *)
Definition counter_raw_key (counter : LedgerCounter) : Z :=
  match counter with
  | EventsCreated => 101
  | NewStateLeaves => 201
  | StaleStateLeaves => 202
  | NewStateNodes => 301
  | StaleStateNodes => 302
  end.

(** [InnerLedgerCounters], [LedgerCounterBumps] and [LedgerCounters] are all maps from
    the numbers of the counters to their values. *)
Notation InnerLedgerCounters := (gmap Z Z) (only parsing).
Notation LedgerCounterBumps := (gmap Z Z) (only parsing).
Notation LedgerCounters := (gmap Z Z) (only parsing).

Definition counters_new : InnerLedgerCounters := ∅.

Definition counters_get (self : InnerLedgerCounters) (counter : LedgerCounter) : Z :=
  default 0 (self !! counter_raw_key counter).

(** [let value = self.counters.entry(key).or_insert(0); *value += by]. *)
Definition raw_inc (self : InnerLedgerCounters) (key by_ : Z) : InnerLedgerCounters :=
  <[key := u64_add (default 0 (self !! key)) by_]> self.
Definition inc (self : InnerLedgerCounters) (counter : LedgerCounter) (by_ : Z) : InnerLedgerCounters :=
  raw_inc self (counter_raw_key counter) by_.

(** [LedgerCounterBumps::bump]. *)
Definition bumps_bump (self : LedgerCounterBumps) (counter : LedgerCounter) (by_ : Z) : LedgerCounterBumps :=
  inc self counter by_.

(** [LedgerCounters::bump]: adds every bump. *)
Definition counters_bump (self : LedgerCounters) (bumps : LedgerCounterBumps) : LedgerCounters :=
  fold_left (fun counters kv => raw_inc counters kv.1 kv.2) (map_to_list bumps) self.

Record ChangeSet := mkChangeSet { cs_batch : SchemaBatch; cs_counter_bumps : LedgerCounterBumps }.
Definition change_set_new : ChangeSet := mkChangeSet batch_new counters_new.

(** [SealedChangeSet]. *)
Record SealedChangeSet := mkSealedChangeSet { scs_batch : SchemaBatch }.

(** [cs.batch.put(..)], and [iter.map(|..| cs.batch.put(..)).collect::<Result<()>>()]. *)
Definition cs_put {K V} (S : Schema K V) (cs : ChangeSet) (key : K) (value : V) : result string ChangeSet :=
  batch ← batch_put S (cs_batch cs) key value;
  Ok (mkChangeSet batch (cs_counter_bumps cs)).
Definition cs_put_all {K V} (S : Schema K V) (rows : list (K * V)) (cs : ChangeSet) : result string ChangeSet :=
  result_fold (fun cs row => cs_put S cs row.1 row.2) rows cs.

(** ** Adding bumps *)

Lemma raw_inc_get (m : gmap Z Z) k v k' :
  default 0 (raw_inc m k v !! k') = if bool_decide (k = k') then u64_add (default 0 (m !! k)) v else default 0 (m !! k').
Proof.
  unfold raw_inc. destruct (decide (k = k')) as [->|Hne].
  - by rewrite lookup_insert_eq, bool_decide_eq_true_2.
  - by rewrite lookup_insert_ne, bool_decide_eq_false_2.
Qed.

Lemma fold_raw_inc_get l : forall (m : gmap Z Z) k, NoDup l.*1 -> 0 <= default 0 (m !! k) < 2 ^ 64 ->
  default 0 (fold_left (fun counters kv => raw_inc counters kv.1 kv.2) l m !! k) =
  u64_add (default 0 (m !! k)) (default 0 (list_to_map (M := gmap Z Z) l !! k)).
Proof.
  induction l as [|[k' v] l IH]; intros m k Hn Hm; cbn [fold_left].
  - cbn. rewrite lookup_empty. cbn. rewrite u64_add_small by lia. lia.
  - cbn [fst snd list_to_map foldr]. apply list.NoDup_cons in Hn as [Hk Hn]. rewrite IH by (done ||
      (rewrite raw_inc_get; destruct (bool_decide _); [apply wrap64_range|done])).
    rewrite raw_inc_get. destruct (decide (k' = k)) as [->|Hne].
    + rewrite bool_decide_eq_true_2, lookup_insert_eq by done. cbn [from_option id].
      rewrite not_elem_of_list_to_map_1 by done. cbn [from_option id].
      pose proof (wrap64_range (default 0 (m !! k) + v)) as Hr. fold (u64_add (default 0 (m !! k)) v) in Hr.
      unfold is_u64 in Hr. rewrite (u64_add_small _ 0); lia.
    + rewrite bool_decide_eq_false_2, lookup_insert_ne by done. done.
Qed.

(** After a bump each counter is the sum of its old value and of its bump. *)
Lemma counters_bump_get m bumps c : 0 <= counters_get m c < 2 ^ 64 ->
  counters_get (counters_bump m bumps) c = u64_add (counters_get m c) (counters_get bumps c).
Proof.
  intros Hm. unfold counters_get, counters_bump. rewrite fold_raw_inc_get by (try apply NoDup_fst_map_to_list; done).
  by rewrite list_to_map_to_list.
Qed.
