(* ===== verification/Position.v ===== *)
(** * Positions of a binary tree numbered in order

    [types/src/proof/position/mod.rs]: a node of the accumulator tree is named
    by its in-order index, a [u64] on which navigation is bit manipulation.
    [Position] translates the operations; [inorder l p] is the abstract view (the
    [p]-th node of level [l]), and the lemmas show that every operation on
    indices implements the corresponding operation on (level, offset) pairs. *)

From S2P Require Import Prelude U64.

(** [types/src/proof/definition.rs], the depth bounds. *)
Definition MAX_ACCUMULATOR_PROOF_DEPTH : Z := 63.
Definition MAX_ACCUMULATOR_LEAVES : Z := u64_shl 1 MAX_ACCUMULATOR_PROOF_DEPTH.

Module Position.

Inductive NodeDirection := Left | Right.

(** Smears all the bits starting from the most significant one. *)
Definition smear_ones_for_u64 (v : Z) : Z :=
  let n := v in
  let n := Z.lor n (u64_shr n 1) in
  let n := Z.lor n (u64_shr n 2) in
  let n := Z.lor n (u64_shr n 4) in
  let n := Z.lor n (u64_shr n 8) in
  let n := Z.lor n (u64_shr n 16) in
  let n := Z.lor n (u64_shr n 32) in
  n.

Definition turn_off_right_most_n_bits (v n : Z) : Z := u64_shl (u64_shr v n) n.

Definition isolate_rightmost_zero_bit (v : Z) : Z := Z.land (u64_not v) (u64_add v 1).

Definition level (v : Z) : Z := trailing_zeros64 (u64_not v).

Definition is_leaf (v : Z) : bool := Z.land v 1 =? 0.

Definition from_level_and_pos (level pos : Z) : Z :=
  let level_one_bits := u64_sub (u64_shl 1 level) 1 in
  let shifted_pos := u64_shl pos (level + 1) in
  Z.lor shifted_pos level_one_bits.

Definition from_inorder_index (index : Z) : Z := index.
Definition to_inorder_index (v : Z) : Z := v.

Definition parent (v : Z) : Z :=
  Z.land (Z.lor v (isolate_rightmost_zero_bit v))
         (u64_not (u64_shl (isolate_rightmost_zero_bit v) 1)).

(** The child functions assert that the node is not a leaf. *)
Definition child (v : Z) (dir : NodeDirection) : result string Z :=
  _ ← assert_ (negb (is_leaf v));
  let direction_bit :=
    match dir with Left => 0 | Right => isolate_rightmost_zero_bit v end in
  Ok (Z.land (Z.lor v direction_bit) (u64_not (u64_shr (isolate_rightmost_zero_bit v) 1))).

Definition left_child (v : Z) : result string Z :=
  _ ← assert_ (negb (is_leaf v)); child v Left.
Definition right_child (v : Z) : result string Z :=
  _ ← assert_ (negb (is_leaf v)); child v Right.

Definition is_left_child (v : Z) : bool :=
  Z.land v (u64_shl (isolate_rightmost_zero_bit v) 1) =? 0.
Definition is_right_child (v : Z) : bool := negb (is_left_child v).

Definition from_leaf_index (leaf_index : Z) : Z := from_level_and_pos 0 leaf_index.

Definition sibling (v : Z) : Z := Z.lxor v (u64_shl (isolate_rightmost_zero_bit v) 1).

Definition root_from_leaf_index (leaf_index : Z) : Z :=
  u64_shr (smear_ones_for_u64 (from_leaf_index leaf_index)) 1.

Definition root_from_leaf_count (leaf_count : Z) : result string Z :=
  _ ← assert_ (0 <? leaf_count); Ok (root_from_leaf_index (u64_sub leaf_count 1)).

Definition root_level_from_leaf_count (leaf_count : Z) : result string Z :=
  _ ← assert_ (0 <? leaf_count);
  let index := u64_sub leaf_count 1 in
  Ok (MAX_ACCUMULATOR_PROOF_DEPTH + 1 - leading_zeros64 index).

Definition right_most_child (v : Z) : Z := u64_sub (u64_add v (u64_shl 1 (level v))) 1.
Definition left_most_child (v : Z) : Z := turn_off_right_most_n_bits v (level v).

Definition is_freezable (v leaf_index : Z) : bool :=
  right_most_child v <=? from_leaf_index leaf_index.

Definition is_placeholder (v leaf_index : Z) : bool :=
  let leaf := from_leaf_index leaf_index in
  if v <=? leaf then false
  else if left_most_child v <=? leaf then false
  else true.

(** [AncestorSiblingIterator] and [AncestorIterator]: the first [n] items, the
    way the callers consume them ([take(n)]). *)
Fixpoint iter_ancestor_sibling (n : nat) (v : Z) : list Z :=
  match n with O => [] | S n => sibling v :: iter_ancestor_sibling n (parent v) end.
Fixpoint iter_ancestor (n : nat) (v : Z) : list Z :=
  match n with O => [] | S n => v :: iter_ancestor n (parent v) end.

(** [FrozenSubTreeIterator]: its state and one call of [next]. *)
Record FrozenSubTreeIterator := mkFrozenSubTreeIterator { bitmap : Z; seen_leaves : Z }.

Definition frozen_subtree_new (num_leaves : Z) : FrozenSubTreeIterator :=
  {| bitmap := num_leaves; seen_leaves := 0 |}.

Definition frozen_subtree_next (it : FrozenSubTreeIterator)
    : option (Z * FrozenSubTreeIterator) :=
  if bitmap it =? 0 then None
  else
    let root_offset := u64_shr (smear_ones_for_u64 (bitmap it)) 1 in
    let num_leaves := u64_add root_offset 1 in
    let leftmost_leaf := from_leaf_index (seen_leaves it) in
    let root := from_inorder_index (u64_add (to_inorder_index leftmost_leaf) root_offset) in
    Some (root, {| bitmap := Z.land (bitmap it) (u64_not num_leaves);
                   seen_leaves := u64_add (seen_leaves it) num_leaves |}).

(** Collects the iterator; 64 steps suffice because every step clears a bit. *)
Fixpoint frozen_subtree_collect (fuel : nat) (it : FrozenSubTreeIterator) : list Z :=
  match fuel with
  | O => []
  | S fuel => match frozen_subtree_next it with
              | None => []
              | Some (root, it) => root :: frozen_subtree_collect fuel it
              end
  end.
Definition frozen_subtrees (num_leaves : Z) : list Z :=
  frozen_subtree_collect 64 (frozen_subtree_new num_leaves).

(** [FrozenSubtreeSiblingIterator]. *)
Record FrozenSubtreeSiblingIterator := mkFrozenSubtreeSiblingIterator {
  current_num_leaves : Z;
  remaining_new_leaves : Z
}.

Definition frozen_sibling_new (current_num_leaves new_num_leaves : Z)
    : result string FrozenSubtreeSiblingIterator :=
  _ ← assert_ (new_num_leaves <=? MAX_ACCUMULATOR_LEAVES);
  _ ← assert_ (current_num_leaves <=? new_num_leaves);
  Ok {| current_num_leaves := current_num_leaves;
        remaining_new_leaves := u64_sub new_num_leaves current_num_leaves |}.

Definition next_new_leaf_batch (it : FrozenSubtreeSiblingIterator) : Z :=
  let zeros := leading_zeros64 (remaining_new_leaves it) in
  u64_shl 1 (MAX_ACCUMULATOR_PROOF_DEPTH - zeros).

Definition frozen_sibling_next (it : FrozenSubtreeSiblingIterator)
    : option (Z * FrozenSubtreeSiblingIterator) :=
  if remaining_new_leaves it =? 0 then None
  else
    let next_subtree_leaves :=
      if 0 <? current_num_leaves it then
        let rightmost_frozen_subtree_leaves :=
          u64_shl 1 (trailing_zeros64 (current_num_leaves it)) in
        if rightmost_frozen_subtree_leaves <=? remaining_new_leaves it
        then rightmost_frozen_subtree_leaves
        else next_new_leaf_batch it
      else next_new_leaf_batch it in
    let first_leaf_index := current_num_leaves it in
    let last_leaf_index := u64_sub (u64_add first_leaf_index next_subtree_leaves) 1 in
    Some (from_inorder_index (u64_add first_leaf_index last_leaf_index),
          {| current_num_leaves := u64_add (current_num_leaves it) next_subtree_leaves;
             remaining_new_leaves := u64_sub (remaining_new_leaves it) next_subtree_leaves |}).

Fixpoint frozen_sibling_collect (fuel : nat) (it : FrozenSubtreeSiblingIterator) : list Z :=
  match fuel with
  | O => []
  | S fuel => match frozen_sibling_next it with
              | None => []
              | Some (root, it) => root :: frozen_sibling_collect fuel it
              end
  end.

Definition children_of_node (node : Z) : Z :=
  u64_sub (u64_shl (isolate_rightmost_zero_bit node) 1) 2.

Definition nodes_to_left_of (node : Z) : Z :=
  let ones_up_to_level := u64_sub (isolate_rightmost_zero_bit node) 1 in
  let unset_level_zeros := Z.lxor node ones_up_to_level in
  u64_sub unset_level_zeros (count_ones64 unset_level_zeros).

Definition inorder_to_postorder (node : Z) : Z :=
  let children := children_of_node node in
  let left_nodes := nodes_to_left_of node in
  u64_add children left_nodes.

(** The loop [for i in (0..64).rev()] of [postorder_to_inorder]; [i] counts down. *)
Fixpoint postorder_loop (i : nat) (node full_binary_size bitmap : Z) : Z * Z :=
  match i with
  | O => (node, bitmap)
  | S i =>
    let '(node, bitmap) :=
      if full_binary_size <=? node
      then (u64_sub node full_binary_size, Z.lor bitmap (u64_shl 1 (Z.of_nat i)))
      else (node, bitmap) in
    postorder_loop i node (u64_shr full_binary_size 1) bitmap
  end.

Definition postorder_to_inorder (node : Z) : Z :=
  let '(node, bitmap) := postorder_loop 64 node (u64_not 0) 0 in
  let level := node mod 2 ^ 32 in
  let pos := u64_shr bitmap level in
  to_inorder_index (from_level_and_pos level pos).

Definition from_postorder_index (index : Z) : Z := postorder_to_inorder index.
Definition to_postorder_index (v : Z) : Z := inorder_to_postorder (to_inorder_index v).

End Position.

(** ** The abstract view: the [p]-th node of level [l] *)

Definition inorder (l p : Z) : Z := p * 2 ^ (l + 1) + 2 ^ l - 1.

(** Nodes of the 64-bit tree. *)
Definition valid_node (l p : Z) : Prop := 0 <= l /\ 0 <= p /\ (p + 1) * 2 ^ (l + 1) <= 2 ^ 64.

Section Canonical.
Import Position.

Lemma pow2_pos n : 0 <= n -> 0 < 2 ^ n.
Proof. intros. apply Z.pow_pos_nonneg; lia. Qed.

Lemma inorder_lor l p : 0 <= l -> 0 <= p ->
  inorder l p = Z.lor (Z.shiftl p (l + 1)) (Z.ones l).
Proof.
  intros Hl Hp. rewrite <- Z.lxor_lor, <- Z.add_nocarry_lxor.
  - rewrite Z.shiftl_mul_pow2, Z.ones_equiv by lia. unfold inorder. lia.
  - apply Z.bits_inj'. intros i Hi. rewrite Z.land_spec, Z.bits_0.
    destruct (Z.lt_ge_cases i (l + 1)).
    + rewrite Z.shiftl_spec_low by lia. done.
    + rewrite (Z.ones_spec_high l) by lia. by rewrite andb_false_r.
  - apply Z.bits_inj'. intros i Hi. rewrite Z.land_spec, Z.bits_0.
    destruct (Z.lt_ge_cases i (l + 1)).
    + rewrite Z.shiftl_spec_low by lia. done.
    + rewrite (Z.ones_spec_high l) by lia. by rewrite andb_false_r.
Qed.

(** The bits of an index: [l] ones, a zero, then the bits of the offset. *)
Lemma inorder_bits l p i : 0 <= l -> 0 <= p -> 0 <= i ->
  Z.testbit (inorder l p) i =
  (i <? l) || ((l <? i) && Z.testbit p (i - l - 1)).
Proof.
  intros. rewrite inorder_lor, Z.lor_spec by done.
  destruct (Z.ltb_spec i l); cbn.
  - rewrite (Z.ones_spec_low l) by lia. by rewrite orb_true_r.
  - rewrite (Z.ones_spec_high l), orb_false_r by lia.
    destruct (Z.ltb_spec l i); cbn.
    + rewrite Z.shiftl_spec by lia. f_equal. lia.
    + rewrite Z.shiftl_spec_low by lia. done.
Qed.

Lemma valid_node_bounds l p : valid_node l p ->
  0 <= l <= 63 /\ 0 <= p /\ 0 <= inorder l p < 2 ^ 64 - 1.
Proof.
  intros (Hl & Hp & Hv). unfold inorder.
  rewrite Z.pow_add_r in * by lia.
  assert (0 < 2 ^ l) by by apply pow2_pos.
  assert (l <= 63).
  { destruct (decide (l <= 63)); [done|].
    assert (2 ^ 64 <= 2 ^ l) by (apply Z.pow_le_mono_r; lia). nia. }
  nia.
Qed.

Lemma valid_node_offset l p : valid_node l p -> 0 <= p < 2 ^ (63 - l).
Proof.
  intros Hv. pose proof (valid_node_bounds _ _ Hv). destruct Hv as (? & ? & Hv).
  split; [done|]. replace 64 with (63 - l + (l + 1)) in Hv by lia.
  rewrite (Z.pow_add_r 2 (63 - l)) in Hv by lia.
  assert (0 < 2 ^ (l + 1)) by (apply pow2_pos; lia). nia.
Qed.

Lemma valid_node_u64 l p : valid_node l p -> is_u64 (inorder l p).
Proof. intros H%valid_node_bounds. unfold is_u64. lia. Qed.

Lemma u64_not_sub a : is_u64 a -> u64_not a = 2 ^ 64 - 1 - a.
Proof.
  intros Ha. enough (a + u64_not a = 2 ^ 64 - 1) by lia.
  rewrite Z.add_nocarry_lxor.
  - unfold u64_not. rewrite <- Z.lxor_assoc, Z.lxor_nilpotent. done.
  - apply Z.bits_inj'. intros i Hi. rewrite Z.land_spec, Z.bits_0, testbit_u64_not by done.
    by destruct (Z.testbit a i), (bool_decide (i < 64)).
Qed.

Lemma level_inorder l p : valid_node l p -> level (inorder l p) = l.
Proof.
  intros Hv. pose proof (valid_node_bounds _ _ Hv). unfold level.
  rewrite u64_not_sub by by apply valid_node_u64. unfold inorder.
  replace (2 ^ 64 - 1 - (p * 2 ^ (l + 1) + 2 ^ l - 1))
    with ((2 * (2 ^ (63 - l) - p - 1) + 1) * 2 ^ l).
  - apply valid_node_offset in Hv. apply trailing_zeros64_spec; lia.
  - replace 64 with (63 - l + (l + 1)) by lia. rewrite !Z.pow_add_r by lia. ring.
Qed.

Lemma inorder_inj l p l' p' : valid_node l p -> valid_node l' p' -> inorder l p = inorder l' p' -> l = l' /\ p = p'.
Proof.
  intros Hv Hv' E. assert (El : l = l') by (by rewrite <- (level_inorder l p Hv), E, level_inorder). subst l'.
  split; [done|]. destruct Hv as (? & ? & ?). unfold inorder in E. assert (0 < 2 ^ (l + 1)) by (apply pow2_pos; lia). nia.
Qed.

(** Bit-level equality: both sides have the same bits. *)
Lemma odd_shift_bits l p i : 0 <= l -> 0 <= p -> 0 <= i ->
  Z.testbit (inorder l p + 1) i = (i =? l) || ((l <? i) && Z.testbit p (i - l - 1)).
Proof.
  intros. replace (inorder l p + 1) with (Z.shiftl (2 * p + 1) l).
  2:{ rewrite Z.shiftl_mul_pow2 by lia. unfold inorder. rewrite Z.pow_add_r by lia. lia. }
  destruct (Z.lt_trichotomy i l) as [?|[->|?]].
  - rewrite Z.shiftl_spec_low by done. zbool.
  - rewrite Z.shiftl_spec, Z.sub_diag, Z.testbit_odd_0 by done. by rewrite Z.eqb_refl.
  - rewrite Z.shiftl_spec by lia. assert (i - l = Z.succ (i - l - 1)) as E by lia.
    rewrite E at 1. rewrite Z.testbit_odd_succ by lia. zbool.
Qed.

Lemma isolate_inorder l p : valid_node l p ->
  isolate_rightmost_zero_bit (inorder l p) = 2 ^ l.
Proof.
  intros Hv. pose proof (valid_node_bounds _ _ Hv) as (? & ? & ?).
  unfold isolate_rightmost_zero_bit. rewrite u64_add_small by lia.
  apply Z.bits_inj'. intros i Hi.
  rewrite Z.land_spec, testbit_u64_not, odd_shift_bits, inorder_bits, testbit_pow2
    by (done || lia || by apply valid_node_u64).
  repeat case_bool_decide; zbool; by destruct (Z.testbit p (i - l - 1)).
Qed.

Lemma isolate_shl l : 0 <= l < 63 -> u64_shl (2 ^ l) 1 = 2 ^ (l + 1).
Proof.
  intros. rewrite Z.pow_add_r by lia. apply u64_shl_small; [lia|].
  assert (2 ^ l < 2 ^ 63) by (apply Z.pow_lt_mono_r; lia).
  assert (0 < 2 ^ l) by (apply pow2_pos; lia). lia.
Qed.

Lemma parent_inorder l p : valid_node l p -> l < 63 ->
  parent (inorder l p) = inorder (l + 1) (p / 2).
Proof.
  intros Hv Hl. pose proof (valid_node_bounds _ _ Hv) as (? & ? & ?).
  unfold parent. rewrite isolate_inorder by done.
  rewrite isolate_shl by lia. apply Z.bits_inj'. intros i Hi.
  assert (Hp2 : is_u64 (2 ^ (l + 1))).
  { split; [apply Z.pow_nonneg; lia|apply Z.pow_lt_mono_r; lia]. }
  assert (0 <= p / 2) by (apply Z.div_pos; lia).
  rewrite Z.land_spec, Z.lor_spec, testbit_u64_not, !inorder_bits, !testbit_pow2 by (done || lia).
  destruct (Z.lt_ge_cases (l + 1) i).
  - replace (Z.testbit (p / 2) (i - (l + 1) - 1)) with (Z.testbit p (i - l - 1)).
    2:{ rewrite <- (Z.pow_1_r 2) at 1. rewrite Z.div_pow2_bits by lia. f_equal. lia. }
    destruct (decide (i < 64)).
    + repeat case_bool_decide; zbool; by destruct (Z.testbit p (i - l - 1)).
    + assert (Z.testbit p (i - l - 1) = false) as ->.
      { apply (testbit_ge (63 - l)); [lia|by apply valid_node_offset|lia]. }
      repeat case_bool_decide; zbool.
  - repeat case_bool_decide; zbool.
Qed.

Lemma valid_node_parent l p : valid_node l p -> l < 63 -> valid_node (l + 1) (p / 2).
Proof.
  intros Hv Hl. pose proof (valid_node_offset _ _ Hv). destruct Hv as (? & ? & ?).
  split_and!; [lia|apply Z.div_pos; lia|].
  replace 64 with ((62 - l) + (l + 1 + 1)) by lia. rewrite (Z.pow_add_r 2 (62 - l)) by lia.
  apply Z.mul_le_mono_nonneg_r; [apply Z.pow_nonneg; lia|].
  enough (p / 2 < 2 ^ (62 - l)) by lia. apply Z.div_lt_upper_bound; [lia|].
  rewrite <- Z.pow_succ_r by lia. replace (Z.succ (62 - l)) with (63 - l) by lia. lia.
Qed.

Lemma sibling_inorder l p : valid_node l p -> l < 63 ->
  sibling (inorder l p) = inorder l (Z.lxor p 1).
Proof.
  intros Hv Hl. pose proof (valid_node_bounds _ _ Hv) as (? & ? & ?).
  unfold sibling. rewrite isolate_inorder by done.
  rewrite isolate_shl by lia. apply Z.bits_inj'. intros i Hi.
  assert (0 <= Z.lxor p 1) by (apply Z.lxor_nonneg; lia).
  rewrite Z.lxor_spec, !inorder_bits, testbit_pow2 by (done || lia).
  destruct (Z.lt_ge_cases l i).
  - rewrite Z.lxor_spec. change 1 with (2 ^ 0) at 4.
    rewrite (testbit_pow2 0) by lia. repeat case_bool_decide; zbool; by rewrite ?xorb_false_r.
  - repeat case_bool_decide; zbool.
Qed.
Lemma is_leaf_inorder l p : valid_node l p -> is_leaf (inorder l p) = (l =? 0).
Proof.
  intros Hv. pose proof (valid_node_bounds _ _ Hv) as (? & ? & ?). unfold is_leaf.
  assert (E : Z.land (inorder l p) 1 = if l =? 0 then 0 else 1).
  { apply Z.bits_inj'. intros i Hi. rewrite Z.land_spec, inorder_bits by lia.
    change 1 with (2 ^ 0) at 2. rewrite (testbit_pow2 0) by lia.
    destruct (Z.eqb_spec l 0).
    - rewrite Z.bits_0. case_bool_decide; zbool; by rewrite ?andb_false_r.
    - change 1 with (2 ^ 0). rewrite (testbit_pow2 0) by lia. case_bool_decide; zbool;
      by rewrite ?andb_false_r. }
  rewrite E. by destruct (l =? 0).
Qed.

Lemma child_inorder l p dir : valid_node l p -> 0 < l ->
  child (inorder l p) dir =
  Ok (inorder (l - 1) (2 * p + match dir with Left => 0 | Right => 1 end)).
Proof.
  intros Hv Hl. pose proof (valid_node_bounds _ _ Hv) as (? & ? & ?).
  unfold child. rewrite is_leaf_inorder, isolate_inorder by done.
  destruct (Z.eqb_spec l 0); [lia|]. cbn. f_equal.
  assert (Hs : u64_shr (2 ^ l) 1 = 2 ^ (l - 1)).
  { unfold u64_shr. rewrite Z.shiftr_div_pow2 by lia.
    replace l with (l - 1 + 1) at 1 by lia. rewrite Z.pow_add_r by lia. by rewrite Z.div_mul. }
  assert (Hp2 : is_u64 (2 ^ (l - 1))).
  { split; [apply Z.pow_nonneg; lia|apply Z.pow_lt_mono_r; lia]. }
  assert (Hq : 0 <= match dir with Left => 0 | Right => 1 end <= 1) by (destruct dir; lia).
  rewrite Hs. apply Z.bits_inj'. intros i Hi.
  rewrite Z.land_spec, Z.lor_spec, testbit_u64_not, !inorder_bits, testbit_pow2 by (done || lia).
  assert (Hd : Z.testbit match dir with Left => 0 | Right => 2 ^ l end i =
    match dir with Left => false | Right => bool_decide (i = l) end).
  { destruct dir; [apply Z.bits_0|by apply testbit_pow2; lia]. }
  rewrite Hd.
  destruct (Z.lt_trichotomy i l) as [?|[->|?]].
  - destruct dir; repeat case_bool_decide; zbool.
  - replace (l - (l - 1) - 1) with 0 by lia.
    destruct dir; [rewrite Z.add_0_r, Z.testbit_even_0|rewrite Z.testbit_odd_0];
      repeat case_bool_decide; zbool.
  - replace (i - (l - 1) - 1) with (Z.succ (i - l - 1)) by lia.
    destruct (decide (i < 64)).
    + destruct dir; [rewrite Z.add_0_r, Z.testbit_even_succ by lia
                    |rewrite Z.testbit_odd_succ by lia];
        repeat case_bool_decide; zbool; by destruct (Z.testbit p (i - l - 1)).
    + assert (Ht : Z.testbit p (i - l - 1) = false).
      { apply (testbit_ge (63 - l)); [lia|by apply valid_node_offset|lia]. }
      destruct dir; [rewrite Z.add_0_r, Z.testbit_even_succ by lia
                    |rewrite Z.testbit_odd_succ by lia];
        rewrite Ht; repeat case_bool_decide; zbool.
Qed.

Lemma left_child_inorder l p : valid_node l p -> 0 < l ->
  left_child (inorder l p) = Ok (inorder (l - 1) (2 * p)).
Proof.
  intros. unfold left_child. rewrite is_leaf_inorder by done.
  destruct (Z.eqb_spec l 0); [lia|]. cbn. rewrite child_inorder by done. by rewrite Z.add_0_r.
Qed.

Lemma right_child_inorder l p : valid_node l p -> 0 < l ->
  right_child (inorder l p) = Ok (inorder (l - 1) (2 * p + 1)).
Proof.
  intros. unfold right_child. rewrite is_leaf_inorder by done.
  destruct (Z.eqb_spec l 0); [lia|]. cbn. by rewrite child_inorder.
Qed.

Lemma is_left_child_inorder l p : valid_node l p -> l < 63 ->
  is_left_child (inorder l p) = Z.even p.
Proof.
  intros Hv Hl. pose proof (valid_node_bounds _ _ Hv) as (? & ? & ?).
  unfold is_left_child. rewrite isolate_inorder, isolate_shl by (done || lia).
  assert (E : Z.land (inorder l p) (2 ^ (l + 1)) = if Z.even p then 0 else 2 ^ (l + 1)).
  { apply Z.bits_inj'. intros i Hi. rewrite Z.land_spec, inorder_bits, testbit_pow2 by lia.
    destruct (Z.even p) eqn:Ep; rewrite ?Z.bits_0, ?testbit_pow2 by lia; case_bool_decide; subst;
      rewrite ?andb_false_r; try done.
    all: replace (l + 1 - l - 1) with 0 by lia; rewrite Z.bit0_odd, <- Z.negb_even, Ep; zbool. }
  rewrite E. destruct (Z.even p); [done|]. apply Z.eqb_neq.
  assert (0 < 2 ^ (l + 1)) by (apply pow2_pos; lia). lia.
Qed.

Lemma from_level_and_pos_inorder l p : valid_node l p -> l < 63 ->
  from_level_and_pos l p = inorder l p.
Proof.
  intros Hv Hl. pose proof (valid_node_bounds _ _ Hv) as (? & ? & ?).
  assert (2 ^ l < 2 ^ 63) by (apply Z.pow_lt_mono_r; lia).
  assert (0 < 2 ^ l) by (apply pow2_pos; lia).
  unfold from_level_and_pos. rewrite (u64_shl_small 1) by lia. rewrite u64_sub_small by lia.
  unfold u64_shl. rewrite wrap64_small.
  - rewrite inorder_lor, Z.ones_equiv by lia. f_equal. lia.
  - rewrite Z.shiftl_mul_pow2 by lia. unfold is_u64. destruct Hv as (? & ? & Hv). nia.
Qed.

Lemma from_leaf_index_inorder i : 0 <= i < 2 ^ 63 -> from_leaf_index i = 2 * i.
Proof.
  intros. unfold from_leaf_index. rewrite from_level_and_pos_inorder by (unfold valid_node; lia).
  unfold inorder. lia.
Qed.

(** The shift drops the highest bit of an index. *)
Lemma from_leaf_index_wrap i : 0 <= i -> from_leaf_index i = 2 * (i mod 2 ^ 63).
Proof.
  intros Hi. unfold from_leaf_index, from_level_and_pos. change (u64_sub (u64_shl 1 0) 1) with 0. rewrite Z.lor_0_r.
  unfold u64_shl, wrap64. rewrite Z.shiftl_mul_pow2 by lia. change (2 ^ (0 + 1)) with 2. change (2 ^ 64) with (2 ^ 63 * 2).
  rewrite Z.mul_mod_distr_r by lia. lia.
Qed.

Lemma right_most_child_inorder l p : valid_node l p ->
  right_most_child (inorder l p) = inorder 0 ((p + 1) * 2 ^ l - 1).
Proof.
  intros Hv. pose proof (valid_node_bounds _ _ Hv) as (? & ? & ?).
  unfold right_most_child. rewrite level_inorder by done.
  assert (0 < 2 ^ l) by (apply pow2_pos; lia).
  assert (2 ^ l <= 2 ^ 63) by (apply Z.pow_le_mono_r; lia).
  rewrite (u64_shl_small 1) by lia.
  destruct Hv as (? & ? & Hv). unfold inorder in *. rewrite Z.pow_add_r in * by lia.
  change (2 ^ 1) with 2 in *. change (2 ^ 0) with 1.
  rewrite u64_add_small by lia. rewrite u64_sub_small by lia. lia.
Qed.

Lemma left_most_child_inorder l p : valid_node l p ->
  left_most_child (inorder l p) = inorder 0 (p * 2 ^ l).
Proof.
  intros Hv. pose proof (valid_node_bounds _ _ Hv) as (? & ? & ?).
  unfold left_most_child, turn_off_right_most_n_bits. rewrite level_inorder by done.
  assert (0 < 2 ^ l) by (apply pow2_pos; lia).
  unfold u64_shr. rewrite Z.shiftr_div_pow2 by lia.
  assert (E : inorder l p / 2 ^ l = 2 * p).
  { unfold inorder. rewrite Z.pow_add_r by lia. symmetry. apply (Z.div_unique _ _ _ (2 ^ l - 1)); lia. }
  rewrite E. destruct Hv as (? & ? & Hv). rewrite Z.pow_add_r in Hv by lia.
  rewrite u64_shl_small by nia. unfold inorder. change (2 ^ 0) with 1. change (2 ^ (0 + 1)) with 2. lia.
Qed.

(** A node is freezable when its last leaf is not after [i]. *)
Lemma is_freezable_inorder l p i : valid_node l p -> 0 <= i < 2 ^ 63 ->
  is_freezable (inorder l p) i = ((p + 1) * 2 ^ l - 1 <=? i).
Proof.
  intros. unfold is_freezable. rewrite right_most_child_inorder, from_leaf_index_inorder by done.
  unfold inorder. change (2 ^ 0) with 1. change (2 ^ (0 + 1)) with 2. zbool.
Qed.

(** A node is a placeholder when its first leaf is after [i]. *)
Lemma is_placeholder_inorder l p i : valid_node l p -> 0 <= i < 2 ^ 63 ->
  is_placeholder (inorder l p) i = (i <? p * 2 ^ l).
Proof.
  intros Hv Hi. pose proof (valid_node_bounds _ _ Hv) as (? & ? & ?). unfold is_placeholder.
  rewrite left_most_child_inorder, from_leaf_index_inorder by done.
  assert (0 < 2 ^ l) by (apply pow2_pos; lia).
  assert (E : inorder l p <= 2 * i -> p * 2 ^ l <= i).
  { unfold inorder. rewrite Z.pow_add_r by lia. nia. }
  unfold inorder at 2. change (2 ^ 0) with 1. change (2 ^ (0 + 1)) with 2. zbool.
Qed.

(** *** Smearing and roots *)

(** One smearing step doubles the window of bits that are or-ed together. *)
Lemma smear_step v n k : 0 <= k ->
  (forall i, 0 <= i -> Z.testbit n i = true <-> exists j, 0 <= j < k /\ Z.testbit v (i + j) = true) ->
  forall i, 0 <= i ->
    Z.testbit (Z.lor n (u64_shr n k)) i = true <->
    exists j, 0 <= j < 2 * k /\ Z.testbit v (i + j) = true.
Proof.
  intros Hk Hn i Hi. unfold u64_shr.
  rewrite Z.lor_spec, orb_true_iff, Z.shiftr_spec, !Hn by lia. split.
  - intros [(j & ? & Hj)|(j & ? & Hj)].
    + exists j. split; [lia|done].
    + exists (j + k). split; [lia|]. by replace (i + (j + k)) with (i + k + j) by lia.
  - intros (j & ? & Hj). destruct (decide (j < k)).
    + left. exists j. split; [lia|done].
    + right. exists (j - k). split; [lia|]. by replace (i + k + (j - k)) with (i + j) by lia.
Qed.

Lemma smear_bits v i : 0 <= i ->
  Z.testbit (smear_ones_for_u64 v) i = true <->
  exists j, 0 <= j < 64 /\ Z.testbit v (i + j) = true.
Proof.
  revert i. unfold smear_ones_for_u64.
  change 64 with (2 * 32). apply smear_step; [lia|].
  change 32 with (2 * 16). apply smear_step; [lia|].
  change 16 with (2 * 8). apply smear_step; [lia|].
  change 8 with (2 * 4). apply smear_step; [lia|].
  change 4 with (2 * 2). apply smear_step; [lia|].
  change 2 with (2 * 1). apply smear_step; [lia|].
  intros i Hi. split.
  - intros. exists 0. by rewrite Z.add_0_r.
  - intros (j & ? & Hj). assert (j = 0) as -> by lia. by rewrite Z.add_0_r in Hj.
Qed.

Lemma smear_spec v : 0 < v < 2 ^ 64 -> smear_ones_for_u64 v = Z.ones (Z.log2 v + 1).
Proof.
  intros Hv. pose proof (Z.log2_nonneg v).
  assert (Z.log2 v < 64) by (apply Z.log2_lt_pow2; lia).
  apply Z.bits_inj'. intros i Hi. apply eq_bool_prop_intro.
  rewrite !Is_true_true. rewrite smear_bits by done. split.
  - intros (j & ? & Hj). destruct (decide (i <= Z.log2 v)); [by apply Z.ones_spec_low; lia|].
    rewrite Z.bits_above_log2 in Hj by lia. done.
  - intros Ho. destruct (decide (i <= Z.log2 v)).
    + exists (Z.log2 v - i). split; [lia|].
      replace (i + (Z.log2 v - i)) with (Z.log2 v) by lia. apply Z.bit_log2. lia.
    + rewrite Z.ones_spec_high in Ho by lia. done.
Qed.

Lemma shiftr_ones n : 0 <= n -> u64_shr (Z.ones (n + 1)) 1 = Z.ones n.
Proof.
  intros. unfold u64_shr. rewrite Z.shiftr_div_pow2, !Z.ones_equiv by lia.
  rewrite Z.pow_add_r by lia. change (2 ^ 1) with 2. symmetry.
  apply (Z.div_unique _ _ _ 1); lia.
Qed.

(** Height of the smallest perfect tree with at least [n] leaves. *)
Definition root_level (n : Z) : Z := if n <=? 1 then 0 else Z.log2 (n - 1) + 1.

Lemma root_level_nonneg n : 0 <= root_level n.
Proof. unfold root_level. pose proof (Z.log2_nonneg (n - 1)). zbool. Qed.

Lemma root_level_spec n : 0 < n -> n <= 2 ^ root_level n /\ (1 < n -> 2 ^ (root_level n - 1) < n).
Proof.
  intros. unfold root_level. destruct (Z.leb_spec n 1); [change (2 ^ 0) with 1; lia|].
  destruct (Z.log2_spec (n - 1)); [lia|]. replace (Z.log2 (n - 1) + 1 - 1) with (Z.log2 (n - 1)) by lia.
  rewrite Z.add_1_r. lia.
Qed.

Lemma root_level_le n k : 0 < n <= 2 ^ k -> 0 <= k -> root_level n <= k.
Proof.
  intros Hn Hk. unfold root_level. destruct (Z.leb_spec n 1); [done|].
  enough (Z.log2 (n - 1) < k) by lia. apply Z.log2_lt_pow2; lia.
Qed.

Lemma root_level_bound n : 0 < n <= 2 ^ 63 -> 0 <= root_level n <= 63.
Proof. intros. split; [apply root_level_nonneg|by apply root_level_le]. Qed.

Lemma valid_root n : 0 < n <= 2 ^ 63 -> valid_node (root_level n) 0.
Proof.
  intros Hn. pose proof (root_level_bound n Hn). unfold valid_node. split_and!; try lia.
  rewrite Z.mul_1_l. apply Z.pow_le_mono_r; lia.
Qed.

Lemma root_from_leaf_count_inorder n : 0 < n <= 2 ^ 63 ->
  root_from_leaf_count n = Ok (inorder (root_level n) 0).
Proof.
  intros. unfold root_from_leaf_count. destruct (Z.ltb_spec 0 n); [|lia]. cbn.
  unfold root_from_leaf_index. rewrite u64_sub_small, from_leaf_index_inorder by lia. f_equal.
  unfold root_level. destruct (Z.leb_spec n 1).
  - by replace n with 1 by lia.
  - rewrite smear_spec by lia. rewrite Z.log2_double by lia. rewrite <- Z.add_1_r.
    pose proof (Z.log2_nonneg (n - 1)). rewrite shiftr_ones by lia.
    rewrite Z.ones_equiv. unfold inorder. lia.
Qed.

Lemma root_level_from_leaf_count_inorder n : 0 < n <= 2 ^ 63 ->
  root_level_from_leaf_count n = Ok (root_level n).
Proof.
  intros. unfold root_level_from_leaf_count. destruct (Z.ltb_spec 0 n); [|lia]. cbn.
  rewrite u64_sub_small by lia. unfold root_level, leading_zeros64, MAX_ACCUMULATOR_PROOF_DEPTH.
  f_equal. destruct (Z.leb_spec n 1), (Z.eqb_spec (n - 1) 0); lia.
Qed.

(** *** Full subtrees of an accumulator of [n] leaves

    Bottom-up: halving [n] moves one level up; an odd count leaves one full
    subtree at the current level.  From left to right the subtrees get smaller. *)
Fixpoint frozen_pos (l : Z) (n : positive) : list (Z * Z) :=
  match n with
  | xH => [(l, 0)]
  | xO n => frozen_pos (l + 1) n
  | xI n => frozen_pos (l + 1) n ++ [(l, 2 * Zpos n)]
  end.
Definition frozen_nodes (l n : Z) : list (Z * Z) :=
  match n with Zpos p => frozen_pos l p | _ => [] end.

Lemma frozen_nodes_double l n : 0 <= n -> frozen_nodes l (2 * n) = frozen_nodes (l + 1) n.
Proof. by destruct n. Qed.

Lemma frozen_nodes_succ_double l n : 0 <= n ->
  frozen_nodes l (2 * n + 1) = frozen_nodes (l + 1) n ++ [(l, 2 * n)].
Proof. by destruct n. Qed.

Lemma frozen_nodes_pow2 l n k : 0 <= n -> 0 <= k ->
  frozen_nodes l (n * 2 ^ k) = frozen_nodes (l + k) n.
Proof.
  intros Hn Hk. revert l. pattern k. apply natlike_ind; [| |done].
  - intros l. f_equal; lia.
  - intros m Hm IH l. rewrite Z.pow_succ_r by done.
    replace (n * (2 * 2 ^ m)) with (2 * (n * 2 ^ m)) by lia.
    rewrite frozen_nodes_double, IH; [f_equal; lia|].
    assert (0 < 2 ^ m) by (apply pow2_pos; lia). nia.
Qed.

Lemma frozen_nodes_length l n : 0 <= n -> Z.of_nat (length (frozen_nodes l n)) = count_ones64 n.
Proof.
  destruct n as [|p|p]; [done| |lia]. intros _. cbn [frozen_nodes count_ones64]. revert l.
  induction p as [p IH|p IH|]; intros l; cbn [frozen_pos pos_count_ones]; [|apply IH|done].
  rewrite length_app, Nat2Z.inj_add, IH. cbn. lia.
Qed.

(** Top-down: the full subtrees of [m * 2 ^ k + b] leaves are those of the first
    [m * 2 ^ k] leaves followed by those of the remaining [b], moved right. *)
Lemma frozen_nodes_size l n : 0 <= l -> 0 <= n -> zsum (fun '(l', _) => 2 ^ l') (frozen_nodes l n) = n * 2 ^ l.
Proof.
  intros Hl Hn. destruct n as [|n|]; [done| |lia]. revert l Hl. clear Hn.
  induction n as [n IH|n IH|]; intros l Hl; cbn [frozen_nodes frozen_pos] in *.
  - rewrite zsum_app, IH by lia. cbn [zsum]. rewrite Z.pow_add_r by lia. lia.
  - rewrite IH by lia. rewrite Z.pow_add_r by lia. lia.
  - cbn. lia.
Qed.

Lemma frozen_nodes_split k l m b : 0 <= k -> 0 <= m -> 0 <= b < 2 ^ k ->
  frozen_nodes l (m * 2 ^ k + b) =
  frozen_nodes (l + k) m ++
  map (fun '(l', p) => (l', p + m * 2 ^ (k + l - l'))) (frozen_nodes l b).
Proof.
  intros Hk Hm. revert l b. pattern k. apply natlike_ind; [| |done].
  - intros l b Hb. change (2 ^ 0) with 1 in *. assert (b = 0) as -> by lia.
    rewrite !Z.add_0_r, Z.mul_1_r. cbn. by rewrite app_nil_r.
  - clear k Hk. intros k Hk IH l b Hb. rewrite Z.pow_succ_r in * by done.
    assert (Hb2 : 0 <= b / 2 < 2 ^ k) by (split; [apply Z.div_pos|apply Z.div_lt_upper_bound]; lia).
    pose proof (Z.div_mod b 2 ltac:(lia)) as E. pose proof (Z.mod_pos_bound b 2 ltac:(lia)).
    assert (0 < 2 ^ k) by (apply pow2_pos; lia).
    assert (b mod 2 = 0 \/ b mod 2 = 1) as [Em|Em] by lia; rewrite Em in E.
    + replace (m * (2 * 2 ^ k) + b) with (2 * (m * 2 ^ k + b / 2)) by lia.
      replace b with (2 * (b / 2)) at 2 by lia.
      rewrite !frozen_nodes_double, IH by nia. f_equal; [f_equal; lia|].
      apply map_ext. intros [l' p]. do 4 f_equal. lia.
    + replace (m * (2 * 2 ^ k) + b) with (2 * (m * 2 ^ k + b / 2) + 1) by lia.
      replace b with (2 * (b / 2) + 1) at 2 by lia.
      rewrite !frozen_nodes_succ_double, IH, map_app, <- app_assoc by nia. cbn.
      f_equal; [f_equal; lia|]. f_equal.
      * apply map_ext. intros [l' p]. do 4 f_equal. lia.
      * do 2 f_equal. replace (Z.succ k + l - l) with (k + 1) by lia.
        rewrite Z.pow_add_r by lia. lia.
Qed.

Lemma frozen_nodes_top k l b : 0 <= k -> 0 <= b < 2 ^ k ->
  frozen_nodes l (2 ^ k + b) =
  (l + k, 0) :: map (fun '(l', p) => (l', p + 2 ^ (k + l - l'))) (frozen_nodes l b).
Proof.
  intros. rewrite <- (Z.mul_1_l (2 ^ k)). rewrite frozen_nodes_split by lia. cbn. f_equal.
  apply map_ext. intros [l' p]. by rewrite Z.mul_1_l.
Qed.

Lemma frozen_nodes_In l n l' p : 0 <= l -> 0 <= n -> In (l', p) (frozen_nodes l n) ->
  l <= l' /\ 0 <= p /\ (p + 1) * 2 ^ (l' - l) <= n.
Proof.
  intros Hl. destruct n as [|q|q]; [done| |lia]. cbn. intros _. revert l Hl.
  induction q as [q IH|q IH|]; intros l Hl; cbn [frozen_pos].
  - rewrite in_app_iff. intros [Hin|[[= <- <-]|[]]].
    + apply IH in Hin as (? & ? & Hp); [|lia].
      replace (l' - l) with (l' - (l + 1) + 1) by lia. rewrite Z.pow_add_r by lia. lia.
    + rewrite Z.sub_diag. lia.
  - intros Hin. apply IH in Hin as (? & ? & Hp); [|lia].
    replace (l' - l) with (l' - (l + 1) + 1) by lia. rewrite Z.pow_add_r by lia. lia.
  - intros [[= <- <-]|[]]. rewrite Z.sub_diag. lia.
Qed.

Lemma frozen_nodes_level_lt l n l' p k : 0 <= l -> 0 <= n < 2 ^ k -> 0 <= k ->
  In (l', p) (frozen_nodes l n) -> l' < l + k.
Proof.
  intros Hl Hn Hk Hin. apply frozen_nodes_In in Hin as (? & ? & Hp); [|lia..].
  destruct (decide (l' < l + k)); [done|].
  assert (2 ^ k <= 2 ^ (l' - l)) by (apply Z.pow_le_mono_r; lia). nia.
Qed.

Lemma ldiff_top k b : 0 <= k < 64 -> 0 <= b < 2 ^ k ->
  Z.land (2 ^ k + b) (u64_not (2 ^ k)) = b.
Proof.
  intros Hk Hb.
  assert (is_u64 (2 ^ k)) by (split; [apply Z.pow_nonneg|apply Z.pow_lt_mono_r]; lia).
  assert (Hlt : forall i, 0 <= i -> i >= k -> Z.testbit b i = false).
  { intros. apply (testbit_ge k); lia. }
  rewrite Z.add_nocarry_lxor.
  - apply Z.bits_inj'. intros i Hi.
    rewrite Z.land_spec, Z.lxor_spec, testbit_u64_not, testbit_pow2 by (done || lia).
    repeat case_bool_decide; cbn; rewrite ?andb_true_r, ?andb_false_r, ?xorb_false_l; try done;
      symmetry; apply Hlt; lia.
  - apply Z.bits_inj'. intros i Hi. rewrite Z.land_spec, Z.bits_0, testbit_pow2 by lia.
    case_bool_decide; [|done]. cbn. apply Hlt; lia.
Qed.

Lemma frozen_subtree_collect_inorder fuel b s :
  0 <= b -> 0 <= s -> b + s <= 2 ^ 63 -> b < 2 ^ Z.of_nat fuel ->
  frozen_subtree_collect fuel {| bitmap := b; seen_leaves := s |} =
  map (fun '(l, p) => inorder l p + 2 * s) (frozen_nodes 0 b).
Proof.
  revert b s. induction fuel as [|fuel IH]; intros b s Hb Hs Hbs Hf.
  { change (2 ^ Z.of_nat 0) with 1 in Hf. by assert (b = 0) as -> by lia. }
  cbn [frozen_subtree_collect]. unfold frozen_subtree_next. cbn [bitmap seen_leaves].
  destruct (Z.eqb_spec b 0) as [->|Hb0]; [done|].
  pose proof (Z.log2_nonneg b). destruct (Z.log2_spec b) as [Hlo Hhi]; [lia|].
  set (k := Z.log2 b) in *. rewrite Z.pow_succ_r in Hhi by lia.
  assert (k < 64) by (apply (Z.pow_lt_mono_r_iff 2); lia).
  rewrite smear_spec by lia. fold k. rewrite shiftr_ones, Z.ones_equiv by lia.
  assert (0 < 2 ^ k) by (apply pow2_pos; lia).
  rewrite (u64_add_small (Z.pred (2 ^ k))) by lia.
  replace (Z.pred (2 ^ k) + 1) with (2 ^ k) by lia.
  replace (Z.land b (u64_not (2 ^ k))) with (b - 2 ^ k).
  2:{ rewrite <- (ldiff_top k (b - 2 ^ k)) at 1 by lia. do 2 f_equal. lia. }
  rewrite from_leaf_index_inorder by lia. unfold from_inorder_index, to_inorder_index.
  rewrite !u64_add_small by lia. rewrite IH; [|lia..|].
  - replace b with (2 ^ k + (b - 2 ^ k)) at 2 by lia. rewrite frozen_nodes_top by lia. cbn [map].
    change (0 + k) with k. f_equal; [unfold inorder; lia|]. rewrite map_map. apply map_ext_in. intros [l p] Hin.
    apply frozen_nodes_level_lt with (k := k) in Hin as ?; [|lia..].
    apply frozen_nodes_In in Hin as (? & ? & ?); [|lia..].
    unfold inorder. rewrite (Z.pow_add_r 2 l) by lia.
    replace (2 ^ k) with (2 ^ (k + 0 - l) * 2 ^ l) by (rewrite <- Z.pow_add_r by lia; f_equal; lia).
    lia.
  - rewrite Nat2Z.inj_succ, Z.pow_succ_r in Hf by lia. lia.
Qed.

(** [FrozenSubTreeIterator] yields the full subtrees from left to right. *)
Lemma frozen_subtrees_inorder n : 0 <= n <= 2 ^ 63 ->
  frozen_subtrees n = map (fun '(l, p) => inorder l p) (frozen_nodes 0 n).
Proof.
  intros Hn. unfold frozen_subtrees, frozen_subtree_new.
  rewrite frozen_subtree_collect_inorder by (change (2 ^ Z.of_nat 64) with (2 ^ 64); lia).
  apply map_ext. intros [l p]. lia.
Qed.

(** *** Post-order numbering *)

Lemma count_ones64_le x : 0 <= x -> count_ones64 x <= x.
Proof.
  destruct x as [|p|p]; cbn; try lia. intros _.
  induction p; cbn [pos_count_ones]; lia.
Qed.

(** The post-order number of a node: the nodes of the trees completed so far. *)
Lemma inorder_to_postorder_inorder l p : valid_node l p -> l < 63 ->
  inorder_to_postorder (inorder l p) = (p + 1) * 2 ^ (l + 1) - 2 - count_ones64 p.
Proof.
  intros Hv Hl. pose proof (valid_node_bounds _ _ Hv) as (? & ? & ?).
  assert (Hl2 : 2 <= 2 ^ (l + 1)) by (rewrite Z.pow_add_r by lia; pose proof (pow2_pos l); lia).
  assert (2 ^ (l + 1) < 2 ^ 64) by (apply Z.pow_lt_mono_r; lia).
  assert (0 < 2 ^ l < 2 ^ 63) by (split; [apply pow2_pos|apply Z.pow_lt_mono_r]; lia).
  unfold inorder_to_postorder, children_of_node, nodes_to_left_of.
  rewrite isolate_inorder, isolate_shl by (done || lia).
  rewrite (u64_sub_small (2 ^ (l + 1)) 2), (u64_sub_small (2 ^ l) 1) by lia.
  assert (E : Z.lxor (inorder l p) (2 ^ l - 1) = p * 2 ^ (l + 1)).
  { rewrite inorder_lor by lia. replace (2 ^ l - 1) with (Z.ones l) by (rewrite Z.ones_equiv; lia).
    rewrite <- Z.shiftl_mul_pow2 by lia. apply Z.bits_inj'. intros i Hi.
    rewrite Z.lxor_spec, Z.lor_spec. destruct (Z.lt_ge_cases i (l + 1)).
    - rewrite Z.shiftl_spec_low by lia. by destruct (Z.testbit (Z.ones l) i).
    - rewrite (Z.ones_spec_high l) by lia. by rewrite orb_false_r, xorb_false_r. }
  rewrite E, count_ones64_pow2_mul by lia. destruct Hv as (? & ? & Hv).
  pose proof (count_ones64_le p). pose proof (count_ones64_nonneg p).
  rewrite (u64_sub_small (p * _)) by nia. rewrite u64_add_small by nia. lia.
Qed.

Definition postorder_weight (b : Z) : Z := 2 * b - count_ones64 b.

Lemma count_ones64_top k b : 0 <= k -> 0 <= b < 2 ^ k -> count_ones64 (2 ^ k + b) = 1 + count_ones64 b.
Proof.
  intros Hk Hb. assert (0 < 2 ^ k) by (apply pow2_pos; lia).
  rewrite <- !(frozen_nodes_length 0) by lia. rewrite frozen_nodes_top by lia.
  cbn [length]. rewrite length_map. lia.
Qed.

Lemma count_ones64_mul_bound m n i : 0 <= m -> 0 <= i -> m * 2 ^ n < 2 ^ i -> 0 <= n <= i ->
  2 * (m * 2 ^ n) - count_ones64 (m * 2 ^ n) + 2 ^ (n + 1) <= 2 ^ (i + 1).
Proof.
  intros. pose proof (count_ones64_nonneg (m * 2 ^ n)).
  assert (m + 1 <= 2 ^ (i - n)).
  { assert (Hi : 2 ^ i = 2 ^ (i - n) * 2 ^ n) by (rewrite <- Z.pow_add_r by lia; f_equal; lia).
    assert (0 < 2 ^ n) by (apply pow2_pos; lia). nia. }
  replace (i + 1) with (i - n + (n + 1)) by lia. rewrite !(Z.pow_add_r 2 (i - n)) by lia.
  rewrite (Z.pow_add_r 2 n) by lia. assert (0 < 2 ^ n) by (apply pow2_pos; lia). nia.
Qed.

Lemma lor_add_shift m i b : 0 <= i -> 0 <= b < 2 ^ i -> Z.lor (m * 2 ^ i) b = m * 2 ^ i + b.
Proof.
  intros Hi Hb.
  assert (Hz : Z.land (m * 2 ^ i) b = 0).
  { rewrite <- Z.shiftl_mul_pow2 by lia. apply Z.bits_inj'. intros j Hj.
    rewrite Z.land_spec, Z.bits_0. destruct (Z.lt_ge_cases j i).
    - by rewrite Z.shiftl_spec_low.
    - rewrite (testbit_ge i b) by lia. apply andb_false_r. }
  by rewrite <- Z.lxor_lor, <- Z.add_nocarry_lxor.
Qed.

Lemma shiftr_pred_pow2 i : 0 <= i -> u64_shr (2 ^ (i + 1) - 1) 1 = 2 ^ i - 1.
Proof.
  intros. pose proof (shiftr_ones i ltac:(lia)) as E. rewrite !Z.ones_equiv in E.
  by rewrite <- !Z.sub_1_r in E.
Qed.

Lemma odd_below_pow2 B i : 0 <= i < 64 -> B * 2 ^ (i + 1) < 2 ^ 64 -> (2 * B + 1) * 2 ^ i < 2 ^ 64.
Proof.
  intros Hi HB. assert (E : 2 ^ 64 = 2 ^ (63 - i) * (2 * 2 ^ i)).
  { replace (2 * 2 ^ i) with (2 ^ (i + 1)) by (rewrite Z.pow_add_r by lia; lia).
    rewrite <- Z.pow_add_r by lia. f_equal. lia. }
  rewrite Z.pow_add_r in HB by lia. change (2 ^ 1) with 2 in HB. rewrite E in HB |- *.
  assert (0 < 2 ^ i) by (apply pow2_pos; lia). assert (B < 2 ^ (63 - i)) by nia. nia.
Qed.

(** The high bits of the loop recover the offset ... *)
Lemma postorder_loop_high l d m B :
  0 <= l -> 0 <= m < 2 ^ Z.of_nat d -> l + Z.of_nat d <= 64 -> 0 <= B ->
  B * 2 ^ (l + Z.of_nat d) < 2 ^ 64 ->
  postorder_loop (Z.to_nat l + d) (postorder_weight (m * 2 ^ l) + 2 ^ (l + 1) - 2)
    (2 ^ (l + Z.of_nat d) - 1) (B * 2 ^ (l + Z.of_nat d)) =
  postorder_loop (Z.to_nat l) (2 ^ (l + 1) - 2) (2 ^ l - 1) (B * 2 ^ (l + Z.of_nat d) + m * 2 ^ l).
Proof.
  intros Hl. revert m B. induction d as [|d IH]; intros m B Hm Hd HB HB2.
  { change (2 ^ Z.of_nat 0) with 1 in Hm. assert (m = 0) as -> by lia.
    rewrite Nat.add_0_r, Z.mul_0_l, !Z.add_0_r. f_equal. }
  rewrite Nat2Z.inj_succ in *. set (e := Z.of_nat d) in *.
  replace (Z.to_nat l + S d)%nat with (S (Z.to_nat l + d)) by lia. cbn [postorder_loop].
  replace (Z.of_nat (Z.to_nat l + d)) with (l + e) by lia.
  replace (l + Z.succ e) with (l + e + 1) in * by lia.
  assert (He : 0 < 2 ^ (l + e)) by (apply pow2_pos; lia).
  assert (Hle : 2 ^ (l + e) = 2 ^ e * 2 ^ l) by (rewrite <- Z.pow_add_r by lia; f_equal; lia).
  rewrite Z.pow_succ_r in Hm by lia. assert (0 < 2 ^ l) by (apply pow2_pos; lia).
  assert (0 < 2 ^ e) by (apply pow2_pos; lia).
  assert (2 ^ (l + e) <= 2 ^ 63) by (apply Z.pow_le_mono_r; lia).
  assert (Hp1 : 2 ^ (l + e + 1) = 2 * 2 ^ (l + e)) by (rewrite (Z.pow_add_r 2 (l + e)) by lia; lia).
  rewrite shiftr_pred_pow2 by lia. unfold postorder_weight.
  destruct (decide (m < 2 ^ e)) as [Hlt|Hge].
  - pose proof (count_ones64_mul_bound m l (l + e) ltac:(lia) ltac:(lia) ltac:(nia) ltac:(lia)).
    destruct (Z.leb_spec (2 ^ (l + e + 1) - 1) (2 * (m * 2 ^ l) - count_ones64 (m * 2 ^ l) + 2 ^ (l + 1) - 2)); [lia|].
    replace (B * 2 ^ (l + e + 1)) with (2 * B * 2 ^ (l + e)) by lia.
    fold (postorder_weight (m * 2 ^ l)). rewrite IH by lia. f_equal; lia.
  - set (m' := m - 2 ^ e). assert (Hm' : m = 2 ^ e + m') by lia.
    assert (Hc : count_ones64 (m * 2 ^ l) = 1 + count_ones64 (m' * 2 ^ l)).
    { rewrite !count_ones64_pow2_mul by lia. rewrite Hm'. apply count_ones64_top; lia. }
    pose proof (count_ones64_le (m' * 2 ^ l) ltac:(nia)).
    pose proof (count_ones64_mul_bound m' l (l + e) ltac:(lia) ltac:(lia) ltac:(nia) ltac:(lia)).
    assert (0 < 2 ^ (l + 1)) by (apply pow2_pos; lia).
    assert (2 ^ (l + 1) = 2 * 2 ^ l) by (rewrite Z.pow_add_r by lia; lia).
    rewrite Hc.
    destruct (Z.leb_spec (2 ^ (l + e + 1) - 1) (2 * (m * 2 ^ l) - (1 + count_ones64 (m' * 2 ^ l)) + 2 ^ (l + 1) - 2)); [|nia].
    rewrite u64_sub_small by nia. rewrite (u64_shl_small 1) by lia. rewrite Z.mul_1_l.
    rewrite lor_add_shift by lia.
    replace (B * 2 ^ (l + e + 1) + 2 ^ (l + e)) with ((2 * B + 1) * 2 ^ (l + e)) by lia.
    replace (2 * (m * 2 ^ l) - (1 + count_ones64 (m' * 2 ^ l)) + 2 ^ (l + 1) - 2 - (2 ^ (l + e + 1) - 1))
      with (postorder_weight (m' * 2 ^ l) + 2 ^ (l + 1) - 2) by (unfold postorder_weight; nia).
    rewrite IH; [|lia..|by apply odd_below_pow2; lia]. f_equal. nia.
Qed.

(** ... and the low bits count the level. *)
Lemma postorder_loop_low j c B : 0 <= c -> Z.of_nat j + c < 63 -> 0 <= B ->
  B * 2 ^ Z.of_nat j < 2 ^ 64 ->
  postorder_loop j (2 ^ (Z.of_nat j + 1) - 2 + c) (2 ^ Z.of_nat j - 1) (B * 2 ^ Z.of_nat j) =
  (Z.of_nat j + c, B * 2 ^ Z.of_nat j + 2 ^ Z.of_nat j - 1).
Proof.
  revert c B. induction j as [|j IH]; intros c B Hc Hj HB HB2; cbn [postorder_loop].
  { change (2 ^ (Z.of_nat 0 + 1)) with 2. change (2 ^ Z.of_nat 0) with 1. f_equal; lia. }
  rewrite Nat2Z.inj_succ in *. set (e := Z.of_nat j) in *. rewrite <- Z.add_1_r in *.
  assert (0 < 2 ^ e < 2 ^ 63) by (split; [apply pow2_pos|apply Z.pow_lt_mono_r]; lia).
  rewrite shiftr_pred_pow2 by lia. rewrite !(Z.pow_add_r 2 (e + 1)), !(Z.pow_add_r 2 e) in * by lia.
  change (2 ^ 1) with 2 in *.
  destruct (Z.leb_spec (2 ^ e * 2 - 1) (2 ^ e * 2 * 2 - 2 + c)); [|lia].
  assert (2 ^ e <= 2 ^ 62) by (apply Z.pow_le_mono_r; lia).
  rewrite u64_sub_small, (u64_shl_small 1), Z.mul_1_l by lia.
  replace (B * (2 ^ e * 2)) with (2 * B * 2 ^ e) in * by lia.
  replace (Z.lor (2 * B * 2 ^ e) (2 ^ e)) with ((2 * B + 1) * 2 ^ e).
  2:{ replace (2 * B * 2 ^ e) with (B * 2 ^ (e + 1)) by (rewrite Z.pow_add_r by lia; lia).
      rewrite lor_add_shift by (rewrite ?Z.pow_add_r; lia). rewrite Z.pow_add_r by lia. lia. }
  replace (2 ^ e * 2 * 2 - 2 + c - (2 ^ e * 2 - 1)) with (2 ^ e * 2 - 2 + (c + 1)) by lia.
  assert ((2 * B + 1) * 2 ^ e < 2 ^ 64)
    by (apply odd_below_pow2; [lia|]; rewrite Z.pow_add_r by lia; lia).
  rewrite IH by lia. f_equal; lia.
Qed.

(** Reading back a post-order number gives the node it was made from. *)
Lemma postorder_roundtrip l p : valid_node l p -> l < 63 ->
  postorder_to_inorder (inorder_to_postorder (inorder l p)) = inorder l p.
Proof.
  intros Hv Hl. pose proof (valid_node_bounds _ _ Hv) as (? & ? & ?).
  pose proof (valid_node_offset _ _ Hv) as [? Hp].
  rewrite inorder_to_postorder_inorder by done. unfold postorder_to_inorder.
  assert (0 < 2 ^ l) by (apply pow2_pos; lia).
  replace ((p + 1) * 2 ^ (l + 1) - 2 - count_ones64 p)
    with (postorder_weight (p * 2 ^ l) + 2 ^ (l + 1) - 2).
  2:{ unfold postorder_weight. rewrite count_ones64_pow2_mul by lia. rewrite Z.pow_add_r by lia. lia. }
  pose proof (postorder_loop_high l (Z.to_nat (64 - l)) p 0) as E.
  replace (l + Z.of_nat (Z.to_nat (64 - l))) with 64 in E by lia.
  replace (Z.to_nat l + Z.to_nat (64 - l))%nat with 64%nat in E by lia.
  rewrite Z.mul_0_l in E. change (u64_not 0) with (2 ^ 64 - 1).
  rewrite E; [clear E|lia| |lia..].
  2:{ split; [lia|]. rewrite Z2Nat.id by lia. eapply Z.lt_trans; [done|]. apply Z.pow_lt_mono_r; lia. }
  rewrite Z.add_0_l.
  replace (2 ^ (l + 1) - 2) with (2 ^ (l + 1) - 2 + 0) by lia.
  pose proof (postorder_loop_low (Z.to_nat l) 0 p) as E. rewrite Z2Nat.id in * by lia.
  rewrite E by (destruct Hv as (? & ? & Hv); rewrite Z.pow_add_r in Hv by lia; nia).
  rewrite Z.add_0_r. rewrite (Z.mod_small l) by lia.
  unfold to_inorder_index, u64_shr. rewrite Z.shiftr_div_pow2 by lia.
  replace ((p * 2 ^ l + 2 ^ l - 1) / 2 ^ l) with p.
  - by apply from_level_and_pos_inorder.
  - apply (Z.div_unique _ _ _ (2 ^ l - 1)); lia.
Qed.

(** *** Every index is the index of a node *)
Lemma inorder_decomp v : 0 <= v < 2 ^ 64 - 1 -> exists l p, valid_node l p /\ v = inorder l p.
Proof.
  intros Hv. destruct (trailing_zeros64_decomp (v + 1)) as (p & Hp & Hl & E); [lia|].
  set (l := trailing_zeros64 (v + 1)) in *. exists l, p.
  assert (0 < 2 ^ l) by (apply pow2_pos; lia).
  assert (l <= 63).
  { destruct (decide (l <= 63)); [done|].
    assert (2 ^ 64 <= 2 ^ l) by (apply Z.pow_le_mono_r; lia). nia. }
  unfold valid_node, inorder. rewrite Z.pow_add_r by lia. split_and!; try lia.
  assert (E64 : 2 ^ 64 = 2 ^ (63 - l) * (2 ^ l * 2)).
  { replace (2 ^ l * 2) with (2 ^ (l + 1)) by (rewrite Z.pow_add_r by lia; lia).
    rewrite <- Z.pow_add_r by lia. f_equal. lia. }
  rewrite E64 in Hv |- *. change (2 ^ 1) with 2.
  assert (2 * p + 1 < 2 ^ (63 - l) * 2) by nia. nia.
Qed.

(** The number of trailing ones of an odd and of an even number. *)
Lemma trailing_ones_even q : 0 <= q < 2 ^ 63 -> trailing_zeros64 (u64_not (2 * q)) = 0.
Proof.
  intros Hq. replace (2 * q) with (inorder 0 q) by (unfold inorder; lia).
  apply level_inorder. unfold valid_node. lia.
Qed.

Lemma trailing_ones_odd q : 0 <= q < 2 ^ 63 - 1 ->
  trailing_zeros64 (u64_not (2 * q + 1)) = 1 + trailing_zeros64 (u64_not q).
Proof.
  intros Hq. destruct (inorder_decomp q) as (l & p & Hv & ->); [lia|].
  pose proof (valid_node_bounds _ _ Hv) as (? & ? & ?).
  change (trailing_zeros64 (u64_not (inorder l p))) with (level (inorder l p)).
  rewrite level_inorder by done.
  replace (2 * inorder l p + 1) with (inorder (l + 1) p)
    by (unfold inorder; rewrite !(Z.pow_add_r 2 (l + 1)), !(Z.pow_add_r 2 l) by lia; lia).
  enough (valid_node (l + 1) p) as Hv'.
  { pose proof (level_inorder _ _ Hv') as E. unfold level in E. lia. }
  unfold valid_node, inorder in *. destruct Hv as (? & ? & Hv). split_and!; try lia.
  replace 64 with (63 - l + (l + 1)) in Hv |- * by lia.
  rewrite Z.pow_add_r in Hq by lia.
  replace (2 ^ 63) with (2 ^ (63 - l) * 2 ^ l) in Hq by (rewrite <- Z.pow_add_r by lia; f_equal; lia).
  rewrite (Z.pow_add_r 2 (63 - l)), (Z.pow_add_r 2 (l + 1)), (Z.pow_add_r 2 l) by lia.
  change (2 ^ 1) with 2 in *. assert (0 < 2 ^ l) by (apply pow2_pos; lia).
  assert (2 * p + 1 < 2 ^ (63 - l)) by nia.
  assert (2 * (p + 1) <= 2 ^ (63 - l)).
  { destruct (decide (l = 63)) as [->|]; [change (2 ^ (63 - 63)) with 1 in *; lia|].
    replace (63 - l) with (62 - l + 1) in * by lia. rewrite Z.pow_add_r in * by lia. lia. }
  nia.
Qed.

(** *** The subtrees that extend [cur] leaves by [rem] leaves *)

(** Level of the next subtree that [FrozenSubtreeSiblingIterator] takes. *)
Definition sibling_level (cur rem : Z) : Z :=
  if (0 <? cur) && (2 ^ trailing_zeros64 cur <=? rem) then trailing_zeros64 cur else Z.log2 rem.

Fixpoint sibling_nodes (fuel : nat) (cur rem : Z) : list (Z * Z) :=
  match fuel with
  | O => []
  | S fuel =>
    if rem =? 0 then []
    else let k := sibling_level cur rem in
         (k, cur / 2 ^ k) :: sibling_nodes fuel (cur + 2 ^ k) (rem - 2 ^ k)
  end.

Lemma trailing_zeros64_divides x k : 0 < x -> 0 <= k <= trailing_zeros64 x ->
  x mod 2 ^ k = 0.
Proof.
  intros Hx Hk. destruct (trailing_zeros64_decomp x Hx) as (q & ? & ? & E).
  rewrite E. replace (trailing_zeros64 x) with (trailing_zeros64 x - k + k) by lia.
  rewrite Z.pow_add_r, Z.mul_assoc by lia. apply Z.mod_mul.
  assert (0 < 2 ^ k) by (apply pow2_pos; lia). lia.
Qed.

Lemma trailing_zeros64_lt_63 x : 0 < x < 2 ^ 63 -> 0 <= trailing_zeros64 x < 63.
Proof.
  intros Hx. destruct (trailing_zeros64_decomp x) as (q & ? & ? & E); [lia|].
  split; [done|]. destruct (decide (trailing_zeros64 x < 63)); [done|].
  assert (2 ^ 63 <= 2 ^ trailing_zeros64 x) by (apply Z.pow_le_mono_r; lia). nia.
Qed.

Lemma sibling_level_spec cur rem : 0 <= cur -> 0 < rem -> cur + rem <= 2 ^ 63 ->
  let k := sibling_level cur rem in
  0 <= k <= 63 /\ 0 < 2 ^ k <= rem /\ cur mod 2 ^ k = 0.
Proof.
  intros Hc Hr Hb. cbn. unfold sibling_level. pose proof (Z.log2_nonneg rem).
  destruct (Z.log2_spec rem Hr) as [Hlo Hhi]. rewrite Z.pow_succ_r in Hhi by done.
  assert (Hp : 0 < 2 ^ Z.log2 rem) by (apply pow2_pos; lia).
  assert (Z.log2 rem <= 63) by (apply (Z.pow_le_mono_r_iff 2); lia).
  destruct (Z.ltb_spec 0 cur); cbn; [|split_and!; try lia; by assert (cur = 0) as -> by lia].
  pose proof (trailing_zeros64_lt_63 cur ltac:(lia)).
  assert (0 < 2 ^ trailing_zeros64 cur) by (apply pow2_pos; lia).
  destruct (Z.leb_spec (2 ^ trailing_zeros64 cur) rem).
  - split_and!; try lia. by apply trailing_zeros64_divides; lia.
  - split_and!; try lia. apply trailing_zeros64_divides; [lia|]. split; [done|].
    apply Z.lt_le_incl, (Z.pow_lt_mono_r_iff 2); lia.
Qed.

Lemma sibling_nodes_In fuel : forall cur rem l p, 0 <= cur -> 0 <= rem -> cur + rem <= 2 ^ 63 ->
  In (l, p) (sibling_nodes fuel cur rem) -> 0 <= l /\ 0 <= p /\ (p + 1) * 2 ^ l <= cur + rem.
Proof.
  induction fuel as [|fuel IH]; intros cur rem l p Hc Hr Hb Hin; [done|]. cbn [sibling_nodes] in Hin.
  destruct (Z.eqb_spec rem 0); [done|]. destruct (sibling_level_spec cur rem) as (? & ? & Hm); [lia..|].
  destruct Hin as [[= <- <-]|Hin].
  - pose proof (Z.div_mod cur (2 ^ sibling_level cur rem) ltac:(lia)).
    split_and!; [lia|apply Z.div_pos; lia|nia].
  - apply IH in Hin; lia.
Qed.

Lemma frozen_sibling_next_inorder cur rem : 0 <= cur -> 0 < rem -> cur + rem <= 2 ^ 63 ->
  let k := sibling_level cur rem in
  frozen_sibling_next {| current_num_leaves := cur; remaining_new_leaves := rem |} =
  Some (inorder k (cur / 2 ^ k),
        {| current_num_leaves := cur + 2 ^ k; remaining_new_leaves := rem - 2 ^ k |}).
Proof.
  intros Hc Hr Hb k. pose proof (sibling_level_spec cur rem Hc Hr Hb) as (Hk & Hp & Hm).
  fold k in Hk, Hp, Hm. unfold frozen_sibling_next. cbn [current_num_leaves remaining_new_leaves].
  destruct (Z.eqb_spec rem 0); [lia|].
  assert (Hbatch : next_new_leaf_batch
    {| current_num_leaves := cur; remaining_new_leaves := rem |} = 2 ^ Z.log2 rem).
  { unfold next_new_leaf_batch. cbn. rewrite leading_zeros64_spec by lia.
    unfold MAX_ACCUMULATOR_PROOF_DEPTH. replace (63 - (63 - Z.log2 rem)) with (Z.log2 rem) by lia.
    pose proof (Z.log2_nonneg rem). destruct (Z.log2_spec rem Hr). rewrite u64_shl_small by lia. lia. }
  rewrite Hbatch.
  set (sz := if 0 <? cur then _ else _).
  assert (Hn : sz = 2 ^ k).
  { unfold sz, k, sibling_level. destruct (Z.ltb_spec 0 cur); cbn; [|done].
    pose proof (trailing_zeros64_lt_63 cur ltac:(lia)).
    assert (0 < 2 ^ trailing_zeros64 cur) by (apply pow2_pos; lia).
    assert (2 ^ trailing_zeros64 cur < 2 ^ 63) by (apply Z.pow_lt_mono_r; lia).
    rewrite u64_shl_small, Z.mul_1_l by lia. by destruct (Z.leb_spec (2 ^ trailing_zeros64 cur) rem). }
  clearbody sz. subst sz. unfold from_inorder_index.
  rewrite (u64_add_small cur (2 ^ k)), (u64_sub_small (cur + 2 ^ k)), (u64_sub_small rem) by lia.
  rewrite u64_add_small by lia. do 3 f_equal.
  unfold inorder. rewrite Z.pow_add_r by lia. pose proof (Z.div_mod cur (2 ^ k) ltac:(lia)). lia.
Qed.

Lemma frozen_sibling_collect_inorder fuel cur rem : 0 <= cur -> 0 <= rem -> cur + rem <= 2 ^ 63 ->
  frozen_sibling_collect fuel {| current_num_leaves := cur; remaining_new_leaves := rem |} =
  map (fun '(l, p) => inorder l p) (sibling_nodes fuel cur rem).
Proof.
  revert cur rem. induction fuel as [|fuel IH]; intros cur rem Hc Hr Hb; [done|].
  cbn [frozen_sibling_collect sibling_nodes]. destruct (Z.eqb_spec rem 0) as [->|]; [done|].
  rewrite frozen_sibling_next_inorder by lia.
  pose proof (sibling_level_spec cur rem ltac:(lia) ltac:(lia) ltac:(lia)) as (? & ? & ?).
  cbn [map]. f_equal. apply IH; lia.
Qed.

(** ** What positions promise *)

(** The bit tricks of [Position] navigate the complete binary tree: on the in-order number of
    the [p]-th node of level [l] they compute the level, the parent, the sibling, the children and
    the outermost leaves of the subtree. *)
Theorem position_navigation l p : valid_node l p -> l < 63 ->
  level (inorder l p) = l /\
  from_level_and_pos l p = inorder l p /\
  parent (inorder l p) = inorder (l + 1) (p / 2) /\
  sibling (inorder l p) = inorder l (Z.lxor p 1) /\
  is_left_child (inorder l p) = Z.even p /\
  (0 < l -> left_child (inorder l p) = Ok (inorder (l - 1) (2 * p)) /\
            right_child (inorder l p) = Ok (inorder (l - 1) (2 * p + 1))) /\
  left_most_child (inorder l p) = inorder 0 (p * 2 ^ l) /\
  right_most_child (inorder l p) = inorder 0 ((p + 1) * 2 ^ l - 1).
Proof.
  intros Hv Hl. rewrite level_inorder, from_level_and_pos_inorder, parent_inorder, sibling_inorder,
    is_left_child_inorder, left_most_child_inorder, right_most_child_inorder by done.
  split_and!; try done. intros Hl0. by rewrite left_child_inorder, right_child_inorder.
Qed.

(** Every position below the top level is recovered from its post-order index, the key under
    which the node is stored. *)
Theorem postorder_index_roundtrip v : 0 <= v < 2 ^ 64 - 1 -> level v < 63 ->
  from_postorder_index (to_postorder_index v) = v.
Proof.
  intros (l & p & Hv & ->)%inorder_decomp Hl. rewrite level_inorder in Hl by done.
  by apply postorder_roundtrip.
Qed.

(** The frozen subtrees of [n] leaves are the maximal complete subtrees from left to right:
    one per bit of [n], with the sizes of the bits, covering the leaves without a gap. *)
Theorem frozen_subtrees_cover n : 0 <= n <= 2 ^ 63 -> exists nodes,
  frozen_subtrees n = map (fun '(l, p) => inorder l p) nodes /\
  Z.of_nat (length nodes) = count_ones64 n /\
  zsum (fun '(l, p) => 2 ^ l) nodes = n /\
  forall l p, In (l, p) nodes -> 0 <= l /\ 0 <= p /\ (p + 1) * 2 ^ l <= n.
Proof.
  intros Hn. exists (frozen_nodes 0 n). split_and!.
  - by apply frozen_subtrees_inorder.
  - apply frozen_nodes_length. lia.
  - rewrite frozen_nodes_size by lia. lia.
  - intros l p Hin. apply frozen_nodes_In in Hin as (? & ? & ?); [|lia..]. rewrite Z.sub_0_r in *. done.
Qed.
End Canonical.
