(* ===== verification/Accumulator.v ===== *)
(** * The in-memory Merkle accumulator

    [types/src/proof/accumulator/mod.rs]: an append-only Merkle tree that keeps
    only the roots of its full subtrees.  [node_hash] is the reference tree the
    operations are checked against: the hash of the [p]-th node of level [l] over
    a list of leaves, with a placeholder wherever a subtree has no leaf. *)

From S2P Require Import Prelude U64 Position.

Section Accumulator.
(** The hash of an internal node and the placeholder constant come from the
    hash function, which is not part of the repository. *)
Context {HashValue : Type} `{!EqDecision HashValue}.
Context (hash_internal : HashValue -> HashValue -> HashValue).
Context (ACCUMULATOR_PLACEHOLDER_HASH : HashValue).

Record InMemoryAccumulator := mkInMemoryAccumulator {
  frozen_subtree_roots : list HashValue;
  num_leaves : Z;
  root_hash : HashValue
}.

(** [while bitmap > 0 { .. }] of [compute_root_hash]; a [u64] has 64 bits. *)
Fixpoint compute_root_loop (fuel : nat) (bitmap : Z) (frozen_subtree_iter : list HashValue)
    (current_hash : HashValue) : result string HashValue :=
  match fuel with
  | O => Ok current_hash
  | S fuel =>
    if bitmap =? 0 then Ok current_hash
    else if Z.land bitmap 1 =? 0 then
      compute_root_loop fuel (u64_shr bitmap 1) frozen_subtree_iter
        (hash_internal current_hash ACCUMULATOR_PLACEHOLDER_HASH)
    else
      match frozen_subtree_iter with
      | [] => Panic
      | h :: iter =>
        compute_root_loop fuel (u64_shr bitmap 1) iter (hash_internal h current_hash)
      end
  end.

Definition compute_root_hash (frozen_subtree_roots : list HashValue) (num_leaves : Z)
    : result string HashValue :=
  match frozen_subtree_roots with
  | [] => Ok ACCUMULATOR_PLACEHOLDER_HASH
  | [h] => Ok h
  | _ =>
    let bitmap := u64_shr num_leaves (trailing_zeros64 num_leaves) in
    compute_root_loop 64 bitmap (rev frozen_subtree_roots) ACCUMULATOR_PLACEHOLDER_HASH
  end.

Definition accumulator_new (frozen_subtree_roots : list HashValue) (num_leaves : Z)
    : result string InMemoryAccumulator :=
  _ ← ensure (Z.of_nat (length frozen_subtree_roots) =? count_ones64 num_leaves)
        "The number of frozen subtrees does not match the number of leaves."%string;
  root_hash ← compute_root_hash frozen_subtree_roots num_leaves;
  Ok {| frozen_subtree_roots := frozen_subtree_roots;
        num_leaves := num_leaves;
        root_hash := root_hash |}.

(** [Vec::pop]. *)
Definition vec_pop {A} (v : list A) : option (list A * A) :=
  match rev v with [] => None | x :: r => Some (rev r, x) end.

(** The merging loop of [append_one]: [n] carries. *)
Fixpoint append_one_loop (n : nat) (roots : list HashValue) : result string (list HashValue) :=
  match n with
  | O => Ok roots
  | S n =>
    '(roots, right_hash) ← expect (vec_pop roots);
    '(roots, left_hash) ← expect (vec_pop roots);
    append_one_loop n (roots ++ [hash_internal left_hash right_hash])
  end.

Definition append_one (frozen_subtree_roots : list HashValue) (num_existing_leaves : Z)
    (leaf : HashValue) : result string (list HashValue) :=
  let num_trailing_ones := trailing_zeros64 (u64_not num_existing_leaves) in
  append_one_loop (Z.to_nat num_trailing_ones) (frozen_subtree_roots ++ [leaf]).

(** [append]: the final [expect] turns an error of [new] into a panic. *)
Definition append (self : InMemoryAccumulator) (leaves : list HashValue)
    : result string InMemoryAccumulator :=
  '(roots, n) ← result_fold
    (fun '(roots, n) leaf => roots ← append_one roots n leaf; Ok (roots, u64_add n 1))
    leaves (frozen_subtree_roots self, num_leaves self);
  expect (result_ok (accumulator_new roots n)).

Definition accumulator_default : result string InMemoryAccumulator :=
  expect (result_ok (accumulator_new [] 0)).

Definition from_leaves (leaves : list HashValue) : result string InMemoryAccumulator :=
  acc ← accumulator_default; append acc leaves.

(** The inner loop of [append_subtrees]: merge while the bit of [mask] is set. *)
Fixpoint append_subtrees_merge (fuel : nat) (current_num_leaves mask : Z)
    (roots : list HashValue) (current_hash : HashValue)
    : result string (list HashValue * HashValue * Z) :=
  match fuel with
  | O => Panic
  | S fuel =>
    if Z.land current_num_leaves mask =? 0 then Ok (roots, current_hash, mask)
    else
      '(roots, left_hash) ← expect (vec_pop roots);
      append_subtrees_merge fuel current_num_leaves (u64_shl mask 1) roots
        (hash_internal left_hash current_hash)
  end.

(** The outer loop: consume a subtree of the size of the rightmost one. *)
Fixpoint append_subtrees_loop (fuel : nat) (roots : list HashValue)
    (current_num_leaves remaining_new_leaves rightmost_frozen_subtree_size : Z)
    (subtree_iter : list HashValue)
    : result string (list HashValue * Z * Z * list HashValue) :=
  match fuel with
  | O => Panic
  | S fuel =>
    if rightmost_frozen_subtree_size <=? remaining_new_leaves then
      '(current_hash, subtree_iter) ←
        ok_or (match subtree_iter with [] => None | h :: r => Some (h, r) end)
          "Too few subtrees."%string;
      '(roots, current_hash, mask) ← append_subtrees_merge 65 current_num_leaves
        rightmost_frozen_subtree_size roots current_hash;
      append_subtrees_loop fuel (roots ++ [current_hash])
        (u64_add current_num_leaves rightmost_frozen_subtree_size)
        (u64_sub remaining_new_leaves rightmost_frozen_subtree_size)
        mask subtree_iter
    else Ok (roots, current_num_leaves, remaining_new_leaves, subtree_iter)
  end.

Definition append_subtrees (self : InMemoryAccumulator) (subtrees : list HashValue)
    (num_new_leaves : Z) : result string InMemoryAccumulator :=
  _ ← ensure (num_new_leaves <=? u64_sub MAX_ACCUMULATOR_LEAVES (num_leaves self))
        "Too many new leaves."%string;
  if num_leaves self =? 0 then accumulator_new subtrees num_new_leaves
  else
    let size := u64_shl 1 (trailing_zeros64 (num_leaves self)) in
    '(roots, n, remaining, iter) ← append_subtrees_loop 65 (frozen_subtree_roots self)
      (num_leaves self) num_new_leaves size subtrees;
    accumulator_new (roots ++ iter) (u64_add n remaining).

Definition accumulator_version (self : InMemoryAccumulator) : Z :=
  if num_leaves self =? 0 then 0 else u64_sub (num_leaves self) 1.

(** ** The reference tree *)

(** Hash of node [p] of level [l]; leaf [i] is the [i]-th element of [L]. *)
Fixpoint node_hash (L : list HashValue) (l : nat) (p : Z) : HashValue :=
  if Z.of_nat (length L) <=? p * 2 ^ Z.of_nat l then ACCUMULATOR_PLACEHOLDER_HASH
  else match l with
       | O => default ACCUMULATOR_PLACEHOLDER_HASH (L !! Z.to_nat p)
       | S l => hash_internal (node_hash L l (2 * p)) (node_hash L l (2 * p + 1))
       end.

(** The same with a [Z] level. *)
Definition nhash (L : list HashValue) (l p : Z) : HashValue := node_hash L (Z.to_nat l) p.

(** Root of the smallest perfect tree that holds the leaves. *)
Definition tree_root (L : list HashValue) : HashValue :=
  nhash L (root_level (Z.of_nat (length L))) 0.

(** Roots of the full subtrees of [L], left to right. *)
Definition frozen_hashes (L : list HashValue) (nodes : list (Z * Z)) : list HashValue :=
  map (fun '(l, p) => nhash L l p) nodes.

(** The accumulator over [L]. *)
Definition accumulator_of (L : list HashValue) : InMemoryAccumulator :=
  {| frozen_subtree_roots := frozen_hashes L (frozen_nodes 0 (Z.of_nat (length L)));
     num_leaves := Z.of_nat (length L);
     root_hash := tree_root L |}.

Lemma nhash_placeholder L l p : 0 <= l -> Z.of_nat (length L) <= p * 2 ^ l ->
  nhash L l p = ACCUMULATOR_PLACEHOLDER_HASH.
Proof.
  intros Hl H. unfold nhash. rewrite <- (Z2Nat.id l) in H by done.
  destruct (Z.to_nat l); cbn [node_hash]; zbool.
Qed.

Lemma nhash_step L l p : 0 <= l -> p * 2 ^ (l + 1) < Z.of_nat (length L) ->
  nhash L (l + 1) p = hash_internal (nhash L l (2 * p)) (nhash L l (2 * p + 1)).
Proof.
  intros Hl H. unfold nhash. rewrite Z2Nat.inj_add by lia. rewrite Nat.add_1_r.
  cbn [node_hash]. rewrite Nat2Z.inj_succ, Z2Nat.id, <- Z.add_1_r by lia.
  by destruct (Z.leb_spec (Z.of_nat (length L)) (p * 2 ^ (l + 1))); [lia|].
Qed.

Lemma nhash_leaf L p h : 0 <= p -> L !! Z.to_nat p = Some h -> nhash L 0 p = h.
Proof.
  intros Hp Hh. unfold nhash. change (Z.to_nat 0) with O. cbn [node_hash].
  apply lookup_lt_Some in Hh as Hlt. change (2 ^ Z.of_nat 0) with 1.
  destruct (Z.leb_spec (Z.of_nat (length L)) (p * 1)); [lia|]. by rewrite Hh.
Qed.

(** A node whose leaves are all present does not change when leaves are added. *)
Lemma nhash_app L L' l p : 0 <= l -> 0 <= p -> (p + 1) * 2 ^ l <= Z.of_nat (length L) ->
  nhash (L ++ L') l p = nhash L l p.
Proof.
  intros Hl. revert p. pattern l. apply natlike_ind; [| |done].
  - intros p Hp H. change (2 ^ 0) with 1 in H.
    destruct (lookup_lt_is_Some_2 L (Z.to_nat p)) as [h Hh]; [lia|].
    rewrite !(nhash_leaf _ p h); [done|done|done|done|]. by apply lookup_app_l_Some.
  - clear l Hl. intros l Hl IH p Hp H. rewrite <- Z.add_1_r in *.
    rewrite Z.pow_add_r in H by lia. assert (0 < 2 ^ l) by (apply pow2_pos; lia).
    rewrite !nhash_step by (rewrite ?length_app, ?Nat2Z.inj_add, ?Z.pow_add_r; lia).
    rewrite !IH by lia. done.
Qed.

Lemma frozen_hashes_app L L' : forall nodes,
  (forall l p, In (l, p) nodes -> 0 <= l /\ 0 <= p /\ (p + 1) * 2 ^ l <= Z.of_nat (length L)) ->
  frozen_hashes (L ++ L') nodes = frozen_hashes L nodes.
Proof.
  intros nodes H. apply map_ext_in. intros [l p] Hin. apply H in Hin as (? & ? & ?).
  by apply nhash_app.
Qed.

Lemma frozen_hashes_mono L L' n : 0 <= n <= Z.of_nat (length L) ->
  frozen_hashes (L ++ L') (frozen_nodes 0 n) = frozen_hashes L (frozen_nodes 0 n).
Proof.
  intros Hn. apply frozen_hashes_app. intros l p Hin.
  apply frozen_nodes_In in Hin as (? & ? & Hp); [|lia..]. rewrite Z.sub_0_r in Hp. lia.
Qed.

(** ** Appending *)

Lemma vec_pop_snoc {A} (l : list A) x : vec_pop (l ++ [x]) = Some (l, x).
Proof. unfold vec_pop. rewrite rev_app_distr. cbn. by rewrite rev_involutive. Qed.

(** Carrying at level [l]: one more subtree of [2 ^ l] leaves. *)
Lemma append_one_loop_carry L l m : 0 <= l -> 0 <= m < 2 ^ 64 - 1 ->
  (m + 1) * 2 ^ l <= Z.of_nat (length L) ->
  append_one_loop (Z.to_nat (trailing_zeros64 (u64_not m)))
    (frozen_hashes L (frozen_nodes l m) ++ [nhash L l m]) =
  Ok (frozen_hashes L (frozen_nodes l (m + 1))).
Proof.
  intros Hl Hm. pose proof (proj1 Hm) as Hm0. revert l Hl Hm. pattern m.
  apply Z_lt_induction; [|done]. clear m Hm0. intros m IH l Hl Hm HL.
  pose proof (Z.div_mod m 2 ltac:(lia)) as E. pose proof (Z.mod_pos_bound m 2 ltac:(lia)).
  assert (Hq : 0 <= m / 2) by (apply Z.div_pos; lia).
  set (q := m / 2) in *. clearbody q.
  assert (m mod 2 = 0 \/ m mod 2 = 1) as [Em|Em] by lia; rewrite Em in E; clear Em; subst m.
  - rewrite Z.add_0_r in *. rewrite trailing_ones_even by lia. cbn [Z.to_nat append_one_loop].
    rewrite frozen_nodes_double, frozen_nodes_succ_double by lia.
    unfold frozen_hashes. by rewrite map_app.
  - rewrite trailing_ones_odd by lia.
    rewrite Z2Nat.inj_add by (lia || apply trailing_zeros64_range; apply u64_not_range; unfold is_u64; lia).
    change (Z.to_nat 1) with 1%nat. cbn [Nat.add append_one_loop].
    rewrite vec_pop_snoc. cbn. rewrite frozen_nodes_succ_double by lia.
    unfold frozen_hashes at 1. rewrite map_app. cbn [map]. rewrite vec_pop_snoc. cbn.
    replace (2 * q + 1 + 1) with (2 * (q + 1)) by lia.
    rewrite frozen_nodes_double by lia.
    assert (0 < 2 ^ l) by (apply pow2_pos; lia).
    rewrite <- nhash_step by (rewrite ?Z.pow_add_r; nia).
    rewrite <- (IH q) by (rewrite ?Z.pow_add_r; nia). done.
Qed.

Lemma append_one_correct L n leaf : 0 <= n < 2 ^ 64 - 1 -> L !! Z.to_nat n = Some leaf ->
  append_one (frozen_hashes L (frozen_nodes 0 n)) n leaf =
  Ok (frozen_hashes L (frozen_nodes 0 (n + 1))).
Proof.
  intros Hn Hleaf. unfold append_one. rewrite <- (nhash_leaf L n leaf) by (done || lia).
  apply append_one_loop_carry; [lia|lia|]. apply lookup_lt_Some in Hleaf.
  change (2 ^ 0) with 1. lia.
Qed.

(** ** The root hash *)

Lemma compute_root_loop_correct L b : forall l fuel,
  0 <= l -> Zpos b * 2 ^ l <= Z.of_nat (length L) < (Zpos b + 1) * 2 ^ l ->
  (Z.odd (Zpos b) = true \/ Zpos b * 2 ^ l < Z.of_nat (length L)) ->
  Z.log2 (Zpos b) < Z.of_nat fuel ->
  compute_root_loop fuel (Zpos b) (rev (frozen_hashes L (frozen_pos l b))) (nhash L l (Zpos b)) =
  Ok (nhash L (l + Z.log2 (Zpos b) + 1) 0).
Proof.
  induction b as [q IH|q IH|]; intros l fuel Hl Hn Hodd Hfuel;
    (destruct fuel as [|fuel]; [exfalso; revert Hfuel; apply Z.le_ngt, Z.log2_nonneg|]);
    cbn [compute_root_loop frozen_pos]; assert (0 < 2 ^ l) by (apply pow2_pos; lia).
  - assert (Hlog : Z.log2 (Zpos q~1) = Z.succ (Z.log2 (Zpos q))) by by apply (Z.log2_succ_double (Zpos q)).
    unfold frozen_hashes. rewrite map_app, rev_app_distr. cbn [Z.eqb Z.land Pos.land map rev app].
    change (u64_shr (Zpos q~1) 1) with (Zpos q).
    rewrite (Pos2Z.inj_xI q) in *. rewrite <- nhash_step by (rewrite ?Z.pow_add_r by lia; nia).
    change (map (fun '(l, p) => nhash L l p)) with (frozen_hashes L).
    rewrite IH; [f_equal; f_equal; lia|lia|rewrite Z.pow_add_r by lia; lia| |lia].
    right. rewrite Z.pow_add_r by lia. lia.
  - assert (Hlog : Z.log2 (Zpos q~0) = Z.succ (Z.log2 (Zpos q))) by by apply (Z.log2_double (Zpos q)).
    cbn [Z.eqb Z.land Pos.land]. change (u64_shr (Zpos q~0) 1) with (Zpos q).
    rewrite (Pos2Z.inj_xO q) in *.
    destruct Hodd as [Hodd|Hlt]; [by rewrite Z.odd_mul in Hodd|].
    rewrite <- (nhash_placeholder L l (2 * Zpos q + 1)) by lia.
    rewrite <- nhash_step by (rewrite ?Z.pow_add_r by lia; nia).
    rewrite IH; [f_equal; f_equal; lia|lia|rewrite Z.pow_add_r by lia; lia| |lia].
    right. rewrite Z.pow_add_r by lia. lia.
  - cbn [Z.eqb Z.land Pos.land frozen_hashes map rev app]. change (u64_shr 1 1) with 0.
    pose proof (nhash_step L l 0 Hl) as E. change (2 * 0) with 0 in E. change (0 + 1) with 1 in E.
    rewrite <- E by lia. change (Z.log2 1) with 0. rewrite Z.add_0_r. by destruct fuel.
Qed.

Lemma frozen_nodes_single k : 0 <= k -> frozen_nodes 0 (2 ^ k) = [(k, 0)].
Proof. intros. rewrite <- (Z.mul_1_l (2 ^ k)). by rewrite frozen_nodes_pow2. Qed.

Lemma root_level_pow2 k : 0 <= k -> root_level (2 ^ k) = k.
Proof.
  intros Hk. unfold root_level. destruct (Z.leb_spec (2 ^ k) 1) as [Hle|Hgt].
  - destruct (decide (k = 0)) as [->|]; [done|].
    assert (2 ^ 1 <= 2 ^ k) by (apply Z.pow_le_mono_r; lia). lia.
  - rewrite Z.sub_1_r, Z.log2_pred_pow2; [lia|].
    destruct (decide (k = 0)) as [->|]; [change (2 ^ 0) with 1 in *|]; lia.
Qed.

Lemma frozen_nodes_singleton n x : 0 <= n -> frozen_nodes 0 n = [x] ->
  exists k, 0 <= k /\ n = 2 ^ k /\ x = (k, 0).
Proof.
  intros Hn. destruct n as [|b|b]; [done| |lia]. cbn [frozen_nodes].
  assert (Hg : forall b l, frozen_pos l b = [x] -> exists k, 0 <= k /\ Zpos b = 2 ^ k /\ x = (l + k, 0)).
  { clear. intros b. induction b as [q IH|q IH|]; intros l; cbn [frozen_pos].
    - intros E. apply (f_equal length) in E. rewrite length_app in E. cbn in E.
      enough (length (frozen_pos (l + 1) q) <> 0)%nat by lia.
      pose proof (frozen_nodes_length (l + 1) (Zpos q)) as Hlen. cbn [frozen_nodes] in Hlen.
      intros Hz. rewrite Hz in Hlen. pose proof (count_ones64_0 (Zpos q)). lia.
    - intros (k & ? & E & ->)%IH. exists (k + 1). rewrite Z.pow_add_r by lia.
      split_and!; [lia|lia|f_equal; lia].
    - intros [= <-]. exists 0. rewrite Z.add_0_r. done. }
  intros (k & ? & ? & ->)%Hg. exists k. by rewrite Z.add_0_l.
Qed.

(** The root computed from the full subtrees is the root of the tree. *)
Lemma compute_root_hash_correct L : Z.of_nat (length L) < 2 ^ 64 ->
  compute_root_hash (frozen_hashes L (frozen_nodes 0 (Z.of_nat (length L)))) (Z.of_nat (length L)) =
  Ok (tree_root L).
Proof.
  intros Hlen. unfold tree_root. set (n := Z.of_nat (length L)) in *.
  destruct (frozen_nodes 0 n) as [|x [|y r]] eqn:E.
  - pose proof (frozen_nodes_length 0 n ltac:(lia)) as El. rewrite E in El. symmetry in El.
    apply count_ones64_0 in El; [|lia]. cbn. rewrite El.
    by rewrite nhash_placeholder by (try apply root_level_nonneg; fold n; lia).
  - apply frozen_nodes_singleton in E as (k & Hk & -> & ->); [|lia]. cbn.
    by rewrite root_level_pow2.
  - unfold compute_root_hash. change (frozen_hashes L (x :: y :: r)) with
      ((let '(l, p) := x in nhash L l p) :: (let '(l, p) := y in nhash L l p) :: frozen_hashes L r).
    cbv iota beta. change ((let '(l, p) := x in nhash L l p) :: _) with (frozen_hashes L (x :: y :: r)).
    rewrite <- E.
    assert (Hpos : 0 < n) by (destruct (decide (n = 0)) as [Hn|]; [by rewrite Hn in E|lia]).
    destruct (trailing_zeros64_decomp n Hpos) as (q & Hq & Ht & En).
    set (t := trailing_zeros64 n) in *. assert (0 < 2 ^ t) by (apply pow2_pos; lia).
    assert (Eb : u64_shr n t = 2 * q + 1).
    { unfold u64_shr. rewrite Z.shiftr_div_pow2 by lia. rewrite En. by rewrite Z.div_mul by lia. }
    rewrite Eb. rewrite En at 1. rewrite frozen_nodes_pow2, Z.add_0_l by lia.
    destruct (2 * q + 1) as [|b|b] eqn:Eq; [lia| |lia]. cbn [frozen_nodes].
    rewrite <- (nhash_placeholder L t (Zpos b)) by (fold n; lia).
    rewrite compute_root_loop_correct; [|lia|fold n; lia| |].
    + f_equal. f_equal.
      assert (Hlog : Z.log2 n = t + Z.log2 (Zpos b)).
      { rewrite En. rewrite Z.log2_mul_pow2 by lia. lia. }
      rewrite <- Hlog. unfold root_level. destruct (Z.leb_spec n 1).
      * exfalso. assert (n = 1) as Hn1 by lia. rewrite Hn1 in E. done.
      * destruct (Z.log2_spec n Hpos) as [Hlo Hhi]. f_equal. symmetry. apply Z.log2_unique; [apply Z.log2_nonneg|].
        split; [|lia]. destruct (decide (n = 2 ^ Z.log2 n)) as [Hn|]; [|lia].
        rewrite Hn, frozen_nodes_single in E by apply Z.log2_nonneg. done.
    + left. rewrite <- Eq. by rewrite Z.odd_add, Z.odd_mul.
    + assert (Z.log2 (Zpos b) < 64); [|lia]. apply Z.log2_lt_pow2; nia.
Qed.

Lemma frozen_hashes_length L n : 0 <= n ->
  Z.of_nat (length (frozen_hashes L (frozen_nodes 0 n))) = count_ones64 n.
Proof. intros. unfold frozen_hashes. by rewrite length_map, frozen_nodes_length. Qed.

Lemma accumulator_new_correct L : Z.of_nat (length L) < 2 ^ 64 ->
  accumulator_new (frozen_hashes L (frozen_nodes 0 (Z.of_nat (length L)))) (Z.of_nat (length L)) =
  Ok (accumulator_of L).
Proof.
  intros Hlen. unfold accumulator_new.
  rewrite frozen_hashes_length, Z.eqb_refl by lia. cbn.
  by rewrite compute_root_hash_correct.
Qed.

Lemma append_loop_correct L1 L2 : Z.of_nat (length (L1 ++ L2)) < 2 ^ 64 ->
  result_fold (fun '(roots, n) leaf => roots ← append_one roots n leaf; Ok (roots, u64_add n 1))
    L2 (frozen_hashes (L1 ++ L2) (frozen_nodes 0 (Z.of_nat (length L1))), Z.of_nat (length L1)) =
  Ok (frozen_hashes (L1 ++ L2) (frozen_nodes 0 (Z.of_nat (length (L1 ++ L2)))),
      Z.of_nat (length (L1 ++ L2))).
Proof.
  revert L1. induction L2 as [|x L2 IH]; intros L1 Hlen.
  { by rewrite app_nil_r. }
  cbn [result_fold]. rewrite length_app in Hlen. cbn [length] in Hlen.
  rewrite append_one_correct; [|lia|].
  2:{ rewrite Nat2Z.id, lookup_app_r, Nat.sub_diag by lia. done. }
  cbn. rewrite u64_add_small by lia.
  replace (Z.of_nat (length L1) + 1) with (Z.of_nat (length (L1 ++ [x])))
    by (rewrite length_app; cbn; lia).
  change (L1 ++ x :: L2) with (L1 ++ [x] ++ L2). rewrite app_assoc.
  apply IH. rewrite !length_app. cbn. lia.
Qed.

Lemma append_accumulator_of L1 L2 : Z.of_nat (length (L1 ++ L2)) < 2 ^ 64 ->
  append (accumulator_of L1) L2 = Ok (accumulator_of (L1 ++ L2)).
Proof.
  intros Hlen. unfold append. cbn [frozen_subtree_roots num_leaves accumulator_of].
  rewrite <- (frozen_hashes_mono L1 L2) by lia.
  rewrite append_loop_correct by done. cbn.
  by rewrite accumulator_new_correct.
Qed.

Lemma from_leaves_accumulator_of L : Z.of_nat (length L) < 2 ^ 64 ->
  from_leaves L = Ok (accumulator_of L).
Proof.
  intros Hlen. unfold from_leaves, accumulator_default.
  pose proof (accumulator_new_correct [] ltac:(done)) as E. cbn [length frozen_nodes] in E.
  change (Z.of_nat 0) with 0 in E. cbn [frozen_nodes frozen_hashes map] in E. rewrite E. cbn.
  by apply (append_accumulator_of []).
Qed.

(** ** Appending subtrees *)

Lemma land_pow2_eqb cur l : 0 <= cur -> 0 <= l ->
  (Z.land cur (2 ^ l) =? 0) = Z.even (cur / 2 ^ l).
Proof.
  intros Hc Hl. rewrite <- Z.negb_odd, <- Z.bit0_odd, Z.div_pow2_bits, Z.add_0_l by lia.
  destruct (Z.testbit cur l) eqn:E; cbn.
  - apply Z.eqb_neq. intros H. apply (f_equal (fun z => Z.testbit z l)) in H.
    rewrite Z.land_spec, E, Z.bits_0, Z.pow2_bits_true in H by done. done.
  - apply Z.eqb_eq, Z.bits_inj'. intros i Hi. rewrite Z.land_spec, Z.bits_0, testbit_pow2 by done.
    case_bool_decide; subst; [by rewrite E|apply andb_false_r].
Qed.

(** Merging a new subtree of level [l] into the full subtrees of [m * 2 ^ l] leaves. *)
Lemma append_subtrees_merge_correct L cur m : forall l fuel,
  0 <= l -> 0 <= m -> 0 <= cur -> cur / 2 ^ l = m -> (m + 1) * 2 ^ l <= 2 ^ 63 ->
  (m + 1) * 2 ^ l <= Z.of_nat (length L) -> m < 2 ^ (Z.of_nat fuel - 1) ->
  exists roots h j, append_subtrees_merge fuel cur (2 ^ l)
      (frozen_hashes L (frozen_nodes l m)) (nhash L l m) = Ok (roots, h, 2 ^ j) /\
    roots ++ [h] = frozen_hashes L (frozen_nodes l (m + 1)) /\
    0 <= j /\ exists q, 0 <= q /\ (m + 1) * 2 ^ l = (2 * q + 1) * 2 ^ j.
Proof.
  intros l fuel Hl Hm Hc. revert l fuel Hl. pattern m. apply Z_lt_induction; [|done].
  clear m Hm. intros m IH l fuel Hl Ecur Hb HL Hfuel.
  assert (Hm : 0 <= m) by (rewrite <- Ecur; apply Z.div_pos; [lia|apply pow2_pos; lia]).
  destruct fuel as [|fuel]; [change (2 ^ (Z.of_nat 0 - 1)) with 0 in Hfuel; lia|].
  cbn [append_subtrees_merge]. rewrite land_pow2_eqb, Ecur by lia.
  destruct (Z.even m) eqn:Ev.
  - apply Z.even_spec in Ev as [q ->].
    eexists _, _, l. split; [done|]. rewrite frozen_nodes_double, frozen_nodes_succ_double by lia.
    unfold frozen_hashes. rewrite map_app. split_and!; [done|lia|].
    exists q. split; [lia|done].
  - rewrite <- Z.negb_odd in Ev. apply negb_false_iff, Z.odd_spec in Ev as [q Eq]. rewrite Eq.
    rewrite frozen_nodes_succ_double by lia. unfold frozen_hashes at 1. rewrite map_app. cbn [map].
    rewrite vec_pop_snoc. cbn. assert (0 < 2 ^ l) by (apply pow2_pos; lia).
    assert (Hl62 : l < 63) by (apply (Z.pow_lt_mono_r_iff 2); lia).
    rewrite isolate_shl by lia. rewrite <- nhash_step by (rewrite ?Z.pow_add_r by lia; nia).
    change (map (fun '(l, p) => nhash L l p)) with (frozen_hashes L).
    destruct (IH q) with (l := l + 1) (fuel := fuel) as (roots & h & j & E & Hroots & Hj & q' & Hq' & Eq');
      [lia|lia| |rewrite Z.pow_add_r by lia; lia|rewrite Z.pow_add_r by lia; lia| |].
    + rewrite Z.pow_add_r, <- Z.div_div, Ecur, Eq by lia. symmetry. apply (Z.div_unique _ _ _ 1); lia.
    + rewrite Nat2Z.inj_succ in Hfuel.
      destruct (decide (fuel = 0)%nat) as [->|]; [change (2 ^ (Z.succ (Z.of_nat 0) - 1)) with 1 in Hfuel; lia|].
      replace (Z.succ (Z.of_nat fuel) - 1) with (Z.of_nat fuel - 1 + 1) in Hfuel by lia.
      rewrite Z.pow_add_r in Hfuel by lia. lia.
    + exists roots, h, j. split; [done|].
      replace (2 * q + 1 + 1) with (2 * (q + 1)) by lia. rewrite frozen_nodes_double by lia.
      split_and!; [done|done|]. exists q'. split; [done|]. rewrite <- Eq', Z.pow_add_r by lia. lia.
Qed.

Lemma sibling_level_carry cur rem : 0 < cur -> 2 ^ trailing_zeros64 cur <= rem ->
  sibling_level cur rem = trailing_zeros64 cur.
Proof. intros. unfold sibling_level. zbool. Qed.

(** When what remains is smaller than the rightmost subtree, the remaining
    subtrees are those of the remainder, moved right. *)
Lemma sibling_nodes_tail fuel cur rem k : 0 <= k -> 0 <= cur -> 0 <= rem < 2 ^ k -> cur mod 2 ^ k = 0 ->
  rem < 2 ^ Z.of_nat fuel -> cur + rem <= 2 ^ 63 ->
  sibling_nodes fuel cur rem =
  map (fun '(l, p) => (l, p + cur / 2 ^ k * 2 ^ (k - l))) (frozen_nodes 0 rem).
Proof.
  revert cur rem k. induction fuel as [|fuel IH]; intros cur rem k Hk Hc Hr Hm Hf Hb.
  { change (2 ^ Z.of_nat 0) with 1 in Hf. by assert (rem = 0) as -> by lia. }
  cbn [sibling_nodes]. destruct (Z.eqb_spec rem 0) as [->|Hr0]; [done|].
  assert (Hlev : sibling_level cur rem = Z.log2 rem).
  { unfold sibling_level. destruct (Z.ltb_spec 0 cur); cbn; [|done].
    destruct (Z.leb_spec (2 ^ trailing_zeros64 cur) rem); [|done].
    destruct (trailing_zeros64_decomp cur) as (q & ? & ? & E); [lia|]. exfalso.
    set (t := trailing_zeros64 cur) in *.
    assert (t < k) by (apply (Z.pow_lt_mono_r_iff 2); lia).
    pose proof (Z.div_mod cur (2 ^ k) ltac:(pose proof (pow2_pos k); lia)) as Ed.
    replace k with (k - t - 1 + 1 + t) in Ed at 1 by lia. rewrite !Z.pow_add_r in Ed by lia.
    assert (0 < 2 ^ t) by (apply pow2_pos; lia). rewrite Hm in Ed.
    assert (2 * q + 1 = 2 * (2 ^ (k - t - 1) * (cur / 2 ^ k))) by nia. lia. }
  rewrite Hlev. destruct (Z.log2_spec rem) as [Hlo Hhi]; [lia|]. pose proof (Z.log2_nonneg rem).
  set (j := Z.log2 rem) in *. clearbody j. rewrite Z.pow_succ_r in Hhi by lia.
  assert (j < k) by (apply (Z.pow_lt_mono_r_iff 2); lia).
  assert (0 < 2 ^ j) by (apply pow2_pos; lia).
  assert (Ek : 2 ^ k = 2 ^ (k - j) * 2 ^ j) by (rewrite <- Z.pow_add_r by lia; f_equal; lia).
  assert (Ecur : cur = cur / 2 ^ k * 2 ^ (k - j) * 2 ^ j).
  { pose proof (Z.div_mod cur (2 ^ k) ltac:(lia)) as Ed. rewrite Hm in Ed. rewrite Ek in Ed at 1. lia. }
  assert (Ediv : cur / 2 ^ j = cur / 2 ^ k * 2 ^ (k - j)) by (rewrite Ecur at 1; apply Z.div_mul; lia).
  rewrite (IH _ _ j); [|lia|lia|lia| | |lia].
  - replace rem with (2 ^ j + (rem - 2 ^ j)) at 2 by lia. rewrite frozen_nodes_top by lia. cbn [map].
    f_equal; [by rewrite Z.add_0_l, Ediv|]. rewrite map_map. apply map_ext_in. intros [l p] Hin.
    apply frozen_nodes_level_lt with (k := j) in Hin as ?; [|lia..].
    apply frozen_nodes_In in Hin as (? & ? & ?); [|lia..]. f_equal.
    replace (cur + 2 ^ j) with (cur + 1 * 2 ^ j) by lia. rewrite Z.div_add, Ediv, Z.add_0_r by lia.
    replace (2 ^ (k - l)) with (2 ^ (k - j) * 2 ^ (j - l)) by (rewrite <- Z.pow_add_r by lia; f_equal; lia).
    lia.
  - rewrite Ecur. replace (_ + 2 ^ j) with ((cur / 2 ^ k * 2 ^ (k - j) + 1) * 2 ^ j) by lia.
    apply Z.mod_mul. lia.
  - rewrite Nat2Z.inj_succ, Z.pow_succ_r in Hf by lia. lia.
Qed.

Lemma carry_level_lt q q' k j : 0 <= k -> 0 <= j ->
  (2 * q + 1 + 1) * 2 ^ k = (2 * q' + 1) * 2 ^ j -> k < j.
Proof.
  intros Hk Hj E. destruct (decide (k < j)); [done|]. exfalso.
  replace k with (k - j + j) in E by lia. rewrite Z.pow_add_r in E by lia.
  assert (0 < 2 ^ j) by (apply pow2_pos; lia).
  assert (2 * ((q + 1) * 2 ^ (k - j)) = 2 * q' + 1) by nia. lia.
Qed.

Lemma frozen_hashes_extend L cur rem k : 0 <= k -> 0 <= cur -> cur mod 2 ^ k = 0 -> 0 <= rem < 2 ^ k ->
  frozen_hashes L (frozen_nodes 0 (cur + rem)) =
  frozen_hashes L (frozen_nodes 0 cur) ++
  frozen_hashes L (map (fun '(l, p) => (l, p + cur / 2 ^ k * 2 ^ (k - l))) (frozen_nodes 0 rem)).
Proof.
  intros Hk Hc Hm Hr. assert (0 < 2 ^ k) by (apply pow2_pos; lia).
  assert (Ec : cur = cur / 2 ^ k * 2 ^ k) by (pose proof (Z.div_mod cur (2 ^ k) ltac:(lia)); lia).
  assert (0 <= cur / 2 ^ k) by (apply Z.div_pos; lia).
  rewrite Ec at 1 2. rewrite frozen_nodes_split, frozen_nodes_pow2 by lia.
  unfold frozen_hashes. rewrite map_app. do 2 f_equal. apply map_ext. intros [l p].
  by rewrite Z.add_0_r.
Qed.

Lemma append_subtrees_loop_correct L fuel : forall f2 cur rem,
  0 < cur -> 0 <= rem -> cur + rem <= 2 ^ 63 -> cur + rem <= Z.of_nat (length L) ->
  64 - trailing_zeros64 cur < Z.of_nat fuel -> (fuel + 64 <= f2)%nat ->
  exists roots n r iter,
    append_subtrees_loop fuel (frozen_hashes L (frozen_nodes 0 cur)) cur rem
      (2 ^ trailing_zeros64 cur) (frozen_hashes L (sibling_nodes f2 cur rem)) = Ok (roots, n, r, iter) /\
    roots ++ iter = frozen_hashes L (frozen_nodes 0 (cur + rem)) /\ n + r = cur + rem.
Proof.
  induction fuel as [|fuel IH]; intros f2 cur rem Hc Hr Hb HL Hf Hf2.
  { destruct (decide (rem = 0)) as [->|]; [|pose proof (trailing_zeros64_lt_63 cur); lia].
    pose proof (trailing_zeros64_range cur). unfold is_u64 in *. lia. }
  cbn [append_subtrees_loop].
  destruct (trailing_zeros64_decomp cur Hc) as (q & Hq & Ht & Ecur).
  set (t := trailing_zeros64 cur) in *. assert (0 < 2 ^ t) by (apply pow2_pos; lia).
  destruct (Z.leb_spec (2 ^ t) rem) as [Hle|Hgt].
  - destruct f2 as [|f2]; [lia|]. cbn [sibling_nodes]. destruct (Z.eqb_spec rem 0); [lia|].
    rewrite sibling_level_carry by done. fold t.
    assert (Ediv : cur / 2 ^ t = 2 * q + 1) by (rewrite Ecur; apply Z.div_mul; lia).
    rewrite Ediv. cbn [frozen_hashes map ok_or mbind result_bind].
    assert (Efr : frozen_nodes 0 cur = frozen_nodes t (2 * q + 1)).
    { rewrite Ecur at 1. rewrite frozen_nodes_pow2, Z.add_0_l by lia. done. }
    rewrite Efr.
    destruct (append_subtrees_merge_correct L cur (2 * q + 1) t 65)
      as (roots & h & j & -> & Hroots & Hj & q' & Hq' & Ej); [lia|lia|lia|done|nia|nia| |].
    { change (2 ^ (Z.of_nat 65 - 1)) with (2 ^ 64). nia. }
    pose proof (carry_level_lt _ _ _ _ Ht Hj Ej).
    assert (Enew : cur + 2 ^ t = (2 * q' + 1) * 2 ^ j) by (rewrite <- Ej; lia).
    assert (Etz : trailing_zeros64 (cur + 2 ^ t) = j)
      by (rewrite Enew; by apply trailing_zeros64_spec).
    rewrite (u64_add_small cur), (u64_sub_small rem) by lia.
    destruct (IH f2 (cur + 2 ^ t) (rem - 2 ^ t)) as (roots' & n' & r' & iter & E & Hri & Hnr); [lia..|].
    rewrite Etz in E. exists roots', n', r', iter.
    replace (frozen_hashes L (frozen_nodes 0 (cur + 2 ^ t))) with (roots ++ [h]) in E.
    2:{ rewrite Hroots. f_equal. replace (cur + 2 ^ t) with ((2 * q + 1 + 1) * 2 ^ t) by lia.
        rewrite frozen_nodes_pow2 by lia. by rewrite Z.add_0_l. }
    split_and!; [exact E| |lia]. rewrite Hri. do 2 f_equal. lia.
  - eexists _, _, _, _. split_and!; [done| |done].
    rewrite (sibling_nodes_tail f2 cur rem t).
    + symmetry. apply frozen_hashes_extend; [lia|lia| |lia].
      rewrite Ecur. apply Z.mod_mul. lia.
    + lia.
    + lia.
    + lia.
    + rewrite Ecur. apply Z.mod_mul. lia.
    + eapply Z.lt_le_trans; [|apply (Z.pow_le_mono_r 2 64)]; lia.
    + lia.
Qed.

Lemma append_subtrees_accumulator_of L1 L2 fuel : Z.of_nat (length (L1 ++ L2)) <= 2 ^ 63 ->
  (129 <= fuel)%nat ->
  append_subtrees (accumulator_of L1)
    (frozen_hashes (L1 ++ L2)
       (sibling_nodes fuel (Z.of_nat (length L1)) (Z.of_nat (length L2)))) (Z.of_nat (length L2)) =
  Ok (accumulator_of (L1 ++ L2)).
Proof.
  intros Hlen Hfuel. rewrite length_app, Nat2Z.inj_add in Hlen. unfold append_subtrees.
  cbn [num_leaves frozen_subtree_roots accumulator_of].
  change MAX_ACCUMULATOR_LEAVES with (2 ^ 63). rewrite u64_sub_small by lia.
  destruct (Z.leb_spec (Z.of_nat (length L2)) (2 ^ 63 - Z.of_nat (length L1))); [|lia]. cbn [ensure mbind result_bind].
  destruct (Z.eqb_spec (Z.of_nat (length L1)) 0) as [E0|].
  - assert (L1 = []) as -> by (destruct L1; [done|cbn in E0; lia]). cbn [app length].
    change (Z.of_nat 0) with 0.
    rewrite (sibling_nodes_tail fuel 0 _ 64); [|lia|lia|lia|done| |lia].
    2:{ eapply Z.le_lt_trans; [|apply (Z.pow_lt_mono_r 2 63)]; lia. }
    rewrite <- accumulator_new_correct by lia. f_equal. f_equal.
    rewrite <- (map_id (frozen_nodes 0 (Z.of_nat (length L2)))) at 2.
    apply map_ext. intros [l p]. f_equal. rewrite Z.div_0_l by lia. lia.
  - pose proof (trailing_zeros64_range (Z.of_nat (length L1))) as Ht. unfold is_u64 in Ht.
    destruct (append_subtrees_loop_correct (L1 ++ L2) 65 fuel (Z.of_nat (length L1)) (Z.of_nat (length L2)))
      as (roots & n' & r & iter & E & Hri & Hnr); [lia|lia|lia|rewrite length_app; lia|lia|lia|].
    assert (Hsz : 2 ^ trailing_zeros64 (Z.of_nat (length L1)) <= Z.of_nat (length L1)).
    { destruct (trailing_zeros64_decomp (Z.of_nat (length L1))) as (q & ? & ? & Eq); [lia|].
      assert (0 < 2 ^ trailing_zeros64 (Z.of_nat (length L1))) by (apply pow2_pos; lia). nia. }
    rewrite u64_shl_small, Z.mul_1_l by (pose proof (pow2_pos (trailing_zeros64 (Z.of_nat (length L1)))); lia).
    rewrite frozen_hashes_mono in E by lia. rewrite E. cbn [mbind result_bind].
    rewrite Hri, u64_add_small, Hnr by lia.
    rewrite <- accumulator_new_correct by (rewrite length_app; lia).
    rewrite length_app, Nat2Z.inj_add. done.
Qed.

(** The in-memory accumulator implements the reference tree: building it from leaves and
    appending more never fails below 2^64 leaves, and it holds the root of the tree of all
    leaves, its number of leaves and the roots of its maximal complete subtrees. *)
Theorem in_memory_refines L1 L2 : Z.of_nat (length (L1 ++ L2)) < 2 ^ 64 ->
  exists acc acc', from_leaves L1 = Ok acc /\ append acc L2 = Ok acc' /\
    root_hash acc' = tree_root (L1 ++ L2) /\ num_leaves acc' = Z.of_nat (length (L1 ++ L2)) /\
    frozen_subtree_roots acc' =
      frozen_hashes (L1 ++ L2) (frozen_nodes 0 (Z.of_nat (length (L1 ++ L2)))).
Proof.
  intros Hn. exists (accumulator_of L1), (accumulator_of (L1 ++ L2)).
  rewrite from_leaves_accumulator_of by (rewrite length_app in Hn; lia).
  by rewrite append_accumulator_of.
Qed.
End Accumulator.
