(* ===== verification/AccumulatorProof.v ===== *)
(** * Accumulator proofs and their verification

    [types/src/proof/definition.rs]: inclusion proofs, range proofs, consistency
    and extension proofs of the Merkle accumulator.  Soundness is stated as a
    reduction: a proof that verifies against the root of a tree for something the
    tree does not contain exhibits two different pairs with the same hash, among
    the pairs the verifier and the tree hashed. *)

From S2P Require Import Prelude U64 Position Accumulator.

Section AccumulatorProof.
Context {HashValue : Type} `{!EqDecision HashValue}.
Context (hash_internal : HashValue -> HashValue -> HashValue).
Context (ACCUMULATOR_PLACEHOLDER_HASH : HashValue).

Notation nhash := (nhash hash_internal ACCUMULATOR_PLACEHOLDER_HASH).
Notation tree_root := (tree_root hash_internal ACCUMULATOR_PLACEHOLDER_HASH).

(** ** [AccumulatorProof] *)

Record AccumulatorProof := mkAccumulatorProof { siblings : list HashValue }.

(** One step of the fold in [AccumulatorProof::verify]. *)
Definition proof_step (acc : HashValue * Z) (sibling_hash : HashValue) : HashValue * Z :=
  let '(hash, index) := acc in
  (if index mod 2 =? 0 then hash_internal hash sibling_hash else hash_internal sibling_hash hash,
   index / 2).

Definition accumulator_proof_verify (self : AccumulatorProof) (expected_root_hash element_hash : HashValue)
    (element_index : Z) : result string unit :=
  _ ← ensure (Z.of_nat (length (siblings self)) <=? MAX_ACCUMULATOR_PROOF_DEPTH)
        "Accumulator proof has too many siblings."%string;
  let actual_root_hash := (fold_left proof_step (siblings self) (element_hash, element_index)).1 in
  _ ← ensure (bool_decide (actual_root_hash = expected_root_hash)) "Root hashes do not match."%string;
  Ok tt.

(** ** [AccumulatorRangeProof] *)

Record AccumulatorRangeProof := mkAccumulatorRangeProof {
  left_siblings : list HashValue;
  right_siblings : list HashValue
}.

Definition range_proof_new_empty : AccumulatorRangeProof :=
  {| left_siblings := []; right_siblings := [] |}.

(** [children_iter.as_slice().chunks_exact(2)]: parents of the pairs, and the
    remainder. *)
Fixpoint hash_pairs (children : list HashValue) : list HashValue * list HashValue :=
  match children with
  | left_hash :: right_hash :: rest =>
    let '(parents, remainder) := hash_pairs rest in
    (hash_internal left_hash right_hash :: parents, remainder)
  | _ => ([], children)
  end.

(** One iteration of the loop of [AccumulatorRangeProof::verify]. *)
Definition range_level (first_pos : Z) (current_hashes lefts rights : list HashValue)
    : result string (list HashValue * list HashValue * list HashValue) :=
  '(parents1, children, lefts) ←
    (if Position.is_right_child first_pos then
       '(left_hash, lefts) ←
         ok_or (match lefts with [] => None | h :: r => Some (h, r) end)
           "First child is a right child, but missing sibling on the left."%string;
       '(right_hash, children) ←
         expect (match current_hashes with [] => None | h :: r => Some (h, r) end);
       Ok ([hash_internal left_hash right_hash], children, lefts)
     else Ok ([], current_hashes, lefts));
  let '(parents2, remainder) := hash_pairs children in
  '(parents3, rights) ←
    (match remainder with
     | [] => Ok ([], rights)
     | left_hash :: _ =>
       '(right_hash, rights) ←
         ok_or (match rights with [] => None | h :: r => Some (h, r) end)
           "Last child is a left child, but missing sibling on the right."%string;
       Ok ([hash_internal left_hash right_hash], rights)
     end);
  Ok (parents1 ++ parents2 ++ parents3, lefts, rights).

Definition is_nil {A} (l : list A) : bool := match l with [] => true | _ => false end.

(** [while current_hashes.len() > 1 || ..peek().is_some() || ..]: every iteration
    consumes a sibling or halves the hashes, so the total size bounds the loop. *)
Fixpoint range_loop (fuel : nat) (first_pos : Z) (current_hashes lefts rights : list HashValue)
    : result string (list HashValue) :=
  if (1 <? Z.of_nat (length current_hashes)) || negb (is_nil lefts) || negb (is_nil rights) then
    match fuel with
    | O => Panic
    | S fuel =>
      '(current_hashes, lefts, rights) ← range_level first_pos current_hashes lefts rights;
      range_loop fuel (Position.parent first_pos) current_hashes lefts rights
    end
  else Ok current_hashes.

Definition range_proof_verify (self : AccumulatorRangeProof) (expected_root_hash : HashValue)
    (first_leaf_index : option Z) (leaf_hashes : list HashValue) : result string unit :=
  match first_leaf_index with
  | None =>
    _ ← ensure (is_nil leaf_hashes)
          "first_leaf_index indicated empty list while leaf_hashes is not empty."%string;
    _ ← ensure (is_nil (left_siblings self) && is_nil (right_siblings self))
          "No siblings are needed."%string;
    Ok tt
  | Some first_leaf_index =>
    _ ← ensure (Z.of_nat (length (left_siblings self)) <=? MAX_ACCUMULATOR_PROOF_DEPTH)
          "Proof has too many left siblings."%string;
    _ ← ensure (Z.of_nat (length (right_siblings self)) <=? MAX_ACCUMULATOR_PROOF_DEPTH)
          "Proof has too many right siblings."%string;
    _ ← ensure (negb (is_nil leaf_hashes))
          "leaf_hashes is empty while first_leaf_index indicated non-empty list."%string;
    hashes ← range_loop
      (length leaf_hashes + length (left_siblings self) + length (right_siblings self))
      (Position.from_leaf_index first_leaf_index) leaf_hashes (left_siblings self) (right_siblings self);
    h ← expect (head hashes);
    _ ← ensure (bool_decide (h = expected_root_hash)) "Root hashes do not match."%string;
    Ok tt
  end.

(** ** [AccumulatorConsistencyProof] and [AccumulatorExtensionProof] *)

Record AccumulatorConsistencyProof := mkAccumulatorConsistencyProof { subtrees : list HashValue }.

Record AccumulatorExtensionProof := mkAccumulatorExtensionProof {
  ext_frozen_subtree_roots : list HashValue;
  ext_num_leaves : Z;
  ext_leaves : list HashValue
}.

Definition extension_proof_verify (self : AccumulatorExtensionProof) (original_root : HashValue)
    : result string (InMemoryAccumulator (HashValue:=HashValue)) :=
  original_tree ← accumulator_new hash_internal ACCUMULATOR_PLACEHOLDER_HASH
    (ext_frozen_subtree_roots self) (ext_num_leaves self);
  _ ← ensure (bool_decide (root_hash original_tree = original_root))
        "Root hashes do not match."%string;
  append hash_internal ACCUMULATOR_PLACEHOLDER_HASH original_tree (ext_leaves self).

(** ** Inclusion proofs *)

(** The siblings an honest prover gives for leaf [i]. *)
Definition honest_siblings (L : list HashValue) (d : nat) (i : Z) : list HashValue :=
  map (fun k => nhash L (Z.of_nat k) (Z.lxor (i / 2 ^ Z.of_nat k) 1)) (seq 0 d).

(** The pairs a verifier hashes. *)
Fixpoint path_pairs (sibs : list HashValue) (h : HashValue) (i : Z) : list (HashValue * HashValue) :=
  match sibs with
  | [] => []
  | s :: sibs =>
    let pair := if i mod 2 =? 0 then (h, s) else (s, h) in
    pair :: path_pairs sibs (hash_internal pair.1 pair.2) (i / 2)
  end.

Definition hash_pair (p : HashValue * HashValue) : HashValue := hash_internal p.1 p.2.

(** Two different pairs, one from each list, with the same hash. *)
Definition collision (l1 l2 : list (HashValue * HashValue)) : Prop :=
  exists a b, In a l1 /\ In b l2 /\ a <> b /\ hash_pair a = hash_pair b.

Lemma proof_step_pair sibs h s i :
  fold_left proof_step (s :: sibs) (h, i) =
  fold_left proof_step sibs (hash_pair (if i mod 2 =? 0 then (h, s) else (s, h)), i / 2).
Proof. cbn. by destruct (i mod 2 =? 0). Qed.

(** Two paths of the same shape that meet at the top are the same path, or they
    contain a collision. *)
Lemma path_injective sibs1 : forall sibs2 h1 h2 i,
  length sibs1 = length sibs2 ->
  (fold_left proof_step sibs1 (h1, i)).1 = (fold_left proof_step sibs2 (h2, i)).1 ->
  (h1 = h2 /\ sibs1 = sibs2) \/ collision (path_pairs sibs1 h1 i) (path_pairs sibs2 h2 i).
Proof.
  induction sibs1 as [|s1 sibs1 IH]; intros [|s2 sibs2] h1 h2 i Hlen Heq; try done.
  { by left. }
  injection Hlen as Hlen. rewrite !proof_step_pair in Heq. cbn [path_pairs].
  set (p1 := if i mod 2 =? 0 then (h1, s1) else _) in *.
  set (p2 := if i mod 2 =? 0 then (h2, s2) else _) in *.
  destruct (IH _ _ _ _ Hlen Heq) as [[Hh ->]|(a & b & Ha & Hb & Hab)].
  - destruct (decide (p1 = p2)) as [Hp|Hp].
    + left. unfold p1, p2 in Hp. destruct (i mod 2 =? 0); by simplify_eq.
    + right. exists p1, p2. split_and!; [by left|by left|done|done].
  - right. exists a, b. split_and!; [by right|by right|apply Hab|apply Hab].
Qed.

(** Walking up from node [p] of level [l] with the honest siblings gives the
    ancestor of level [l + d]. *)
Lemma honest_path L d : forall l p, 0 <= l -> 0 <= p -> p * 2 ^ l < Z.of_nat (length L) ->
  fold_left proof_step
    (map (fun k => nhash L (l + Z.of_nat k) (Z.lxor (p / 2 ^ Z.of_nat k) 1)) (seq 0 d)) (nhash L l p, p) =
  (nhash L (l + Z.of_nat d) (p / 2 ^ Z.of_nat d), p / 2 ^ Z.of_nat d).
Proof.
  induction d as [|d IH]; intros l p Hl Hp Hn.
  { cbn [seq map fold_left]. change (2 ^ Z.of_nat 0) with 1. by rewrite Z.div_1_r, Z.add_0_r. }
  cbn [seq map]. rewrite proof_step_pair. change (2 ^ Z.of_nat 0) with 1. rewrite Z.div_1_r.
  change (Z.of_nat 0) with 0. rewrite Z.add_0_r.
  assert (0 < 2 ^ l) by (apply pow2_pos; lia).
  assert (Hstep : hash_pair (if p mod 2 =? 0 then (nhash L l p, nhash L l (Z.lxor p 1))
      else (nhash L l (Z.lxor p 1), nhash L l p)) = nhash L (l + 1) (p / 2)).
  { destruct (parity_cases p) as (q & Eq & [[E Em]|[E Em]]); rewrite <- Eq, Em; cbn;
      rewrite E, ?lxor_1_even, ?lxor_1_odd; unfold hash_pair; cbn; symmetry;
      apply nhash_step; rewrite ?Z.pow_add_r by lia; nia. }
  rewrite Hstep. rewrite <- seq_shift, map_map.
  replace (l + Z.of_nat (S d)) with (l + 1 + Z.of_nat d) by lia. rewrite div_pow2_succ.
  rewrite <- IH; [|lia|apply Z.div_pos; lia|].
  2:{ rewrite Z.pow_add_r by lia. pose proof (Z.mul_div_le p 2 ltac:(lia)). nia. }
  f_equal. apply map_ext. intros k. rewrite div_pow2_succ. f_equal. lia.
Qed.

Lemma honest_path_root L i h : 0 <= i -> L !! Z.to_nat i = Some h ->
  let d := Z.to_nat (root_level (Z.of_nat (length L))) in
  (fold_left proof_step (honest_siblings L d i) (h, i)).1 = tree_root L.
Proof.
  intros Hi Hh d. apply lookup_lt_Some in Hh as Hlt.
  rewrite <- (nhash_leaf hash_internal ACCUMULATOR_PLACEHOLDER_HASH L i h) by done.
  assert (E : fold_left proof_step (honest_siblings L d i) (nhash L 0 i, i) = _)
    by (apply (honest_path L d 0 i); change (2 ^ 0) with 1; lia).
  rewrite E. cbn [fst].
  pose proof (root_level_nonneg (Z.of_nat (length L))).
  pose proof (root_level_spec (Z.of_nat (length L)) ltac:(lia)) as [Hr _].
  unfold d. rewrite Z2Nat.id, Z.add_0_l by lia. rewrite (Z.div_small i) by lia. done.
Qed.

Lemma inclusion_complete L i h : 0 <= i -> Z.of_nat (length L) <= 2 ^ 63 ->
  L !! Z.to_nat i = Some h ->
  accumulator_proof_verify
    {| siblings := honest_siblings L (Z.to_nat (root_level (Z.of_nat (length L)))) i |}
    (tree_root L) h i = Ok tt.
Proof.
  intros Hi Hlen Hh. apply lookup_lt_Some in Hh as Hlt. unfold accumulator_proof_verify. cbn [siblings].
  rewrite honest_path_root, bool_decide_eq_true_2 by done.
  unfold honest_siblings. rewrite length_map, length_seq.
  pose proof (root_level_bound (Z.of_nat (length L)) ltac:(lia)).
  rewrite Z2Nat.id by lia. unfold MAX_ACCUMULATOR_PROOF_DEPTH.
  by destruct (Z.leb_spec (root_level (Z.of_nat (length L))) 63); [|lia].
Qed.

(** An inclusion proof of the right depth that verifies against the root of the
    reference tree proves the true leaf at that index, or exhibits two different pairs of
    children with the same hash, one among the pairs hashed by the verifier.  *)
Theorem inclusion_sound L i h' pf h : 0 <= i -> L !! Z.to_nat i = Some h' ->
  let d := Z.to_nat (root_level (Z.of_nat (length L))) in
  length (siblings pf) = d ->
  accumulator_proof_verify pf (tree_root L) h i = Ok tt ->
  h = h' \/ collision (path_pairs (siblings pf) h i) (path_pairs (honest_siblings L d i) h' i).
Proof.
  intros Hi Hh' d Hd Hv. unfold accumulator_proof_verify in Hv. res_inv.
  rewrite <- (honest_path_root L i h') in * by done.
  edestruct (path_injective (siblings pf)) as [[? ?]|Hc]; [|eassumption|by left|by right].
  unfold honest_siblings. by rewrite length_map, length_seq.
Qed.

(** ** Range proofs *)

(** The siblings an honest prover gives, from level [l] up to level [l + d], on
    the left of node [a] and on the right of node [b]. *)
Fixpoint honest_lefts (L : list HashValue) (d : nat) (l a : Z) : list HashValue :=
  match d with
  | O => []
  | S d => (if Z.odd a then [nhash L l (a - 1)] else []) ++ honest_lefts L d (l + 1) (a / 2)
  end.
Fixpoint honest_rights (L : list HashValue) (d : nat) (l b : Z) : list HashValue :=
  match d with
  | O => []
  | S d => (if Z.even b then [nhash L l (b + 1)] else []) ++ honest_rights L d (l + 1) (b / 2)
  end.

(** Nodes [a], [a + 1], ..., [a + m - 1] of level [l]. *)
Definition level_nodes (L : list HashValue) (l a : Z) (m : nat) : list HashValue :=
  map (fun k => nhash L l (a + Z.of_nat k)) (seq 0 m).

Lemma level_nodes_S L l a m : level_nodes L l a (S m) = nhash L l a :: level_nodes L l (a + 1) m.
Proof.
  unfold level_nodes. cbn [seq map]. rewrite Z.add_0_r. f_equal. rewrite <- seq_shift, map_map.
  apply map_ext. intros k. f_equal. lia.
Qed.

Lemma level_nodes_snoc L l a m b : b = a + Z.of_nat m ->
  level_nodes L l a (S m) = level_nodes L l a m ++ [nhash L l b].
Proof. intros ->. unfold level_nodes. by rewrite seq_S, map_app. Qed.

Lemma hash_pairs_level_nodes L l q m e : 0 <= l -> 0 <= q -> (e <= 1)%nat ->
  (q + Z.of_nat m) * 2 ^ (l + 1) <= Z.of_nat (length L) + 2 ^ (l + 1) - 1 ->
  hash_pairs (level_nodes L l (2 * q) (2 * m + e)) =
  (level_nodes L (l + 1) q m, level_nodes L l (2 * q + 2 * Z.of_nat m) e).
Proof.
  intros Hl. assert (0 < 2 ^ (l + 1)) by (apply pow2_pos; lia).
  revert q. induction m as [|m IH]; intros q Hq He Hb.
  { rewrite Nat.mul_0_r, Nat.add_0_l, Z.mul_0_r, Z.add_0_r.
    destruct e as [|[|e]]; [done|done|lia]. }
  replace (2 * S m + e)%nat with (S (S (2 * m + e))) by lia.
  rewrite !(level_nodes_S L l). cbn [hash_pairs].
  replace (2 * q + 1 + 1) with (2 * (q + 1)) by lia. rewrite IH; [|lia|lia|lia].
  rewrite (level_nodes_S L (l + 1)). rewrite nhash_step; [|lia|nia]. f_equal.
  f_equal. lia.
Qed.

Lemma range_level_honest L l a m lefts rights :
  valid_node l a -> l < 63 -> (0 < m)%nat ->
  let b := a + Z.of_nat m - 1 in
  b * 2 ^ l < Z.of_nat (length L) ->
  range_level (inorder l a) (level_nodes L l a m)
    ((if Z.odd a then [nhash L l (a - 1)] else []) ++ lefts)
    ((if Z.even b then [nhash L l (b + 1)] else []) ++ rights) =
  Ok (level_nodes L (l + 1) (a / 2) (Z.to_nat (b / 2 - a / 2 + 1)), lefts, rights).
Proof.
  intros Hv Hl Hm b Hb. pose proof (valid_node_bounds _ _ Hv) as (? & ? & ?).
  assert (0 < 2 ^ l) by (apply pow2_pos; lia).
  assert (Hp1 : 2 ^ (l + 1) = 2 * 2 ^ l) by (rewrite Z.pow_add_r; lia).
  assert (Hstep : forall q, 2 * q * 2 ^ l < Z.of_nat (length L) ->
    hash_internal (nhash L l (2 * q)) (nhash L l (2 * q + 1)) = nhash L (l + 1) q).
  { intros q Hq. symmetry. apply nhash_step; [lia|]. rewrite Hp1. lia. }
  unfold range_level, Position.is_right_child. rewrite is_left_child_inorder, Z.negb_even by done.
  destruct (parity_odd_even a) as (qa & <- & [(Ea & Ha & _)|(Ea & Ha & _)]);
    destruct (parity_odd_even b) as (qb & <- & [(Eb & _ & He)|(Eb & _ & He)]);
    rewrite Ha, He; clear Ha He; cbn.
  - (* first even, last even *)
    rewrite Ea. replace m with (2 * Z.to_nat (qb - qa) + 1)%nat by lia.
    rewrite hash_pairs_level_nodes; [|lia|lia|lia|nia]. rewrite Z2Nat.id by lia.
    replace (2 * qa + 2 * (qb - qa)) with (2 * qb) by lia. cbn.
    rewrite Z.add_0_r, Eb, Hstep by lia. rewrite <- level_nodes_snoc by lia. do 4 f_equal. lia.
  - (* first even, last odd *)
    rewrite Ea. replace m with (2 * Z.to_nat (qb - qa + 1) + 0)%nat by lia.
    rewrite hash_pairs_level_nodes; [|lia|lia|lia|nia]. cbn. by rewrite app_nil_r.
  - (* first odd, last even *)
    replace m with (S (2 * Z.to_nat (qb - qa - 1) + 1)) by lia. rewrite level_nodes_S. cbn -[Nat.mul Nat.add Z.mul].
    replace (a + 1) with (2 * (qa + 1)) by lia.
    rewrite hash_pairs_level_nodes; [|lia|lia|lia|nia]. rewrite Z2Nat.id by lia.
    replace (2 * (qa + 1) + 2 * (qb - qa - 1)) with (2 * qb) by lia. cbn.
    rewrite Z.add_0_r, Eb, Ea, Hstep by lia. replace (2 * qa + 1 - 1) with (2 * qa) by lia.
    rewrite Hstep by nia. rewrite <- level_nodes_snoc by lia.
    replace (Z.to_nat (qb - qa + 1)) with (S (S (Z.to_nat (qb - qa - 1)))) by lia.
    by rewrite (level_nodes_S _ _ qa).
  - (* first odd, last odd *)
    replace m with (S (2 * Z.to_nat (qb - qa) + 0)) by lia. rewrite level_nodes_S. cbn -[Nat.mul Nat.add Z.mul].
    replace (a + 1) with (2 * (qa + 1)) by lia.
    rewrite hash_pairs_level_nodes; [|lia|lia|lia|nia]. cbn. rewrite app_nil_r.
    rewrite Ea. replace (2 * qa + 1 - 1) with (2 * qa) by lia. rewrite Hstep by nia.
    replace (Z.to_nat (qb - qa + 1)) with (S (Z.to_nat (qb - qa))) by lia. by rewrite level_nodes_S.
Qed.

Lemma range_loop_honest L d : forall fuel l a m,
  valid_node l a -> l + Z.of_nat d <= 63 -> (0 < m)%nat ->
  let b := a + Z.of_nat m - 1 in
  b * 2 ^ l < Z.of_nat (length L) -> a / 2 ^ Z.of_nat d = b / 2 ^ Z.of_nat d ->
  (m + length (honest_lefts L d l a) + length (honest_rights L d l b) <= fuel)%nat ->
  range_loop fuel (inorder l a) (level_nodes L l a m) (honest_lefts L d l a) (honest_rights L d l b) =
  Ok [nhash L (l + Z.of_nat d) (a / 2 ^ Z.of_nat d)].
Proof.
  induction d as [|d IH]; intros fuel l a m Hv Hl Hm b Hb Hab Hf.
  { change (2 ^ Z.of_nat 0) with 1 in *. rewrite !Z.div_1_r in *. assert (m = 1%nat) as -> by lia.
    destruct fuel; cbn; by rewrite !Z.add_0_r. }
  pose proof (valid_node_bounds _ _ Hv) as (? & ? & ?).
  assert (0 < 2 ^ l) by (apply pow2_pos; lia).
  assert (Hdiv : a / 2 <= b / 2) by (apply Z.div_le_mono; lia).
  assert (Hcond : (1 <? Z.of_nat (length (level_nodes L l a m))) ||
      negb (is_nil (honest_lefts L (S d) l a)) || negb (is_nil (honest_rights L (S d) l b)) = true).
  { unfold level_nodes. rewrite length_map, length_seq. destruct (Z.ltb_spec 1 (Z.of_nat m)); [done|].
    assert (b = a) as -> by lia. cbn [honest_lefts honest_rights]. rewrite <- Z.negb_odd.
    destruct (Z.odd a); cbn; [done|by rewrite orb_true_r]. }
  destruct fuel as [|fuel]; [lia|]. cbn [range_loop]. rewrite Hcond. cbn [honest_lefts honest_rights].
  rewrite range_level_honest by (lia || done). cbn [mbind result_bind].
  rewrite parent_inorder by (done || lia). fold b. rewrite !div_pow2_succ in Hab. rewrite div_pow2_succ.
  assert (Eb : b / 2 = a / 2 + Z.of_nat (Z.to_nat (b / 2 - a / 2 + 1)) - 1) by lia.
  rewrite Eb. replace (l + Z.of_nat (S d)) with (l + 1 + Z.of_nat d) by lia.
  rewrite Eb in Hab. replace (Z.to_nat (_ - a / 2 + 1)) with (Z.to_nat (b / 2 - a / 2 + 1)) by lia.
  apply IH; [apply valid_node_parent; [done|lia]|lia|lia| |done|].
  - rewrite <- Eb, Z.pow_add_r by lia. pose proof (Z.mul_div_le b 2). nia.
  - rewrite <- Eb. cbn [honest_lefts honest_rights] in Hf. rewrite !length_app in Hf.
    destruct (parity_odd_even a) as (qa & Eqa & [(Ea & Ha & _)|(Ea & Ha & _)]);
      destruct (parity_odd_even b) as (qb & Eqb & [(Ebb & _ & He)|(Ebb & _ & He)]);
      rewrite Ha, He in Hf; cbn [length] in Hf; lia.
Qed.

Lemma honest_lefts_length L d : forall l a, (length (honest_lefts L d l a) <= d)%nat.
Proof.
  induction d as [|d IH]; intros l a; cbn; [done|]. rewrite length_app. specialize (IH (l + 1) (a / 2)).
  destruct (Z.odd a); cbn; lia.
Qed.

Lemma honest_rights_length L d : forall l b, (length (honest_rights L d l b) <= d)%nat.
Proof.
  induction d as [|d IH]; intros l b; cbn; [done|]. rewrite length_app. specialize (IH (l + 1) (b / 2)).
  destruct (Z.even b); cbn; lia.
Qed.

Lemma leaf_slice L m : forall i, 0 <= i -> i + Z.of_nat m <= Z.of_nat (length L) ->
  take m (drop (Z.to_nat i) L) = level_nodes L 0 i m.
Proof.
  induction m as [|m IH]; intros i Hi Hm; [done|]. rewrite level_nodes_S.
  destruct (lookup_lt_is_Some_2 L (Z.to_nat i)) as [h Hh]; [lia|].
  rewrite (drop_S _ h) by done. cbn. f_equal.
  - symmetry. by apply nhash_leaf.
  - rewrite <- IH by lia. do 2 f_equal. lia.
Qed.

Lemma range_complete L i m : 0 <= i -> (0 < m)%nat -> Z.of_nat (length L) <= 2 ^ 63 ->
  i + Z.of_nat m <= Z.of_nat (length L) ->
  let d := Z.to_nat (root_level (Z.of_nat (length L))) in
  range_proof_verify
    {| left_siblings := honest_lefts L d 0 i;
       right_siblings := honest_rights L d 0 (i + Z.of_nat m - 1) |}
    (tree_root L) (Some i) (take m (drop (Z.to_nat i) L)) = Ok tt.
Proof.
  intros Hi Hm Hlen Him d. pose proof (root_level_bound (Z.of_nat (length L)) ltac:(lia)) as Hrl.
  pose proof (root_level_spec (Z.of_nat (length L)) ltac:(lia)) as [Hr _].
  assert (E : take m (drop (Z.to_nat i) L) = level_nodes L 0 i m) by (apply leaf_slice; lia).
  rewrite E. unfold range_proof_verify. cbn [left_siblings right_siblings].
  assert (Hl : forall a, (length (honest_lefts L d 0 a) <= d)%nat) by (intros; apply honest_lefts_length).
  assert (Hr' : forall a, (length (honest_rights L d 0 a) <= d)%nat) by (intros; apply honest_rights_length).
  specialize (Hl i). specialize (Hr' (i + Z.of_nat m - 1)). unfold MAX_ACCUMULATOR_PROOF_DEPTH.
  destruct (Z.leb_spec (Z.of_nat (length (honest_lefts L d 0 i))) 63); [|lia].
  destruct (Z.leb_spec (Z.of_nat (length (honest_rights L d 0 (i + Z.of_nat m - 1)))) 63); [|lia].
  destruct m as [|m]; [lia|]. rewrite level_nodes_S. cbn [ensure mbind result_bind is_nil negb].
  rewrite <- level_nodes_S, from_leaf_index_inorder by lia.
  replace (2 * i) with (inorder 0 i) by (unfold inorder; lia).
  rewrite range_loop_honest; try (change (2 ^ 0) with 1; lia).
  - cbn. rewrite Z.add_0_l. unfold d. rewrite Z2Nat.id, Z.div_small by lia.
    rewrite bool_decide_eq_true_2; done.
  - split_and!; [lia|lia|]. change (0 + 1) with 1. lia.
  - unfold d. rewrite Z2Nat.id by lia. rewrite !Z.div_small by lia. done.
  - unfold level_nodes. rewrite length_map, length_seq. done.
Qed.

(** *** Soundness of range proofs *)

Fixpoint chunk_pairs (s : list HashValue) : list (HashValue * HashValue) :=
  match s with
  | a :: b :: s => (a, b) :: chunk_pairs s
  | _ => []
  end.

(** The pairs one iteration of the range verifier hashes. *)
Definition level_pairs (first_pos : Z) (hs lefts rights : list HashValue) : list (HashValue * HashValue) :=
  let s := (if Position.is_right_child first_pos then take 1 lefts else []) ++ hs in
  chunk_pairs (s ++ if Nat.even (length s) then [] else take 1 rights).

Fixpoint range_pairs (fuel : nat) (first_pos : Z) (hs lefts rights : list HashValue)
    : list (HashValue * HashValue) :=
  match fuel with
  | O => []
  | S fuel =>
    level_pairs first_pos hs lefts rights ++
    match range_level first_pos hs lefts rights with
    | Ok (hs, lefts, rights) => range_pairs fuel (Position.parent first_pos) hs lefts rights
    | _ => []
    end
  end.

Lemma list_pair_ind {A} (P : list A -> Prop) :
  P [] -> (forall x, P [x]) -> (forall x y s, P s -> P (x :: y :: s)) -> forall s, P s.
Proof. intros H0 H1 H2. fix F 1. intros [|x [|y s]]; [exact H0|apply H1|apply H2, F]. Qed.

(** [chunks_exact(2)] hashes the pairs and leaves the last child of an odd list. *)
Lemma hash_pairs_spec s :
  (Nat.even (length s) = true /\ hash_pairs s = (map hash_pair (chunk_pairs s), [])) \/
  (Nat.even (length s) = false /\ exists x, hash_pairs s = (map hash_pair (chunk_pairs s), [x]) /\
     forall y, chunk_pairs (s ++ [y]) = chunk_pairs s ++ [(x, y)]).
Proof.
  induction s as [|x|x y s [(Ho & E)|(Ho & z & E & Hz)]] using list_pair_ind; cbn.
  - by left.
  - right. split; [done|]. by exists x.
  - left. rewrite E. by split.
  - right. split; [done|]. exists z. rewrite E. split; [done|]. intros w. by rewrite Hz.
Qed.

Lemma chunk_pairs_inj s : forall t, length s = length t -> Nat.even (length s) = true ->
  chunk_pairs s = chunk_pairs t -> s = t.
Proof.
  induction s as [|x|x y s IH] using list_pair_ind; intros [|x' [|y' t]]; try done.
  cbn. intros [= Hl] Ho [= -> -> Hc]. by rewrite (IH t).
Qed.

Lemma chunk_pairs_length s : Nat.even (length s) = true -> (2 * length (chunk_pairs s) = length s)%nat.
Proof.
  induction s as [|x|x y s IH] using list_pair_ind; cbn; try done. intros Ho. specialize (IH Ho). lia.
Qed.

(** What an iteration consumes and produces. *)
Lemma range_level_inv first_pos hs lefts rights out lefts' rights' :
  range_level first_pos hs lefts rights = Ok (out, lefts', rights') ->
  let pl := if Position.is_right_child first_pos then take 1 lefts else [] in
  let pr := if Nat.even (length (pl ++ hs)) then [] else take 1 rights in
  lefts = pl ++ lefts' /\ rights = pr ++ rights' /\
  length pl = (if Position.is_right_child first_pos then 1 else 0)%nat /\
  Nat.even (length ((pl ++ hs) ++ pr)) = true /\
  out = map hash_pair (level_pairs first_pos hs lefts rights).
Proof.
  unfold range_level, level_pairs. destruct (Position.is_right_child first_pos); cbn.
  - destruct lefts as [|lh lefts]; [done|]. destruct hs as [|h hs]; [done|]. cbn.
    rewrite !take_0. cbn. destruct (hash_pairs_spec hs) as [(Ho & E)|(Ho & x & E & Hx)]; rewrite E, Ho; cbn.
    + intros [= <- <- <-]. by rewrite !app_nil_r.
    + destruct rights as [|r rights]; [done|]. cbn. rewrite !take_0. intros [= <- <- <-].
      rewrite Hx, map_app, length_app, Nat.even_add, Ho. done.
  - destruct (hash_pairs_spec hs) as [(Ho & E)|(Ho & x & E & Hx)]; rewrite E, Ho; cbn.
    + intros [= <- <- <-]. by rewrite !app_nil_r.
    + destruct rights as [|r rights]; [done|]. cbn. rewrite !take_0. intros [= <- <- <-].
      rewrite Hx, map_app, length_app, Nat.even_add, Ho. done.
Qed.

Lemma collision_mono l1 l2 l1' l2' :
  incl l1 l1' -> incl l2 l2' -> collision l1 l2 -> collision l1' l2'.
Proof. intros H1 H2 (a & b & Ha & Hb & Hab). exists a, b. split_and!; [by apply H1|by apply H2|apply Hab..]. Qed.

Lemma collision_cons a b l1 l2 : collision l1 l2 -> collision (a :: l1) (b :: l2).
Proof. apply collision_mono; apply incl_tl, incl_refl. Qed.

Lemma pair_or_collision a b l1 l2 : hash_pair a = hash_pair b -> a = b \/ collision (a :: l1) (b :: l2).
Proof.
  intros Hab. destruct (decide (a = b)) as [->|Hne]; [by left|right].
  exists a, b. split_and!; [by left|by left|done|done].
Qed.

Lemma map_hash_pair_inj p1 : forall p2, map hash_pair p1 = map hash_pair p2 -> p1 = p2 \/ collision p1 p2.
Proof.
  induction p1 as [|a p1 IH]; intros [|b p2]; try done; [by left|]. cbn [map]. intros [= Hab Hp].
  destruct (pair_or_collision a b p1 p2 Hab) as [->|Hc]; [|by right].
  destruct (IH _ Hp) as [->|Hc]; [by left|right; by apply collision_cons].
Qed.

(** Two iterations on inputs of the same shape with the same output. *)
Lemma range_level_injective first_pos hs1 ls1 rs1 hs2 ls2 rs2 out1 out2 ls1' rs1' ls2' rs2' :
  length hs1 = length hs2 ->
  range_level first_pos hs1 ls1 rs1 = Ok (out1, ls1', rs1') ->
  range_level first_pos hs2 ls2 rs2 = Ok (out2, ls2', rs2') ->
  length ls1 = length ls2 -> length rs1 = length rs2 ->
  (length ls1' = length ls2' /\ length rs1' = length rs2' /\ length out1 = length out2) /\
  (out1 = out2 -> ls1' = ls2' -> rs1' = rs2' ->
   (hs1 = hs2 /\ ls1 = ls2 /\ rs1 = rs2) \/
   collision (level_pairs first_pos hs1 ls1 rs1) (level_pairs first_pos hs2 ls2 rs2)).
Proof.
  intros Hh E1 E2 Hl Hr. apply range_level_inv in E1, E2. unfold level_pairs in *.
  set (pl1 := if Position.is_right_child first_pos then take 1 ls1 else []) in *.
  set (pl2 := if Position.is_right_child first_pos then take 1 ls2 else []) in *.
  destruct E1 as (El1 & Er1 & Hpl1 & Ho1 & Hout1). destruct E2 as (El2 & Er2 & Hpl2 & Ho2 & Hout2).
  assert (Hpl : length pl1 = length pl2) by congruence.
  assert (Hs : length (pl1 ++ hs1) = length (pl2 ++ hs2)) by (rewrite !length_app; lia).
  rewrite <- Hs in *.
  set (pr1 := if Nat.even (length (pl1 ++ hs1)) then [] else take 1 rs1) in *.
  set (pr2 := if Nat.even (length (pl1 ++ hs1)) then [] else take 1 rs2) in *.
  assert (Hpr : length pr1 = length pr2).
  { unfold pr1, pr2. destruct (Nat.even _); rewrite ?length_take; lia. }
  assert (Hlen : length ((pl1 ++ hs1) ++ pr1) = length ((pl2 ++ hs2) ++ pr2))
    by (rewrite (length_app _ pr1), (length_app _ pr2); lia).
  split.
  - apply chunk_pairs_length in Ho1, Ho2.
    rewrite Hout1, Hout2, !length_map. rewrite El1, El2, !length_app in Hl.
    rewrite Er1, Er2, !length_app in Hr. lia.
  - intros -> -> ->. rewrite Hout1 in Hout2. apply map_hash_pair_inj in Hout2 as [Hc|Hc]; [|by right].
    left. apply chunk_pairs_inj in Hc; [|done|done].
    apply app_inj_1 in Hc as [Hc Epr]; [|done]. apply app_inj_1 in Hc as [Epl ->]; [|done].
    split_and!; congruence.
Qed.

Lemma range_loop_injective fuel : forall first_pos hs1 ls1 rs1 hs2 ls2 rs2 out,
  length hs1 = length hs2 -> length ls1 = length ls2 -> length rs1 = length rs2 ->
  range_loop fuel first_pos hs1 ls1 rs1 = Ok out -> range_loop fuel first_pos hs2 ls2 rs2 = Ok out ->
  (hs1 = hs2 /\ ls1 = ls2 /\ rs1 = rs2) \/
  collision (range_pairs fuel first_pos hs1 ls1 rs1) (range_pairs fuel first_pos hs2 ls2 rs2).
Proof.
  assert (Hnil : forall (l1 l2 : list HashValue), length l1 = length l2 -> is_nil l1 = is_nil l2)
    by (intros [] []; done).
  induction fuel as [|fuel IH]; intros first_pos hs1 ls1 rs1 hs2 ls2 rs2 out Hh Hl Hr E1 E2;
    cbn [range_loop] in E1, E2; rewrite <- Hh, <- (Hnil _ _ Hl), <- (Hnil _ _ Hr) in E2;
    destruct ((1 <? Z.of_nat (length hs1)) || negb (is_nil ls1) || negb (is_nil rs1)) eqn:Hc;
    try done.
  1,3: left; apply orb_false_iff in Hc as [[_ Hc]%orb_false_iff Hc'];
    destruct ls1, ls2, rs1, rs2; try done; split_and!; congruence.
  destruct (range_level first_pos hs1 ls1 rs1) as [[[o1 ls1'] rs1']| |] eqn:R1; try done.
  destruct (range_level first_pos hs2 ls2 rs2) as [[[o2 ls2'] rs2']| |] eqn:R2; try done.
  destruct (range_level_injective _ _ _ _ _ _ _ _ _ _ _ _ _ Hh R1 R2 Hl Hr) as [(Hl' & Hr' & Ho) Hinj].
  cbn [mbind result_bind] in E1, E2. cbn [range_pairs]. rewrite R1, R2.
  destruct (IH _ _ _ _ _ _ _ _ Ho Hl' Hr' E1 E2) as [(-> & -> & ->)|Hcol].
  - destruct (Hinj eq_refl eq_refl eq_refl) as [?|Hcol]; [by left|right].
    eapply collision_mono; [| |exact Hcol]; apply incl_appl, incl_refl.
  - right. eapply collision_mono; [| |exact Hcol]; apply incl_appr, incl_refl.
Qed.

Lemma range_loop_singleton fuel : forall first_pos hs ls rs out,
  range_loop fuel first_pos hs ls rs = Ok out -> (length out <= 1)%nat.
Proof.
  induction fuel as [|fuel IH]; intros first_pos hs ls rs out E; cbn [range_loop] in E;
    destruct ((1 <? Z.of_nat (length hs)) || negb (is_nil ls) || negb (is_nil rs)) eqn:Hc; try done.
  1,3: injection E as <-; apply orb_false_iff in Hc as [[Hc _]%orb_false_iff _];
    apply Z.ltb_ge in Hc; lia.
  destruct (range_level first_pos hs ls rs) as [[[o ls'] rs']| |]; try done. by apply IH in E.
Qed.

(** What the verifier of a range proof hashes. *)
Definition range_verify_pairs (pf : AccumulatorRangeProof) (first_leaf_index : Z) (leaf_hashes : list HashValue) :=
  range_pairs (length leaf_hashes + length (left_siblings pf) + length (right_siblings pf))
    (Position.from_leaf_index first_leaf_index) leaf_hashes (left_siblings pf) (right_siblings pf).

Lemma range_verify_loop pf root i hs :
  range_proof_verify pf root (Some i) hs = Ok tt ->
  range_loop (length hs + length (left_siblings pf) + length (right_siblings pf))
    (Position.from_leaf_index i) hs (left_siblings pf) (right_siblings pf) = Ok [root].
Proof.
  unfold range_proof_verify. intros Hv. res_inv. apply range_loop_singleton in H2 as Hlen. rewrite H2.
  destruct x2 as [|? []]; cbn in *; [done| |lia]. by simplify_eq.
Qed.

(** A range proof with the right numbers of siblings that verifies against the root proves
    exactly the leaves at these indices, or exhibits a collision of the internal hash.  *)
Theorem range_sound L i hs pf : 0 <= i -> (0 < length hs)%nat -> Z.of_nat (length L) <= 2 ^ 63 ->
  i + Z.of_nat (length hs) <= Z.of_nat (length L) ->
  let d := Z.to_nat (root_level (Z.of_nat (length L))) in
  let honest := {| left_siblings := honest_lefts L d 0 i;
                   right_siblings := honest_rights L d 0 (i + Z.of_nat (length hs) - 1) |} in
  let leaves := take (length hs) (drop (Z.to_nat i) L) in
  length (left_siblings pf) = length (left_siblings honest) ->
  length (right_siblings pf) = length (right_siblings honest) ->
  range_proof_verify pf (tree_root L) (Some i) hs = Ok tt ->
  hs = leaves \/ collision (range_verify_pairs pf i hs) (range_verify_pairs honest i leaves).
Proof.
  intros Hi Hm Hlen Him d honest leaves Hl Hr Hv.
  pose proof (range_complete L i (length hs) Hi Hm Hlen Him) as Hc.
  apply range_verify_loop in Hv, Hc. fold d in Hc. fold honest in Hc.
  assert (Hh : length hs = length leaves) by (unfold leaves; rewrite length_take, length_drop; lia).
  fold leaves in Hc. rewrite <- Hh, <- Hl, <- Hr in Hc. unfold range_verify_pairs.
  rewrite <- Hh, <- Hl, <- Hr.
  destruct (range_loop_injective _ _ _ _ _ _ _ _ _ Hh Hl Hr Hv Hc) as [(? & _)|?]; [by left|by right].
Qed.

(** ** Extension proofs *)

(** The pairs [compute_root_hash] hashes. *)
Fixpoint root_loop_pairs (fuel : nat) (bitmap : Z) (iter : list HashValue) (current_hash : HashValue)
    : list (HashValue * HashValue) :=
  match fuel with
  | O => []
  | S fuel =>
    if bitmap =? 0 then []
    else if Z.land bitmap 1 =? 0 then
      (current_hash, ACCUMULATOR_PLACEHOLDER_HASH) ::
      root_loop_pairs fuel (u64_shr bitmap 1) iter (hash_internal current_hash ACCUMULATOR_PLACEHOLDER_HASH)
    else match iter with
         | [] => []
         | h :: iter =>
           (h, current_hash) :: root_loop_pairs fuel (u64_shr bitmap 1) iter (hash_internal h current_hash)
         end
  end.

Definition root_pairs (roots : list HashValue) (n : Z) : list (HashValue * HashValue) :=
  root_loop_pairs 64 (u64_shr n (trailing_zeros64 n)) (rev roots) ACCUMULATOR_PLACEHOLDER_HASH.

Notation compute_root_loop := (compute_root_loop hash_internal ACCUMULATOR_PLACEHOLDER_HASH).
Notation compute_root_hash := (compute_root_hash hash_internal ACCUMULATOR_PLACEHOLDER_HASH).

Lemma compute_root_loop_injective fuel : forall b i1 i2 h1 h2 r,
  0 <= b < 2 ^ Z.of_nat fuel -> Z.of_nat (length i1) = count_ones64 b -> length i1 = length i2 ->
  compute_root_loop fuel b i1 h1 = Ok r -> compute_root_loop fuel b i2 h2 = Ok r ->
  (i1 = i2 /\ h1 = h2) \/ collision (root_loop_pairs fuel b i1 h1) (root_loop_pairs fuel b i2 h2).
Proof.
  induction fuel as [|fuel IH]; intros b i1 i2 h1 h2 r Hb H1 H12 E1 E2.
  { assert (b = 0) as -> by (change (2 ^ Z.of_nat 0) with 1 in Hb; lia). cbn in *.
    destruct i1, i2; try done. left. by simplify_eq. }
  rewrite Nat2Z.inj_succ, Z.pow_succ_r in Hb by lia.
  cbn [Accumulator.compute_root_loop root_loop_pairs] in *. destruct (Z.eqb_spec b 0) as [->|Hb0].
  { destruct i1, i2; try done. left. by simplify_eq. }
  change (Z.land b 1) with (Z.land b (Z.ones 1)) in *. rewrite Z.land_ones in * by done.
  change (2 ^ 1) with 2 in *. unfold u64_shr in *. rewrite Z.shiftr_div_pow2 in * by done.
  change (2 ^ 1) with 2 in *.
  revert E1 E2. destruct (parity_cases b) as (q & <- & [[Eb ->]|[Eb ->]]); cbn; intros E1 E2.
  - rewrite Eb, count_ones64_double in H1 by lia.
    destruct (IH q i1 i2 _ _ r ltac:(lia) H1 H12 E1 E2) as [[-> Hh]|Hc]; [|right; by apply collision_cons].
    edestruct (pair_or_collision (h1, ACCUMULATOR_PLACEHOLDER_HASH) (h2, ACCUMULATOR_PLACEHOLDER_HASH))
       as [[= ->]|Hc]; [exact Hh|by left|right; exact Hc].
  - rewrite Eb, count_ones64_double_succ in H1 by lia. pose proof (count_ones64_nonneg q).
    destruct i1 as [|x1 i1], i2 as [|x2 i2]; try done. cbn [length] in H1, H12.
    destruct (IH q i1 i2 _ _ r ltac:(lia) ltac:(lia) ltac:(lia) E1 E2) as [[-> Hh]|Hc];
      [|right; by apply collision_cons].
    edestruct (pair_or_collision (x1, h1) (x2, h2)) as [[= -> ->]|Hc]; [exact Hh|by left|right; exact Hc].
Qed.

Lemma compute_root_hash_many x y t n :
  compute_root_hash (x :: y :: t) n =
  compute_root_loop 64 (u64_shr n (trailing_zeros64 n)) (rev (x :: y :: t)) ACCUMULATOR_PLACEHOLDER_HASH.
Proof. reflexivity. Qed.

Lemma compute_root_hash_injective roots1 roots2 n r : is_u64 n ->
  Z.of_nat (length roots1) = count_ones64 n -> length roots1 = length roots2 ->
  compute_root_hash roots1 n = Ok r -> compute_root_hash roots2 n = Ok r ->
  roots1 = roots2 \/ collision (root_pairs roots1 n) (root_pairs roots2 n).
Proof.
  intros Hn H1 H12 E1 E2.
  destruct roots1 as [|x1 [|y1 t1]], roots2 as [|x2 [|y2 t2]]; try discriminate H12;
    [by left|left; cbn [Accumulator.compute_root_hash] in *; congruence|].
  rewrite compute_root_hash_many in E1, E2. unfold root_pairs.
  destruct (decide (n = 0)) as [->|Hn0]; [discriminate H1|]. unfold is_u64 in Hn.
  destruct (trailing_zeros64_decomp n) as (q & Hq & Ht & En); [lia|].
  assert (Hp : 0 < 2 ^ trailing_zeros64 n) by (apply pow2_pos; lia).
  assert (Eb : u64_shr n (trailing_zeros64 n) = 2 * q + 1).
  { unfold u64_shr. rewrite Z.shiftr_div_pow2 by done. rewrite En at 1. by rewrite Z.div_mul by lia. }
  rewrite Eb in *. rewrite En, count_ones64_pow2_mul in H1 by lia.
  edestruct (compute_root_loop_injective 64 (2 * q + 1)) as [[Hr _]|Hc]; [| | |exact E1|exact E2| |by right].
  - change (Z.of_nat 64) with 64. nia.
  - by rewrite length_rev.
  - by rewrite !length_rev.
  - left. by rewrite <- (rev_involutive (x1 :: y1 :: t1)), Hr, rev_involutive.
Qed.

Notation accumulator_of := (accumulator_of hash_internal ACCUMULATOR_PLACEHOLDER_HASH).
Notation frozen_hashes := (frozen_hashes hash_internal ACCUMULATOR_PLACEHOLDER_HASH).

Lemma extension_complete L leaves : Z.of_nat (length (L ++ leaves)) < 2 ^ 64 ->
  extension_proof_verify
    {| ext_frozen_subtree_roots := frozen_hashes L (frozen_nodes 0 (Z.of_nat (length L)));
       ext_num_leaves := Z.of_nat (length L); ext_leaves := leaves |} (tree_root L) =
  Ok (accumulator_of (L ++ leaves)).
Proof.
  intros Hlen. unfold extension_proof_verify. cbn [ext_frozen_subtree_roots ext_num_leaves ext_leaves].
  rewrite length_app in Hlen. rewrite accumulator_new_correct by lia. cbn [mbind result_bind].
  rewrite bool_decide_eq_true_2 by done. cbn [ensure mbind result_bind].
  apply append_accumulator_of. rewrite length_app. lia.
Qed.

(** C27: An extension proof for the right number of leaves that verifies against the root of
    [L] yields the accumulator of [L] with the new leaves, or exhibits a collision.  *)
Theorem extension_sound L pf acc : Z.of_nat (length (L ++ ext_leaves pf)) < 2 ^ 64 ->
  ext_num_leaves pf = Z.of_nat (length L) ->
  extension_proof_verify pf (tree_root L) = Ok acc ->
  acc = accumulator_of (L ++ ext_leaves pf) \/
  collision (root_pairs (ext_frozen_subtree_roots pf) (ext_num_leaves pf))
    (root_pairs (frozen_hashes L (frozen_nodes 0 (Z.of_nat (length L)))) (Z.of_nat (length L))).
Proof.
  intros Hlen Hn E. rewrite length_app in Hlen. destruct pf as [roots n leaves].
  cbn [ext_frozen_subtree_roots ext_num_leaves ext_leaves] in *. subst n.
  unfold extension_proof_verify, accumulator_new in E.
  cbn [ext_frozen_subtree_roots ext_num_leaves ext_leaves] in E.
  res_inv. rename select (compute_root_hash _ _ = _) into Hroot. rename select (append _ _ _ _ = _) into Happ.
  rename select (_ =? _ = true) into H. apply Z.eqb_eq in H.
  destruct (compute_root_hash_injective roots (frozen_hashes L (frozen_nodes 0 (Z.of_nat (length L))))
    (Z.of_nat (length L)) (tree_root L)) as [->|Hc]; [| | |exact Hroot| | |right; exact Hc].
  - unfold is_u64. lia.
  - exact H.
  - apply Nat2Z.inj. rewrite H. symmetry. apply frozen_hashes_length. lia.
  - apply compute_root_hash_correct. lia.
  - left. change (mkInMemoryAccumulator _ _ _) with (accumulator_of L) in Happ.
    rewrite append_accumulator_of in Happ by (rewrite length_app; lia). congruence.
Qed.

Lemma accumulator_new_single h n : count_ones64 n = 1 ->
  accumulator_new hash_internal ACCUMULATOR_PLACEHOLDER_HASH [h] n =
  Ok {| frozen_subtree_roots := [h]; num_leaves := n; root_hash := h |}.
Proof. intros Hc. unfold accumulator_new. cbn [length]. rewrite Hc. done. Qed.

(** C39: The number of leaves in an extension proof is not authenticated: a proof with a single
    frozen subtree verifies against that subtree's root for every power of two claimed as the number
    of leaves, so the resulting version is the prover's choice. *)
Theorem extension_version_unauthenticated h j : 0 <= j < 64 ->
  exists acc, extension_proof_verify
      {| ext_frozen_subtree_roots := [h]; ext_num_leaves := 2 ^ j; ext_leaves := [] |} h = Ok acc /\
    root_hash acc = h /\ accumulator_version acc = 2 ^ j - 1.
Proof.
  intros Hj. assert (0 < 2 ^ j) by (apply pow2_pos; lia).
  assert (2 ^ j < 2 ^ 64) by (apply Z.pow_lt_mono_r; lia).
  assert (Hc : count_ones64 (2 ^ j) = 1).
  { replace (2 ^ j) with (1 * 2 ^ j) by lia. rewrite count_ones64_pow2_mul by lia. done. }
  exists {| frozen_subtree_roots := [h]; num_leaves := 2 ^ j; root_hash := h |}. split_and!; [|done|].
  - unfold extension_proof_verify. cbn [ext_frozen_subtree_roots ext_num_leaves ext_leaves].
    rewrite accumulator_new_single by done. cbn [mbind result_bind root_hash].
    rewrite bool_decide_eq_true_2 by done. cbn [ensure mbind result_bind].
    unfold append. cbn [result_fold mbind result_bind frozen_subtree_roots num_leaves].
    by rewrite accumulator_new_single.
  - unfold accumulator_version. cbn [num_leaves]. destruct (Z.eqb_spec (2 ^ j) 0); [lia|].
    apply u64_sub_small; lia.
Qed.
End AccumulatorProof.
