(* ===== verification/ProofSoundness.v ===== *)
(** * Soundness of accumulator proofs of any shape

    A verifier of [types/src/proof/definition.rs] does not know the shape of the
    tree: it accepts proofs with any number of siblings up to the maximum.  What
    keeps a node of the tree from passing for a leaf, or a leaf for a node, is that
    the hashers of leaves and of internal nodes are different.  Here a hash value
    comes with its preimage, a leaf, a pair of children or the placeholder, and a
    proof that is accepted either proves the truth or exhibits two different
    preimages with the same hash, one computed by the verifier and one of the tree. *)

From S2P Require Import Prelude U64 Position Accumulator AccumulatorProof.

Section ProofSoundness.
Context {HashValue : Type} `{!EqDecision HashValue}.
Context (hash_internal : HashValue -> HashValue -> HashValue).
Context (ACCUMULATOR_PLACEHOLDER_HASH : HashValue).
Context {T : Type} `{!EqDecision T} (leaf_hash : T -> HashValue).

Notation nhash := (nhash hash_internal ACCUMULATOR_PLACEHOLDER_HASH).
Notation tree_root := (tree_root hash_internal ACCUMULATOR_PLACEHOLDER_HASH).
Notation level_nodes := (level_nodes hash_internal ACCUMULATOR_PLACEHOLDER_HASH).

(** What was hashed. *)
Inductive preimage :=
| PPlaceholder
| PLeaf (x : T)
| PInternal (left right : HashValue).

#[global] Instance preimage_eq_dec : EqDecision preimage.
Proof. solve_decision. Defined.

Definition preimage_hash (p : preimage) : HashValue :=
  match p with
  | PPlaceholder => ACCUMULATOR_PLACEHOLDER_HASH
  | PLeaf x => leaf_hash x
  | PInternal l r => hash_internal l r
  end.
Definition pair_preimage (p : HashValue * HashValue) : preimage := PInternal p.1 p.2.

Definition leaves (L : list T) : list HashValue := map leaf_hash L.

(** The preimage of node [p] of level [l] of the tree over [L]. *)
Definition node_preimage (L : list T) (l p : Z) : preimage :=
  if Z.of_nat (length L) <=? p * 2 ^ l then PPlaceholder
  else if l =? 0 then match L !! Z.to_nat p with Some x => PLeaf x | None => PPlaceholder end
  else PInternal (nhash (leaves L) (l - 1) (2 * p)) (nhash (leaves L) (l - 1) (2 * p + 1)).

(** Two different preimages with one hash, the first among [computed], the second a
    node of the tree over [L]. *)
Definition hash_collision (computed : list preimage) (L : list T) : Prop :=
  exists a l p, In a computed /\ 0 <= l /\ 0 <= p /\ a <> node_preimage L l p /\
    preimage_hash a = preimage_hash (node_preimage L l p).

Lemma leaves_length L : length (leaves L) = length L.
Proof. apply length_map. Qed.

Lemma nhash_preimage L l p : 0 <= l -> 0 <= p -> nhash (leaves L) l p = preimage_hash (node_preimage L l p).
Proof.
  intros Hl Hp. unfold node_preimage. destruct (Z.leb_spec (Z.of_nat (length L)) (p * 2 ^ l)).
  { apply nhash_placeholder; [done|]. by rewrite leaves_length. }
  destruct (Z.eqb_spec l 0) as [->|Hne].
  - change (2 ^ 0) with 1 in *. destruct (lookup_lt_is_Some_2 L (Z.to_nat p)) as [x Hx]; [lia|]. rewrite Hx.
    apply nhash_leaf; [done|]. unfold leaves. by rewrite list_lookup_fmap, Hx.
  - cbn. replace l with (l - 1 + 1) at 1 by lia. apply nhash_step; [lia|].
    rewrite leaves_length. by replace (l - 1 + 1) with l by lia.
Qed.

Lemma collision_incl c1 c2 L : incl c1 c2 -> hash_collision c1 L -> hash_collision c2 L.
Proof. intros Hi (a & l & p & Ha & Hr). exists a, l, p. split; [by apply Hi|done]. Qed.

(** A computed hash that is the hash of a node has its preimage, or collides. *)
Lemma preimage_or_collision a L l p : 0 <= l -> 0 <= p -> preimage_hash a = nhash (leaves L) l p ->
  a = node_preimage L l p \/ hash_collision [a] L.
Proof.
  intros Hl Hp E. destruct (decide (a = node_preimage L l p)) as [|Hne]; [by left|right].
  exists a, l, p. rewrite <- nhash_preimage by done. split_and!; [by left|done..].
Qed.

Lemma node_preimage_internal L l p a b : 0 <= l -> node_preimage L l p = PInternal a b ->
  0 < l /\ a = nhash (leaves L) (l - 1) (2 * p) /\ b = nhash (leaves L) (l - 1) (2 * p + 1).
Proof.
  intros Hl. unfold node_preimage. destruct (_ <=? _); [done|]. destruct (Z.eqb_spec l 0).
  - by destruct (L !! Z.to_nat p).
  - intros [= <- <-]. split; [lia|done].
Qed.

Lemma node_preimage_leaf L l p x : 0 <= l -> node_preimage L l p = PLeaf x -> l = 0 /\ L !! Z.to_nat p = Some x.
Proof.
  intros Hl. unfold node_preimage. destruct (_ <=? _); [done|]. destruct (Z.eqb_spec l 0); [|done].
  destruct (L !! Z.to_nat p); [|done]. by intros [= ->].
Qed.

(** ** Inclusion proofs *)

(** The preimages an inclusion verifier computes: the leaf and the pairs. *)
Definition inclusion_preimages (sibs : list HashValue) (x : T) (i : Z) : list preimage :=
  PLeaf x :: map pair_preimage (path_pairs hash_internal sibs (leaf_hash x) i).

Lemma path_pairs_snoc sibs s : forall h i,
  path_pairs hash_internal (sibs ++ [s]) h i =
  path_pairs hash_internal sibs h i ++
  [let '(v, j) := fold_left (proof_step hash_internal) sibs (h, i) in if j mod 2 =? 0 then (v, s) else (s, v)].
Proof.
  induction sibs as [|s' sibs IH]; intros h i; [done|]. cbn [app path_pairs]. rewrite IH. cbn [app]. f_equal.
  rewrite (proof_step_pair hash_internal). unfold hash_pair. by destruct (i mod 2 =? 0).
Qed.

Lemma fold_step_index sibs : forall h i,
  (fold_left (proof_step hash_internal) sibs (h, i)).2 = i / 2 ^ Z.of_nat (length sibs).
Proof.
  induction sibs as [|s sibs IH]; intros h i; cbn [fold_left length].
  - change (2 ^ Z.of_nat 0) with 1. by rewrite Z.div_1_r.
  - unfold proof_step at 2. rewrite IH, div_pow2_succ. done.
Qed.

(** A path that ends in node [p] of level [l] leads down to the node that the bits of
    the index select. *)
Lemma path_sound L x i sibs : forall l p, 0 <= l -> 0 <= p -> 0 <= i ->
  (fold_left (proof_step hash_internal) sibs (leaf_hash x, i)).1 = nhash (leaves L) l p ->
  (l = Z.of_nat (length sibs) /\
   L !! Z.to_nat (p * 2 ^ Z.of_nat (length sibs) + i mod 2 ^ Z.of_nat (length sibs)) = Some x) \/
  hash_collision (inclusion_preimages sibs x i) L.
Proof.
  induction sibs as [|s sibs IH] using rev_ind; intros l p Hl Hp Hi E.
  { cbn in E. destruct (preimage_or_collision (PLeaf x) L l p Hl Hp E) as [Hn|Hc].
    - symmetry in Hn. apply node_preimage_leaf in Hn as [-> Hx]; [|done]. left. split; [done|].
      cbn [length]. change (2 ^ Z.of_nat 0) with 1. by rewrite Z.mod_1_r, Z.mul_1_r, Z.add_0_r.
    - right. eapply collision_incl; [|done]. intros a [<-|[]]. by left. }
  unfold inclusion_preimages. rewrite path_pairs_snoc, map_app. rewrite fold_left_app in E. cbn [fold_left] in E.
  pose proof (fold_step_index sibs (leaf_hash x) i) as Hj.
  destruct (fold_left _ sibs _) as [v j] eqn:Ef. cbn [snd] in Hj. cbn [map].
  set (pair := if j mod 2 =? 0 then (v, s) else (s, v)).
  assert (Ep : preimage_hash (pair_preimage pair) = nhash (leaves L) l p).
  { rewrite <- E. unfold pair, proof_step. by destruct (j mod 2 =? 0). }
  destruct (preimage_or_collision (pair_preimage pair) L l p Hl Hp Ep) as [Hn|Hc].
  2:{ right. eapply collision_incl; [|done]. intros a [<-|[]]. right. apply in_or_app. right. by left. }
  symmetry in Hn. apply node_preimage_internal in Hn as (Hl0 & H1 & H2); [|done].
  set (c := if j mod 2 =? 0 then 0 else 1).
  assert (Hv : v = nhash (leaves L) (l - 1) (2 * p + c)).
  { unfold pair, c in *. destruct (j mod 2 =? 0); cbn in H1, H2; [by rewrite Z.add_0_r|done]. }
  destruct (IH (l - 1) (2 * p + c)) as [[Hlen Hx]|Hc]; [lia|unfold c; destruct (_ =? _); lia|done|done| |].
  - left. rewrite length_app. cbn [length]. split; [lia|]. rewrite <- Hx. do 2 f_equal.
    rewrite Nat2Z.inj_add. change (Z.of_nat 1) with 1. set (k := Z.of_nat (length sibs)) in *.
    rewrite Z.pow_add_r, Z.rem_mul_r by (try lia; apply Z.pow_nonzero; lia). rewrite <- Hj. change (2 ^ 1) with 2.
    assert (c = j mod 2) as ->; [|lia].
    unfold c. pose proof (Z.mod_pos_bound j 2). destruct (Z.eqb_spec (j mod 2) 0); lia.
  - right. eapply collision_incl; [|done]. intros a [<-|Ha]; [by left|]. right. apply in_or_app. by left.
Qed.

(** The verifier looks only at as many bits of the index as there are siblings. *)
Lemma inclusion_sound_mod L pf x i : 0 <= i ->
  accumulator_proof_verify hash_internal pf (tree_root (leaves L)) (leaf_hash x) i = Ok tt ->
  (Z.of_nat (length (siblings pf)) = root_level (Z.of_nat (length L)) /\
   L !! Z.to_nat (i mod 2 ^ Z.of_nat (length (siblings pf))) = Some x) \/
  hash_collision (inclusion_preimages (siblings pf) x i) L.
Proof.
  intros Hi Hv. unfold accumulator_proof_verify in Hv. res_inv.
  pose proof (root_level_nonneg (Z.of_nat (length L))) as Hr0.
  match goal with Hx : _ = tree_root _ |- _ => rename Hx into E end.
  unfold Accumulator.tree_root in E. rewrite leaves_length in E.
  destruct (path_sound L x i (siblings pf) _ 0 Hr0 ltac:(lia) ltac:(lia) E) as [[Hlen Hx]|Hc]; [left|by right].
  rewrite Z.mul_0_l, Z.add_0_l in Hx. done.
Qed.

(** What a verifier reads of an index, in a tree with [n] leaves: the index itself when there
    is such a leaf, and otherwise its remainder by the width of the tree. *)
Definition index_read (n i : Z) : Z := i mod 2 ^ root_level n.

Lemma index_read_small n i : 0 <= i < n -> index_read n i = i.
Proof. intros Hi. unfold index_read. destruct (root_level_spec n ltac:(lia)) as [Hr _]. apply Z.mod_small. lia. Qed.

Lemma proof_step_shift sibs : forall h i k,
  (fold_left (proof_step hash_internal) sibs (h, i + k * 2 ^ Z.of_nat (length sibs))).1 =
  (fold_left (proof_step hash_internal) sibs (h, i)).1.
Proof.
  induction sibs as [|s sibs IH]; intros h i k; [done|]. cbn [length fold_left]. unfold proof_step at 2 4.
  rewrite Nat2Z.inj_succ, Z.pow_succ_r, (Z.mul_comm 2), Z.mul_assoc, Z.mod_add, Z.div_add by lia. apply IH.
Qed.

(** Indices with the same low bits verify alike. *)
Lemma inclusion_verify_mod pf root h i j : i mod 2 ^ Z.of_nat (length (siblings pf)) = j mod 2 ^ Z.of_nat (length (siblings pf)) ->
  accumulator_proof_verify hash_internal pf root h i = accumulator_proof_verify hash_internal pf root h j.
Proof.
  intros E. set (m := 2 ^ Z.of_nat (length (siblings pf))) in *.
  assert (Hm : 0 < m) by (apply pow2_pos; lia).
  assert (Hs : forall i, (fold_left (proof_step hash_internal) (siblings pf) (h, i)).1 =
    (fold_left (proof_step hash_internal) (siblings pf) (h, i mod m)).1).
  { intros k. rewrite (Z.div_mod k m) at 1 by lia. rewrite Z.add_comm, Z.mul_comm. apply proof_step_shift. }
  unfold accumulator_proof_verify. by rewrite (Hs i), (Hs j), E.
Qed.

Lemma inclusion_or_collision L pf x i : 0 <= i < Z.of_nat (length L) ->
  accumulator_proof_verify hash_internal pf (tree_root (leaves L)) (leaf_hash x) i = Ok tt ->
  L !! Z.to_nat i = Some x \/ hash_collision (inclusion_preimages (siblings pf) x i) L.
Proof.
  intros Hi Hv. apply inclusion_sound_mod in Hv as [[Hlen Hx]|Hc]; [left|by right|lia].
  rewrite Hlen in Hx. fold (index_read (Z.of_nat (length L)) i) in Hx. by rewrite index_read_small in Hx.
Qed.

(** C10: What an inclusion proof of any depth proves.  One that the verifier accepts against
    the root of the tree over [L], whatever the index, shows that the value is the one at the
    index as the verifier reads it, or exhibits a collision.  The index is read as it is when
    [L] has that many values; beyond, only its remainder by the width of the tree is read, and
    the proof is accepted at every index with this remainder. *)
Theorem inclusion_sound_any L pf x i : is_u64 i -> let n := Z.of_nat (length L) in
  accumulator_proof_verify hash_internal pf (tree_root (leaves L)) (leaf_hash x) i = Ok tt ->
  (L !! Z.to_nat (index_read n i) = Some x /\ (i < n -> index_read n i = i) /\
   forall j, index_read n j = index_read n i ->
     accumulator_proof_verify hash_internal pf (tree_root (leaves L)) (leaf_hash x) j = Ok tt) \/
  hash_collision (inclusion_preimages (siblings pf) x i) L.
Proof.
  intros [Hi _] n Hv. destruct (inclusion_sound_mod L pf x i Hi Hv) as [[Hlen Hx]|Hc]; [left|by right].
  split_and!; [unfold index_read, n; by rewrite <- Hlen|intros Hin; by apply index_read_small|].
  intros j Hj. rewrite <- Hv. apply inclusion_verify_mod. rewrite Hlen. exact Hj.
Qed.

(** ** Range proofs *)

(** The index the bits of the first position lead to, [k] levels down. *)
Fixpoint path_index (k : nat) (pos : Z) : Z :=
  match k with
  | O => 0
  | S k => 2 * path_index k (Position.parent pos) + (if Position.is_right_child pos then 1 else 0)
  end.

Lemma path_index_nonneg k : forall pos, 0 <= path_index k pos.
Proof. induction k as [|k IH]; intros pos; cbn; [lia|]. specialize (IH (Position.parent pos)). destruct (_ : bool); lia. Qed.

Lemma path_index_inorder k : forall l p, valid_node l p -> l + Z.of_nat k <= 63 ->
  path_index k (inorder l p) = p mod 2 ^ Z.of_nat k.
Proof.
  induction k as [|k IH]; intros l p Hv Hk; cbn [path_index].
  { change (2 ^ Z.of_nat 0) with 1. by rewrite Z.mod_1_r. }
  unfold Position.is_right_child. rewrite parent_inorder, is_left_child_inorder by (done || lia).
  rewrite IH by (try (apply valid_node_parent; [done|]); lia).
  rewrite Nat2Z.inj_succ, Z.pow_succ_r, Z.rem_mul_r by (try lia; apply Z.pow_nonzero; lia).
  rewrite <- Z.negb_odd, negb_involutive, Zmod_odd. destruct (Z.odd p); lia.
Qed.

Lemma path_index_leaf k i : 0 <= i -> Z.of_nat k <= 63 -> path_index k (Position.from_leaf_index i) = i mod 2 ^ Z.of_nat k.
Proof.
  intros Hi Hk. rewrite from_leaf_index_wrap by done. pose proof (Z.mod_pos_bound i (2 ^ 63) ltac:(lia)) as Hb.
  replace (2 * (i mod 2 ^ 63)) with (inorder 0 (i mod 2 ^ 63)) by (unfold inorder; lia).
  rewrite path_index_inorder by (try (unfold valid_node; lia); lia).
  replace (2 ^ 63) with (2 ^ Z.of_nat k * 2 ^ (63 - Z.of_nat k)) by (rewrite <- Z.pow_add_r by lia; f_equal; lia).
  rewrite Z.rem_mul_r by (try (apply Z.pow_nonzero; lia); apply pow2_pos; lia).
  rewrite Z.mul_comm, Z.mod_add by (apply Z.pow_nonzero; lia). apply Z.mod_mod, Z.pow_nonzero; lia.
Qed.

Notation hash_pair := (hash_pair hash_internal).
Notation range_level := (range_level hash_internal).
Notation range_loop := (range_loop hash_internal).
Notation range_pairs := (range_pairs hash_internal).

(** Pairs that hash to consecutive nodes are the children of these nodes. *)
Lemma pairs_sound L l : 0 <= l -> forall pairs q, 0 <= q ->
  map hash_pair pairs = level_nodes (leaves L) l q (length pairs) ->
  (pairs = [] \/ 0 < l) /\ pairs = chunk_pairs (level_nodes (leaves L) (l - 1) (2 * q) (2 * length pairs)) \/
  hash_collision (map pair_preimage pairs) L.
Proof.
  intros Hl. induction pairs as [|[a b] pairs IH]; intros q Hq E; [left; split; [by left|done]|].
  cbn [length] in E. rewrite level_nodes_S in E. cbn [map] in E. injection E as Eh E.
  destruct (preimage_or_collision (PInternal a b) L l q Hl Hq Eh) as [Hn|Hc].
  2:{ right. eapply collision_incl; [|done]. intros c [<-|[]]. by left. }
  symmetry in Hn. apply node_preimage_internal in Hn as (Hl0 & -> & ->); [|done].
  destruct (IH (q + 1) ltac:(lia) E) as [[_ Hp]|Hc].
  2:{ right. eapply collision_incl; [|done]. intros c Hin. by right. }
  left. split; [by right|]. cbn [length].
  replace (2 * S (length pairs))%nat with (S (S (2 * length pairs))) by lia.
  rewrite !level_nodes_S. cbn [chunk_pairs]. replace (2 * q + 1 + 1) with (2 * (q + 1)) by lia. by rewrite <- Hp.
Qed.

Lemma level_nodes_length (L : list HashValue) l a m : length (level_nodes L l a m) = m.
Proof. unfold AccumulatorProof.level_nodes. by rewrite length_map, length_seq. Qed.

Lemma level_nodes_app (L : list HashValue) l m1 : forall a m2,
  level_nodes L l a (m1 + m2) = level_nodes L l a m1 ++ level_nodes L l (a + Z.of_nat m1) m2.
Proof.
  induction m1 as [|m1 IH]; intros a m2; [by rewrite Z.add_0_r|]. cbn [Nat.add]. rewrite !level_nodes_S, IH. cbn [app].
  do 3 f_equal. lia.
Qed.

(** One iteration, backwards. *)
Lemma range_level_sound L l q pos hs ls rs out ls' rs' : 0 <= l -> 0 <= q -> hs <> [] ->
  range_level pos hs ls rs = Ok (out, ls', rs') -> out = level_nodes (leaves L) l q (length out) ->
  (0 < l /\ hs = level_nodes (leaves L) (l - 1) (2 * q + (if Position.is_right_child pos then 1 else 0)) (length hs)) \/
  hash_collision (map pair_preimage (level_pairs pos hs ls rs)) L.
Proof.
  intros Hl Hq Hne E Ho. apply range_level_inv in E as (_ & _ & Hpl & Hev & Hout).
  set (pl := if Position.is_right_child pos then take 1 ls else []) in *.
  set (pr := if Nat.even (length (pl ++ hs)) then [] else take 1 rs) in *.
  assert (Epairs : level_pairs pos hs ls rs = chunk_pairs ((pl ++ hs) ++ pr)) by done.
  assert (Hlen : length out = length (level_pairs pos hs ls rs)) by (by rewrite Hout, length_map).
  rewrite Hlen in Ho. rewrite Hout in Ho.
  destruct (pairs_sound L l Hl _ q Hq Ho) as [[Hl0 Hp]|Hc]; [left|by right].
  rewrite Epairs in Hp. apply chunk_pairs_length in Hev as Hlen2. rewrite Hlen2 in Hp.
  assert (Hnil : chunk_pairs ((pl ++ hs) ++ pr) <> []).
  { intros E0. rewrite E0 in Hlen2. rewrite !length_app in Hlen2. destruct hs; [done|]. cbn in Hlen2. lia. }
  rewrite Epairs in Hl0. destruct Hl0 as [?|Hl0]; [done|]. split; [done|].
  apply chunk_pairs_inj in Hp; [|by rewrite level_nodes_length|done].
  rewrite !length_app, !level_nodes_app, <- !app_assoc in Hp.
  apply app_inj_1 in Hp as [_ Hp]; [|by rewrite level_nodes_length].
  apply app_inj_1 in Hp as [Hp _]; [|by rewrite level_nodes_length]. rewrite Hp at 1. f_equal.
  rewrite Hpl. by destruct (Position.is_right_child pos).
Qed.

(** The loop reaches node 0 of level [d] in [k] iterations: the hashes it started from are the
    nodes [k] levels below, and any start with the same path does as well. *)
Lemma range_loop_sound L d root fuel : 0 <= d -> root = nhash (leaves L) d 0 -> forall pos hs ls rs,
  range_loop fuel pos hs ls rs = Ok [root] -> hs <> [] ->
  (exists k : nat, Z.of_nat k <= d /\
     hs = level_nodes (leaves L) (d - Z.of_nat k) (path_index k pos) (length hs) /\
     forall pos', path_index k pos' = path_index k pos -> range_loop fuel pos' hs ls rs = Ok [root]) \/
  hash_collision (map pair_preimage (range_pairs fuel pos hs ls rs)) L.
Proof.
  intros Hd Hroot. induction fuel as [|fuel IH]; intros pos hs ls rs E Hne; cbn [AccumulatorProof.range_loop] in E |- *;
    destruct ((1 <? Z.of_nat (length hs)) || negb (is_nil ls) || negb (is_nil rs)) eqn:Ec; try done.
  1,3: injection E as ->; left; exists 0%nat; split_and!; [lia|rewrite Z.sub_0_r, Hroot; done|done].
  destruct (range_level pos hs ls rs) as [[[out ls'] rs']| |] eqn:R; try done. cbn [mbind result_bind] in E.
  cbn [AccumulatorProof.range_pairs]. rewrite R, map_app.
  assert (Hout : out <> []).
  { intros ->. apply range_level_inv in R as (_ & _ & _ & Hev & Hout). apply chunk_pairs_length in Hev.
    symmetry in Hout. apply map_eq_nil in Hout. unfold level_pairs in Hout. rewrite Hout in Hev.
    rewrite !length_app in Hev. destruct hs; [done|]. cbn in Hev. lia. }
  destruct (IH _ _ _ _ E Hout) as [(k & Hk & Ho & Hpos)|Hc].
  2:{ right. eapply collision_incl; [|done]. apply incl_appr, incl_refl. }
  destruct (range_level_sound L (d - Z.of_nat k) _ _ _ _ _ _ _ _ ltac:(lia) (path_index_nonneg k _) Hne R Ho) as [[Hl Hs]|Hc].
  2:{ right. eapply collision_incl; [|done]. apply incl_appl, incl_refl. }
  left. exists (S k). split_and!; [lia|rewrite Hs at 1; cbn [path_index]; f_equal; lia|].
  intros pos' Hp. cbn [path_index] in Hp.
  assert (Hbit : Position.is_right_child pos' = Position.is_right_child pos /\ path_index k (Position.parent pos') = path_index k (Position.parent pos))
    by (destruct (Position.is_right_child pos'), (Position.is_right_child pos); (split; [lia || done|lia])).
  destruct Hbit as [Hbit Hp']. unfold AccumulatorProof.range_level in R |- *. rewrite Hbit, R. cbn [mbind result_bind]. by apply Hpos.
Qed.

(** The preimages a range verifier computes. *)
Definition range_preimages (pf : AccumulatorRangeProof (HashValue:=HashValue)) (i : Z) (xs : list T) : list preimage :=
  map PLeaf xs ++ map pair_preimage (range_verify_pairs hash_internal pf i (leaves xs)).

Lemma leaf_nodes_sound L : forall xs l q, 0 <= l -> 0 <= q -> leaves xs = level_nodes (leaves L) l q (length xs) ->
  xs = [] \/ (l = 0 /\ take (length xs) (drop (Z.to_nat q) L) = xs) \/ hash_collision (map PLeaf xs) L.
Proof.
  induction xs as [|x xs IH]; intros l q Hl Hq E; [by left|right]. cbn [length] in E. rewrite level_nodes_S in E.
  cbn in E. injection E as Eh E.
  destruct (preimage_or_collision (PLeaf x) L l q Hl Hq Eh) as [Hn|Hc].
  2:{ right. eapply collision_incl; [|done]. intros c [<-|[]]. by left. }
  symmetry in Hn. apply node_preimage_leaf in Hn as [-> Hx]; [|done].
  assert (Hd : drop (Z.to_nat q) L = x :: drop (Z.to_nat (q + 1)) L).
  { rewrite (drop_S _ x) by done. do 2 f_equal. lia. }
  destruct (IH 0 (q + 1) ltac:(lia) ltac:(lia) E) as [->|[[_ Ht]|Hc]].
  - left. split; [done|]. by rewrite Hd.
  - left. split; [done|]. rewrite Hd. cbn [length take]. by rewrite Ht.
  - right. eapply collision_incl; [|done]. intros c Hin. by right.
Qed.

Lemma range_sound_mod L pf xs i : 0 <= i -> Z.of_nat (length L) <= 2 ^ 63 -> let n := Z.of_nat (length L) in
  range_proof_verify hash_internal pf (tree_root (leaves L)) (Some i) (leaves xs) = Ok tt -> xs <> [] /\
  (take (length xs) (drop (Z.to_nat (index_read n i)) L) = xs /\
   (forall j, 0 <= j -> index_read n j = index_read n i ->
      range_proof_verify hash_internal pf (tree_root (leaves L)) (Some j) (leaves xs) = Ok tt) \/
   hash_collision (range_preimages pf i xs) L).
Proof.
  intros Hi HL n Hv. assert (Hne : xs <> []) by (intros ->; unfold range_proof_verify in Hv; by res_inv). split; [done|].
  pose proof Hv as Hloop. apply range_verify_loop in Hloop. pose proof (root_level_nonneg n) as Hr0.
  assert (Hrb : root_level n <= 63).
  { destruct (decide (n = 0)) as [->|]; [done|]. apply root_level_bound. unfold n in *. lia. }
  destruct (range_loop_sound L (root_level n) (tree_root (leaves L)) _ Hr0
    ltac:(unfold Accumulator.tree_root; by rewrite leaves_length) _ _ _ _ Hloop) as [(k & Hk & Hs & Hpos)|Hc].
  - intros E. by destruct xs.
  - rewrite path_index_leaf in Hs by lia. rewrite leaves_length in Hs.
    destruct (leaf_nodes_sound L xs (root_level n - Z.of_nat k) (i mod 2 ^ Z.of_nat k) ltac:(lia) ltac:(apply Z.mod_pos_bound, pow2_pos; lia) Hs)
      as [?|[[Hz Ht]|Hc]]; [done| |].
    + assert (Hkd : Z.of_nat k = root_level n) by lia. rewrite Hkd in Ht. left. split; [exact Ht|].
      intros j Hj Ej. specialize (Hpos (Position.from_leaf_index j)). rewrite !path_index_leaf, Hkd in Hpos by lia. specialize (Hpos Ej).
      unfold range_proof_verify in Hv |- *. rewrite Hpos. rewrite Hloop in Hv. exact Hv.
    + right. eapply collision_incl; [|done]. apply incl_appl, incl_refl.
  - right. eapply collision_incl; [|done]. apply incl_appr, incl_refl.
Qed.

(** C15: What a range proof of any shape proves.  One that the verifier accepts against the
    root of the tree over [L] without a first index is for an empty list.  With a first
    index, whatever it is, the list is not empty and its values are those from the index on as
    the verifier reads it, or the proof exhibits a collision.  The index is read as it is when
    [L] has that many values; beyond, only its remainder by the width of the tree is read, and
    the proof is accepted at every index with this remainder. *)
Theorem range_sound_any L pf xs first : (forall i, first = Some i -> is_u64 i) -> Z.of_nat (length L) <= 2 ^ 63 ->
  let n := Z.of_nat (length L) in
  range_proof_verify hash_internal pf (tree_root (leaves L)) first (leaves xs) = Ok tt ->
  match first with
  | None => xs = []
  | Some i => xs <> [] /\
    (take (length xs) (drop (Z.to_nat (index_read n i)) L) = xs /\ (i < n -> index_read n i = i) /\
     (forall j, is_u64 j -> index_read n j = index_read n i ->
        range_proof_verify hash_internal pf (tree_root (leaves L)) (Some j) (leaves xs) = Ok tt) \/
     hash_collision (range_preimages pf i xs) L)
  end.
Proof.
  intros Hu HL n Hv. destruct first as [i|].
  - destruct (Hu i eq_refl) as [Hi _]. destruct (range_sound_mod L pf xs i Hi HL Hv) as [Hne [[Ht Hj]|Hc]]; (split; [done|]); [left|by right].
    split_and!; [done|intros; by apply index_read_small|]. intros j [Hj0 _]. by apply Hj.
  - unfold range_proof_verify in Hv. res_inv. by destruct xs.
Qed.

(** ** Roots of two trees *)

(** Two different preimages with one hash, one in each tree. *)
Definition tree_collision (L1 L2 : list T) : Prop :=
  exists l1 p1 l2 p2, node_preimage L1 l1 p1 <> node_preimage L2 l2 p2 /\
    preimage_hash (node_preimage L1 l1 p1) = preimage_hash (node_preimage L2 l2 p2).

Lemma nodes_or_collision L1 L2 l1 p1 l2 p2 : 0 <= l1 -> 0 <= p1 -> 0 <= l2 -> 0 <= p2 ->
  nhash (leaves L1) l1 p1 = nhash (leaves L2) l2 p2 ->
  node_preimage L1 l1 p1 = node_preimage L2 l2 p2 \/ tree_collision L1 L2.
Proof.
  intros Hl1 Hp1 Hl2 Hp2 E. rewrite !nhash_preimage in E by done.
  destruct (decide (node_preimage L1 l1 p1 = node_preimage L2 l2 p2)); [by left|right]. by exists l1, p1, l2, p2.
Qed.

Lemma node_preimage_placeholder L l p : 0 <= l -> 0 <= p -> node_preimage L l p = PPlaceholder ->
  Z.of_nat (length L) <= p * 2 ^ l.
Proof.
  intros Hl Hp. unfold node_preimage. destruct (Z.leb_spec (Z.of_nat (length L)) (p * 2 ^ l)); [done|].
  destruct (Z.eqb_spec l 0) as [->|]; [|done]. change (2 ^ 0) with 1 in *.
  destruct (lookup_lt_is_Some_2 L (Z.to_nat p)) as [x Hx]; [lia|]. by rewrite Hx.
Qed.

(** Nodes of one level with one hash have the same leaves. *)
Lemma same_level_sound L1 L2 (l : nat) : forall p, 0 <= p ->
  nhash (leaves L1) (Z.of_nat l) p = nhash (leaves L2) (Z.of_nat l) p ->
  (forall i : nat, p * 2 ^ Z.of_nat l <= Z.of_nat i < (p + 1) * 2 ^ Z.of_nat l -> L1 !! i = L2 !! i) \/
  tree_collision L1 L2.
Proof.
  induction l as [|l IH]; intros p Hp E; (destruct (nodes_or_collision L1 L2 _ p _ p (Nat2Z.is_nonneg _) Hp (Nat2Z.is_nonneg _) Hp E)
    as [Hn|]; [|by right]);
    (destruct (node_preimage L1 _ p) as [|x|a b] eqn:E1; symmetry in Hn;
      [left; intros i Hi; apply node_preimage_placeholder in E1; [|lia..]; apply node_preimage_placeholder in Hn; [|lia..];
        by rewrite !lookup_ge_None_2 by lia|..]).
  - apply node_preimage_leaf in E1 as [_ E1]; [|lia]. apply node_preimage_leaf in Hn as [_ Hn]; [|lia]. left. intros i Hi.
    change (2 ^ Z.of_nat 0) with 1 in Hi. replace i with (Z.to_nat p) by lia. congruence.
  - apply node_preimage_internal in E1 as [? _]; lia.
  - apply node_preimage_leaf in E1 as [? _]; lia.
  - apply node_preimage_internal in E1 as (_ & -> & ->); [|lia].
    apply node_preimage_internal in Hn as (_ & Ha & Hb); [|lia].
    replace (Z.of_nat (S l) - 1) with (Z.of_nat l) in * by lia.
    destruct (IH (2 * p) ltac:(lia) Ha) as [H1|]; [|by right].
    destruct (IH (2 * p + 1) ltac:(lia) Hb) as [H2|]; [|by right].
    left. intros i. rewrite Nat2Z.inj_succ, Z.pow_succ_r by lia. intros Hi.
    destruct (decide (Z.of_nat i < (2 * p + 1) * 2 ^ Z.of_nat l)); [apply H1|apply H2]; lia.
Qed.

(** A tree of lower depth with the same root. *)
Lemma lower_root_collision L1 L2 (l k : nat) : (2 <= length L2)%nat ->
  nhash (leaves L1) (Z.of_nat l) 0 = nhash (leaves L2) (Z.of_nat (l + S k)) 0 -> tree_collision L1 L2.
Proof.
  intros H2. induction l as [|l IH]; intros E;
    (destruct (nodes_or_collision L1 L2 _ 0 _ 0 (Nat2Z.is_nonneg _) (Z.le_refl 0) (Nat2Z.is_nonneg _) (Z.le_refl 0) E)
      as [Hn|]; [|done]);
    (destruct (node_preimage L2 _ 0) as [|x|a b] eqn:E2;
      [apply node_preimage_placeholder in E2; lia|apply node_preimage_leaf in E2 as [? _]; lia|]).
  - apply node_preimage_internal in Hn as [? _]; lia.
  - apply node_preimage_internal in E2 as (_ & -> & _); [|lia]. apply node_preimage_internal in Hn as (_ & Ha & _); [|lia].
    apply IH. replace (Z.of_nat (S l) - 1) with (Z.of_nat l) in Ha by lia.
    replace (Z.of_nat (S l + S k) - 1) with (Z.of_nat (l + S k)) in Ha by lia. symmetry. exact Ha.
Qed.

Lemma tree_collision_sym L1 L2 : tree_collision L1 L2 -> tree_collision L2 L1.
Proof. intros (l1 & p1 & l2 & p2 & Hne & E). exists l2, p2, l1, p1. done. Qed.

Lemma root_level_pos n : 0 < root_level n -> 2 <= n.
Proof. unfold root_level. destruct (Z.leb_spec n 1); lia. Qed.

(** Trees with the same root have the same leaves. *)
Lemma tree_root_injective L1 L2 : tree_root (leaves L1) = tree_root (leaves L2) -> L1 = L2 \/ tree_collision L1 L2.
Proof.
  unfold Accumulator.tree_root. rewrite !leaves_length. intros E.
  pose proof (root_level_nonneg (Z.of_nat (length L1))) as Hn1. pose proof (root_level_nonneg (Z.of_nat (length L2))) as Hn2.
  assert (Hd : forall L : list T, Z.of_nat (length L) <= 2 ^ root_level (Z.of_nat (length L))).
  { intros L. destruct (decide (length L = 0)%nat) as [->|]; [done|].
    by destruct (root_level_spec (Z.of_nat (length L))) as [? _]; [lia|]. }
  set (d1 := root_level (Z.of_nat (length L1))) in *. set (d2 := root_level (Z.of_nat (length L2))) in *.
  destruct (Z.lt_trichotomy d1 d2) as [Hlt|[Heq|Hgt]].
  - right. apply (lower_root_collision L1 L2 (Z.to_nat d1) (Z.to_nat (d2 - d1 - 1))).
    + pose proof (root_level_pos (Z.of_nat (length L2))). lia.
    + replace (Z.of_nat (Z.to_nat d1)) with d1 by lia.
      by replace (Z.of_nat (Z.to_nat d1 + S (Z.to_nat (d2 - d1 - 1)))) with d2 by lia.
  - destruct (same_level_sound L1 L2 (Z.to_nat d1) 0 ltac:(lia)) as [Hi|]; [|left|by right].
    { rewrite Z2Nat.id by done. by rewrite E, Heq. }
    rewrite Z2Nat.id in Hi by done. apply list_eq. intros i.
    destruct (decide (Z.of_nat i < 2 ^ d1)); [apply Hi; lia|]. pose proof (Hd L1) as B1. pose proof (Hd L2) as B2.
    fold d1 in B1. fold d2 in B2. rewrite <- Heq in B2. by rewrite !lookup_ge_None_2 by lia.
  - right. apply tree_collision_sym, (lower_root_collision L2 L1 (Z.to_nat d2) (Z.to_nat (d1 - d2 - 1))).
    + pose proof (root_level_pos (Z.of_nat (length L1))). lia.
    + replace (Z.of_nat (Z.to_nat d2)) with d2 by lia.
      by replace (Z.of_nat (Z.to_nat d2 + S (Z.to_nat (d1 - d2 - 1)))) with d1 by lia.
Qed.
End ProofSoundness.
