(* ===== verification/MerkleAccumulator.v ===== *)
(** * The stored Merkle accumulator

    [storage/accumulator/src/lib.rs]: appending to and proving against an
    accumulator whose frozen nodes are read from storage through [HashReader].
    The model follows [MerkleAccumulatorView]; the lemmas show that appending
    computes the root of the reference tree, writes the frozen nodes in strictly
    consecutive post-order, keeps the storage complete, and that the proofs read
    from storage are those of the reference tree. *)

From S2P Require Import Prelude U64 Position Accumulator AccumulatorProof.

(** The trait [HashReader]: what the accumulator asks of its storage. *)
Class HashReader (R HashValue : Type) := reader_get : R -> Z -> result string HashValue.

Section MerkleAccumulator.
Context {HashValue : Type} `{!EqDecision HashValue}.
Context (hash_internal : HashValue -> HashValue -> HashValue).
Context (ACCUMULATOR_PLACEHOLDER_HASH : HashValue).
Context {R : Type} `{!HashReader R HashValue}.

Notation nhash := (nhash hash_internal ACCUMULATOR_PLACEHOLDER_HASH).
Notation tree_root := (tree_root hash_internal ACCUMULATOR_PLACEHOLDER_HASH).
Notation frozen_hashes := (frozen_hashes hash_internal ACCUMULATOR_PLACEHOLDER_HASH).
Notation accumulator_of := (accumulator_of hash_internal ACCUMULATOR_PLACEHOLDER_HASH).
Notation honest_siblings := (honest_siblings hash_internal ACCUMULATOR_PLACEHOLDER_HASH).
Notation honest_lefts := (honest_lefts hash_internal ACCUMULATOR_PLACEHOLDER_HASH).
Notation honest_rights := (honest_rights hash_internal ACCUMULATOR_PLACEHOLDER_HASH).

Record MerkleAccumulatorView := mkMerkleAccumulatorView {
  reader : R;
  view_num_leaves : Z
}.

Definition rightmost_leaf_index (self : MerkleAccumulatorView) : Z := u64_sub (view_num_leaves self) 1.

(** [get_hash] recurses on the children, one level down each time; [fuel] bounds
    the number of levels. *)
Fixpoint get_hash_fuel (fuel : nat) (self : MerkleAccumulatorView) (position : Z) : result string HashValue :=
  let idx := rightmost_leaf_index self in
  if Position.is_placeholder position idx then Ok ACCUMULATOR_PLACEHOLDER_HASH
  else if Position.is_freezable position idx then reader_get (reader self) position
  else match fuel with
       | O => Panic
       | S fuel =>
         l ← Position.left_child position;
         lh ← get_hash_fuel fuel self l;
         r ← Position.right_child position;
         rh ← get_hash_fuel fuel self r;
         Ok (hash_internal lh rh)
       end.
Definition get_hash : MerkleAccumulatorView -> Z -> result string HashValue := get_hash_fuel 64.

Definition get_hashes (self : MerkleAccumulatorView) (positions : list Z) : result string (list HashValue) :=
  result_collect (get_hash self) positions.

Definition get_sibling_positions (self : MerkleAccumulatorView) (leaf_index : Z) (filter : Z -> bool)
    : result string (list Z) :=
  root_pos ← Position.root_from_leaf_count (view_num_leaves self);
  Ok (List.filter filter
        (Position.iter_ancestor_sibling (Z.to_nat (Position.level root_pos))
           (Position.from_leaf_index leaf_index))).

Definition get_siblings (self : MerkleAccumulatorView) (leaf_index : Z) (filter : Z -> bool)
    : result string (list HashValue) :=
  positions ← get_sibling_positions self leaf_index filter;
  get_hashes self positions.

Definition get_proof (self : MerkleAccumulatorView) (leaf_index : Z)
    : result string (AccumulatorProof (HashValue:=HashValue)) :=
  _ ← ensure (leaf_index <? view_num_leaves self) "invalid leaf_index"%string;
  siblings ← get_siblings self leaf_index (fun _ => true);
  Ok {| siblings := siblings |}.

Definition get_consistency_proof (self : MerkleAccumulatorView) (sub_acc_leaves : Z)
    : result string (AccumulatorConsistencyProof (HashValue:=HashValue)) :=
  _ ← ensure (sub_acc_leaves <=? view_num_leaves self)
        "The other accumulator is bigger than this one."%string;
  it ← Position.frozen_sibling_new sub_acc_leaves (view_num_leaves self);
  subtrees ← result_collect (reader_get (reader self)) (Position.frozen_sibling_collect 129 it);
  Ok {| subtrees := subtrees |}.

Definition get_range_proof_positions (self : MerkleAccumulatorView) (first_leaf_index : option Z)
    (num_leaves : Z) : result string (list Z * list Z) :=
  match first_leaf_index with
  | None =>
    _ ← ensure (num_leaves =? 0) "num_leaves is not zero while first_leaf_index is None."%string;
    Ok ([], [])
  | Some first_leaf_index =>
    _ ← ensure (0 <? num_leaves) "num_leaves is zero while first_leaf_index is not None."%string;
    last_leaf_index ← ok_or (u64_checked_add first_leaf_index (u64_sub num_leaves 1))
                        "Requesting too many leaves."%string;
    _ ← ensure (last_leaf_index <? view_num_leaves self) "Invalid last_leaf_index"%string;
    left_siblings ← get_sibling_positions self first_leaf_index Position.is_left_child;
    right_siblings ← get_sibling_positions self last_leaf_index Position.is_right_child;
    Ok (left_siblings, right_siblings)
  end.

Definition get_range_proof (self : MerkleAccumulatorView) (first_leaf_index : option Z) (num_leaves : Z)
    : result string (AccumulatorRangeProof (HashValue:=HashValue)) :=
  '(left_siblings, right_siblings) ← get_range_proof_positions self first_leaf_index num_leaves;
  lefts ← get_hashes self left_siblings;
  rights ← get_hashes self right_siblings;
  Ok {| left_siblings := lefts; right_siblings := rights |}.

Definition get_frozen_subtree_hashes (self : MerkleAccumulatorView) : result string (list HashValue) :=
  result_collect (reader_get (reader self)) (Position.frozen_subtrees (view_num_leaves self)).

(** *** [append] *)

Definition max_to_freeze (num_new_leaves root_level : Z) : Z := num_new_leaves * 2 + root_level.

(** [match left_siblings.pop()]: the left sibling is the last one created, or it
    is in storage.  The vector is a list whose head is its end. *)
Definition pop_left_sibling (self : MerkleAccumulatorView) (sibling : Z)
    (left_siblings : list (Z * HashValue)) : result string (HashValue * list (Z * HashValue)) :=
  match left_siblings with
  | (x, left_hash) :: left_siblings =>
    _ ← assert_ (x =? sibling); Ok (left_hash, left_siblings)
  | [] => left_hash ← reader_get (reader self) sibling; Ok (left_hash, [])
  end.

(** [while pos.is_right_child()]; a position has at most 64 levels. *)
Fixpoint freeze_loop (fuel : nat) (self : MerkleAccumulatorView) (pos : Z) (hash : HashValue)
    (left_siblings to_freeze : list (Z * HashValue))
    : result string (list (Z * HashValue) * list (Z * HashValue)) :=
  if Position.is_right_child pos then
    match fuel with
    | O => Panic
    | S fuel =>
      '(left_hash, left_siblings) ← pop_left_sibling self (Position.sibling pos) left_siblings;
      let hash := hash_internal left_hash hash in
      let pos := Position.parent pos in
      freeze_loop fuel self pos hash left_siblings (to_freeze ++ [(pos, hash)])
    end
  else Ok ((pos, hash) :: left_siblings, to_freeze).

(** [for (leaf_offset, leaf) in new_leaves.iter().enumerate()]. *)
Fixpoint append_leaves (self : MerkleAccumulatorView) (leaf_offset : Z) (new_leaves : list HashValue)
    (left_siblings to_freeze : list (Z * HashValue))
    : result string (list (Z * HashValue) * list (Z * HashValue)) :=
  match new_leaves with
  | [] => Ok (left_siblings, to_freeze)
  | leaf :: new_leaves =>
    let leaf_pos := Position.from_leaf_index (u64_add (view_num_leaves self) leaf_offset) in
    '(left_siblings, to_freeze) ←
      freeze_loop 64 self leaf_pos leaf left_siblings (to_freeze ++ [(leaf_pos, leaf)]);
    append_leaves self (leaf_offset + 1) new_leaves left_siblings to_freeze
  end.

(** [for _ in pos.level()..root_level]. *)
Fixpoint root_walk (n : nat) (self : MerkleAccumulatorView) (pos : Z) (hash : HashValue)
    (left_siblings : list (Z * HashValue)) : result string (HashValue * list (Z * HashValue)) :=
  match n with
  | O => Ok (hash, left_siblings)
  | S n =>
    '(hash, left_siblings) ←
      (if Position.is_left_child pos then
         Ok (hash_internal hash ACCUMULATOR_PLACEHOLDER_HASH, left_siblings)
       else
         '(left_hash, left_siblings) ← pop_left_sibling self (Position.sibling pos) left_siblings;
         Ok (hash_internal left_hash hash, left_siblings));
    root_walk n self (Position.parent pos) hash left_siblings
  end.

Definition view_append (self : MerkleAccumulatorView) (new_leaves : list HashValue)
    : result string (HashValue * list (Z * HashValue)) :=
  if is_nil new_leaves then
    if view_num_leaves self =? 0 then Ok (ACCUMULATOR_PLACEHOLDER_HASH, [])
    else
      root ← Position.root_from_leaf_count (view_num_leaves self);
      root_hash ← get_hash self root;
      Ok (root_hash, [])
  else
    let last_new_leaf_count := u64_add (view_num_leaves self) (Z.of_nat (length new_leaves)) in
    root_level ← Position.root_level_from_leaf_count last_new_leaf_count;
    '(left_siblings, to_freeze) ← append_leaves self 0 new_leaves [] [];
    '((pos, hash), left_siblings) ←
      expect (match left_siblings with [] => None | x :: r => Some (x, r) end);
    '(hash, left_siblings) ←
      root_walk (Z.to_nat (root_level - Position.level pos)) self pos hash left_siblings;
    _ ← assert_ (is_nil left_siblings);
    Ok (hash, to_freeze).

(** ** Reading the reference tree from storage *)

(** The storage holds every full node of the first [n] leaves of [L]. *)
Definition reader_ok (r : R) (L : list HashValue) (n : Z) : Prop :=
  forall l p, 0 <= l -> 0 <= p -> (p + 1) * 2 ^ l <= n -> reader_get r (inorder l p) = Ok (nhash L l p).

Lemma valid_node_full l p : 0 <= l -> 0 <= p -> (p + 1) * 2 ^ l <= 2 ^ 63 -> valid_node l p.
Proof. intros Hl Hp H. unfold valid_node. rewrite Z.pow_add_r by lia. lia. Qed.

Lemma valid_node_child l p c : valid_node l p -> 0 < l -> 0 <= c <= 1 -> valid_node (l - 1) (2 * p + c).
Proof.
  intros (Hl & Hp & Hv) Hl0 Hc. unfold valid_node. split_and!; [lia|lia|].
  replace (l - 1 + 1) with l by lia. rewrite Z.pow_add_r in Hv by lia.
  assert (0 < 2 ^ l) by (apply pow2_pos; lia). nia.
Qed.

Lemma valid_node_sibling l p : valid_node l p -> l < 63 -> valid_node l (Z.lxor p 1).
Proof.
  intros Hv Hl. pose proof (valid_node_parent _ _ Hv Hl) as Hpar. destruct Hv as (? & ? & ?).
  assert (Hq : valid_node l (2 * (p / 2)) /\ valid_node l (2 * (p / 2) + 1)).
  { replace l with (l + 1 - 1) by lia. rewrite <- (Z.add_0_r (2 * (p / 2))) at 1.
    split; apply valid_node_child; (done || lia). }
  destruct (parity_cases p) as (q & Eq & [[E _]|[E _]]); rewrite <- Eq in Hq; rewrite E.
  - rewrite lxor_1_even. apply Hq.
  - rewrite lxor_1_odd. apply Hq.
Qed.

Lemma valid_node_ancestor k : forall l p, valid_node l p -> l + Z.of_nat k <= 63 ->
  valid_node (l + Z.of_nat k) (p / 2 ^ Z.of_nat k).
Proof.
  induction k as [|k IH]; intros l p Hv Hk.
  { change (2 ^ Z.of_nat 0) with 1. by rewrite Z.div_1_r, Z.add_0_r. }
  rewrite div_pow2_succ. replace (l + Z.of_nat (S k)) with (l + 1 + Z.of_nat k) by lia.
  apply IH; [apply valid_node_parent; [done|lia]|lia].
Qed.

Lemma get_hash_correct r L n fuel : forall l p, 0 < n <= 2 ^ 63 -> Z.of_nat (length L) = n ->
  reader_ok r L n -> valid_node l p -> l <= Z.of_nat fuel ->
  get_hash_fuel fuel {| reader := r; view_num_leaves := n |} (inorder l p) = Ok (nhash L l p).
Proof.
  induction fuel as [|fuel IH]; intros l p Hn HL Hr Hv Hl; pose proof Hv as (Hl0 & Hp & Hb);
    cbn [get_hash_fuel]; unfold rightmost_leaf_index; cbn [view_num_leaves reader];
    rewrite u64_sub_small, is_placeholder_inorder, is_freezable_inorder by (done || lia);
    destruct (Z.ltb_spec (n - 1) (p * 2 ^ l)) as [Hph|Hph];
    try (f_equal; symmetry; apply nhash_placeholder; lia);
    destruct (Z.leb_spec ((p + 1) * 2 ^ l - 1) (n - 1)) as [Hf|Hf]; try (apply Hr; lia).
  - assert (l = 0) as -> by lia. change (2 ^ 0) with 1 in *. lia.
  - assert (0 < l) by (destruct (decide (l = 0)) as [->|]; [change (2 ^ 0) with 1 in *; lia|lia]).
    rewrite left_child_inorder, right_child_inorder by done. cbn [mbind result_bind].
    rewrite <- (Z.add_0_r (2 * p)) at 1.
    rewrite !IH by (done || lia || (apply valid_node_child; (done || lia))). cbn. f_equal.
    rewrite Z.add_0_r. symmetry. replace l with (l - 1 + 1) at 1 by lia. apply nhash_step; [lia|].
    replace (l - 1 + 1) with l by lia. lia.
Qed.

Lemma iter_ancestor_sibling_inorder d : forall l p, valid_node l p -> l + Z.of_nat d <= 63 ->
  Position.iter_ancestor_sibling d (inorder l p) =
  map (fun k => inorder (l + Z.of_nat k) (Z.lxor (p / 2 ^ Z.of_nat k) 1)) (seq 0 d).
Proof.
  induction d as [|d IH]; intros l p Hv Hd; [done|]. cbn [Position.iter_ancestor_sibling seq map].
  rewrite sibling_inorder, parent_inorder, IH by (done || lia || (apply valid_node_parent; (done || lia))).
  change (2 ^ Z.of_nat 0) with 1. rewrite Z.div_1_r, Z.add_0_r. f_equal.
  rewrite <- seq_shift, map_map. apply map_ext. intros k. rewrite div_pow2_succ. f_equal. lia.
Qed.

Section Proofs.
Context (r : R) (L : list HashValue).
Context (Hn : 0 < Z.of_nat (length L) <= 2 ^ 63) (Hr : reader_ok r L (Z.of_nat (length L))).
Let view := {| reader := r; view_num_leaves := Z.of_nat (length L) |}.
Let depth := Z.to_nat (root_level (Z.of_nat (length L))).

Lemma get_hash_view l p : valid_node l p -> get_hash view (inorder l p) = Ok (nhash L l p).
Proof.
  intros Hv. pose proof (valid_node_bounds _ _ Hv). apply (get_hash_correct r L); try done. lia.
Qed.

Lemma get_sibling_positions_view i f : 0 <= i < 2 ^ 63 ->
  get_sibling_positions view i f = Ok (List.filter f (Position.iter_ancestor_sibling depth (inorder 0 i))).
Proof.
  intros Hi. unfold get_sibling_positions. cbn [view view_num_leaves].
  rewrite root_from_leaf_count_inorder by done. cbn [mbind result_bind].
  rewrite level_inorder by (by apply valid_root). rewrite from_leaf_index_inorder by done.
  do 3 f_equal. unfold inorder. lia.
Qed.

Lemma get_proof_view i : 0 <= i < Z.of_nat (length L) ->
  get_proof view i = Ok {| siblings := honest_siblings L depth i |}.
Proof.
  intros Hi. unfold get_proof, get_siblings. cbn [view view_num_leaves].
  destruct (Z.ltb_spec i (Z.of_nat (length L))); [|lia]. cbn [ensure mbind result_bind].
  rewrite get_sibling_positions_view by lia. cbn [mbind result_bind].
  pose proof (root_level_bound _ Hn).
  assert (Hd : Z.of_nat depth <= 63) by (unfold depth; lia).
  rewrite iter_ancestor_sibling_inorder by (try (unfold valid_node; lia); lia).
  assert (Hfil : forall l : list Z, List.filter (fun _ => true) l = l).
  { induction l as [|x l IHl]; [done|]. cbn. by rewrite IHl. }
  rewrite Hfil. unfold get_hashes.
  assert (E : result_collect (get_hash view)
      (map (fun k => inorder (0 + Z.of_nat k) (Z.lxor (i / 2 ^ Z.of_nat k) 1)) (seq 0 depth)) =
    Ok (honest_siblings L depth i)); [|by rewrite E].
  apply result_collect_Ok. unfold AccumulatorProof.honest_siblings. apply Forall2_fmap_l, Forall2_fmap_r.
  apply Forall2_same_length_lookup_2; [done|]. intros j k k' Hk Hk'. simplify_eq.
  apply lookup_seq in Hk as [-> Hj]. apply get_hash_view. apply valid_node_sibling; [|lia].
  apply (valid_node_ancestor j 0); [unfold valid_node; lia|lia].
Qed.

Lemma get_hashes_app l1 l2 y1 y2 : get_hashes view l1 = Ok y1 -> get_hashes view l2 = Ok y2 ->
  get_hashes view (l1 ++ l2) = Ok (y1 ++ y2).
Proof. intros E1 E2. unfold get_hashes in *. by rewrite result_collect_app, E1, E2. Qed.

Lemma get_hashes_lefts d : forall l p, valid_node l p -> l + Z.of_nat d <= 63 ->
  get_hashes view (List.filter Position.is_left_child (Position.iter_ancestor_sibling d (inorder l p))) =
  Ok (honest_lefts L d l p).
Proof.
  induction d as [|d IH]; intros l p Hv Hd; [done|].
  cbn [Position.iter_ancestor_sibling List.filter AccumulatorProof.honest_lefts].
  pose proof (valid_node_sibling _ _ Hv ltac:(lia)) as Hs.
  rewrite sibling_inorder, parent_inorder, is_left_child_inorder by (done || lia).
  specialize (IH _ _ (valid_node_parent _ _ Hv ltac:(lia)) ltac:(lia)).
  destruct (parity_odd_even p) as (q & _ & [(E & Ho & _)|(E & Ho & _)]); rewrite Ho; rewrite E in *.
  - rewrite lxor_1_even, Z.even_add, Z.even_mul. exact IH.
  - rewrite lxor_1_odd in *. rewrite Z.even_mul. replace (2 * q + 1 - 1) with (2 * q) by lia.
    apply (get_hashes_app [_]); [|exact IH]. unfold get_hashes. cbn [result_collect].
    by rewrite get_hash_view.
Qed.

Lemma get_hashes_rights d : forall l p, valid_node l p -> l + Z.of_nat d <= 63 ->
  get_hashes view (List.filter Position.is_right_child (Position.iter_ancestor_sibling d (inorder l p))) =
  Ok (honest_rights L d l p).
Proof.
  induction d as [|d IH]; intros l p Hv Hd; [done|].
  cbn [Position.iter_ancestor_sibling List.filter AccumulatorProof.honest_rights].
  pose proof (valid_node_sibling _ _ Hv ltac:(lia)) as Hs. unfold Position.is_right_child at 1.
  rewrite sibling_inorder, parent_inorder, is_left_child_inorder by (done || lia).
  specialize (IH _ _ (valid_node_parent _ _ Hv ltac:(lia)) ltac:(lia)).
  destruct (parity_odd_even p) as (q & _ & [(E & _ & He)|(E & _ & He)]); rewrite He; rewrite E in *.
  - rewrite lxor_1_even in *. rewrite Z.even_add, Z.even_mul.
    apply (get_hashes_app [_]); [|exact IH]. unfold get_hashes. cbn [result_collect].
    by rewrite get_hash_view.
  - rewrite lxor_1_odd, Z.even_mul. exact IH.
Qed.

Lemma get_range_proof_view i m : 0 <= i -> 0 < m -> i + m <= Z.of_nat (length L) ->
  get_range_proof view (Some i) m =
  Ok {| left_siblings := honest_lefts L depth 0 i; right_siblings := honest_rights L depth 0 (i + m - 1) |}.
Proof.
  intros Hi Hm Him. unfold get_range_proof, get_range_proof_positions.
  destruct (Z.ltb_spec 0 m); [|lia]. cbn [ensure mbind result_bind].
  rewrite u64_sub_small by lia. unfold u64_checked_add.
  destruct (Z.ltb_spec (i + (m - 1)) (2 ^ 64)); [|lia]. cbn [ok_or mbind result_bind].
  cbn [view view_num_leaves]. destruct (Z.ltb_spec (i + (m - 1)) (Z.of_nat (length L))); [|lia].
  cbn [ensure mbind result_bind]. rewrite !get_sibling_positions_view by lia. cbn [mbind result_bind].
  pose proof (root_level_bound _ Hn).
  assert (Hd : 0 + Z.of_nat depth <= 63) by (unfold depth; lia).
  rewrite get_hashes_lefts, get_hashes_rights by (try (unfold valid_node; lia); exact Hd). cbn.
  by replace (i + (m - 1)) with (i + m - 1) by lia.
Qed.

Lemma read_nodes nodes :
  (forall l p, In (l, p) nodes -> 0 <= l /\ 0 <= p /\ (p + 1) * 2 ^ l <= Z.of_nat (length L)) ->
  result_collect (reader_get r) (map (fun '(l, p) => inorder l p) nodes) = Ok (frozen_hashes L nodes).
Proof.
  intros Hin. apply result_collect_Ok, Forall2_fmap_l, Forall2_fmap_r, Forall_Forall2_diag, List.Forall_forall.
  intros [l p] H%Hin. apply Hr; lia.
Qed.

Lemma get_frozen_subtree_hashes_view :
  get_frozen_subtree_hashes view = Ok (frozen_hashes L (frozen_nodes 0 (Z.of_nat (length L)))).
Proof.
  unfold get_frozen_subtree_hashes. cbn [view view_num_leaves reader].
  rewrite frozen_subtrees_inorder by lia. apply read_nodes. intros l p Hin.
  apply frozen_nodes_In in Hin as (? & ? & Hp); [|lia..]. by rewrite Z.sub_0_r in Hp.
Qed.

Lemma get_consistency_proof_view m : 0 <= m <= Z.of_nat (length L) ->
  get_consistency_proof view m =
  Ok {| subtrees := frozen_hashes L (sibling_nodes 129 m (Z.of_nat (length L) - m)) |}.
Proof.
  intros Hm. unfold get_consistency_proof, Position.frozen_sibling_new. cbn [view view_num_leaves reader].
  destruct (Z.leb_spec m (Z.of_nat (length L))); [|lia]. cbn [ensure mbind result_bind].
  unfold MAX_ACCUMULATOR_LEAVES. change (u64_shl 1 MAX_ACCUMULATOR_PROOF_DEPTH) with (2 ^ 63).
  destruct (Z.leb_spec (Z.of_nat (length L)) (2 ^ 63)); [|lia]. cbn [assert_ mbind result_bind].
  rewrite u64_sub_small, frozen_sibling_collect_inorder by lia. rewrite read_nodes; [done|].
  intros l p Hin. apply sibling_nodes_In in Hin as (? & ? & ?); lia.
Qed.
End Proofs.

(** ** Appending *)

Section Append.
Context (r : R) (L : list HashValue) (n0 : Z).
Context (Hlen : Z.of_nat (length L) < 2 ^ 63) (Hn0 : 0 <= n0).
Context (Hr : reader_ok r L n0).
Let view := {| reader := r; view_num_leaves := n0 |}.

Definition node_entry (x : Z * Z) : Z * HashValue := (inorder x.1 x.2, nhash L x.1 x.2).

(** Nodes that the first [n0] leaves did not complete. *)
Definition is_new_node (x : Z * Z) : bool := n0 <? (x.2 + 1) * 2 ^ x.1.

(** What [left_siblings] holds when [m] nodes of level [l] are complete. *)
Definition new_stack (l m : Z) : list (Z * HashValue) :=
  map node_entry (List.filter is_new_node (rev (frozen_nodes l m))).

(** The nodes completed together with node [p] of level [l]. *)
Fixpoint completed_nodes (fuel : nat) (l p : Z) : list (Z * Z) :=
  match fuel with
  | O => []
  | S fuel => (l, p) :: if Z.odd p then completed_nodes fuel (l + 1) (p / 2) else []
  end.

Lemma new_stack_old l m : 0 <= l -> 0 <= m -> m * 2 ^ l <= n0 -> new_stack l m = [].
Proof.
  intros Hl Hm Hold. unfold new_stack. assert (0 < 2 ^ l) by (apply pow2_pos; lia).
  rewrite filter_none; [done|]. intros [l' p] Hin%in_rev.
  apply frozen_nodes_In in Hin as (? & ? & Hp); [|done..]. unfold is_new_node. cbn [fst snd].
  apply Z.ltb_ge. replace l' with (l' - l + l) by lia. rewrite Z.pow_add_r by lia. nia.
Qed.

Lemma new_stack_succ_double l q : 0 <= q ->
  new_stack l (2 * q + 1) =
  (if is_new_node (l, 2 * q) then [node_entry (l, 2 * q)] else []) ++ new_stack (l + 1) q.
Proof.
  intros Hq. unfold new_stack. rewrite frozen_nodes_succ_double, rev_app_distr by done.
  cbn [rev app List.filter]. by destruct (is_new_node (l, 2 * q)).
Qed.

(** The left sibling is on top of the stack or in storage. *)
Lemma pop_left_sibling_correct l q : 0 <= l -> 0 <= q ->
  pop_left_sibling view (inorder l (2 * q)) (new_stack l (2 * q + 1)) =
  Ok (nhash L l (2 * q), new_stack (l + 1) q).
Proof.
  intros Hl Hq. rewrite new_stack_succ_double by done. unfold is_new_node. cbn [fst snd].
  destruct (Z.ltb_spec n0 ((2 * q + 1) * 2 ^ l)) as [Hnew|Hold].
  - cbn. by rewrite Z.eqb_refl.
  - assert (0 < 2 ^ l) by (apply pow2_pos; lia).
    rewrite new_stack_old by (try rewrite Z.pow_add_r by lia; nia). cbn.
    rewrite Hr by lia. done.
Qed.

Lemma new_stack_push l q : 0 <= l -> 0 <= q -> n0 < (2 * q + 1) * 2 ^ l ->
  node_entry (l, 2 * q) :: new_stack l (2 * q) = new_stack l (2 * q + 1).
Proof.
  intros Hl Hq Hnew. rewrite new_stack_succ_double by done. unfold is_new_node. cbn [fst snd].
  destruct (Z.ltb_spec n0 ((2 * q + 1) * 2 ^ l)); [|lia]. cbn. f_equal.
  unfold new_stack. by rewrite frozen_nodes_double.
Qed.

Lemma new_level_lt l p : 0 <= l -> 0 <= p -> (p + 1) * 2 ^ l <= Z.of_nat (length L) -> l < 63.
Proof.
  intros Hl Hp Hb. destruct (decide (l < 63)); [done|].
  assert (2 ^ 63 <= 2 ^ l) by (apply Z.pow_le_mono_r; lia). nia.
Qed.

Lemma freeze_loop_correct fuel : forall l p to_freeze,
  0 <= l -> 0 <= p -> n0 < (p + 1) * 2 ^ l <= Z.of_nat (length L) -> p < 2 ^ Z.of_nat fuel ->
  freeze_loop fuel view (inorder l p) (nhash L l p) (new_stack l p) (to_freeze ++ [node_entry (l, p)]) =
  Ok (new_stack l (p + 1), to_freeze ++ map node_entry (completed_nodes (S fuel) l p)).
Proof.
  induction fuel as [|fuel IH]; intros l p to_freeze Hl Hp Hb Hf;
    pose proof (new_level_lt l p Hl Hp ltac:(lia)) as Hl63;
    pose proof (valid_node_full l p Hl Hp ltac:(lia)) as Hv;
    cbn [freeze_loop completed_nodes]; unfold Position.is_right_child;
    rewrite is_left_child_inorder by (done || lia);
    destruct (parity_odd_even p) as (q & Eq & [(E & Ho & He)|(E & Ho & He)]); rewrite Ho, He; cbn [negb].
  1,3: rewrite E in *; by rewrite <- (new_stack_push l q) by lia.
  - change (2 ^ Z.of_nat 0) with 1 in Hf. lia.
  - rewrite sibling_inorder, parent_inorder, <- Eq by done. rewrite E, lxor_1_odd.
    rewrite pop_left_sibling_correct by lia. cbn [mbind result_bind].
    rewrite E in Hb. rewrite <- nhash_step by (rewrite ?Z.pow_add_r; lia).
    rewrite Nat2Z.inj_succ, Z.pow_succ_r in Hf by lia.
    rewrite (IH (l + 1) q) by (rewrite ?Z.pow_add_r by lia; lia). do 2 f_equal.
    + replace (2 * q + 1 + 1) with (2 * (q + 1)) by lia. unfold new_stack. by rewrite frozen_nodes_double by lia.
    + cbn [map]. by rewrite <- app_assoc.
Qed.

(** The nodes completed by leaves [c], ..., [c + m - 1], in the order of creation. *)
Definition completed_by (c : Z) (m : nat) : list (Z * Z) :=
  flat_map (fun k => completed_nodes 65 0 (c + Z.of_nat k)) (seq 0 m).

Lemma completed_by_S c m : completed_by c (S m) = completed_nodes 65 0 c ++ completed_by (c + 1) m.
Proof.
  unfold completed_by. cbn [seq flat_map]. rewrite Z.add_0_r. f_equal. rewrite <- seq_shift, flat_map_concat_map,
    map_map, <- flat_map_concat_map. apply flat_map_ext. intros k. f_equal. lia.
Qed.

Lemma append_leaves_correct leaves : forall off to_freeze, 0 <= off ->
  drop (Z.to_nat (n0 + off)) L = leaves -> n0 + off <= Z.of_nat (length L) ->
  append_leaves view off leaves (new_stack 0 (n0 + off)) to_freeze =
  Ok (new_stack 0 (Z.of_nat (length L)),
      to_freeze ++ map node_entry (completed_by (n0 + off) (length leaves))).
Proof.
  induction leaves as [|leaf leaves IH]; intros off to_freeze Ho Hd Hc; cbn [append_leaves length].
  { assert (n0 + off = Z.of_nat (length L)) as ->.
    { apply (f_equal length) in Hd. rewrite length_drop in Hd. cbn in Hd. lia. }
    cbn. by rewrite app_nil_r. }
  assert (Hleaf : L !! Z.to_nat (n0 + off) = Some leaf).
  { rewrite <- (Nat.add_0_r (Z.to_nat (n0 + off))), <- lookup_drop, Hd. done. }
  apply lookup_lt_Some in Hleaf as Hlt. cbn [view view_num_leaves].
  rewrite u64_add_small, from_leaf_index_inorder by lia.
  replace (2 * (n0 + off)) with (inorder 0 (n0 + off)) by (unfold inorder; lia).
  rewrite <- (nhash_leaf hash_internal ACCUMULATOR_PLACEHOLDER_HASH L (n0 + off) leaf) by (done || lia).
  rewrite (freeze_loop_correct 64 0 (n0 + off)) by (change (2 ^ 0) with 1; change (Z.of_nat 64) with 64; lia).
  cbn [mbind result_bind]. rewrite <- Z.add_assoc. rewrite IH; [|lia| |lia].
  - rewrite completed_by_S, map_app, <- Z.add_assoc, <- app_assoc. done.
  - replace (Z.to_nat (n0 + (off + 1))) with (S (Z.to_nat (n0 + off))) by lia.
    by rewrite (drop_S _ leaf) in Hd; [injection Hd|].
Qed.

Lemma root_walk_correct d : forall l p, 0 <= l -> 0 <= p -> l + Z.of_nat d <= 63 ->
  p * 2 ^ l < Z.of_nat (length L) <= (p + 1) * 2 ^ l -> valid_node l p ->
  root_walk d view (inorder l p) (nhash L l p) (new_stack l p) =
  Ok (nhash L (l + Z.of_nat d) (p / 2 ^ Z.of_nat d), new_stack (l + Z.of_nat d) (p / 2 ^ Z.of_nat d)).
Proof.
  induction d as [|d IH]; intros l p Hl Hp Hd Hb Hv.
  { change (2 ^ Z.of_nat 0) with 1. by rewrite Z.div_1_r, Z.add_0_r. }
  cbn [root_walk]. rewrite is_left_child_inorder, parent_inorder by (done || lia).
  pose proof (valid_node_parent _ _ Hv ltac:(lia)) as Hvp.
  rewrite div_pow2_succ. replace (l + Z.of_nat (S d)) with (l + 1 + Z.of_nat d) by lia.
  assert (0 < 2 ^ l) by (apply pow2_pos; lia).
  destruct (parity_odd_even p) as (q & Eq & [(E & Ho & He)|(E & Ho & He)]); rewrite He; rewrite <- Eq in *;
    cbn [mbind result_bind]; rewrite E in *.
  - assert (Eh : hash_internal (nhash L l (2 * q)) ACCUMULATOR_PLACEHOLDER_HASH = nhash L (l + 1) q).
    { rewrite nhash_step by (rewrite ?Z.pow_add_r; lia). f_equal. symmetry. apply nhash_placeholder; lia. }
    rewrite Eh. replace (new_stack l (2 * q)) with (new_stack (l + 1) q)
      by (unfold new_stack; by rewrite frozen_nodes_double by lia).
    apply IH; try done; rewrite ?Z.pow_add_r; lia.
  - rewrite sibling_inorder, lxor_1_odd by (done || lia).
    rewrite pop_left_sibling_correct by lia. cbn [mbind result_bind].
    rewrite <- nhash_step by (rewrite ?Z.pow_add_r; lia). apply IH; try done; rewrite ?Z.pow_add_r; lia.
Qed.

Lemma root_walk_start : n0 < Z.of_nat (length L) ->
  let n := Z.of_nat (length L) in let t := trailing_zeros64 n in
  exists q, 0 <= q /\ 0 <= t <= root_level n /\ n = (2 * q + 1) * 2 ^ t /\
  new_stack 0 n = (inorder t (2 * q), nhash L t (2 * q)) :: new_stack t (2 * q).
Proof.
  intros Hnew n t. destruct (trailing_zeros64_decomp n) as (q & Hq & Ht & E); [unfold n; lia|]. fold t in Ht, E.
  assert (0 < 2 ^ t) by (apply pow2_pos; lia). exists q. split_and!; try done.
  - unfold root_level. destruct (Z.leb_spec n 1).
    + destruct (decide (t = 0)) as [->|]; [done|]. assert (2 ^ 1 <= 2 ^ t) by (apply Z.pow_le_mono_r; lia). nia.
    + destruct (decide (t <= Z.log2 (n - 1) + 1)); [done|]. pose proof (Z.log2_spec (n - 1)) as [_ Hlog]; [lia|].
      assert (2 ^ Z.succ (Z.log2 (n - 1)) < 2 ^ t) by (apply Z.pow_lt_mono_r; pose proof (Z.log2_nonneg (n - 1)); lia).
      nia.
  - change (inorder t (2 * q), nhash L t (2 * q)) with (node_entry (t, 2 * q)).
    rewrite new_stack_push by (unfold n in *; lia). unfold new_stack. rewrite E, frozen_nodes_pow2 by lia. done.
Qed.

Lemma view_append_correct : 0 <= n0 < Z.of_nat (length L) ->
  view_append view (drop (Z.to_nat n0) L) =
  Ok (tree_root L, map node_entry (completed_by n0 (length L - Z.to_nat n0))).
Proof.
  intros Hnew. unfold view_append. cbn [view view_num_leaves].
  assert (Hnil : is_nil (drop (Z.to_nat n0) L) = false).
  { destruct (drop _ L) eqn:Ed; [|done]. apply (f_equal length) in Ed. rewrite length_drop in Ed. cbn in Ed. lia. }
  rewrite Hnil, length_drop, u64_add_small by lia.
  replace (n0 + Z.of_nat (length L - Z.to_nat n0)) with (Z.of_nat (length L)) by lia.
  rewrite root_level_from_leaf_count_inorder by lia. cbn [mbind result_bind].
  pose proof (append_leaves_correct _ 0 [] ltac:(lia) eq_refl ltac:(lia)) as Happ.
  rewrite Z.add_0_r, new_stack_old, length_drop in Happ by (change (2 ^ 0) with 1; lia).
  rewrite Happ. cbn [mbind result_bind]. destruct (root_walk_start ltac:(lia)) as (q & Hq & Ht & E & Hs). rewrite Hs.
  set (t := trailing_zeros64 _) in *. set (n := Z.of_nat (length L)) in *.
  assert (0 < 2 ^ t) by (apply pow2_pos; lia).
  pose proof (root_level_bound n ltac:(lia)). pose proof (root_level_spec n ltac:(lia)) as [Hrl _].
  assert (Hv : valid_node t (2 * q)) by (apply valid_node_full; lia).
  cbn [expect mbind result_bind]. rewrite level_inorder by done.
  rewrite root_walk_correct by (done || fold n; lia).
  assert (Ez : 2 * q / 2 ^ Z.of_nat (Z.to_nat (root_level n - t)) = 0).
  { rewrite Z2Nat.id by lia. apply Z.div_small. split; [lia|].
    replace (root_level n) with (root_level n - t + t) in Hrl by lia. rewrite Z.pow_add_r in Hrl by lia. nia. }
  rewrite Ez. replace (t + Z.of_nat (Z.to_nat (root_level n - t))) with (root_level n) by lia.
  done.
Qed.

(** *** The order of the writes *)

Lemma completed_nodes_S fuel l p :
  completed_nodes (S fuel) l p = (l, p) :: if Z.odd p then completed_nodes fuel (l + 1) (p / 2) else [].
Proof. done. Qed.

Definition node_postorder (x : Z * Z) : Z := Position.to_postorder_index (inorder x.1 x.2).

Lemma node_postorder_eq l p : 0 <= l < 63 -> 0 <= p -> (p + 1) * 2 ^ l <= 2 ^ 63 ->
  node_postorder (l, p) = 2 * ((p + 1) * 2 ^ l - 1) - count_ones64 p.
Proof.
  intros Hl Hp Hb. unfold node_postorder, Position.to_postorder_index, Position.to_inorder_index. cbn [fst snd].
  rewrite inorder_to_postorder_inorder by (lia || apply valid_node_full; lia).
  rewrite Z.pow_add_r by lia. lia.
Qed.

Lemma level_lt_63 l p : 0 <= l -> 0 <= p -> (p + 1) * 2 ^ l < 2 ^ 63 -> l < 63.
Proof.
  intros Hl Hp Hb. destruct (decide (l < 63)); [done|].
  assert (2 ^ 63 <= 2 ^ l) by (apply Z.pow_le_mono_r; lia). nia.
Qed.

Lemma completed_nodes_postorder fuel : forall l p c, 0 <= l -> 0 <= p -> (p + 1) * 2 ^ l = c + 1 ->
  c + 1 < 2 ^ 63 -> p < 2 ^ Z.of_nat fuel ->
  map node_postorder (completed_nodes (S fuel) l p) =
  seqZ (2 * c - count_ones64 p) (postorder_weight (c + 1) - (2 * c - count_ones64 p)).
Proof.
  induction fuel as [|fuel IH]; intros l p c Hl Hp Hc Hb Hf;
    pose proof (level_lt_63 l p Hl Hp ltac:(lia)); rewrite completed_nodes_S;
    cbn [map]; rewrite node_postorder_eq, Hc by lia;
    destruct (parity_odd_even p) as (q & Eq & [(E & Ho & He)|(E & Ho & He)]); rewrite Ho; unfold postorder_weight.
  1,3: rewrite <- Hc, count_ones64_pow2_mul, E, count_ones64_double_succ, count_ones64_double by lia;
    rewrite E in Hc; rewrite Hc;
    replace (2 * (c + 1) - (1 + count_ones64 q) - (2 * c - count_ones64 q)) with 1 by lia;
    rewrite seqZ_cons by lia; cbn [map]; f_equal; lia.
  - change (2 ^ Z.of_nat 0) with 1 in Hf. lia.
  - rewrite <- Eq. rewrite E in Hc. rewrite Nat2Z.inj_succ, Z.pow_succ_r in Hf by lia.
    rewrite (IH (l + 1) q c) by (rewrite ?Z.pow_add_r by lia; lia). unfold postorder_weight.
    rewrite E, count_ones64_double_succ by lia. pose proof (count_ones64_nonneg q).
    assert (Hle : count_ones64 (c + 1) <= count_ones64 q + 1).
    { rewrite <- Hc, count_ones64_pow2_mul by lia. replace (2 * q + 1 + 1) with (2 * (q + 1)) by lia.
      rewrite count_ones64_double by lia. apply count_ones64_succ. lia. }
    symmetry. rewrite seqZ_cons by lia. f_equal; [lia|]. f_equal; lia.
Qed.

(** Appending writes the nodes at consecutive post-order indices, so the storage
    keys only grow. *)
Lemma completed_by_postorder m : forall c, 0 <= c -> c + Z.of_nat m < 2 ^ 63 ->
  map node_postorder (completed_by c m) =
  seqZ (postorder_weight c) (postorder_weight (c + Z.of_nat m) - postorder_weight c).
Proof.
  assert (Hmono : forall c, 0 <= c -> postorder_weight c <= postorder_weight (c + 1)).
  { intros c Hc. unfold postorder_weight. pose proof (count_ones64_succ c Hc). lia. }
  induction m as [|m IH]; intros c Hc Hb.
  { rewrite Z.add_0_r, Z.sub_diag. done. }
  rewrite completed_by_S, map_app, IH by lia.
  rewrite (completed_nodes_postorder 64 0 c c) by (change (2 ^ 0) with 1; change (Z.of_nat 64) with 64; lia).
  fold (postorder_weight c). replace (c + Z.of_nat (S m)) with (c + 1 + Z.of_nat m) by lia.
  assert (Hm : forall k, postorder_weight (c + 1) <= postorder_weight (c + 1 + Z.of_nat k)).
  { induction k as [|k IHk]; [rewrite Z.add_0_r; lia|]. specialize (Hmono (c + 1 + Z.of_nat k) ltac:(lia)).
    replace (c + 1 + Z.of_nat (S k)) with (c + 1 + Z.of_nat k + 1) by lia. lia. }
  specialize (Hmono c Hc). specialize (Hm m). symmetry.
  replace (postorder_weight (c + 1 + Z.of_nat m) - postorder_weight c) with
    ((postorder_weight (c + 1) - postorder_weight c) +
     (postorder_weight (c + 1 + Z.of_nat m) - postorder_weight (c + 1))) by lia.
  rewrite seqZ_app by lia. do 2 f_equal. lia.
Qed.

(** *** The nodes written *)

Lemma completed_nodes_In fuel : forall l p l' p', 0 <= p < 2 ^ Z.of_nat fuel -> l <= l' -> 0 <= p' ->
  (p' + 1) * 2 ^ (l' - l) = p + 1 -> In (l', p') (completed_nodes (S fuel) l p).
Proof.
  induction fuel as [|fuel IH]; intros l p l' p' Hp Hl Hp' E; rewrite completed_nodes_S;
    (destruct (decide (l' = l)) as [->|Hne];
      [left; rewrite Z.sub_diag in E; change (2 ^ 0) with 1 in E; f_equal; lia|right]);
    replace (l' - l) with (1 + (l' - (l + 1))) in E by lia; rewrite Z.pow_add_r in E by lia;
    change (2 ^ 1) with 2 in E; rewrite Z.mul_assoc, (Z.mul_comm _ 2), <- Z.mul_assoc in E;
    destruct (parity_odd_even p) as (q & Eq & [(Ep & Ho & _)|(Ep & Ho & _)]); try lia; rewrite Ho.
  rewrite <- Eq. rewrite Nat2Z.inj_succ, Z.pow_succ_r in Hp by lia. apply IH; lia.
Qed.

Lemma completed_by_In c m l p : 0 <= c -> c + Z.of_nat m < 2 ^ 63 -> 0 <= l -> 0 <= p ->
  c < (p + 1) * 2 ^ l <= c + Z.of_nat m -> In (l, p) (completed_by c m).
Proof.
  intros Hc Hb Hl Hp Hlp. apply in_flat_map. exists (Z.to_nat ((p + 1) * 2 ^ l - 1 - c)). split.
  - apply in_seq. lia.
  - apply (completed_nodes_In 64); [change (Z.of_nat 64) with 64; lia|lia|lia|]. rewrite Z.sub_0_r. lia.
Qed.

Lemma completed_nodes_sound fuel : forall l p l' p', 0 <= l -> 0 <= p -> In (l', p') (completed_nodes fuel l p) ->
  l <= l' /\ 0 <= p' /\ (p' + 1) * 2 ^ (l' - l) = p + 1.
Proof.
  induction fuel as [|fuel IH]; intros l p l' p' Hl Hp; [done|]. rewrite completed_nodes_S.
  intros [[= <- <-]|Hin]; [rewrite Z.sub_diag; change (2 ^ 0) with 1; lia|].
  destruct (parity_odd_even p) as (q & Eq & [(Ep & Ho & _)|(Ep & Ho & _)]); rewrite Ho in Hin; [done|].
  rewrite <- Eq in Hin. apply IH in Hin as (? & ? & E); [|lia..]. split_and!; [lia|done|].
  replace (l' - l) with (1 + (l' - (l + 1))) by lia. rewrite Z.pow_add_r by lia. change (2 ^ 1) with 2.
  replace ((p' + 1) * (2 * 2 ^ (l' - (l + 1)))) with (2 * ((p' + 1) * 2 ^ (l' - (l + 1)))) by ring. lia.
Qed.

Lemma completed_by_sound c m l p : 0 <= c -> In (l, p) (completed_by c m) ->
  0 <= l /\ 0 <= p /\ c < (p + 1) * 2 ^ l <= c + Z.of_nat m.
Proof.
  intros Hc (k & Hk & Hin)%in_flat_map. apply in_seq in Hk. apply completed_nodes_sound in Hin as (? & ? & E); [|lia..].
  rewrite Z.sub_0_r in E. lia.
Qed.
End Append.

Lemma get_root_hash (r : R) L : 0 < Z.of_nat (length L) <= 2 ^ 63 -> reader_ok r L (Z.of_nat (length L)) ->
  get_hash {| reader := r; view_num_leaves := Z.of_nat (length L) |} (inorder (root_level (Z.of_nat (length L))) 0) =
  Ok (tree_root L).
Proof. intros Hn Hr. apply (get_hash_view r L Hn Hr), valid_root, Hn. Qed.

Lemma view_append_nil_eq self : view_append self [] =
  if view_num_leaves self =? 0 then Ok (ACCUMULATOR_PLACEHOLDER_HASH, [])
  else root ← Position.root_from_leaf_count (view_num_leaves self);
       root_hash ← get_hash self root;
       Ok (root_hash, []).
Proof. reflexivity. Qed.

(** Appending nothing computes the root. *)
Lemma view_append_nil (r : R) L : Z.of_nat (length L) <= 2 ^ 63 -> reader_ok r L (Z.of_nat (length L)) ->
  view_append {| reader := r; view_num_leaves := Z.of_nat (length L) |} [] = Ok (tree_root L, []).
Proof.
  intros Hn Hr. rewrite view_append_nil_eq.
  destruct (Z.eqb_spec (Z.of_nat (length L)) 0) as [E|Hne].
  - destruct L as [|y L']; [reflexivity|discriminate E].
  - assert (Hn0 : 0 < Z.of_nat (length L) <= 2 ^ 63) by lia.
    pose proof (get_root_hash r L Hn0 Hr) as G. pose proof (root_from_leaf_count_inorder _ Hn0) as P.
    revert G P. generalize (inorder (root_level (Z.of_nat (length L))) 0). intros p.
    unfold view_num_leaves at 1 2.
    generalize (get_hash {| reader := r; view_num_leaves := Z.of_nat (length L) |}) as g.
    generalize (Position.root_from_leaf_count (Z.of_nat (length L))) as q. intros q g G ->.
    rewrite (proj2 (Z.eqb_neq _ _) Hne).
    cbn. rewrite G. reflexivity.
Qed.

Lemma reader_ok_app (r : R) L new n : n <= Z.of_nat (length L) -> reader_ok r L n -> reader_ok r (L ++ new) n.
Proof. intros Hn Hr l p Hl Hp Hb. rewrite Hr by done. by rewrite nhash_app by lia. Qed.

(** Appending to the view of [L] writes exactly the nodes that [new] completes. *)
Lemma append_writes (r : R) L new : Z.of_nat (length (L ++ new)) < 2 ^ 63 -> reader_ok r L (Z.of_nat (length L)) ->
  exists writes,
    view_append {| reader := r; view_num_leaves := Z.of_nat (length L) |} new = Ok (tree_root (L ++ new), writes) /\
    forall k h, (k, h) ∈ writes <-> exists l p, 0 <= l /\ 0 <= p /\
      Z.of_nat (length L) < (p + 1) * 2 ^ l <= Z.of_nat (length (L ++ new)) /\ k = inorder l p /\ h = nhash (L ++ new) l p.
Proof.
  intros Hlen Hr. destruct (decide (new = [])) as [->|Hne].
  { exists []. rewrite app_nil_r in *. split; [apply view_append_nil; (done || lia)|]. intros k h. split.
    - by intros ?%elem_of_nil.
    - intros (l & p & ? & ? & ? & _). lia. }
  assert (Hpos : (0 < length new)%nat) by (destruct new; [done|cbn; lia]).
  apply (reader_ok_app _ _ new) in Hr; [|lia].
  pose proof (view_append_correct r (L ++ new) (Z.of_nat (length L))) as Ha.
  rewrite Nat2Z.id, drop_app_length in Ha. rewrite length_app in *.
  eexists. split; [apply Ha; (done || lia)|]. intros k h.
  rewrite list_elem_of_In, in_map_iff. replace (length L + length new - length L)%nat with (length new) by lia. split.
  - intros ([l p] & [= <- <-] & Hin). apply (completed_by_sound (L ++ new)) in Hin as (? & ? & ?); [|lia].
    exists l, p. split_and!; (done || lia).
  - intros (l & p & ? & ? & ? & -> & ->). exists (l, p). split; [done|]. apply (completed_by_In (L ++ new)); lia.
Qed.

(** ** What the storage-backed accumulator promises *)

(** C8: Appending leaves to the stored accumulator succeeds and returns the root of the reference
    tree of all leaves; the nodes to write carry consecutive post-order indices that continue
    those written before, and every node that the new leaves complete is among them with its
    reference hash. *)
Theorem append_correct (r : R) (L new : list HashValue) :
  Z.of_nat (length (L ++ new)) < 2 ^ 63 -> new <> [] -> reader_ok r L (Z.of_nat (length L)) ->
  exists writes,
    view_append {| reader := r; view_num_leaves := Z.of_nat (length L) |} new = Ok (tree_root (L ++ new), writes) /\
    map (fun w => Position.to_postorder_index w.1) writes =
      seqZ (postorder_weight (Z.of_nat (length L)))
        (postorder_weight (Z.of_nat (length (L ++ new))) - postorder_weight (Z.of_nat (length L))) /\
    forall l p, 0 <= l -> 0 <= p -> Z.of_nat (length L) < (p + 1) * 2 ^ l <= Z.of_nat (length (L ++ new)) ->
      In (inorder l p, nhash (L ++ new) l p) writes.
Proof.
  intros Hlen Hnew Hr. apply (reader_ok_app _ _ new) in Hr; [|lia].
  assert (Hpos : (0 < length new)%nat) by (destruct new; [done|cbn; lia]). rewrite length_app in *.
  pose proof (view_append_correct r (L ++ new) (Z.of_nat (length L))) as Ha.
  rewrite length_app, Nat2Z.id, drop_app_length in Ha.
  eexists. split; [apply Ha; (done || lia)|]. split.
  - rewrite map_map. etrans; [apply (completed_by_postorder (L ++ new)); lia|].
    replace (Z.of_nat (length L) + Z.of_nat (length L + length new - length L)) with
      (Z.of_nat (length L + length new)) by lia. done.
  - intros l p Hl Hp Hb. change (inorder l p, nhash (L ++ new) l p) with (node_entry (L ++ new) (l, p)).
    apply in_map, (completed_by_In (L ++ new)); lia.
Qed.

(** Every leaf of the stored accumulator has an inclusion proof that the verifier accepts
    against the root. *)
Theorem stored_proof_verifies (r : R) L i h : Z.of_nat (length L) <= 2 ^ 63 ->
  reader_ok r L (Z.of_nat (length L)) -> 0 <= i -> L !! Z.to_nat i = Some h ->
  exists pf, get_proof {| reader := r; view_num_leaves := Z.of_nat (length L) |} i = Ok pf /\
    accumulator_proof_verify hash_internal pf (tree_root L) h i = Ok tt.
Proof.
  intros Hn Hr Hi Hh. pose proof (lookup_lt_Some _ _ _ Hh).
  eexists. split; [apply get_proof_view; (done || lia)|]. by apply inclusion_complete.
Qed.

(** Every non-empty range of leaves of the stored accumulator has a range proof that the
    verifier accepts against the root. *)
Theorem stored_range_proof_verifies (r : R) L i m : Z.of_nat (length L) <= 2 ^ 63 ->
  reader_ok r L (Z.of_nat (length L)) -> 0 <= i -> (0 < m)%nat -> i + Z.of_nat m <= Z.of_nat (length L) ->
  exists pf, get_range_proof {| reader := r; view_num_leaves := Z.of_nat (length L) |} (Some i) (Z.of_nat m) = Ok pf /\
    range_proof_verify hash_internal pf (tree_root L) (Some i) (take m (drop (Z.to_nat i) L)) = Ok tt.
Proof.
  intros Hn Hr Hi Hm Hb. eexists. split; [apply get_range_proof_view; (done || lia)|]. by apply range_complete.
Qed.

(** A consistency proof read from the storage of the larger accumulator takes a client's
    in-memory accumulator of any prefix of the leaves to the accumulator of all leaves. *)
Theorem consistency_proof_correct (r : R) L1 L2 : 0 < Z.of_nat (length (L1 ++ L2)) <= 2 ^ 63 ->
  reader_ok r (L1 ++ L2) (Z.of_nat (length (L1 ++ L2))) ->
  exists pf, get_consistency_proof {| reader := r; view_num_leaves := Z.of_nat (length (L1 ++ L2)) |}
      (Z.of_nat (length L1)) = Ok pf /\
    append_subtrees hash_internal ACCUMULATOR_PLACEHOLDER_HASH (accumulator_of L1) (subtrees pf)
      (Z.of_nat (length L2)) = Ok (accumulator_of (L1 ++ L2)).
Proof.
  intros Hn Hr. rewrite length_app in *.
  pose proof (get_consistency_proof_view r (L1 ++ L2)) as Hc. rewrite length_app in Hc.
  eexists. split; [apply Hc; (done || lia)|]. cbn [subtrees].
  replace (Z.of_nat (length L1 + length L2) - Z.of_nat (length L1)) with (Z.of_nat (length L2)) by lia.
  apply append_subtrees_accumulator_of; [rewrite length_app; lia|lia].
Qed.
End MerkleAccumulator.
