(* ===== verification/Text.v ===== *)
(** * Decimal text

    [u64::to_string] and [str::parse::<u64>] of the Rust standard library, and
    [str::split] on a character, as the sources use them (waypoints). *)

From Stdlib Require Import Ascii String.
From S2P Require Import Prelude U64.

Definition digit_char (d : Z) : ascii := ascii_of_nat (48 + Z.to_nat d).

Definition char_digit (c : ascii) : option Z :=
  let n := Z.of_nat (nat_of_ascii c) - 48 in
  if (0 <=? n) && (n <=? 9) then Some n else None.

Fixpoint decimal_digits (fuel : nat) (n : Z) (acc : list ascii) : list ascii :=
  match fuel with
  | O => acc
  | S fuel =>
    if n <? 10 then digit_char n :: acc
    else decimal_digits fuel (n / 10) (digit_char (n mod 10) :: acc)
  end.

(** A [u64] has at most 20 decimal digits. *)
Definition u64_to_string (n : Z) : list ascii := decimal_digits 20 n [].

Fixpoint parse_digits (s : list ascii) (acc : Z) : option Z :=
  match s with
  | [] => Some acc
  | c :: s =>
    d ← char_digit c;
    let acc := acc * 10 + d in
    if acc <? 2 ^ 64 then parse_digits s acc else None
  end.

(** [parse::<u64>()]: an optional plus sign and at least one digit. *)
Definition parse_u64 (s : list ascii) : option Z :=
  let s := match s with c :: s' => if bool_decide (c = "+"%char) then s' else s | [] => s end in
  match s with [] => None | _ => parse_digits s 0 end.

(** [s.split(c)]: the pieces between the occurrences of [c], at least one. *)
Fixpoint split_on (c : ascii) (s : list ascii) : list (list ascii) :=
  match s with
  | [] => [[]]
  | x :: s =>
    if bool_decide (x = c) then [] :: split_on c s
    else match split_on c s with [] => [[x]] | p :: ps => (x :: p) :: ps end
  end.

Lemma digit_cases d : 0 <= d < 10 ->
  d = 0 \/ d = 1 \/ d = 2 \/ d = 3 \/ d = 4 \/ d = 5 \/ d = 6 \/ d = 7 \/ d = 8 \/ d = 9.
Proof. lia. Qed.

Lemma char_digit_digit_char d : 0 <= d < 10 -> char_digit (digit_char d) = Some d.
Proof. intros Hd. by destruct (digit_cases d Hd) as [->|[->|[->|[->|[->|[->|[->|[->|[->| ->]]]]]]]]]. Qed.

Lemma digit_char_other d c : 0 <= d < 10 -> char_digit c = None -> digit_char d <> c.
Proof. intros Hd Hc <-. by rewrite char_digit_digit_char in Hc. Qed.

Lemma parse_decimal_digits fuel : forall n acc, 0 <= n < 2 ^ 64 -> n < 10 ^ Z.of_nat fuel -> (0 < fuel)%nat ->
  parse_digits (decimal_digits fuel n acc) 0 = parse_digits acc n.
Proof.
  induction fuel as [|fuel IH]; intros n acc Hn Hf Hpos; [lia|]. cbn [decimal_digits].
  destruct (Z.ltb_spec n 10).
  - cbn [parse_digits]. rewrite char_digit_digit_char by lia. unfold mbind, option_bind.
    change (0 * 10 + n) with n. destruct (Z.ltb_spec n (2 ^ 64)); [done|lia].
  - assert (Hq : 0 <= n / 10 < n) by (split; [apply Z.div_pos; lia|apply Z.div_lt; lia]).
    pose proof (Z.mod_pos_bound n 10 ltac:(lia)). pose proof (Z.div_mod n 10 ltac:(lia)).
    rewrite Nat2Z.inj_succ, Z.pow_succ_r in Hf by lia.
    destruct fuel as [|fuel]; [change (10 * 10 ^ Z.of_nat 0) with 10 in Hf; lia|].
    rewrite IH; [|lia|apply Z.div_lt_upper_bound; lia|lia].
    cbn [parse_digits]. rewrite char_digit_digit_char by lia. unfold mbind, option_bind.
    replace (n / 10 * 10 + n mod 10) with n by lia. destruct (Z.ltb_spec n (2 ^ 64)); [done|lia].
Qed.

Lemma decimal_digits_chars fuel : forall n acc c, 0 <= n -> c ∈ decimal_digits fuel n acc ->
  c ∈ acc \/ exists d, 0 <= d < 10 /\ c = digit_char d.
Proof.
  induction fuel as [|fuel IH]; intros n acc c Hn Hc; [by left|]. cbn [decimal_digits] in Hc.
  destruct (Z.ltb_spec n 10).
  - apply elem_of_cons in Hc as [->|Hc]; [right; exists n; split; [lia|done]|by left].
  - apply IH in Hc as [Hc|Hc]; [|by right|apply Z.div_pos; lia].
    apply elem_of_cons in Hc as [->|Hc]; [right|by left].
    exists (n mod 10). split; [apply Z.mod_pos_bound; lia|done].
Qed.

Lemma decimal_digits_nonempty fuel n acc : (0 < fuel)%nat -> decimal_digits fuel n acc <> [].
Proof.
  revert n acc. induction fuel as [|fuel IH]; intros n acc Hf; [lia|]. cbn [decimal_digits].
  destruct (n <? 10); [done|]. destruct fuel; [done|]. apply IH. lia.
Qed.

Lemma u64_to_string_chars n c : 0 <= n -> char_digit c = None -> c ∉ u64_to_string n.
Proof.
  intros Hn Hc Hin. apply decimal_digits_chars in Hin as [Hin|(d & Hd & ->)]; [by apply elem_of_nil in Hin| |done].
  by rewrite char_digit_digit_char in Hc.
Qed.

(** Printing and parsing a [u64] in decimal. *)
Lemma parse_u64_to_string n : is_u64 n -> parse_u64 (u64_to_string n) = Some n.
Proof.
  intros Hn. unfold is_u64 in Hn. pose proof (decimal_digits_nonempty 20 n [] ltac:(lia)) as Hne.
  pose proof (u64_to_string_chars n "+"%char ltac:(lia) eq_refl) as Hplus.
  pose proof (parse_decimal_digits 20 n [] ltac:(lia)) as Hp. unfold u64_to_string in *.
  destruct (decimal_digits 20 n []) as [|c s]; [done|]. unfold parse_u64.
  rewrite bool_decide_eq_false_2; [|intros ->; apply Hplus; by constructor].
  rewrite Hp; [done| |lia]. change (10 ^ Z.of_nat 20) with 100000000000000000000. lia.
Qed.

Lemma split_on_app c s1 s2 : c ∉ s1 -> c ∉ s2 -> split_on c (s1 ++ c :: s2) = [s1; s2].
Proof.
  intros H1 H2. assert (Hs2 : split_on c s2 = [s2]).
  { clear H1. induction s2 as [|x s2 IH]; [done|]. cbn. apply not_elem_of_cons in H2 as [? H2].
    rewrite bool_decide_eq_false_2 by congruence. by rewrite IH. }
  induction s1 as [|x s1 IH]; cbn.
  - rewrite bool_decide_eq_true_2 by done. by rewrite Hs2.
  - apply not_elem_of_cons in H1 as [? H1]. rewrite bool_decide_eq_false_2 by congruence. by rewrite IH.
Qed.
