(* ===== verification/Crypto.v ===== *)
(** * The cryptographic interface

    The traits of [crypto/crypto/src/traits.rs] and [crypto/crypto/src/hash.rs] that
    the rest of the system calls.  Hash functions and the signature scheme are
    third-party code: they are the operations of the class [Crypto], and what the
    system relies on is the class [CryptoLaws].  [Symbolic] is the free (term)
    instance, which satisfies every law. *)

From stdpp Require Import countable.
From S2P Require Import Prelude.

(** Key material, signatures and hash values. *)
Class Crypto := {
  HashValue : Type;
  HashValue_eq_dec :: EqDecision HashValue;
  HashValue_zero : HashValue;
  PublicKey : Type;
  PublicKey_eq_dec :: EqDecision PublicKey;
  PrivateKey : Type;
  PrivateKey_eq_dec :: EqDecision PrivateKey;
  Signature : Type;
  Signature_eq_dec :: EqDecision Signature;
  (** Serialized, domain-separated messages: [T::Hasher::seed()] followed by the
      canonical serialization of the value. *)
  Bytes : Type;
  Bytes_eq_dec :: EqDecision Bytes;
  public_key : PrivateKey -> PublicKey;
  sign_bytes : PrivateKey -> Bytes -> Signature;
  verify_bytes : PublicKey -> Bytes -> Signature -> bool;
  batch_verify_bytes : Bytes -> list (PublicKey * Signature) -> bool
}.

(** What the signature scheme promises. *)
Class CryptoLaws (C : Crypto) : Prop := {
  sign_verifies sk m : verify_bytes (public_key sk) m (sign_bytes sk m) = true;
  batch_verify_sound m l : batch_verify_bytes m l = true ->
    Forall (fun '(pk, sig) => verify_bytes pk m sig = true) l
}.

(** The trait bound [CryptoHash + Serialize]. *)
Class CryptoHash `{Crypto} (T : Type) := {
  signing_message : T -> Bytes;
  crypto_hash : T -> HashValue
}.

Section Signing.
Context `{Crypto} `{!CryptoHash T}.

(** [VerifyingKey::verify_struct_signature]. *)
Definition verify_struct_signature (pk : PublicKey) (message : T) (sig : Signature) : bool :=
  verify_bytes pk (signing_message message) sig.

(** [Signature::batch_verify]. *)
Definition batch_verify (message : T) (keys_and_signatures : list (PublicKey * Signature)) : bool :=
  batch_verify_bytes (signing_message message) keys_and_signatures.

(** [SigningKey::sign]. *)
Definition sign_struct (sk : PrivateKey) (message : T) : Signature :=
  sign_bytes sk (signing_message message).

Lemma sign_struct_verifies `{!CryptoLaws _} sk (message : T) :
  verify_struct_signature (public_key sk) message (sign_struct sk message) = true.
Proof. apply sign_verifies. Qed.
End Signing.

(** ** The symbolic instance *)

Module Symbolic.

(** Hash values and serialized messages are terms; a signature is the pair of the
    signing key and the message. *)
Definition term : Type := gen_tree Z.

#[global] Instance term_eq_dec : EqDecision term := _.

#[export] Instance crypto : Crypto := {|
  HashValue := term;
  HashValue_zero := GenLeaf 0;
  PublicKey := Z;
  PrivateKey := Z;
  Signature := Z * term;
  Bytes := term;
  public_key sk := sk;
  sign_bytes sk m := (sk, m);
  verify_bytes pk m sig := bool_decide (sig = (pk, m));
  batch_verify_bytes m l := forallb (fun '(pk, sig) => bool_decide (sig = (pk, m))) l
|}.

#[export] Instance crypto_laws : CryptoLaws crypto.
Proof.
  split.
  - intros sk m. by apply bool_decide_eq_true.
  - intros m l Hl. apply List.Forall_forall. intros [pk sig] Hin.
    by apply (proj1 (forallb_forall _ _) Hl) in Hin.
Qed.

(** Values that have a term. *)
Class Encode (T : Type) := {
  encode_term : T -> term;
  encode_term_inj :: Inj (=) (=) encode_term
}.

(** Every type has its own tag, the domain separation of the hasher seeds. *)
Definition tagged_hash (tag : nat) `{Encode T} : CryptoHash T := {|
  signing_message x := GenNode tag [encode_term x];
  crypto_hash x := GenNode tag [encode_term x]
|}.
End Symbolic.
