(* ===== verification/Hash.v ===== *)
(** * Hash values as byte strings

    [crypto/crypto/src/hash.rs]: a [HashValue] is 32 bytes; the sparse Merkle tree
    reads it as 256 bits, the Jellyfish Merkle tree as 64 nibbles.  The byte
    representation is the class [HashBytes]; bits and nibbles are defined from it as
    in the source. *)

From S2P Require Import Prelude U64 Bytes Crypto.

Definition HASH_LENGTH : nat := 32.
Definition HASH_LENGTH_IN_BITS : nat := HASH_LENGTH * 8.
Definition HASH_LENGTH_IN_NIBBLES : nat := HASH_LENGTH * 2.

#[global] Arguments HASH_LENGTH : simpl never.
#[global] Arguments HASH_LENGTH_IN_BITS : simpl never.

(** [HashValue { hash: [u8; 32] }]. *)
Class HashBytes `{Crypto} := {
  hash_bytes : HashValue -> bytes;
  hash_new : bytes -> HashValue
}.
Class HashBytesLaws `{Crypto} (B : HashBytes) : Prop := {
  hash_bytes_length h : length (hash_bytes h) = HASH_LENGTH;
  hash_bytes_bytes h : is_bytes (hash_bytes h);
  hash_new_bytes h : hash_new (hash_bytes h) = h;
  hash_bytes_new b : length b = HASH_LENGTH -> is_bytes b -> hash_bytes (hash_new b) = b
}.

Section Hash.
Context `{Crypto} `{B : !HashBytes}.

Definition hash_from_slice (src : bytes) : result string HashValue :=
  _ ← ensure (length src =? HASH_LENGTH)%nat "HashValue decoding failed due to length mismatch."%string;
  Ok (hash_new src).

Definition hash_to_vec (self : HashValue) : bytes := hash_bytes self.

(** [HashValueBitIterator::get_bit]. *)
Definition get_bit (hash_bytes : bytes) (index : nat) : bool :=
  let pos := (index / 8)%nat in
  let bit := 7 - Z.of_nat (index mod 8)%nat in
  negb (Z.land (Z.shiftr (nth pos hash_bytes 0) bit) 1 =? 0).

Definition iter_bits (self : HashValue) : list bool :=
  map (get_bit (hash_bytes self)) (seq 0 HASH_LENGTH_IN_BITS).

#[global] Arguments iter_bits : simpl never.

(** [for (i, bit) in iter.enumerate() { if bit { buf[i / 8] |= 1 << (7 - i % 8) } }]. *)
Fixpoint set_bits (i : nat) (bits : list bool) (buf : bytes) : bytes :=
  match bits with
  | [] => buf
  | bit :: bits =>
    set_bits (S i) bits
      (if bit then <[(i / 8)%nat := Z.lor (nth (i / 8) buf 0) (Z.shiftl 1 (7 - Z.of_nat (i mod 8)))]> buf else buf)
  end.

Definition from_bit_iter (iter : list bool) : result string HashValue :=
  _ ← ensure (length iter =? HASH_LENGTH_IN_BITS)%nat "The iterator should yield exactly 256 bits."%string;
  Ok (hash_new (set_bits 0 iter (replicate HASH_LENGTH 0))).

Fixpoint common_prefix_len {A} `{EqDecision A} (l1 l2 : list A) : nat :=
  match l1, l2 with
  | x :: l1, y :: l2 => if bool_decide (x = y) then S (common_prefix_len l1 l2) else O
  | _, _ => O
  end.

Definition common_prefix_bits_len (self other : HashValue) : nat :=
  common_prefix_len (iter_bits self) (iter_bits other).
Definition common_prefix_nibbles_len (self other : HashValue) : nat :=
  (common_prefix_bits_len self other / 4)%nat.

(** [Nibble::from] panics on 16 and more. *)
Definition nibble_from (nibble : Z) : result string Z := _ ← assert_ (nibble <? 16); Ok nibble.

Definition get_nibble (self : HashValue) (index : nat) : result string Z :=
  byte ← expect (hash_bytes self !! (index / 2)%nat);
  nibble_from (if (index mod 2 =? 0)%nat then Z.shiftr byte 4 else Z.land byte 15).

(** ** Bits *)

Lemma testbit_land_1 z n : negb (Z.land (Z.shiftr z n) 1 =? 0) = Z.testbit (Z.shiftr z n) 0.
Proof.
  rewrite (Z.land_ones _ 1) by lia. change (2 ^ 1) with 2. rewrite Zmod_odd, <- Z.bit0_odd.
  by destruct (Z.testbit _ 0).
Qed.

Lemma get_bit_testbit b i : (i < HASH_LENGTH_IN_BITS)%nat ->
  get_bit b i = Z.testbit (nth (i / 8) b 0) (7 - Z.of_nat (i mod 8)).
Proof.
  intros Hi. unfold get_bit. rewrite testbit_land_1. pose proof (Nat.mod_upper_bound i 8 ltac:(lia)).
  rewrite Z.shiftr_spec by lia. f_equal.
Qed.

Lemma iter_bits_length h : length (iter_bits h) = HASH_LENGTH_IN_BITS.
Proof. unfold iter_bits. by rewrite length_map, length_seq. Qed.

Lemma iter_bits_lookup h i : (i < HASH_LENGTH_IN_BITS)%nat -> iter_bits h !! i = Some (get_bit (hash_bytes h) i).
Proof. intros Hi. unfold iter_bits. by rewrite list_lookup_fmap, lookup_seq_lt by done. Qed.

Lemma byte_testbit b n : is_byte b -> 8 <= n -> Z.testbit b n = false.
Proof.
  intros Hb Hn. destruct (decide (b = 0)) as [->|]; [apply Z.bits_0|]. unfold is_byte in Hb.
  apply Z.bits_above_log2; [lia|]. assert (Z.log2 b < 8) by (apply Z.log2_lt_pow2; lia). lia.
Qed.

(** Byte strings with the same bits are equal. *)
Lemma bytes_bits_inj b1 b2 : is_bytes b1 -> is_bytes b2 -> length b1 = HASH_LENGTH -> length b2 = HASH_LENGTH ->
  (forall i, (i < HASH_LENGTH_IN_BITS)%nat -> get_bit b1 i = get_bit b2 i) -> b1 = b2.
Proof.
  intros H1 H2 L1 L2 Hb. apply (nth_ext _ _ 0 0); [congruence|]. intros p Hp.
  assert (Hby : forall b, is_bytes b -> length b = HASH_LENGTH -> is_byte (nth p b 0)).
  { intros b Hf Hl. unfold is_bytes in Hf. rewrite List.Forall_forall in Hf. apply Hf, nth_In. lia. }
  apply Z.bits_inj. intros n. destruct (decide (n < 0)); [by rewrite !Z.testbit_neg_r by lia|].
  destruct (decide (8 <= n)); [by rewrite !byte_testbit by (done || by apply Hby)|].
  specialize (Hb (8 * p + Z.to_nat (7 - n))%nat). unfold HASH_LENGTH_IN_BITS, HASH_LENGTH in *.
  rewrite !get_bit_testbit in Hb by (unfold HASH_LENGTH_IN_BITS, HASH_LENGTH; lia).
  assert (E1 : ((8 * p + Z.to_nat (7 - n)) / 8 = p)%nat)
    by (rewrite Nat.mul_comm, Nat.div_add_l by lia; rewrite Nat.div_small; lia).
  assert (E2 : ((8 * p + Z.to_nat (7 - n)) mod 8 = Z.to_nat (7 - n))%nat)
    by (rewrite Nat.add_comm, Nat.mul_comm, Nat.Div0.mod_add; apply Nat.mod_small; lia).
  rewrite E1, E2 in Hb. replace (7 - Z.of_nat (Z.to_nat (7 - n))) with n in Hb by lia. apply Hb. lia.
Qed.

Lemma iter_bits_inj `{!HashBytesLaws B} h1 h2 : iter_bits h1 = iter_bits h2 -> h1 = h2.
Proof.
  intros E. rewrite <- (hash_new_bytes h1), <- (hash_new_bytes h2). f_equal.
  apply bytes_bits_inj; try apply hash_bytes_bytes; try apply hash_bytes_length.
  intros i Hi. assert (E' : iter_bits h1 !! i = iter_bits h2 !! i) by (by rewrite E).
  rewrite !iter_bits_lookup in E' by done. by injection E'.
Qed.

(** *** Bytes from bits *)

Definition bits_ok (k : nat) (bits : list bool) (buf : bytes) : Prop :=
  length buf = HASH_LENGTH /\ is_bytes buf /\
  forall i, (i < HASH_LENGTH_IN_BITS)%nat ->
    get_bit buf i = if (i <? k)%nat then default false (bits !! i) else false.

Lemma set_bit_get buf k i : length buf = HASH_LENGTH -> (k < HASH_LENGTH_IN_BITS)%nat -> (i < HASH_LENGTH_IN_BITS)%nat ->
  get_bit (<[(k / 8)%nat := Z.lor (nth (k / 8) buf 0) (Z.shiftl 1 (7 - Z.of_nat (k mod 8)))]> buf) i =
  get_bit buf i || (i =? k)%nat.
Proof.
  intros Hl Hk Hi. rewrite !get_bit_testbit by done. unfold HASH_LENGTH_IN_BITS, HASH_LENGTH in *.
  assert (Hk8 : (k / 8 < 32)%nat) by (apply Nat.Div0.div_lt_upper_bound; lia).
  pose proof (Nat.mod_upper_bound i 8 ltac:(lia)). pose proof (Nat.mod_upper_bound k 8 ltac:(lia)).
  pose proof (Nat.div_mod_eq i 8). pose proof (Nat.div_mod_eq k 8).
  rewrite !nth_lookup. destruct (decide (i / 8 = k / 8)%nat) as [E|Hne].
  - rewrite E. rewrite list_lookup_insert_eq by lia. cbn [from_option id].
    rewrite Z.lor_spec. f_equal. rewrite Z.shiftl_spec by lia.
    destruct (Nat.eqb_spec i k) as [->|Hik].
    + by rewrite Z.sub_diag.
    + destruct (decide (Z.of_nat (i mod 8) < Z.of_nat (k mod 8))).
      * apply Z.bits_above_log2; [lia|]. change (Z.log2 1) with 0. lia.
      * apply Z.testbit_neg_r. lia.
  - rewrite list_lookup_insert_ne by done. destruct (Nat.eqb_spec i k) as [->|]; [done|]. by rewrite orb_false_r.
Qed.

Lemma lor_byte a n : is_byte a -> 0 <= n <= 7 -> is_byte (Z.lor a (Z.shiftl 1 n)).
Proof.
  unfold is_byte. intros Ha Hn. rewrite Z.shiftl_mul_pow2, Z.mul_1_l by lia.
  assert (0 < 2 ^ n) by (apply Z.pow_pos_nonneg; lia).
  split; [apply Z.lor_nonneg; lia|].
  destruct (decide (Z.lor a (2 ^ n) = 0)) as [->|]; [lia|].
  apply (Z.log2_lt_pow2 _ 8); [assert (0 <= Z.lor a (2 ^ n)) by (apply Z.lor_nonneg; lia); lia|].
  rewrite Z.log2_lor, Z.log2_pow2 by lia. apply Z.max_lub_lt; [|lia].
  destruct (decide (a = 0)) as [->|]; [done|]. apply Z.log2_lt_pow2; lia.
Qed.

Lemma set_bits_ok bits rest : forall k buf, bits_ok k bits buf -> (k + length rest <= HASH_LENGTH_IN_BITS)%nat ->
  drop k bits = rest -> bits_ok (k + length rest) bits (set_bits k rest buf).
Proof.
  induction rest as [|bit rest IH]; intros k buf (Hl & Hb & Hg) Hk Hd; cbn [set_bits length] in *.
  { rewrite Nat.add_0_r. done. }
  assert (Hbit : bits !! k = Some bit).
  { rewrite <- (Nat.add_0_r k), <- lookup_drop, Hd. done. }
  replace (k + S (length rest))%nat with (S k + length rest)%nat by lia.
  apply IH; [|lia|].
  2:{ rewrite (drop_S _ bit) in Hd by done. by injection Hd. }
  assert (Hcase : forall i v, default false (bits !! k) = v ->
    (if (i <? S k)%nat then default false (bits !! i) else false) =
    (if (i <? k)%nat then default false (bits !! i) else false) || ((i =? k)%nat && v)).
  { intros i v <-. destruct (Nat.ltb_spec i (S k)), (Nat.ltb_spec i k), (Nat.eqb_spec i k) as [->|]; try lia;
      cbn; rewrite ?orb_false_r; done. }
  destruct bit.
  - split_and!.
    + by rewrite length_insert.
    + apply Forall_insert; [done|]. apply lor_byte.
      * rewrite nth_lookup. unfold HASH_LENGTH_IN_BITS in Hk.
        assert (Hk8 : (k / 8 < HASH_LENGTH)%nat) by (apply Nat.Div0.div_lt_upper_bound; lia).
        destruct (lookup_lt_is_Some_2 buf (k / 8)) as [b Eb]; [lia|]. rewrite Eb. by apply (Forall_lookup_1 _ _ _ _ Hb Eb).
      * pose proof (Nat.mod_upper_bound k 8 ltac:(lia)). lia.
    + intros i Hi. rewrite set_bit_get, Hg by (done || lia). rewrite (Hcase i true) by (by rewrite Hbit). by rewrite andb_true_r.
  - split_and!; [done|done|]. intros i Hi. rewrite Hg by done. rewrite (Hcase i false) by (by rewrite Hbit).
    by rewrite andb_false_r, orb_false_r.
Qed.

(** The bits of a hash value give the hash value back. *)
Theorem bits_roundtrip `{!HashBytesLaws B} h : from_bit_iter (iter_bits h) = Ok h.
Proof.
  unfold from_bit_iter. rewrite iter_bits_length, Nat.eqb_refl. cbn [ensure mbind result_bind]. f_equal.
  destruct (set_bits_ok (iter_bits h) (iter_bits h) 0 (replicate HASH_LENGTH 0)) as (Hl & Hb & Hg).
  - split_and!; [by rewrite length_replicate| |].
    + apply Forall_replicate. unfold is_byte. lia.
    + intros i Hi. rewrite get_bit_testbit by done. rewrite nth_lookup. destruct (replicate _ _ !! _) eqn:E; [|apply Z.bits_0]. apply lookup_replicate in E as [-> _]. apply Z.bits_0.
  - rewrite iter_bits_length. apply Nat.le_refl.
  - reflexivity.
  - rewrite <- (hash_new_bytes h) at 2. f_equal.
    apply bytes_bits_inj; [exact Hb|apply hash_bytes_bytes|exact Hl|apply hash_bytes_length|].
    intros i Hi. rewrite Hg by exact Hi. rewrite iter_bits_length. cbn [Nat.add].
    destruct (Nat.ltb_spec i HASH_LENGTH_IN_BITS); [|lia]. by rewrite iter_bits_lookup.
Qed.
End Hash.

#[global] Arguments iter_bits {_ _} self : simpl never.
