(* ===== verification/SparseMerkleProof.v ===== *)
(** * Sparse Merkle proofs

    [SparseMerkleProof] of [types/src/proof/definition.rs] authenticates the state of
    an account, present or absent.  The reference tree over a set of entries is the
    one the Jellyfish Merkle tree and the scratchpad tree represent: an empty subtree
    is the placeholder, a subtree with one key is its leaf, and any other splits on the
    next bit of the keys.  A proof that the verifier accepts shows what the tree holds
    at the key, or exhibits two different preimages with one hash. *)

From S2P Require Import Prelude U64 Bytes Crypto Hash AccumulatorProof.

Section SparseMerkleProof.
Context `{Crypto} `{B : !HashBytes}.
Context {Blob : Type} `{!EqDecision Blob, !CryptoHash Blob}.

Record SparseMerkleLeafNode := mkSparseMerkleLeafNode { leaf_key : HashValue; leaf_value_hash : HashValue }.

#[global] Instance SparseMerkleLeafNode_eq_dec : EqDecision SparseMerkleLeafNode.
Proof. solve_decision. Defined.

Context `{!CryptoHash SparseMerkleLeafNode}.
Context (SparseMerkleInternalNode_hash : HashValue -> HashValue -> HashValue).
Context (SPARSE_MERKLE_PLACEHOLDER_HASH : HashValue).

Record SparseMerkleProof := mkSparseMerkleProof {
  smp_leaf : option SparseMerkleLeafNode;
  smp_siblings : list HashValue
}.

(** One step of the fold over the siblings and the bits of the key. *)
Definition sparse_step (hash : HashValue) (sb : HashValue * bool) : HashValue :=
  let '(sibling_hash, bit) := sb in
  if (bit : bool) then SparseMerkleInternalNode_hash sibling_hash hash
  else SparseMerkleInternalNode_hash hash sibling_hash.

Definition sparse_merkle_proof_verify (self : SparseMerkleProof) (expected_root_hash element_key : HashValue)
    (element_blob : option Blob) : result string unit :=
  _ ← ensure (length (smp_siblings self) <=? HASH_LENGTH_IN_BITS)%nat
        "Sparse Merkle Tree proof has more than 256 siblings."%string;
  _ ← match element_blob, smp_leaf self with
      | Some blob, Some leaf =>
        _ ← ensure (bool_decide (element_key = leaf_key leaf)) "Keys do not match."%string;
        ensure (bool_decide (crypto_hash blob = leaf_value_hash leaf)) "Value hashes do not match."%string
      | Some _, None => Err "Expected inclusion proof. Found non-inclusion proof."%string
      | None, Some leaf =>
        _ ← ensure (negb (bool_decide (element_key = leaf_key leaf)))
              "Expected non-inclusion proof, but key exists in proof."%string;
        ensure (length (smp_siblings self) <=? common_prefix_bits_len element_key (leaf_key leaf))%nat
          "Key would not have ended up in the subtree."%string
      | None, None => Ok tt
      end;
  let current_hash := match smp_leaf self with Some leaf => crypto_hash leaf | None => SPARSE_MERKLE_PLACEHOLDER_HASH end in
  let bits := drop (HASH_LENGTH_IN_BITS - length (smp_siblings self)) (rev (iter_bits element_key)) in
  let actual_root_hash := fold_left sparse_step (zip (smp_siblings self) bits) current_hash in
  ensure (bool_decide (actual_root_hash = expected_root_hash)) "Root hashes do not match."%string.

(** ** The reference tree *)

Definition key_bit (depth : nat) (key : HashValue) : bool := nth depth (iter_bits key) false.

Definition split_bit (depth : nat) (b : bool) (es : list (HashValue * Blob)) : list (HashValue * Blob) :=
  List.filter (fun e => Bool.eqb (key_bit depth e.1) b) es.

(** The subtree of the keys that agree up to [depth]; [fuel] is the number of bits left. *)
Fixpoint sparse_hash (fuel depth : nat) (es : list (HashValue * Blob)) : HashValue :=
  match es with
  | [] => SPARSE_MERKLE_PLACEHOLDER_HASH
  | [(k, v)] => crypto_hash {| leaf_key := k; leaf_value_hash := crypto_hash v |}
  | _ =>
    match fuel with
    | O => SPARSE_MERKLE_PLACEHOLDER_HASH
    | S fuel => SparseMerkleInternalNode_hash (sparse_hash fuel (S depth) (split_bit depth false es))
                                              (sparse_hash fuel (S depth) (split_bit depth true es))
    end
  end.
Definition sparse_root (es : list (HashValue * Blob)) : HashValue := sparse_hash HASH_LENGTH_IN_BITS 0 es.

(** ** Soundness *)

Inductive sparse_preimage :=
| SPlaceholder
| SLeaf (leaf : SparseMerkleLeafNode)
| SInternal (left right : HashValue)
| SBlob (blob : Blob).

#[global] Instance sparse_preimage_eq_dec : EqDecision sparse_preimage.
Proof. solve_decision. Defined.

Definition sparse_preimage_hash (p : sparse_preimage) : HashValue :=
  match p with
  | SPlaceholder => SPARSE_MERKLE_PLACEHOLDER_HASH
  | SLeaf leaf => crypto_hash leaf
  | SInternal l r => SparseMerkleInternalNode_hash l r
  | SBlob blob => crypto_hash blob
  end.

Definition sparse_node (fuel depth : nat) (es : list (HashValue * Blob)) : sparse_preimage :=
  match es with
  | [] => SPlaceholder
  | [(k, v)] => SLeaf {| leaf_key := k; leaf_value_hash := crypto_hash v |}
  | _ =>
    match fuel with
    | O => SPlaceholder
    | S fuel => SInternal (sparse_hash fuel (S depth) (split_bit depth false es))
                          (sparse_hash fuel (S depth) (split_bit depth true es))
    end
  end.

Lemma sparse_node_hash fuel depth es : sparse_hash fuel depth es = sparse_preimage_hash (sparse_node fuel depth es).
Proof. destruct es as [|[k v] [|e es]]; destruct fuel; done. Qed.

(** The entries whose keys follow the bits [bs] from [depth] on. *)
Fixpoint follow (depth : nat) (bs : list bool) (es : list (HashValue * Blob)) : list (HashValue * Blob) :=
  match bs with
  | [] => es
  | b :: bs => follow (S depth) bs (split_bit depth b es)
  end.

(** What the tree over [es] hashes. *)
Definition sparse_tree (es : list (HashValue * Blob)) (p : sparse_preimage) : Prop :=
  (exists bs, p = sparse_node (HASH_LENGTH_IN_BITS - length bs) (length bs) (follow 0 bs es)) \/
  (exists k v, (k, v) ∈ es /\ p = SBlob v).

Definition sparse_collision (computed : list sparse_preimage) (es : list (HashValue * Blob)) : Prop :=
  exists a b, In a computed /\ sparse_tree es b /\ a <> b /\ sparse_preimage_hash a = sparse_preimage_hash b.

(** What the verifier hashes. *)
Fixpoint sparse_path (sibs : list (HashValue * bool)) (hash : HashValue) : list sparse_preimage :=
  match sibs with
  | [] => []
  | (s, b) :: sibs => (if (b : bool) then SInternal s hash else SInternal hash s) :: sparse_path sibs (sparse_step hash (s, b))
  end.
Definition leaf_preimage (leaf : option SparseMerkleLeafNode) : sparse_preimage :=
  match leaf with Some leaf => SLeaf leaf | None => SPlaceholder end.
Definition key_bits (pf : SparseMerkleProof) (key : HashValue) : list bool :=
  drop (HASH_LENGTH_IN_BITS - length (smp_siblings pf)) (rev (iter_bits key)).
Definition sparse_preimages (pf : SparseMerkleProof) (key : HashValue) (blob : option Blob) : list sparse_preimage :=
  leaf_preimage (smp_leaf pf) ::
  sparse_path (zip (smp_siblings pf) (key_bits pf key)) (sparse_preimage_hash (leaf_preimage (smp_leaf pf))) ++
  match blob with Some b => [SBlob b] | None => [] end.

Lemma sparse_collision_incl c1 c2 es : incl c1 c2 -> sparse_collision c1 es -> sparse_collision c2 es.
Proof. intros Hi (a & b & Ha & Hr). exists a, b. split; [by apply Hi|done]. Qed.

Lemma sparse_or_collision a b es : sparse_tree es b -> sparse_preimage_hash a = sparse_preimage_hash b ->
  a = b \/ sparse_collision [a] es.
Proof.
  intros Hb E. destruct (decide (a = b)) as [|Hne]; [by left|right]. exists a, b. split_and!; [by left|done..].
Qed.

Lemma follow_app bs1 : forall depth bs2 es,
  follow depth (bs1 ++ bs2) es = follow (depth + length bs1) bs2 (follow depth bs1 es).
Proof.
  induction bs1 as [|b bs1 IH]; intros depth bs2 es; cbn; [by rewrite Nat.add_0_r|]. rewrite IH. f_equal. lia.
Qed.

Lemma sparse_path_snoc sibs s b : forall hash,
  sparse_path (sibs ++ [(s, b)]) hash =
  sparse_path sibs hash ++ [let v := fold_left sparse_step sibs hash in if (b : bool) then SInternal s v else SInternal v s].
Proof. induction sibs as [|[s' b'] sibs IH]; intros hash; [done|]. cbn [app sparse_path]. by rewrite IH. Qed.

Lemma sparse_node_internal fuel depth es l r : sparse_node fuel depth es = SInternal l r ->
  exists fuel', fuel = S fuel' /\ l = sparse_hash fuel' (S depth) (split_bit depth false es) /\
    r = sparse_hash fuel' (S depth) (split_bit depth true es).
Proof. destruct es as [|[k v] [|e es]]; destruct fuel; try done. intros [= <- <-]. eauto. Qed.

(** A path that leads to the subtree at [pre] starts from the subtree its bits lead to. *)
Lemma sparse_path_sound es cur : forall bs sibs pre, length sibs = length bs ->
  (length pre + length bs <= HASH_LENGTH_IN_BITS)%nat ->
  fold_left sparse_step (zip sibs (rev bs)) cur =
    sparse_hash (HASH_LENGTH_IN_BITS - length pre) (length pre) (follow 0 pre es) ->
  cur = sparse_hash (HASH_LENGTH_IN_BITS - length (pre ++ bs)) (length (pre ++ bs)) (follow 0 (pre ++ bs) es) \/
  sparse_collision (sparse_path (zip sibs (rev bs)) cur) es.
Proof.
  induction bs as [|b bs IH]; intros sibs pre Hl Hb E.
  { destruct sibs; [|done]. cbn in E. left. by rewrite app_nil_r. }
  destruct (exists_last (l:=sibs)) as (sibs' & s & ->); [by destruct sibs|].
  rewrite length_app in Hl. cbn [length] in *. cbn [rev] in *.
  rewrite zip_with_app in * by (rewrite length_rev; lia). cbn [zip_with] in *.
  rewrite fold_left_app in E. cbn [fold_left] in E. rewrite sparse_path_snoc. cbn zeta.
  set (v := fold_left sparse_step (zip sibs' (rev bs)) cur) in *.
  set (a := if b then SInternal s v else SInternal v s).
  set (node := sparse_node (HASH_LENGTH_IN_BITS - length pre) (length pre) (follow 0 pre es)).
  assert (Ea : sparse_preimage_hash a = sparse_preimage_hash node).
  { unfold node. rewrite <- sparse_node_hash, <- E. unfold a. by destruct b. }
  destruct (sparse_or_collision a node es) as [Hn|Hc]; [left; by exists pre|done| |].
  2:{ right. eapply sparse_collision_incl; [|done]. intros x [<-|[]]. apply in_or_app. right. by left. }
  assert (Hv : v = sparse_hash (HASH_LENGTH_IN_BITS - length (pre ++ [b])) (length (pre ++ [b])) (follow 0 (pre ++ [b]) es)).
  { rewrite length_app. cbn [length]. rewrite follow_app. cbn [follow Nat.add].
    replace (length pre + 1)%nat with (S (length pre)) by lia.
    unfold a, node in Hn. destruct b; symmetry in Hn; apply sparse_node_internal in Hn as (f & Ef & H1 & H2);
      replace (HASH_LENGTH_IN_BITS - S (length pre))%nat with f by lia; done. }
  destruct (IH sibs' (pre ++ [b])) as [Hcur|Hc]; [lia|rewrite length_app; cbn [length]; lia|exact Hv| |].
  - left. by rewrite <- app_assoc in Hcur.
  - right. eapply sparse_collision_incl; [|done]. apply incl_appl, incl_refl.
Qed.

Lemma follow_elem bs : forall depth es k v, (k, v) ∈ follow depth bs es <->
  (k, v) ∈ es /\ forall j b, bs !! j = Some b -> key_bit (depth + j) k = b.
Proof.
  induction bs as [|b bs IH]; intros depth es k v; cbn [follow].
  - split; [|by intros [? _]]. intros Hin. split; [done|]. intros j b Hj. by rewrite lookup_nil in Hj.
  - rewrite IH. unfold split_bit. rewrite !list_elem_of_In, filter_In. cbn [fst]. rewrite eqb_true_iff. split.
    + intros [[Hin Hb] Hj]. split; [done|]. intros [|j] b' E; cbn in E.
      * injection E as <-. by rewrite Nat.add_0_r.
      * rewrite <- Nat.add_succ_comm. by apply Hj.
    + intros [Hin Hj]. split; [split; [done|]|].
      * specialize (Hj 0%nat b eq_refl). by rewrite Nat.add_0_r in Hj.
      * intros j b' E. rewrite Nat.add_succ_comm. by apply Hj.
Qed.

Lemma follow_own_key n es k v : (n <= HASH_LENGTH_IN_BITS)%nat -> (k, v) ∈ es ->
  (k, v) ∈ follow 0 (take n (iter_bits k)) es.
Proof.
  intros Hn Hin. apply follow_elem. split; [done|]. intros j b Hj. unfold key_bit. cbn [Nat.add].
  apply lookup_take_Some in Hj as [Hj _]. rewrite nth_lookup, Hj. done.
Qed.

(** The key bits of the verifier are those of the path, from the bottom up. *)
Lemma key_bits_rev pf key : (length (smp_siblings pf) <= HASH_LENGTH_IN_BITS)%nat ->
  key_bits pf key = rev (take (length (smp_siblings pf)) (iter_bits key)).
Proof.
  intros Hl. unfold key_bits. rewrite <- (take_drop (length (smp_siblings pf)) (iter_bits key)) at 1.
  rewrite rev_app_distr, drop_app_ge by (rewrite length_rev, length_drop, iter_bits_length; lia).
  rewrite length_rev, length_drop, iter_bits_length.
  by rewrite Nat.sub_diag, drop_0.
Qed.

(** All 256 bits single out a key. *)
Lemma follow_full `{!HashBytesLaws B} es bs k1 v1 k2 v2 : length bs = HASH_LENGTH_IN_BITS ->
  (k1, v1) ∈ follow 0 bs es -> (k2, v2) ∈ follow 0 bs es -> k1 = k2.
Proof.
  intros Hl [_ H1]%follow_elem [_ H2]%follow_elem. apply iter_bits_inj. apply (nth_ext _ _ false false).
  - by rewrite !iter_bits_length.
  - intros j Hj. rewrite iter_bits_length in Hj. destruct (lookup_lt_is_Some_2 bs j) as [b Eb]; [lia|].
    specialize (H1 j b Eb). specialize (H2 j b Eb). unfold key_bit in *. cbn [Nat.add] in *. congruence.
Qed.

Lemma split_bit_sublist depth b es : sublist (split_bit depth b es).*1 es.*1.
Proof.
  unfold split_bit. induction es as [|e es IH]; cbn; [done|]. destruct (Bool.eqb _ _); cbn; [by apply sublist_skip|by apply sublist_cons].
Qed.

Lemma follow_nodup bs : forall depth es, NoDup es.*1 -> NoDup (follow depth bs es).*1.
Proof.
  induction bs as [|b bs IH]; intros depth es Hn; cbn [follow]; [done|]. apply IH.
  by eapply sublist_NoDup, split_bit_sublist.
Qed.

(** What the reference node at the end of the path tells about the key. *)
Lemma sparse_node_absent `{!HashBytesLaws B} es key n : NoDup es.*1 -> (n <= HASH_LENGTH_IN_BITS)%nat ->
  SPlaceholder = sparse_node (HASH_LENGTH_IN_BITS - n) n (follow 0 (take n (iter_bits key)) es) -> key ∉ es.*1.
Proof.
  intros Hnd Hn E Hin. apply list_elem_of_fmap in Hin as ([k v] & -> & Hin). cbn [fst] in E.
  pose proof (follow_own_key n es k v Hn Hin) as Hf.
  pose proof (follow_nodup (take n (iter_bits k)) 0 es Hnd) as Hd.
  destruct (follow 0 (take n (iter_bits k)) es) as [|[k1 v1] [|[k2 v2] l]] eqn:Ef.
  - by apply elem_of_nil in Hf.
  - done.
  - destruct (HASH_LENGTH_IN_BITS - n)%nat as [|f] eqn:En; [|done].
    assert (E12 : k1 = k2).
    { apply (follow_full es (take n (iter_bits k)) k1 v1 k2 v2).
      - rewrite length_take, iter_bits_length. lia.
      - rewrite Ef. by left.
      - rewrite Ef. right. by left. }
    subst k2. cbn in Hd. apply list.NoDup_cons in Hd as [Hd _]. apply Hd. by left.
Qed.

Lemma sparse_node_leaf fuel depth es leaf : SLeaf leaf = sparse_node fuel depth es ->
  exists v, es = [(leaf_key leaf, v)] /\ leaf_value_hash leaf = crypto_hash v.
Proof.
  destruct es as [|[k v] [|e es]]; destruct fuel; try done; cbn; intros [= ->]; cbn; eauto.
Qed.

Lemma sparse_or_collision_at `{!HashBytesLaws B} es pf key blob : NoDup es.*1 ->
  sparse_merkle_proof_verify pf (sparse_root es) key blob = Ok tt ->
  match blob with Some b => (key, b) ∈ es | None => key ∉ es.*1 end \/
  sparse_collision (sparse_preimages pf key blob) es.
Proof.
  intros Hnd Hv. unfold sparse_merkle_proof_verify in Hv. apply bind_Ok in Hv as (u1 & Hn & Hv).
  apply bind_Ok in Hv as (u2 & Hm & E). apply ensure_Ok, Nat.leb_le in Hn. cbv zeta in E.
  apply ensure_Ok, bool_decide_eq_true in E. fold (key_bits pf key) in E.
  set (n := length (smp_siblings pf)) in *.
  assert (Hcur : match smp_leaf pf with Some leaf => crypto_hash leaf | None => SPARSE_MERKLE_PLACEHOLDER_HASH end =
    sparse_preimage_hash (leaf_preimage (smp_leaf pf))) by (by destruct (smp_leaf pf)).
  rewrite Hcur in E. unfold sparse_preimages. rewrite key_bits_rev in * by done. fold n in E |- *.
  assert (Hlen : length (take n (iter_bits key)) = n) by (rewrite length_take, iter_bits_length; lia).
  destruct (sparse_path_sound es (sparse_preimage_hash (leaf_preimage (smp_leaf pf))) (take n (iter_bits key))
    (smp_siblings pf) []) as [Hc|Hc]; [by rewrite Hlen|cbn [length Nat.add]; lia|exact E| |].
  2:{ right. eapply sparse_collision_incl; [|done]. intros x Hx. right. apply in_or_app. by left. }
  cbn [app] in Hc. rewrite Hlen, sparse_node_hash in Hc.
  assert (Ht : sparse_tree es (sparse_node (HASH_LENGTH_IN_BITS - n) n (follow 0 (take n (iter_bits key)) es)))
    by (left; exists (take n (iter_bits key)); by rewrite Hlen).
  destruct (sparse_or_collision _ _ es Ht Hc) as [Hnode|Hcol].
  2:{ right. eapply sparse_collision_incl; [|done]. intros x [<-|[]]. by left. }
  destruct (smp_leaf pf) as [leaf|] eqn:El; cbn [leaf_preimage] in Hnode.
  - apply sparse_node_leaf in Hnode as (v & Hes & Hvh).
    assert (Hin : (leaf_key leaf, v) ∈ es).
    { assert (Hf : (leaf_key leaf, v) ∈ follow 0 (take n (iter_bits key)) es) by (rewrite Hes; by left).
      by apply follow_elem in Hf as [? _]. }
    destruct blob as [b|]; apply bind_Ok in Hm as (u3 & Hkey & Hm); apply ensure_Ok in Hkey, Hm.
    + apply bool_decide_eq_true in Hkey as ->. apply bool_decide_eq_true in Hm.
      destruct (sparse_or_collision (SBlob b) (SBlob v) es) as [Hb|Hcol]; [by right; eauto|cbn; congruence| |].
      * left. injection Hb as ->. done.
      * right. eapply sparse_collision_incl; [|done]. intros y [<-|[]]. right. apply in_or_app. right. by left.
    + apply negb_true_iff, bool_decide_eq_false in Hkey. left. intros Hk. apply list_elem_of_fmap in Hk as ([k w] & -> & Hk). cbn in *.
      pose proof (follow_own_key n es k w Hn Hk) as Hf. rewrite Hes in Hf. apply list_elem_of_singleton in Hf. congruence.
  - destruct blob as [b|]; [done|]. left. by eapply sparse_node_absent.
Qed.

(** A sparse Merkle proof that the verifier accepts against the root of the tree over [es] shows
    that the key has that value, or that it is absent; or it exhibits a collision. *)
Theorem sparse_sound `{!HashBytesLaws B} es pf key blob : NoDup es.*1 ->
  sparse_merkle_proof_verify pf (sparse_root es) key blob = Ok tt ->
  match blob with Some b => (key, b) ∈ es | None => key ∉ es.*1 end \/
  sparse_collision (sparse_preimages pf key blob) es.
Proof. apply sparse_or_collision_at. Qed.
End SparseMerkleProof.
