(* ===== verification/SparseMerkleTree.v ===== *)
(** * The sparse Merkle tree as a reference for proofs

    The siblings and the leaf on the path of a key in the reference tree of
    [SparseMerkleProof], which [JellyfishMerkleTree::get_with_proof] collects node by node.
    The verifier accepts them, for a key that is present and for one that is absent. *)

From S2P Require Import Prelude U64 Bytes Crypto Hash AccumulatorProof SparseMerkleProof.

Section SparseMerkleTree.
Context `{Crypto} `{B : !HashBytes, !HashBytesLaws B}.
Context {Blob : Type} `{!EqDecision Blob, !CryptoHash Blob, !CryptoHash SparseMerkleLeafNode}.
Context (SparseMerkleInternalNode_hash : HashValue -> HashValue -> HashValue).
Context (SPARSE_MERKLE_PLACEHOLDER_HASH : HashValue).

Notation entries := (list (HashValue * Blob)).
Notation sparse_hash := (sparse_hash SparseMerkleInternalNode_hash SPARSE_MERKLE_PLACEHOLDER_HASH).
Notation sparse_root := (sparse_root SparseMerkleInternalNode_hash SPARSE_MERKLE_PLACEHOLDER_HASH).
Notation sparse_step := (sparse_step SparseMerkleInternalNode_hash).
Notation verify := (sparse_merkle_proof_verify SparseMerkleInternalNode_hash SPARSE_MERKLE_PLACEHOLDER_HASH).

(** The entry at the end of the path of [key], and the siblings from the top down. *)
Fixpoint ref_proof (fuel depth : nat) (key : HashValue) (es : entries) : option (HashValue * Blob) * list HashValue :=
  match es with
  | [] => (None, [])
  | [e] => (Some e, [])
  | _ =>
    match fuel with
    | O => (None, [])
    | S fuel =>
      let b := key_bit depth key in
      let '(leaf, siblings) := ref_proof fuel (S depth) key (split_bit depth b es) in
      (leaf, sparse_hash fuel (S depth) (split_bit depth (negb b) es) :: siblings)
    end
  end.

Definition leaf_of (e : HashValue * Blob) : SparseMerkleLeafNode := mkSparseMerkleLeafNode e.1 (crypto_hash e.2).
Definition ref_sparse_proof (key : HashValue) (es : entries) : SparseMerkleProof :=
  let '(leaf, siblings) := ref_proof HASH_LENGTH_IN_BITS 0 key es in
  mkSparseMerkleProof (leaf_of <$> leaf) (rev siblings).

(** The value of a key. *)
Fixpoint lookup_entry (key : HashValue) (es : entries) : option Blob :=
  match es with
  | [] => None
  | (k, v) :: es => if bool_decide (k = key) then Some v else lookup_entry key es
  end.

Lemma lookup_entry_Some key es v : NoDup es.*1 -> lookup_entry key es = Some v <-> (key, v) ∈ es.
Proof.
  induction es as [|[k w] es IH]; intros Hnd; cbn [lookup_entry].
  - split; [done|]. intros Hin. by apply elem_of_nil in Hin.
  - cbn in Hnd. apply list.NoDup_cons in Hnd as [Hk Hnd]. rewrite elem_of_cons. case_bool_decide as Ek.
    + subst k. split; [intros [= ->]; by left|]. intros [[= ->]|Hin]; [done|]. exfalso. apply Hk.
      apply list_elem_of_fmap. by exists (key, v).
    + rewrite IH by done. naive_solver.
Qed.

Lemma lookup_entry_None key es : lookup_entry key es = None <-> key ∉ es.*1.
Proof.
  induction es as [|[k w] es IH]; cbn [lookup_entry].
  - split; [|done]. intros _ Hin. by apply elem_of_nil in Hin.
  - cbn. rewrite elem_of_cons. case_bool_decide as Ek; [subst; naive_solver|]. rewrite IH. naive_solver.
Qed.

Lemma split_bit_elem d b (es : entries) k v : (k, v) ∈ split_bit d b es <-> (k, v) ∈ es /\ key_bit d k = b.
Proof. unfold split_bit. rewrite !list_elem_of_In, filter_In. cbn. by rewrite eqb_true_iff. Qed.

Lemma common_prefix_len_ge {A} `{EqDecision A} (l1 l2 : list A) : forall n, (n <= length l1)%nat -> (n <= length l2)%nat ->
  (forall j, (j < n)%nat -> l1 !! j = l2 !! j) -> (n <= common_prefix_len l1 l2)%nat.
Proof.
  revert l2. induction l1 as [|x l1 IH]; intros l2 n H1 H2 Hj; cbn in H1; [lia|].
  destruct n as [|n]; [lia|]. destruct l2 as [|y l2]; cbn in H2; [lia|]. cbn.
  specialize (Hj 0%nat ltac:(lia)) as H0. injection H0 as ->. rewrite bool_decide_eq_true_2 by done.
  specialize (IH l2 n ltac:(lia) ltac:(lia)). assert ((n <= common_prefix_len l1 l2)%nat); [|lia]. apply IH.
  intros j Hjn. apply (Hj (S j)). lia.
Qed.

Lemma key_bit_lookup d k : (d < HASH_LENGTH_IN_BITS)%nat -> iter_bits k !! d = Some (key_bit d k).
Proof.
  intros Hd. unfold key_bit. rewrite (nth_lookup (iter_bits k)).
  destruct (lookup_lt_is_Some_2 (iter_bits k) d) as [b ->]; [by rewrite iter_bits_length|done].
Qed.

Lemma key_bits_inj k1 k2 : (forall d, (d < HASH_LENGTH_IN_BITS)%nat -> key_bit d k1 = key_bit d k2) -> k1 = k2.
Proof.
  intros Hd. apply iter_bits_inj. apply list_eq_same_length with (n := HASH_LENGTH_IN_BITS); rewrite ?iter_bits_length; try done.
  intros i x y Hi Hx Hy. rewrite key_bit_lookup in Hx, Hy by done. rewrite Hd in Hx by done. congruence.
Qed.

Definition agree (d : nat) (key : HashValue) (es : entries) : Prop :=
  forall k v, (k, v) ∈ es -> forall j, (j < d)%nat -> key_bit j k = key_bit j key.

Lemma agree_split d key es : agree d key es -> agree (S d) key (split_bit d (key_bit d key) es).
Proof.
  intros Ha k v [Hin Hb]%split_bit_elem j Hj. destruct (decide (j = d)) as [->|]; [done|]. apply (Ha k v Hin). lia.
Qed.

Lemma agree_full key es : agree HASH_LENGTH_IN_BITS key es -> NoDup es.*1 -> (length es <= 1)%nat.
Proof.
  intros Ha Hnd. destruct es as [|[k1 v1] [|[k2 v2] es]]; cbn [length]; try lia. exfalso.
  assert (E : k1 = k2).
  { transitivity key; [|symmetry]; apply key_bits_inj; intros d Hd.
    - apply (Ha k1 v1); [by left|done].
    - apply (Ha k2 v2); [right; by left|done]. }
  cbn in Hnd. apply list.NoDup_cons in Hnd as [Hn _]. apply Hn. rewrite E. by left.
Qed.

Lemma split_bit_nodup d b (es : entries) : NoDup es.*1 -> NoDup (split_bit d b es).*1.
Proof. intros Hn. by eapply sublist_NoDup, split_bit_sublist. Qed.

Definition leaf_hash_of (leaf : option (HashValue * Blob)) : HashValue :=
  match leaf with Some e => crypto_hash (leaf_of e) | None => SPARSE_MERKLE_PLACEHOLDER_HASH end.

Lemma ref_proof_path : forall fuel d key es, (d + fuel = HASH_LENGTH_IN_BITS)%nat -> NoDup es.*1 -> agree d key es ->
  let '(leaf, sibs) := ref_proof fuel d key es in
  (length sibs <= fuel)%nat /\
  fold_left sparse_step (zip (rev sibs) (rev (take (length sibs) (drop d (iter_bits key))))) (leaf_hash_of leaf) =
    sparse_hash fuel d es /\
  match leaf with
  | None => key ∉ es.*1
  | Some (k, v) => (k, v) ∈ es /\ (key ∈ es.*1 -> k = key) /\ forall j, (j < d + length sibs)%nat -> key_bit j k = key_bit j key
  end.
Proof.
  induction fuel as [|fuel IH]; intros d key es Hf Hnd Ha; destruct es as [|[k v] [|e2 es]]; cbn [ref_proof].
  1, 4: split_and!; [cbn; lia|done|]; intros Hin; by apply elem_of_nil in Hin.
  1, 3: split_and!; [cbn; lia|done|by left| |]; [intros Hin; apply list_elem_of_singleton in Hin; done|];
    cbn [length]; intros j Hj; apply (Ha k v); [by left|lia].
  - pose proof (agree_full key ((k, v) :: e2 :: es)) as Hl. replace d with HASH_LENGTH_IN_BITS in Ha by lia. specialize (Hl Ha Hnd).
    cbn in Hl. lia.
  - set (es0 := (k, v) :: e2 :: es) in *. set (b := key_bit d key).
    specialize (IH (S d) key (split_bit d b es0) ltac:(lia) (split_bit_nodup d b es0 Hnd) (agree_split d key es0 Ha)).
    assert (Hsh : sparse_hash (S fuel) d es0 = SparseMerkleInternalNode_hash (sparse_hash fuel (S d) (split_bit d false es0))
      (sparse_hash fuel (S d) (split_bit d true es0))) by done.
    cbv zeta. fold b. rewrite Hsh. clearbody es0. destruct (ref_proof fuel (S d) key (split_bit d b es0)) as [leaf sibs].
    destruct IH as (Hl & Hfold & Hleaf). split_and!.
    + cbn [length]. lia.
    + cbn [length rev]. rewrite (drop_S (iter_bits key) b d) by (apply key_bit_lookup; lia). cbn [firstn rev].
      rewrite zip_with_app by (rewrite !length_rev, length_take, length_drop, iter_bits_length; lia).
      rewrite fold_left_app, Hfold. cbn. by destruct b.
    + assert (Hsp : forall k' v', (k', v') ∈ es0 -> k' = key -> (k', v') ∈ split_bit d b es0)
        by (intros k' v' Hin ->; by apply split_bit_elem).
      destruct leaf as [[k1 v1]|].
      * destruct Hleaf as (Hin & Hk & Hj). split_and!; [by apply split_bit_elem in Hin as [? _]| |].
        -- intros Hkey. apply Hk. apply list_elem_of_fmap in Hkey as ([k' v'] & -> & Hkey). apply list_elem_of_fmap. exists (k', v').
           split; [done|]. by apply Hsp.
        -- cbn [length]. intros j Hjd. apply Hj. lia.
      * intros Hkey. apply Hleaf. apply list_elem_of_fmap in Hkey as ([k' v'] & -> & Hkey). apply list_elem_of_fmap. exists (k', v').
        split; [done|]. by apply Hsp.
Qed.

Lemma ref_proof_lookup key es : NoDup es.*1 ->
  lookup_entry key es = match (ref_proof HASH_LENGTH_IN_BITS 0 key es).1 with
                        | Some (k, v) => if bool_decide (k = key) then Some v else None
                        | None => None
                        end.
Proof.
  intros Hnd. pose proof (ref_proof_path HASH_LENGTH_IN_BITS 0 key es eq_refl Hnd) as Hp.
  destruct (ref_proof HASH_LENGTH_IN_BITS 0 key es) as [leaf sibs]. destruct Hp as (_ & _ & Hleaf); [intros k v _ j Hj; lia|].
  cbn [fst]. destruct leaf as [[k v]|].
  - destruct Hleaf as (Hin & Hk & _). case_bool_decide as Ek; [subst; by apply lookup_entry_Some|].
    apply lookup_entry_None. intros Hkey. by apply Ek, Hk.
  - by apply lookup_entry_None.
Qed.

(** The verifier accepts the proof of the value of a key, or of its absence. *)
Lemma ref_sparse_proof_verifies key es : NoDup es.*1 ->
  verify (ref_sparse_proof key es) (sparse_root es) key (lookup_entry key es) = Ok tt.
Proof.
  intros Hnd. rewrite (ref_proof_lookup key es Hnd). unfold ref_sparse_proof.
  pose proof (ref_proof_path HASH_LENGTH_IN_BITS 0 key es eq_refl Hnd) as Hp.
  destruct (ref_proof HASH_LENGTH_IN_BITS 0 key es) as [leaf sibs].
  destruct Hp as (Hl & Hfold & Hleaf); [intros k v _ j Hj; lia|]. cbn [fst].
  unfold sparse_merkle_proof_verify. cbn [smp_siblings smp_leaf]. rewrite length_rev.
  rewrite (proj2 (Nat.leb_le _ _) Hl). cbn [ensure mbind result_bind].
  set (pf := mkSparseMerkleProof (leaf_of <$> leaf) (rev sibs)).
  assert (Hbits : drop (HASH_LENGTH_IN_BITS - length sibs) (rev (iter_bits key)) = rev (take (length sibs) (iter_bits key))).
  { pose proof (key_bits_rev pf key) as Hk. unfold key_bits in Hk. cbn [smp_siblings pf] in Hk. rewrite length_rev in Hk. by apply Hk. }
  rewrite Hbits. rewrite drop_0 in Hfold.
  assert (Hcur : match leaf_of <$> leaf with Some l => crypto_hash l | None => SPARSE_MERKLE_PLACEHOLDER_HASH end = leaf_hash_of leaf)
    by (by destruct leaf).
  rewrite Hcur, Hfold. rewrite (bool_decide_eq_true_2 (_ = sparse_root es)) by done.
  destruct leaf as [[k v]|]; cbn [fmap option_fmap option_map leaf_of fst snd leaf_key leaf_value_hash]; [|done].
  destruct Hleaf as (_ & _ & Hj). case_bool_decide as Ek; cbn [leaf_key leaf_value_hash].
  - rewrite !bool_decide_eq_true_2 by done. done.
  - rewrite bool_decide_eq_false_2 by done. cbn [negb ensure mbind result_bind].
    assert (Hpre : (length sibs <= common_prefix_bits_len key k)%nat).
    { apply common_prefix_len_ge; rewrite ?iter_bits_length; try done. intros j Hjn.
      rewrite !key_bit_lookup by lia. f_equal. symmetry. apply Hj. lia. }
    by rewrite (proj2 (Nat.leb_le _ _) Hpre).
Qed.
End SparseMerkleTree.
