(* ===== verification/ValidatorVerifier.v ===== *)
(** * Validator sets and quorums

    [types/src/validator_verifier.rs] and [types/src/validator_signer.rs]: voting
    power, quorum sizes and the verification of aggregated signatures.  The main
    facts are that a verified aggregated signature carries a valid signature of a
    quorum, and that two quorums share a correct validator as long as less than a
    third of the voting power is Byzantine. *)

From stdpp Require Import sorting.
From S2P Require Import Prelude U64 Crypto.

(** Account addresses are 16 bytes, ordered as big-endian numbers. *)
Definition AccountAddress : Type := Z.

Inductive VerifyError : Type :=
| UnknownAuthor
| TooLittleVotingPower (voting_power quorum_voting_power : Z)
| TooManySignatures (num_of_signatures num_of_authors : Z)
| InvalidSignature.

#[global] Instance VerifyError_eq_dec : EqDecision VerifyError.
Proof. solve_decision. Defined.

Section ValidatorVerifier.
Context `{Crypto}.

Record ValidatorConsensusInfo := mkValidatorConsensusInfo {
  vci_public_key : PublicKey;
  vci_voting_power : Z
}.

#[global] Instance ValidatorConsensusInfo_eq_dec : EqDecision ValidatorConsensusInfo.
Proof. solve_decision. Defined.

Record ValidatorVerifier := mkValidatorVerifier {
  address_to_validator_info : gmap AccountAddress ValidatorConsensusInfo;
  quorum_voting_power : Z;
  total_voting_power : Z
}.

#[global] Instance ValidatorVerifier_eq_dec : EqDecision ValidatorVerifier.
Proof. solve_decision. Defined.

(** [values().map(|x| x.voting_power).sum()], in [u64]. *)
Definition sum_voting_power (infos : gmap AccountAddress ValidatorConsensusInfo) : Z :=
  fold_left u64_add (map (fun kv => vci_voting_power kv.2) (map_to_list infos)) 0.

Definition verifier_new (infos : gmap AccountAddress ValidatorConsensusInfo) : ValidatorVerifier :=
  let total := sum_voting_power infos in
  {| address_to_validator_info := infos;
     quorum_voting_power :=
       if bool_decide (infos = ∅) then 0 else u64_add (u64_mul total 2 / 3) 1;
     total_voting_power := total |}.

Definition new_with_quorum_voting_power (infos : gmap AccountAddress ValidatorConsensusInfo) (quorum : Z)
    : result string ValidatorVerifier :=
  let total := sum_voting_power infos in
  _ ← ensure (quorum <=? total)
        "Quorum voting power is greater than the sum of all voting power of authors"%string;
  Ok {| address_to_validator_info := infos; quorum_voting_power := quorum; total_voting_power := total |}.

Definition verifier_new_single (author : AccountAddress) (pk : PublicKey) : ValidatorVerifier :=
  verifier_new {[ author := {| vci_public_key := pk; vci_voting_power := 1 |} ]}.

Definition get_public_key (self : ValidatorVerifier) (author : AccountAddress) : option PublicKey :=
  vci_public_key <$> address_to_validator_info self !! author.

Definition get_voting_power (self : ValidatorVerifier) (author : AccountAddress) : option Z :=
  vci_voting_power <$> address_to_validator_info self !! author.

Definition verifier_len (self : ValidatorVerifier) : Z := Z.of_nat (size (address_to_validator_info self)).
Definition verifier_is_empty (self : ValidatorVerifier) : bool := verifier_len self =? 0.

(** A [BTreeMap] iterates in the order of its keys. *)
Definition get_ordered_account_addresses (self : ValidatorVerifier) : list AccountAddress :=
  merge_sort Z.le (map fst (map_to_list (address_to_validator_info self))).

Section Message.
Context `{!CryptoHash T}.

Definition verifier_verify (self : ValidatorVerifier) (author : AccountAddress) (message : T) (sig : Signature)
    : result VerifyError unit :=
  match get_public_key self author with
  | Some pk => if verify_struct_signature pk message sig then Ok tt else Err InvalidSignature
  | None => Err UnknownAuthor
  end.

Definition check_num_of_signatures (self : ValidatorVerifier) (sigs : gmap AccountAddress Signature)
    : result VerifyError unit :=
  let num_of_signatures := Z.of_nat (size sigs) in
  if verifier_len self <? num_of_signatures
  then Err (TooManySignatures num_of_signatures (verifier_len self)) else Ok tt.

(** The loop of [check_voting_power]. *)
Definition add_voting_power (self : ValidatorVerifier) (sum : Z) (author : AccountAddress)
    : result VerifyError Z :=
  match get_voting_power self author with
  | Some voting_power => Ok (u64_add sum voting_power)
  | None => Err UnknownAuthor
  end.

Definition check_voting_power (self : ValidatorVerifier) (authors : list AccountAddress)
    : result VerifyError unit :=
  aggregated_voting_power ← result_fold (add_voting_power self) authors 0;
  if aggregated_voting_power <? quorum_voting_power self
  then Err (TooLittleVotingPower aggregated_voting_power (quorum_voting_power self)) else Ok tt.

(** [aggregated_signature.keys()]. *)
Definition sig_authors (sigs : gmap AccountAddress Signature) : list AccountAddress :=
  map fst (map_to_list sigs).

Definition verify_aggregated_struct_signature (self : ValidatorVerifier) (message : T)
    (sigs : gmap AccountAddress Signature) : result VerifyError unit :=
  _ ← check_num_of_signatures self sigs;
  _ ← check_voting_power self (sig_authors sigs);
  _ ← result_collect (fun kv => verifier_verify self kv.1 message kv.2) (map_to_list sigs);
  Ok tt.

Definition batch_verify_aggregated_signatures (self : ValidatorVerifier) (message : T)
    (sigs : gmap AccountAddress Signature) : result VerifyError unit :=
  _ ← check_num_of_signatures self sigs;
  _ ← check_voting_power self (sig_authors sigs);
  let keys_and_signatures :=
    omap (fun kv => (fun pk => (pk, kv.2)) <$> get_public_key self kv.1) (map_to_list sigs) in
  if batch_verify message keys_and_signatures then Ok tt
  else verify_aggregated_struct_signature self message sigs.
End Message.

(** [ValidatorSigner]. *)
Record ValidatorSigner := mkValidatorSigner { signer_author : AccountAddress; signer_private_key : PrivateKey }.

#[global] Instance ValidatorSigner_eq_dec : EqDecision ValidatorSigner.
Proof. solve_decision. Defined.

Definition signer_sign `{!CryptoHash T} (self : ValidatorSigner) (message : T) : Signature :=
  sign_struct (signer_private_key self) message.
Definition signer_public_key (self : ValidatorSigner) : PublicKey := public_key (signer_private_key self).

(** ** Voting power *)

(** Voting power of an address in the validator set, zero for others. *)
Definition power_of (infos : gmap AccountAddress ValidatorConsensusInfo) (a : AccountAddress) : Z :=
  default 0 (vci_voting_power <$> infos !! a).

Definition validators (infos : gmap AccountAddress ValidatorConsensusInfo) : list AccountAddress :=
  map fst (map_to_list infos).

Definition total_power (infos : gmap AccountAddress ValidatorConsensusInfo) : Z :=
  zsum (power_of infos) (validators infos).

(** Validator sets whose quorum computation does not overflow. *)
Record wf_infos (infos : gmap AccountAddress ValidatorConsensusInfo) : Prop := {
  wf_nonempty : infos <> ∅;
  wf_powers : map_Forall (fun _ i => 0 <= vci_voting_power i) infos;
  wf_total : 2 * total_power infos < 2 ^ 64
}.

Lemma validators_NoDup infos : NoDup (validators infos).
Proof. apply NoDup_fst_map_to_list. Qed.

Lemma validators_elem infos a : a ∈ validators infos <-> is_Some (infos !! a).
Proof.
  unfold validators. rewrite list_elem_of_fmap. split.
  - intros ([k i] & -> & Hi%elem_of_map_to_list). by exists i.
  - intros [i Hi]. exists (a, i). split; [done|]. by apply elem_of_map_to_list.
Qed.

Lemma power_of_nonneg infos a : map_Forall (fun _ i => 0 <= vci_voting_power i) infos -> 0 <= power_of infos a.
Proof.
  intros Hp. unfold power_of. destruct (infos !! a) as [i|] eqn:E; cbn; [|lia]. by apply (Hp a i).
Qed.

Lemma fold_u64_add l : forall s, 0 <= s -> (forall x, x ∈ l -> 0 <= x) -> s + zsum id l < 2 ^ 64 ->
  fold_left u64_add l s = s + zsum id l.
Proof.
  induction l as [|x l IH]; intros s Hs Hl Hb; cbn in *; [lia|]. unfold id in *.
  assert (Hx : 0 <= x) by (apply Hl; by constructor).
  assert (Hl' : forall y, y ∈ l -> 0 <= y) by (intros; apply Hl; by constructor).
  pose proof (zsum_nonneg id l Hl'). unfold id in *. rewrite u64_add_small by lia. rewrite IH; auto with lia.
Qed.

Lemma zsum_values infos :
  zsum id (map (fun kv => vci_voting_power kv.2) (map_to_list infos)) = total_power infos.
Proof.
  unfold total_power, validators. assert (Hall : forall kv, kv ∈ map_to_list infos -> infos !! kv.1 = Some kv.2).
  { intros [k i]. apply elem_of_map_to_list. }
  induction (map_to_list infos) as [|[k i] l IH]; [done|]. cbn. rewrite IH.
  - assert (Ek : infos !! k = Some i) by (apply (Hall (k, i)); constructor).
    unfold power_of at 2. by rewrite Ek.
  - intros kv Hkv. apply Hall. by constructor.
Qed.

Lemma sum_voting_power_total infos : wf_infos infos -> sum_voting_power infos = total_power infos.
Proof.
  intros [_ Hp Ht]. unfold sum_voting_power. rewrite fold_u64_add; rewrite ?zsum_values; [done|done| |].
  - intros x ([k i] & -> & Hi%elem_of_map_to_list)%list_elem_of_fmap. by apply (Hp k i).
  - assert (0 <= total_power infos) by (apply zsum_nonneg; intros; by apply power_of_nonneg). lia.
Qed.

Lemma total_power_nonneg infos : wf_infos infos -> 0 <= total_power infos.
Proof. intros Hw. apply zsum_nonneg. intros. by apply power_of_nonneg, wf_powers. Qed.

(** The quorum is two thirds of the voting power, plus one. *)
Lemma quorum_new infos : wf_infos infos ->
  quorum_voting_power (verifier_new infos) = 2 * total_power infos / 3 + 1.
Proof.
  intros Hw. pose proof (total_power_nonneg _ Hw). destruct Hw as [Hne Hp Ht] eqn:E. cbn.
  rewrite bool_decide_eq_false_2 by done. rewrite sum_voting_power_total by done.
  assert (2 * total_power infos / 3 < 2 ^ 64 - 1) by (apply Z.div_lt_upper_bound; lia).
  assert (0 <= 2 * total_power infos / 3) by (apply Z.div_pos; lia).
  rewrite u64_mul_small by lia. rewrite (Z.mul_comm _ 2). by rewrite u64_add_small by lia.
Qed.

(** What the loop of [check_voting_power] accepts. *)
Lemma add_voting_power_fold v authors : forall s p, result_fold (add_voting_power v) authors s = Ok p ->
  authors ⊆ validators (address_to_validator_info v) /\
  (0 <= s -> map_Forall (fun _ i => 0 <= vci_voting_power i) (address_to_validator_info v) ->
   s + zsum (power_of (address_to_validator_info v)) authors < 2 ^ 64 ->
   p = s + zsum (power_of (address_to_validator_info v)) authors).
Proof.
  induction authors as [|a authors IH]; intros s p E; cbn in E |- *.
  { injection E as <-. split; [set_solver|lia]. }
  destruct (add_voting_power v s a) as [s'| |] eqn:Es; try done. cbn in E.
  unfold add_voting_power, get_voting_power in Es.
  destruct (address_to_validator_info v !! a) as [i|] eqn:Ea; [|done]. injection Es as <-.
  apply IH in E as [Hsub Hp]. split.
  - intros x [->|Hx]%elem_of_cons; [by apply validators_elem; exists i|by apply Hsub].
  - intros Hs Hpos Hb. unfold power_of in Hb at 1. rewrite Ea in Hb. cbn in Hb.
    unfold power_of at 1. rewrite Ea. cbn. pose proof (Hpos a i Ea) as Hi. cbn in Hi.
    pose proof (zsum_nonneg (power_of (address_to_validator_info v)) authors
      (fun x _ => power_of_nonneg _ x Hpos)).
    rewrite u64_add_small in Hp by lia. rewrite Hp; [lia|lia|done|lia].
Qed.

Definition quorum_of (v : ValidatorVerifier) (authors : list AccountAddress) : Prop :=
  authors ⊆ validators (address_to_validator_info v) /\
  quorum_voting_power v <= zsum (power_of (address_to_validator_info v)) authors.

Lemma add_voting_power_known v authors s : authors ⊆ validators (address_to_validator_info v) ->
  exists p, result_fold (add_voting_power v) authors s = Ok p.
Proof.
  revert s. induction authors as [|a authors IH]; intros s Hsub; [by exists s|]. cbn.
  destruct (proj1 (validators_elem _ a) (Hsub a ltac:(constructor))) as [i Hi].
  assert (E : add_voting_power v s a = Ok (u64_add s (vci_voting_power i)))
    by (unfold add_voting_power, get_voting_power; by rewrite Hi).
  rewrite E. cbn. apply IH. intros x Hx. apply Hsub. by constructor.
Qed.

Lemma subset_power_bound infos authors : wf_infos infos -> NoDup authors -> authors ⊆ validators infos ->
  0 <= zsum (power_of infos) authors <= total_power infos.
Proof.
  intros [_ Hp _] Hnd Hsub. split.
  - apply zsum_nonneg. intros. by apply power_of_nonneg.
  - apply zsum_subset; [|done|done]. intros. by apply power_of_nonneg.
Qed.

Lemma check_voting_power_quorum infos authors : wf_infos infos -> NoDup authors ->
  check_voting_power (verifier_new infos) authors = Ok tt <-> quorum_of (verifier_new infos) authors.
Proof.
  intros Hw Hnd. pose proof (total_power_nonneg _ Hw). pose proof (wf_total _ Hw).
  unfold check_voting_power, quorum_of. cbn [address_to_validator_info verifier_new].
  assert (Hval : forall p, authors ⊆ validators infos ->
    result_fold (add_voting_power (verifier_new infos)) authors 0 = Ok p -> p = zsum (power_of infos) authors).
  { intros p Hsub E. pose proof (subset_power_bound _ _ Hw Hnd Hsub).
    apply add_voting_power_fold in E as [_ E]. cbn [address_to_validator_info verifier_new] in E.
    rewrite E; [lia|lia|by apply wf_powers|lia]. }
  split.
  - intros E. apply bind_Ok in E as (p & E & Hq). pose proof (proj1 (add_voting_power_fold _ _ _ _ E)) as Hsub.
    rewrite (Hval p) in Hq by done. split; [done|].
    destruct (Z.ltb_spec (zsum (power_of infos) authors) (quorum_voting_power (verifier_new infos))); [done|lia].
  - intros [Hsub Hq]. destruct (add_voting_power_known (verifier_new infos) authors 0 Hsub) as [p E].
    rewrite E. cbn [mbind result_bind]. rewrite (Hval p) by done.
    destruct (Z.ltb_spec (zsum (power_of infos) authors) (quorum_voting_power (verifier_new infos))); [lia|done].
Qed.

(** Two quorums share a validator outside any set that has less than a third of
    the voting power. *)
Lemma quorums_intersect infos q1 q2 byzantine : wf_infos infos ->
  NoDup q1 -> NoDup q2 -> NoDup byzantine -> byzantine ⊆ validators infos ->
  3 * zsum (power_of infos) byzantine < total_power infos ->
  quorum_of (verifier_new infos) q1 -> quorum_of (verifier_new infos) q2 ->
  exists a, a ∈ q1 /\ a ∈ q2 /\ a ∉ byzantine.
Proof.
  intros Hw H1 H2 Hb Hbs Hf [S1 Q1] [S2 Q2]. cbn [address_to_validator_info verifier_new] in *.
  rewrite quorum_new in Q1, Q2 by done.
  pose proof (zsum_overlap (power_of infos) q1 q2 _ (fun x _ => power_of_nonneg infos x (wf_powers _ Hw)) H1 H2 S1 S2)
    as Hov. fold (total_power infos) in Hov.
  destruct (decide (filter (fun x => x ∈ q2) q1 ⊆ byzantine)) as [Hsub|Hsub].
  - assert (zsum (power_of infos) (filter (fun x => x ∈ q2) q1) <= zsum (power_of infos) byzantine).
    { apply zsum_subset; [|by apply list.NoDup_filter|done]. intros. apply power_of_nonneg, Hw. }
    pose proof (Z.div_mod (2 * total_power infos) 3 ltac:(lia)).
    pose proof (Z.mod_pos_bound (2 * total_power infos) 3 ltac:(lia)). lia.
  - apply not_list_subset in Hsub as (a & Ha & Hnb). apply list_elem_of_filter in Ha as [? ?]. by exists a.
Qed.

Lemma sig_authors_NoDup sigs : NoDup (sig_authors sigs).
Proof. apply NoDup_fst_map_to_list. Qed.

Lemma sig_authors_elem sigs a : a ∈ sig_authors sigs <-> is_Some (sigs !! a).
Proof.
  unfold sig_authors. rewrite list_elem_of_fmap. split.
  - intros ([k i] & -> & Hi%elem_of_map_to_list). by exists i.
  - intros [i Hi]. exists (a, i). split; [done|]. by apply elem_of_map_to_list.
Qed.

Lemma check_voting_power_known v authors : check_voting_power v authors = Ok tt ->
  authors ⊆ validators (address_to_validator_info v).
Proof.
  unfold check_voting_power. intros E. apply bind_Ok in E as (p & E & _). apply (add_voting_power_fold _ _ _ _ E).
Qed.

(** ** Aggregated signatures *)

Section Aggregated.
Context `{!CryptoHash T}.

(** [author] has a valid signature on [message] among [sigs]. *)
Definition signed_by (v : ValidatorVerifier) (message : T) (sigs : gmap AccountAddress Signature)
    (author : AccountAddress) : Prop :=
  exists pk sig, get_public_key v author = Some pk /\ sigs !! author = Some sig /\
    verify_struct_signature pk message sig = true.

Lemma verify_loop_Ok v (message : T) sigs :
  is_ok (result_collect (fun kv => verifier_verify v kv.1 message kv.2) (map_to_list sigs)) = true <->
  forall a, a ∈ sig_authors sigs -> signed_by v message sigs a.
Proof.
  split.
  - destruct (result_collect _ _) as [us| |] eqn:E; [|done..]. intros _ a [sig Ha]%sig_authors_elem.
    destruct (result_collect_elem _ _ _ (a, sig) E) as [u Hu]; [by apply elem_of_map_to_list|].
    unfold verifier_verify in Hu. cbn in Hu. destruct (get_public_key v a) as [pk|] eqn:Epk; [|done].
    destruct (verify_struct_signature pk message sig) eqn:Ev; [|done]. by exists pk, sig.
  - intros Hall. rewrite (result_collect_map _ (fun _ => tt)); [done|]. intros [a sig] Hin. cbn.
    assert (Ha : sigs !! a = Some sig) by (apply elem_of_map_to_list; by apply list_elem_of_In).
    destruct (Hall a) as (pk & sig' & Hpk & Hsig & Hv); [by apply sig_authors_elem; exists sig|].
    simplify_eq. unfold verifier_verify. by rewrite Hpk, Hv.
Qed.

Lemma verify_aggregated_Ok v (message : T) sigs :
  verify_aggregated_struct_signature v message sigs = Ok tt <->
  check_num_of_signatures v sigs = Ok tt /\ check_voting_power v (sig_authors sigs) = Ok tt /\
  forall a, a ∈ sig_authors sigs -> signed_by v message sigs a.
Proof.
  unfold verify_aggregated_struct_signature. rewrite <- verify_loop_Ok. split.
  - intros E. res_inv. destruct x, x0. split_and!; try done. by rewrite H2.
  - intros (-> & -> & Hl). cbn. by destruct (result_collect _ _).
Qed.

(** Batch verification with its fallback accepts what verification one by one
    accepts. *)
Lemma batch_verify_aggregated_equiv `{!CryptoLaws _} v (message : T) sigs :
  batch_verify_aggregated_signatures v message sigs = verify_aggregated_struct_signature v message sigs.
Proof.
  unfold batch_verify_aggregated_signatures, verify_aggregated_struct_signature.
  destruct (check_num_of_signatures v sigs) as [[]| |]; try done. cbn.
  destruct (check_voting_power v (sig_authors sigs)) as [[]| |] eqn:Ep; try done. cbn.
  destruct (batch_verify _ _) eqn:Eb; [|done].
  assert (Hl : is_ok (result_collect (fun kv => verifier_verify v kv.1 message kv.2) (map_to_list sigs)) = true).
  { apply verify_loop_Ok. intros a Ha. pose proof (check_voting_power_known _ _ Ep a Ha) as [i Hi]%validators_elem.
    apply sig_authors_elem in Ha as [sig Hs]. apply batch_verify_sound in Eb. rewrite list.Forall_forall in Eb.
    assert (Hpk : get_public_key v a = Some (vci_public_key i)) by (unfold get_public_key; by rewrite Hi).
    exists (vci_public_key i), sig. split_and!; [done|done|].
    apply (Eb (vci_public_key i, sig)), list_elem_of_omap. exists (a, sig). cbn. rewrite Hpk.
    split; [by apply elem_of_map_to_list|done]. }
  by destruct (result_collect _ _).
Qed.

(** A certificate that verifies is signed by a quorum. *)
Lemma verified_quorum `{!CryptoLaws _} infos (message : T) sigs : wf_infos infos ->
  batch_verify_aggregated_signatures (verifier_new infos) message sigs = Ok tt ->
  quorum_of (verifier_new infos) (sig_authors sigs) /\
  forall a, a ∈ sig_authors sigs -> signed_by (verifier_new infos) message sigs a.
Proof.
  intros Hw E. rewrite batch_verify_aggregated_equiv in E. apply verify_aggregated_Ok in E as (_ & Hp & Hs).
  apply check_voting_power_quorum in Hp; [|done|apply sig_authors_NoDup]. done.
Qed.

(** C28: Two messages that carry verified aggregated signatures of one validator set share a
    signer outside any group with less than a third of the voting power, and both of its signatures
    verify under its key. *)
Theorem verified_signatures_intersect `{!CryptoLaws _} infos (m1 m2 : T) sigs1 sigs2 byzantine :
  wf_infos infos -> NoDup byzantine -> byzantine ⊆ validators infos ->
  3 * zsum (power_of infos) byzantine < total_power infos ->
  batch_verify_aggregated_signatures (verifier_new infos) m1 sigs1 = Ok tt ->
  batch_verify_aggregated_signatures (verifier_new infos) m2 sigs2 = Ok tt ->
  exists a, a ∉ byzantine /\ signed_by (verifier_new infos) m1 sigs1 a /\ signed_by (verifier_new infos) m2 sigs2 a.
Proof.
  intros Hw Hn Hs Hb [Q1 S1]%verified_quorum [Q2 S2]%verified_quorum; [|done..].
  destruct (quorums_intersect infos (sig_authors sigs1) (sig_authors sigs2) byzantine) as (a & ? & ? & ?);
    try done; try apply sig_authors_NoDup. exists a. auto.
Qed.

(** C29: Verifying the signatures as a batch, with its fallback, gives the same result as verifying
    them one by one, errors included. *)
Theorem batch_equals_sequential `{!CryptoLaws _} v (message : T) sigs :
  batch_verify_aggregated_signatures v message sigs = verify_aggregated_struct_signature v message sigs.
Proof. apply batch_verify_aggregated_equiv. Qed.
End Aggregated.

(** C40: The quorum computation overflows from a total voting power of 2^63 on: the quorum falls to
    what [2 * total] leaves modulo 2^64, which is less than two thirds. *)
Theorem quorum_overflow infos : infos <> ∅ -> map_Forall (fun _ i => 0 <= vci_voting_power i) infos ->
  2 ^ 63 <= total_power infos < 2 ^ 64 ->
  quorum_voting_power (verifier_new infos) = (2 * total_power infos - 2 ^ 64) / 3 + 1.
Proof.
  intros Hne Hp Ht. cbn. rewrite bool_decide_eq_false_2 by done.
  unfold sum_voting_power. rewrite fold_u64_add; rewrite ?zsum_values; [|done| |lia].
  2: { intros x ([k i] & -> & Hi%elem_of_map_to_list)%list_elem_of_fmap. by apply (Hp k i). }
  assert (Hm : u64_mul (0 + total_power infos) 2 = 2 * total_power infos - 2 ^ 64).
  { unfold u64_mul, wrap64. symmetry. apply (Z.mod_unique_pos _ _ 1); lia. }
  rewrite Hm. pose proof (Z.div_pos (2 * total_power infos - 2 ^ 64) 3 ltac:(lia) ltac:(lia)).
  assert ((2 * total_power infos - 2 ^ 64) / 3 < 2 ^ 63) by (apply Z.div_lt_upper_bound; lia).
  apply u64_add_small; lia.
Qed.
End ValidatorVerifier.
