(* ===== verification/LedgerInfo.v ===== *)
(** * Ledger infos, epoch changes, waypoints and trusted states

    [types/src/{block_info,epoch_state,ledger_info,epoch_change,waypoint,trusted_state}.rs].
    A ledger info commits to a block; its signatures come from the validators of its
    epoch; a ledger info that ends an epoch carries the next validator set.  A client
    ratchets its trusted state along a chain of such ledger infos. *)

From Stdlib Require Import Ascii.
From S2P Require Import Prelude U64 Text Crypto ValidatorVerifier.

Definition GENESIS_EPOCH : Z := 0.
Definition GENESIS_ROUND : Z := 0.
Definition GENESIS_VERSION : Z := 0.
Definition GENESIS_TIMESTAMP_USECS : Z := 0.

Section LedgerInfo.
Context `{Crypto}.

(** ** Validator sets *)

Record ValidatorInfo := mkValidatorInfo {
  vi_account_address : AccountAddress;
  vi_consensus_voting_power : Z;
  vi_consensus_public_key : PublicKey
}.

(** [impl From<&ValidatorSet> for ValidatorVerifier]: a later entry of the same
    address replaces an earlier one. *)
Definition verifier_from_validator_set (payload : list ValidatorInfo) : ValidatorVerifier :=
  verifier_new (fold_left (fun m v =>
    <[vi_account_address v :=
        {| vci_public_key := vi_consensus_public_key v; vci_voting_power := vi_consensus_voting_power v |}]> m)
    payload ∅).

(** ** [EpochState], [BlockInfo] and [LedgerInfo] *)

Record EpochState := mkEpochState { es_epoch : Z; es_verifier : ValidatorVerifier }.

#[global] Instance EpochState_eq_dec : EqDecision EpochState.
Proof. solve_decision. Defined.

Definition epoch_state_empty : EpochState := {| es_epoch := 0; es_verifier := verifier_new ∅ |}.

Record BlockInfo := mkBlockInfo {
  bi_epoch : Z;
  bi_round : Z;
  bi_id : HashValue;
  bi_executed_state_id : HashValue;
  bi_version : Z;
  bi_timestamp_usecs : Z;
  bi_next_epoch_state : option EpochState
}.

#[global] Instance BlockInfo_eq_dec : EqDecision BlockInfo.
Proof. solve_decision. Defined.

Definition block_info_empty : BlockInfo := {|
  bi_epoch := 0; bi_round := 0; bi_id := HashValue_zero; bi_executed_state_id := HashValue_zero;
  bi_version := 0; bi_timestamp_usecs := 0; bi_next_epoch_state := None |}.

Definition block_info_genesis (genesis_state_root_hash : HashValue) (validator_set : list ValidatorInfo)
    : BlockInfo := {|
  bi_epoch := GENESIS_EPOCH; bi_round := GENESIS_ROUND; bi_id := HashValue_zero;
  bi_executed_state_id := genesis_state_root_hash; bi_version := GENESIS_VERSION;
  bi_timestamp_usecs := GENESIS_TIMESTAMP_USECS;
  bi_next_epoch_state :=
    Some {| es_epoch := 1; es_verifier := verifier_from_validator_set validator_set |} |}.

Definition next_block_epoch (self : BlockInfo) : Z :=
  match bi_next_epoch_state self with Some e => es_epoch e | None => bi_epoch self end.

Definition has_reconfiguration (self : BlockInfo) : bool :=
  match bi_next_epoch_state self with Some _ => true | None => false end.

Record LedgerInfo := mkLedgerInfo { li_commit_info : BlockInfo; li_consensus_data_hash : HashValue }.

#[global] Instance LedgerInfo_eq_dec : EqDecision LedgerInfo.
Proof. solve_decision. Defined.

Definition ledger_info_genesis (genesis_state_root_hash : HashValue) (validator_set : list ValidatorInfo)
    : LedgerInfo :=
  {| li_commit_info := block_info_genesis genesis_state_root_hash validator_set;
     li_consensus_data_hash := HashValue_zero |}.

Definition li_epoch (self : LedgerInfo) : Z := bi_epoch (li_commit_info self).
Definition li_round (self : LedgerInfo) : Z := bi_round (li_commit_info self).
Definition li_version (self : LedgerInfo) : Z := bi_version (li_commit_info self).
Definition li_timestamp_usecs (self : LedgerInfo) : Z := bi_timestamp_usecs (li_commit_info self).
Definition li_consensus_block_id (self : LedgerInfo) : HashValue := bi_id (li_commit_info self).
Definition li_transaction_accumulator_hash (self : LedgerInfo) : HashValue :=
  bi_executed_state_id (li_commit_info self).
Definition li_next_epoch_state (self : LedgerInfo) : option EpochState :=
  bi_next_epoch_state (li_commit_info self).
Definition li_next_block_epoch (self : LedgerInfo) : Z := next_block_epoch (li_commit_info self).
Definition li_ends_epoch (self : LedgerInfo) : bool := has_reconfiguration (li_commit_info self).

(** [LedgerInfoWithSignatures::V0]. *)
Record LedgerInfoWithSignatures := mkLedgerInfoWithSignatures {
  liws_ledger_info : LedgerInfo;
  liws_signatures : gmap AccountAddress Signature
}.

#[global] Instance LedgerInfoWithSignatures_eq_dec : EqDecision LedgerInfoWithSignatures.
Proof. solve_decision. Defined.

Definition ledger_info_with_signatures_genesis (genesis_state_root_hash : HashValue)
    (validator_set : list ValidatorInfo) : LedgerInfoWithSignatures :=
  {| liws_ledger_info := ledger_info_genesis genesis_state_root_hash validator_set;
     liws_signatures := ∅ |}.

(** [entry(validator).or_insert(signature)]: a signature that is there stays. *)
Definition add_signature (self : LedgerInfoWithSignatures) (validator : AccountAddress) (sig : Signature)
    : LedgerInfoWithSignatures :=
  {| liws_ledger_info := liws_ledger_info self;
     liws_signatures :=
       match liws_signatures self !! validator with
       | Some _ => liws_signatures self
       | None => <[validator := sig]> (liws_signatures self)
       end |}.

Definition remove_signature (self : LedgerInfoWithSignatures) (validator : AccountAddress)
    : LedgerInfoWithSignatures :=
  {| liws_ledger_info := liws_ledger_info self;
     liws_signatures := delete validator (liws_signatures self) |}.

(** ** Waypoints *)

Record Waypoint := mkWaypoint { wp_version : Z; wp_value : HashValue }.

#[global] Instance Waypoint_eq_dec : EqDecision Waypoint.
Proof. solve_decision. Defined.

Record Ledger2WaypointConverter := mkLedger2WaypointConverter {
  lw_epoch : Z;
  lw_root_hash : HashValue;
  lw_version : Z;
  lw_timestamp_usecs : Z;
  lw_next_epoch_state : option EpochState
}.

Definition waypoint_converter (ledger_info : LedgerInfo) : Ledger2WaypointConverter := {|
  lw_epoch := li_epoch ledger_info;
  lw_root_hash := li_transaction_accumulator_hash ledger_info;
  lw_version := li_version ledger_info;
  lw_timestamp_usecs := li_timestamp_usecs ledger_info;
  lw_next_epoch_state := li_next_epoch_state ledger_info |}.

Context `{!CryptoHash LedgerInfo, !CryptoHash Ledger2WaypointConverter}.

Definition verify_signatures (self : LedgerInfoWithSignatures) (validator : ValidatorVerifier)
    : result VerifyError unit :=
  batch_verify_aggregated_signatures validator (liws_ledger_info self) (liws_signatures self).

Definition waypoint_new_any (ledger_info : LedgerInfo) : Waypoint :=
  {| wp_version := li_version ledger_info;
     wp_value := crypto_hash (waypoint_converter ledger_info) |}.

Definition waypoint_new_epoch_boundary (ledger_info : LedgerInfo) : result string Waypoint :=
  _ ← ensure (li_ends_epoch ledger_info) "No validator set"%string;
  Ok (waypoint_new_any ledger_info).

Definition waypoint_verify (self : Waypoint) (ledger_info : LedgerInfo) : result string unit :=
  _ ← ensure (li_version ledger_info =? wp_version self) "Waypoint version mismatch"%string;
  _ ← ensure (bool_decide (crypto_hash (waypoint_converter ledger_info) = wp_value self))
        "Waypoint value mismatch"%string;
  Ok tt.

(** ** The trait [Verifier] *)

Class VerifierTrait (V : Type) := {
  vt_verify : V -> LedgerInfoWithSignatures -> result string unit;
  vt_epoch_change_verification_required : V -> Z -> bool;
  vt_is_ledger_info_stale : V -> LedgerInfo -> bool
}.

#[global] Instance epoch_state_verifier : VerifierTrait EpochState := {|
  vt_verify self ledger_info :=
    _ ← ensure (es_epoch self =? li_epoch (liws_ledger_info ledger_info))
          "LedgerInfo has unexpected epoch"%string;
    _ ← map_err (fun _ => "verify_signatures"%string) (verify_signatures ledger_info (es_verifier self));
    Ok tt;
  vt_epoch_change_verification_required self epoch := es_epoch self <? epoch;
  vt_is_ledger_info_stale self ledger_info := li_epoch ledger_info <? es_epoch self
|}.

#[global] Instance waypoint_verifier : VerifierTrait Waypoint := {|
  vt_verify self ledger_info := waypoint_verify self (liws_ledger_info ledger_info);
  vt_epoch_change_verification_required _ _ := true;
  vt_is_ledger_info_stale self ledger_info := li_version ledger_info <? wp_version self
|}.

(** [dyn Verifier]: the implementors of the trait. *)
Inductive DynVerifier : Type :=
| VEpochState (e : EpochState)
| VWaypoint (w : Waypoint).

#[global] Instance dyn_verifier : VerifierTrait DynVerifier := {|
  vt_verify self := match self with VEpochState e => vt_verify e | VWaypoint w => vt_verify w end;
  vt_epoch_change_verification_required self :=
    match self with
    | VEpochState e => vt_epoch_change_verification_required e
    | VWaypoint w => vt_epoch_change_verification_required w
    end;
  vt_is_ledger_info_stale self :=
    match self with VEpochState e => vt_is_ledger_info_stale e | VWaypoint w => vt_is_ledger_info_stale w end
|}.

(** ** Epoch change proofs *)

Record EpochChangeProof := mkEpochChangeProof {
  ledger_info_with_sigs : list LedgerInfoWithSignatures;
  more : bool
}.

Definition epoch_change_proof_epoch (self : EpochChangeProof) : result string Z :=
  match ledger_info_with_sigs self with
  | li :: _ => Ok (li_epoch (liws_ledger_info li))
  | [] => Err "Empty EpochChangeProof"%string
  end.

(** [iter().skip_while(p)]. *)
Fixpoint skip_while {A} (p : A -> bool) (l : list A) : list A :=
  match l with [] => [] | x :: l' => if p x then skip_while p l' else l end.

(** The body of the loop: verify with the current verifier, move to the next. *)
Definition epoch_change_step (verifier_ref : DynVerifier) (ledger_info : LedgerInfoWithSignatures)
    : result string DynVerifier :=
  _ ← vt_verify verifier_ref ledger_info;
  e ← ok_or (li_next_epoch_state (liws_ledger_info ledger_info))
        "LedgerInfo doesn't carry a ValidatorSet"%string;
  Ok (VEpochState e).

Definition epoch_change_verify (self : EpochChangeProof) (verifier : DynVerifier)
    : result string LedgerInfoWithSignatures :=
  let lis := ledger_info_with_sigs self in
  last_li ← ok_or (list.last lis) "The EpochChangeProof is empty"%string;
  _ ← ensure (negb (vt_is_ledger_info_stale verifier (liws_ledger_info last_li)))
        "The EpochChangeProof is stale"%string;
  _ ← result_fold epoch_change_step
        (skip_while (fun li => vt_is_ledger_info_stale verifier (liws_ledger_info li)) lis) verifier;
  Ok last_li.

(** ** Trusted states *)

Record TrustedState := mkTrustedState { ts_verified_state : Waypoint; ts_verifier : DynVerifier }.

Inductive TrustedStateChange : Type :=
| TSVersion (new_state : TrustedState)
| TSEpoch (new_state : TrustedState) (latest_epoch_change_li : LedgerInfoWithSignatures)
| TSNoChange.

Definition latest_version (self : TrustedState) : Z := wp_version (ts_verified_state self).

Definition verify_and_ratchet (self : TrustedState) (latest_li : LedgerInfoWithSignatures)
    (epoch_change_proof : EpochChangeProof) : result string TrustedStateChange :=
  let res_version := li_version (liws_ledger_info latest_li) in
  _ ← ensure (latest_version self <=? res_version)
        "The target latest ledger info is stale and behind our current trusted version"%string;
  if vt_epoch_change_verification_required (ts_verifier self)
       (li_next_block_epoch (liws_ledger_info latest_li)) then
    epoch_change_li ← epoch_change_verify epoch_change_proof (ts_verifier self);
    new_epoch_state ← ok_or (li_next_epoch_state (liws_ledger_info epoch_change_li))
      "A valid EpochChangeProof will never return a non-epoch change ledger info"%string;
    _ ← (if bool_decide (epoch_change_li <> latest_li) then vt_verify new_epoch_state latest_li else Ok tt);
    Ok (TSEpoch {| ts_verified_state := waypoint_new_any (liws_ledger_info latest_li);
                   ts_verifier := VEpochState new_epoch_state |} epoch_change_li)
  else
    let new_waypoint := waypoint_new_any (liws_ledger_info latest_li) in
    if wp_version new_waypoint =? wp_version (ts_verified_state self) then
      _ ← ensure (bool_decide (new_waypoint = ts_verified_state self))
            "LedgerInfo doesn't match verified state"%string;
      Ok TSNoChange
    else
      _ ← vt_verify (ts_verifier self) latest_li;
      Ok (TSVersion {| ts_verified_state := new_waypoint; ts_verifier := ts_verifier self |}).

Definition trusted_state_from_waypoint (waypoint : Waypoint) : TrustedState :=
  {| ts_verified_state := waypoint; ts_verifier := VWaypoint waypoint |}.

Definition trusted_state_try_from (ledger_info : LedgerInfo) : result string TrustedState :=
  epoch_state ← ok_or (li_next_epoch_state ledger_info)
    "No EpochState in LedgerInfo; it must not be on an epoch boundary"%string;
  waypoint ← waypoint_new_epoch_boundary ledger_info;
  Ok {| ts_verified_state := waypoint; ts_verifier := VEpochState epoch_state |}.

(** ** What a verifier accepts *)

(** [v] accepts [li] directly: its epoch and a quorum of its validators, or the
    fields fixed by the waypoint. *)
Definition accepts (v : DynVerifier) (li : LedgerInfoWithSignatures) : Prop :=
  match v with
  | VEpochState e =>
    li_epoch (liws_ledger_info li) = es_epoch e /\
    check_voting_power (es_verifier e) (sig_authors (liws_signatures li)) = Ok tt /\
    forall a, a ∈ sig_authors (liws_signatures li) ->
      signed_by (es_verifier e) (liws_ledger_info li) (liws_signatures li) a
  | VWaypoint w => waypoint_new_any (liws_ledger_info li) = w
  end.

(** [v] trusts what it accepts, and what the validator sets handed over by the
    ledger infos it trusts accept. *)
Inductive trusts : DynVerifier -> LedgerInfoWithSignatures -> Prop :=
| trusts_direct v li : accepts v li -> trusts v li
| trusts_epoch v li e li' :
    accepts v li -> li_next_epoch_state (liws_ledger_info li) = Some e ->
    trusts (VEpochState e) li' -> trusts v li'.

Lemma check_num_of_signatures_known v sigs :
  sig_authors sigs ⊆ validators (address_to_validator_info v) -> check_num_of_signatures v sigs = Ok tt.
Proof.
  intros Hsub. unfold check_num_of_signatures, verifier_len.
  assert (Hle : (size sigs <= size (address_to_validator_info v))%nat).
  { rewrite <- !length_map_to_list.
    rewrite <- (length_map fst (map_to_list sigs)), <- (length_map fst (map_to_list (address_to_validator_info v))).
    apply submseteq_length, NoDup_submseteq; [apply sig_authors_NoDup|exact Hsub]. }
  destruct (Z.ltb_spec (Z.of_nat (size (address_to_validator_info v))) (Z.of_nat (size sigs))); [lia|done].
Qed.

Context `{!CryptoLaws _}.

Lemma vt_verify_accepts v li : vt_verify v li = Ok tt <-> accepts v li.
Proof.
  destruct v as [e|w]; cbn.
  - unfold verify_signatures. rewrite batch_verify_aggregated_equiv. split.
    + intros E. res_inv. apply Z.eqb_eq in H0. destruct x0.
      apply verify_aggregated_Ok in H1 as (_ & ? & ?). by rewrite H0.
    + intros (-> & Hp & Hs). rewrite Z.eqb_refl. cbn.
      rewrite (proj2 (verify_aggregated_Ok _ _ _)); [done|]. split_and!; [|done..].
      by apply check_num_of_signatures_known, check_voting_power_known.
  - unfold waypoint_verify. destruct w as [ver val]. unfold waypoint_new_any. cbn. split.
    + intros E. res_inv. apply Z.eqb_eq in H0. by rewrite H0.
    + intros [= <- <-]. rewrite Z.eqb_refl. cbn. by rewrite bool_decide_eq_true_2.
Qed.

(** A chain of epoch changes from [v] to the validator set [e]. *)
Inductive epoch_chain : DynVerifier -> list LedgerInfoWithSignatures -> DynVerifier -> Prop :=
| epoch_chain_nil v : epoch_chain v [] v
| epoch_chain_cons v li e rest v' :
    accepts v li -> li_next_epoch_state (liws_ledger_info li) = Some e ->
    epoch_chain (VEpochState e) rest v' -> epoch_chain v (li :: rest) v'.

Lemma epoch_change_step_Ok v li v' : epoch_change_step v li = Ok v' <->
  exists e, accepts v li /\ li_next_epoch_state (liws_ledger_info li) = Some e /\ v' = VEpochState e.
Proof.
  unfold epoch_change_step. split.
  - intros E. apply bind_Ok in E as ([] & Ha & E). apply vt_verify_accepts in Ha. res_inv. eauto.
  - intros (e & Ha & He & ->). apply vt_verify_accepts in Ha. rewrite Ha. unfold mbind, result_bind. by rewrite He.
Qed.

Lemma epoch_change_fold lis : forall v v', result_fold epoch_change_step lis v = Ok v' <-> epoch_chain v lis v'.
Proof.
  induction lis as [|li lis IH]; intros v v'; cbn [result_fold].
  { split; [intros [= <-]; constructor|by inversion 1]. }
  split.
  - intros E. apply bind_Ok in E as (v1 & E & Hrest). apply epoch_change_step_Ok in E as (e & ? & ? & ->).
    econstructor; [done..|]. by apply IH.
  - inversion 1 as [|? ? e ? ? Ha He Hc]; subst.
    rewrite (proj2 (epoch_change_step_Ok v li (VEpochState e))); [by apply IH|by exists e].
Qed.

Lemma epoch_chain_trusts v lis v' li : epoch_chain v lis v' -> trusts v' li -> trusts v li.
Proof. induction 1; eauto using trusts. Qed.

Lemma epoch_chain_last v lis v' li : epoch_chain v lis v' -> list.last lis = Some li ->
  trusts v li /\ exists e, li_next_epoch_state (liws_ledger_info li) = Some e /\ v' = VEpochState e.
Proof.
  induction 1 as [|v x e rest v' Ha He Hc IH]; [done|]. destruct rest as [|y rest].
  - cbn. intros [= <-]. inversion Hc; subst. eauto using trusts.
  - intros Hl. destruct (IH Hl) as [Ht (e' & He' & ->)]. eauto using trusts.
Qed.

Lemma last_skip_while {A} (p : A -> bool) l x : list.last l = Some x -> p x = false ->
  list.last (skip_while p l) = Some x.
Proof.
  induction l as [|y l IH]; [done|]. intros Hl Hx. cbn [skip_while]. destruct (p y) eqn:Ey; [|done].
  destruct l as [|z l]; [|by apply IH]. cbn in Hl. simplify_eq. congruence.
Qed.

Lemma epoch_change_verify_trusts pf v li : epoch_change_verify pf v = Ok li ->
  trusts v li /\ exists e, li_next_epoch_state (liws_ledger_info li) = Some e /\
    forall li', trusts (VEpochState e) li' -> trusts v li'.
Proof.
  unfold epoch_change_verify. intros E. res_inv. apply epoch_change_fold in H2.
  pose proof (last_skip_while (fun li => vt_is_ledger_info_stale v (liws_ledger_info li)) _ _ H0 H1) as Hl.
  destruct (epoch_chain_last _ _ _ _ H2 Hl) as [Ht (e & He & ->)].
  split; [done|]. exists e. split; [done|]. intros li'. by apply (epoch_chain_trusts _ _ _ _ H2).
Qed.

Definition change_state (ts : TrustedState) (c : TrustedStateChange) : TrustedState :=
  match c with TSVersion ns => ns | TSEpoch ns _ => ns | TSNoChange => ts end.

(** C11: Ratcheting a trusted state never moves its version back, ends in the waypoint of
    the given ledger info, and keeps trust: the ledger info, and whatever the new verifier trusts, is
    reached from the old verifier by a chain of quorum-signed validator set changes.  *)
Theorem verify_and_ratchet_trusts ts latest_li pf c :
  verify_and_ratchet ts latest_li pf = Ok c ->
  let ns := change_state ts c in
  ts_verified_state ns = waypoint_new_any (liws_ledger_info latest_li) /\
  latest_version ts <= latest_version ns /\
  (c <> TSNoChange -> trusts (ts_verifier ts) latest_li) /\
  (forall li, trusts (ts_verifier ns) li -> trusts (ts_verifier ts) li).
Proof.
  unfold verify_and_ratchet. intros E. apply bind_Ok in E as ([] & Hv & E).
  apply ensure_Ok, Z.leb_le in Hv. destruct (vt_epoch_change_verification_required _ _).
  - apply bind_Ok in E as (eli & He & E). apply epoch_change_verify_trusts in He as (Ht & e & Hne & Hall).
    rewrite Hne in E. cbn [ok_or mbind result_bind] in E. apply bind_Ok in E as ([] & Hl & [= <-]). cbn.
    split_and!; [done|done| |done]. intros _.
    destruct (bool_decide_reflect (eli <> latest_li)) as [_|Heq].
    + apply Hall, trusts_direct, vt_verify_accepts, Hl.
    + by apply dec_stable in Heq as ->.
  - cbn [wp_version waypoint_new_any] in E. destruct (Z.eqb_spec (li_version (liws_ledger_info latest_li))
      (wp_version (ts_verified_state ts))).
    + res_inv. split_and!; try done.
    + apply bind_Ok in E as ([] & Ha & [= <-]). apply vt_verify_accepts in Ha. cbn.
      split_and!; [done|done| |done]. intros _. by apply trusts_direct.
Qed.

(** ** The text form of a waypoint *)

(** [HashValue::to_hex] and [HashValue::from_hex] use the [hex] crate. *)
Class HexText := {
  to_hex : HashValue -> list Ascii.ascii;
  from_hex : list Ascii.ascii -> result string HashValue
}.
Class HexTextLaws `{!HexText} : Prop := {
  from_to_hex h : from_hex (to_hex h) = Ok h;
  to_hex_no_delimiter h : ":"%char ∉ to_hex h
}.

Context `{!HexText}.

Definition WAYPOINT_DELIMITER : Ascii.ascii := ":"%char.

Definition waypoint_to_string (self : Waypoint) : list Ascii.ascii :=
  u64_to_string (wp_version self) ++ WAYPOINT_DELIMITER :: to_hex (wp_value self).

Definition waypoint_from_str (s : list Ascii.ascii) : result string Waypoint :=
  let split := split_on WAYPOINT_DELIMITER s in
  version_str ← ok_or (split !! 0%nat) "Failed to parse waypoint string"%string;
  version ← ok_or (parse_u64 version_str) "invalid digit found in string"%string;
  value_str ← ok_or (split !! 1%nat) "Failed to parse waypoint string"%string;
  value ← from_hex value_str;
  Ok {| wp_version := version; wp_value := value |}.

(** Parsing the text form of a waypoint returns the waypoint.  *)
Theorem waypoint_text_roundtrip `{!HexTextLaws} w : is_u64 (wp_version w) ->
  waypoint_from_str (waypoint_to_string w) = Ok w.
Proof.
  intros Hv. unfold waypoint_from_str, waypoint_to_string.
  assert (Hn : 0 <= wp_version w) by (unfold is_u64 in Hv; lia).
  rewrite split_on_app; [|by apply u64_to_string_chars|apply to_hex_no_delimiter].
  cbn [lookup list_lookup ok_or mbind result_bind].
  rewrite parse_u64_to_string by done. cbn [ok_or mbind result_bind]. rewrite from_to_hex. cbn. by destruct w.
Qed.
End LedgerInfo.
