(* ===== verification/LedgerProof.v ===== *)
(** * Transactions, events and the proofs that tie them to a ledger info

    [types/src/transaction/mod.rs], [types/src/contract_event.rs],
    [types/src/account_state_blob.rs] and the compound proofs of
    [types/src/proof/definition.rs] and [types/src/proof/mod.rs].  A ledger info
    commits to the root of the accumulator of transaction infos; a transaction info
    commits to the transaction, to the root of its events and to the root of the
    account states.  The theorems say that what a client accepts under a ledger info
    is what the ledger holds, or the proof exhibits a hash collision. *)

From S2P Require Import Prelude U64 Bytes Crypto Hash Position Accumulator AccumulatorProof ProofSoundness.
From S2P Require Import SparseMerkleProof ValidatorVerifier LedgerInfo.

(** The hashers of internal nodes, each with its own salt. *)
Class LedgerHashers `{Crypto} := {
  TransactionAccumulatorInternalNode_hash : HashValue -> HashValue -> HashValue;
  EventAccumulatorInternalNode_hash : HashValue -> HashValue -> HashValue;
  SparseMerkleInternalNode_hash : HashValue -> HashValue -> HashValue;
  ACCUMULATOR_PLACEHOLDER_HASH : HashValue;
  SPARSE_MERKLE_PLACEHOLDER_HASH : HashValue
}.

Section LedgerData.
Context `{Crypto}.

(** ** Transactions *)

Definition Version : Type := Z.

(** The payload is kept serialized, the expiration time in seconds. *)
Record RawTransaction := mkRawTransaction {
  rt_sender : AccountAddress;
  rt_sequence_number : Z;
  rt_payload : Bytes;
  rt_max_gas_amount : Z;
  rt_gas_unit_price : Z;
  rt_gas_currency_code : string;
  rt_expiration_time : Z
}.
#[global] Instance RawTransaction_eq_dec : EqDecision RawTransaction.
Proof. solve_decision. Defined.

(** The authenticator is kept serialized. *)
Record SignedTransaction := mkSignedTransaction { st_raw_txn : RawTransaction; st_authenticator : Bytes }.
#[global] Instance SignedTransaction_eq_dec : EqDecision SignedTransaction.
Proof. solve_decision. Defined.

Definition st_sender (self : SignedTransaction) : AccountAddress := rt_sender (st_raw_txn self).
Definition st_sequence_number (self : SignedTransaction) : Z := rt_sequence_number (st_raw_txn self).

Record BlockMetadata := mkBlockMetadata {
  bm_id : HashValue;
  bm_round : Z;
  bm_timestamp_usecs : Z;
  bm_previous_block_votes : list AccountAddress;
  bm_proposer : AccountAddress
}.
#[global] Instance BlockMetadata_eq_dec : EqDecision BlockMetadata.
Proof. solve_decision. Defined.

(** The write set of a waypoint transaction is kept serialized. *)
Inductive Transaction :=
| UserTransaction (txn : SignedTransaction)
| WaypointWriteSet (change_set : Bytes)
| BlockMetadataTransaction (block_metadata : BlockMetadata).
#[global] Instance Transaction_eq_dec : EqDecision Transaction.
Proof. solve_decision. Defined.

Definition as_signed_user_txn (self : Transaction) : result string SignedTransaction :=
  match self with
  | UserTransaction txn => Ok txn
  | _ => Err "Not a user transaction."%string
  end.

Record TransactionInfo := mkTransactionInfo {
  ti_transaction_hash : HashValue;
  ti_state_root_hash : HashValue;
  ti_event_root_hash : HashValue;
  ti_gas_used : Z;
  ti_major_status : Z
}.
#[global] Instance TransactionInfo_eq_dec : EqDecision TransactionInfo.
Proof. solve_decision. Defined.

(** ** Events and account states *)

Definition EVENT_KEY_LENGTH : nat := 24.

(** An event key is 24 bytes. *)
Record ContractEvent := mkContractEvent {
  ce_key : bytes;
  ce_sequence_number : Z;
  ce_type_tag : Bytes;
  ce_event_data : bytes
}.
#[global] Instance ContractEvent_eq_dec : EqDecision ContractEvent.
Proof. solve_decision. Defined.

Record AccountStateBlob := mkAccountStateBlob { blob : bytes }.
#[global] Instance AccountStateBlob_eq_dec : EqDecision AccountStateBlob.
Proof. solve_decision. Defined.

Record TransactionToCommit := mkTransactionToCommit {
  tc_transaction : Transaction;
  tc_account_states : gmap AccountAddress AccountStateBlob;
  tc_events : list ContractEvent;
  tc_gas_used : Z;
  tc_major_status : Z
}.

(** ** Proofs *)

Record TransactionInfoWithProof := mkTransactionInfoWithProof {
  ledger_info_to_transaction_info_proof : AccumulatorProof (HashValue:=HashValue);
  tip_transaction_info : TransactionInfo
}.

Record TransactionWithProof := mkTransactionWithProof {
  twp_version : Z;
  twp_transaction : Transaction;
  twp_events : option (list ContractEvent);
  twp_proof : TransactionInfoWithProof
}.

Record TransactionListProof := mkTransactionListProof {
  ledger_info_to_transaction_infos_proof : AccumulatorRangeProof (HashValue:=HashValue);
  tlp_transaction_infos : list TransactionInfo
}.
Definition transaction_list_proof_new_empty : TransactionListProof := mkTransactionListProof range_proof_new_empty [].

Record TransactionListWithProof := mkTransactionListWithProof {
  tlwp_transactions : list Transaction;
  tlwp_events : option (list (list ContractEvent));
  tlwp_first_transaction_version : option Z;
  tlwp_proof : TransactionListProof
}.
Definition transaction_list_with_proof_new_empty : TransactionListWithProof :=
  mkTransactionListWithProof [] None None transaction_list_proof_new_empty.

Record EventProof := mkEventProof {
  ep_transaction_info_with_proof : TransactionInfoWithProof;
  transaction_info_to_event_proof : AccumulatorProof (HashValue:=HashValue)
}.

Record EventWithProof := mkEventWithProof {
  ewp_transaction_version : Z;
  ewp_event_index : Z;
  ewp_event : ContractEvent;
  ewp_proof : EventProof
}.

Record AccountStateProof := mkAccountStateProof {
  asp_transaction_info_with_proof : TransactionInfoWithProof;
  transaction_info_to_account_proof : SparseMerkleProof
}.

Record AccountStateWithProof := mkAccountStateWithProof {
  aswp_version : Z;
  aswp_blob : option AccountStateBlob;
  aswp_proof : AccountStateProof
}.

(** ** Verification *)

Context `{B : !HashBytes, !LedgerHashers}.
Context `{!CryptoHash TransactionInfo, !CryptoHash Transaction, !CryptoHash ContractEvent}.
Context `{!CryptoHash AccountStateBlob, !CryptoHash SparseMerkleLeafNode, !CryptoHash AccountAddress}.

Definition verify_transaction_info (ledger_info : LedgerInfo) (transaction_version : Z)
    (transaction_info : TransactionInfo) (proof : AccumulatorProof) : result string unit :=
  _ ← ensure (transaction_version <=? li_version ledger_info)
        "Transaction version is newer than LedgerInfo version."%string;
  accumulator_proof_verify TransactionAccumulatorInternalNode_hash proof
    (li_transaction_accumulator_hash ledger_info) (crypto_hash transaction_info) transaction_version.

Definition transaction_info_with_proof_verify (self : TransactionInfoWithProof) (ledger_info : LedgerInfo)
    (transaction_version : Z) : result string unit :=
  verify_transaction_info ledger_info transaction_version (tip_transaction_info self)
    (ledger_info_to_transaction_info_proof self).

(** [InMemoryAccumulator::<EventAccumulatorHasher>::from_leaves(&event_hashes).root_hash()]. *)
Definition event_root (events : list ContractEvent) : result string HashValue :=
  acc ← from_leaves EventAccumulatorInternalNode_hash ACCUMULATOR_PLACEHOLDER_HASH (map crypto_hash events);
  Ok (root_hash acc).

Definition verify_user_txn (self : TransactionWithProof) (ledger_info : LedgerInfo) (version : Z)
    (sender : AccountAddress) (sequence_number : Z) : result string unit :=
  signed_transaction ← as_signed_user_txn (twp_transaction self);
  _ ← ensure (twp_version self =? version) "Version is not expected."%string;
  _ ← ensure (bool_decide (st_sender signed_transaction = sender)) "Sender not expected."%string;
  _ ← ensure (st_sequence_number signed_transaction =? sequence_number) "Sequence number not expected."%string;
  _ ← ensure (bool_decide (crypto_hash (twp_transaction self) =
                           ti_transaction_hash (tip_transaction_info (twp_proof self))))
        "Transaction hash not expected."%string;
  _ ← match twp_events self with
      | Some events =>
        event_root_hash ← event_root events;
        ensure (bool_decide (event_root_hash = ti_event_root_hash (tip_transaction_info (twp_proof self))))
          "Event root hash not expected."%string
      | None => Ok tt
      end;
  transaction_info_with_proof_verify (twp_proof self) ledger_info version.

(** [itertools::zip_eq] panics on lists of different lengths. *)
Definition zip_eq {A B' : Type} (l1 : list A) (l2 : list B') : result string (list (A * B')) :=
  if (length l1 =? length l2)%nat then Ok (zip l1 l2) else Panic.

Definition transaction_list_proof_verify (self : TransactionListProof) (ledger_info : LedgerInfo)
    (first_transaction_version : option Z) (transaction_hashes : list HashValue) : result string unit :=
  _ ← ensure (length (tlp_transaction_infos self) =? length transaction_hashes)%nat
        "The number of TransactionInfo objects does not match the number of transactions."%string;
  pairs ← zip_eq transaction_hashes (tlp_transaction_infos self);
  _ ← result_collect (fun '(txn_hash, txn_info) =>
        ensure (bool_decide (txn_hash = ti_transaction_hash txn_info))
          "The hash of transaction does not match the transaction info in proof."%string) pairs;
  range_proof_verify TransactionAccumulatorInternalNode_hash (ledger_info_to_transaction_infos_proof self)
    (li_transaction_accumulator_hash ledger_info) first_transaction_version
    (map crypto_hash (tlp_transaction_infos self)).

Definition transaction_list_with_proof_verify (self : TransactionListWithProof) (ledger_info : LedgerInfo)
    (first_transaction_version : option Z) : result string unit :=
  _ ← ensure (bool_decide (tlwp_first_transaction_version self = first_transaction_version))
        "First transaction version not expected."%string;
  _ ← transaction_list_proof_verify (tlwp_proof self) ledger_info (tlwp_first_transaction_version self)
        (map crypto_hash (tlwp_transactions self));
  match tlwp_events self with
  | Some event_lists =>
    _ ← ensure (length event_lists =? length (tlwp_transactions self))%nat
          "The length of event_lists does not match the number of transactions."%string;
    pairs ← zip_eq event_lists (tlp_transaction_infos (tlwp_proof self));
    _ ← result_collect (fun '(events, txn_info) =>
          event_root_hash ← event_root events;
          ensure (bool_decide (event_root_hash = ti_event_root_hash txn_info))
            "Some event root hash calculated doesn't match that carried on the transaction info."%string) pairs;
    Ok tt
  | None => Ok tt
  end.

Definition event_proof_verify (self : EventProof) (ledger_info : LedgerInfo) (event_hash : HashValue)
    (transaction_version event_version_within_transaction : Z) : result string unit :=
  _ ← accumulator_proof_verify EventAccumulatorInternalNode_hash (transaction_info_to_event_proof self)
        (ti_event_root_hash (tip_transaction_info (ep_transaction_info_with_proof self))) event_hash
        event_version_within_transaction;
  transaction_info_with_proof_verify (ep_transaction_info_with_proof self) ledger_info transaction_version.

Definition event_with_proof_verify (self : EventWithProof) (ledger_info : LedgerInfo) (event_key : bytes)
    (sequence_number transaction_version event_index : Z) : result string unit :=
  _ ← ensure (bool_decide (ce_key (ewp_event self) = event_key)) "Event key not expected."%string;
  _ ← ensure (ce_sequence_number (ewp_event self) =? sequence_number) "Sequence number not expected."%string;
  _ ← ensure (ewp_transaction_version self =? transaction_version) "Transaction version not expected."%string;
  _ ← ensure (ewp_event_index self =? event_index) "Event index not expected."%string;
  event_proof_verify (ewp_proof self) ledger_info (crypto_hash (ewp_event self)) transaction_version event_index.

Definition account_state_proof_verify (self : AccountStateProof) (ledger_info : LedgerInfo) (state_version : Z)
    (account_address_hash : HashValue) (account_state_blob : option AccountStateBlob) : result string unit :=
  _ ← sparse_merkle_proof_verify SparseMerkleInternalNode_hash SPARSE_MERKLE_PLACEHOLDER_HASH
        (transaction_info_to_account_proof self)
        (ti_state_root_hash (tip_transaction_info (asp_transaction_info_with_proof self)))
        account_address_hash account_state_blob;
  transaction_info_with_proof_verify (asp_transaction_info_with_proof self) ledger_info state_version.

Definition account_state_with_proof_verify (self : AccountStateWithProof) (ledger_info : LedgerInfo) (version : Z)
    (address : AccountAddress) : result string unit :=
  _ ← ensure (aswp_version self =? version) "State version is not expected."%string;
  account_state_proof_verify (aswp_proof self) ledger_info version (crypto_hash address) (aswp_blob self).
End LedgerData.

(** ** What a client learns from a verified proof *)

Section LedgerSoundness.
Context `{Crypto} `{B : !HashBytes, !LedgerHashers}.
Context `{!CryptoHash TransactionInfo, !CryptoHash Transaction, !CryptoHash ContractEvent}.
Context `{!CryptoHash AccountStateBlob, !CryptoHash SparseMerkleLeafNode, !CryptoHash AccountAddress}.

Notation txn_tree_root := (tree_root TransactionAccumulatorInternalNode_hash ACCUMULATOR_PLACEHOLDER_HASH).
Notation event_tree_root := (tree_root EventAccumulatorInternalNode_hash ACCUMULATOR_PLACEHOLDER_HASH).
Notation state_root := (sparse_root SparseMerkleInternalNode_hash SPARSE_MERKLE_PLACEHOLDER_HASH).

(** A version of the ledger: the transaction, its events, the account states after it,
    and the transaction info that commits to them. *)
Record LedgerEntry := mkLedgerEntry {
  le_transaction : Transaction;
  le_events : list ContractEvent;
  le_accounts : list (HashValue * AccountStateBlob);
  le_info : TransactionInfo
}.

Record entry_ok (e : LedgerEntry) : Prop := {
  entry_transaction : ti_transaction_hash (le_info e) = crypto_hash (le_transaction e);
  entry_events : ti_event_root_hash (le_info e) = event_tree_root (map crypto_hash (le_events e));
  entry_state : ti_state_root_hash (le_info e) = state_root (le_accounts e);
  entry_accounts : NoDup (le_accounts e).*1
}.

(** The ledger info commits to the ledger [E]. *)
Record commits_to (li : LedgerInfo) (E : list LedgerEntry) : Prop := {
  committed_length : 0 < Z.of_nat (length E) <= 2 ^ 63;
  committed_version : li_version li = Z.of_nat (length E) - 1;
  committed_root : li_transaction_accumulator_hash li = txn_tree_root (map crypto_hash (map le_info E));
  committed_entries : Forall entry_ok E
}.

(** Preimages of the hashes that the verifier of a transaction info computes, one of
    which has the hash of a different preimage in the ledger. *)
Definition info_collision (pf : TransactionInfoWithProof) (version : Z) (E : list LedgerEntry) : Prop :=
  hash_collision TransactionAccumulatorInternalNode_hash ACCUMULATOR_PLACEHOLDER_HASH crypto_hash
    (inclusion_preimages TransactionAccumulatorInternalNode_hash crypto_hash
       (siblings (ledger_info_to_transaction_info_proof pf)) (tip_transaction_info pf) version)
    (map le_info E).

Lemma info_sound li E pf version : commits_to li E -> 0 <= version ->
  transaction_info_with_proof_verify pf li version = Ok tt ->
  (exists e, E !! Z.to_nat version = Some e /\ entry_ok e /\ tip_transaction_info pf = le_info e) \/
  info_collision pf version E.
Proof.
  intros [Hlen Hver Hroot Hok] Hv0 Hv. unfold transaction_info_with_proof_verify, verify_transaction_info in Hv.
  res_inv. match goal with Hx : (_ <=? _) = true |- _ => apply Z.leb_le in Hx end.
  match goal with Hx : accumulator_proof_verify _ _ _ _ _ = _ |- _ => rewrite Hroot in Hx; rename Hx into Hp end.
  destruct (inclusion_or_collision TransactionAccumulatorInternalNode_hash ACCUMULATOR_PLACEHOLDER_HASH crypto_hash
    (map le_info E) (ledger_info_to_transaction_info_proof pf) (tip_transaction_info pf) version) as [Hin|Hc];
    [rewrite length_map; lia|done|left|by right].
  rewrite list_lookup_fmap in Hin. destruct (E !! Z.to_nat version) as [e|] eqn:He; [|done]. injection Hin as Hin.
  exists e. split_and!; [done| |done]. by eapply Forall_lookup_1 in Hok.
Qed.

Definition events_fit (events : option (list ContractEvent)) : Prop :=
  forall evs, events = Some evs -> Z.of_nat (length evs) < 2 ^ 64.

Lemma event_root_tree evs : Z.of_nat (length evs) < 2 ^ 64 ->
  event_root evs = Ok (event_tree_root (map crypto_hash evs)).
Proof. intros Hl. unfold event_root. by rewrite from_leaves_accumulator_of by (by rewrite length_map). Qed.

Definition events_collision (evs : list ContractEvent) (e : LedgerEntry) : Prop :=
  tree_collision EventAccumulatorInternalNode_hash ACCUMULATOR_PLACEHOLDER_HASH crypto_hash evs (le_events e).

Lemma events_sound evs e : entry_ok e -> Z.of_nat (length evs) < 2 ^ 64 ->
  event_root evs = Ok (ti_event_root_hash (le_info e)) -> evs = le_events e \/ events_collision evs e.
Proof.
  intros Hok Hl. rewrite event_root_tree, (entry_events _ Hok) by done. intros [= E].
  exact (tree_root_injective EventAccumulatorInternalNode_hash ACCUMULATOR_PLACEHOLDER_HASH crypto_hash evs (le_events e) E).
Qed.

(** Two transactions with one hash. *)
Definition transaction_collision (t : Transaction) (e : LedgerEntry) : Prop :=
  t <> le_transaction e /\ crypto_hash t = crypto_hash (le_transaction e).

Lemma transaction_or_collision t e : entry_ok e -> crypto_hash t = ti_transaction_hash (le_info e) ->
  t = le_transaction e \/ transaction_collision t e.
Proof.
  intros Hok. rewrite (entry_transaction _ Hok). intros E. destruct (decide (t = le_transaction e)); [by left|by right].
Qed.

(** C16: A transaction that a client accepts under a ledger info is the one the ledger has at that
    version, with its events when they are included, or the proof exhibits a collision. *)
Theorem transaction_sound li E pf version sender sequence_number : commits_to li E -> 0 <= version ->
  events_fit (twp_events pf) -> verify_user_txn pf li version sender sequence_number = Ok tt ->
  (exists e txn, E !! Z.to_nat version = Some e /\ twp_transaction pf = le_transaction e /\
     le_transaction e = UserTransaction txn /\ st_sender txn = sender /\ st_sequence_number txn = sequence_number /\
     forall evs, twp_events pf = Some evs -> evs = le_events e) \/
  info_collision (twp_proof pf) version E \/
  exists e, E !! Z.to_nat version = Some e /\
    (transaction_collision (twp_transaction pf) e \/
     exists evs, twp_events pf = Some evs /\ events_collision evs e).
Proof.
  intros Hc Hv0 Hfit Hv. unfold verify_user_txn in Hv. destruct (twp_transaction pf) as [txn| |] eqn:Et; try done.
  cbn [as_signed_user_txn mbind result_bind] in Hv. res_inv.
  repeat match goal with Hx : (_ =? _) = true |- _ => apply Z.eqb_eq in Hx end.
  match goal with Hx : transaction_info_with_proof_verify _ _ _ = _ |- _ =>
    destruct (info_sound _ _ _ _ Hc Hv0 Hx) as [(e & He & Hok & Hi)|Hcol]; [|by right; left] end.
  rewrite Hi in *. match goal with Hx : crypto_hash _ = ti_transaction_hash _ |- _ =>
    apply (transaction_or_collision _ _ Hok) in Hx as [Ht|Ht] end; [|by right; right; exists e; auto].
  destruct (twp_events pf) as [evs|] eqn:Ee.
  - res_inv. match goal with Hx : event_root evs = Ok _ |- _ => rename Hx into Hr end.
    apply (events_sound evs e Hok) in Hr as [Hr|Hr]; [| |by apply Hfit].
    + left. exists e, txn. split_and!; [done|done|done|done|lia|]. intros evs' [= <-]. done.
    + right. right. exists e. split; [done|]. right. eauto.
  - left. exists e, txn. split_and!; [done|done|done|done|lia|done].
Qed.

(** C19: An event that a client accepts under a ledger info is an event of that version, or the
    proof exhibits a collision; this includes a version without events, for which only a
    collision can be accepted.  The event is at the given index as the verifier reads it,
    which is the index itself when the transaction has that many events. *)
Theorem event_sound li E pf event_key sequence_number version index : commits_to li E -> is_u64 version -> is_u64 index ->
  event_with_proof_verify pf li event_key sequence_number version index = Ok tt ->
  (exists e, E !! Z.to_nat version = Some e /\ let n := Z.of_nat (length (le_events e)) in
     le_events e !! Z.to_nat (index_read n index) = Some (ewp_event pf) /\ (index < n -> index_read n index = index) /\
     ce_key (ewp_event pf) = event_key /\ ce_sequence_number (ewp_event pf) = sequence_number) \/
  info_collision (ep_transaction_info_with_proof (ewp_proof pf)) version E \/
  exists e, E !! Z.to_nat version = Some e /\
    hash_collision EventAccumulatorInternalNode_hash ACCUMULATOR_PLACEHOLDER_HASH crypto_hash
      (inclusion_preimages EventAccumulatorInternalNode_hash crypto_hash
         (siblings (transaction_info_to_event_proof (ewp_proof pf))) (ewp_event pf) index) (le_events e).
Proof.
  intros Hc [Hv0 _] [Hi0 _] Hv. unfold event_with_proof_verify, event_proof_verify in Hv. res_inv.
  repeat match goal with Hx : (_ =? _) = true |- _ => apply Z.eqb_eq in Hx end.
  match goal with Hx : transaction_info_with_proof_verify _ _ _ = _ |- _ =>
    destruct (info_sound _ _ _ _ Hc Hv0 Hx) as [(e & He & Hok & Hi)|Hcol]; [|by right; left] end.
  match goal with Hx : accumulator_proof_verify _ _ _ _ _ = _ |- _ => rename Hx into Hp end.
  rewrite Hi, (entry_events _ Hok) in Hp. destruct x3.
  destruct (inclusion_sound_mod EventAccumulatorInternalNode_hash ACCUMULATOR_PLACEHOLDER_HASH crypto_hash
    (le_events e) _ (ewp_event pf) _ Hi0 Hp) as [[Hlen Hin]|Hcol].
  - left. exists e. rewrite Hlen in Hin. split_and!; [done|done| |done|lia]. intros Hlt. by apply index_read_small.
  - right. right. by exists e.
Qed.

(** The index of an event is not authenticated: an accepted event stays accepted when its index is
    moved by a multiple of two to the number of siblings, which for a transaction with a single
    event is any index at all. *)
Theorem event_index_unauthenticated pf li event_key sequence_number version index k :
  event_with_proof_verify pf li event_key sequence_number version index = Ok tt ->
  let index' := index + k * 2 ^ Z.of_nat (length (siblings (transaction_info_to_event_proof (ewp_proof pf)))) in
  event_with_proof_verify (mkEventWithProof (ewp_transaction_version pf) index' (ewp_event pf) (ewp_proof pf))
    li event_key sequence_number version index' = Ok tt.
Proof.
  intros Hv index'. unfold event_with_proof_verify, event_proof_verify in *. cbn [ewp_transaction_version ewp_event_index ewp_event ewp_proof].
  rewrite Z.eqb_refl. res_inv. cbn [ensure mbind result_bind].
  repeat match goal with Hx : ?b = true |- _ => rewrite Hx; clear Hx end.
  rewrite bool_decide_eq_true_2 by done. cbn [ensure mbind result_bind].
  unfold accumulator_proof_verify in *. unfold index'. rewrite proof_step_shift.
  match goal with Hx : _ ≫= _ = Ok _ |- _ => rewrite Hx end. done.
Qed.

(** C18: An account state that a client accepts under a ledger info, present or absent, is that of the
    account at that version, or the proof exhibits a collision. *)
Theorem account_state_sound `{!HashBytesLaws B} li E pf version address : commits_to li E -> 0 <= version ->
  account_state_with_proof_verify pf li version address = Ok tt ->
  (exists e, E !! Z.to_nat version = Some e /\
     match aswp_blob pf with
     | Some b => (crypto_hash address, b) ∈ le_accounts e
     | None => crypto_hash address ∉ (le_accounts e).*1
     end) \/
  info_collision (asp_transaction_info_with_proof (aswp_proof pf)) version E \/
  exists e, E !! Z.to_nat version = Some e /\
    sparse_collision SparseMerkleInternalNode_hash SPARSE_MERKLE_PLACEHOLDER_HASH
      (sparse_preimages SparseMerkleInternalNode_hash SPARSE_MERKLE_PLACEHOLDER_HASH
         (transaction_info_to_account_proof (aswp_proof pf)) (crypto_hash address) (aswp_blob pf)) (le_accounts e).
Proof.
  intros Hc Hv0 Hv. unfold account_state_with_proof_verify, account_state_proof_verify in Hv.
  apply bind_Ok in Hv as (? & _ & Hv). apply bind_Ok in Hv as (u & Hp & Hv). destruct u.
  destruct (info_sound _ _ _ _ Hc Hv0 Hv) as [(e & He & Hok & Hi)|Hcol]; [|by right; left].
  rewrite Hi, (entry_state _ Hok) in Hp. destruct (sparse_or_collision_at _ _ _ _ _ _ (entry_accounts _ Hok) Hp) as [Hin|Hcol].
  - left. by exists e.
  - right. right. by exists e.
Qed.

(** What the proof of a list says about its [j]-th transaction. *)
Definition listed (pf : TransactionListWithProof) (j : nat) (e : LedgerEntry) : Prop :=
  tlwp_transactions pf !! j = Some (le_transaction e) /\
  forall event_lists, tlwp_events pf = Some event_lists -> event_lists !! j = Some (le_events e).

Definition listed_collision (pf : TransactionListWithProof) (j : nat) (e : LedgerEntry) : Prop :=
  (exists t, tlwp_transactions pf !! j = Some t /\ transaction_collision t e) \/
  (exists event_lists evs, tlwp_events pf = Some event_lists /\ event_lists !! j = Some evs /\ events_collision evs e).

Definition infos_collision (pf : TransactionListWithProof) (version : Z) (E : list LedgerEntry) : Prop :=
  hash_collision TransactionAccumulatorInternalNode_hash ACCUMULATOR_PLACEHOLDER_HASH crypto_hash
    (range_preimages TransactionAccumulatorInternalNode_hash crypto_hash
       (ledger_info_to_transaction_infos_proof (tlwp_proof pf)) version (tlp_transaction_infos (tlwp_proof pf)))
    (map le_info E).

Lemma zip_eq_Ok {A B' : Type} (l1 : list A) (l2 : list B') l : zip_eq l1 l2 = Ok l -> length l1 = length l2 /\ l = zip l1 l2.
Proof. unfold zip_eq. destruct (Nat.eqb_spec (length l1) (length l2)); [|done]. by intros [= <-]. Qed.

Lemma zip_collect_lookup {A B' : Type} (f : A * B' -> result string unit) l1 l2 us j a b :
  result_collect f (zip l1 l2) = Ok us -> l1 !! j = Some a -> l2 !! j = Some b -> exists u, f (a, b) = Ok u.
Proof.
  intros Hc H1 H2. apply (result_collect_elem f (zip l1 l2) us); [done|]. apply list_elem_of_lookup. exists j.
  by rewrite lookup_zip_with, H1, H2.
Qed.

Lemma transaction_list_hashes pf li version us : transaction_list_proof_verify (tlwp_proof pf) li version
    (map crypto_hash (tlwp_transactions pf)) = Ok us ->
  length (tlp_transaction_infos (tlwp_proof pf)) = length (tlwp_transactions pf) /\
  (forall j t i, tlwp_transactions pf !! j = Some t -> tlp_transaction_infos (tlwp_proof pf) !! j = Some i ->
     crypto_hash t = ti_transaction_hash i) /\
  range_proof_verify TransactionAccumulatorInternalNode_hash (ledger_info_to_transaction_infos_proof (tlwp_proof pf))
    (li_transaction_accumulator_hash li) version (map crypto_hash (tlp_transaction_infos (tlwp_proof pf))) = Ok tt.
Proof.
  unfold transaction_list_proof_verify. intros Hv. apply bind_Ok in Hv as (? & Hl & Hv).
  apply ensure_Ok, Nat.eqb_eq in Hl. rewrite length_map in Hl.
  apply bind_Ok in Hv as (pairs & [_ ->]%zip_eq_Ok & Hv). apply bind_Ok in Hv as (us' & Hc & Hv).
  split_and!; [done| |by destruct us].
  intros j t i Ht Hi. destruct (zip_collect_lookup _ _ _ _ j (crypto_hash t) i Hc) as [u Hu].
  - by rewrite list_lookup_fmap, Ht.
  - done.
  - by apply ensure_Ok, bool_decide_eq_true in Hu.
Qed.

Lemma listed_or_collision li E pf first base : commits_to li E ->
  (forall event_lists, tlwp_events pf = Some event_lists -> Forall (fun evs => Z.of_nat (length evs) < 2 ^ 64) event_lists) ->
  transaction_list_with_proof_verify pf li first = Ok tt ->
  take (length (tlp_transaction_infos (tlwp_proof pf))) (drop base (map le_info E)) = tlp_transaction_infos (tlwp_proof pf) ->
  (forall j, (j < length (tlwp_transactions pf))%nat -> exists e, E !! (base + j)%nat = Some e /\ listed pf j e) \/
  exists j e, E !! (base + j)%nat = Some e /\ listed_collision pf j e.
Proof.
  intros Hc Hfit Hv Hinfos. unfold transaction_list_with_proof_verify in Hv. apply bind_Ok in Hv as (? & Hfirst & Hv).
  apply ensure_Ok, bool_decide_eq_true in Hfirst. rewrite Hfirst in Hv. apply bind_Ok in Hv as (? & Hp & Hev).
  apply transaction_list_hashes in Hp as (Hlen & Hhash & _).
  assert (Hentry : forall j, (j < length (tlwp_transactions pf))%nat -> exists e,
    E !! (base + j)%nat = Some e /\ entry_ok e /\ tlp_transaction_infos (tlwp_proof pf) !! j = Some (le_info e)).
  { intros j Hj. destruct (lookup_lt_is_Some_2 (tlp_transaction_infos (tlwp_proof pf)) j) as [i Hi]; [lia|].
    pose proof Hi as Hi'. rewrite <- Hinfos in Hi'. rewrite lookup_take_lt, lookup_drop, list_lookup_fmap in Hi' by lia.
    destruct (E !! (base + j)%nat) as [e|] eqn:He; [|done]. injection Hi' as <-.
    exists e. split_and!; [done| |done]. eapply Forall_lookup_1; [apply (committed_entries _ _ Hc)|done]. }
  destruct (all_or_some
    (fun j => exists e, E !! (base + j)%nat = Some e /\ listed pf j e)
    (fun j => exists e, E !! (base + j)%nat = Some e /\ listed_collision pf j e)
    (length (tlwp_transactions pf))) as [Hall|(j & _ & e & He & Hcol)]; [|by left|right; eauto].
  intros j Hj. destruct (Hentry j Hj) as (e & He & Hok & Hi).
  destruct (lookup_lt_is_Some_2 (tlwp_transactions pf) j Hj) as [t Ht].
  destruct (transaction_or_collision t e Hok (Hhash _ _ _ Ht Hi)) as [->|Htc]; [|right; exists e; split; [done|left; eauto]].
  destruct (tlwp_events pf) as [event_lists|] eqn:Ee.
  2:{ left. exists e. split; [done|]. split; [done|]. intros ? E'. congruence. }
  apply bind_Ok in Hev as (? & Hel & Hev). apply ensure_Ok, Nat.eqb_eq in Hel.
  apply bind_Ok in Hev as (pairs & [_ ->]%zip_eq_Ok & Hev). apply bind_Ok in Hev as (us & Hev & _).
  destruct (lookup_lt_is_Some_2 event_lists j) as [evs Hevs]; [lia|].
  destruct (zip_collect_lookup _ _ _ _ j evs _ Hev Hevs Hi) as [u Hu].
  apply bind_Ok in Hu as (root & Hroot & Hu). apply ensure_Ok, bool_decide_eq_true in Hu as ->.
  destruct (events_sound evs e Hok) as [->|Hec]; [by eapply (Forall_lookup_1 _ _ _ _ (Hfit _ eq_refl) Hevs)|done| |].
  - left. exists e. split; [done|]. split; [done|]. intros ? E'. rewrite Ee in E'. by injection E' as <-.
  - right. exists e. split; [done|]. right. eauto.
Qed.

(** C17: What a client learns from a list of transactions that it accepts under a ledger info.
    Without a first version the list is empty.  With a first version, whatever it is, the list
    is not empty, and its transactions are those the ledger has from the first version on as
    the verifier reads it, with their events when they are included, or the proof exhibits a
    collision.  The verifier does not compare the first version with that of the ledger info:
    a version of the ledger is read as it is, but of a later one only the remainder by the
    width of the accumulator is read. *)
Theorem transaction_list_sound li E pf first : commits_to li E -> (forall version, first = Some version -> is_u64 version) ->
  (forall event_lists, tlwp_events pf = Some event_lists -> Forall (fun evs => Z.of_nat (length evs) < 2 ^ 64) event_lists) ->
  transaction_list_with_proof_verify pf li first = Ok tt ->
  match first with
  | None => tlwp_transactions pf = []
  | Some version => let read := index_read (Z.of_nat (length E)) version in
    tlwp_transactions pf <> [] /\ (version <= li_version li -> read = version) /\
    ((forall j, (j < length (tlwp_transactions pf))%nat -> exists e, E !! (Z.to_nat read + j)%nat = Some e /\ listed pf j e) \/
     infos_collision pf version E \/
     exists j e, E !! (Z.to_nat read + j)%nat = Some e /\ listed_collision pf j e)
  end.
Proof.
  intros Hc Hu Hfit Hv. destruct (committed_length _ _ Hc) as [Hl0 Hl63]. pose proof Hv as Hv'.
  unfold transaction_list_with_proof_verify in Hv'. apply bind_Ok in Hv' as (? & Hfirst & Hv').
  apply ensure_Ok, bool_decide_eq_true in Hfirst. rewrite Hfirst in Hv'. apply bind_Ok in Hv' as (? & Hp & _).
  apply transaction_list_hashes in Hp as (Hlen & _ & Hrange). rewrite (committed_root _ _ Hc) in Hrange.
  destruct first as [version|].
  - destruct (Hu version eq_refl) as [Hv0 _]. cbv zeta.
    destruct (range_sound_mod TransactionAccumulatorInternalNode_hash ACCUMULATOR_PLACEHOLDER_HASH crypto_hash (map le_info E)
      (ledger_info_to_transaction_infos_proof (tlwp_proof pf)) (tlp_transaction_infos (tlwp_proof pf)) version Hv0)
      as [Hne Hor]; [by rewrite length_map|exact Hrange|]. rewrite length_map in Hor. split_and!.
    + intros E0. rewrite E0 in Hlen. by destruct (tlp_transaction_infos _).
    + intros Hle. rewrite (committed_version _ _ Hc) in Hle. apply index_read_small. lia.
    + destruct Hor as [[Hinfos _]|Hcol]; [|by right; left].
      destruct (listed_or_collision li E pf _ _ Hc Hfit Hv Hinfos) as [?|?]; [by left|by right; right].
  - unfold range_proof_verify in Hrange. res_inv. destruct (tlp_transaction_infos _); [|done]. by destruct (tlwp_transactions pf).
Qed.
End LedgerSoundness.
