(* ===== verification/NibblePath.v ===== *)
(** * Nibble paths

    [storage/jellyfish-merkle/src/nibble_path/mod.rs]: a path in the Jellyfish Merkle tree
    is a sequence of nibbles, packed two to a byte.  The operations on the packed form are
    shown to be those on the list of nibbles; [path_of] packs a list. *)

From S2P Require Import Prelude U64 Bytes Crypto Hash.

Definition ROOT_NIBBLE_HEIGHT : nat := HASH_LENGTH * 2.
#[global] Arguments ROOT_NIBBLE_HEIGHT : simpl never.

Record NibblePath := mkNibblePath {
  num_nibbles : nat;
  np_bytes : bytes
}.
#[global] Instance NibblePath_eq_dec : EqDecision NibblePath.
Proof. solve_decision. Defined.
#[global] Instance NibblePath_countable : Countable NibblePath.
Proof.
  refine (inj_countable' (fun p => (num_nibbles p, np_bytes p)) (fun '(n, b) => mkNibblePath n b) _). by intros [].
Defined.

Definition nibble_path_new (bytes : bytes) : result string NibblePath :=
  _ ← assert_ (length bytes <=? ROOT_NIBBLE_HEIGHT / 2)%nat;
  Ok (mkNibblePath (length bytes * 2) bytes).

Definition nibble_path_new_odd (bytes : bytes) : result string NibblePath :=
  _ ← assert_ (length bytes <=? ROOT_NIBBLE_HEIGHT / 2)%nat;
  last_byte ← expect (list.last bytes);
  _ ← assert_ (Z.land last_byte 15 =? 0);
  Ok (mkNibblePath (length bytes * 2 - 1) bytes).

Definition push (self : NibblePath) (nibble : Z) : result string NibblePath :=
  _ ← assert_ (num_nibbles self <? ROOT_NIBBLE_HEIGHT)%nat;
  bytes ← (if (num_nibbles self mod 2 =? 0)%nat then Ok (np_bytes self ++ [Z.shiftl nibble 4])
           else
             byte ← expect (np_bytes self !! (num_nibbles self / 2)%nat);
             Ok (<[(num_nibbles self / 2)%nat := Z.lor byte nibble]> (np_bytes self)));
  Ok (mkNibblePath (S (num_nibbles self)) bytes).

(** [Vec::pop] and [last_mut]: the last byte and those before it. *)
Definition split_last (l : bytes) : option (bytes * Z) :=
  (fun x => (removelast l, x)) <$> list.last l.

Definition pop (self : NibblePath) : result string (NibblePath * option Z) :=
  match split_last (np_bytes self) with
  | None => Ok (self, None)
  | Some (init, byte) =>
    if (num_nibbles self mod 2 =? 0)%nat then
      nibble ← nibble_from (Z.land byte 15);
      Ok (mkNibblePath (num_nibbles self - 1) (init ++ [Z.land byte 240]), Some nibble)
    else
      nibble ← nibble_from (Z.shiftr byte 4);
      Ok (mkNibblePath (num_nibbles self - 1) init, Some nibble)
  end.

Definition path_last (self : NibblePath) : result string (option Z) :=
  if (num_nibbles self mod 2 =? 0)%nat then
    match list.last (np_bytes self) with
    | None => Ok None
    | Some last_byte => nibble ← nibble_from (Z.land last_byte 15); Ok (Some nibble)
    end
  else
    last_byte ← expect (list.last (np_bytes self));
    nibble ← nibble_from (Z.shiftr last_byte 4); Ok (Some nibble).

Definition path_get_bit (self : NibblePath) (i : nat) : result string bool :=
  _ ← assert_ (i / 4 <? num_nibbles self)%nat;
  byte ← expect (np_bytes self !! (i / 8)%nat);
  Ok (negb (Z.land (Z.shiftr byte (7 - Z.of_nat (i mod 8))) 1 =? 0)).

Definition path_get_nibble (self : NibblePath) (i : nat) : result string Z :=
  _ ← assert_ (i <? num_nibbles self)%nat;
  byte ← expect (np_bytes self !! (i / 2)%nat);
  nibble_from (Z.land (Z.shiftr byte (if (i mod 2 =? 1)%nat then 0 else 4)) 15).

(** [FromIterator<Nibble>]. *)
Definition path_from_iter (iter : list Z) : result string NibblePath :=
  nibble_path ← nibble_path_new [];
  result_fold push iter nibble_path.

(** ** Iterators *)

(** [pos] is the range [pos_start..pos_end]. *)
Record NibbleIterator := mkNibbleIterator {
  nibble_path : NibblePath;
  pos_start : nat;
  pos_end : nat;
  iter_start : nat
}.

Definition nibble_iterator_new (nibble_path : NibblePath) (start end_ : nat) : NibbleIterator :=
  mkNibbleIterator nibble_path start end_ start.

Definition nibbles (self : NibblePath) : NibbleIterator := nibble_iterator_new self 0 (num_nibbles self).

Definition peek (self : NibbleIterator) : result string (option Z) :=
  if (pos_start self <? pos_end self)%nat then
    nibble ← path_get_nibble (nibble_path self) (pos_start self); Ok (Some nibble)
  else Ok None.

Definition nibble_next (self : NibbleIterator) : result string (NibbleIterator * option Z) :=
  if (pos_start self <? pos_end self)%nat then
    nibble ← path_get_nibble (nibble_path self) (pos_start self);
    Ok (mkNibbleIterator (nibble_path self) (S (pos_start self)) (pos_end self) (iter_start self), Some nibble)
  else Ok (self, None).

Definition visited_nibbles (self : NibbleIterator) : NibbleIterator :=
  nibble_iterator_new (nibble_path self) (iter_start self) (pos_start self).
Definition remaining_nibbles (self : NibbleIterator) : NibbleIterator :=
  nibble_iterator_new (nibble_path self) (pos_start self) (pos_end self).

(** The nibbles that the iterator still returns. *)
Definition nibble_collect (self : NibbleIterator) : result string (list Z) :=
  result_collect (path_get_nibble (nibble_path self)) (seq (pos_start self) (pos_end self - pos_start self)).

Definition get_nibble_path (self : NibbleIterator) : result string NibblePath :=
  visited ← nibble_collect (visited_nibbles self);
  remaining ← nibble_collect (remaining_nibbles self);
  path_from_iter (visited ++ remaining).

Definition is_finished (self : NibbleIterator) : result string bool :=
  p ← peek self; Ok (match p with None => true | Some _ => false end).

(** The loop ends when an iterator does: the number of remaining nibbles is enough fuel. *)
Fixpoint skip_common_prefix (fuel : nat) (x y : NibbleIterator) (count : nat)
    : result string (NibbleIterator * NibbleIterator * nat) :=
  match fuel with
  | O => Ok (x, y, count)
  | S fuel =>
    x_peek ← peek x;
    y_peek ← peek y;
    match x_peek, y_peek with
    | Some a, Some b =>
      if a =? b then
        '(x, _) ← nibble_next x;
        '(y, _) ← nibble_next y;
        skip_common_prefix fuel x y (S count)
      else Ok (x, y, count)
    | _, _ => Ok (x, y, count)
    end
  end.

(** ** Paths as lists of nibbles *)

Definition is_nibble (n : Z) : Prop := 0 <= n < 16.

Fixpoint pack (l : list Z) : bytes :=
  match l with
  | a :: b :: l => Z.lor (Z.shiftl a 4) b :: pack l
  | [a] => [Z.shiftl a 4]
  | [] => []
  end.
Definition path_of (l : list Z) : NibblePath := mkNibblePath (length l) (pack l).

(** The two nibbles of every byte. *)
Definition unpack (b : bytes) : list Z := flat_map (fun x => [Z.shiftr x 4; Z.land x 15]) b.

Lemma nibble_pair a b : is_nibble a -> is_nibble b ->
  Z.shiftr (Z.lor (Z.shiftl a 4) b) 4 = a /\ Z.land (Z.lor (Z.shiftl a 4) b) 15 = b /\
  Z.land (Z.lor (Z.shiftl a 4) b) 240 = Z.shiftl a 4 /\ is_byte (Z.lor (Z.shiftl a 4) b).
Proof.
  unfold is_nibble, is_byte. intros Ha Hb.
  assert (Hcases : forall P : Z -> Z -> Prop,
    (forall i j, (i < 16)%nat -> (j < 16)%nat -> P (Z.of_nat i) (Z.of_nat j)) -> P a b).
  { intros P HP. rewrite <- (Z2Nat.id a), <- (Z2Nat.id b) by lia. apply HP; lia. }
  apply (Hcases (fun a b => Z.shiftr (Z.lor (Z.shiftl a 4) b) 4 = a /\ Z.land (Z.lor (Z.shiftl a 4) b) 15 = b /\
    Z.land (Z.lor (Z.shiftl a 4) b) 240 = Z.shiftl a 4 /\ 0 <= Z.lor (Z.shiftl a 4) b < 256)).
  intros i j Hi Hj. do 16 (destruct i as [|i]; [do 16 (destruct j as [|j]; [vm_compute; split_and!; done|]); lia|]). lia.
Qed.

Lemma pair_ind (P : list Z -> Prop) : P [] -> (forall a, P [a]) -> (forall a b l, P l -> P (a :: b :: l)) -> forall l, P l.
Proof.
  intros H0 H1 H2 l. enough (P l /\ forall a, P (a :: l)) by naive_solver.
  induction l as [|b l [IH IH']]; split; auto.
Qed.

Lemma div2_SS n : (S (S n) / 2 = S (n / 2))%nat.
Proof. replace (S (S n)) with (n + 1 * 2)%nat by lia. rewrite Nat.div_add by lia. lia. Qed.
Lemma mod2_SS n : (S (S n) mod 2 = n mod 2)%nat.
Proof. replace (S (S n)) with (n + 1 * 2)%nat by lia. by rewrite Nat.Div0.mod_add. Qed.

Lemma nibble_half a : is_nibble a -> Z.shiftr (Z.shiftl a 4) 4 = a /\ Z.land (Z.shiftl a 4) 15 = 0 /\ is_byte (Z.shiftl a 4).
Proof.
  intros Ha. pose proof (nibble_pair a 0 Ha ltac:(unfold is_nibble; lia)) as (H1 & H2 & _ & H4).
  by rewrite Z.lor_0_r in *.
Qed.

Lemma nibble_land a : is_nibble a -> Z.land a 15 = a.
Proof. intros Ha. change 15 with (Z.ones 4). rewrite Z.land_ones by lia. by apply Z.mod_small. Qed.

Lemma pack_length l : length (pack l) = ((length l + 1) / 2)%nat.
Proof.
  induction l as [|a|a b l IH] using pair_ind; [done..|]. cbn [pack length]. rewrite IH.
  replace (S (S (length l)) + 1)%nat with (S (S (length l + 1))) by lia. by rewrite div2_SS.
Qed.

Lemma pack_bytes l : Forall is_nibble l -> is_bytes (pack l).
Proof.
  induction l as [|a|a b l IH] using pair_ind; intros Hl; [constructor|..]; apply list.Forall_cons in Hl as [Ha Hl].
  - constructor; [|constructor]. by apply nibble_half.
  - apply list.Forall_cons in Hl as [Hb Hl]. constructor; [by apply nibble_pair|by apply IH].
Qed.

Lemma pack_nibble l : forall i x, Forall is_nibble l -> l !! i = Some x -> exists byte,
  pack l !! (i / 2)%nat = Some byte /\ Z.land (Z.shiftr byte (if (i mod 2 =? 1)%nat then 0 else 4)) 15 = x.
Proof.
  induction l as [|a|a b l IH] using pair_ind; intros i x Hl Hi; [done|..]; apply list.Forall_cons in Hl as [Ha Hl].
  - destruct i as [|i]; [|done]. injection Hi as <-. exists (Z.shiftl a 4). split; [done|]. change (0 mod 2 =? 1)%nat with false.
    cbv iota. destruct (nibble_half a Ha) as (E & _). rewrite E. by apply nibble_land.
  - apply list.Forall_cons in Hl as [Hb Hl]. destruct (nibble_pair a b Ha Hb) as (E1 & E2 & _).
    destruct i as [|[|i]].
    + injection Hi as <-. exists (Z.lor (Z.shiftl a 4) b). split; [done|]. change (0 mod 2 =? 1)%nat with false. cbv iota. rewrite E1. by apply nibble_land.
    + injection Hi as <-. exists (Z.lor (Z.shiftl a 4) b). split; [done|]. change (1 mod 2 =? 1)%nat with true. cbv iota. by rewrite Z.shiftr_0_r.
    + rewrite div2_SS, mod2_SS. cbn. by apply IH.
Qed.

Lemma path_get_nibble_of l i x : Forall is_nibble l -> l !! i = Some x -> path_get_nibble (path_of l) i = Ok x.
Proof.
  intros Hl Hi. unfold path_get_nibble. cbn [num_nibbles np_bytes path_of].
  pose proof (lookup_lt_Some _ _ _ Hi) as Hlt. apply Nat.ltb_lt in Hlt. rewrite Hlt. cbn [assert_ mbind result_bind].
  destruct (pack_nibble l i x Hl Hi) as (byte & -> & E). cbn [expect mbind result_bind]. rewrite E.
  assert (Hx : is_nibble x) by (by eapply Forall_lookup_1 in Hi). unfold nibble_from, is_nibble in *.
  destruct (Z.ltb_spec x 16); [done|lia].
Qed.

Lemma pack_push_even l n : Nat.even (length l) = true -> pack (l ++ [n]) = pack l ++ [Z.shiftl n 4].
Proof. induction l as [|a|a b l IH] using pair_ind; intros He; [done..|]. cbn [pack app]. by rewrite IH. Qed.

Lemma pack_push_odd l n : Nat.even (length l) = false -> exists byte, pack l !! (length l / 2)%nat = Some byte /\
  pack (l ++ [n]) = <[(length l / 2)%nat := Z.lor byte n]> (pack l).
Proof.
  induction l as [|a|a b l IH] using pair_ind; intros He; [done|by eexists|].
  destruct (IH He) as (byte & E1 & E2). exists byte. cbn [length app pack]. rewrite div2_SS. cbn. by rewrite E2.
Qed.

Lemma even_mod2 n : (n mod 2 =? 0)%nat = Nat.even n.
Proof.
  rewrite <- Nat.negb_odd. rewrite <- Nat.bit0_odd, Nat.bit0_eqb.
  pose proof (Nat.mod_upper_bound n 2 ltac:(lia)). destruct (Nat.eqb_spec (n mod 2) 0), (Nat.eqb_spec (n mod 2) 1); (done || lia).
Qed.

Lemma push_of l n : (length l < ROOT_NIBBLE_HEIGHT)%nat -> push (path_of l) n = Ok (path_of (l ++ [n])).
Proof.
  intros Hl. unfold push. cbn [num_nibbles np_bytes path_of]. rewrite (proj2 (Nat.ltb_lt _ _) Hl). cbn [assert_ mbind result_bind].
  rewrite even_mod2. unfold path_of. rewrite length_app. cbn [length]. rewrite Nat.add_1_r. destruct (Nat.even (length l)) eqn:He.
  - by rewrite pack_push_even.
  - destruct (pack_push_odd l n He) as (byte & -> & ->). done.
Qed.

Lemma result_fold_push l2 : forall l1, (length (l1 ++ l2) <= ROOT_NIBBLE_HEIGHT)%nat ->
  result_fold push l2 (path_of l1) = Ok (path_of (l1 ++ l2)).
Proof.
  induction l2 as [|n l2 IH]; intros l1 Hl; cbn [result_fold]; [by rewrite app_nil_r|].
  rewrite length_app in Hl. cbn [length] in Hl. rewrite push_of by lia. cbn [mbind result_bind]. rewrite IH, <- app_assoc; [done|].
  rewrite !length_app. cbn. lia.
Qed.

Lemma path_from_iter_of l : (length l <= ROOT_NIBBLE_HEIGHT)%nat -> path_from_iter l = Ok (path_of l).
Proof. intros Hl. apply (result_fold_push l []). done. Qed.

Lemma removelast_snoc {A} (l : list A) x : removelast (l ++ [x]) = l.
Proof. apply removelast_last. Qed.

Lemma pack_last_even l n : Nat.even (length l) = false -> Forall is_nibble (l ++ [n]) -> exists init byte,
  pack (l ++ [n]) = init ++ [byte] /\ Z.land byte 15 = n /\ pack l = init ++ [Z.land byte 240].
Proof.
  induction l as [|a|a b l IH] using pair_ind; intros He Hl; [done|..].
  - exists [], (Z.lor (Z.shiftl a 4) n). cbn in Hl. apply list.Forall_cons in Hl as [Ha [Hn _]%list.Forall_cons].
    destruct (nibble_pair a n Ha Hn) as (_ & E2 & E3 & _). split_and!; [done|done|cbn; by rewrite E3].
  - cbn in Hl. apply list.Forall_cons in Hl as [_ [_ Hl]%list.Forall_cons].
    destruct (IH He Hl) as (init & byte & E1 & E2 & E3). exists (Z.lor (Z.shiftl a 4) b :: init), byte. cbn. by rewrite E1, E3.
Qed.

Lemma pop_of l n : Forall is_nibble (l ++ [n]) -> pop (path_of (l ++ [n])) = Ok (path_of l, Some n).
Proof.
  intros Hl. assert (Hn : is_nibble n) by (apply Forall_app in Hl as [_ [? _]%list.Forall_cons]; done).
  assert (Hn16 : (n <? 16) = true) by (unfold is_nibble in Hn; lia).
  unfold pop, split_last. cbn [num_nibbles np_bytes path_of]. rewrite length_app, even_mod2. cbn [length].
  rewrite Nat.add_1_r, Nat.even_succ, <- Nat.negb_even. replace (S (length l) - 1)%nat with (length l) by lia.
  destruct (Nat.even (length l)) eqn:He; cbn [negb].
  - rewrite pack_push_even, last_snoc by done. cbn [fmap option_fmap option_map]. rewrite removelast_snoc.
    destruct (nibble_half n Hn) as (-> & _). unfold nibble_from. by rewrite Hn16.
  - destruct (pack_last_even l n He Hl) as (init & byte & E1 & E2 & E3). rewrite E1, last_snoc. cbn [fmap option_fmap option_map].
    rewrite removelast_snoc, E2. unfold nibble_from. rewrite Hn16. cbn. unfold path_of. by rewrite E3.
Qed.

Lemma byte_split x : is_byte x -> Z.lor (Z.shiftl (Z.shiftr x 4) 4) (Z.land x 15) = x /\
  is_nibble (Z.shiftr x 4) /\ is_nibble (Z.land x 15).
Proof.
  unfold is_byte, is_nibble. intros Hx. split_and!.
  - change 15 with (Z.ones 4). rewrite <- Z.ldiff_ones_r by lia. apply Z.lor_ldiff_and.
  - apply Z.shiftr_nonneg. lia.
  - rewrite Z.shiftr_div_pow2 by lia. apply Z.div_lt_upper_bound; lia.
  - apply Z.land_nonneg. lia.
  - change 15 with (Z.ones 4). rewrite Z.land_ones by lia. apply Z.mod_pos_bound. lia.
Qed.

Lemma unpack_nibbles b : is_bytes b -> Forall is_nibble (unpack b).
Proof. induction 1 as [|x b Hx _ IH]; cbn; [constructor|]. destruct (byte_split x Hx) as (_ & ? & ?). constructor; [done|constructor; [done|exact IH]]. Qed.

Lemma pack_unpack b : is_bytes b -> pack (unpack b) = b.
Proof. induction 1 as [|x b Hx _ IH]; [done|]. cbn [unpack flat_map app pack]. destruct (byte_split x Hx) as (-> & _). f_equal. exact IH. Qed.

Lemma unpack_length b : length (unpack b) = (length b * 2)%nat.
Proof. induction b as [|x b IH]; [done|]. cbn [unpack flat_map]. rewrite length_app. cbn [length]. unfold unpack in IH. lia. Qed.

Lemma nibble_path_new_of b : is_bytes b -> (length b <= HASH_LENGTH)%nat -> nibble_path_new b = Ok (path_of (unpack b)).
Proof.
  intros Hb Hl. unfold nibble_path_new, ROOT_NIBBLE_HEIGHT. rewrite Nat.div_mul by lia.
  rewrite (proj2 (Nat.leb_le _ _) Hl). cbn. unfold path_of. by rewrite unpack_length, pack_unpack.
Qed.

Lemma path_of_inj l1 l2 : Forall is_nibble l1 -> Forall is_nibble l2 -> path_of l1 = path_of l2 -> l1 = l2.
Proof.
  intros H1 H2 E. injection E as El Ep. apply list_eq_same_length with (length l1); [done|done|].
  intros i x y Hi Hx Hy. apply (path_get_nibble_of l1 i x H1) in Hx. apply (path_get_nibble_of l2 i y H2) in Hy.
  unfold path_of in *. rewrite El, Ep in Hx. rewrite Hx in Hy. by injection Hy.
Qed.

(** ** Iterators over lists of nibbles *)

Section Iterators.
Context (l : list Z) (Hl : Forall is_nibble l).

Lemma peek_of i e s : (e <= length l)%nat ->
  peek (mkNibbleIterator (path_of l) i e s) = Ok (if (i <? e)%nat then l !! i else None).
Proof.
  intros He. unfold peek. cbn [pos_start pos_end nibble_path]. destruct (Nat.ltb_spec i e) as [Hlt|]; [|done].
  destruct (lookup_lt_is_Some_2 l i) as [x Hx]; [lia|]. by rewrite (path_get_nibble_of l i x Hl Hx), Hx.
Qed.

Lemma nibble_next_of i e s x : (i < e <= length l)%nat -> l !! i = Some x ->
  nibble_next (mkNibbleIterator (path_of l) i e s) = Ok (mkNibbleIterator (path_of l) (S i) e s, Some x).
Proof.
  intros He Hx. unfold nibble_next. cbn [pos_start pos_end nibble_path]. rewrite (proj2 (Nat.ltb_lt i e)) by lia.
  by rewrite (path_get_nibble_of l i x Hl Hx).
Qed.

Lemma nibble_collect_of i e s : (i <= e <= length l)%nat ->
  nibble_collect (mkNibbleIterator (path_of l) i e s) = Ok (take (e - i) (drop i l)).
Proof.
  intros He. unfold nibble_collect. cbn [pos_start pos_end nibble_path]. apply result_collect_Ok.
  apply Forall2_same_length_lookup_2.
  - rewrite length_seq, length_take, length_drop. lia.
  - intros j a b Ha Hb. apply lookup_seq in Ha as [-> Hj]. rewrite lookup_take_lt, lookup_drop in Hb by lia.
    by apply path_get_nibble_of.
Qed.

Lemma is_finished_of i e s : (e <= length l)%nat -> is_finished (mkNibbleIterator (path_of l) i e s) = Ok (e <=? i)%nat.
Proof.
  intros He. unfold is_finished. rewrite peek_of by done. cbn [mbind result_bind].
  destruct (Nat.ltb_spec i e), (Nat.leb_spec e i); try lia; [|done].
  destruct (lookup_lt_is_Some_2 l i) as [x Hx]; [lia|]. by rewrite Hx.
Qed.

Lemma get_nibble_path_of i : (i <= length l <= ROOT_NIBBLE_HEIGHT)%nat ->
  get_nibble_path (mkNibbleIterator (path_of l) i (length l) 0) = Ok (path_of l).
Proof.
  intros Hi. unfold get_nibble_path, visited_nibbles, remaining_nibbles, nibble_iterator_new.
  cbn [pos_start pos_end nibble_path iter_start]. rewrite !nibble_collect_of by lia. cbn [mbind result_bind].
  rewrite drop_0, Nat.sub_0_r, (take_ge (drop i l)) by (rewrite length_drop; lia). rewrite take_drop.
  apply path_from_iter_of; lia.
Qed.
End Iterators.

Lemma skip_common_prefix_of l1 l2 e1 e2 s1 s2 fuel : Forall is_nibble l1 -> Forall is_nibble l2 ->
  (e1 <= length l1)%nat -> (e2 <= length l2)%nat -> forall i1 i2 count, (e1 - i1 <= fuel)%nat ->
  let n := common_prefix_len (take (e1 - i1) (drop i1 l1)) (take (e2 - i2) (drop i2 l2)) in
  skip_common_prefix fuel (mkNibbleIterator (path_of l1) i1 e1 s1) (mkNibbleIterator (path_of l2) i2 e2 s2) count =
  Ok (mkNibbleIterator (path_of l1) (i1 + n) e1 s1, mkNibbleIterator (path_of l2) (i2 + n) e2 s2, (count + n)%nat).
Proof.
  intros H1 H2 He1 He2. induction fuel as [|fuel IH]; intros i1 i2 count Hf n.
  { assert (n = 0%nat) as -> by (unfold n; replace (e1 - i1)%nat with 0%nat by lia; done). by rewrite !Nat.add_0_r. }
  cbn [skip_common_prefix]. rewrite !peek_of by done. cbn [mbind result_bind].
  destruct (Nat.ltb_spec i1 e1) as [Hi1|].
  2:{ assert (n = 0%nat) as -> by (unfold n; replace (e1 - i1)%nat with 0%nat by lia; done). by rewrite !Nat.add_0_r. }
  destruct (lookup_lt_is_Some_2 l1 i1) as [x Hx]; [lia|]. rewrite Hx.
  destruct (Nat.ltb_spec i2 e2) as [Hi2|].
  2:{ assert (n = 0%nat) as -> by (unfold n; replace (e2 - i2)%nat with 0%nat by lia; cbn; by destruct (take _ _)).
      by rewrite !Nat.add_0_r. }
  destruct (lookup_lt_is_Some_2 l2 i2) as [y Hy]; [lia|]. rewrite Hy.
  assert (En : n = if bool_decide (x = y) then
    S (common_prefix_len (take (e1 - S i1) (drop (S i1) l1)) (take (e2 - S i2) (drop (S i2) l2))) else 0%nat).
  { unfold n. rewrite (drop_S l1 x i1 Hx), (drop_S l2 y i2 Hy).
    replace (e1 - i1)%nat with (S (e1 - S i1)) by lia. by replace (e2 - i2)%nat with (S (e2 - S i2)) by lia. }
  destruct (Z.eqb_spec x y) as [->|Hne].
  - rewrite bool_decide_eq_true_2 in En by done. rewrite En.
    rewrite (nibble_next_of l1 H1 i1 e1 s1 y) by (done || lia). rewrite (nibble_next_of l2 H2 i2 e2 s2 y) by (done || lia).
    cbn [mbind result_bind]. rewrite IH by lia. do 2 f_equal; [f_equal; f_equal; lia|lia].
  - rewrite bool_decide_eq_false_2 in En by done. rewrite En, !Nat.add_0_r. done.
Qed.
