(* ===== verification/NodeType.v ===== *)
(** * Nodes of the Jellyfish Merkle tree

    [storage/jellyfish-merkle/src/node_type/mod.rs]: node keys, internal nodes of sixteen
    children, leaves, their hashes and their encoding in storage.  An internal node stands
    for four levels of the binary tree, whose hash it computes on bitmaps of its
    children. *)

From S2P Require Import Prelude U64 Bytes Lcs Crypto Hash NibblePath.
From S2P Require Import SparseMerkleProof LedgerProof.

(** ** Node keys *)

Record NodeKey := mkNodeKey { nk_version : Z; nk_nibble_path : NibblePath }.
#[global] Instance NodeKey_eq_dec : EqDecision NodeKey.
Proof. solve_decision. Defined.
#[global] Instance NodeKey_countable : Countable NodeKey.
Proof.
  refine (inj_countable' (fun k => (nk_version k, nk_nibble_path k)) (fun '(v, p) => mkNodeKey v p) _). by intros [].
Defined.

Definition node_key_new_empty_path (version : Z) : NodeKey := mkNodeKey version (mkNibblePath 0 []).

Definition gen_child_node_key (self : NodeKey) (version : Z) (n : Z) : result string NodeKey :=
  node_nibble_path ← push (nk_nibble_path self) n;
  Ok (mkNodeKey version node_nibble_path).

Definition gen_parent_node_key (self : NodeKey) : result string NodeKey :=
  '(node_nibble_path, popped) ← pop (nk_nibble_path self);
  _ ← assert_ (match popped with Some _ => true | None => false end);
  Ok (mkNodeKey (nk_version self) node_nibble_path).

Definition set_version (self : NodeKey) (version : Z) : NodeKey := mkNodeKey version (nk_nibble_path self).

(** [num_nibbles as u8]. *)
Definition node_key_encode (self : NodeKey) : result string bytes :=
  Ok (u64_be (nk_version self) ++ [Z.of_nat (num_nibbles (nk_nibble_path self)) mod 256] ++ np_bytes (nk_nibble_path self)).

#[global] Arguments node_key_encode : simpl never.

Definition read_u8 (data : bytes) : result string (Z * bytes) :=
  match data with [] => Err "failed to fill whole buffer"%string | b :: data => Ok (b, data) end.

Definition node_key_decode (val : bytes) : result string NodeKey :=
  version ← read_u64_be val;
  '(num_nibbles, nibble_bytes) ← read_u8 (drop 8 val);
  let num_nibbles := Z.to_nat num_nibbles in
  _ ← ensure (num_nibbles <=? ROOT_NIBBLE_HEIGHT)%nat "Invalid number of nibbles"%string;
  _ ← ensure ((num_nibbles + 1) / 2 =? length nibble_bytes)%nat "encoded num_nibbles mismatches nibble path bytes"%string;
  nibble_path ← (if (num_nibbles mod 2 =? 0)%nat then nibble_path_new nibble_bytes
                 else
                   last_byte ← expect (list.last nibble_bytes);
                   _ ← ensure (Z.land last_byte 15 =? 0) "Padding nibble expected to be 0"%string;
                   nibble_path_new_odd nibble_bytes);
  Ok (mkNodeKey version nibble_path).

(** ** Versions as variable-length integers *)

(** [i] bytes have been written. *)
Fixpoint serialize_varint_loop (fuel : nat) (num : Z) : result string bytes :=
  match fuel with
  | O => _ ← assert_ (negb (num =? 0)); _ ← assert_ (num <=? 255); Ok [num mod 256]
  | S fuel =>
    let low_bits := Z.land num 127 in
    let num := Z.shiftr num 7 in
    if 0 <? num then rest ← serialize_varint_loop fuel num; Ok (Z.lor low_bits (Z.shiftl 1 7) :: rest)
    else Ok [low_bits]
  end.
Definition serialize_u64_varint (num : Z) : result string bytes := serialize_varint_loop 8 num.

(** [num] has been read from [i] bytes. *)
Fixpoint deserialize_varint_loop (fuel : nat) (i : Z) (num : Z) (reader : bytes) : result string (Z * bytes) :=
  match fuel with
  | O =>
    '(byte, reader) ← read_u8 reader;
    Ok (Z.lor num (Z.shiftl byte 56), reader)
  | S fuel =>
    '(byte, reader) ← read_u8 reader;
    let more := negb (Z.land byte 128 =? 0) in
    let num := Z.lor num (Z.shiftl (Z.land byte 127) (i * 7)) in
    if more then deserialize_varint_loop fuel (i + 1) num reader else Ok (num, reader)
  end.
Definition deserialize_u64_varint (reader : bytes) : result string (Z * bytes) := deserialize_varint_loop 8 0 0 reader.

Section NodeType.
Context `{Crypto} `{B : !HashBytes, !LedgerHashers}.
Context `{!CryptoHash AccountStateBlob, !CryptoHash SparseMerkleLeafNode}.

(** ** Internal nodes *)

Record Child := mkChild { child_hash : HashValue; child_version : Z; child_is_leaf : bool }.
#[global] Instance Child_eq_dec : EqDecision Child.
Proof. solve_decision. Defined.

(** [HashMap<Nibble, Child>]. *)
Record InternalNode := mkInternalNode { children : gmap Z Child }.
#[global] Instance InternalNode_eq_dec : EqDecision InternalNode.
Proof. solve_decision. Defined.

Definition internal_node_new (children : gmap Z Child) : result string InternalNode :=
  _ ← assert_ (negb (size children =? 0)%nat);
  _ ← (if (size children =? 1)%nat
       then assert_ (match map_to_list children with (_, child) :: _ => negb (child_is_leaf child) | [] => false end)
       else Ok tt);
  Ok (mkInternalNode children).

Definition internal_node_child (self : InternalNode) (n : Z) : option Child := children self !! n.

Definition generate_bitmaps (self : InternalNode) : result string (Z * Z) :=
  let '(existence_bitmap, leaf_bitmap) :=
    fold_left (fun '(existence_bitmap, leaf_bitmap) '(i, child) =>
        (Z.lor existence_bitmap (Z.shiftl 1 i), Z.lor leaf_bitmap (Z.shiftl (Z.b2z (child_is_leaf child)) i)))
      (map_to_list (children self)) (0, 0) in
  _ ← assert_ (Z.lor existence_bitmap leaf_bitmap =? existence_bitmap);
  Ok (existence_bitmap, leaf_bitmap).

Definition range_bitmaps (start width : Z) (bitmaps : Z * Z) : result string (Z * Z) :=
  _ ← assert_ ((start <? 16) && (count_ones64 width =? 1) && (start mod width =? 0));
  mask ← (if width =? 16 then Ok 65535 else _ ← assert_ (width <=? 16); Ok (Z.shiftl 1 width - 1));
  let mask := Z.shiftl mask start mod 2 ^ 16 in
  Ok (Z.land bitmaps.1 mask, Z.land bitmaps.2 mask).

(** The width halves from at most 16 down to 1. *)
Fixpoint merkle_hash_loop (fuel : nat) (self : InternalNode) (start width : Z) (bitmaps : Z * Z)
    : result string HashValue :=
  match fuel with
  | O => Panic
  | S fuel =>
    '(range_existence_bitmap, range_leaf_bitmap) ← range_bitmaps start width bitmaps;
    if range_existence_bitmap =? 0 then Ok SPARSE_MERKLE_PLACEHOLDER_HASH
    else if (count_ones64 range_existence_bitmap =? 1) && (negb (range_leaf_bitmap =? 0) || (width =? 1)) then
      only_child_index ← nibble_from (trailing_zeros64 range_existence_bitmap);
      child ← expect (internal_node_child self only_child_index);
      Ok (child_hash child)
    else
      left_child ← merkle_hash_loop fuel self start (width / 2) bitmaps;
      right_child ← merkle_hash_loop fuel self (start + width / 2) (width / 2) bitmaps;
      Ok (SparseMerkleInternalNode_hash left_child right_child)
  end.
Definition merkle_hash := merkle_hash_loop 5.

Definition internal_node_hash (self : InternalNode) : result string HashValue :=
  bitmaps ← generate_bitmaps self;
  merkle_hash self 0 16 bitmaps.

Definition get_child_and_sibling_half_start (n height : Z) : Z * Z :=
  let child_half_start := Z.land (Z.land (Z.shiftl 255 height) 255) n in
  let sibling_half_start := Z.lxor child_half_start (Z.shiftl 1 height) in
  (child_half_start, sibling_half_start).

(** The loop over the heights, from 3 down to 0. *)
Fixpoint child_with_siblings_loop (heights : list Z) (self : InternalNode) (node_key : NodeKey) (n : Z)
    (bitmaps : Z * Z) (siblings : list HashValue) : result string (option NodeKey * list HashValue) :=
  match heights with
  | [] => Panic
  | h :: heights =>
    let width := Z.shiftl 1 h in
    let '(child_half_start, sibling_half_start) := get_child_and_sibling_half_start n h in
    sibling ← merkle_hash self sibling_half_start width bitmaps;
    let siblings := siblings ++ [sibling] in
    '(range_existence_bitmap, range_leaf_bitmap) ← range_bitmaps child_half_start width bitmaps;
    if range_existence_bitmap =? 0 then Ok (None, siblings)
    else if (count_ones64 range_existence_bitmap =? 1) && ((count_ones64 range_leaf_bitmap =? 1) || (width =? 1)) then
      only_child_index ← nibble_from (trailing_zeros64 range_existence_bitmap);
      child ← expect (internal_node_child self only_child_index);
      key ← gen_child_node_key node_key (child_version child) only_child_index;
      Ok (Some key, siblings)
    else child_with_siblings_loop heights self node_key n bitmaps siblings
  end.
Definition get_child_with_siblings (self : InternalNode) (node_key : NodeKey) (n : Z)
    : result string (option NodeKey * list HashValue) :=
  bitmaps ← generate_bitmaps self;
  child_with_siblings_loop [3; 2; 1; 0] self node_key n bitmaps [].

(** *** Encoding *)

Definition u16_le (v : Z) : bytes := [v mod 256; v / 256].
Definition read_u16_le (data : bytes) : result string (Z * bytes) :=
  '(lo, data) ← read_u8 data;
  '(hi, data) ← read_u8 data;
  Ok (lo + 256 * hi, data).

(** [existence_bitmap &= !(1 << next_child)] clears a bit. *)
Fixpoint serialize_children (fuel : nat) (self : InternalNode) (existence_bitmap : Z) : result string bytes :=
  match fuel with
  | O => Ok []
  | S fuel =>
    let next_child := trailing_zeros64 existence_bitmap in
    n ← nibble_from next_child;
    child ← expect (children self !! n);
    version ← serialize_u64_varint (child_version child);
    rest ← serialize_children fuel self (Z.ldiff existence_bitmap (Z.shiftl 1 next_child));
    Ok (version ++ hash_to_vec (child_hash child) ++ rest)
  end.
Definition internal_node_serialize (self : InternalNode) : result string bytes :=
  '(existence_bitmap, leaf_bitmap) ← generate_bitmaps self;
  rows ← serialize_children (Z.to_nat (count_ones64 existence_bitmap)) self existence_bitmap;
  Ok (u16_le existence_bitmap ++ u16_le leaf_bitmap ++ rows).

Fixpoint deserialize_children (fuel : nat) (existence_bitmap leaf_bitmap : Z) (reader : bytes) (cs : gmap Z Child)
    : result string (Z * gmap Z Child) :=
  match fuel with
  | O => Ok (existence_bitmap, cs)
  | S fuel =>
    let next_child := trailing_zeros64 existence_bitmap in
    '(version, reader) ← deserialize_u64_varint reader;
    _ ← ensure (HASH_LENGTH <=? length reader)%nat "not enough bytes left"%string;
    let child_bit := Z.shiftl 1 next_child in
    n ← nibble_from next_child;
    hash ← hash_from_slice (take HASH_LENGTH reader);
    deserialize_children fuel (Z.ldiff existence_bitmap child_bit) leaf_bitmap (drop HASH_LENGTH reader)
      (<[n := mkChild hash version (negb (Z.land leaf_bitmap child_bit =? 0))]> cs)
  end.
Definition internal_node_deserialize (data : bytes) : result string InternalNode :=
  '(existence_bitmap, reader) ← read_u16_le data;
  '(leaf_bitmap, reader) ← read_u16_le reader;
  _ ← ensure (negb (existence_bitmap =? 0)) "No children found in internal node"%string;
  _ ← ensure (Z.land existence_bitmap leaf_bitmap =? leaf_bitmap) "Non-existent leaf bits set"%string;
  '(rest, cs) ← deserialize_children (Z.to_nat (count_ones64 existence_bitmap)) existence_bitmap leaf_bitmap reader ∅;
  _ ← assert_ (rest =? 0);
  Ok (mkInternalNode cs).

(** ** Leaves and nodes *)

Record LeafNode := mkLeafNode { account_key : HashValue; blob_hash : HashValue; leaf_blob : AccountStateBlob }.
#[global] Instance LeafNode_eq_dec : EqDecision LeafNode.
Proof. solve_decision. Defined.

Definition leaf_node_new (account_key : HashValue) (blob : AccountStateBlob) : LeafNode :=
  mkLeafNode account_key (crypto_hash blob) blob.
(** [From<LeafNode> for SparseMerkleLeafNode]. *)
Definition leaf_node_into (self : LeafNode) : SparseMerkleLeafNode :=
  mkSparseMerkleLeafNode (account_key self) (blob_hash self).
Definition leaf_node_hash (self : LeafNode) : HashValue := crypto_hash (leaf_node_into self).

Inductive Node :=
| Null
| Internal (internal_node : InternalNode)
| Leaf (leaf_node : LeafNode).
#[global] Instance Node_eq_dec : EqDecision Node.
Proof. solve_decision. Defined.

Definition node_new_leaf (account_key : HashValue) (blob : AccountStateBlob) : Node := Leaf (leaf_node_new account_key blob).
Definition node_is_leaf (self : Node) : bool := match self with Leaf _ => true | _ => false end.

Definition node_hash (self : Node) : result string HashValue :=
  match self with
  | Null => Ok SPARSE_MERKLE_PLACEHOLDER_HASH
  | Internal internal_node => internal_node_hash internal_node
  | Leaf leaf_node => Ok (leaf_node_hash leaf_node)
  end.

Context `{!Lcs LeafNode}.

(** The tags are 0, 1 and 2. *)
Definition node_encode (self : Node) : result string bytes :=
  match self with
  | Null => Ok [0]
  | Internal internal_node => out ← internal_node_serialize internal_node; Ok (1 :: out)
  | Leaf leaf_node => out ← lcs_to_bytes leaf_node; Ok (2 :: out)
  end.
Definition node_decode (val : bytes) : result string Node :=
  match val with
  | [] => Err "Missing tag due to empty input"%string
  | tag :: val =>
    if tag =? 0 then Ok Null
    else if tag =? 1 then internal_node ← internal_node_deserialize val; Ok (Internal internal_node)
    else if tag =? 2 then leaf_node ← lcs_from_bytes val; Ok (Leaf leaf_node)
    else Err "lead tag byte is unknown"%string
  end.
End NodeType.
