(* ===== verification/NodeTypeProof.v ===== *)
(** * Nodes of the Jellyfish Merkle tree: bitmaps, hashes and encodings

    The bitmaps of an internal node list its children; the hash computed on them is that
    of the four levels of the sparse Merkle tree the node stands for; encodings of keys,
    nodes and versions are read back. *)

From S2P Require Import Prelude U64 Bytes Lcs Crypto Hash NibblePath.
From S2P Require Import SparseMerkleProof SparseMerkleTree LedgerProof NodeType.

Lemma nibble_from_ok i : is_nibble i -> nibble_from i = Ok i.
Proof. intros Hi. unfold nibble_from. unfold is_nibble in Hi. by destruct (Z.ltb_spec i 16); [|lia]. Qed.

Lemma filter_filter_bool {A} (f g : A -> bool) l : List.filter f (List.filter g l) = List.filter (fun x => g x && f x) l.
Proof. induction l as [|x l IH]; [done|]. cbn. destruct (g x) eqn:Eg; cbn; by rewrite IH. Qed.

(** ** Sixteen-bit bitmaps *)

(** The set bits, in ascending order. *)
Definition bits16 (x : Z) : list Z := List.filter (Z.testbit x) (seqZ 0 16).

Definition is_u16 (x : Z) : Prop := 0 <= x < 2 ^ 16.

Lemma u16_testbit x i : is_u16 x -> Z.testbit x i = true -> 0 <= i < 16.
Proof.
  intros Hx Hi. destruct (decide (i < 0)); [by rewrite Z.testbit_neg_r in Hi|]. split; [lia|].
  destruct (decide (i < 16)); [done|]. destruct (decide (x = 0)) as [->|]; [by rewrite Z.bits_0 in Hi|].
  unfold is_u16 in Hx. rewrite Z.bits_above_log2 in Hi; [done|lia|].
  assert (Z.log2 x < 16) by (apply Z.log2_lt_pow2; lia). lia.
Qed.

Lemma u16_bits x : 0 <= x -> (forall i, 16 <= i -> Z.testbit x i = false) -> is_u16 x.
Proof.
  intros Hx Hb. split; [done|]. destruct (decide (x < 2 ^ 16)); [done|].
  assert (Hl : 16 <= Z.log2 x) by (apply Z.log2_le_pow2; lia). specialize (Hb (Z.log2 x) Hl).
  rewrite Z.bit_log2 in Hb by lia. done.
Qed.

Lemma u16_high x i : is_u16 x -> 16 <= i -> Z.testbit x i = false.
Proof. intros Hx Hi. destruct (Z.testbit x i) eqn:E; [|done]. pose proof (u16_testbit x i Hx E). lia. Qed.

Lemma bits16_elem x i : is_u16 x -> i ∈ bits16 x <-> Z.testbit x i = true.
Proof.
  intros Hx. unfold bits16. rewrite list_elem_of_In, filter_In, <- list_elem_of_In, elem_of_seqZ.
  split; [by intros [_ ?]|]. intros Hi. split; [|done]. pose proof (u16_testbit x i Hx Hi). lia.
Qed.

Lemma seqZ_sorted n m : Sorted.StronglySorted Z.lt (seqZ n m).
Proof.
  apply strongly_sorted_lookup. intros i j x y Hij [-> ?]%lookup_seqZ [-> ?]%lookup_seqZ. lia.
Qed.

Lemma sorted_Z_unique l1 l2 : Sorted.StronglySorted Z.lt l1 -> Sorted.StronglySorted Z.lt l2 ->
  (forall x, x ∈ l1 <-> x ∈ l2) -> l1 = l2.
Proof.
  assert (Hnd : forall l, Sorted.StronglySorted Z.lt l -> NoDup l).
  { induction 1 as [|x l _ IH Hl]; constructor; [|done]. rewrite list.Forall_forall in Hl. intros Hin. specialize (Hl x Hin). lia. }
  intros H1 H2 Hin. apply (sorting.StronglySorted_unique_strong Z.lt); [lia|done|done|].
  apply NoDup_Permutation; auto.
Qed.

Lemma bits16_sorted x : Sorted.StronglySorted Z.lt (bits16 x).
Proof. apply filter_sorted, seqZ_sorted. Qed.

Lemma u16_eq x y : is_u16 x -> is_u16 y -> (forall i, 0 <= i < 16 -> Z.testbit x i = Z.testbit y i) -> x = y.
Proof.
  intros Hx Hy Hb. apply Z.bits_inj. intros i. destruct (decide (0 <= i < 16)); [by apply Hb|].
  destruct (Z.testbit x i) eqn:E1; [apply u16_testbit in E1; [lia|done]|].
  destruct (Z.testbit y i) eqn:E2; [apply u16_testbit in E2; [lia|done]|done].
Qed.

Lemma bits16_nil x : is_u16 x -> bits16 x = [] -> x = 0.
Proof.
  intros Hx E. apply u16_eq; [done|by vm_compute|]. intros i Hi. rewrite Z.bits_0.
  destruct (Z.testbit x i) eqn:Eb; [|done]. apply bits16_elem in Eb; [|done]. rewrite E in Eb. by apply elem_of_nil in Eb.
Qed.

Lemma bits16_0 : bits16 0 = [].
Proof. done. Qed.

(** The lowest set bit. *)
Lemma trailing_zeros_lowest x i : 0 < x -> Z.testbit x i = true -> (forall j, 0 <= j < i -> Z.testbit x j = false) ->
  0 <= i -> trailing_zeros64 x = i.
Proof.
  intros Hx Hi Hlow Hi0. destruct (trailing_zeros64_decomp x Hx) as (q & Hq & Ht & E). set (t := trailing_zeros64 x) in *.
  assert (Htb : Z.testbit x t = true).
  { rewrite E, Z.mul_pow2_bits, Z.sub_diag by lia. rewrite Z.bit0_odd, Z.odd_add, Z.odd_mul. done. }
  destruct (Z.lt_trichotomy t i) as [Hlt|[?|Hlt]]; [|done|].
  - rewrite Hlow in Htb by lia. done.
  - rewrite E, Z.mul_pow2_bits_low in Hi by lia. done.
Qed.

Lemma clear_lowest_count x : 0 < x ->
  count_ones64 x = 1 + count_ones64 (Z.ldiff x (Z.shiftl 1 (trailing_zeros64 x))).
Proof.
  intros Hx. destruct (trailing_zeros64_decomp x Hx) as (q & Hq & Ht & E). set (t := trailing_zeros64 x) in *.
  assert (El : Z.ldiff x (Z.shiftl 1 t) = 2 * q * 2 ^ t).
  { rewrite E, Z.shiftl_1_l. apply Z.bits_inj. intros i. rewrite Z.ldiff_spec.
    destruct (decide (i < 0)); [by rewrite !Z.testbit_neg_r by lia|].
    destruct (decide (i < t)); [by rewrite !Z.mul_pow2_bits_low by lia|].
    rewrite !Z.mul_pow2_bits by lia. destruct (decide (i = t)) as [->|Hne].
    - rewrite Z.sub_diag, Z.pow2_bits_true by lia. rewrite andb_false_r.
      rewrite Z.bit0_odd, Z.odd_mul. done.
    - rewrite Z.pow2_bits_false by lia. rewrite andb_true_r.
      replace (i - t) with (Z.succ (i - t - 1)) by lia. rewrite Z.testbit_odd_succ, Z.testbit_even_succ by lia. done. }
  rewrite El, E. rewrite !count_ones64_pow2_mul by lia. rewrite count_ones64_double_succ, count_ones64_double by lia. lia.
Qed.

Lemma bits16_cons x i l : is_u16 x -> bits16 x = i :: l -> 0 <= i < 16 /\ trailing_zeros64 x = i /\
  is_u16 (Z.ldiff x (Z.shiftl 1 i)) /\ bits16 (Z.ldiff x (Z.shiftl 1 i)) = l.
Proof.
  intros Hx E. assert (Hi : Z.testbit x i = true) by (apply bits16_elem; [done|]; rewrite E; by left).
  pose proof (u16_testbit x i Hx Hi) as Hi16. pose proof (bits16_sorted x) as Hs. rewrite E in Hs.
  apply Sorted.StronglySorted_inv in Hs as [_ Hlt]. rewrite list.Forall_forall in Hlt.
  assert (Hx0 : 0 < x). { unfold is_u16 in Hx. destruct (decide (x = 0)) as [->|]; [by rewrite Z.bits_0 in Hi|lia]. }
  assert (Hu : is_u16 (Z.ldiff x (Z.shiftl 1 i))).
  { apply u16_bits; [apply Z.ldiff_nonneg; lia|]. intros j Hj. by rewrite Z.ldiff_spec, u16_high. }
  split; [done|]. split_and!.
  - apply trailing_zeros_lowest; [done|done| |lia]. intros j Hj. destruct (Z.testbit x j) eqn:Ej; [|done].
    apply bits16_elem in Ej; [|done]. rewrite E in Ej. apply elem_of_cons in Ej as [->|Ej]; [lia|]. specialize (Hlt j Ej). lia.
  - done.
  - assert (Hs' : Sorted.StronglySorted Z.lt l).
    { pose proof (bits16_sorted x) as Hs. rewrite E in Hs. by apply Sorted.StronglySorted_inv in Hs as [? _]. }
    apply sorted_Z_unique; [apply bits16_sorted|done|]. intros j.
    rewrite bits16_elem by done. rewrite Z.ldiff_spec, Z.shiftl_1_l.
    assert (Hj : Z.testbit x j = true <-> j = i \/ j ∈ l) by (rewrite <- bits16_elem by done; rewrite E; apply elem_of_cons).
    destruct (decide (j = i)) as [->|Hne].
    + rewrite Z.pow2_bits_true, andb_false_r by lia. split; [done|]. intros Hin. specialize (Hlt i Hin). lia.
    + rewrite Z.pow2_bits_false, andb_true_r by lia. rewrite Hj. naive_solver.
Qed.

Lemma count_ones_bits16 x : is_u16 x -> count_ones64 x = Z.of_nat (length (bits16 x)).
Proof.
  intros Hx. remember (bits16 x) as l eqn:El. symmetry in El. revert x Hx El. induction l as [|i l IH]; intros x Hx El.
  - by rewrite (bits16_nil x Hx El).
  - assert (Hx0 : 0 < x). { unfold is_u16 in Hx. destruct (decide (x = 0)) as [->|]; [done|lia]. }
    destruct (bits16_cons x i l Hx El) as (_ & Ht & Hu & Eb). rewrite clear_lowest_count, Ht by done.
    rewrite (IH _ Hu Eb). cbn [length]. lia.
Qed.

Lemma bits16_single x i : is_u16 x -> bits16 x = [i] -> trailing_zeros64 x = i /\ 0 <= i < 16.
Proof. intros Hx E. destruct (bits16_cons x i [] Hx E) as (? & ? & _). done. Qed.

Lemma count_ones_1 x : is_u16 x -> count_ones64 x = 1 <-> exists i, bits16 x = [i].
Proof.
  intros Hx. rewrite count_ones_bits16 by done. destruct (bits16 x) as [|i [|j l]]; cbn [length].
  - split; [lia|by intros [? ?]].
  - split; [by exists i|lia].
  - split; [lia|by intros [? ?]].
Qed.

(** ** The bitmaps of an internal node *)

Section Bitmaps.
Context `{Crypto} `{B : !HashBytes, !LedgerHashers}.

Definition wf_children (ch : gmap Z Child) : Prop := forall i c, ch !! i = Some c -> is_nibble i.

Definition has_child (ch : gmap Z Child) (i : Z) : bool := match ch !! i with Some _ => true | None => false end.
Definition leaf_child (ch : gmap Z Child) (i : Z) : bool := match ch !! i with Some c => child_is_leaf c | None => false end.

Record bitmaps_of (ch : gmap Z Child) (bitmaps : Z * Z) : Prop := {
  existence_u16 : is_u16 bitmaps.1;
  leaf_u16 : is_u16 bitmaps.2;
  existence_bit i : 0 <= i -> Z.testbit bitmaps.1 i = has_child ch i;
  leaf_bit i : 0 <= i -> Z.testbit bitmaps.2 i = leaf_child ch i
}.

Lemma shiftl_bit b k i : 0 <= k -> 0 <= i -> Z.testbit (Z.shiftl (Z.b2z b) k) i = (k =? i) && b.
Proof.
  intros Hk Hi. rewrite Z.shiftl_spec by done. destruct (Z.eqb_spec k i) as [->|Hne].
  - rewrite Z.sub_diag. by destruct b.
  - destruct (decide (i < k)); [by rewrite Z.testbit_neg_r by lia|]. destruct b; [|apply Z.bits_0].
    apply (Z.bits_above_log2 1); [lia|]. change (Z.log2 1) with 0. lia.
Qed.

Notation bitmap_step := (fun '(existence_bitmap, leaf_bitmap) '(i, child) =>
  (Z.lor existence_bitmap (Z.shiftl 1 i), Z.lor leaf_bitmap (Z.shiftl (Z.b2z (child_is_leaf child)) i))).

Lemma bitmap_fold (rows : list (Z * Child)) : forall e l e' l', Forall (fun r => 0 <= r.1) rows -> 0 <= e -> 0 <= l ->
  fold_left bitmap_step rows (e, l) = (e', l') ->
  0 <= e' /\ 0 <= l' /\ forall i, 0 <= i ->
    Z.testbit e' i = Z.testbit e i || existsb (fun r => r.1 =? i) rows /\
    Z.testbit l' i = Z.testbit l i || existsb (fun r => (r.1 =? i) && child_is_leaf r.2) rows.
Proof.
  induction rows as [|[k c] rows IH]; intros e l e' l' Hr He Hl E; cbn [fold_left] in E.
  - injection E as <- <-. split_and!; [done..|]. intros i Hi. cbn. by rewrite !orb_false_r.
  - apply list.Forall_cons in Hr as [Hk Hr]. cbn [fst] in Hk.
    assert (He1 : 0 <= Z.lor e (Z.shiftl 1 k)) by (apply Z.lor_nonneg; split; [done|]; apply Z.shiftl_nonneg; lia).
    assert (Hl1 : 0 <= Z.lor l (Z.shiftl (Z.b2z (child_is_leaf c)) k)).
    { apply Z.lor_nonneg. split; [done|]. apply Z.shiftl_nonneg. by destruct (child_is_leaf c). }
    destruct (IH _ _ _ _ Hr He1 Hl1 E) as (He' & Hl' & Hb).
    split_and!; [done..|]. intros i Hi. destruct (Hb i Hi) as [-> ->]. rewrite !Z.lor_spec. cbn [existsb fst snd].
    change (Z.shiftl 1 k) with (Z.shiftl (Z.b2z true) k). rewrite (shiftl_bit true k i), (shiftl_bit (child_is_leaf c) k i) by done. by rewrite !andb_true_r, !orb_assoc.
Qed.

Lemma existsb_children (f : Child -> bool) (ch : gmap Z Child) i :
  existsb (fun r => (r.1 =? i) && f r.2) (map_to_list ch) = match ch !! i with Some c => f c | None => false end.
Proof.
  apply eq_true_iff_eq. rewrite existsb_exists. split.
  - intros ([k c] & Hin%list_elem_of_In%elem_of_map_to_list & Hf). cbn in Hf. apply andb_true_iff in Hf as [->%Z.eqb_eq Hf].
    by rewrite Hin.
  - destruct (ch !! i) as [c|] eqn:E; [|done]. intros Hf. exists (i, c).
    split; [by apply list_elem_of_In, elem_of_map_to_list|]. cbn. by rewrite Z.eqb_refl.
Qed.

Lemma generate_bitmaps_of ch : wf_children ch -> exists bitmaps,
  generate_bitmaps (mkInternalNode ch) = Ok bitmaps /\ bitmaps_of ch bitmaps.
Proof.
  intros Hwf. unfold generate_bitmaps. cbn [children].
  destruct (fold_left bitmap_step (map_to_list ch) (0, 0)) as [e l] eqn:E.
  destruct (bitmap_fold (map_to_list ch) 0 0 e l) as (He & Hl & Hb); [|done..|].
  { apply list.Forall_forall. intros [k c] Hin%elem_of_map_to_list. apply Hwf in Hin. unfold is_nibble in Hin. cbn. lia. }
  assert (Hbits : forall i, 0 <= i -> Z.testbit e i = has_child ch i /\ Z.testbit l i = leaf_child ch i).
  { intros i Hi. destruct (Hb i Hi) as [-> ->]. rewrite Z.bits_0. cbn [orb].
    unfold leaf_child. rewrite (existsb_children child_is_leaf ch i). split; [|done].
    unfold has_child.
    rewrite <- (existsb_children (fun _ => true) ch i). clear. induction (map_to_list ch) as [|r rows IH]; [done|].
    cbn. by rewrite andb_true_r, IH. }
  assert (Hhigh : forall i, 16 <= i -> ch !! i = None).
  { intros i Hi. destruct (ch !! i) as [c|] eqn:Ec; [|done]. apply Hwf in Ec. unfold is_nibble in Ec. lia. }
  assert (Eor : Z.lor e l = e).
  { apply Z.bits_inj. intros i. rewrite Z.lor_spec. destruct (decide (i < 0)); [by rewrite !Z.testbit_neg_r by lia|].
    destruct (Hbits i) as [-> ->]; [lia|]. unfold has_child, leaf_child. destruct (ch !! i); [done|done]. }
  rewrite Eor, Z.eqb_refl. cbn. exists (e, l). split; [done|]. split; cbn [fst snd].
  - apply u16_bits; [done|]. intros i Hi. destruct (Hbits i) as [-> _]; [lia|]. unfold has_child. by rewrite Hhigh.
  - apply u16_bits; [done|]. intros i Hi. destruct (Hbits i) as [_ ->]; [lia|]. unfold leaf_child. by rewrite Hhigh.
  - intros i Hi. by apply Hbits.
  - intros i Hi. by apply Hbits.
Qed.

(** *** Ranges *)

(** The ranges that the code visits: aligned, of a width that is a power of two. *)
Definition wf_range (h start : Z) : Prop := 0 <= h <= 4 /\ 0 <= start /\ start + 2 ^ h <= 16 /\ start mod 2 ^ h = 0.

Lemma range_bitmaps_of h start bitmaps : wf_range h start -> is_u16 bitmaps.1 -> is_u16 bitmaps.2 ->
  exists e l, range_bitmaps start (2 ^ h) bitmaps = Ok (e, l) /\ is_u16 e /\ is_u16 l /\
    forall i, 0 <= i ->
      Z.testbit e i = Z.testbit bitmaps.1 i && ((start <=? i) && (i <? start + 2 ^ h)) /\
      Z.testbit l i = Z.testbit bitmaps.2 i && ((start <=? i) && (i <? start + 2 ^ h)).
Proof.
  intros (Hh & Hs & Hb & Hm) He Hl. unfold range_bitmaps.
  assert (Hc : count_ones64 (2 ^ h) = 1) by (rewrite <- (Z.mul_1_l (2 ^ h)), count_ones64_pow2_mul by lia; done).
  assert (0 < 2 ^ h) by (apply Z.pow_pos_nonneg; lia).
  rewrite Hc, Hm, !Z.eqb_refl. destruct (Z.ltb_spec start 16); [|lia]. cbn [andb assert_ mbind result_bind].
  set (mask0 := Z.shiftl 1 (2 ^ h) - 1).
  assert (Emask : (if 2 ^ h =? 16 then Ok 65535 else _ ← assert_ (2 ^ h <=? 16); Ok mask0) = Ok (E:=string) mask0).
  { unfold mask0. destruct (Z.eqb_spec (2 ^ h) 16) as [->|]; [done|]. destruct (Z.leb_spec (2 ^ h) 16); [done|lia]. }
  rewrite Emask. cbn [mbind result_bind].
  set (mask := Z.shiftl mask0 start mod 2 ^ 16).
  assert (Hmask : forall i, 0 <= i -> Z.testbit mask i = (start <=? i) && (i <? start + 2 ^ h)).
  { intros i Hi. unfold mask. rewrite <- Z.land_ones, Z.land_spec, Z.testbit_ones by lia.
    rewrite Z.shiftl_spec by done. unfold mask0. rewrite Z.shiftl_1_l, Z.sub_1_r, <- Z.ones_equiv.
    rewrite Z.testbit_ones by lia. zbool; lia. }
  exists (Z.land bitmaps.1 mask), (Z.land bitmaps.2 mask). split; [done|].
  assert (Hnn : 0 <= mask) by (apply Z.mod_pos_bound; lia).
  split_and!.
  - apply u16_bits; [apply Z.land_nonneg; lia|]. intros i Hi. by rewrite Z.land_spec, u16_high.
  - apply u16_bits; [apply Z.land_nonneg; lia|]. intros i Hi. by rewrite Z.land_spec, u16_high.
  - intros i Hi. by rewrite !Z.land_spec, Hmask.
Qed.
End Bitmaps.

(** ** The hash of an internal node *)

Section NodeHash.
Context `{Crypto} `{B : !HashBytes, !HashBytesLaws B, !LedgerHashers}.
Context `{!CryptoHash AccountStateBlob, !CryptoHash SparseMerkleLeafNode}.

Notation entries := (list (HashValue * AccountStateBlob)).
Notation sparse_hash := (sparse_hash SparseMerkleInternalNode_hash SPARSE_MERKLE_PLACEHOLDER_HASH).

Definition key_nibbles (k : HashValue) : list Z := unpack (hash_bytes k).
Definition key_nibble (n : nat) (k : HashValue) : Z := nth n (key_nibbles k) 0.

Lemma key_nibbles_length k : length (key_nibbles k) = ROOT_NIBBLE_HEIGHT.
Proof. unfold key_nibbles. by rewrite unpack_length, hash_bytes_length. Qed.
Lemma key_nibbles_nibbles k : Forall is_nibble (key_nibbles k).
Proof. apply unpack_nibbles, hash_bytes_bytes. Qed.
Lemma key_nibbles_lookup k n : (n < ROOT_NIBBLE_HEIGHT)%nat -> key_nibbles k !! n = Some (key_nibble n k).
Proof.
  intros Hn. unfold key_nibble. rewrite nth_lookup. destruct (lookup_lt_is_Some_2 (key_nibbles k) n) as [x Hx]; [by rewrite key_nibbles_length|].
  by rewrite Hx.
Qed.
Lemma key_nibble_nibble k n : is_nibble (key_nibble n k).
Proof.
  destruct (decide (n < ROOT_NIBBLE_HEIGHT)%nat) as [Hn|Hn].
  - apply key_nibbles_lookup with (k := k) in Hn. eapply Forall_lookup_1; [apply key_nibbles_nibbles|done].
  - unfold key_nibble. rewrite nth_overflow by (rewrite key_nibbles_length; lia). unfold is_nibble. lia.
Qed.

Lemma unpack_nth b : forall n, nth n (unpack b) 0 =
  if (n mod 2 =? 0)%nat then Z.shiftr (nth (n / 2) b 0) 4 else Z.land (nth (n / 2) b 0) 15.
Proof.
  induction b as [|x b IH]; intros n.
  { unfold unpack. cbn [flat_map]. rewrite !nth_lookup, !lookup_nil. by destruct (n mod 2 =? 0)%nat. }
  destruct n as [|[|n]]; [done|done|]. cbn [unpack flat_map app nth]. fold (unpack b).
  rewrite IH, div2_SS, mod2_SS. done.
Qed.

(** Bit [j] of nibble [n], from the least significant. *)
Lemma key_nibble_bit n k j : (n < ROOT_NIBBLE_HEIGHT)%nat -> (j < 4)%nat ->
  Z.testbit (key_nibble n k) (Z.of_nat j) = key_bit (4 * n + 3 - j) k.
Proof.
  intros Hn Hj. unfold ROOT_NIBBLE_HEIGHT in Hn. unfold key_nibble, key_nibbles. rewrite unpack_nth.
  assert (Hd : (4 * n + 3 - j < HASH_LENGTH_IN_BITS)%nat) by (unfold HASH_LENGTH_IN_BITS; lia).
  unfold key_bit. rewrite (nth_lookup (iter_bits k)), iter_bits_lookup by done. cbn [from_option id]. rewrite get_bit_testbit by done.
  rewrite even_mod2. destruct (Nat.even n) eqn:He.
  - apply Nat.even_spec in He as [m ->].
    assert (E1 : ((4 * (2 * m) + 3 - j) / 8 = m)%nat) by (symmetry; apply (Nat.div_unique _ 8 m (3 - j)); lia).
    assert (E2 : ((4 * (2 * m) + 3 - j) mod 8 = 3 - j)%nat) by (symmetry; apply (Nat.mod_unique _ 8 m (3 - j)); lia).
    rewrite E1, E2. rewrite (Nat.mul_comm 2 m), Nat.div_mul by lia. rewrite Z.shiftr_spec by lia. f_equal. lia.
  - assert (Ho : Nat.odd n = true) by (by rewrite <- Nat.negb_even, He). apply Nat.odd_spec in Ho as [m ->].
    assert (E1 : ((4 * (2 * m + 1) + 3 - j) / 8 = m)%nat) by (symmetry; apply (Nat.div_unique _ 8 m (7 - j)); lia).
    assert (E2 : ((4 * (2 * m + 1) + 3 - j) mod 8 = 7 - j)%nat) by (symmetry; apply (Nat.mod_unique _ 8 m (7 - j)); lia).
    assert (E3 : ((2 * m + 1) / 2 = m)%nat) by (symmetry; apply (Nat.div_unique _ 2 m 1); lia).
    rewrite E1, E2, E3. change 15 with (Z.ones 4). rewrite Z.land_spec, Z.testbit_ones_nonneg by lia.
    destruct (Z.ltb_spec (Z.of_nat j) 4); [|lia]. rewrite andb_true_r. f_equal. lia.
Qed.

(** The entries under a nibble, and under a range of nibbles. *)
Definition sub (n : nat) (i : Z) (es : entries) : entries := List.filter (fun e => key_nibble n e.1 =? i) es.
Definition range_es (n : nat) (start width : Z) (es : entries) : entries :=
  List.filter (fun e => (start <=? key_nibble n e.1) && (key_nibble n e.1 <? start + width)) es.

(** The hash of the subtree below [n] nibbles. *)
Definition shash (n : nat) (es : entries) : HashValue :=
  sparse_hash (HASH_LENGTH_IN_BITS - 4 * n) (4 * n) es.

Definition is_single {A} (l : list A) : bool := (length l =? 1)%nat.

(** The children are the subtrees of the entries under each nibble. *)
Definition children_of (n : nat) (ch : gmap Z Child) (es : entries) : Prop :=
  wf_children ch /\
  forall i, is_nibble i -> match ch !! i with
    | None => sub n i es = []
    | Some c => sub n i es <> [] /\ child_hash c = shash (S n) (sub n i es) /\ child_is_leaf c = is_single (sub n i es)
    end.

Lemma sub_elem n i es k b : (k, b) ∈ sub n i es <-> (k, b) ∈ es /\ key_nibble n k = i.
Proof. unfold sub. rewrite !list_elem_of_In, filter_In. cbn. by rewrite Z.eqb_eq. Qed.
Lemma range_es_elem n start width es k b : (k, b) ∈ range_es n start width es <->
  (k, b) ∈ es /\ start <= key_nibble n k < start + width.
Proof. unfold range_es. rewrite !list_elem_of_In, filter_In. cbn. rewrite andb_true_iff, Z.leb_le, Z.ltb_lt. done. Qed.

Lemma entries_nil (es : entries) : (forall k b, (k, b) ∉ es) -> es = [].
Proof. destruct es as [|[k b] es]; [done|]. intros Hn. exfalso. apply (Hn k b). by left. Qed.

Lemma wf_range_half h start b : wf_range (Z.of_nat (S h)) start ->
  wf_range (Z.of_nat h) (start + if (b : bool) then 2 ^ Z.of_nat h else 0).
Proof.
  intros (Hh & Hs & Hb & Hm). replace (Z.of_nat (S h)) with (Z.of_nat h + 1) in * by lia. rewrite Z.pow_add_r in * by lia. change (2 ^ 1) with 2 in *.
  assert (0 < 2 ^ Z.of_nat h) by (apply Z.pow_pos_nonneg; lia). apply Z.mod_divide in Hm as [q Hq]; [|lia].
  unfold wf_range. split_and!; [lia|lia|destruct b; lia|destruct b; lia|].
  apply Z.mod_divide; [lia|]. destruct b; [exists (2 * q + 1)|exists (2 * q)]; lia.
Qed.

Lemma sparse_hash_single f1 d1 f2 d2 (l : entries) : length l = 1%nat -> sparse_hash f1 d1 l = sparse_hash f2 d2 l.
Proof. destruct l as [|[k v] [|? ?]]; try done. by destruct f1, f2. Qed.

Lemma sparse_hash_many f d (l : entries) : (2 <= length l)%nat -> sparse_hash (S f) d l =
  SparseMerkleInternalNode_hash (sparse_hash f (S d) (split_bit d false l)) (sparse_hash f (S d) (split_bit d true l)).
Proof. destruct l as [|[k v] [|? ?]]; cbn [length]; try lia. done. Qed.

Lemma leaf_has_child ch i : leaf_child ch i = true -> has_child ch i = true.
Proof. unfold leaf_child, has_child. by destruct (ch !! i). Qed.

Lemma range_one n es start : range_es n start (2 ^ 0) es = sub n start es.
Proof. apply List.filter_ext. intros [k b]. cbn. zbool; lia. Qed.

Lemma range_all n es : range_es n 0 (2 ^ Z.of_nat 4) es = es.
Proof.
  unfold range_es. rewrite forallb_filter_id; [done|]. apply forallb_forall. intros [k v] _. cbn [fst].
  pose proof (key_nibble_nibble k n) as Hk. unfold is_nibble in Hk. change (2 ^ Z.of_nat 4) with 16. zbool; lia.
Qed.

Section Range.
Context (n : nat) (ch : gmap Z Child) (es : entries) (bitmaps : Z * Z).
Context (Hn : (n < ROOT_NIBBLE_HEIGHT)%nat) (Hch : children_of n ch es) (Hbm : bitmaps_of ch bitmaps).

Lemma has_child_sub i : is_nibble i -> has_child ch i = true <-> sub n i es <> [].
Proof.
  intros Hi. destruct Hch as [_ Hc]. specialize (Hc i Hi). unfold has_child. destruct (ch !! i) as [c|].
  - by destruct Hc as (? & _).
  - rewrite Hc. naive_solver.
Qed.

Lemma has_child_key k b : (k, b) ∈ es -> has_child ch (key_nibble n k) = true.
Proof.
  intros Hin. apply has_child_sub; [apply key_nibble_nibble|]. intros E.
  assert (Hs : (k, b) ∈ sub n (key_nibble n k) es) by (by apply sub_elem). rewrite E in Hs. by apply elem_of_nil in Hs.
Qed.

(** The bitmaps of a range list the children in it. *)
Lemma range_view h start : wf_range h start -> exists e l, range_bitmaps start (2 ^ h) bitmaps = Ok (e, l) /\
  is_u16 e /\ is_u16 l /\
  (forall i, i ∈ bits16 e <-> start <= i < start + 2 ^ h /\ has_child ch i = true) /\
  (forall i, i ∈ bits16 l <-> start <= i < start + 2 ^ h /\ leaf_child ch i = true).
Proof.
  intros Hr. destruct Hbm as [H1 H2 H3 H4]. destruct (range_bitmaps_of h start bitmaps Hr H1 H2) as (e & l & E & He & Hl & Hb).
  exists e, l. split_and!; [done..| |]; intros i; rewrite bits16_elem by done.
  - destruct (decide (i < 0)).
    { rewrite Z.testbit_neg_r by lia. split; [done|]. destruct Hr as (? & ? & ?). lia. }
    destruct (Hb i) as [-> _]; [lia|]. rewrite H3 by lia. rewrite !andb_true_iff, Z.leb_le, Z.ltb_lt. naive_solver.
  - destruct (decide (i < 0)).
    { rewrite Z.testbit_neg_r by lia. split; [done|]. destruct Hr as (? & ? & ?). lia. }
    destruct (Hb i) as [_ ->]; [lia|]. rewrite H4 by lia. rewrite !andb_true_iff, Z.leb_le, Z.ltb_lt. naive_solver.
Qed.

Lemma range_empty h start e : (forall i, i ∈ bits16 e <-> start <= i < start + 2 ^ h /\ has_child ch i = true) ->
  bits16 e = [] -> range_es n start (2 ^ h) es = [].
Proof.
  intros Hb E. apply entries_nil. intros k b [Hin Hr]%range_es_elem. apply has_child_key in Hin.
  assert (Hi : key_nibble n k ∈ bits16 e) by (by apply Hb). rewrite E in Hi. by apply elem_of_nil in Hi.
Qed.

Lemma range_single h start e i : (forall i, i ∈ bits16 e <-> start <= i < start + 2 ^ h /\ has_child ch i = true) ->
  bits16 e = [i] -> range_es n start (2 ^ h) es = sub n i es.
Proof.
  intros Hb E. apply List.filter_ext_in. intros [k b] Hin%list_elem_of_In. cbn [fst]. apply has_child_key in Hin as Hc.
  apply eq_true_iff_eq. rewrite andb_true_iff, Z.leb_le, Z.ltb_lt, Z.eqb_eq. split.
  - intros Hr. assert (Hi : key_nibble n k ∈ bits16 e) by (by apply Hb). rewrite E in Hi. by apply list_elem_of_singleton in Hi.
  - intros Ei. assert (Hi : i ∈ bits16 e) by (rewrite E; by left). apply Hb in Hi as [Hi _]. lia.
Qed.

(** More than one child, or a single internal one: at least two entries. *)
Lemma range_many h start e l : wf_range h start ->
  (forall i, i ∈ bits16 e <-> start <= i < start + 2 ^ h /\ has_child ch i = true) ->
  (forall i, i ∈ bits16 l <-> start <= i < start + 2 ^ h /\ leaf_child ch i = true) ->
  bits16 e <> [] -> ~ (exists i, bits16 e = [i] /\ leaf_child ch i = true) ->
  (2 <= length (range_es n start (2 ^ h) es))%nat.
Proof.
  intros Hr He Hl Hne Hsingle. destruct (bits16 e) as [|i [|j rest]] eqn:E; [done|..].
  - (* one internal child *)
    assert (Hi : start <= i < start + 2 ^ h /\ has_child ch i = true) by (apply He; by left).
    rewrite (range_single h start e i) by (done || by rewrite E). destruct Hch as [Hwf Hc].
    assert (Hib : is_nibble i) by (unfold is_nibble; destruct Hr as (? & ? & ? & ?); lia).
    specialize (Hc i Hib). unfold has_child in Hi. destruct (ch !! i) as [c|] eqn:Ec; [|naive_solver].
    destruct Hc as (Hs & _ & Hleaf). assert (Hlf : child_is_leaf c = false).
    { destruct (child_is_leaf c) eqn:Ecl; [|done]. exfalso. apply Hsingle. exists i. split; [done|]. unfold leaf_child. by rewrite Ec. }
    rewrite Hlf in Hleaf. unfold is_single in Hleaf. symmetry in Hleaf. apply Nat.eqb_neq in Hleaf.
    destruct (sub n i es); [done|cbn in *; lia].
  - assert (Hd : i <> j).
    { pose proof (bits16_sorted e) as Hs. rewrite E in Hs. apply Sorted.StronglySorted_inv in Hs as [_ Hs].
      apply list.Forall_cons in Hs as [? _]. lia. }
    assert (Hi : start <= i < start + 2 ^ h /\ has_child ch i = true) by (apply He; by left).
    assert (Hj : start <= j < start + 2 ^ h /\ has_child ch j = true) by (apply He; right; by left).
    assert (Hsome : forall i, start <= i < start + 2 ^ h /\ has_child ch i = true -> exists k b, (k, b) ∈ range_es n start (2 ^ h) es /\ key_nibble n k = i).
    { intros x [Hx Hcx]. assert (Hxn : is_nibble x) by (unfold is_nibble; destruct Hr as (? & ? & ? & ?); lia).
      apply (has_child_sub x Hxn) in Hcx. destruct (sub n x es) as [|[k b] s] eqn:Es; [done|].
      assert (Hin : (k, b) ∈ sub n x es) by (rewrite Es; by left). apply sub_elem in Hin as [Hin Hk].
      exists k, b. split; [|done]. apply range_es_elem. split; [done|lia]. }
    destruct (Hsome i Hi) as (k1 & b1 & H1 & E1). destruct (Hsome j Hj) as (k2 & b2 & H2 & E2).
    destruct (range_es n start (2 ^ h) es) as [|x [|y s]]; [by apply elem_of_nil in H1| |cbn; lia].
    apply list_elem_of_singleton in H1, H2. congruence.
Qed.

(** What the bitmaps of a range say of the entries in it. *)
Inductive range_case (h start e l : Z) : Prop :=
| RangeEmpty : e = 0 -> range_es n start (2 ^ h) es = [] -> range_case h start e l
| RangeLeaf i c : e <> 0 -> count_ones64 e = 1 -> trailing_zeros64 e = i -> l <> 0 -> count_ones64 l = 1 ->
    is_nibble i -> ch !! i = Some c -> child_is_leaf c = true -> child_hash c = shash (S n) (sub n i es) ->
    length (sub n i es) = 1%nat -> range_es n start (2 ^ h) es = sub n i es -> range_case h start e l
| RangeMany : e <> 0 -> (count_ones64 e = 1 -> l = 0) -> (2 <= length (range_es n start (2 ^ h) es))%nat ->
    range_case h start e l.

Lemma range_classify h start : wf_range h start -> exists e l,
  range_bitmaps start (2 ^ h) bitmaps = Ok (e, l) /\ range_case h start e l /\
  (forall i, i ∈ bits16 e <-> start <= i < start + 2 ^ h /\ has_child ch i = true) /\ is_u16 e.
Proof.
  intros Hr. destruct (range_view h start Hr) as (e & l & E & He & Hl & Hbe & Hbl). exists e, l. split; [done|]. split; [|done].
  destruct (decide (bits16 e = [])) as [E0|Hne0].
  { apply RangeEmpty; [by apply bits16_nil|by eapply range_empty]. }
  assert (He0 : e <> 0) by (by intros ->).
  assert (Hsub : forall i j, bits16 e = [i] -> j ∈ bits16 l -> j = i).
  { intros i j Ei Hj. apply Hbl in Hj as [Hj Hjl]. assert (Hje : j ∈ bits16 e) by (apply Hbe; split; [done|by apply leaf_has_child]).
    rewrite Ei in Hje. by apply list_elem_of_singleton in Hje. }
  assert (Hdec : (exists i, bits16 e = [i] /\ leaf_child ch i = true) \/ ~ exists i, bits16 e = [i] /\ leaf_child ch i = true).
  { destruct (bits16 e) as [|i [|j rest]]; [by right; intros (? & ? & _)| |by right; intros (? & ? & _)].
    destruct (leaf_child ch i) eqn:El; [left; eauto|right]. intros (j & [= <-] & Hj). congruence. }
  destruct Hdec as [(i & Ei & Hli)|Hns].
  - destruct (bits16_single e i He Ei) as [Ht Hi]. unfold leaf_child in Hli. destruct (ch !! i) as [c|] eqn:Ec; [|done].
    pose proof (proj2 Hch i Hi) as Hc. rewrite Ec in Hc. destruct Hc as (_ & Hh & Hs).
    assert (Hil : i ∈ bits16 l). { apply Hbl. assert (Hie : i ∈ bits16 e) by (rewrite Ei; by left). apply Hbe in Hie as [? _]. split; [done|]. unfold leaf_child. by rewrite Ec. }
    assert (El : bits16 l = [i]).
    { apply sorted_Z_unique; [apply bits16_sorted|by repeat constructor|]. intros j. rewrite list_elem_of_singleton. split; [by apply Hsub|by intros ->]. }
    apply (RangeLeaf h start e l i c); [done| |done| | |done|done|done|done| |by eapply range_single].
    + apply count_ones_1; eauto.
    + intros ->. by rewrite bits16_0 in El.
    + apply count_ones_1; eauto.
    + rewrite Hli in Hs. unfold is_single in Hs. symmetry in Hs. by apply Nat.eqb_eq in Hs.
  - apply RangeMany; [done| |by eapply range_many]. intros Hc. apply count_ones_1 in Hc as [i Ei]; [|done].
    apply bits16_nil; [done|]. destruct (bits16 l) as [|j rest] eqn:El; [done|]. exfalso. apply Hns. exists i. split; [done|].
    assert (Hj : j ∈ bits16 l) by (rewrite El; by left). rewrite <- El in Hsub. rewrite <- (Hsub i j Ei Hj). apply Hbl. by rewrite <- El.
Qed.

(** The two halves of a range are the entries with either value of a bit. *)
Lemma range_split h start b : wf_range (Z.of_nat (S h)) start ->
  split_bit (4 * n + 3 - h) b (range_es n start (2 ^ Z.of_nat (S h)) es) =
  range_es n (start + if b then 2 ^ Z.of_nat h else 0) (2 ^ Z.of_nat h) es.
Proof.
  intros (Hh & Hs & Hb & Hm). unfold split_bit, range_es. rewrite filter_filter_bool. apply List.filter_ext. intros [k v]. cbn [fst].
  rewrite <- key_nibble_bit by lia. generalize (key_nibble n k). intros x.
  replace (Z.of_nat (S h)) with (Z.of_nat h + 1) in * by lia. rewrite Z.pow_add_r in * by lia. change (2 ^ 1) with 2 in *.
  assert (0 < 2 ^ Z.of_nat h) by (apply Z.pow_pos_nonneg; lia). set (w := 2 ^ Z.of_nat h) in *.
  destruct (Z.leb_spec start x); cbn [andb]; [|destruct b; zbool; lia].
  destruct (Z.ltb_spec x (start + w * 2)); cbn [andb]; [|destruct b; zbool; lia].
  apply Z.mod_divide in Hm as [q Hq]; [|lia].
  assert (Hbit : Z.testbit x (Z.of_nat h) = negb (x <? start + w)).
  { rewrite Z.testbit_odd, Z.shiftr_div_pow2 by lia. fold w. destruct (Z.ltb_spec x (start + w)); cbn [negb].
    - replace (x / w) with (2 * q) by (apply (Z.div_unique _ _ _ (x - start)); lia). by rewrite Z.odd_mul.
    - replace (x / w) with (2 * q + 1) by (apply (Z.div_unique _ _ _ (x - start - w)); lia). by rewrite Z.odd_add, Z.odd_mul. }
  rewrite Hbit. destruct b; zbool; lia.
Qed.

Definition rhash (h : nat) (start : Z) : HashValue :=
  sparse_hash (HASH_LENGTH_IN_BITS - (4 * n + 4 - h)) (4 * n + 4 - h) (range_es n start (2 ^ Z.of_nat h) es).

Lemma rhash_split h start : (h < 4)%nat -> wf_range (Z.of_nat (S h)) start ->
  (2 <= length (range_es n start (2 ^ Z.of_nat (S h)) es))%nat ->
  rhash (S h) start = SparseMerkleInternalNode_hash (rhash h start) (rhash h (start + 2 ^ Z.of_nat h)).
Proof.
  intros Hh Hr Hl. unfold rhash. unfold ROOT_NIBBLE_HEIGHT, HASH_LENGTH in Hn.
  replace (HASH_LENGTH_IN_BITS - (4 * n + 4 - S h))%nat with (S (HASH_LENGTH_IN_BITS - (4 * n + 4 - h))) by (unfold HASH_LENGTH_IN_BITS, HASH_LENGTH; lia).
  rewrite sparse_hash_many by done. replace (4 * n + 4 - S h)%nat with (4 * n + 3 - h)%nat by lia.
  rewrite (range_split h start false), (range_split h start true) by done. rewrite Z.add_0_r.
  by replace (S (4 * n + 3 - h)) with (4 * n + 4 - h)%nat by lia.
Qed.

(** The hash of a range of the node is that of the entries in it. *)
Lemma merkle_hash_of h : forall start fuel, (h < fuel)%nat -> wf_range (Z.of_nat h) start ->
  merkle_hash_loop fuel (mkInternalNode ch) start (2 ^ Z.of_nat h) bitmaps = Ok (rhash h start).
Proof.
  induction h as [|h IH]; intros start fuel Hf Hr; destruct fuel as [|fuel]; try lia; cbn [merkle_hash_loop];
    destruct (range_classify _ _ Hr) as (e & l & -> & Hcase & Hbits & Hu); cbn [mbind result_bind];
    destruct Hcase as [->|i c He Hc Ht Hl Hcl Hi Ec Hlf Hh Hs Er|He Hl Hm].
  1, 4: rewrite Z.eqb_refl; unfold rhash; by match goal with E : range_es _ _ _ _ = [] |- _ => rewrite E end; destruct (_ - _)%nat.
  1, 3: rewrite (proj2 (Z.eqb_neq e 0) He), Hc, (proj2 (Z.eqb_neq l 0) Hl), Ht; cbn [Z.eqb Pos.eqb negb andb orb];
    rewrite (nibble_from_ok i Hi); cbn [mbind result_bind]; unfold internal_node_child; cbn [children]; rewrite Ec;
    cbn [expect mbind result_bind]; unfold rhash; rewrite Er, Hh; f_equal; by apply sparse_hash_single.
  - rewrite (proj2 (Z.eqb_neq e 0) He). change (Z.of_nat 0) with 0 in *. change (2 ^ 0) with 1 in *.
    assert (Ee : bits16 e = [start]).
    { destruct (bits16 e) as [|i rest] eqn:Ee; [by apply bits16_nil in Ee|].
      apply sorted_Z_unique; [rewrite <- Ee; apply bits16_sorted|by repeat constructor|]. intros j. rewrite Hbits, list_elem_of_singleton. split; [lia|].
      intros ->. split; [lia|]. assert (Hi : i ∈ i :: rest) by (by left). apply Hbits in Hi as [? Hi]. by replace start with i by lia. }
    destruct (bits16_single e start Hu Ee) as [Ht Hi]. rewrite (proj2 (count_ones_1 e Hu)) by eauto. rewrite Ht, orb_true_r. cbn [Z.eqb Pos.eqb andb].
    rewrite (nibble_from_ok start Hi). cbn [mbind result_bind]. unfold internal_node_child. cbn [children].
    change (range_es n start 1 es) with (range_es n start (2 ^ 0) es) in Hm. rewrite range_one in Hm.
    pose proof (proj2 Hch start Hi) as Hc. destruct (ch !! start) as [c|]; [|rewrite Hc in Hm; cbn in Hm; lia].
    destruct Hc as (_ & Hh & _). cbn [expect mbind result_bind]. rewrite Hh. f_equal. unfold rhash, shash. change (2 ^ Z.of_nat 0) with (2 ^ 0). rewrite range_one. f_equal; lia.
  - rewrite (proj2 (Z.eqb_neq e 0) He).
    assert (Hw : (2 ^ Z.of_nat (S h) =? 1) = false).
    { apply Z.eqb_neq. assert (2 ^ 0 < 2 ^ Z.of_nat (S h)) by (apply Z.pow_lt_mono_r; lia). lia. }
    rewrite Hw, orb_false_r. assert (Hcond : (count_ones64 e =? 1) && negb (l =? 0) = false).
    { destruct (Z.eqb_spec (count_ones64 e) 1) as [E1|]; [|done]. by rewrite (Hl E1). }
    rewrite Hcond. assert (Hhalf : 2 ^ Z.of_nat (S h) / 2 = 2 ^ Z.of_nat h).
    { replace (Z.of_nat (S h)) with (Z.of_nat h + 1) by lia. rewrite Z.pow_add_r by lia. apply Z.div_mul. lia. }
    rewrite Hhalf. rewrite (IH start) by (lia || (rewrite <- (Z.add_0_r start); apply (wf_range_half h start false Hr))).
    cbn [mbind result_bind]. rewrite (IH (start + 2 ^ Z.of_nat h)) by (lia || apply (wf_range_half h start true Hr)).
    cbn [mbind result_bind]. f_equal. symmetry. apply rhash_split; [|done|done]. destruct Hr as [? _]. lia.
Qed.

Lemma merkle_hash_ok h start : wf_range (Z.of_nat h) start ->
  merkle_hash (mkInternalNode ch) start (2 ^ Z.of_nat h) bitmaps = Ok (rhash h start).
Proof. intros Hr. apply merkle_hash_of; [|done]. destruct Hr as [? _]. lia. Qed.
End Range.

(** The hash of an internal node is that of the subtree it stands for. *)
Lemma internal_node_hash_of n ch es : (n < ROOT_NIBBLE_HEIGHT)%nat -> children_of n ch es ->
  internal_node_hash (mkInternalNode ch) = Ok (shash n es).
Proof.
  intros Hn Hch. unfold internal_node_hash. destruct (generate_bitmaps_of ch (proj1 Hch)) as (bm & -> & Hbm). cbn [mbind result_bind].
  change 16 with (2 ^ Z.of_nat 4). rewrite (merkle_hash_ok n ch es bm Hn Hch Hbm 4 0) by (by vm_compute).
  unfold rhash, shash. rewrite range_all by done. do 2 f_equal; lia.
Qed.

(** *** The child on the path of a key *)

Notation ref_proof := (ref_proof SparseMerkleInternalNode_hash SPARSE_MERKLE_PLACEHOLDER_HASH).

Definition start_of (h : nat) (x : Z) : Z := x / 2 ^ Z.of_nat h * 2 ^ Z.of_nat h.

Definition half_facts (h : nat) (x : Z) : bool :=
  let w := 2 ^ Z.of_nat h in
  bool_decide (get_child_and_sibling_half_start x (Z.of_nat h) =
    (start_of h x, start_of (S h) x + if Z.testbit x (Z.of_nat h) then 0 else w)) &&
  (start_of h x =? start_of (S h) x + if Z.testbit x (Z.of_nat h) then w else 0) &&
  (0 <=? start_of (S h) x) && (start_of (S h) x + 2 ^ Z.of_nat (S h) <=? 16) && (start_of (S h) x mod 2 ^ Z.of_nat (S h) =? 0).

Lemma half_start h x : (h < 4)%nat -> is_nibble x ->
  get_child_and_sibling_half_start x (Z.of_nat h) =
    (start_of h x, start_of (S h) x + if Z.testbit x (Z.of_nat h) then 0 else 2 ^ Z.of_nat h) /\
  start_of h x = start_of (S h) x + (if Z.testbit x (Z.of_nat h) then 2 ^ Z.of_nat h else 0) /\
  wf_range (Z.of_nat (S h)) (start_of (S h) x).
Proof.
  intros Hh Hx.
  assert (Hall : forallb (fun h => forallb (half_facts h) (seqZ 0 16)) (seq 0 4) = true) by (by vm_compute).
  rewrite forallb_forall in Hall. specialize (Hall h). rewrite forallb_forall in Hall.
  assert (Hf : half_facts h x = true).
  { apply Hall; apply list_elem_of_In; [apply elem_of_seq; lia|apply elem_of_seqZ; unfold is_nibble in Hx; lia]. }
  unfold half_facts in Hf. rewrite !andb_true_iff, bool_decide_eq_true, !Z.eqb_eq, !Z.leb_le in Hf.
  destruct Hf as ((((? & ?) & ?) & ?) & ?). unfold wf_range. split_and!; (done || lia).
Qed.

Lemma half_ranges h x : (h < 4)%nat -> is_nibble x -> wf_range (Z.of_nat h) (start_of h x) /\
  wf_range (Z.of_nat h) (start_of (S h) x + if Z.testbit x (Z.of_nat h) then 0 else 2 ^ Z.of_nat h).
Proof.
  intros Hh Hx. destruct (half_start h x Hh Hx) as (_ & Hs & Hr).
  pose proof (wf_range_half h _ true Hr). pose proof (wf_range_half h _ false Hr). rewrite Hs.
  by destruct (Z.testbit x (Z.of_nat h)).
Qed.

Section Child.
Context (n : nat) (ch : gmap Z Child) (es : entries) (bitmaps : Z * Z).
Context (Hn : (n < ROOT_NIBBLE_HEIGHT)%nat) (Hch : children_of n ch es) (Hbm : bitmaps_of ch bitmaps).
Context (key : HashValue) (v : Z) (p : list Z) (Hp : length p = n).

Notation x := (key_nibble n key).
Notation child_key c i := (mkNodeKey (child_version c) (path_of (p ++ [i]))).

Definition rproof (h : nat) : option (HashValue * AccountStateBlob) * list HashValue :=
  ref_proof (HASH_LENGTH_IN_BITS - (4 * n + 4 - h)) (4 * n + 4 - h) key (range_es n (start_of h x) (2 ^ Z.of_nat h) es).

(** Where the search for the key continues after the node. *)
Inductive child_case (proof : option (HashValue * AccountStateBlob) * list HashValue) :
    option NodeKey -> list HashValue -> Prop :=
| ChildNone siblings : proof = (None, siblings) -> child_case proof None siblings
| ChildLeaf i c e siblings : ch !! i = Some c -> sub n i es = [e] -> proof = (Some e, siblings) ->
    child_case proof (Some (child_key c i)) siblings
| ChildNode c leaf siblings below : ch !! x = Some c -> (2 <= length (sub n x es))%nat ->
    ref_proof (HASH_LENGTH_IN_BITS - 4 * S n) (4 * S n) key (sub n x es) = (leaf, below) ->
    proof = (leaf, siblings ++ below) -> child_case proof (Some (child_key c x)) siblings.

Lemma child_case_cons leaf s l r sibs : child_case (leaf, l) r sibs -> child_case (leaf, s :: l) r (s :: sibs).
Proof.
  intros Hc. inversion Hc; subst; simplify_eq.
  - by constructor.
  - by econstructor.
  - by econstructor.
Qed.

Lemma ref_proof_many f d (l : entries) : (2 <= length l)%nat -> ref_proof (S f) d key l =
  let '(leaf, siblings) := ref_proof f (S d) key (split_bit d (key_bit d key) l) in
  (leaf, sparse_hash f (S d) (split_bit d (negb (key_bit d key)) l) :: siblings).
Proof. destruct l as [|e1 [|e2 l]]; cbn [length]; [lia|lia|]. done. Qed.

Lemma rproof_split h : (h < 4)%nat -> (2 <= length (range_es n (start_of (S h) x) (2 ^ Z.of_nat (S h)) es))%nat ->
  rproof (S h) = ((rproof h).1,
    rhash n es h (start_of (S h) x + if Z.testbit x (Z.of_nat h) then 0 else 2 ^ Z.of_nat h) :: (rproof h).2).
Proof.
  intros Hh Hl. unfold rproof, rhash. unfold ROOT_NIBBLE_HEIGHT, HASH_LENGTH in Hn.
  destruct (half_start h x Hh (key_nibble_nibble key n)) as (_ & Hs & Hr). rewrite Hs.
  replace (HASH_LENGTH_IN_BITS - (4 * n + 4 - S h))%nat with (S (HASH_LENGTH_IN_BITS - (4 * n + 4 - h))) by (unfold HASH_LENGTH_IN_BITS, HASH_LENGTH; lia).
  rewrite ref_proof_many by done. replace (4 * n + 4 - S h)%nat with (4 * n + 3 - h)%nat by lia.
  rewrite !range_split by done. rewrite <- key_nibble_bit by (unfold ROOT_NIBBLE_HEIGHT, HASH_LENGTH; lia).
  replace (S (4 * n + 3 - h)) with (4 * n + 4 - h)%nat by lia.
  destruct (Z.testbit x (Z.of_nat h)); cbn [negb]; by destruct (ref_proof _ _ _ _).
Qed.

Lemma gen_child_ok c i : gen_child_node_key (mkNodeKey v (path_of p)) (child_version c) i = Ok (child_key c i).
Proof. unfold gen_child_node_key. cbn [nk_nibble_path]. by rewrite push_of by lia. Qed.

Notation heights h := (map Z.of_nat (rev (seq 0 h))).

Lemma child_with_siblings_of h : forall sibs, (h < 4)%nat -> (2 <= length (range_es n (start_of (S h) x) (2 ^ Z.of_nat (S h)) es))%nat ->
  exists r sibs', child_with_siblings_loop (heights (S h)) (mkInternalNode ch) (mkNodeKey v (path_of p)) x bitmaps sibs =
    Ok (r, sibs ++ sibs') /\ child_case (rproof (S h)) r sibs'.
Proof.
  induction h as [|h IH]; intros sibs Hh Hl;
    rewrite seq_S, rev_app_distr; cbn [rev app map child_with_siblings_loop Nat.add];
    destruct (half_start _ x Hh (key_nibble_nibble key n)) as (-> & Hs & Hr);
    rewrite (rproof_split _ Hh Hl);
    destruct (half_ranges _ x Hh (key_nibble_nibble key n)) as [Hrc Hrs];
    rewrite Z.shiftl_1_l, (merkle_hash_ok n ch es bitmaps Hn Hch Hbm _ _ Hrs); cbn [mbind result_bind];
    destruct (range_classify n ch es bitmaps Hn Hch Hbm _ _ Hrc) as (e & l & -> & Hcase & Hbits & Hu); cbn [mbind result_bind];
    set (sib := rhash n es _ _); destruct Hcase as [->|i c He Hc Ht Hlf Hcl Hi Ec Hleaf Hhash Hsub Er|He Hl0 Hm].
  1, 4: rewrite Z.eqb_refl; exists None, [sib]; split; [done|]; apply child_case_cons; apply ChildNone;
    unfold rproof; match goal with E : range_es _ _ _ _ = [] |- _ => rewrite E end; by destruct (_ - _)%nat.
  1, 3: rewrite (proj2 (Z.eqb_neq e 0) He), Hc, Hcl, Ht; cbn [Z.eqb Pos.eqb andb orb];
    rewrite (nibble_from_ok i Hi); cbn [mbind result_bind]; unfold internal_node_child; cbn [children]; rewrite Ec;
    cbn [expect mbind result_bind]; rewrite gen_child_ok; cbn [mbind result_bind]; eexists _, [sib]; split; [done|];
    apply child_case_cons; destruct (sub n i es) as [|e1 [|]] eqn:Es; try done;
    apply (ChildLeaf _ i c e1); [done|done|]; unfold rproof; rewrite Er; by destruct (_ - _)%nat.
  - rewrite (proj2 (Z.eqb_neq e 0) He). assert (E0 : start_of 0 x = x) by (unfold start_of; change (2 ^ Z.of_nat 0) with 1; rewrite Z.div_1_r; lia).
    change (Z.of_nat 0) with 0 in *. rewrite E0 in *.
    assert (Ee : bits16 e = [x]).
    { destruct (bits16 e) as [|i rest] eqn:Ee; [by apply bits16_nil in Ee|]. change (2 ^ 0) with 1 in Hbits.
      apply sorted_Z_unique; [rewrite <- Ee; apply bits16_sorted|by repeat constructor|]. intros j. rewrite Hbits, list_elem_of_singleton. split; [lia|].
      intros ->. split; [lia|]. assert (Hi : i ∈ i :: rest) by (by left). apply Hbits in Hi as [? Hi]. by replace x with i by lia. }
    destruct (bits16_single e x Hu Ee) as [Ht Hi]. rewrite (proj2 (count_ones_1 e Hu)) by eauto. rewrite Ht, orb_true_r. cbn [Z.eqb Pos.eqb andb].
    rewrite (nibble_from_ok x Hi). cbn [mbind result_bind]. unfold internal_node_child. cbn [children].
    rewrite range_one in Hm. pose proof (proj2 Hch x Hi) as Hc. destruct (ch !! x) as [c|] eqn:Ec; [|rewrite Hc in Hm; cbn in Hm; lia].
    cbn [expect mbind result_bind]. rewrite gen_child_ok. cbn [mbind result_bind]. eexists _, [sib]. split; [done|].
    apply child_case_cons. destruct (rproof 0) as [leaf below] eqn:Erp. apply (ChildNode _ c leaf [] below); [done|done| |done].
    rewrite <- Erp. unfold rproof. rewrite E0. change (2 ^ Z.of_nat 0) with (2 ^ 0). rewrite range_one. f_equal; lia.
  - rewrite (proj2 (Z.eqb_neq e 0) He).
    assert (Hw : (2 ^ Z.of_nat (S h) =? 1) = false).
    { apply Z.eqb_neq. assert (2 ^ 0 < 2 ^ Z.of_nat (S h)) by (apply Z.pow_lt_mono_r; lia). lia. }
    rewrite Hw, orb_false_r. assert (Hcond : (count_ones64 e =? 1) && (count_ones64 l =? 1) = false).
    { destruct (Z.eqb_spec (count_ones64 e) 1) as [E1|]; [|done]. by rewrite (Hl0 E1). }
    rewrite Hcond. destruct (IH (sibs ++ [sib])) as (r & sibs' & E & Hc); [lia|done|].
    exists r, (sib :: sibs'). rewrite E. split; [by rewrite <- app_assoc|]. apply child_case_cons. by destruct (rproof (S h)).
Qed.
End Child.

Lemma get_child_with_siblings_of n ch es key v p : (n < ROOT_NIBBLE_HEIGHT)%nat -> children_of n ch es ->
  (2 <= length es)%nat -> length p = n ->
  exists r sibs, get_child_with_siblings (mkInternalNode ch) (mkNodeKey v (path_of p)) (key_nibble n key) = Ok (r, sibs) /\
    child_case n ch es key p (ref_proof (HASH_LENGTH_IN_BITS - 4 * n) (4 * n) key es) r sibs.
Proof.
  intros Hn Hch Hl Hp. unfold get_child_with_siblings. destruct (generate_bitmaps_of ch (proj1 Hch)) as (bm & -> & Hbm). cbn [mbind result_bind].
  assert (E0 : start_of 4 (key_nibble n key) = 0).
  { unfold start_of. pose proof (key_nibble_nibble key n) as Hx. unfold is_nibble in Hx. change (2 ^ Z.of_nat 4) with 16. rewrite Z.div_small by lia. done. }
  destruct (child_with_siblings_of n ch es bm Hn Hch Hbm key v p Hp 3 []) as (r & sibs & E & Hc); [lia|rewrite E0, range_all; done|].
  exists r, sibs. split; [exact E|]. unfold rproof in Hc. rewrite E0, range_all in Hc. by replace (4 * n + 4 - 4)%nat with (4 * n)%nat in Hc by lia.
Qed.
End NodeHash.
