(* ===== verification/NodeCodec.v ===== *)
(** * Encodings of the Jellyfish Merkle tree in storage

    Versions as variable-length integers, node keys, internal nodes and nodes are read
    back as they were written ([storage/jellyfish-merkle/src/node_type/mod.rs]). *)

From S2P Require Import Prelude U64 Bytes Lcs Crypto Hash NibblePath.
From S2P Require Import SparseMerkleProof SparseMerkleTree LedgerProof NodeType NodeTypeProof.

(** ** Variable-length integers *)

Lemma lor_shiftl a b k : 0 <= k -> 0 <= a < 2 ^ k -> Z.lor a (Z.shiftl b k) = a + b * 2 ^ k.
Proof.
  intros Hk Ha. assert (Hl : Z.land a (Z.shiftl b k) = 0).
  { apply Z.bits_inj. intros i. rewrite Z.land_spec, Z.bits_0. destruct (decide (i < 0)); [by rewrite Z.testbit_neg_r by lia|].
    destruct (decide (i < k)).
    - rewrite Z.shiftl_spec_low by lia. apply andb_false_r.
    - rewrite <- (Z.mod_small a (2 ^ k)), Z.mod_pow2_bits_high by lia. done. }
  rewrite <- Z.lxor_lor, <- Z.add_nocarry_lxor by done. by rewrite Z.shiftl_mul_pow2.
Qed.

Lemma land_127 z : Z.land z 127 = z mod 128.
Proof. change 127 with (Z.ones 7). by rewrite Z.land_ones. Qed.
Lemma shiftr_7 z : Z.shiftr z 7 = z / 128.
Proof. by rewrite Z.shiftr_div_pow2. Qed.

Lemma more_byte x : 0 <= x < 128 -> Z.lor x (Z.shiftl 1 7) = x + 128 /\ Z.land (x + 128) 127 = x /\
  negb (Z.land (x + 128) 128 =? 0) = true.
Proof.
  intros Hx. split_and!.
  - rewrite lor_shiftl by lia. lia.
  - rewrite land_127. replace (x + 128) with (x + 1 * 128) by lia. rewrite Z.mod_add, Z.mod_small by lia. done.
  - apply negb_true_iff, Z.eqb_neq. intros E. assert (Hb : Z.testbit (Z.land (x + 128) 128) 7 = false) by (rewrite E; apply Z.bits_0).
    rewrite Z.land_spec in Hb. change (Z.testbit 128 7) with true in Hb. rewrite andb_true_r, Z.testbit_odd, shiftr_7 in Hb.
    replace (x + 128) with (x + 1 * 128) in Hb by lia. rewrite Z.div_add, Z.div_small in Hb by lia. done.
Qed.

Lemma last_byte x : 0 <= x < 128 -> Z.land x 127 = x /\ negb (Z.land x 128 =? 0) = false.
Proof.
  intros Hx. split; [rewrite land_127; by apply Z.mod_small|]. apply negb_false_iff, Z.eqb_eq. apply Z.bits_inj. intros i.
  rewrite Z.land_spec, Z.bits_0. change 128 with (2 ^ 7). rewrite Z.pow2_bits_eqb by lia.
  destruct (Z.eqb_spec 7 i) as [<-|]; [|apply andb_false_r]. rewrite andb_true_r, Z.testbit_odd, shiftr_7, Z.div_small by lia. done.
Qed.

Lemma varint_loop f : forall i num acc, i + Z.of_nat f = 8 -> 0 <= i -> 0 <= num < 2 ^ (7 * Z.of_nat f + 8) ->
  (f = 0%nat -> 0 < num) -> 0 <= acc < 2 ^ (i * 7) ->
  exists bs, serialize_varint_loop f num = Ok bs /\ is_bytes bs /\
    forall rest, deserialize_varint_loop f i acc (bs ++ rest) = Ok (acc + num * 2 ^ (i * 7), rest).
Proof.
  induction f as [|f IH]; intros i num acc Hi Hi0 Hn H0 Ha; cbn [serialize_varint_loop deserialize_varint_loop].
  - specialize (H0 eq_refl). change (2 ^ (7 * Z.of_nat 0 + 8)) with 256 in Hn. replace i with 8 in * by lia.
    rewrite (proj2 (Z.eqb_neq num 0)), (proj2 (Z.leb_le num 255)) by lia. cbn [negb assert_ mbind result_bind].
    rewrite Z.mod_small by lia. exists [num]. split_and!; [done|by apply list.Forall_singleton|]. intros rest. cbn [app read_u8 mbind result_bind].
    by rewrite lor_shiftl by lia.
  - rewrite land_127, shiftr_7. pose proof (Z.mod_pos_bound num 128) as Hm. pose proof (Z.div_mod num 128) as Hdm.
    assert (Hp : 0 < 2 ^ (i * 7)) by (apply Z.pow_pos_nonneg; lia).
    assert (Hp7 : 2 ^ ((i + 1) * 7) = 128 * 2 ^ (i * 7)) by (replace ((i + 1) * 7) with (7 + i * 7) by lia; by rewrite Z.pow_add_r by lia).
    destruct (Z.ltb_spec 0 (num / 128)) as [Hd|Hd].
    + destruct (IH (i + 1) (num / 128) (acc + num mod 128 * 2 ^ (i * 7))) as (bs & E & Hb & Hr).
      * lia.
      * lia.
      * split; [lia|]. apply Z.div_lt_upper_bound; [lia|]. change 128 with (2 ^ 7). rewrite <- Z.pow_add_r by lia.
        replace (7 + (7 * Z.of_nat f + 8)) with (7 * Z.of_nat (S f) + 8) by lia. lia.
      * done.
      * rewrite Hp7. split; [nia|]. assert (num mod 128 * 2 ^ (i * 7) <= 127 * 2 ^ (i * 7)) by (apply Z.mul_le_mono_nonneg_r; lia). lia.
      * rewrite E. cbn [mbind result_bind]. destruct (more_byte (num mod 128)) as (-> & H1 & H2); [lia|]. eexists. split; [done|]. split.
        { constructor; [|done]. unfold is_byte. lia. }
        intros rest. cbn [app read_u8 mbind result_bind]. rewrite H1, H2. rewrite lor_shiftl by lia. rewrite Hr. do 2 f_equal. rewrite Hp7. nia.
    + exists [num mod 128]. split; [done|]. split; [apply list.Forall_singleton; unfold is_byte; lia|].
      intros rest. cbn [app read_u8 mbind result_bind]. destruct (last_byte (num mod 128)) as [H1 H2]; [lia|]. rewrite H1, H2.
      rewrite lor_shiftl by lia. do 3 f_equal. lia.
Qed.

Lemma varint_roundtrip num : is_u64 num -> exists bs, serialize_u64_varint num = Ok bs /\ is_bytes bs /\
  forall rest, deserialize_u64_varint (bs ++ rest) = Ok (num, rest).
Proof.
  intros Hn. unfold serialize_u64_varint, deserialize_u64_varint.
  destruct (varint_loop 8 0 num 0) as (bs & E & Hb & Hr); [done|done|exact Hn|done|done|].
  exists bs. split_and!; [done|done|]. intros rest. rewrite Hr. do 2 f_equal. lia.
Qed.

(** ** Node keys *)

(** The keys of nodes: a version and a path of at most 64 nibbles. *)
Definition node_key_of (v : Z) (l : list Z) : NodeKey := mkNodeKey v (path_of l).
Definition wf_path (l : list Z) : Prop := Forall is_nibble l /\ (length l <= ROOT_NIBBLE_HEIGHT)%nat.

Lemma pack_padding l : Nat.even (length l) = false -> exists last_byte, list.last (pack l) = Some last_byte /\ Z.land last_byte 15 = 0.
Proof.
  induction l as [|a|a b l IH] using pair_ind; intros He; [done| |].
  - cbn [pack]. exists (Z.shiftl a 4). split; [done|].
    apply Z.bits_inj. intros i. rewrite Z.land_spec, Z.bits_0. destruct (decide (i < 0)); [by rewrite Z.testbit_neg_r by lia|].
    destruct (decide (i < 4)); [by rewrite Z.shiftl_spec_low by lia|].
    change 15 with (Z.ones 4). rewrite Z.ones_spec_high by lia. apply andb_false_r.
  - cbn [length Nat.even] in He. destruct (IH He) as (x & Hx & H0). exists x. split; [|done]. cbn [pack].
    destruct (pack l) as [|y r]; [done|]. done.
Qed.

Lemma node_key_roundtrip v l : is_u64 v -> wf_path l -> exists raw, node_key_encode (node_key_of v l) = Ok raw /\
  is_bytes raw /\ node_key_decode raw = Ok (node_key_of v l).
Proof.
  intros Hv [Hl Hlen]. unfold node_key_encode, node_key_of. cbn [nk_version nk_nibble_path path_of num_nibbles np_bytes].
  eexists. split; [done|]. unfold ROOT_NIBBLE_HEIGHT, HASH_LENGTH in Hlen. rewrite Z.mod_small by lia. split.
  { apply Forall_app. split; [apply to_be_bytes_bytes|]. constructor; [unfold is_byte; lia|]. by apply pack_bytes. }
  unfold node_key_decode. rewrite read_u64_be_app by done. cbn [mbind result_bind].
  rewrite drop_app_ge by (rewrite u64_be_length; lia). rewrite u64_be_length. cbn [Nat.sub drop app read_u8 mbind result_bind].
  rewrite Nat2Z.id. rewrite (proj2 (Nat.leb_le (length l) ROOT_NIBBLE_HEIGHT)) by (unfold ROOT_NIBBLE_HEIGHT, HASH_LENGTH; lia).
  rewrite pack_length, Nat.eqb_refl. cbn [ensure mbind result_bind]. rewrite even_mod2.
  assert (Hhalf : (length (pack l) <= ROOT_NIBBLE_HEIGHT / 2)%nat).
  { rewrite pack_length. apply Nat.lt_succ_r. apply Nat.Div0.div_lt_upper_bound. change (ROOT_NIBBLE_HEIGHT / 2)%nat with 32%nat. lia. }
  destruct (Nat.even (length l)) eqn:He.
  - unfold nibble_path_new. rewrite (proj2 (Nat.leb_le _ _) Hhalf). cbn [assert_ mbind result_bind]. unfold path_of. do 3 f_equal.
    rewrite pack_length. apply Nat.even_spec in He as [m ->]. replace (2 * m + 1)%nat with (1 + m * 2)%nat by lia. rewrite Nat.div_add by lia. cbn. lia.
  - destruct (pack_padding l He) as (x & Hx & H0). unfold nibble_path_new_odd. rewrite Hx.
    cbn [expect mbind result_bind]. rewrite H0, (proj2 (Nat.leb_le _ _) Hhalf). cbn [expect assert_ ensure mbind result_bind Z.eqb]. unfold path_of. do 3 f_equal.
    rewrite pack_length. assert (Ho : Nat.odd (length l) = true) by (by rewrite <- Nat.negb_even, He). apply Nat.odd_spec in Ho as [m ->].
    replace (2 * m + 1 + 1)%nat with ((m + 1) * 2)%nat by lia. rewrite Nat.div_mul by lia. lia.
Qed.

(** ** Internal nodes *)

Section InternalNodes.
Context `{Crypto} `{B : !HashBytes, !HashBytesLaws B, !LedgerHashers}.
Context `{!CryptoHash AccountStateBlob, !CryptoHash SparseMerkleLeafNode}.

Lemma hash_slice h rest : hash_from_slice (take HASH_LENGTH (hash_to_vec h ++ rest)) = Ok h.
Proof.
  unfold hash_to_vec, hash_from_slice. rewrite take_app_length' by (symmetry; apply hash_bytes_length).
  rewrite hash_bytes_length, Nat.eqb_refl. cbn. by rewrite hash_new_bytes.
Qed.

Definition child_versions (ch : gmap Z Child) : Prop := forall i c, ch !! i = Some c -> is_u64 (child_version c).

Lemma leaf_bit_test l i : 0 <= i -> negb (Z.land l (Z.shiftl 1 i) =? 0) = Z.testbit l i.
Proof.
  intros Hi. rewrite Z.shiftl_1_l. assert (E : Z.land l (2 ^ i) = Z.shiftl (Z.b2z (Z.testbit l i)) i).
  { apply Z.bits_inj. intros j. destruct (decide (j < 0)); [by rewrite !Z.testbit_neg_r by lia|].
    rewrite Z.land_spec, Z.pow2_bits_eqb by lia. rewrite shiftl_bit by lia. destruct (Z.eqb_spec i j) as [->|]; [|by rewrite andb_false_r].
    by rewrite andb_true_r. }
  rewrite E. destruct (Z.testbit l i); cbn [Z.b2z].
  - rewrite Z.shiftl_1_l. assert (0 < 2 ^ i) by (apply Z.pow_pos_nonneg; lia). by rewrite (proj2 (Z.eqb_neq _ _)) by lia.
  - by rewrite Z.shiftl_0_l.
Qed.

Lemma children_roundtrip ch l : wf_children ch -> child_versions ch -> (forall i, 0 <= i -> Z.testbit l i = leaf_child ch i) ->
  forall is_ e, is_u16 e -> bits16 e = is_ -> (forall i, i ∈ is_ -> has_child ch i = true) ->
  exists raw, serialize_children (length is_) (mkInternalNode ch) e = Ok raw /\
    forall rest cs, exists cs', deserialize_children (length is_) e l (raw ++ rest) cs = Ok (0, cs') /\
      forall i, cs' !! i = if bool_decide (i ∈ is_) then ch !! i else cs !! i.
Proof.
  intros Hwf Hcv Hl is_. induction is_ as [|i is_ IH]; intros e He Eb Hin.
  - exists []. split; [done|]. intros rest cs. exists cs. split; [by rewrite (bits16_nil e He Eb)|]. intros i.
    rewrite bool_decide_eq_false_2; [done|]. by apply not_elem_of_nil.
  - destruct (bits16_cons e i is_ He Eb) as (Hi & Ht & Hu & Eb'). destruct (IH _ Hu Eb') as (raw & Eraw & Hraw).
    { intros j Hj. apply Hin. by right. }
    specialize (Hin i ltac:(by left)). unfold has_child in Hin. destruct (ch !! i) as [c|] eqn:Ec; [|done].
    destruct (varint_roundtrip (child_version c)) as (bs & Es & _ & Hdes); [by eapply Hcv|].
    cbn [length serialize_children deserialize_children]. rewrite Ht, (nibble_from_ok i Hi). cbn [mbind result_bind children].
    rewrite Ec. cbn [expect mbind result_bind]. rewrite Es. cbn [mbind result_bind]. rewrite Eraw. cbn [mbind result_bind].
    eexists. split; [done|]. intros rest cs. rewrite <- !app_assoc, Hdes. cbn [mbind result_bind].
    assert (Hlen : (HASH_LENGTH <= length (hash_to_vec (child_hash c) ++ raw ++ rest))%nat)
      by (rewrite length_app; unfold hash_to_vec; rewrite hash_bytes_length; lia).
    rewrite (proj2 (Nat.leb_le _ _) Hlen). cbn [ensure mbind result_bind]. rewrite hash_slice. cbn [mbind result_bind].
    rewrite drop_app_length' by (symmetry; apply hash_bytes_length). rewrite leaf_bit_test, Hl by lia.
    assert (Elc : leaf_child ch i = child_is_leaf c) by (unfold leaf_child; by rewrite Ec). rewrite Elc.
    replace (mkChild (child_hash c) (child_version c) (child_is_leaf c)) with c by (by destruct c).
    destruct (Hraw rest (<[i := c]> cs)) as (cs' & -> & Hcs). exists cs'. split; [done|]. intros j. rewrite Hcs.
    destruct (decide (j = i)) as [->|Hne].
    + rewrite lookup_insert_eq, (bool_decide_eq_true_2 (i ∈ i :: is_)) by (by left). rewrite Ec. by destruct (bool_decide (i ∈ is_)).
    + rewrite lookup_insert_ne by done. by rewrite (bool_decide_ext (j ∈ i :: is_) (j ∈ is_)) by (rewrite elem_of_cons; naive_solver).
Qed.

Lemma u16_le_read v rest : is_u16 v -> read_u16_le (u16_le v ++ rest) = Ok (v, rest).
Proof. intros Hv. unfold read_u16_le, u16_le. cbn. do 2 f_equal. pose proof (Z.div_mod v 256). lia. Qed.

Lemma internal_node_roundtrip ch : wf_children ch -> child_versions ch -> ch <> ∅ -> exists raw,
  internal_node_serialize (mkInternalNode ch) = Ok raw /\ internal_node_deserialize raw = Ok (mkInternalNode ch).
Proof.
  intros Hwf Hcv Hne. unfold internal_node_serialize. destruct (generate_bitmaps_of ch Hwf) as ([e l] & -> & [He Hl Hbe Hbl]).
  cbn [fst snd] in *. cbn [mbind result_bind]. rewrite count_ones_bits16, Nat2Z.id by done.
  assert (Hbits : forall i, i ∈ bits16 e <-> has_child ch i = true).
  { intros i. rewrite bits16_elem by done. destruct (decide (i < 0)).
    - rewrite Z.testbit_neg_r by lia. split; [done|]. unfold has_child. destruct (ch !! i) eqn:E; [|done]. apply Hwf in E. unfold is_nibble in E. lia.
    - by rewrite Hbe by lia. }
  destruct (children_roundtrip ch l Hwf Hcv Hbl (bits16 e) e He eq_refl) as (raw & -> & Hraw); [by intros i Hi; apply Hbits|].
  cbn [mbind result_bind]. eexists. split; [done|]. unfold internal_node_deserialize.
  rewrite u16_le_read by done. cbn [mbind result_bind]. rewrite u16_le_read by done. cbn [mbind result_bind].
  assert (He0 : e <> 0).
  { intros ->. apply Hne. apply map_empty. intros i. destruct (ch !! i) as [c|] eqn:Ec; [|done].
    assert (Hi : i ∈ bits16 0) by (apply Hbits; unfold has_child; by rewrite Ec). by apply elem_of_nil in Hi. }
  assert (Hland : Z.land e l = l).
  { apply Z.bits_inj. intros i. rewrite Z.land_spec. destruct (decide (i < 0)); [by rewrite !Z.testbit_neg_r by lia|].
    rewrite Hbe, Hbl by lia. unfold has_child, leaf_child. by destruct (ch !! i). }
  rewrite (proj2 (Z.eqb_neq e 0) He0), Hland, Z.eqb_refl. cbn [negb ensure mbind result_bind].
  rewrite count_ones_bits16, Nat2Z.id by done. destruct (Hraw [] ∅) as (cs & E & Hcs). rewrite app_nil_r in E. rewrite E.
  cbn [assert_ mbind result_bind Z.eqb]. do 2 f_equal. apply map_eq. intros i. rewrite Hcs.
  case_bool_decide as Hi; [done|]. rewrite lookup_empty. symmetry. rewrite Hbits in Hi. unfold has_child in Hi. by destruct (ch !! i).
Qed.

(** ** Nodes *)

Context `{!Lcs LeafNode, !LcsLaws LeafNode}.

(** The nodes that the tree stores. *)
Definition wf_node (node : Node) : Prop :=
  match node with
  | Internal internal => wf_children (children internal) /\ child_versions (children internal) /\ children internal <> ∅
  | _ => True
  end.

Lemma node_codec node raw : wf_node node -> node_encode node = Ok raw -> node_decode raw = Ok node.
Proof.
  destruct node as [|[ch]|leaf]; cbn [wf_node node_encode].
  - by intros _ [= <-].
  - cbn [children]. intros (H1 & H2 & H3). destruct (internal_node_roundtrip ch H1 H2 H3) as (raw' & E1 & E2).
    rewrite E1. cbn. intros [= <-]. cbn. by rewrite E2.
  - intros _ (raw' & E & [= <-])%bind_Ok. cbn. by rewrite (lcs_roundtrip leaf raw' E).
Qed.

(** Encoding fails only on a leaf beyond the limits of LCS. *)
Lemma node_encode_ok node : wf_node node -> (forall leaf, node = Leaf leaf -> is_ok (lcs_to_bytes leaf) = true) ->
  is_ok (node_encode node) = true.
Proof.
  destruct node as [|[ch]|leaf]; cbn [wf_node node_encode]; [done| |].
  - cbn [children]. intros (H1 & H2 & H3) _. destruct (internal_node_roundtrip ch H1 H2 H3) as (raw' & E1 & _). by rewrite E1.
  - intros _ Hl. specialize (Hl leaf eq_refl). by destruct (lcs_to_bytes leaf).
Qed.

(** C33: A node that the tree stores is decoded from its serialized form; serializing fails
    only on a leaf beyond the limits of LCS. *)
Theorem node_roundtrip node : wf_node node -> (forall leaf, node = Leaf leaf -> is_ok (lcs_to_bytes leaf) = true) ->
  exists raw, node_encode node = Ok raw /\ node_decode raw = Ok node.
Proof.
  intros Hw Hl. pose proof (node_encode_ok node Hw Hl) as He. destruct (node_encode node) as [raw| |] eqn:E; [|done..].
  exists raw. split; [done|]. by apply node_codec.
Qed.
End InternalNodes.
