(* ===== verification/JellyfishMerkle.v ===== *)
(** * The Jellyfish Merkle tree

    [storage/jellyfish-merkle/src/lib.rs] and [tree_cache/mod.rs]: a sparse Merkle tree of
    radix sixteen, versioned by copying the nodes on the path of an update.  A batch of
    updates is made on a cache over the storage, frozen transaction by transaction, and
    returned as the nodes to write and the indices of the nodes that became stale. *)

From S2P Require Import Prelude U64 Bytes Lcs Crypto Hash NibblePath.
From S2P Require Import SparseMerkleProof LedgerProof NodeType.

(** [types/src/transaction/mod.rs]. *)
Definition PRE_GENESIS_VERSION : Z := u64_max.

Record StaleNodeIndex := mkStaleNodeIndex { stale_since_version : Z; sni_node_key : NodeKey }.
#[global] Instance StaleNodeIndex_eq_dec : EqDecision StaleNodeIndex.
Proof. solve_decision. Defined.
#[global] Instance StaleNodeIndex_countable : Countable StaleNodeIndex.
Proof.
  refine (inj_countable' (fun k => (stale_since_version k, sni_node_key k)) (fun '(v, p) => mkStaleNodeIndex v p) _). by intros [].
Defined.

Section JellyfishMerkle.
Context `{Crypto} `{B : !HashBytes, !LedgerHashers}.
Context `{!CryptoHash AccountStateBlob, !CryptoHash SparseMerkleLeafNode}.

Record TreeUpdateBatch := mkTreeUpdateBatch {
  node_batch : gmap NodeKey Node;
  stale_node_index_batch : gset StaleNodeIndex;
  tub_num_new_leaves : Z;
  tub_num_stale_leaves : Z
}.

(** [trait TreeReader]. *)
Record TreeReader := mkTreeReader { reader_get_node_option : NodeKey -> result string (option Node) }.

Definition reader_get_node (self : TreeReader) (node_key : NodeKey) : result string Node :=
  node ← reader_get_node_option self node_key;
  ok_or node "Missing node"%string.

(** ** The cache *)

Record FrozenTreeCache := mkFrozenTreeCache {
  frozen_node_cache : gmap NodeKey Node;
  frozen_num_new_leaves : Z;
  frozen_stale_node_index_cache : gset StaleNodeIndex;
  frozen_num_stale_leaves : Z;
  root_hashes : list HashValue
}.

Record TreeCache := mkTreeCache {
  root_node_key : NodeKey;
  next_version : Z;
  node_cache : gmap NodeKey Node;
  num_new_leaves : Z;
  stale_node_index_cache : gset NodeKey;
  num_stale_leaves : Z;
  frozen_cache : FrozenTreeCache;
  tc_reader : TreeReader
}.

Definition tree_cache_new (reader : TreeReader) (next_version : Z) : result string TreeCache :=
  '(root_node_key, node_cache) ←
    (if next_version =? 0 then
       let pre_genesis_root_key := node_key_new_empty_path PRE_GENESIS_VERSION in
       pre_genesis_root ← reader_get_node_option reader pre_genesis_root_key;
       match pre_genesis_root with
       | Some _ => Ok (pre_genesis_root_key, ∅)
       | None => let genesis_root_key := node_key_new_empty_path 0 in Ok (genesis_root_key, {[ genesis_root_key := Null ]})
       end
     else Ok (node_key_new_empty_path (u64_sub next_version 1), ∅));
  Ok (mkTreeCache root_node_key next_version node_cache 0 ∅ 0 (mkFrozenTreeCache ∅ 0 ∅ 0 []) reader).

Definition cache_get_node (self : TreeCache) (node_key : NodeKey) : result string Node :=
  match node_cache self !! node_key with
  | Some node => Ok node
  | None =>
    match frozen_node_cache (frozen_cache self) !! node_key with
    | Some node => Ok node
    | None => reader_get_node (tc_reader self) node_key
    end
  end.

Definition set_root_node_key (root_node_key : NodeKey) : M TreeCache string unit := m_modify (fun self =>
  mkTreeCache root_node_key (next_version self) (node_cache self) (num_new_leaves self) (stale_node_index_cache self)
    (num_stale_leaves self) (frozen_cache self) (tc_reader self)).

(** The contents of the cache of the current transaction. *)
Definition with_contents (self : TreeCache) (nodes : gmap NodeKey Node) (new : Z) (stale : gset NodeKey) (num_stale : Z) : TreeCache :=
  mkTreeCache (root_node_key self) (next_version self) nodes new stale num_stale (frozen_cache self) (tc_reader self).

Definition put_node (node_key : NodeKey) (new_node : Node) : M TreeCache string unit := fun self =>
  match node_cache self !! node_key with
  | None =>
    (with_contents self (<[node_key := new_node]> (node_cache self))
       (if node_is_leaf new_node then u64_add (num_new_leaves self) 1 else num_new_leaves self)
       (stale_node_index_cache self) (num_stale_leaves self), Ok tt)
  | Some _ => (self, Err "Node with key already exists in NodeBatch"%string)
  end.

Definition delete_node (old_node_key : NodeKey) (is_leaf : bool) : M TreeCache string unit := fun self =>
  match node_cache self !! old_node_key with
  | None =>
    if bool_decide (old_node_key ∈ stale_node_index_cache self) then (self, Panic)
    else (with_contents self (node_cache self) (num_new_leaves self) ({[ old_node_key ]} ∪ stale_node_index_cache self)
            (if is_leaf then u64_add (num_stale_leaves self) 1 else num_stale_leaves self), Ok tt)
  | Some _ =>
    (with_contents self (delete old_node_key (node_cache self))
       (if is_leaf then u64_sub (num_new_leaves self) 1 else num_new_leaves self)
       (stale_node_index_cache self) (num_stale_leaves self), Ok tt)
  end.

(** [extend] with the entries of the current transaction, which win. *)
Definition freeze : M TreeCache string unit := fun self =>
  match (root ← cache_get_node self (root_node_key self); node_hash root) with
  | Ok root_hash =>
    let frozen := frozen_cache self in
    (mkTreeCache (root_node_key self) (u64_add (next_version self) 1) ∅ 0 ∅ 0
       (mkFrozenTreeCache (node_cache self ∪ frozen_node_cache frozen)
          (u64_add (frozen_num_new_leaves frozen) (num_new_leaves self))
          (set_map (mkStaleNodeIndex (next_version self)) (stale_node_index_cache self) ∪ frozen_stale_node_index_cache frozen)
          (u64_add (frozen_num_stale_leaves frozen) (num_stale_leaves self))
          (root_hashes frozen ++ [root_hash]))
       (tc_reader self), Ok tt)
  | _ => (self, Panic)
  end.

(** [Into<(Vec<HashValue>, TreeUpdateBatch)>]. *)
Definition cache_into (self : TreeCache) : list HashValue * TreeUpdateBatch :=
  let frozen := frozen_cache self in
  (root_hashes frozen,
   mkTreeUpdateBatch (frozen_node_cache frozen) (frozen_stale_node_index_cache frozen)
     (frozen_num_new_leaves frozen) (frozen_num_stale_leaves frozen)).

(** ** Updates *)

Definition create_leaf_node (node_key : NodeKey) (nibble_iter : NibbleIterator) (blob : AccountStateBlob)
    : M TreeCache string (NodeKey * Node) :=
  let* path := m_lift (get_nibble_path nibble_iter) in
  let* account_key := m_lift (result_expect (hash_from_slice (np_bytes path))) in
  let new_leaf_node := node_new_leaf account_key blob in
  run* put_node node_key new_leaf_node in
  m_ret (node_key, new_leaf_node).

(** The internal nodes above the one at which two leaves fork, bottom up. *)
Fixpoint put_common_path (num_common_nibbles_below_internal : nat) (version : Z) (common_nibble_path : NibblePath)
    (node_key : NodeKey) (next_internal_node : InternalNode) : M TreeCache string (NodeKey * Node) :=
  match num_common_nibbles_below_internal with
  | O => m_ret (node_key, Internal next_internal_node)
  | S num_common =>
    let* popped := m_lift (pop common_nibble_path) in
    let* nibble := m_lift (expect popped.2) in
    let common_nibble_path := popped.1 in
    let node_key := mkNodeKey version common_nibble_path in
    let* hash := m_lift (internal_node_hash next_internal_node) in
    let* internal_node := m_lift (internal_node_new {[ nibble := mkChild hash version false ]}) in
    run* put_node node_key (Internal internal_node) in
    put_common_path num_common version common_nibble_path node_key internal_node
  end.

Definition insert_at_leaf_node (node_key : NodeKey) (existing_leaf_node : LeafNode) (version : Z)
    (nibble_iter : NibbleIterator) (blob : AccountStateBlob) : M TreeCache string (NodeKey * Node) :=
  run* delete_node node_key true in
  let visited_nibble_iter := visited_nibbles nibble_iter in
  let* existing_leaf_nibble_path := m_lift (nibble_path_new (hash_to_vec (account_key existing_leaf_node))) in
  let existing_leaf_nibble_iter := nibbles existing_leaf_nibble_path in
  let* skipped := m_lift (skip_common_prefix ROOT_NIBBLE_HEIGHT visited_nibble_iter existing_leaf_nibble_iter 0) in
  let '(visited_nibble_iter, existing_leaf_nibble_iter, _) := skipped in
  let* finished := m_lift (is_finished visited_nibble_iter) in
  run* m_lift (assert_ finished) in
  let below := remaining_nibbles existing_leaf_nibble_iter in
  let* skipped := m_lift (skip_common_prefix ROOT_NIBBLE_HEIGHT nibble_iter below 0) in
  let '(nibble_iter, below, num_common_nibbles_below_internal) := skipped in
  let* visited := m_lift (nibble_collect (visited_nibbles nibble_iter)) in
  let* common_nibble_path := m_lift (path_from_iter visited) in
  let* finished := m_lift (is_finished nibble_iter) in
  if (finished : bool) then
    let* finished := m_lift (is_finished below) in
    run* m_lift (assert_ finished) in
    create_leaf_node (set_version node_key version) nibble_iter blob
  else
    let* next := m_lift (nibble_next below) in
    let* existing_leaf_index := m_lift (expect next.2) in
    let* next := m_lift (nibble_next nibble_iter) in
    let* new_leaf_index := m_lift (expect next.2) in
    let nibble_iter := next.1 in
    run* m_lift (assert_ (negb (existing_leaf_index =? new_leaf_index))) in
    let node_key := mkNodeKey version common_nibble_path in
    let* existing_key := m_lift (gen_child_node_key node_key version existing_leaf_index) in
    run* put_node existing_key (Leaf existing_leaf_node) in
    let* new_key := m_lift (gen_child_node_key node_key version new_leaf_index) in
    let* created := create_leaf_node new_key nibble_iter blob in
    let* new_leaf_hash := m_lift (node_hash created.2) in
    let children := <[new_leaf_index := mkChild new_leaf_hash version true]>
                      {[ existing_leaf_index := mkChild (leaf_node_hash existing_leaf_node) version true ]} in
    let* internal_node := m_lift (internal_node_new children) in
    run* put_node node_key (Internal internal_node) in
    put_common_path num_common_nibbles_below_internal version common_nibble_path node_key internal_node.

Definition insert_at_internal_node
    (insert_at : NodeKey -> Z -> NibbleIterator -> AccountStateBlob -> M TreeCache string (NodeKey * Node))
    (node_key : NodeKey) (internal_node : InternalNode) (version : Z) (nibble_iter : NibbleIterator) (blob : AccountStateBlob)
    : M TreeCache string (NodeKey * Node) :=
  run* delete_node node_key false in
  let* next := m_lift (nibble_next nibble_iter) in
  let nibble_iter := next.1 in
  let* child_index := m_lift (expect next.2) in
  let* inserted := match internal_node_child internal_node child_index with
    | Some child =>
      let* child_node_key := m_lift (gen_child_node_key node_key (child_version child) child_index) in
      insert_at child_node_key version nibble_iter blob
    | None =>
      let* new_child_node_key := m_lift (gen_child_node_key node_key version child_index) in
      create_leaf_node new_child_node_key nibble_iter blob
    end in
  let new_child_node := inserted.2 in
  let* hash := m_lift (node_hash new_child_node) in
  let children := <[child_index := mkChild hash version (node_is_leaf new_child_node)]> (children internal_node) in
  let* new_internal_node := m_lift (internal_node_new children) in
  let node_key := set_version node_key version in
  run* put_node node_key (Internal new_internal_node) in
  m_ret (node_key, Internal new_internal_node).

(** Every call consumes a nibble of the key, or none of the at most 64 is left. *)
Fixpoint insert_at (fuel : nat) (node_key : NodeKey) (version : Z) (nibble_iter : NibbleIterator) (blob : AccountStateBlob)
    : M TreeCache string (NodeKey * Node) :=
  match fuel with
  | O => m_lift Panic
  | S fuel =>
    let* node := m_reads (fun tree_cache => cache_get_node tree_cache node_key) in
    match node with
    | Internal internal_node => insert_at_internal_node (insert_at fuel) node_key internal_node version nibble_iter blob
    | Leaf leaf_node => insert_at_leaf_node node_key leaf_node version nibble_iter blob
    | Null =>
      if negb (num_nibbles (nk_nibble_path node_key) =? 0)%nat then m_err "Null node exists for non-root node"%string
      else
        run* (if nk_version node_key =? version then delete_node node_key false else m_ret tt) in
        create_leaf_node (node_key_new_empty_path version) nibble_iter blob
    end
  end.

Definition put (key : HashValue) (blob : AccountStateBlob) (version : Z) : M TreeCache string unit :=
  let* nibble_path := m_lift (nibble_path_new (hash_to_vec key)) in
  let* root_node_key := m_gets root_node_key in
  let* inserted := insert_at (S ROOT_NIBBLE_HEIGHT) root_node_key version (nibbles nibble_path) blob in
  set_root_node_key inserted.1.

Fixpoint put_all (blob_set : list (HashValue * AccountStateBlob)) (version : Z) : M TreeCache string unit :=
  match blob_set with
  | [] => m_ret tt
  | (key, blob) :: blob_set => run* put key blob version in put_all blob_set version
  end.

Fixpoint put_sets (blob_sets : list (list (HashValue * AccountStateBlob))) (first_version : Z) (idx : nat)
    : M TreeCache string unit :=
  match blob_sets with
  | [] => m_ret tt
  | blob_set :: blob_sets =>
    run* m_lift (assert_ (negb (length blob_set =? 0)%nat)) in
    run* put_all blob_set (u64_add first_version (Z.of_nat idx)) in
    run* freeze in
    put_sets blob_sets first_version (S idx)
  end.

Definition put_blob_sets (reader : TreeReader) (blob_sets : list (list (HashValue * AccountStateBlob))) (first_version : Z)
    : result string (list HashValue * TreeUpdateBatch) :=
  tree_cache ← tree_cache_new reader first_version;
  match put_sets blob_sets first_version 0 tree_cache with
  | (tree_cache, Ok _) => Ok (cache_into tree_cache)
  | (_, Err e) => Err e
  | (_, Panic) => Panic
  end.

(** ** Queries *)

(** The loop over [0..=ROOT_NIBBLE_HEIGHT], [fuel] rounds of which are left. *)
Fixpoint get_with_proof_loop (fuel : nat) (reader : TreeReader) (key : HashValue) (next_node_key : NodeKey)
    (nibble_iter : NibbleIterator) (siblings : list HashValue)
    : result string (option AccountStateBlob * SparseMerkleProof) :=
  match fuel with
  | O => Err "Jellyfish Merkle tree has cyclic graph inside."%string
  | S fuel' =>
    next_node ← reader_get_node reader next_node_key;
    match next_node with
    | Internal internal_node =>
      '(nibble_iter, next) ← nibble_next nibble_iter;
      queried_child_index ← ok_or next "ran out of nibbles"%string;
      '(child_node_key, siblings_in_internal) ← get_child_with_siblings internal_node next_node_key queried_child_index;
      let siblings := siblings ++ siblings_in_internal in
      match child_node_key with
      | Some node_key => get_with_proof_loop fuel' reader key node_key nibble_iter siblings
      | None => Ok (None, mkSparseMerkleProof None (rev siblings))
      end
    | Leaf leaf_node =>
      Ok (if bool_decide (account_key leaf_node = key) then Some (leaf_blob leaf_node) else None,
          mkSparseMerkleProof (Some (leaf_node_into leaf_node)) (rev siblings))
    | Null =>
      if (fuel =? S ROOT_NIBBLE_HEIGHT)%nat then Ok (None, mkSparseMerkleProof None [])
      else Err "Non-root null node exists"%string
    end
  end.
Definition get_with_proof (reader : TreeReader) (key : HashValue) (version : Z)
    : result string (option AccountStateBlob * SparseMerkleProof) :=
  nibble_path ← nibble_path_new (hash_to_vec key);
  get_with_proof_loop (S ROOT_NIBBLE_HEIGHT) reader key (node_key_new_empty_path version) (nibbles nibble_path) [].

(** [SparseMerkleRangeProof] of [types/src/proof/definition.rs]. *)
Record SparseMerkleRangeProof := mkSparseMerkleRangeProof { right_siblings : list HashValue }.

Definition get_range_proof (reader : TreeReader) (rightmost_key_to_prove : HashValue) (version : Z)
    : result string SparseMerkleRangeProof :=
  '(account, proof) ← get_with_proof reader rightmost_key_to_prove version;
  _ ← ensure (match account with Some _ => true | None => false end) "rightmost_key_to_prove must exist."%string;
  let siblings := rev (map fst (List.filter (fun sb => negb (snd sb)) (zip (rev (smp_siblings proof)) (iter_bits rightmost_key_to_prove)))) in
  Ok (mkSparseMerkleRangeProof siblings).

Definition get_root_hash_option (reader : TreeReader) (version : Z) : result string (option HashValue) :=
  root_node ← reader_get_node_option reader (node_key_new_empty_path version);
  match root_node with
  | Some root_node => hash ← node_hash root_node; Ok (Some hash)
  | None => Ok None
  end.
End JellyfishMerkle.
