(* ===== verification/JellyfishMerkleNodes.v ===== *)
(** * What updates of the Jellyfish Merkle tree keep

    The updates change the cache by putting and deleting nodes only, so an invariant of
    these two holds throughout, whatever the shape of the tree.  Two uses: a leaf that is
    written is one that was read or one made from a new blob, hence can be stored when
    these can; and the root that a transaction starts from is stale after it. *)

From S2P Require Import Prelude U64 Bytes Lcs Crypto Hash NibblePath.
From S2P Require Import SparseMerkleProof LedgerProof NodeType JellyfishMerkle.

Section Invariant.
Context `{Crypto} `{B : !HashBytes, !LedgerHashers}.
Context `{!CryptoHash AccountStateBlob, !CryptoHash SparseMerkleLeafNode}.
Context (ok : LeafNode -> Prop) (inv : TreeCache -> Prop).

Definition leaf_ok (node : Node) : Prop := match node with Leaf leaf => ok leaf | _ => True end.
Definition blob_ok (blob : AccountStateBlob) : Prop := forall key, ok (leaf_node_new key blob).

Notation keeps m Q := (triple inv m (fun a s => inv s /\ Q a) (fun _ => True)).
Notation any := (fun _ => True).

Context (keeps_get : forall k, keeps (m_reads (fun s => cache_get_node s k)) leaf_ok).
Context (keeps_put : forall k node, leaf_ok node -> keeps (put_node k node) any).
Context (keeps_delete : forall k is_leaf, keeps (delete_node k is_leaf) any).
Context (keeps_root : forall k, keeps (set_root_node_key k) any).

Lemma keeps_bind {A B'} (m : M TreeCache string A) (k : A -> M TreeCache string B') (P : A -> Prop) (Q : B' -> Prop) :
  keeps m P -> (forall a, P a -> keeps (k a) Q) -> keeps (m_bind m k) Q.
Proof. intros Hm Hk. eapply triple_bind; [exact Hm|]. intros a s [Hs Ha]. by apply Hk. Qed.
Lemma keeps_lift {A} (r : result string A) : keeps (m_lift r) any.
Proof. apply triple_lift. intros s Hs. by destruct r. Qed.
Lemma keeps_ret {A} (a : A) (Q : A -> Prop) : Q a -> keeps (m_ret (E:=string) a) Q.
Proof. intros Ha. by apply triple_ret. Qed.

(** Steps that write no node. *)
Ltac skip_step := eapply keeps_bind; [apply keeps_lift|intros ? _; cbn beta].

Notation keeps_node m := (keeps m (fun inserted => leaf_ok inserted.2)).

Lemma keeps_create k it blob : blob_ok blob -> keeps_node (create_leaf_node k it blob).
Proof.
  intros Hb. unfold create_leaf_node. do 2 skip_step. eapply keeps_bind; [apply keeps_put, Hb|intros _ _]. by apply keeps_ret, Hb.
Qed.

Lemma keeps_common_path n : forall version path k internal, keeps_node (put_common_path n version path k internal).
Proof.
  induction n as [|n IH]; intros version path k internal; cbn [put_common_path]; [by apply keeps_ret|].
  do 4 skip_step. eapply keeps_bind; [by apply keeps_put|intros _ _]. apply IH.
Qed.

(** The two insertions below a node first delete it. *)
Notation deletes P k is_leaf := (triple P (delete_node k is_leaf) (fun _ s => inv s) (fun _ => True)).
Notation inserts P m := (triple P m (fun inserted s => inv s /\ leaf_ok inserted.2) (fun _ => True)).

Lemma inserts_at_leaf P k leaf version it blob : deletes P k true -> ok leaf -> blob_ok blob ->
  inserts P (insert_at_leaf_node k leaf version it blob).
Proof.
  intros Hd Hl Hb. unfold insert_at_leaf_node. eapply triple_bind; [exact Hd|intros []; cbn beta]. do 2 skip_step.
  destruct a0 as [[? ?] ?]. do 3 skip_step. destruct a2 as [[? ?] ?]. do 3 skip_step. destruct a4.
  - do 2 skip_step. by apply keeps_create.
  - do 6 skip_step. eapply keeps_bind; [by apply keeps_put|intros _ _]. skip_step.
    eapply keeps_bind; [by apply keeps_create|intros created _]. do 2 skip_step.
    eapply keeps_bind; [by apply keeps_put|intros _ _]. apply keeps_common_path.
Qed.

Lemma inserts_at_internal P rec k internal version it blob : deletes P k false ->
  (forall k it, keeps_node (rec k version it blob)) -> blob_ok blob ->
  inserts P (insert_at_internal_node rec k internal version it blob).
Proof.
  intros Hd Hrec Hb. unfold insert_at_internal_node. eapply triple_bind; [exact Hd|intros []; cbn beta]. do 2 skip_step.
  eapply (keeps_bind _ _ (fun inserted => leaf_ok inserted.2)).
  - destruct (internal_node_child internal a0); skip_step; [apply Hrec|by apply keeps_create].
  - intros inserted _. do 2 skip_step. eapply keeps_bind; [by apply keeps_put|intros _ _]. by apply keeps_ret.
Qed.

Lemma deletes_inv k is_leaf : deletes inv k is_leaf.
Proof. eapply triple_conseq; [apply keeps_delete|done|by intros _ s []|done]. Qed.

Lemma keeps_insert_at fuel version blob : blob_ok blob -> forall k it, keeps_node (insert_at fuel k version it blob).
Proof.
  intros Hb. induction fuel as [|fuel IH]; intros k it; cbn [insert_at].
  { apply triple_lift. done. }
  eapply keeps_bind; [apply keeps_get|intros node Hn]. destruct node as [|internal|leaf].
  - destruct (negb _); [apply triple_err; done|]. eapply (keeps_bind _ _ any); [|intros _ _; by apply keeps_create].
    destruct (_ =? _); [apply keeps_delete|by apply keeps_ret].
  - by apply inserts_at_internal; [apply deletes_inv|..].
  - by apply inserts_at_leaf; [apply deletes_inv|..].
Qed.

Lemma keeps_put_blob key blob version : blob_ok blob -> keeps (put key blob version) any.
Proof.
  intros Hb. unfold put. skip_step. eapply (keeps_bind _ _ any); [by apply triple_gets|intros root _].
  eapply keeps_bind; [by apply keeps_insert_at|intros inserted _]. apply keeps_root.
Qed.


Notation blobs_ok blobs := (Forall (fun kb => blob_ok kb.2) blobs).

Lemma keeps_put_all blobs version : blobs_ok blobs -> keeps (put_all blobs version) any.
Proof.
  induction blobs as [|[k b] blobs IH]; intros Hb; cbn [put_all]; [by apply keeps_ret|].
  apply list.Forall_cons in Hb as [Hb Hbs]. eapply keeps_bind; [by apply keeps_put_blob|intros _ _]. by apply IH.
Qed.

End Invariant.

(** ** Leaves *)

Section Leaves.
Context `{Crypto} `{B : !HashBytes, !LedgerHashers}.
Context `{!CryptoHash AccountStateBlob, !CryptoHash SparseMerkleLeafNode}.
Context (ok : LeafNode -> Prop).
Notation leaf_ok := (leaf_ok ok).
Notation blobs_ok blobs := (Forall (fun kb => blob_ok ok kb.2) blobs).

Record leaves_ok (s : TreeCache) : Prop := {
  cache_leaves k node : node_cache s !! k = Some node -> leaf_ok node;
  frozen_leaves k node : frozen_node_cache (frozen_cache s) !! k = Some node -> leaf_ok node;
  reader_leaves k node : reader_get_node_option (tc_reader s) k = Ok (Some node) -> leaf_ok node
}.

Notation keeps m Q := (triple leaves_ok m (fun a s => leaves_ok s /\ Q a) (fun _ => True)).
Notation any := (fun _ => True).

Lemma leaves_get k : keeps (m_reads (fun s => cache_get_node s k)) leaf_ok.
Proof.
  apply triple_reads. intros s Hs. destruct (cache_get_node s k) as [node| |] eqn:E; [|done..]. split; [done|].
  unfold cache_get_node, reader_get_node in E. destruct (node_cache s !! k) eqn:E1; [injection E as <-; by eapply cache_leaves|].
  destruct (frozen_node_cache (frozen_cache s) !! k) eqn:E2; [injection E as <-; by eapply frozen_leaves|].
  destruct (reader_get_node_option (tc_reader s) k) as [[n|]| |] eqn:E3; [|done..]. cbn in E. injection E as <-. by eapply reader_leaves.
Qed.

Lemma leaves_put k node : leaf_ok node -> keeps (put_node k node) any.
Proof.
  intros Hn s Hs. unfold put_node. destruct (node_cache s !! k); [done|]. split; [|done].
  split; cbn; [|apply (frozen_leaves _ Hs)|apply (reader_leaves _ Hs)]. intros k' node'. destruct (decide (k = k')) as [<-|].
  - rewrite lookup_insert_eq. by intros [= <-].
  - rewrite lookup_insert_ne by done. apply (cache_leaves _ Hs).
Qed.

Lemma leaves_delete k is_leaf : keeps (delete_node k is_leaf) any.
Proof.
  intros s Hs. unfold delete_node. destruct (node_cache s !! k).
  - split; [|done]. split; cbn; [|apply (frozen_leaves _ Hs)|apply (reader_leaves _ Hs)].
    intros k' node' Hk. apply lookup_delete_Some in Hk as [_ Hk]. by eapply cache_leaves.
  - destruct (bool_decide _); cbn; split; try done; split; cbn; (apply (cache_leaves _ Hs) || apply (frozen_leaves _ Hs) || apply (reader_leaves _ Hs)).
Qed.

Lemma leaves_root k : keeps (set_root_node_key k) any.
Proof. apply triple_modify. intros s []. split; [by split|done]. Qed.

Lemma leaves_freeze : keeps freeze any.
Proof.
  intros s Hs. unfold freeze. destruct (_ ≫= _); [|done..]. split; [|done]. split; cbn; [by intros k node ?%lookup_empty_Some| |apply (reader_leaves _ Hs)].
  intros k node [Hk|[_ Hk]]%lookup_union_Some_raw; [by eapply cache_leaves|by eapply frozen_leaves].
Qed.

Lemma leaves_put_sets blob_sets : forall first idx, Forall (fun blobs => blobs_ok blobs) blob_sets -> keeps (put_sets blob_sets first idx) any.
Proof.
  induction blob_sets as [|blobs blob_sets IH]; intros first idx Hb; cbn [put_sets]; [by apply triple_ret|].
  apply list.Forall_cons in Hb as [Hb Hbs]. eapply keeps_bind; [apply keeps_lift|intros ? _].
  eapply keeps_bind; [by apply (keeps_put_all ok _ leaves_get leaves_put leaves_delete leaves_root)|intros _ _].
  eapply keeps_bind; [apply leaves_freeze|intros _ _]. by apply IH.
Qed.

(** Every leaf of a batch is good when those in storage and the new ones are. *)
Lemma put_blob_sets_leaves reader blob_sets first roots batch :
  (forall k node, reader_get_node_option reader k = Ok (Some node) -> leaf_ok node) ->
  Forall (fun blobs => blobs_ok blobs) blob_sets -> put_blob_sets reader blob_sets first = Ok (roots, batch) ->
  forall k node, node_batch batch !! k = Some node -> leaf_ok node.
Proof.
  intros Hr Hb Hp. unfold put_blob_sets in Hp. apply bind_Ok in Hp as (s & Hs & Hp).
  assert (Hls : leaves_ok s).
  { unfold tree_cache_new in Hs. apply bind_Ok in Hs as ([rk nc] & Hn & [= <-]). split; cbn; [|by intros k node ?%lookup_empty_Some|done].
    intros k node Hk. destruct (first =? 0); [|injection Hn as <- <-; by apply lookup_empty_Some in Hk].
    apply bind_Ok in Hn as ([n|] & _ & [= <- <-]); [by apply lookup_empty_Some in Hk|].
    apply lookup_singleton_Some in Hk as [_ <-]. done. }
  pose proof (leaves_put_sets blob_sets first 0 Hb s Hls) as Hk. destruct (put_sets blob_sets first 0 s) as [s' [a| |]]; [|done..].
  injection Hp as <- <-. destruct Hk as [Hk _]. intros k node. cbn. apply (frozen_leaves _ Hk).
Qed.
End Leaves.

(** ** Stale nodes *)

Section Stale.
Context `{Crypto} `{B : !HashBytes, !LedgerHashers}.
Context `{!CryptoHash AccountStateBlob, !CryptoHash SparseMerkleLeafNode}.
Context (old : NodeKey).
Notation is_stale := (fun s : TreeCache => old ∈ stale_node_index_cache s).
Notation keeps m Q := (triple is_stale m (fun a s => is_stale s /\ Q a) (fun _ => True)).
Notation any := (fun _ => True).

Lemma stale_get k : keeps (m_reads (fun s => cache_get_node s k)) (leaf_ok any).
Proof. apply triple_reads. intros s Hs. destruct (cache_get_node s k) as [[]| |]; done. Qed.
Lemma stale_put k node : leaf_ok any node -> keeps (put_node k node) any.
Proof. intros _ s Hs. unfold put_node. by destruct (node_cache s !! k). Qed.
Lemma stale_delete k is_leaf : keeps (delete_node k is_leaf) any.
Proof.
  intros s Hs. unfold delete_node. destruct (node_cache s !! k); [done|]. destruct (bool_decide _); [done|]. cbn. split; [set_solver|done].
Qed.
Lemma stale_root k : keeps (set_root_node_key k) any.
Proof. apply triple_modify. done. Qed.

(** A node of an earlier version that an insertion starts from. *)
Lemma insert_at_stales fuel s node version it blob : cache_get_node s old = Ok node -> node <> Null -> node_cache s !! old = None ->
  match insert_at fuel old version it blob s with (s', Ok _) => old ∈ stale_node_index_cache s' | _ => True end.
Proof.
  intros Hget Hnull Hnone. destruct fuel as [|fuel]; cbn [insert_at]; [done|]. unfold m_bind at 1, m_reads at 1. rewrite Hget.
  assert (Hdel : forall is_leaf, triple (fun s' => s' = s) (delete_node old is_leaf) (fun _ s' => is_stale s') any).
  { intros is_leaf s' ->. unfold delete_node. rewrite Hnone. destruct (bool_decide _); [done|]. cbn. set_solver. }
  assert (Hrec : forall k it, keeps (insert_at fuel k version it blob) (fun inserted => leaf_ok any inserted.2)).
  { by apply (keeps_insert_at any _ stale_get stale_put stale_delete). }
  assert (Hin : triple (fun s' => s' = s) (match node with
      | Internal internal_node => insert_at_internal_node (insert_at fuel) old internal_node version it blob
      | Leaf leaf_node => insert_at_leaf_node old leaf_node version it blob
      | Null => m_lift Panic end) (fun inserted s' => is_stale s' /\ leaf_ok any inserted.2) any).
  { destruct node as [|internal|leaf]; [done| |].
    - by apply (inserts_at_internal any _ stale_put).
    - by apply (inserts_at_leaf any _ stale_put). }
  specialize (Hin s eq_refl). destruct node as [|internal|leaf]; [done| |].
  - destruct (insert_at_internal_node _ _ _ _ _ _ _) as [s' [a| |]]; [by destruct Hin|done..].
  - destruct (insert_at_leaf_node _ _ _ _ _ _) as [s' [a| |]]; [by destruct Hin|done..].
Qed.

(** The root that a transaction starts from. *)
Lemma put_all_stales s s' node blobs version : root_node_key s = old -> cache_get_node s old = Ok node -> node <> Null ->
  node_cache s !! old = None -> blobs <> [] -> put_all blobs version s = (s', Ok tt) -> old ∈ stale_node_index_cache s'.
Proof.
  intros Hroot Hget Hnull Hnone Hne Hp. destruct blobs as [|[k b] blobs]; [done|]. cbn [put_all] in Hp.
  apply m_bind_Ok in Hp as (s1 & [] & Hp & Hrest). unfold put in Hp. apply m_bind_Ok in Hp as (s2 & path & Hpath & Hp).
  unfold m_lift in Hpath. injection Hpath as <- _. apply m_bind_Ok in Hp as (s3 & root & [= <- <-] & Hp).
  apply m_bind_Ok in Hp as (s4 & inserted & Hin & Hp). rewrite Hroot in Hin.
  pose proof (insert_at_stales (S ROOT_NIBBLE_HEIGHT) s node version (nibbles path) b Hget Hnull Hnone) as Hst.
  rewrite Hin in Hst. injection Hp as <-.
  pose proof (keeps_put_all any _ stale_get stale_put stale_delete stale_root blobs version ltac:(by apply list.Forall_forall)) as Hk.
  specialize (Hk (mkTreeCache inserted.1 (next_version s4) (node_cache s4) (num_new_leaves s4) (stale_node_index_cache s4)
    (num_stale_leaves s4) (frozen_cache s4) (tc_reader s4)) Hst). rewrite Hrest in Hk. by destruct Hk.
Qed.
End Stale.
