(* ===== verification/JellyfishMerkleProof.v ===== *)
(** * The Jellyfish Merkle tree represents a map

    A tree in storage represents a list of entries; an insertion through the cache yields
    the tree of the updated entries and leaves the trees of other versions alone; the
    proofs read from a tree are those of the reference tree. *)

From S2P Require Import Prelude U64 Bytes Lcs Crypto Hash NibblePath.
From S2P Require Import SparseMerkleProof SparseMerkleTree LedgerProof NodeType NodeTypeProof NodeCodec JellyfishMerkle.

Section JellyfishMerkleProof.
Context `{Crypto} `{B : !HashBytes, !HashBytesLaws B, !LedgerHashers}.
Context `{!CryptoHash AccountStateBlob, !CryptoHash SparseMerkleLeafNode}.

Notation entries := (list (HashValue * AccountStateBlob)).

(** ** Entries *)

Definition put_entry (k : HashValue) (b : AccountStateBlob) (es : entries) : entries :=
  (k, b) :: List.filter (fun e => negb (bool_decide (e.1 = k))) es.

Lemma put_entry_elem k b es k' b' : (k', b') ∈ put_entry k b es <-> (k', b') = (k, b) \/ (k' <> k /\ (k', b') ∈ es).
Proof.
  unfold put_entry. rewrite elem_of_cons, list_elem_of_In, filter_In, <- list_elem_of_In, negb_true_iff, bool_decide_eq_false. cbn. naive_solver.
Qed.

Lemma filter_fst_sublist (f : HashValue * AccountStateBlob -> bool) es : sublist (List.filter f es).*1 es.*1.
Proof. induction es as [|e es IH]; cbn; [done|]. destruct (f e); cbn; [by apply sublist_skip|by apply sublist_cons]. Qed.

Lemma put_entry_nodup k b es : NoDup es.*1 -> NoDup (put_entry k b es).*1.
Proof.
  intros Hnd. unfold put_entry. cbn. constructor.
  - intros Hin. apply list_elem_of_fmap in Hin as ([k' b'] & -> & Hin). apply list_elem_of_In, filter_In in Hin as [_ Hk]. cbn in Hk.
    by rewrite bool_decide_eq_true_2 in Hk.
  - by eapply sublist_NoDup, filter_fst_sublist.
Qed.

Lemma filter_key_length k (es : entries) : NoDup es.*1 ->
  (length es <= S (length (List.filter (fun e => negb (bool_decide (e.1 = k))) es)))%nat.
Proof.
  induction es as [|[k' b'] es IH]; intros Hnd; cbn [length]; [lia|]. cbn in Hnd. apply list.NoDup_cons in Hnd as [Hk Hnd].
  cbn. case_bool_decide as E; cbn [negb length]; [|specialize (IH Hnd); lia].
  rewrite forallb_filter_id; [lia|]. apply forallb_forall. intros [k2 b2] Hin%list_elem_of_In. cbn.
  apply negb_true_iff, bool_decide_eq_false. intros ->. apply Hk. subst k'. apply list_elem_of_fmap. by exists (k, b2).
Qed.

Lemma put_entry_length k b es : NoDup es.*1 -> (length es <= length (put_entry k b es))%nat.
Proof. intros Hnd. unfold put_entry. cbn [length]. by apply filter_key_length. Qed.

Lemma sub_put_entry n k b es i : sub n i (put_entry k b es) =
  if key_nibble n k =? i then put_entry k b (sub n i es) else sub n i es.
Proof.
  assert (Hc : sub n i (List.filter (fun e => negb (bool_decide (e.1 = k))) es) =
    List.filter (fun e => negb (bool_decide (e.1 = k))) (sub n i es)).
  { unfold sub. rewrite !filter_filter_bool. apply List.filter_ext. intros e. apply andb_comm. }
  unfold put_entry, sub at 1. cbn [List.filter fst]. fold (sub n i (List.filter (fun e => negb (bool_decide (e.1 = k))) es)).
  rewrite Hc. destruct (Z.eqb_spec (key_nibble n k) i) as [E|Hne]; [done|].
  rewrite forallb_filter_id; [done|]. apply forallb_forall. intros [k' b'] Hin%list_elem_of_In. cbn.
  apply negb_true_iff, bool_decide_eq_false. intros ->. by apply sub_elem in Hin as [_ ?].
Qed.

Lemma sub_nodup n i es : NoDup es.*1 -> NoDup (sub n i es).*1.
Proof. intros Hnd. eapply sublist_NoDup; [done|]. apply filter_fst_sublist. Qed.

(** ** Trees *)

(** [q] is a path of nibbles from [p] on. *)
Definition below (p q : list Z) : Prop := p `prefix_of` q /\ Forall is_nibble q.

(** The tree at path [p] and version [v] over [es].  [good] holds of the nodes, [vacant] of
    the paths where there is none. *)
Inductive tree (get : NodeKey -> result string Node) (good : list Z -> Z -> Prop) (vacant : list Z -> Prop) :
    list Z -> Z -> entries -> Prop :=
| tree_leaf p v k b : get (node_key_of v p) = Ok (node_new_leaf k b) -> good p v -> p `prefix_of` key_nibbles k ->
    (forall i, is_nibble i -> vacant (p ++ [i])) -> tree get good vacant p v [(k, b)]
| tree_internal p v ch es : get (node_key_of v p) = Ok (Internal (mkInternalNode ch)) -> good p v -> Forall is_nibble p ->
    (length p < ROOT_NIBBLE_HEIGHT)%nat -> (2 <= length es)%nat -> NoDup es.*1 ->
    (forall k b, (k, b) ∈ es -> p `prefix_of` key_nibbles k) -> children_of (length p) ch es ->
    (forall i, is_nibble i -> ch !! i = None -> vacant (p ++ [i])) ->
    (forall i c, ch !! i = Some c -> tree get good vacant (p ++ [i]) (child_version c) (sub (length p) i es)) ->
    tree get good vacant p v es.

Lemma prefix_key_nibbles p k : p `prefix_of` key_nibbles k -> Forall is_nibble p /\ (length p <= ROOT_NIBBLE_HEIGHT)%nat.
Proof.
  intros Hp. split.
  - destruct Hp as [r Hr]. pose proof (key_nibbles_nibbles k) as Hk. rewrite Hr in Hk. by apply Forall_app in Hk as [? _].
  - apply prefix_length in Hp. by rewrite key_nibbles_length in Hp.
Qed.

Lemma prefix_next p k : p `prefix_of` key_nibbles k -> (length p < ROOT_NIBBLE_HEIGHT)%nat ->
  p ++ [key_nibble (length p) k] `prefix_of` key_nibbles k.
Proof.
  intros [r Hr] Hl. destruct r as [|x r].
  - rewrite app_nil_r in Hr. apply (f_equal length) in Hr. rewrite key_nibbles_length in Hr. lia.
  - assert (Hx : key_nibble (length p) k = x).
    { pose proof (key_nibbles_lookup k (length p) Hl) as E. rewrite Hr, lookup_app_r, Nat.sub_diag in E by lia. by injection E. }
    rewrite Hx. exists r. by rewrite <- app_assoc.
Qed.

Lemma below_app p q i : below (p ++ [i]) q -> below p q.
Proof. intros [Hp Hq]. split; [|done]. etrans; [|done]. by exists [i]. Qed.

Lemma below_other p i j q : i <> j -> below (p ++ [i]) q -> ~ below (p ++ [j]) q.
Proof.
  intros Hne [[r1 H1] _] [[r2 H2] _]. rewrite H1, <- !app_assoc in H2. apply app_inv_head in H2. by injection H2 as ->.
Qed.

Lemma below_self p i : ~ below (p ++ [i]) p.
Proof. intros [Hp _]. apply prefix_length in Hp. rewrite length_app in Hp. cbn in Hp. lia. Qed.

Section Trees.
Context (get get' : NodeKey -> result string Node) (good good' : list Z -> Z -> Prop) (vacant vacant' : list Z -> Prop).

Lemma tree_impl_wf p v es : tree get good vacant p v es ->
  (forall q w node, below p q -> wf_path q -> good q w -> get (node_key_of w q) = Ok node -> get' (node_key_of w q) = Ok node) ->
  (forall q w, below p q -> good q w -> good' q w) -> (forall q, below p q -> vacant q -> vacant' q) ->
  tree get' good' vacant' p v es.
Proof.
  induction 1 as [p v k b Hget Hg Hp Hv|p v ch es Hget Hg Hp Hl Hes Hnd Hk Hch Hv _ IH]; intros H1 H2 H3.
  - destruct (prefix_key_nibbles p k Hp) as [Hpn ?]. constructor; [by apply H1|by apply H2|done|].
    intros i Hi. apply H3; [|by apply Hv]. split; [by exists [i]|]. apply Forall_app. split; [done|by constructor].
  - apply (tree_internal _ _ _ p v ch es); [apply H1; try done; split; [done|lia]|by apply H2|done..| |].
    + intros i Hi Hc. apply H3; [|by apply Hv]. split; [by exists [i]|]. apply Forall_app. split; [done|by constructor].
    + intros i c Hc. apply (IH i c Hc).
      * intros q w node Hq. apply H1. by eapply below_app.
      * intros q w Hq. apply H2. by eapply below_app.
      * intros q Hq. apply H3. by eapply below_app.
Qed.
Lemma tree_impl p v es : tree get good vacant p v es ->
  (forall q w node, below p q -> good q w -> get (node_key_of w q) = Ok node -> get' (node_key_of w q) = Ok node) ->
  (forall q w, below p q -> good q w -> good' q w) -> (forall q, below p q -> vacant q -> vacant' q) ->
  tree get' good' vacant' p v es.
Proof. intros Ht H1. apply tree_impl_wf; [done|]. intros q w node Hq _. by apply H1. Qed.

Lemma tree_nodup p v es : tree get good vacant p v es -> NoDup es.*1.
Proof. destruct 1; [apply list.NoDup_singleton|done]. Qed.
Lemma tree_nonempty p v es : tree get good vacant p v es -> es <> [].
Proof. destruct 1 as [|? ? ? es _ _ _ _ Hl]; [done|]. intros ->. cbn in Hl. lia. Qed.
Lemma tree_keys p v es k b : tree get good vacant p v es -> (k, b) ∈ es -> p `prefix_of` key_nibbles k.
Proof. destruct 1 as [p v k' b' ? ? Hp|]; [|eauto]. intros Hin. apply list_elem_of_singleton in Hin. by simplify_eq. Qed.
Lemma tree_good p v es : tree get good vacant p v es -> good p v.
Proof. by destruct 1. Qed.
Lemma tree_nibbles p v es : tree get good vacant p v es -> Forall is_nibble p.
Proof. destruct 1 as [p v k' b' ? ? Hp|]; [|done]. by apply prefix_key_nibbles in Hp as [? _]. Qed.

Lemma shash_single n k b : shash n [(k, b)] = leaf_node_hash (leaf_node_new k b).
Proof. unfold shash. by destruct (HASH_LENGTH_IN_BITS - 4 * n)%nat. Qed.

(** The node at the root of a tree has the hash of the entries. *)
Lemma tree_node p v es : tree get good vacant p v es -> exists node, get (node_key_of v p) = Ok node /\
  node_hash node = Ok (shash (length p) es) /\ node_is_leaf node = is_single es.
Proof.
  destruct 1 as [p v k b Hget Hg Hp Hv|p v ch es Hget Hg Hp Hl Hes Hnd Hk Hch Hv Hc].
  - eexists. split; [done|]. split; [|done]. cbn. by rewrite shash_single.
  - eexists. split; [done|]. split; [cbn; by apply internal_node_hash_of|]. cbn. unfold is_single.
    symmetry. apply Nat.eqb_neq. lia.
Qed.
End Trees.

(** A node with two entries below it may be constructed. *)
Lemma internal_node_new_ok n ch es : children_of n ch es -> (2 <= length es)%nat -> internal_node_new ch = Ok (mkInternalNode ch).
Proof.
  intros [Hwf Hch] Hl. unfold internal_node_new.
  assert (Hne : ch <> ∅).
  { intros ->. destruct es as [|[k b] es]; [cbn in Hl; lia|]. specialize (Hch (key_nibble n k) (key_nibble_nibble k n)).
    rewrite lookup_empty in Hch. assert (Hin : (k, b) ∈ sub n (key_nibble n k) ((k, b) :: es)) by (apply sub_elem; split; [by left|done]).
    rewrite Hch in Hin. by apply elem_of_nil in Hin. }
  rewrite (proj2 (Nat.eqb_neq (size ch) 0)) by (by apply map_size_non_empty_iff). cbn [negb assert_ mbind result_bind].
  destruct (Nat.eqb_spec (size ch) 1) as [Hs|]; [|done].
  rewrite <- length_map_to_list in Hs. destruct (map_to_list ch) as [|[i c] [|]] eqn:Em; try done.
  assert (Hlook : forall j d, ch !! j = Some d <-> (j, d) = (i, c)).
  { intros j d. rewrite <- elem_of_map_to_list, Em. apply list_elem_of_singleton. }
  assert (Hic : ch !! i = Some c) by (by apply Hlook). assert (Hi : is_nibble i) by (by eapply Hwf).
  assert (Hsub : sub n i es = es).
  { unfold sub. rewrite forallb_filter_id; [done|]. apply forallb_forall. intros [k b] Hin%list_elem_of_In. cbn. apply Z.eqb_eq.
    destruct (decide (key_nibble n k = i)) as [|Hd]; [done|]. exfalso.
    specialize (Hch (key_nibble n k) (key_nibble_nibble k n)).
    destruct (ch !! key_nibble n k) as [d|] eqn:Ed; [apply Hlook in Ed; congruence|].
    assert (Hin' : (k, b) ∈ sub n (key_nibble n k) es) by (by apply sub_elem). rewrite Hch in Hin'. by apply elem_of_nil in Hin'. }
  specialize (Hch i Hi). rewrite Hic in Hch. destruct Hch as (_ & _ & Hleaf). rewrite Hsub in Hleaf.
  unfold is_single in Hleaf. rewrite (proj2 (Nat.eqb_neq (length es) 1)) in Hleaf by lia. by rewrite Hleaf.
Qed.

(** ** Queries *)

Definition iter_at (k : HashValue) (i : nat) : NibbleIterator :=
  mkNibbleIterator (path_of (key_nibbles k)) i (length (key_nibbles k)) 0.

Lemma key_path k : nibble_path_new (hash_to_vec k) = Ok (path_of (key_nibbles k)).
Proof. apply nibble_path_new_of; [apply hash_bytes_bytes|]. unfold hash_to_vec. by rewrite hash_bytes_length. Qed.
Lemma key_iter k : nibbles (path_of (key_nibbles k)) = iter_at k 0.
Proof. done. Qed.

Lemma iter_next k n : (n < ROOT_NIBBLE_HEIGHT)%nat -> nibble_next (iter_at k n) = Ok (iter_at k (S n), Some (key_nibble n k)).
Proof.
  intros Hn. apply nibble_next_of; [apply key_nibbles_nibbles|rewrite key_nibbles_length; lia|by apply key_nibbles_lookup].
Qed.

Definition root_tree (get : NodeKey -> result string Node) (good : list Z -> Z -> Prop) (vacant : list Z -> Prop)
    (v : Z) (es : entries) : Prop :=
  tree get good vacant [] v es \/
  (es = [] /\ get (node_key_of v []) = Ok Null /\ good [] v /\ forall i, is_nibble i -> vacant [i]).

Notation ref_proof := (ref_proof SparseMerkleInternalNode_hash SPARSE_MERKLE_PLACEHOLDER_HASH).
Notation ref_sparse_proof := (ref_sparse_proof SparseMerkleInternalNode_hash SPARSE_MERKLE_PLACEHOLDER_HASH).

Definition proof_result (key : HashValue) (leaf : option (HashValue * AccountStateBlob)) (siblings : list HashValue)
    : option AccountStateBlob * SparseMerkleProof :=
  (match leaf with Some (k, b) => if bool_decide (k = key) then Some b else None | None => None end,
   mkSparseMerkleProof (leaf_of <$> leaf) (rev siblings)).

Section Queries.
Context (reader : TreeReader) (good : list Z -> Z -> Prop) (vacant : list Z -> Prop).
Notation tree := (tree (reader_get_node reader) good vacant).

Lemma leaf_query fuel key v p k b i sibs : tree p v [(k, b)] ->
  get_with_proof_loop (S fuel) reader key (node_key_of v p) i sibs = Ok (proof_result key (Some (k, b)) sibs).
Proof.
  intros Ht. inversion Ht as [? ? ? ? Hget|? ? ? ? ? ? ? ? Hl]; subst; [|cbn in Hl; lia].
  cbn [get_with_proof_loop]. by rewrite Hget.
Qed.

Lemma get_with_proof_loop_ok key : forall fuel p v es sibs, tree p v es -> p `prefix_of` key_nibbles key ->
  (ROOT_NIBBLE_HEIGHT < length p + fuel)%nat ->
  let '(leaf, siblings) := ref_proof (HASH_LENGTH_IN_BITS - 4 * length p) (4 * length p) key es in
  get_with_proof_loop fuel reader key (node_key_of v p) (iter_at key (length p)) sibs = Ok (proof_result key leaf (sibs ++ siblings)).
Proof.
  induction fuel as [|fuel IH]; intros p v es sibs Ht Hp Hf.
  { apply prefix_length in Hp. rewrite key_nibbles_length in Hp. lia. }
  inversion Ht as [? ? k b Hget ? ? ?|? ? ch ? Hget Hg Hpn Hl Hes Hnd Hk Hch Hv Hsub]; subst.
  - assert (E : ref_proof (HASH_LENGTH_IN_BITS - 4 * length p) (4 * length p) key [(k, b)] = (Some (k, b), []))
      by (by destruct (_ - _)%nat). rewrite E, app_nil_r. by apply leaf_query.
  - destruct (ref_proof _ _ key es) as [leaf siblings] eqn:Er.
    cbn [get_with_proof_loop]. rewrite Hget. cbn [mbind result_bind]. rewrite iter_next by done. cbn [mbind result_bind ok_or].
    destruct (get_child_with_siblings_of (length p) ch es key v p Hl Hch Hes eq_refl) as (r & sibs' & E & Hc).
    unfold node_key_of at 1. rewrite E. cbn [mbind result_bind]. rewrite Er in Hc.
    inversion Hc as [? Hpr|i c e ? Hci Hsi Hpr|c leaf' ? blw Hci Hl2 Hrp Hpr]; subst.
    + by injection Hpr as -> ->.
    + injection Hpr as -> ->. specialize (Hsub i c Hci). rewrite Hsi in Hsub. destruct e as [k b].
      destruct fuel as [|fuel]; [lia|]. by apply leaf_query.
    + injection Hpr as -> ->. specialize (IH (p ++ [key_nibble (length p) key]) (child_version c) (sub (length p) (key_nibble (length p) key) es) (sibs ++ sibs') (Hsub _ _ Hci)).
      rewrite length_app in IH. cbn [length] in IH. rewrite Nat.add_1_r, Hrp in IH. rewrite app_assoc. apply IH; [by apply prefix_next|lia].
Qed.

(** What a query of a tree returns: the value at the key, with the proof of the reference tree. *)
Lemma get_with_proof_ok v es key : root_tree (reader_get_node reader) good vacant v es ->
  get_with_proof reader key v = Ok (lookup_entry key es, ref_sparse_proof key es).
Proof.
  intros Hr. unfold get_with_proof. rewrite key_path. cbn [mbind result_bind]. rewrite key_iter. destruct Hr as [Ht|(-> & Hget & _)].
  - rewrite (ref_proof_lookup SparseMerkleInternalNode_hash SPARSE_MERKLE_PLACEHOLDER_HASH) by (by eapply tree_nodup).
    pose proof (get_with_proof_loop_ok key (S ROOT_NIBBLE_HEIGHT) [] v es [] Ht) as Hp.
    unfold SparseMerkleTree.ref_sparse_proof. change (HASH_LENGTH_IN_BITS - 4 * length (@nil Z))%nat with HASH_LENGTH_IN_BITS in Hp.
    change (4 * length (@nil Z))%nat with 0%nat in Hp. destruct (ref_proof HASH_LENGTH_IN_BITS 0 key es) as [leaf siblings].
    apply Hp; [by exists (key_nibbles key)|cbn; lia].
  - cbn [get_with_proof_loop]. change (node_key_new_empty_path v) with (node_key_of v []). by rewrite Hget.
Qed.

Lemma get_root_hash_option_ok v es : root_tree (reader_get_node reader) good vacant v es ->
  get_root_hash_option reader v = Ok (Some (shash 0 es)).
Proof.
  intros Hr. assert (Hn : exists node, reader_get_node reader (node_key_of v []) = Ok node /\ node_hash node = Ok (shash 0 es)).
  { destruct Hr as [Ht|(-> & Hget & _)]; [destruct (tree_node _ _ _ _ _ _ Ht) as (node & ? & ? & _); eauto|eauto]. }
  destruct Hn as (node & Hget & Hh). unfold get_root_hash_option, reader_get_node in *.
  change (node_key_new_empty_path v) with (node_key_of v []). destruct (reader_get_node_option reader (node_key_of v [])) as [[n|]| |]; try done.
  cbn in Hget. injection Hget as ->. cbn. by rewrite Hh.
Qed.
End Queries.
End JellyfishMerkleProof.
