(* ===== verification/JellyfishMerkleUpdate.v ===== *)
(** * Insertions into the Jellyfish Merkle tree

    An insertion through the cache succeeds on every tree and yields the tree of the updated
    entries.  The nodes it writes are of the new version, the nodes it makes stale are of
    older versions and below the path it changes, and no assertion of the code fails. *)

From S2P Require Import Prelude U64 Bytes Lcs Crypto Hash NibblePath.
From S2P Require Import SparseMerkleProof SparseMerkleTree LedgerProof NodeType NodeTypeProof NodeCodec.
From S2P Require Import JellyfishMerkle JellyfishMerkleProof.

(** The versions that the nodes in storage have before version [ver] is written. *)
Definition old (ver v : Z) : Prop := v = PRE_GENESIS_VERSION \/ 0 <= v < ver.

(** ** Common prefixes *)

Section CommonPrefix.
Context {A : Type} `{EqDecision A}.

Lemma common_prefix_take (l1 : list A) : forall l2, take (common_prefix_len l1 l2) l1 = take (common_prefix_len l1 l2) l2 /\
  (common_prefix_len l1 l2 <= length l1)%nat /\ (common_prefix_len l1 l2 <= length l2)%nat.
Proof.
  induction l1 as [|x l1 IH]; intros [|y l2]; cbn; try (split; [done|lia]). case_bool_decide as E; [|cbn; split; [done|lia]].
  subst y. destruct (IH l2) as (E & ? & ?). cbn. rewrite E. split; [done|lia].
Qed.
Lemma common_prefix_next (l1 : list A) : forall l2 x y, l1 !! common_prefix_len l1 l2 = Some x -> l2 !! common_prefix_len l1 l2 = Some y -> x <> y.
Proof.
  induction l1 as [|a l1 IH]; intros [|b l2] x y; cbn; try done. case_bool_decide as E; cbn; [by apply IH|]. congruence.
Qed.
Lemma common_prefix_refl (l : list A) : common_prefix_len l l = length l.
Proof. induction l as [|x l IH]; [done|]. cbn. rewrite bool_decide_eq_true_2 by done. by rewrite IH. Qed.
Lemma common_prefix_app (l r : list A) : common_prefix_len l (l ++ r) = length l.
Proof. induction l as [|x l IH]; [by destruct r|]. cbn. rewrite bool_decide_eq_true_2 by done. by rewrite IH. Qed.
End CommonPrefix.

Section Update.
Context `{Crypto} `{B : !HashBytes, !HashBytesLaws B, !LedgerHashers}.
Context `{!CryptoHash AccountStateBlob, !CryptoHash SparseMerkleLeafNode}.

Notation entries := (list (HashValue * AccountStateBlob)).

(** The nodes that insertions write. *)
Definition stored_node (node : Node) : Prop :=
  match node with
  | Null => True
  | Internal internal => wf_children (children internal) /\ child_versions (children internal) /\ children internal <> ∅
  | Leaf leaf => exists k b, leaf = leaf_node_new k b
  end.

(** [ver] is the version being written, [dead] the nodes that earlier versions made stale. *)
Context (ver : Z) (Hver : 0 <= ver < u64_max).
Context (dead : NodeKey -> Prop).

Lemma old_not_ver v : old ver v -> v <> ver.
Proof. unfold old, PRE_GENESIS_VERSION. lia. Qed.
Lemma old_u64 v : old ver v -> is_u64 v.
Proof. unfold old, PRE_GENESIS_VERSION, is_u64, u64_max in *. lia. Qed.

(** *** The cache during a version *)

Definition good (s : TreeCache) (p : list Z) (v : Z) : Prop :=
  (v = ver /\ is_Some (node_cache s !! node_key_of ver p)) \/
  (old ver v /\ node_key_of v p ∉ stale_node_index_cache s /\ ~ dead (node_key_of v p) /\
   node_cache s !! node_key_of ver p = None).
Definition vacant (s : TreeCache) (q : list Z) : Prop :=
  forall q', below q q' -> node_cache s !! node_key_of ver q' = None.

Record cache_ok (s : TreeCache) : Prop := {
  cached_node k node : node_cache s !! k = Some node -> exists q, k = node_key_of ver q /\ wf_path q /\ stored_node node;
  stale_old k : k ∈ stale_node_index_cache s -> exists v q, k = node_key_of v q /\ wf_path q /\ old ver v
}.

Notation tree_in s := (tree (cache_get_node s) (good s) (vacant s)).

Record fixed (s s' : TreeCache) : Prop := {
  fixed_root : root_node_key s' = root_node_key s;
  fixed_version : next_version s' = next_version s;
  fixed_frozen : frozen_cache s' = frozen_cache s;
  fixed_reader : tc_reader s' = tc_reader s
}.
Definition agree_at (s s' : TreeCache) (q : list Z) : Prop := forall v,
  node_cache s' !! node_key_of v q = node_cache s !! node_key_of v q /\
  (node_key_of v q ∈ stale_node_index_cache s' <-> node_key_of v q ∈ stale_node_index_cache s).

(** Changes below [p] only. *)
Record changed (p : list Z) (s s' : TreeCache) : Prop := {
  changed_fixed : fixed s s';
  changed_ok : cache_ok s';
  changed_agree q : Forall is_nibble q -> ~ below p q -> agree_at s s' q
}.
(** Changes at [p] only. *)
Record changed_at (p : list Z) (s s' : TreeCache) : Prop := {
  at_fixed : fixed s s';
  at_ok : cache_ok s';
  at_agree q : Forall is_nibble q -> q <> p -> agree_at s s' q
}.

Lemma fixed_trans s1 s2 s3 : fixed s1 s2 -> fixed s2 s3 -> fixed s1 s3.
Proof. intros [] []. split; congruence. Qed.
Lemma agree_trans s1 s2 s3 q : agree_at s1 s2 q -> agree_at s2 s3 q -> agree_at s1 s3 q.
Proof. intros H1 H2 v. destruct (H1 v) as [E1 S1], (H2 v) as [E2 S2]. split; [congruence|by rewrite S2]. Qed.

Lemma changed_trans p s1 s2 s3 : changed p s1 s2 -> changed p s2 s3 -> changed p s1 s3.
Proof.
  intros [F1 _ A1] [F2 O2 A2]. split; [by eapply fixed_trans|done|]. intros q Hq Hn. eapply agree_trans; eauto.
Qed.
Lemma changed_up p i s1 s2 : changed (p ++ [i]) s1 s2 -> changed p s1 s2.
Proof. intros [F O A]. split; [done..|]. intros q Hq Hn. apply A; [done|]. intros Hb. by apply Hn; apply below_app in Hb. Qed.
Lemma changed_at_below p s1 s2 : Forall is_nibble p -> changed_at p s1 s2 -> changed p s1 s2.
Proof. intros Hp [F O A]. split; [done..|]. intros q Hq Hn. apply A; [done|]. intros ->. by apply Hn. Qed.

Lemma node_key_of_inj v1 v2 q1 q2 : Forall is_nibble q1 -> Forall is_nibble q2 -> node_key_of v1 q1 = node_key_of v2 q2 -> v1 = v2 /\ q1 = q2.
Proof. intros H1 H2 [= -> E]. split; [done|]. apply path_of_inj; [done..|]. unfold path_of. by f_equal. Qed.

Lemma get_agree s s' q v node : fixed s s' -> agree_at s s' q ->
  cache_get_node s (node_key_of v q) = Ok node -> cache_get_node s' (node_key_of v q) = Ok node.
Proof.
  intros [_ _ Hf Hr] Ha. destruct (Ha v) as [E _]. unfold cache_get_node. by rewrite E, Hf, Hr.
Qed.

(** A tree that an operation does not touch. *)
Lemma tree_frame s s' p v es : tree_in s p v es -> fixed s s' -> (forall q, below p q -> agree_at s s' q) -> tree_in s' p v es.
Proof.
  intros Ht Hf Ha. eapply tree_impl; [done|..].
  - intros q w node Hq _. eapply get_agree; eauto.
  - intros q w Hq Hg. destruct (Ha q Hq ver) as [E _], (Ha q Hq w) as [_ S]. unfold good in *. by rewrite E, S.
  - intros q Hq Hv q' Hq'. assert (Hpq' : below p q') by (destruct Hq as [? _], Hq' as [? ?]; split; [by etrans|done]).
    destruct (Ha q' Hpq' ver) as [-> _]. by apply Hv.
Qed.
Lemma vacant_frame s s' q : vacant s q -> (forall q', below q q' -> agree_at s s' q') -> vacant s' q.
Proof. intros Hv Ha q' Hq'. destruct (Ha q' Hq' ver) as [-> _]. by apply Hv. Qed.

(** *** Primitive operations *)

Lemma delete_ok s p v is_leaf : cache_ok s -> wf_path p -> good s p v ->
  exists s', delete_node (node_key_of v p) is_leaf s = (s', Ok tt) /\ changed_at p s s' /\ node_cache s' !! node_key_of ver p = None.
Proof.
  intros [Hc Hs] [Hp Hlen] Hg. unfold delete_node. destruct Hg as [(-> & node & Hn)|(Ho & Hst & Hd & Hn)].
  - rewrite Hn. eexists. split; [done|]. cbn. split; [|apply lookup_delete_eq]. split; [done|split|].
    + cbn. intros k nd [_ Hk]%lookup_delete_Some. eauto.
    + done.
    + intros q Hq Hne w. cbn. split; [|done]. rewrite lookup_delete_ne; [done|]. intros E. apply node_key_of_inj in E as [_ <-]; done.
  - assert (Hv : node_cache s !! node_key_of v p = None).
    { destruct (node_cache s !! node_key_of v p) as [nd|] eqn:E; [|done]. apply Hc in E as (q & E & [Hq _] & _).
      apply node_key_of_inj in E as [-> <-]; [|done..]. by apply old_not_ver in Ho. }
    rewrite Hv, bool_decide_eq_false_2 by done. eexists. split; [done|]. cbn. split; [|done]. split; [done|split|].
    + done.
    + cbn. intros k [->%elem_of_singleton|Hk]%elem_of_union; [|by apply Hs]. by exists v, p.
    + intros q Hq Hne w. cbn. split; [done|]. rewrite elem_of_union, elem_of_singleton. split; [|by right].
      intros [E|?]; [|done]. by apply node_key_of_inj in E as [_ ->].
Qed.

Lemma put_node_ok s p node : cache_ok s -> wf_path p -> stored_node node -> node_cache s !! node_key_of ver p = None ->
  exists s', put_node (node_key_of ver p) node s = (s', Ok tt) /\ changed_at p s s' /\ node_cache s' !! node_key_of ver p = Some node.
Proof.
  intros [Hc Hs] [Hp Hlen] Hnode Hn. unfold put_node. rewrite Hn. eexists. split; [done|]. cbn. split; [|apply lookup_insert_eq].
  split; [done|split|].
  - cbn. intros k nd [[<- <-]|[_ Hk]]%lookup_insert_Some; [by exists p|by eapply Hc].
  - done.
  - intros q Hq Hne w. cbn. split; [|done]. rewrite lookup_insert_ne; [done|]. intros E. apply node_key_of_inj in E as [_ <-]; done.
Qed.

(** What an insertion below [p] establishes. *)
Record inserted (s s' : TreeCache) (p : list Z) (es : entries) (node : Node) : Prop := {
  ins_changed : changed p s s';
  ins_tree : tree_in s' p ver es;
  ins_node : cache_get_node s' (node_key_of ver p) = Ok node
}.

Lemma inserted_trans s1 s2 s3 p es node : changed p s1 s2 -> inserted s2 s3 p es node -> inserted s1 s3 p es node.
Proof. intros Hc [Hc' Ht Hn]. split; [by eapply changed_trans|done..]. Qed.

Lemma inserted_hash s s' p es node : inserted s s' p es node -> node_hash node = Ok (shash (length p) es) /\ node_is_leaf node = is_single es.
Proof. intros [_ Ht Hn]. apply tree_node in Ht as (nd & E & Hh & Hl). rewrite Hn in E. by injection E as <-. Qed.

Lemma below_nibble p q : below p q -> q = p \/ exists i, is_nibble i /\ below (p ++ [i]) q.
Proof.
  intros [[r ->] Hq]. destruct r as [|x r]; [left; by rewrite app_nil_r|right]. exists x.
  assert (is_nibble x). { apply Forall_app in Hq as [_ Hq]. by apply list.Forall_cons in Hq as [? _]. }
  split; [done|]. split; [exists r; by rewrite <- app_assoc|done].
Qed.

Lemma below_snoc p i : Forall is_nibble p -> is_nibble i -> below p (p ++ [i]).
Proof. intros Hp Hi. split; [by exists [i]|]. apply Forall_app. split; [done|by constructor]. Qed.

Lemma put_leaf_ok s p k b : cache_ok s -> p `prefix_of` key_nibbles k -> vacant s p -> exists s',
  put_node (node_key_of ver p) (node_new_leaf k b) s = (s', Ok tt) /\ inserted s s' p [(k, b)] (node_new_leaf k b).
Proof.
  intros Hok Hp Hv. destruct (prefix_key_nibbles p k Hp) as [Hpn Hpl].
  destruct (put_node_ok s p (node_new_leaf k b) Hok) as (s' & -> & Hat & Hn); [done|cbn; eauto|by apply Hv|].
  exists s'. split; [done|]. assert (Hget : cache_get_node s' (node_key_of ver p) = Ok (node_new_leaf k b)) by (unfold cache_get_node; by rewrite Hn).
  split; [by apply changed_at_below| |done]. constructor; [done|left; by eauto|done|].
  intros i Hi q Hq. destruct (at_agree _ _ _ Hat q (proj2 Hq)) with (v := ver) as [-> _].
  - intros ->. by apply below_self in Hq.
  - apply Hv. by eapply below_app.
Qed.

Lemma key_bytes k : np_bytes (path_of (key_nibbles k)) = hash_bytes k.
Proof. cbn. apply pack_unpack, hash_bytes_bytes. Qed.

Lemma create_leaf_ok s p k b i : cache_ok s -> p `prefix_of` key_nibbles k -> vacant s p -> (i <= ROOT_NIBBLE_HEIGHT)%nat -> exists s',
  create_leaf_node (node_key_of ver p) (iter_at k i) b s = (s', Ok (node_key_of ver p, node_new_leaf k b)) /\
  inserted s s' p [(k, b)] (node_new_leaf k b).
Proof.
  intros Hok Hp Hv Hi. destruct (put_leaf_ok s p k b Hok Hp Hv) as (s' & E & Hins). exists s'. split; [|done].
  unfold create_leaf_node. unfold iter_at. rewrite get_nibble_path_of by (apply key_nibbles_nibbles || rewrite key_nibbles_length; lia).
  unfold m_bind, m_lift. rewrite key_bytes. unfold hash_from_slice. rewrite hash_bytes_length, Nat.eqb_refl. cbn [ensure mbind result_bind result_expect].
  rewrite hash_new_bytes, E. done.
Qed.

(** An internal node over the trees of its children. *)
Lemma put_internal_ok s p ch es : cache_ok s -> Forall is_nibble p -> (length p < ROOT_NIBBLE_HEIGHT)%nat ->
  node_cache s !! node_key_of ver p = None -> (2 <= length es)%nat -> NoDup es.*1 ->
  (forall k b, (k, b) ∈ es -> p `prefix_of` key_nibbles k) -> children_of (length p) ch es ->
  (forall i, is_nibble i -> ch !! i = None -> vacant s (p ++ [i])) ->
  (forall i c, ch !! i = Some c -> tree_in s (p ++ [i]) (child_version c) (sub (length p) i es)) ->
  exists s', internal_node_new ch = Ok (mkInternalNode ch) /\
    put_node (node_key_of ver p) (Internal (mkInternalNode ch)) s = (s', Ok tt) /\
    inserted s s' p es (Internal (mkInternalNode ch)).
Proof.
  intros Hok Hp Hl Hn Hes Hnd Hk Hch Hv Hc.
  assert (Hnew := internal_node_new_ok (length p) ch es Hch Hes).
  assert (Hne : ch <> ∅).
  { intros ->. unfold internal_node_new in Hnew. by rewrite map_size_empty in Hnew. }
  assert (Hcv : child_versions ch).
  { intros i c Hic. apply Hc in Hic. apply tree_good in Hic as [[-> _]|[Ho _]]; [unfold is_u64, u64_max in *; lia|by apply old_u64]. }
  destruct (put_node_ok s p (Internal (mkInternalNode ch)) Hok) as (s' & -> & Hat & Hn'); [by split; [|lia]|cbn; by destruct Hch|done|].
  exists s'. split_and!; [done..|]. assert (Hget : cache_get_node s' (node_key_of ver p) = Ok (Internal (mkInternalNode ch))) by (unfold cache_get_node; by rewrite Hn').
  assert (Hag : forall i q, below (p ++ [i]) q -> agree_at s s' q).
  { intros i q Hq. apply (at_agree _ _ _ Hat q (proj2 Hq)). intros ->. by apply below_self in Hq. }
  split; [by apply changed_at_below| |done]. apply (tree_internal _ _ _ p ver ch es); [done|left; by eauto|done..| |].
  - intros i Hi Hci. eapply vacant_frame; [by apply Hv|apply Hag].
  - intros i c Hic. eapply tree_frame; [by apply Hc|by apply Hat|apply Hag].
Qed.

(** *** Forks *)

Lemma prefix_nibble p i k : p ++ [i] `prefix_of` key_nibbles k -> key_nibble (length p) k = i.
Proof. intros [r Hr]. unfold key_nibble. rewrite Hr, <- app_assoc, app_nth2, Nat.sub_diag by lia. done. Qed.

Lemma changed_prefix p p' s s' : p `prefix_of` p' -> changed p' s s' -> changed p s s'.
Proof.
  intros Hp [F O A]. split; [done..|]. intros q Hq Hn. apply A; [done|]. intros [Hb _]. apply Hn. split; [by etrans|done].
Qed.

Lemma single_child n i es : is_nibble i -> (2 <= length es)%nat -> (forall k b, (k, b) ∈ es -> key_nibble n k = i) ->
  children_of n {[ i := mkChild (shash (S n) es) ver false ]} es /\ sub n i es = es.
Proof.
  intros Hi Hl Hk. assert (Hsub : sub n i es = es).
  { unfold sub. rewrite forallb_filter_id; [done|]. apply forallb_forall. intros [k b] Hin%list_elem_of_In. cbn. apply Z.eqb_eq. by eapply Hk. }
  split; [|done]. split.
  - intros j c [<- _]%lookup_singleton_Some. done.
  - intros j Hj. destruct (decide (j = i)) as [->|Hne].
    + rewrite lookup_singleton_eq, Hsub. split_and!; [by destruct es; [cbn in Hl; lia|]|done|]. cbn. unfold is_single. symmetry. apply Nat.eqb_neq. lia.
    + rewrite lookup_singleton_ne by done. apply entries_nil. intros k b [Hin E]%sub_elem. apply Hne. rewrite <- E. by eapply Hk.
Qed.

Lemma put_common_path_ok p es : (2 <= length es)%nat -> forall tl s ch, cache_ok s -> Forall is_nibble (p ++ tl) ->
  (length (p ++ tl) < ROOT_NIBBLE_HEIGHT)%nat -> tree_in s (p ++ tl) ver es ->
  cache_get_node s (node_key_of ver (p ++ tl)) = Ok (Internal (mkInternalNode ch)) ->
  (forall q, below p q -> ~ below (p ++ tl) q -> node_cache s !! node_key_of ver q = None) ->
  exists s' node, put_common_path (length tl) ver (path_of (p ++ tl)) (node_key_of ver (p ++ tl)) (mkInternalNode ch) s =
    (s', Ok (node_key_of ver p, node)) /\ inserted s s' p es node.
Proof.
  intros Hes tl. induction tl as [|i tl IH] using rev_ind; intros s ch Hok Hnib Hlen Ht Hget Hvac.
  - rewrite app_nil_r in *. exists s, (Internal (mkInternalNode ch)). split; [done|]. split; [|done|done]. by split.
  - rewrite length_app, Nat.add_1_r. cbn [put_common_path]. rewrite app_assoc in *.
    rewrite pop_of by done. apply Forall_app in Hnib as [Hnib Hi]. apply list.Forall_cons in Hi as [Hi _].
    rewrite length_app in Hlen. cbn [length] in Hlen.
    destruct (tree_node _ _ _ _ _ _ Ht) as (node & E & Hh & _). rewrite Hget in E. injection E as <-. cbn [node_hash] in Hh.
    assert (Hkeys : forall k b, (k, b) ∈ es -> (p ++ tl) ++ [i] `prefix_of` key_nibbles k) by (intros k b; by apply (tree_keys _ _ _ _ _ _ _ _ Ht)).
    destruct (single_child (length (p ++ tl)) i es Hi Hes) as [Hch Hsub].
    { intros k b Hin. by apply prefix_nibble, (Hkeys k b). }
    rewrite (length_app (p ++ tl) [i]), Nat.add_1_r in Hh.
    destruct (put_internal_ok s (p ++ tl) {[ i := mkChild (shash (S (length (p ++ tl))) es) ver false ]} es) as (s2 & Hnew & Hput & Hins); try done.
    + lia.
    + apply Hvac; [split; [by exists tl|done]|]. by apply below_self.
    + by eapply tree_nodup.
    + intros k b Hin. etrans; [|by eapply Hkeys]. by exists [i].
    + intros j Hj Hc q Hq. assert (j <> i) by (intros ->; by rewrite lookup_singleton_eq in Hc).
      apply Hvac; [|by eapply below_other]. destruct Hq as [Hq1 Hq2]. split; [|done]. etrans; [|done]. exists (tl ++ [j]). by rewrite app_assoc.
    + intros j c [<- <-]%lookup_singleton_Some. cbn [child_version]. by rewrite Hsub.
    + cbn [put_common_path]. unfold m_bind at 1, m_lift at 1. cbn [fst snd expect].
      unfold m_bind at 1, m_lift at 1. unfold m_bind at 1, m_lift at 1. rewrite Hh.
      unfold m_bind at 1, m_lift at 1. rewrite Hnew. unfold m_bind at 1.
      change (mkNodeKey ver (path_of (p ++ tl))) with (node_key_of ver (p ++ tl)). rewrite Hput.
      destruct (IH s2 {[ i := mkChild (shash (S (length (p ++ tl))) es) ver false ]}) as (s' & node & E & Hins').
      * apply Hins.
      * done.
      * lia.
      * apply Hins.
      * apply Hins.
      * intros q Hq Hn. destruct (changed_agree _ _ _ (ins_changed _ _ _ _ _ Hins) q (proj2 Hq) Hn ver) as [-> _].
        apply Hvac; [done|]. intros Hb. by apply Hn; apply below_app in Hb.
      * exists s', node. split; [exact E|]. eapply inserted_trans; [|done]. eapply changed_prefix; [|apply Hins]. by exists tl.
Qed.

(** Two leaves that fork at [cp]. *)
Lemma fork_children (cp : list Z) k0 b0 k b :
  let n := length cp in let x := key_nibble n k in let y := key_nibble n k0 in x <> y ->
  let es := [(k, b); (k0, b0)] in
  children_of n (<[x := mkChild (leaf_node_hash (leaf_node_new k b)) ver true]>
                  {[ y := mkChild (leaf_node_hash (leaf_node_new k0 b0)) ver true ]}) es /\
  sub n x es = [(k, b)] /\ sub n y es = [(k0, b0)].
Proof.
  intros n x y Hxy es.
  assert (Hx : sub n x es = [(k, b)]). { unfold sub. cbn. fold x y. by rewrite Z.eqb_refl, (proj2 (Z.eqb_neq y x)). }
  assert (Hy : sub n y es = [(k0, b0)]). { unfold sub. cbn. fold x y. by rewrite Z.eqb_refl, (proj2 (Z.eqb_neq x y)). }
  split; [|done]. split.
  - intros i c [[<- _]|[_ [<- _]%lookup_singleton_Some]]%lookup_insert_Some; apply key_nibble_nibble.
  - intros i Hi. destruct (decide (i = x)) as [->|Hix]; [|rewrite lookup_insert_ne by done; destruct (decide (i = y)) as [->|Hiy]].
    + rewrite lookup_insert_eq, Hx. cbn. by rewrite shash_single.
    + rewrite lookup_singleton_eq, Hy. cbn. by rewrite shash_single.
    + rewrite lookup_singleton_ne by done. unfold sub. cbn. fold x y.
      by rewrite (proj2 (Z.eqb_neq x i)), (proj2 (Z.eqb_neq y i)).
Qed.

Lemma fork_ok s cp k0 b0 k b : cache_ok s -> vacant s cp -> (length cp < ROOT_NIBBLE_HEIGHT)%nat ->
  cp `prefix_of` key_nibbles k0 -> cp `prefix_of` key_nibbles k ->
  let x := key_nibble (length cp) k in let y := key_nibble (length cp) k0 in x <> y ->
  let ch := <[x := mkChild (leaf_node_hash (leaf_node_new k b)) ver true]>
              {[ y := mkChild (leaf_node_hash (leaf_node_new k0 b0)) ver true ]} in
  exists s2 s3 s4, put_node (node_key_of ver (cp ++ [y])) (Leaf (leaf_node_new k0 b0)) s = (s2, Ok tt) /\
    create_leaf_node (node_key_of ver (cp ++ [x])) (iter_at k (S (length cp))) b s2 = (s3, Ok (node_key_of ver (cp ++ [x]), node_new_leaf k b)) /\
    internal_node_new ch = Ok (mkInternalNode ch) /\
    put_node (node_key_of ver cp) (Internal (mkInternalNode ch)) s3 = (s4, Ok tt) /\
    inserted s s4 cp [(k, b); (k0, b0)] (Internal (mkInternalNode ch)).
Proof.
  intros Hok Hv Hl Hp0 Hp1 x y Hxy ch.
  destruct (prefix_key_nibbles cp k Hp1) as [Hcp _]. pose proof (key_nibble_nibble k0 (length cp)) as Hyn. pose proof (key_nibble_nibble k (length cp)) as Hxn.
  destruct (put_leaf_ok s (cp ++ [y]) k0 b0 Hok) as (s2 & E2 & I2); [by apply prefix_next|intros q Hq; apply Hv; by eapply below_app|].
  assert (Hag2 : forall q, Forall is_nibble q -> ~ below (cp ++ [y]) q -> agree_at s s2 q) by (apply (ins_changed _ _ _ _ _ I2)).
  destruct (create_leaf_ok s2 (cp ++ [x]) k b (S (length cp))) as (s3 & E3 & I3).
  { apply I2. }
  { by apply prefix_next. }
  { eapply vacant_frame; [intros q Hq; apply Hv; by eapply below_app|]. intros q Hq. apply Hag2; [apply Hq|]. by eapply below_other. }
  { lia. }
  assert (Hag3 : forall q, Forall is_nibble q -> ~ below (cp ++ [x]) q -> agree_at s2 s3 q) by (apply (ins_changed _ _ _ _ _ I3)).
  destruct (fork_children cp k0 b0 k b Hxy) as (Hch & Hsx & Hsy). fold x y ch in Hch, Hsx, Hsy.
  assert (Hne : k <> k0) by (intros ->; by apply Hxy).
  destruct (put_internal_ok s3 cp ch [(k, b); (k0, b0)]) as (s4 & Hnew & E4 & I4); try done.
  - apply I3.
  - destruct (Hag3 cp Hcp (below_self cp x) ver) as [-> _], (Hag2 cp Hcp (below_self cp y) ver) as [-> _]. by apply Hv.
  - cbn. apply list.NoDup_cons. split; [by intros ?%list_elem_of_singleton|apply list.NoDup_singleton].
  - intros k' b' [[= -> ->]|[[= -> ->]|Hin]%elem_of_cons]%elem_of_cons; [done..|by apply elem_of_nil in Hin].
  - intros i Hi Hc. assert (i <> x) by (intros ->; unfold ch in Hc; by rewrite lookup_insert_eq in Hc).
    assert (i <> y) by (intros ->; unfold ch in Hc; by rewrite lookup_insert_ne, lookup_singleton_eq in Hc).
    intros q Hq. destruct (Hag3 q (proj2 Hq)) with (v := ver) as [-> _]; [by eapply below_other|].
    destruct (Hag2 q (proj2 Hq)) with (v := ver) as [-> _]; [by eapply below_other|]. apply Hv. by eapply below_app.
  - intros i c [[<- <-]|[Hi [<- <-]%lookup_singleton_Some]]%lookup_insert_Some; cbn [child_version].
    + rewrite Hsx. apply I3.
    + rewrite Hsy. eapply tree_frame; [apply I2|apply I3|]. intros q Hq. apply Hag3; [apply Hq|]. eapply below_other; [|done]. done.
  - exists s2, s3, s4. split_and!; [done..|]. eapply inserted_trans; [|done].
    eapply changed_trans; [eapply changed_up, I2|eapply changed_up, I3].
Qed.

(** *** Insertion at a leaf *)

Lemma key_nibbles_inj k1 k2 : key_nibbles k1 = key_nibbles k2 -> k1 = k2.
Proof.
  intros E. rewrite <- (hash_new_bytes k1), <- (hash_new_bytes k2). f_equal. rewrite <- !key_bytes. by rewrite E.
Qed.

(** How far two keys agree. *)
Lemma fork_point p k k0 : p `prefix_of` key_nibbles k -> p `prefix_of` key_nibbles k0 ->
  let m := length p in let c := common_prefix_len (drop m (key_nibbles k)) (drop m (key_nibbles k0)) in
  (m + c <= ROOT_NIBBLE_HEIGHT)%nat /\ take (m + c) (key_nibbles k) = p ++ take c (drop m (key_nibbles k)) /\
  take (m + c) (key_nibbles k) = take (m + c) (key_nibbles k0) /\
  (k = k0 -> m + c = ROOT_NIBBLE_HEIGHT)%nat /\
  (k <> k0 -> (m + c < ROOT_NIBBLE_HEIGHT)%nat /\ key_nibble (m + c) k <> key_nibble (m + c) k0).
Proof.
  intros [r1 E1] [r2 E2] m c. assert (Hd1 : drop m (key_nibbles k) = r1) by (unfold m; by rewrite E1, drop_app_length).
  assert (Hd2 : drop m (key_nibbles k0) = r2) by (unfold m; by rewrite E2, drop_app_length). unfold c. rewrite Hd1, Hd2. clear c.
  destruct (common_prefix_take r1 r2) as (Et & Hc1 & Hc2). set (c := common_prefix_len r1 r2) in *.
  pose proof (key_nibbles_length k) as L1. pose proof (key_nibbles_length k0) as L2. rewrite E1, length_app in L1. rewrite E2, length_app in L2.
  split; [lia|]. assert (Ht1 : take (m + c) (key_nibbles k) = p ++ take c r1) by (rewrite E1; unfold m; by rewrite take_app_add).
  assert (Ht2 : take (m + c) (key_nibbles k0) = p ++ take c r2) by (rewrite E2; unfold m; by rewrite take_app_add).
  split_and!; [done|by rewrite Ht1, Ht2, Et| |].
  - intros ->. rewrite E1 in E2. apply app_inv_head in E2 as ->. unfold c. rewrite common_prefix_refl. lia.
  - intros Hne. assert (Hlt : (m + c < ROOT_NIBBLE_HEIGHT)%nat).
    { destruct (decide (m + c < ROOT_NIBBLE_HEIGHT)%nat); [done|]. exfalso. apply Hne, key_nibbles_inj. rewrite E1, E2. f_equal.
      rewrite <- (take_ge r1 c), <- (take_ge r2 c) by lia. done. }
    split; [done|]. destruct (lookup_lt_is_Some_2 r1 c) as [x Hx]; [lia|]. destruct (lookup_lt_is_Some_2 r2 c) as [y Hy]; [lia|].
    pose proof (common_prefix_next r1 r2 x y Hx Hy) as Hxy.
    assert (Ex : key_nibble (m + c) k = x). { pose proof (key_nibbles_lookup k (m + c) Hlt) as E. rewrite E1, lookup_app_r in E by lia. replace (m + c - length p)%nat with c in E by lia. congruence. }
    assert (Ey : key_nibble (m + c) k0 = y). { pose proof (key_nibbles_lookup k0 (m + c) Hlt) as E. rewrite E2, lookup_app_r in E by lia. replace (m + c - length p)%nat with c in E by lia. congruence. }
    by rewrite Ex, Ey.
Qed.

(** The two walks along the keys in the code. *)
Lemma skip_visited p k k0 : p `prefix_of` key_nibbles k -> p `prefix_of` key_nibbles k0 ->
  skip_common_prefix ROOT_NIBBLE_HEIGHT (visited_nibbles (iter_at k (length p))) (iter_at k0 0) 0 =
  Ok (mkNibbleIterator (path_of (key_nibbles k)) (length p) (length p) 0, iter_at k0 (length p), length p).
Proof.
  intros H1 H2. destruct (prefix_key_nibbles p k H1) as [_ Hl]. unfold visited_nibbles, nibble_iterator_new, iter_at.
  cbn [pos_start pos_end nibble_path iter_start].
  rewrite (skip_common_prefix_of (key_nibbles k) (key_nibbles k0) (length p) (length (key_nibbles k0)) 0 0 ROOT_NIBBLE_HEIGHT);
    [|apply key_nibbles_nibbles|apply key_nibbles_nibbles|rewrite key_nibbles_length; lia|lia|lia].
  rewrite !drop_0, !Nat.sub_0_r, (take_ge (key_nibbles k0)) by lia.
  assert (Ec : common_prefix_len (take (length p) (key_nibbles k)) (key_nibbles k0) = length p).
  { destruct H1 as [r1 E1], H2 as [r2 E2]. by rewrite E1, E2, take_app_length, common_prefix_app. }
  by rewrite Ec.
Qed.

Lemma skip_below p k k0 : p `prefix_of` key_nibbles k -> p `prefix_of` key_nibbles k0 ->
  let c := common_prefix_len (drop (length p) (key_nibbles k)) (drop (length p) (key_nibbles k0)) in
  skip_common_prefix ROOT_NIBBLE_HEIGHT (iter_at k (length p)) (remaining_nibbles (iter_at k0 (length p))) 0 =
  Ok (iter_at k (length p + c), mkNibbleIterator (path_of (key_nibbles k0)) (length p + c) (length (key_nibbles k0)) (length p), c).
Proof.
  intros H1 H2 c. unfold remaining_nibbles, nibble_iterator_new, iter_at. cbn [pos_start pos_end nibble_path iter_start].
  rewrite (skip_common_prefix_of (key_nibbles k) (key_nibbles k0) (length (key_nibbles k)) (length (key_nibbles k0)) 0 (length p) ROOT_NIBBLE_HEIGHT);
    [|apply key_nibbles_nibbles|apply key_nibbles_nibbles|lia|lia|rewrite key_nibbles_length; lia].
  rewrite !take_ge by (rewrite length_drop; lia). done.
Qed.

Lemma visited_path k i : (i <= ROOT_NIBBLE_HEIGHT)%nat -> nibble_collect (visited_nibbles (iter_at k i)) = Ok (take i (key_nibbles k)).
Proof.
  intros Hi. unfold visited_nibbles, nibble_iterator_new, iter_at. cbn [pos_start nibble_path iter_start].
  rewrite nibble_collect_of by (apply key_nibbles_nibbles || rewrite key_nibbles_length; lia). by rewrite drop_0, Nat.sub_0_r.
Qed.

Lemma vacant_leaf s p : (forall i, is_nibble i -> vacant s (p ++ [i])) -> node_cache s !! node_key_of ver p = None -> vacant s p.
Proof. intros Hv Hn q Hq. destruct (below_nibble p q Hq) as [->|(i & Hi & Hb)]; [done|]. by apply (Hv i Hi). Qed.

Definition leaf_child_of (k : HashValue) (b : AccountStateBlob) : Child := mkChild (leaf_node_hash (leaf_node_new k b)) ver true.

(** The code after the walk, for a key other than that of the leaf. *)
Definition fork_code (cp : list Z) (c : nat) (k0 : HashValue) (b0 : AccountStateBlob) (k : HashValue) (b : AccountStateBlob)
    : M TreeCache string (NodeKey * Node) :=
  let x := key_nibble (length cp) k in let y := key_nibble (length cp) k0 in
  run* put_node (node_key_of ver (cp ++ [y])) (Leaf (leaf_node_new k0 b0)) in
  let* created := create_leaf_node (node_key_of ver (cp ++ [x])) (iter_at k (S (length cp))) b in
  let* new_leaf_hash := m_lift (node_hash created.2) in
  let* internal_node := m_lift (internal_node_new (<[x := mkChild new_leaf_hash ver true]> {[ y := leaf_child_of k0 b0 ]})) in
  run* put_node (node_key_of ver cp) (Internal internal_node) in
  put_common_path c ver (path_of cp) (node_key_of ver cp) internal_node.

Lemma leaf_walk s s1 p v k0 b0 k b : p `prefix_of` key_nibbles k -> p `prefix_of` key_nibbles k0 ->
  delete_node (node_key_of v p) true s = (s1, Ok tt) ->
  let c := common_prefix_len (drop (length p) (key_nibbles k)) (drop (length p) (key_nibbles k0)) in
  insert_at_leaf_node (node_key_of v p) (leaf_node_new k0 b0) ver (iter_at k (length p)) b s =
  if decide (k = k0) then create_leaf_node (node_key_of ver p) (iter_at k (length p + c)) b s1
  else fork_code (take (length p + c) (key_nibbles k)) c k0 b0 k b s1.
Proof.
  intros Hp Hp0 Edel c. destruct (prefix_key_nibbles p k Hp) as [Hpn Hpl].
  unfold insert_at_leaf_node. rewrite (m_bind_run _ _ _ _ _ Edel). cbv zeta. cbn [account_key leaf_node_new].
  rewrite (m_bind_lift _ _ _ _ (key_path k0)), key_iter, (m_bind_lift _ _ _ _ (skip_visited p k k0 Hp Hp0)).
  rewrite (m_bind_lift (is_finished _) _ _ true) by (rewrite is_finished_of, Nat.leb_refl; [done|apply key_nibbles_nibbles|rewrite key_nibbles_length; lia]).
  cbn [assert_]. rewrite (m_bind_lift _ _ _ tt) by done.
  rewrite (m_bind_lift _ _ _ _ (skip_below p k k0 Hp Hp0)). cbv iota beta zeta.
  destruct (fork_point p k k0 Hp Hp0) as (Hmc & _ & _ & Hsame & Hdiff). fold c in Hmc, Hsame, Hdiff. fold c.
  rewrite (m_bind_lift _ _ _ _ (visited_path k (length p + c) Hmc)).
  rewrite (m_bind_lift _ _ _ (path_of (take (length p + c) (key_nibbles k)))) by (apply path_from_iter_of; rewrite length_take; lia).
  rewrite (m_bind_lift (is_finished _) _ _ (length (key_nibbles k) <=? length p + c)%nat) by (apply is_finished_of; [apply key_nibbles_nibbles|lia]).
  rewrite key_nibbles_length. destruct (decide (k = k0)) as [<-|Hne].
  - specialize (Hsame eq_refl). rewrite (proj2 (Nat.leb_le _ _)) by lia.
    rewrite (m_bind_lift (is_finished _) _ _ true) by (rewrite is_finished_of; [|apply key_nibbles_nibbles|lia]; rewrite (proj2 (Nat.leb_le _ _)); [done|rewrite key_nibbles_length; lia]).
    cbn [assert_]. by rewrite (m_bind_lift _ _ _ tt).
  - destruct (Hdiff Hne) as [Hlt Hxy]. rewrite (proj2 (Nat.leb_gt _ _)) by done.
    set (cp := take (length p + c) (key_nibbles k)) in *.
    assert (Hcpl : length cp = (length p + c)%nat) by (unfold cp; rewrite length_take, key_nibbles_length; lia).
    rewrite (m_bind_lift (nibble_next _) _ _ (mkNibbleIterator (path_of (key_nibbles k0)) (S (length p + c)) (length (key_nibbles k0)) (length p), Some (key_nibble (length p + c) k0)))
      by (apply nibble_next_of; [apply key_nibbles_nibbles|rewrite key_nibbles_length; lia|by apply key_nibbles_lookup]).
    cbn [fst snd expect]. rewrite (m_bind_lift _ _ _ (key_nibble (length p + c) k0)) by done.
    rewrite (m_bind_lift _ _ _ _ (iter_next k (length p + c) Hlt)). cbn [fst snd expect].
    rewrite (m_bind_lift _ _ _ (key_nibble (length p + c) k)) by done.
    rewrite (m_bind_lift _ _ _ tt) by (rewrite (proj2 (Z.eqb_neq _ _)); done).
    change (mkNodeKey ver (path_of cp)) with (node_key_of ver cp).
    assert (Hgen : forall i, gen_child_node_key (node_key_of ver cp) ver i = Ok (node_key_of ver (cp ++ [i]))).
    { intros i. unfold gen_child_node_key. cbn [nk_nibble_path node_key_of]. by rewrite push_of by lia. }
    rewrite (m_bind_lift _ _ _ _ (Hgen _)). unfold fork_code. rewrite Hcpl. cbv zeta. unfold m_bind.
    destruct (put_node _ _ s1) as [s2 [[]|e|]]; [|done..]. rewrite (Hgen (key_nibble (length p + c) k)). done.
Qed.

(** A fork below a vacant path. *)
Lemma fork_code_ok s p tl k0 b0 k b : cache_ok s -> vacant s p -> Forall is_nibble p -> (length (p ++ tl) < ROOT_NIBBLE_HEIGHT)%nat ->
  p ++ tl `prefix_of` key_nibbles k0 -> p ++ tl `prefix_of` key_nibbles k ->
  key_nibble (length (p ++ tl)) k <> key_nibble (length (p ++ tl)) k0 ->
  exists s' node, fork_code (p ++ tl) (length tl) k0 b0 k b s = (s', Ok (node_key_of ver p, node)) /\
    inserted s s' p [(k, b); (k0, b0)] node.
Proof.
  intros Hok Hvac Hpn Hlt Hcp0 Hcpk Hxy. destruct (prefix_key_nibbles _ k Hcpk) as [Hcpn _].
  destruct (fork_ok s (p ++ tl) k0 b0 k b Hok) as (s2 & s3 & s4 & E2 & E3 & Hnew & E4 & I4); [|done..|].
  { intros q [Hq1 Hq2]. apply Hvac. split; [|done]. etrans; [|done]. by exists tl. }
  unfold fork_code. cbv zeta. rewrite (m_bind_run _ _ _ _ _ E2), (m_bind_run _ _ _ _ _ E3). cbn [fst snd].
  rewrite (m_bind_lift _ _ _ (leaf_node_hash (leaf_node_new k b))) by done. unfold leaf_child_of.
  rewrite (m_bind_lift _ _ _ _ Hnew), (m_bind_run _ _ _ _ _ E4).
  match type of I4 with inserted _ _ _ _ (Internal (mkInternalNode ?ch)) =>
    destruct (put_common_path_ok p [(k, b); (k0, b0)] ltac:(cbn; lia) tl s4 ch (changed_ok _ _ _ (ins_changed _ _ _ _ _ I4)) Hcpn Hlt) as (s' & node & E & Hins)
  end.
  - apply I4.
  - apply I4.
  - intros q Hq Hnb. destruct (changed_agree _ _ _ (ins_changed _ _ _ _ _ I4) q (proj2 Hq) Hnb ver) as [-> _]. by apply Hvac.
  - exists s', node. split; [exact E|]. eapply inserted_trans; [|done]. eapply changed_prefix; [|apply I4]. by exists tl.
Qed.

Lemma insert_at_leaf_ok s p v k0 b0 k b : cache_ok s -> tree_in s p v [(k0, b0)] -> p `prefix_of` key_nibbles k ->
  exists s' node, insert_at_leaf_node (node_key_of v p) (leaf_node_new k0 b0) ver (iter_at k (length p)) b s =
    (s', Ok (node_key_of ver p, node)) /\ inserted s s' p (put_entry k b [(k0, b0)]) node.
Proof.
  intros Hok Ht Hp. inversion Ht as [? ? ? ? _ Hg Hp0 Hv|? ? ? ? ? ? ? ? Hl]; subst; [|cbn in Hl; lia].
  destruct (prefix_key_nibbles p k Hp) as [Hpn Hpl].
  destruct (delete_ok s p v true Hok (conj Hpn Hpl) Hg) as (s1 & Edel & Hat & Hnone).
  assert (Hok1 : cache_ok s1) by apply Hat.
  assert (Hvac : vacant s1 p).
  { apply vacant_leaf; [|done]. intros i Hi. eapply vacant_frame; [by apply Hv|]. intros q Hq. apply Hat; [apply Hq|]. intros ->. by apply below_self in Hq. }
  assert (Hch1 : changed p s s1) by (by apply changed_at_below).
  rewrite (leaf_walk s s1 p v k0 b0 k b Hp Hp0 Edel).
  destruct (fork_point p k k0 Hp Hp0) as (Hmc & Hcp & Heq & _ & Hdiff). set (c := common_prefix_len _ _) in *.
  destruct (decide (k = k0)) as [<-|Hne].
  - destruct (create_leaf_ok s1 p k b (length p + c) Hok1 Hp Hvac Hmc) as (s' & E & Hins). exists s', (node_new_leaf k b).
    split; [done|]. assert (Ees : put_entry k b [(k, b0)] = [(k, b)]) by (unfold put_entry; cbn; by rewrite bool_decide_eq_true_2).
    rewrite Ees. by eapply inserted_trans.
  - destruct (Hdiff Hne) as [Hlt Hxy].
    assert (Hcpk : take (length p + c) (key_nibbles k) `prefix_of` key_nibbles k) by apply prefix_take.
    assert (Hcp0 : take (length p + c) (key_nibbles k) `prefix_of` key_nibbles k0) by (rewrite Heq; apply prefix_take).
    assert (Hcpl : length (take (length p + c) (key_nibbles k)) = (length p + c)%nat) by (rewrite length_take, key_nibbles_length; lia).
    assert (Ees : put_entry k b [(k0, b0)] = [(k, b); (k0, b0)]) by (unfold put_entry; cbn; by rewrite bool_decide_eq_false_2).
    rewrite Ees. rewrite <- Hcpl in Hlt, Hxy. rewrite Hcp in *. set (tl := take c (drop (length p) (key_nibbles k))) in *.
    assert (Htl : c = length tl) by (rewrite length_app in Hcpl; lia).
    destruct (fork_code_ok s1 p tl k0 b0 k b Hok1 Hvac Hpn Hlt Hcp0 Hcpk Hxy) as (s' & node & E & Hins).
    exists s', node. rewrite Htl at 1. split; [exact E|]. by eapply inserted_trans.
Qed.

(** *** Insertion at an internal node *)

Lemma put_child n ch es k b : children_of n ch es ->
  let x := key_nibble n k in let es' := put_entry k b es in
  children_of n (<[x := mkChild (shash (S n) (put_entry k b (sub n x es))) ver (is_single (put_entry k b (sub n x es)))]> ch) es' /\
  (forall i, sub n i es' = if x =? i then put_entry k b (sub n x es) else sub n i es).
Proof.
  intros [Hwf Hch] x es'.
  assert (Hsub : forall i, sub n i es' = if x =? i then put_entry k b (sub n x es) else sub n i es).
  { intros i. unfold es'. rewrite sub_put_entry. fold x. by destruct (Z.eqb_spec x i) as [<-|]. }
  split; [|done]. split.
  - intros i c [[<- _]|[_ Hc]]%lookup_insert_Some; [apply key_nibble_nibble|by eapply Hwf].
  - intros i Hi. rewrite Hsub. destruct (Z.eqb_spec x i) as [<-|Hne].
    + by rewrite lookup_insert_eq.
    + rewrite lookup_insert_ne by done. by apply Hch.
Qed.

(** The new child, from the old one or from none. *)
Definition child_code (rec : NodeKey -> Z -> NibbleIterator -> AccountStateBlob -> M TreeCache string (NodeKey * Node))
    (v : Z) (p : list Z) (ch : gmap Z Child) (k : HashValue) (b : AccountStateBlob) : M TreeCache string (NodeKey * Node) :=
  let x := key_nibble (length p) k in
  match ch !! x with
  | Some child =>
    let* child_node_key := m_lift (gen_child_node_key (node_key_of v p) (child_version child) x) in
    rec child_node_key ver (iter_at k (S (length p))) b
  | None =>
    let* new_child_node_key := m_lift (gen_child_node_key (node_key_of v p) ver x) in
    create_leaf_node new_child_node_key (iter_at k (S (length p))) b
  end.

Definition insert_spec (rec : NodeKey -> Z -> NibbleIterator -> AccountStateBlob -> M TreeCache string (NodeKey * Node))
    (n : nat) : Prop :=
  forall s p v es k b, cache_ok s -> tree_in s p v es -> p `prefix_of` key_nibbles k -> (n <= length p)%nat ->
  exists s' node, rec (node_key_of v p) ver (iter_at k (length p)) b s = (s', Ok (node_key_of ver p, node)) /\
    inserted s s' p (put_entry k b es) node.

Lemma gen_child_of v p w i : (length p < ROOT_NIBBLE_HEIGHT)%nat ->
  gen_child_node_key (node_key_of v p) w i = Ok (node_key_of w (p ++ [i])).
Proof. intros Hl. unfold gen_child_node_key. cbn [nk_nibble_path node_key_of]. by rewrite push_of by lia. Qed.

Lemma child_code_ok rec s p v ch es k b : insert_spec rec (S (length p)) -> cache_ok s -> p `prefix_of` key_nibbles k ->
  (length p < ROOT_NIBBLE_HEIGHT)%nat -> children_of (length p) ch es ->
  (forall i, is_nibble i -> ch !! i = None -> vacant s (p ++ [i])) ->
  (forall i c, ch !! i = Some c -> tree_in s (p ++ [i]) (child_version c) (sub (length p) i es)) ->
  let x := key_nibble (length p) k in
  exists s' node, child_code rec v p ch k b s = (s', Ok (node_key_of ver (p ++ [x]), node)) /\
    inserted s s' (p ++ [x]) (put_entry k b (sub (length p) x es)) node.
Proof.
  intros Hrec Hok Hp Hl [Hwf Hch] Hv Hc x. pose proof (prefix_next p k Hp Hl) as Hpx. fold x in Hpx.
  pose proof (key_nibble_nibble k (length p)) as Hx. fold x in Hx. unfold child_code. fold x. cbv zeta.
  specialize (Hch x Hx). destruct (ch !! x) as [c|] eqn:Ec.
  - rewrite (m_bind_lift _ _ _ _ (gen_child_of v p _ x Hl)).
    destruct (Hrec s (p ++ [x]) (child_version c) (sub (length p) x es) k b Hok (Hc x c Ec) Hpx) as (s' & node & E & Hins).
    { rewrite length_app. cbn. lia. }
    rewrite length_app, Nat.add_1_r in E. cbn [length] in E. eauto.
  - rewrite (m_bind_lift _ _ _ _ (gen_child_of v p _ x Hl)), Hch.
    destruct (create_leaf_ok s (p ++ [x]) k b (S (length p)) Hok Hpx (Hv x Hx Ec)) as (s' & E & Hins); [lia|].
    unfold put_entry. cbn [List.filter]. eauto.
Qed.

Lemma insert_at_internal_ok rec s p v ch es k b : insert_spec rec (S (length p)) -> cache_ok s ->
  tree_in s p v es -> cache_get_node s (node_key_of v p) = Ok (Internal (mkInternalNode ch)) -> p `prefix_of` key_nibbles k ->
  exists s' node, insert_at_internal_node rec (node_key_of v p) (mkInternalNode ch) ver (iter_at k (length p)) b s =
    (s', Ok (node_key_of ver p, node)) /\ inserted s s' p (put_entry k b es) node.
Proof.
  intros Hrec Hok Ht Hget Hp. inversion Ht as [? ? ? ? Hget' ?|? ? ch' ? Hget' Hg Hpn Hl Hes Hnd Hk Hch Hv Hc]; subst.
  { rewrite Hget in Hget'. done. }
  rewrite Hget in Hget'. injection Hget' as <-. set (x := key_nibble (length p) k).
  destruct (delete_ok s p v false Hok) as (s1 & Edel & Hat & Hnone); [by split; [|lia]|done|].
  assert (Hag1 : forall i q, below (p ++ [i]) q -> agree_at s s1 q).
  { intros i q Hq. apply Hat; [apply Hq|]. intros ->. by apply below_self in Hq. }
  assert (Hv1 : forall i, is_nibble i -> ch !! i = None -> vacant s1 (p ++ [i])).
  { intros i Hi Hci. eapply vacant_frame; [by apply Hv|apply Hag1]. }
  assert (Hc1 : forall i c, ch !! i = Some c -> tree_in s1 (p ++ [i]) (child_version c) (sub (length p) i es)).
  { intros i c Hci. eapply tree_frame; [by apply Hc|apply Hat|apply Hag1]. }
  destruct (child_code_ok rec s1 p v ch es k b Hrec (at_ok _ _ _ Hat) Hp Hl Hch Hv1 Hc1) as (s2 & node & E2 & I2). fold x in E2, I2.
  destruct (inserted_hash _ _ _ _ _ I2) as [Hh Hlf]. rewrite length_app, Nat.add_1_r in Hh. cbn [length] in Hh.
  destruct (put_child (length p) ch es k b Hch) as [Hch' Hsub']. fold x in Hch', Hsub'.
  assert (Hag2 : forall q, Forall is_nibble q -> ~ below (p ++ [x]) q -> agree_at s1 s2 q) by (apply (ins_changed _ _ _ _ _ I2)).
  set (child := mkChild (shash (S (length p)) (put_entry k b (sub (length p) x es))) ver (is_single (put_entry k b (sub (length p) x es)))) in *.
  destruct (put_internal_ok s2 p (<[x := child]> ch) (put_entry k b es)) as (s3 & Hnew & E3 & I3); try done.
  - apply I2.
  - destruct (Hag2 p Hpn (below_self p x) ver) as [-> _]. done.
  - pose proof (put_entry_length k b es Hnd). lia.
  - by apply put_entry_nodup.
  - intros k' b' [[= -> ->]|[_ Hin]]%put_entry_elem; [done|by eapply Hk].
  - intros i Hi [Hci Hix]%lookup_insert_None. eapply vacant_frame; [by apply Hv1|]. intros q Hq. apply Hag2; [apply Hq|].
    by eapply below_other.
  - intros i c [[<- <-]|[Hix Hci]]%lookup_insert_Some; rewrite Hsub'.
    + rewrite Z.eqb_refl. apply I2.
    + rewrite (proj2 (Z.eqb_neq x i)) by done. eapply tree_frame; [by apply Hc1|apply I2|]. intros q Hq. apply Hag2; [apply Hq|].
      by eapply below_other.
  - exists s3, (Internal (mkInternalNode (<[x := child]> ch))). split.
    + unfold insert_at_internal_node. rewrite (m_bind_run _ _ _ _ _ Edel), (m_bind_lift _ _ _ _ (iter_next k (length p) Hl)).
      cbn [fst snd expect]. rewrite (m_bind_lift _ _ _ x) by done. cbv zeta. unfold internal_node_child. cbn [children].
      change (m_bind (child_code rec v p ch k b) ?f s1) with (m_bind (child_code rec v p ch k b) f s1).
      rewrite (m_bind_run (child_code rec v p ch k b) _ _ _ _ E2). cbn [fst snd].
      rewrite (m_bind_lift _ _ _ _ Hh), Hlf. fold child. rewrite (m_bind_lift _ _ _ _ Hnew).
      change (set_version (node_key_of v p) ver) with (node_key_of ver p). by rewrite (m_bind_run _ _ _ _ _ E3).
    + eapply inserted_trans; [|done]. eapply changed_trans; [by apply changed_at_below|eapply changed_up, I2].
Qed.

Lemma insert_at_ok fuel : forall n, (ROOT_NIBBLE_HEIGHT < n + fuel)%nat -> insert_spec (insert_at fuel) n.
Proof.
  induction fuel as [|fuel IH]; intros n Hn s p v es k b Hok Ht Hp Hlen; destruct (prefix_key_nibbles p k Hp) as [_ Hpl]; [lia|].
  cbn [insert_at]. assert (Hnode : exists node, cache_get_node s (node_key_of v p) = Ok node) by (apply tree_node in Ht as (nd & ? & _); eauto).
  destruct Hnode as [node Hget]. unfold m_bind at 1, m_reads at 1. rewrite Hget.
  inversion Ht as [? ? k0 b0 Hget'|? ? ch ? Hget' ? ? Hl]; subst; rewrite Hget in Hget'; injection Hget' as ->.
  - by apply insert_at_leaf_ok.
  - apply insert_at_internal_ok; [|done..]. apply IH. lia.
Qed.

(** *** Insertion at the root *)

Notation root_tree_in s := (root_tree (cache_get_node s) (good s) (vacant s)).

(** What an operation of the tree leaves as it was. *)
Record kept (s s' : TreeCache) : Prop := {
  kept_version : next_version s' = next_version s;
  kept_frozen : frozen_cache s' = frozen_cache s;
  kept_reader : tc_reader s' = tc_reader s
}.

Lemma tree_set_root s s' p v es : tree_in s p v es -> node_cache s' = node_cache s -> stale_node_index_cache s' = stale_node_index_cache s ->
  frozen_cache s' = frozen_cache s -> tc_reader s' = tc_reader s -> tree_in s' p v es.
Proof.
  intros Ht E1 E2 E3 E4. eapply tree_impl; [done|..].
  - intros q w node _ _. unfold cache_get_node. by rewrite E1, E3, E4.
  - intros q w _. unfold good. by rewrite E1, E2.
  - intros q _. unfold vacant. by rewrite E1.
Qed.

Lemma insert_at_root_ok s v es k b : cache_ok s -> root_tree_in s v es -> exists s' node,
  insert_at (S ROOT_NIBBLE_HEIGHT) (node_key_of v []) ver (iter_at k 0) b s = (s', Ok (node_key_of ver [], node)) /\
  inserted s s' [] (put_entry k b es) node.
Proof.
  intros Hok [Ht|(-> & Hget & Hg & Hv)].
  - apply (insert_at_ok (S ROOT_NIBBLE_HEIGHT) 0); [lia|done|done|by exists (key_nibbles k)|cbn; lia].
  - cbn [insert_at]. unfold m_bind at 1, m_reads at 1. rewrite Hget. cbn [nk_nibble_path node_key_of path_of num_nibbles length Nat.eqb negb nk_version].
    assert (Hs1 : exists s1, (if v =? ver then delete_node (node_key_of v []) false else m_ret tt) s = (s1, Ok tt) /\
      changed [] s s1 /\ vacant s1 []).
    { destruct (Z.eqb_spec v ver) as [->|Hne].
      - destruct (delete_ok s [] ver false Hok) as (s1 & E & Hat & Hnone); [by split; [|cbn; lia]|done|].
        exists s1. split; [done|]. split; [by apply changed_at_below|]. apply vacant_leaf; [|done]. intros i Hi. eapply vacant_frame; [by apply Hv|].
        intros q Hq. apply Hat; [apply Hq|]. intros ->. by apply (below_self []) in Hq.
      - exists s. split; [done|]. split; [by split|]. apply vacant_leaf; [done|]. destruct Hg as [[-> _]|(_ & _ & _ & Hn)]; done. }
    destruct Hs1 as (s1 & E1 & Hch & Hvac). rewrite (m_bind_run _ _ _ _ _ E1).
    destruct (create_leaf_ok s1 [] k b 0 (changed_ok _ _ _ Hch)) as (s' & E & Hins); [by exists (key_nibbles k)|done|lia|].
    exists s', (node_new_leaf k b). split; [exact E|]. by eapply inserted_trans.
Qed.

Lemma put_ok s v es k b : cache_ok s -> root_node_key s = node_key_of v [] -> root_tree_in s v es -> exists s',
  put k b ver s = (s', Ok tt) /\ cache_ok s' /\ kept s s' /\ root_node_key s' = node_key_of ver [] /\ tree_in s' [] ver (put_entry k b es).
Proof.
  intros Hok Hroot Ht. destruct (insert_at_root_ok s v es k b Hok Ht) as (s1 & node & E & [Hch Htr _]).
  unfold put. rewrite (m_bind_lift _ _ _ _ (key_path k)). unfold m_bind at 1, m_gets at 1. rewrite Hroot, key_iter, (m_bind_run _ _ _ _ _ E).
  destruct Hch as [[? ? ? ?] [? ?] _]. eexists. split; [done|]. split_and!; [by split|by split|done|].
  by eapply tree_set_root.
Qed.

(** The entries after the writes of a transaction. *)
Definition put_entries (blobs : list (HashValue * AccountStateBlob)) (es : entries) : entries :=
  fold_left (fun es '(k, b) => put_entry k b es) blobs es.

Lemma put_all_ok blobs : forall s v es, cache_ok s -> root_node_key s = node_key_of v [] -> root_tree_in s v es -> blobs <> [] -> exists s',
  put_all blobs ver s = (s', Ok tt) /\ cache_ok s' /\ kept s s' /\ root_node_key s' = node_key_of ver [] /\ tree_in s' [] ver (put_entries blobs es).
Proof.
  induction blobs as [|[k b] blobs IH]; intros s v es Hok Hroot Ht Hne; [done|]. cbn [put_all].
  destruct (put_ok s v es k b Hok Hroot Ht) as (s1 & E & Hok1 & [K1 K2 K3] & Hroot1 & Ht1). rewrite (m_bind_run _ _ _ _ _ E).
  destruct blobs as [|e blobs]; [exists s1; split_and!; try done; by split|].
  destruct (IH s1 ver (put_entry k b es) Hok1 Hroot1 (or_introl Ht1)) as (s' & E' & Hok' & [L1 L2 L3] & Hroot' & Ht'); [done|].
  exists s'. split_and!; try done. split; congruence.
Qed.
End Update.
