(* ===== verification/JellyfishMerkleBatch.v ===== *)
(** * Batches of updates of the Jellyfish Merkle tree

    [put_blob_sets] succeeds on every tree and returns, for each transaction, the root of
    the updated entries.  With the batch written, the tree of every new version is in
    storage and the trees of older versions are still there; a node that a version reaches
    is never listed as stale at that version or before. *)

From S2P Require Import Prelude U64 Bytes Lcs Crypto Hash NibblePath.
From S2P Require Import SparseMerkleProof SparseMerkleTree LedgerProof NodeType NodeTypeProof NodeCodec.
From S2P Require Import JellyfishMerkle JellyfishMerkleNodes JellyfishMerkleProof JellyfishMerkleUpdate.

Section Batch.
Context `{Crypto} `{B : !HashBytes, !HashBytesLaws B, !LedgerHashers}.
Context `{!CryptoHash AccountStateBlob, !CryptoHash SparseMerkleLeafNode}.

Notation entries := (list (HashValue * AccountStateBlob)).
Notation stale_set := (StaleNodeIndex -> Prop).

(** A node that version [w] may reach: it is no newer, and stale only later. *)
Definition live (stale : stale_set) (w : Z) (q : list Z) (v : Z) : Prop :=
  old (w + 1) v /\ forall since, stale (mkStaleNodeIndex since (node_key_of v q)) -> w < since.

(** The tree of version [w] in storage. *)
Definition version_tree (get : NodeKey -> result string Node) (stale : stale_set) (w : Z) (es : entries) : Prop :=
  root_tree get (live stale w) (fun _ => True) w es.

(** Storage that keeps the nodes a version may reach, and no more stale nodes. *)
Lemma version_tree_impl get get' (stale stale' : stale_set) w es : version_tree get stale w es ->
  (forall q v node, wf_path q -> live stale w q v -> get (node_key_of v q) = Ok node -> get' (node_key_of v q) = Ok node) ->
  (forall i, stale' i -> stale i \/ w < stale_since_version i) -> version_tree get' stale' w es.
Proof.
  intros Ht Hg Hs. assert (Hl : forall q v, live stale w q v -> live stale' w q v).
  { intros q v [Ho Hl]. split; [done|]. intros since Hi. destruct (Hs _ Hi) as [Hi'|Hi']; [by apply Hl|done]. }
  destruct Ht as [Ht|(-> & Hn & Hgood & _)]; [left|right].
  - eapply tree_impl_wf; [exact Ht| |intros q v _; apply Hl|done]. intros q v node _. apply Hg.
  - split_and!; [done| |by apply Hl|done]. apply Hg; [split; [constructor|cbn; lia]|done|done].
Qed.

(** The indices that are written before version [ver]. *)
Definition stale_before (ver : Z) (stale : stale_set) : Prop := forall i, stale i ->
  0 <= stale_since_version i < ver /\ exists v q, sni_node_key i = node_key_of v q /\ wf_path q /\ old (stale_since_version i) v.

(** The tree that a batch starts from: that of the version before, that of a state
    restored without its history, or none. *)
Definition base_tree (reader : TreeReader) (stale : stale_set) (first : Z) (es : entries) : Prop :=
  if first =? 0 then
    match reader_get_node_option reader (node_key_of PRE_GENESIS_VERSION []) with
    | Ok None => es = []
    | Ok (Some _) => root_tree (reader_get_node reader)
        (fun q v => v = PRE_GENESIS_VERSION /\ forall since, ~ stale (mkStaleNodeIndex since (node_key_of v q)))
        (fun _ => True) PRE_GENESIS_VERSION es
    | _ => False
    end
  else es <> [] /\ version_tree (reader_get_node reader) stale (first - 1) es.

(** The entries after each transaction. *)
Fixpoint states (es : entries) (blob_sets : list (list (HashValue * AccountStateBlob))) : list entries :=
  match blob_sets with
  | [] => []
  | blobs :: blob_sets => let es' := put_entries blobs es in es' :: states es' blob_sets
  end.

(** Storage with the nodes of a batch. *)
Definition overlay (nodes : gmap NodeKey Node) (reader : TreeReader) : TreeReader :=
  mkTreeReader (fun k => match nodes !! k with Some node => Ok (Some node) | None => reader_get_node_option reader k end).

Definition add_stale (stale : stale_set) (more : gset StaleNodeIndex) : stale_set := fun i => stale i \/ i ∈ more.

(** What a batch from version [first] up to [ver] holds. *)
Record batch_ok (first ver : Z) (nodes : gmap NodeKey Node) (stale : gset StaleNodeIndex) : Prop := {
  batch_node k node : nodes !! k = Some node -> exists w q, k = node_key_of w q /\ first <= w < ver /\ wf_path q /\ stored_node node;
  batch_stale i : i ∈ stale -> first <= stale_since_version i < ver /\
    exists v q, sni_node_key i = node_key_of v q /\ wf_path q /\ old (stale_since_version i) v
}.

Section From.
Context (reader : TreeReader) (stale0 : stale_set) (first : Z).
Context (Hfirst : 0 <= first <= u64_max) (Hstale0 : stale_before first stale0).

Definition all_stale (s : TreeCache) : stale_set := add_stale stale0 (frozen_stale_node_index_cache (frozen_cache s)).
Definition dead_of (s : TreeCache) (k : NodeKey) : Prop := exists since, all_stale s (mkStaleNodeIndex since k).

Notation root_tree_in ver s := (root_tree (cache_get_node s) (good ver (dead_of s) s) (vacant ver s)).

(** Between transactions: version [ver] is next, the trees [hist] of the versions from
    [first] on are frozen, and the current entries are [es]. *)
Record between (ver : Z) (hist : list entries) (es : entries) (s : TreeCache) : Prop := {
  bt_version : next_version s = ver;
  bt_length : ver = first + Z.of_nat (length hist);
  bt_reader : tc_reader s = reader;
  bt_cache : cache_ok ver s;
  bt_clear : stale_node_index_cache s = ∅;
  bt_batch : batch_ok first ver (frozen_node_cache (frozen_cache s)) (frozen_stale_node_index_cache (frozen_cache s));
  bt_roots : root_hashes (frozen_cache s) = map (shash 0) hist;
  bt_hist j h : hist !! j = Some h ->
    version_tree (cache_get_node s) (all_stale s) (first + Z.of_nat j) h;
  bt_old w h : 0 <= w < first -> version_tree (reader_get_node reader) stale0 w h ->
    version_tree (cache_get_node s) (all_stale s) w h;
  bt_root : exists v, root_node_key s = node_key_of v [] /\ (0 < ver -> v = ver - 1 /\ es <> []) /\ root_tree_in ver s v es;
  bt_stale_roots w : first <= w < ver -> 0 < w ->
    mkStaleNodeIndex w (node_key_of (w - 1) []) ∈ frozen_stale_node_index_cache (frozen_cache s)
}.

Lemma dead_old ver hist es s : between ver hist es s -> forall k, dead_of s k -> old ver (nk_version k).
Proof.
  intros Hb k [since Hk]. pose proof (bt_length _ _ _ _ Hb). destruct Hk as [Hk|Hk].
  - destruct (Hstale0 _ Hk) as (Hs & v & q & E & _ & Ho). cbn in *. subst k. cbn. unfold old in *. lia.
  - destruct (batch_stale _ _ _ _ (bt_batch _ _ _ _ Hb) _ Hk) as (Hs & v & q & E & _ & Ho). cbn in *. subst k. cbn. unfold old in *. lia.
Qed.

Lemma all_stale_bound ver hist es s i : between ver hist es s -> all_stale s i -> stale_since_version i < ver.
Proof.
  intros Hb. pose proof (bt_length _ _ _ _ Hb). intros [Hi|Hi].
  - destruct (Hstale0 _ Hi) as (Hs & _). lia.
  - destruct (batch_stale _ _ _ _ (bt_batch _ _ _ _ Hb) _ Hi) as (Hs & _). lia.
Qed.

(** A tree of an older version reads none of the nodes of the version being written. *)
Lemma old_tree_get s s' ver w stale stale' h : cache_ok ver s -> cache_ok ver s' -> w < ver -> ver < u64_max ->
  frozen_cache s' = frozen_cache s -> tc_reader s' = tc_reader s ->
  (forall i, stale' i -> stale i \/ stale_since_version i = ver) ->
  version_tree (cache_get_node s) stale w h -> version_tree (cache_get_node s') stale' w h.
Proof.
  intros Hc Hc' Hw Hver Hf Hr Hst.
  assert (Hnone : forall t q v, cache_ok ver t -> Forall is_nibble q -> old (w + 1) v -> node_cache t !! node_key_of v q = None).
  { intros t q v Ht Hq Ho. destruct (node_cache t !! node_key_of v q) as [nd|] eqn:E; [|done].
    apply (cached_node _ _ Ht) in E as (q' & E & [Hq' _] & _). apply node_key_of_inj in E as [-> _]; [|done..].
    unfold old, PRE_GENESIS_VERSION in Ho. lia. }
  assert (Hget : forall q v node, Forall is_nibble q -> live stale w q v -> cache_get_node s (node_key_of v q) = Ok node ->
    cache_get_node s' (node_key_of v q) = Ok node).
  { intros q v node Hq [Ho _]. unfold cache_get_node. rewrite (Hnone s), (Hnone s'), Hf, Hr by done. done. }
  assert (Hlive : forall q v, live stale w q v -> live stale' w q v).
  { intros q v [Ho Hs]. split; [done|]. intros since Hi. apply Hst in Hi as [Hi|Hi]; [by apply Hs|]. cbn in Hi. lia. }
  intros [Ht|(-> & Hnull & Hg & _)].
  - left. eapply tree_impl; [done|..]; [|intros q v _; apply Hlive|done].
    intros q v node Hq Hl. apply Hget; [apply Hq|done].
  - right. split_and!; [done|by apply Hget|by apply Hlive|done].
Qed.

Lemma freeze_get s s' k : freeze s = (s', Ok tt) -> cache_get_node s' k = cache_get_node s k.
Proof.
  unfold freeze. destruct (root ← cache_get_node s (root_node_key s); node_hash root) as [h|e|]; [|done..]. intros [= <-].
  unfold cache_get_node. cbn. rewrite lookup_empty, lookup_union. by destruct (node_cache s !! k), (frozen_node_cache (frozen_cache s) !! k).
Qed.

Lemma version_tree_get get get' stale w h : (forall k node, get k = Ok node -> get' k = Ok node) ->
  version_tree get stale w h -> version_tree get' stale w h.
Proof.
  intros Hg [Ht|(-> & Hn & Hl & _)]; [left|right; split_and!; eauto]. eapply tree_impl; [done|..]; [|done|done]. intros q v node _ _. apply Hg.
Qed.

Lemma batch_ok_step ver s1 nodes stale : first <= ver -> cache_ok ver s1 -> batch_ok first ver nodes stale ->
  batch_ok first (ver + 1) (node_cache s1 ∪ nodes) (set_map (mkStaleNodeIndex ver) (stale_node_index_cache s1) ∪ stale).
Proof.
  intros Hle [Hc Hs] [Hn Hst]. split.
  - intros k node [Hk|[_ Hk]]%lookup_union_Some_raw.
    + apply Hc in Hk as (q & -> & Hq & Hnode). exists ver, q. split_and!; (done || lia).
    + apply Hn in Hk as (w & q & -> & Hw & Hq & Hnode). exists w, q. split_and!; (done || lia).
  - intros i [(k & -> & Hk)%elem_of_map|Hi]%elem_of_union.
    + apply Hs in Hk as (v & q & -> & Hq & Ho). cbn. split; [lia|]. by exists v, q.
    + destruct (Hst i Hi) as (Hw & Hi'). split; [lia|done].
Qed.

(** The transaction of version [ver]. *)
Lemma transaction_ok ver hist es s blobs : between ver hist es s -> ver < u64_max -> blobs <> [] ->
  exists s1 s2, put_all blobs ver s = (s1, Ok tt) /\ freeze s1 = (s2, Ok tt) /\
    between (ver + 1) (hist ++ [put_entries blobs es]) (put_entries blobs es) s2.
Proof.
  intros Hb Hver Hne. pose proof Hb as [Hv Hlen Hr Hc Hcl Hbat Hroots Hhist Hold (v & Hroot & Hprev0 & Ht) Hsr].
  assert (Hv0 : 0 <= ver < u64_max) by lia.
  destruct (put_all_ok ver Hv0 (dead_of s) blobs s v es Hc Hroot Ht Hne) as (s1 & E1 & Hc1 & [K1 K2 K3] & Hroot1 & Ht1).
  destruct (tree_node _ _ _ _ _ _ Ht1) as (node & Hnode & Hhash & _). cbn [length] in Hhash.
  set (es' := put_entries blobs es) in *.
  assert (Hfz : exists s2, freeze s1 = (s2, Ok tt) /\ next_version s2 = ver + 1 /\ tc_reader s2 = reader /\ node_cache s2 = ∅ /\
    stale_node_index_cache s2 = ∅ /\ root_node_key s2 = node_key_of ver [] /\
    frozen_node_cache (frozen_cache s2) = node_cache s1 ∪ frozen_node_cache (frozen_cache s) /\
    frozen_stale_node_index_cache (frozen_cache s2) = set_map (mkStaleNodeIndex ver) (stale_node_index_cache s1) ∪ frozen_stale_node_index_cache (frozen_cache s) /\
    root_hashes (frozen_cache s2) = root_hashes (frozen_cache s) ++ [shash 0 es']).
  { unfold freeze. rewrite Hroot1, Hnode. cbn [mbind result_bind]. rewrite Hhash. eexists. split; [done|]. cbn.
    rewrite K1, K2, K3, Hv. split_and!; try done. unfold u64_add, wrap64. rewrite Z.mod_small; [done|]. unfold u64_max in Hver. lia. }
  destruct Hfz as (s2 & E2 & F1 & F2 & F3 & F4 & F5 & F6 & F7 & F8). exists s1, s2. split; [done|]. split; [done|].
  assert (Hget : forall k, cache_get_node s2 k = cache_get_node s1 k) by (intros k; by eapply freeze_get).
  assert (Hstale2 : forall i, all_stale s2 i <-> all_stale s i \/ exists k, k ∈ stale_node_index_cache s1 /\ i = mkStaleNodeIndex ver k).
  { intros i. unfold all_stale, add_stale. rewrite F7, elem_of_union, elem_of_map. naive_solver. }
  assert (Hprev : forall w h, w < ver -> version_tree (cache_get_node s) (all_stale s) w h -> version_tree (cache_get_node s2) (all_stale s2) w h).
  { intros w h Hw Hvt. apply (version_tree_get (cache_get_node s1)); [by intros k nd; rewrite Hget|].
    apply (old_tree_get s s1 ver w (all_stale s)); try done. intros i [?|(k & _ & ->)]%Hstale2; [by left|by right]. }
  assert (Hnew : forall q w, good ver (dead_of s) s1 q w -> live (all_stale s2) ver q w).
  { intros q w [[-> _]|(Ho & Hns & Hnd & _)].
    - split; [unfold old; lia|]. intros since [Hs|(k & Hk & [= -> <-])]%Hstale2.
      + assert (Ho : old ver ver) by (apply (dead_old _ _ _ _ Hb (node_key_of ver q)); by exists since). by apply old_not_ver in Ho.
      + apply (stale_old _ _ Hc1) in Hk as (v' & q' & [= <- _] & _ & Ho). by apply old_not_ver in Ho.
    - split; [unfold old in *; lia|]. intros since [Hs|(k & Hk & [= -> <-])]%Hstale2; [|done]. exfalso. apply Hnd. by exists since. }
  assert (Htree : tree (cache_get_node s2) (live (all_stale s2) ver) (fun _ => True) [] ver es').
  { eapply tree_impl; [exact Ht1|..]; [|intros q w _; apply Hnew|done]. intros q w nd _ _. by rewrite Hget. }
  split; try done.
  - rewrite length_app. cbn [length]. lia.
  - split; [by rewrite F3|by rewrite F4].
  - rewrite F6, F7. apply (batch_ok_step ver s1); [lia|done|done].
  - by rewrite F8, Hroots, map_app.
  - intros j h Hj. apply lookup_app_Some in Hj as [Hj|[Hge Hj]].
    + apply Hprev; [|by apply Hhist]. apply lookup_lt_Some in Hj. lia.
    + apply list_lookup_singleton_Some in Hj as [Hj <-]. replace (first + Z.of_nat j) with ver by lia. by left.
  - intros w h Hw Hvt. apply Hprev; [lia|]. by apply Hold.
  - exists ver. split; [done|]. split; [intros _; split; [lia|by eapply tree_nonempty]|]. left. eapply tree_impl; [exact Htree|done| |].
    + intros q w _ [Ho Hs]. right. split_and!; [done|by rewrite F4|intros [since Hi]|by rewrite F3].
      specialize (Hs since Hi). apply Hstale2 in Hi as [Hi|(k & _ & [= -> _])]; [apply (all_stale_bound _ _ _ _ _ Hb) in Hi; cbn in Hi|]; lia.
    + intros q _ _ q' _. by rewrite F3.
  - intros w Hw Hw0. rewrite F7. apply elem_of_union. destruct (decide (w = ver)) as [->|]; [left|right; apply Hsr; lia].
    destruct (Hprev0 Hw0) as [-> Hes]. apply elem_of_map. exists (node_key_of (ver - 1) []). split; [done|].
    destruct Ht as [Ht|(-> & _)]; [|done]. destruct (tree_node _ _ _ _ _ _ Ht) as (nd & Hnd & Hnh & _).
    eapply put_all_stales; [exact Hroot|exact Hnd| | |exact Hne|exact E1].
    + intros ->. inversion Ht as [? ? ? ? Hg|? ? ? ? Hg]; subst; rewrite Hg in Hnd; discriminate Hnd.
    + destruct (node_cache s !! node_key_of (ver - 1) []) as [nd'|] eqn:En; [|done].
      apply (cached_node _ _ Hc) in En as (q & Eq & _). injection Eq as Eq _. lia.
Qed.

Definition fresh (root : NodeKey) (nodes : gmap NodeKey Node) : TreeCache :=
  mkTreeCache root first nodes 0 ∅ 0 (mkFrozenTreeCache ∅ 0 ∅ 0 []) reader.

Lemma fresh_stale root nodes i : all_stale (fresh root nodes) i <-> stale0 i.
Proof. unfold all_stale, add_stale. cbn. set_solver. Qed.

Lemma fresh_between root nodes es : cache_ok first (fresh root nodes) -> (nodes = ∅ \/ first = 0) ->
  (exists v, root = node_key_of v [] /\ (0 < first -> v = first - 1 /\ es <> []) /\ root_tree_in first (fresh root nodes) v es) ->
  between first [] es (fresh root nodes).
Proof.
  intros Hc Hn Hroot. split; try done.
  - cbn. lia.
  - intros w h Hw Hvt. destruct Hn as [->|]; [|lia].
    assert (Hvt' : version_tree (cache_get_node (fresh root ∅)) stale0 w h) by (eapply version_tree_get; [|exact Hvt]; done).
    destruct Hvt' as [Ht|(-> & Hg & [Ho Hs] & _)]; [left|right; split_and!; try done; split; [done|]; intros since Hi%fresh_stale; by apply Hs].
    eapply tree_impl; [exact Ht|done| |done]. intros q v _ [Ho Hs]. split; [done|]. intros since Hi%fresh_stale. by apply Hs.
  - intros w Hw. lia.
Qed.

(** A tree in storage is the current tree of a fresh cache. *)
Lemma fresh_tree good0 v es : (0 < first -> v = first - 1 /\ es <> []) -> (forall q w, good0 q w -> old first w /\ forall since, ~ stale0 (mkStaleNodeIndex since (node_key_of w q))) ->
  root_tree (reader_get_node reader) good0 (fun _ => True) v es -> between first [] es (fresh (node_key_of v []) ∅).
Proof.
  intros Hprev Hg Ht. apply fresh_between; [by split|by left|]. exists v. split; [done|]. split; [done|].
  assert (Hgood : forall q w, good0 q w -> good first (dead_of (fresh (node_key_of v []) ∅)) (fresh (node_key_of v []) ∅) q w).
  { intros q w Hq. apply Hg in Hq as [Ho Hs]. right. split_and!; [done|set_solver| |done]. intros [since Hi%fresh_stale]. by eapply Hs. }
  destruct Ht as [Ht|(-> & Hget & Hq & _)].
  - left. eapply tree_impl; [exact Ht|done|intros q w _; apply Hgood|done].
  - right. split_and!; [done|done|by apply Hgood|done].
Qed.

Lemma tree_cache_new_ok es : base_tree reader stale0 first es -> exists s, tree_cache_new reader first = Ok s /\ between first [] es s.
Proof.
  unfold base_tree, tree_cache_new. destruct (Z.eqb_spec first 0) as [E0|Hne].
  - change (node_key_new_empty_path ?v) with (node_key_of v []).
    destruct (reader_get_node_option reader (node_key_of PRE_GENESIS_VERSION [])) as [[node|]|e|]; try done; cbn [mbind result_bind].
    + intros Ht. eexists. split; [done|]. eapply fresh_tree; [lia| |exact Ht]. cbn. intros q w [-> Hs]. split; [by left|done].
    + intros ->. eexists. split; [done|]. replace (node_key_of 0 []) with (node_key_of first []) by congruence. apply fresh_between; [|by right|].
      * split; [|cbn; set_solver]. cbn. intros k node [<- <-]%lookup_singleton_Some. exists []. split_and!; [done|split; [done|cbn; lia]|done].
      * exists first. split; [done|]. split; [lia|]. right. split; [done|].
        assert (Hn : node_cache (fresh (node_key_of first []) {[ node_key_of first [] := Null ]}) !! node_key_of first [] = Some Null) by apply lookup_singleton_eq.
        split_and!; [unfold cache_get_node; by rewrite Hn|left; by eauto|]. intros i Hi q Hq. cbn [node_cache fresh]. apply lookup_singleton_ne. intros E.
        apply node_key_of_inj in E as [_ <-]; [|done|apply Hq]. by apply (below_self [] i) in Hq.
  - intros [Hes Ht]. eexists. split; [done|]. assert (E : u64_sub first 1 = first - 1).
    { unfold u64_sub, wrap64. apply Z.mod_small. unfold u64_max in Hfirst. lia. }
    cbn [mbind result_bind]. rewrite E. change (node_key_new_empty_path ?v) with (node_key_of v []).
    eapply fresh_tree; [done| |exact Ht]. intros q w [Ho Hs]. split; [unfold old in *; lia|]. intros since Hi.
    specialize (Hs since Hi). destruct (Hstale0 _ Hi) as [Hb _]. cbn in Hb. lia.
Qed.

Lemma put_sets_ok blob_sets : forall s hist es idx, between (first + Z.of_nat idx) hist es s -> Forall (fun b => b <> []) blob_sets ->
  first + Z.of_nat (idx + length blob_sets) <= u64_max -> exists s' es',
  put_sets blob_sets first idx s = (s', Ok tt) /\
  between (first + Z.of_nat (idx + length blob_sets)) (hist ++ states es blob_sets) es' s'.
Proof.
  induction blob_sets as [|blobs blob_sets IH]; intros s hist es idx Hb Hne Hmax; cbn [put_sets states].
  - exists s, es. rewrite app_nil_r, Nat.add_0_r. done.
  - apply list.Forall_cons in Hne as [Hbl Hne]. cbn [length] in Hmax.
    rewrite (m_bind_lift _ _ _ tt) by (by destruct blobs).
    assert (Ev : u64_add first (Z.of_nat idx) = first + Z.of_nat idx) by (unfold u64_add, wrap64; apply Z.mod_small; unfold u64_max in *; lia).
    destruct (transaction_ok (first + Z.of_nat idx) hist es s blobs Hb) as (s1 & s2 & E1 & E2 & Hb2); [lia|done|].
    rewrite Ev, (m_bind_run _ _ _ _ _ E1), (m_bind_run _ _ _ _ _ E2).
    replace (first + Z.of_nat idx + 1) with (first + Z.of_nat (S idx)) in Hb2 by lia.
    destruct (IH s2 _ _ (S idx) Hb2 Hne) as (s' & es' & E & Hb'); [lia|]. exists s', es'. rewrite E. split; [done|].
    cbn [length]. rewrite <- app_assoc in Hb'. replace (idx + S (length blob_sets))%nat with (S idx + length blob_sets)%nat by lia. done.
Qed.
End From.

Notation sparse_root := (sparse_root SparseMerkleInternalNode_hash SPARSE_MERKLE_PLACEHOLDER_HASH).

(** A batch on a tree: it succeeds, its root hashes are those of the reference trees, and
    with its nodes in storage every version from [first] on is readable as well as every
    older one; and the previous root becomes stale at each version. *)
Lemma put_blob_sets_ok reader stale first es blob_sets : 0 <= first -> stale_before first stale ->
  base_tree reader stale first es -> Forall (fun b => b <> []) blob_sets -> first + Z.of_nat (length blob_sets) < u64_max ->
  exists batch, put_blob_sets reader blob_sets first = Ok (map sparse_root (states es blob_sets), batch) /\
    batch_ok first (first + Z.of_nat (length blob_sets)) (node_batch batch) (stale_node_index_batch batch) /\
    let get := reader_get_node (overlay (node_batch batch) reader) in
    let stale' := add_stale stale (stale_node_index_batch batch) in
    (forall j h, states es blob_sets !! j = Some h -> version_tree get stale' (first + Z.of_nat j) h) /\
    (forall w h, 0 <= w < first -> version_tree (reader_get_node reader) stale w h -> version_tree get stale' w h) /\
    (forall w, first <= w < first + Z.of_nat (length blob_sets) -> 0 < w ->
      mkStaleNodeIndex w (node_key_of (w - 1) []) ∈ stale_node_index_batch batch).
Proof.
  intros Hf0 Hst Hbase Hne Hmax. assert (Hf : 0 <= first <= u64_max) by lia.
  destruct (tree_cache_new_ok reader stale first Hf Hst es Hbase) as (s & E & Hb).
  destruct (put_sets_ok reader stale first Hf Hst blob_sets s [] es 0) as (s' & es' & E' & Hb').
  { by rewrite Z.add_0_r. }
  { done. }
  { cbn [Nat.add]. lia. }
  cbn [app Nat.add] in Hb'. unfold put_blob_sets. rewrite E. cbn [mbind result_bind]. rewrite E'.
  exists (cache_into s').2. pose proof Hb' as [Hv Hl Hr Hc Hcl Hbat Hroots Hhist Hold _ Hsr].
  assert (Hnc : forall k v q, k = node_key_of v q -> old (first + Z.of_nat (length blob_sets)) v -> node_cache s' !! k = None).
  { intros k v q -> Ho. destruct (node_cache s' !! node_key_of v q) as [nd|] eqn:En; [|done]. apply (cached_node _ _ Hc) in En as (q' & [= -> _] & _).
    unfold old, PRE_GENESIS_VERSION in Ho. lia. }
  assert (Hov : forall w h, w < first + Z.of_nat (length blob_sets) -> version_tree (cache_get_node s') (all_stale stale s') w h ->
    version_tree (reader_get_node (overlay (node_batch (cache_into s').2) reader)) (add_stale stale (stale_node_index_batch (cache_into s').2)) w h).
  { intros w h Hw Hvt. assert (Hg : forall q v node, live (all_stale stale s') w q v -> cache_get_node s' (node_key_of v q) = Ok node ->
      reader_get_node (overlay (node_batch (cache_into s').2) reader) (node_key_of v q) = Ok node).
    { intros q v node [Ho _]. unfold cache_get_node, reader_get_node. cbn. rewrite (Hnc _ v q eq_refl) by (unfold old in *; lia).
      rewrite Hr. by destruct (frozen_node_cache (frozen_cache s') !! node_key_of v q). }
    destruct Hvt as [Ht|(-> & Hn & Hli & _)]; [left|right; split_and!; by eauto]. eapply tree_impl; [exact Ht| |done|done].
    intros q v node _. apply Hg. }
  split_and!.
  - unfold cache_into. rewrite Hroots. done.
  - apply Hbat.
  - intros j h Hj. apply Hov; [|by apply Hhist]. apply lookup_lt_Some in Hj. pose proof Hl. lia.
  - intros w h Hw Hvt. apply Hov; [lia|]. by apply Hold.
  - apply Hsr.
Qed.

(** C9: Writing the account states of a run of transactions to the Jellyfish Merkle tree
    in storage returns the roots of the reference sparse Merkle trees after each
    transaction, and a batch of new nodes with which storage holds the tree of every new
    version and still holds those of all earlier versions; the nodes that the batch marks
    stale are reached only by versions before the one they are stale since. *)
Theorem put_blob_sets_refines reader stale first es blob_sets : 0 <= first -> stale_before first stale ->
  base_tree reader stale first es -> Forall (fun b => b <> []) blob_sets -> first + Z.of_nat (length blob_sets) < u64_max ->
  exists batch, put_blob_sets reader blob_sets first = Ok (map sparse_root (states es blob_sets), batch) /\
    batch_ok first (first + Z.of_nat (length blob_sets)) (node_batch batch) (stale_node_index_batch batch) /\
    let get := reader_get_node (overlay (node_batch batch) reader) in
    let stale' := add_stale stale (stale_node_index_batch batch) in
    (forall j h, states es blob_sets !! j = Some h -> version_tree get stale' (first + Z.of_nat j) h) /\
    (forall w h, 0 <= w < first -> version_tree (reader_get_node reader) stale w h -> version_tree get stale' w h).
Proof.
  intros Hf Hst Hb Hne Hmax. destruct (put_blob_sets_ok reader stale first es blob_sets Hf Hst Hb Hne Hmax) as (batch & E & Hok & Hn & Ho & _). eauto.
Qed.
End Batch.
