(* ===== verification/Schema.v ===== *)
(** * The schemas of LibraDB

    [storage/libradb/src/schema]: how the keys and values of each column family are
    encoded.  Versions, epochs, sequence numbers and positions are big-endian, so that
    the order of the keys is the order of the numbers; structured values go through
    LCS, the class [Lcs]. *)

From S2P Require Import Prelude U64 Bytes Lcs SchemaDb LedgerCounters.
From S2P Require Import Crypto Hash Position Accumulator ValidatorVerifier LedgerInfo LedgerProof.
From S2P Require Import NibblePath NodeType NodeTypeProof NodeCodec JellyfishMerkle.

Definition EPOCH_BY_VERSION_CF_NAME : string := "epoch_by_version".
Definition EVENT_ACCUMULATOR_CF_NAME : string := "event_accumulator".
Definition EVENT_BY_KEY_CF_NAME : string := "event_by_key".
Definition EVENT_CF_NAME : string := "event".
Definition JELLYFISH_MERKLE_NODE_CF_NAME : string := "jellyfish_merkle_node".
Definition LEDGER_COUNTERS_CF_NAME : string := "ledger_counters".
Definition STALE_NODE_INDEX_CF_NAME : string := "stale_node_index".
Definition TRANSACTION_CF_NAME : string := "transaction".
Definition TRANSACTION_ACCUMULATOR_CF_NAME : string := "transaction_accumulator".
Definition TRANSACTION_BY_ACCOUNT_CF_NAME : string := "transaction_by_account".
Definition TRANSACTION_INFO_CF_NAME : string := "transaction_info".

Definition ensure_slice_len_eq (data : bytes) (len : nat) : result string unit :=
  ensure (length data =? len)%nat "Unexpected data len."%string.
Definition ensure_slice_len_gt (data : bytes) (len : nat) : result string unit :=
  ensure (len <? length data)%nat "Unexpected data len."%string.

(** [Ok(self.to_be_bytes().to_vec())] and its inverse. *)
Definition u64_encode (v : Z) : result string bytes := Ok (u64_be v).
Definition u64_decode (data : bytes) : result string Z :=
  _ ← ensure_slice_len_eq data 8; read_u64_be data.

(** Two [u64]s one after the other. *)
Definition u64_pair_encode (p : Z * Z) : result string bytes := Ok (u64_be p.1 ++ u64_be p.2).
Definition u64_pair_decode (data : bytes) : result string (Z * Z) :=
  _ ← ensure_slice_len_eq data 16;
  a ← read_u64_be (take 8 data);
  b ← read_u64_be (drop 8 data);
  Ok (a, b).

Definition account_address_bytes (a : AccountAddress) : bytes := to_be_bytes 16 a.
#[global] Arguments account_address_bytes : simpl never.
Definition ACCOUNT_ADDRESS_LENGTH : nat := 16.
Definition account_address_try_from (data : bytes) : result string AccountAddress :=
  _ ← ensure (length data =? ACCOUNT_ADDRESS_LENGTH)%nat "The Address is of invalid length"%string;
  Ok (from_be_bytes data).
Definition event_key_try_from (data : bytes) : result string bytes :=
  _ ← ensure (length data =? EVENT_KEY_LENGTH)%nat "The Event Key is of invalid length"%string;
  Ok data.

Section Schemas.
Context `{Crypto} `{B : !HashBytes}.
Context `{!Lcs LedgerInfoWithSignatures, !Lcs TransactionInfo, !Lcs Transaction, !Lcs ContractEvent, !Lcs LedgerCounters,
  !Lcs LeafNode}.

Definition EpochByVersionSchema : Schema Z Z := {|
  COLUMN_FAMILY_NAME := EPOCH_BY_VERSION_CF_NAME;
  encode_key := u64_encode; decode_key := u64_decode;
  encode_value := u64_encode; decode_value := u64_decode |}.

Definition LedgerInfoSchema : Schema Z LedgerInfoWithSignatures := {|
  COLUMN_FAMILY_NAME := DEFAULT_CF_NAME;
  encode_key := u64_encode; decode_key := u64_decode;
  encode_value := lcs_to_bytes; decode_value := lcs_from_bytes |}.

Definition TransactionInfoSchema : Schema Z TransactionInfo := {|
  COLUMN_FAMILY_NAME := TRANSACTION_INFO_CF_NAME;
  encode_key := u64_encode; decode_key := u64_decode;
  encode_value := lcs_to_bytes; decode_value := lcs_from_bytes |}.

Definition TransactionSchema : Schema Z Transaction := {|
  COLUMN_FAMILY_NAME := TRANSACTION_CF_NAME;
  encode_key := u64_encode; decode_key := u64_decode;
  encode_value := lcs_to_bytes; decode_value := lcs_from_bytes |}.

Definition LedgerCountersSchema : Schema Z LedgerCounters := {|
  COLUMN_FAMILY_NAME := LEDGER_COUNTERS_CF_NAME;
  encode_key := u64_encode; decode_key := u64_decode;
  encode_value := lcs_to_bytes; decode_value := lcs_from_bytes |}.

(** Positions are stored in post-order, the order in which nodes are completed. *)
Definition TransactionAccumulatorSchema : Schema Z HashValue := {|
  COLUMN_FAMILY_NAME := TRANSACTION_ACCUMULATOR_CF_NAME;
  encode_key position := Ok (u64_be (Position.to_postorder_index position));
  decode_key data := _ ← ensure_slice_len_eq data 8; i ← read_u64_be data; Ok (Position.from_postorder_index i);
  encode_value h := Ok (hash_to_vec h); decode_value := hash_from_slice |}.

Definition EventSchema : Schema (Z * Z) ContractEvent := {|
  COLUMN_FAMILY_NAME := EVENT_CF_NAME;
  encode_key := u64_pair_encode; decode_key := u64_pair_decode;
  encode_value := lcs_to_bytes; decode_value := lcs_from_bytes |}.

(** [impl SeekKeyCodec<EventSchema> for Version]. *)
Definition event_seek_key (version : Z) : bytes := u64_be version.

Definition EventAccumulatorSchema : Schema (Z * Z) HashValue := {|
  COLUMN_FAMILY_NAME := EVENT_ACCUMULATOR_CF_NAME;
  encode_key p := Ok (u64_be p.1 ++ u64_be (Position.to_inorder_index p.2));
  decode_key data :=
    _ ← ensure_slice_len_eq data 16;
    version ← read_u64_be (take 8 data);
    position ← read_u64_be (drop 8 data);
    Ok (version, Position.from_inorder_index position);
  encode_value h := Ok (hash_to_vec h); decode_value := hash_from_slice |}.

Definition EventByKeySchema : Schema (bytes * Z) (Z * Z) := {|
  COLUMN_FAMILY_NAME := EVENT_BY_KEY_CF_NAME;
  encode_key p := Ok (p.1 ++ u64_be p.2);
  decode_key data :=
    _ ← ensure_slice_len_eq data (EVENT_KEY_LENGTH + 8);
    event_key ← event_key_try_from (take EVENT_KEY_LENGTH data);
    seq_num ← read_u64_be (drop EVENT_KEY_LENGTH data);
    Ok (event_key, seq_num);
  encode_value := u64_pair_encode; decode_value := u64_pair_decode |}.

Definition TransactionByAccountSchema : Schema (AccountAddress * Z) Z := {|
  COLUMN_FAMILY_NAME := TRANSACTION_BY_ACCOUNT_CF_NAME;
  encode_key p := Ok (account_address_bytes p.1 ++ u64_be p.2);
  decode_key data :=
    _ ← ensure_slice_len_eq data (ACCOUNT_ADDRESS_LENGTH + 8);
    address ← account_address_try_from (take ACCOUNT_ADDRESS_LENGTH data);
    seq_num ← read_u64_be (drop ACCOUNT_ADDRESS_LENGTH data);
    Ok (address, seq_num);
  encode_value := u64_encode; decode_value := u64_decode |}.

Definition JellyfishMerkleNodeSchema : Schema NodeKey Node := {|
  COLUMN_FAMILY_NAME := JELLYFISH_MERKLE_NODE_CF_NAME;
  encode_key := node_key_encode; decode_key := node_key_decode;
  encode_value := node_encode; decode_value := node_decode |}.

(** [impl SeekKeyCodec<JellyfishMerkleNodeSchema> for (Version, u8)]. *)
Definition node_seek_key (version num_nibbles : Z) : bytes := u64_be version ++ [num_nibbles].

Definition StaleNodeIndexSchema : Schema StaleNodeIndex unit := {|
  COLUMN_FAMILY_NAME := STALE_NODE_INDEX_CF_NAME;
  encode_key index := key ← node_key_encode (sni_node_key index); Ok (u64_be (stale_since_version index) ++ key);
  decode_key data :=
    _ ← ensure_slice_len_gt data 8;
    stale_since_version ← read_u64_be (take 8 data);
    node_key ← node_key_decode (drop 8 data);
    Ok (mkStaleNodeIndex stale_since_version node_key);
  encode_value _ := Ok [];
  decode_value data := ensure_slice_len_eq data 0 |}.

(** [impl SeekKeyCodec<StaleNodeIndexSchema> for Version]. *)
Definition stale_seek_key (version : Z) : bytes := u64_be version.

(** ** Round trips *)

Lemma u64_decode_encode v : is_u64 v -> exists raw, u64_encode v = Ok raw /\ u64_decode raw = Ok v.
Proof.
  intros Hv. eexists. split; [done|]. unfold u64_decode, ensure_slice_len_eq. rewrite u64_be_length. cbn.
  by apply read_u64_be_exact.
Qed.

Lemma u64_pair_decode_encode a b : is_u64 a -> is_u64 b ->
  exists raw, u64_pair_encode (a, b) = Ok raw /\ u64_pair_decode raw = Ok (a, b).
Proof.
  intros Ha Hb. eexists. split; [done|]. unfold u64_pair_decode, ensure_slice_len_eq. cbn [fst snd].
  rewrite length_app, !u64_be_length. cbn [Nat.add Nat.eqb ensure mbind result_bind].
  rewrite take_app_length', drop_app_length' by (by rewrite u64_be_length). by rewrite !read_u64_be_exact.
Qed.

#[export] Instance EpochByVersionSchema_laws : SchemaLaws EpochByVersionSchema.
Proof.
  refine {| key_ok := is_u64; value_ok := is_u64 |}; cbn.
  - apply u64_decode_encode.
  - intros v raw (raw' & E & D)%u64_decode_encode. congruence.
Defined.

Context `{!LcsLaws LedgerInfoWithSignatures, !LcsLaws TransactionInfo, !LcsLaws Transaction, !LcsLaws ContractEvent,
  !LcsLaws LedgerCounters, !LcsLaws LeafNode, !HashBytesLaws B}.

#[export] Instance LedgerInfoSchema_laws : SchemaLaws LedgerInfoSchema.
Proof.
  refine {| key_ok := is_u64; value_ok := fun _ => True |}; cbn; [apply u64_decode_encode|].
  intros v raw _. apply lcs_roundtrip.
Defined.

#[export] Instance TransactionInfoSchema_laws : SchemaLaws TransactionInfoSchema.
Proof.
  refine {| key_ok := is_u64; value_ok := fun _ => True |}; cbn; [apply u64_decode_encode|].
  intros v raw _. apply lcs_roundtrip.
Defined.

#[export] Instance TransactionSchema_laws : SchemaLaws TransactionSchema.
Proof.
  refine {| key_ok := is_u64; value_ok := fun _ => True |}; cbn; [apply u64_decode_encode|].
  intros v raw _. apply lcs_roundtrip.
Defined.

#[export] Instance LedgerCountersSchema_laws : SchemaLaws LedgerCountersSchema.
Proof.
  refine {| key_ok := is_u64; value_ok := fun _ => True |}; cbn; [apply u64_decode_encode|].
  intros v raw _. apply lcs_roundtrip.
Defined.

#[export] Instance EventSchema_laws : SchemaLaws EventSchema.
Proof.
  refine {| key_ok := fun p => is_u64 p.1 /\ is_u64 p.2; value_ok := fun _ => True |}; cbn.
  - intros [a b] [Ha Hb]. by apply u64_pair_decode_encode.
  - intros v raw _. apply lcs_roundtrip.
Defined.

Lemma hash_roundtrip h raw : Ok (hash_to_vec h) = Ok (E:=string) raw -> hash_from_slice raw = Ok h.
Proof.
  intros [= <-]. unfold hash_from_slice, hash_to_vec. rewrite hash_bytes_length, Nat.eqb_refl. cbn. by rewrite hash_new_bytes.
Qed.

(** Positions that are stored: below the top level. *)
Definition stored_position (v : Z) : Prop := exists l p, valid_node l p /\ l < 63 /\ v = inorder l p.

Lemma to_postorder_u64 v : stored_position v -> is_u64 (Position.to_postorder_index v).
Proof.
  intros (l & p & Hv & Hl & ->). unfold Position.to_postorder_index, Position.to_inorder_index.
  rewrite inorder_to_postorder_inorder by done. destruct Hv as (? & ? & Hb).
  pose proof (count_ones64_le p). pose proof (count_ones64_nonneg p). unfold is_u64.
  rewrite Z.pow_add_r in * by lia. assert (0 < 2 ^ l) by (apply pow2_pos; lia). nia.
Qed.

#[export] Instance TransactionAccumulatorSchema_laws : SchemaLaws TransactionAccumulatorSchema.
Proof.
  refine {| key_ok := stored_position; value_ok := fun _ => True |}; cbn.
  - intros v Hv. eexists. split; [done|]. unfold ensure_slice_len_eq. rewrite u64_be_length. cbn.
    rewrite read_u64_be_exact by (by apply to_postorder_u64). cbn. f_equal.
    destruct Hv as (l & p & Hv & Hl & ->). by apply postorder_roundtrip.
  - intros v raw _. apply hash_roundtrip.
Defined.

#[export] Instance EventAccumulatorSchema_laws : SchemaLaws EventAccumulatorSchema.
Proof.
  refine {| key_ok := fun p => is_u64 p.1 /\ is_u64 p.2; value_ok := fun _ => True |}; cbn.
  - intros [a b] [Ha Hb]. cbn [fst snd] in *. unfold Position.to_inorder_index.
    destruct (u64_pair_decode_encode a b Ha Hb) as (raw & [= <-] & D). eexists. split; [done|exact D].
  - intros v raw _. apply hash_roundtrip.
Defined.

#[export] Instance EventByKeySchema_laws : SchemaLaws EventByKeySchema.
Proof.
  refine {| key_ok := fun p => length p.1 = EVENT_KEY_LENGTH /\ is_u64 p.2; value_ok := fun p => is_u64 p.1 /\ is_u64 p.2 |}; cbn.
  - intros [k s] [Hk Hs]. cbn [fst snd] in *. eexists. split; [done|]. unfold ensure_slice_len_eq.
    rewrite length_app, u64_be_length, Hk. cbn [Nat.add Nat.eqb ensure mbind result_bind].
    rewrite take_app_length', drop_app_length' by done. unfold event_key_try_from. rewrite Hk. cbn.
    by rewrite read_u64_be_exact.
  - intros [a b] raw [Ha Hb] E. destruct (u64_pair_decode_encode a b Ha Hb) as (raw' & E' & D). congruence.
Defined.

Definition is_address (a : AccountAddress) : Prop := 0 <= a < 256 ^ 16.

#[export] Instance TransactionByAccountSchema_laws : SchemaLaws TransactionByAccountSchema.
Proof.
  refine {| key_ok := fun p => is_address p.1 /\ is_u64 p.2; value_ok := is_u64 |}; cbn.
  - intros [k s] [Hk Hs]. cbn [fst snd] in *. eexists. split; [done|]. unfold ensure_slice_len_eq.
    assert (Hl : length (account_address_bytes k) = ACCOUNT_ADDRESS_LENGTH) by apply to_be_bytes_length.
    rewrite length_app, u64_be_length, Hl. cbn [Nat.add Nat.eqb ensure mbind result_bind ACCOUNT_ADDRESS_LENGTH].
    rewrite take_app_length', drop_app_length' by done. unfold account_address_try_from. rewrite Hl. cbn.
    rewrite read_u64_be_exact by done. cbn. do 2 f_equal.
    change (from_be_bytes (to_be_bytes 16 k) = k). rewrite from_to_be_bytes. by apply Z.mod_small.
  - intros v raw (raw' & E & D)%u64_decode_encode. congruence.
Defined.

(** The keys of nodes: a version and a path of nibbles. *)
Definition node_key_ok (k : NodeKey) : Prop := exists v l, k = node_key_of v l /\ is_u64 v /\ wf_path l.

Lemma node_key_codec k : node_key_ok k -> exists raw, node_key_encode k = Ok raw /\ node_key_decode raw = Ok k.
Proof. intros (v & l & -> & Hv & Hl). destruct (node_key_roundtrip v l Hv Hl) as (raw & ? & _ & ?). eauto. Qed.

#[export] Instance JellyfishMerkleNodeSchema_laws : SchemaLaws JellyfishMerkleNodeSchema.
Proof. refine {| key_ok := node_key_ok; value_ok := wf_node |}; cbn; [apply node_key_codec|apply node_codec]. Defined.

Lemma stale_key_length k raw : node_key_encode k = Ok raw -> (0 < length raw)%nat.
Proof.
  intros E. assert (El : length (ok_bytes (node_key_encode k)) = length raw) by (by rewrite E).
  unfold node_key_encode in El. cbn [ok_bytes] in El. rewrite length_app, u64_be_length in El. lia.
Qed.

#[export] Instance StaleNodeIndexSchema_laws : SchemaLaws StaleNodeIndexSchema.
Proof.
  refine {| key_ok := fun i => is_u64 (stale_since_version i) /\ node_key_ok (sni_node_key i); value_ok := fun _ => True |}; cbn.
  - intros [since k] [Hs Hk]. cbn in Hs, Hk. destruct (node_key_codec k Hk) as (raw & E & D). cbn. rewrite E. eexists. split; [done|].
    pose proof (stale_key_length k raw E). unfold ensure_slice_len_gt. rewrite length_app, u64_be_length.
    rewrite (proj2 (Nat.ltb_lt _ _)) by lia. cbn [ensure mbind result_bind].
    rewrite take_app_length', drop_app_length' by (by rewrite u64_be_length). by rewrite read_u64_be_exact, D.
  - by intros [] raw _ [= <-].
Defined.
End Schemas.
