(* ===== verification/Tables.v ===== *)
(** * The tables of LibraDB

    The column families of LibraDB as finite maps: [tables db T] says that the raw
    database holds the rows of [T], and [batch_tables b W] that a batch puts the rows
    of [W].  Reads, batches and writes through the schemas then act on the maps, which
    is how the stores above are reasoned about. *)

From S2P Require Import Prelude U64 Bytes Lcs SchemaDb LedgerCounters.
From S2P Require Import Crypto Hash Position Accumulator ValidatorVerifier LedgerInfo LedgerProof Schema.
From S2P Require Import NodeType JellyfishMerkle.

Section Tables.
Context `{Crypto} `{B : !HashBytes, !HashBytesLaws B}.
Context `{!Lcs LedgerInfoWithSignatures, !Lcs TransactionInfo, !Lcs Transaction, !Lcs ContractEvent, !Lcs LedgerCounters,
  !Lcs LeafNode}.
Context `{!LcsLaws LedgerInfoWithSignatures, !LcsLaws TransactionInfo, !LcsLaws Transaction, !LcsLaws ContractEvent,
  !LcsLaws LedgerCounters, !LcsLaws LeafNode}.
Context {rocks raw_iter : Type} `{!RocksDB rocks raw_iter, !RocksDBLaws rocks raw_iter}.

Record Tables := mkTables {
  t_epoch_by_version : gmap Z Z;
  t_ledger_info : gmap Z LedgerInfoWithSignatures;
  t_transaction_info : gmap Z TransactionInfo;
  t_transaction : gmap Z Transaction;
  t_transaction_accumulator : gmap Z HashValue;
  t_event : gmap (Z * Z) ContractEvent;
  t_event_accumulator : gmap (Z * Z) HashValue;
  t_event_by_key : gmap (bytes * Z) (Z * Z);
  t_transaction_by_account : gmap (AccountAddress * Z) Z;
  t_ledger_counters : gmap Z LedgerCounters;
  t_jellyfish_merkle_node : gmap NodeKey Node;
  t_stale_node_index : gmap StaleNodeIndex unit
}.

(** Tables are equal column by column. *)
Lemma tables_ext W1 W2 : t_epoch_by_version W1 = t_epoch_by_version W2 ->
  t_ledger_info W1 = t_ledger_info W2 ->
  t_transaction_info W1 = t_transaction_info W2 ->
  t_transaction W1 = t_transaction W2 ->
  t_transaction_accumulator W1 = t_transaction_accumulator W2 ->
  t_event W1 = t_event W2 ->
  t_event_accumulator W1 = t_event_accumulator W2 ->
  t_event_by_key W1 = t_event_by_key W2 ->
  t_transaction_by_account W1 = t_transaction_by_account W2 ->
  t_ledger_counters W1 = t_ledger_counters W2 ->
  t_jellyfish_merkle_node W1 = t_jellyfish_merkle_node W2 ->
  t_stale_node_index W1 = t_stale_node_index W2 -> W1 = W2.
Proof. destruct W1, W2. cbn. by intros -> -> -> -> -> -> -> -> -> -> -> ->. Qed.

Definition tables_empty : Tables := mkTables ∅ ∅ ∅ ∅ ∅ ∅ ∅ ∅ ∅ ∅ ∅ ∅.

(** The rows of [W], and those of [T] under other keys. *)
Definition tables_union (W T : Tables) : Tables := {|
  t_epoch_by_version := t_epoch_by_version W ∪ t_epoch_by_version T;
  t_ledger_info := t_ledger_info W ∪ t_ledger_info T;
  t_transaction_info := t_transaction_info W ∪ t_transaction_info T;
  t_transaction := t_transaction W ∪ t_transaction T;
  t_transaction_accumulator := t_transaction_accumulator W ∪ t_transaction_accumulator T;
  t_event := t_event W ∪ t_event T;
  t_event_accumulator := t_event_accumulator W ∪ t_event_accumulator T;
  t_event_by_key := t_event_by_key W ∪ t_event_by_key T;
  t_transaction_by_account := t_transaction_by_account W ∪ t_transaction_by_account T;
  t_ledger_counters := t_ledger_counters W ∪ t_ledger_counters T;
  t_jellyfish_merkle_node := t_jellyfish_merkle_node W ∪ t_jellyfish_merkle_node T;
  t_stale_node_index := t_stale_node_index W ∪ t_stale_node_index T |}.

Record tables (db : rocks) (T : Tables) : Prop := {
  col_epoch_by_version : column EpochByVersionSchema db (t_epoch_by_version T);
  col_ledger_info : column LedgerInfoSchema db (t_ledger_info T);
  col_transaction_info : column TransactionInfoSchema db (t_transaction_info T);
  col_transaction : column TransactionSchema db (t_transaction T);
  col_transaction_accumulator : column TransactionAccumulatorSchema db (t_transaction_accumulator T);
  col_event : column EventSchema db (t_event T);
  col_event_accumulator : column EventAccumulatorSchema db (t_event_accumulator T);
  col_event_by_key : column EventByKeySchema db (t_event_by_key T);
  col_transaction_by_account : column TransactionByAccountSchema db (t_transaction_by_account T);
  col_ledger_counters : column LedgerCountersSchema db (t_ledger_counters T);
  col_jellyfish_merkle_node : column JellyfishMerkleNodeSchema db (t_jellyfish_merkle_node T);
  col_stale_node_index : column StaleNodeIndexSchema db (t_stale_node_index T)
}.

Record batch_tables (b : SchemaBatch) (W : Tables) : Prop := {
  rows_epoch_by_version : batch_rows EpochByVersionSchema b (t_epoch_by_version W);
  rows_ledger_info : batch_rows LedgerInfoSchema b (t_ledger_info W);
  rows_transaction_info : batch_rows TransactionInfoSchema b (t_transaction_info W);
  rows_transaction : batch_rows TransactionSchema b (t_transaction W);
  rows_transaction_accumulator : batch_rows TransactionAccumulatorSchema b (t_transaction_accumulator W);
  rows_event : batch_rows EventSchema b (t_event W);
  rows_event_accumulator : batch_rows EventAccumulatorSchema b (t_event_accumulator W);
  rows_event_by_key : batch_rows EventByKeySchema b (t_event_by_key W);
  rows_transaction_by_account : batch_rows TransactionByAccountSchema b (t_transaction_by_account W);
  rows_ledger_counters : batch_rows LedgerCountersSchema b (t_ledger_counters W);
  rows_jellyfish_merkle_node : batch_rows JellyfishMerkleNodeSchema b (t_jellyfish_merkle_node W);
  rows_stale_node_index : batch_rows StaleNodeIndexSchema b (t_stale_node_index W)
}.

Lemma batch_tables_new : batch_tables batch_new tables_empty.
Proof. split; apply batch_rows_new. Qed.

Lemma write_tables db T b W db' : tables db T -> batch_tables b W ->
  write_schemas (mkDB db) b = Ok (mkDB db') -> tables db' (tables_union W T).
Proof. intros [] [] Hw. split; by eapply write_rows. Qed.

(** ** Changing one table *)

Definition on_epoch_by_version (f : gmap Z Z -> gmap Z Z) (W : Tables) : Tables := mkTables
  (f (t_epoch_by_version W)) (t_ledger_info W) (t_transaction_info W) (t_transaction W)
  (t_transaction_accumulator W) (t_event W) (t_event_accumulator W) (t_event_by_key W)
  (t_transaction_by_account W) (t_ledger_counters W) (t_jellyfish_merkle_node W) (t_stale_node_index W).
Definition on_ledger_info (f : gmap Z LedgerInfoWithSignatures -> gmap Z LedgerInfoWithSignatures) (W : Tables) : Tables := mkTables
  (t_epoch_by_version W) (f (t_ledger_info W)) (t_transaction_info W) (t_transaction W)
  (t_transaction_accumulator W) (t_event W) (t_event_accumulator W) (t_event_by_key W)
  (t_transaction_by_account W) (t_ledger_counters W) (t_jellyfish_merkle_node W) (t_stale_node_index W).
Definition on_transaction_info (f : gmap Z TransactionInfo -> gmap Z TransactionInfo) (W : Tables) : Tables := mkTables
  (t_epoch_by_version W) (t_ledger_info W) (f (t_transaction_info W)) (t_transaction W)
  (t_transaction_accumulator W) (t_event W) (t_event_accumulator W) (t_event_by_key W)
  (t_transaction_by_account W) (t_ledger_counters W) (t_jellyfish_merkle_node W) (t_stale_node_index W).
Definition on_transaction (f : gmap Z Transaction -> gmap Z Transaction) (W : Tables) : Tables := mkTables
  (t_epoch_by_version W) (t_ledger_info W) (t_transaction_info W) (f (t_transaction W))
  (t_transaction_accumulator W) (t_event W) (t_event_accumulator W) (t_event_by_key W)
  (t_transaction_by_account W) (t_ledger_counters W) (t_jellyfish_merkle_node W) (t_stale_node_index W).
Definition on_transaction_accumulator (f : gmap Z HashValue -> gmap Z HashValue) (W : Tables) : Tables := mkTables
  (t_epoch_by_version W) (t_ledger_info W) (t_transaction_info W) (t_transaction W)
  (f (t_transaction_accumulator W)) (t_event W) (t_event_accumulator W) (t_event_by_key W)
  (t_transaction_by_account W) (t_ledger_counters W) (t_jellyfish_merkle_node W) (t_stale_node_index W).
Definition on_event (f : gmap (Z * Z) ContractEvent -> gmap (Z * Z) ContractEvent) (W : Tables) : Tables := mkTables
  (t_epoch_by_version W) (t_ledger_info W) (t_transaction_info W) (t_transaction W) (t_transaction_accumulator W)
  (f (t_event W)) (t_event_accumulator W) (t_event_by_key W) (t_transaction_by_account W) (t_ledger_counters W)
  (t_jellyfish_merkle_node W) (t_stale_node_index W).
Definition on_event_accumulator (f : gmap (Z * Z) HashValue -> gmap (Z * Z) HashValue) (W : Tables) : Tables := mkTables
  (t_epoch_by_version W) (t_ledger_info W) (t_transaction_info W) (t_transaction W) (t_transaction_accumulator W)
  (t_event W) (f (t_event_accumulator W)) (t_event_by_key W) (t_transaction_by_account W) (t_ledger_counters W)
  (t_jellyfish_merkle_node W) (t_stale_node_index W).
Definition on_event_by_key (f : gmap (bytes * Z) (Z * Z) -> gmap (bytes * Z) (Z * Z)) (W : Tables) : Tables := mkTables
  (t_epoch_by_version W) (t_ledger_info W) (t_transaction_info W) (t_transaction W) (t_transaction_accumulator W)
  (t_event W) (t_event_accumulator W) (f (t_event_by_key W)) (t_transaction_by_account W) (t_ledger_counters W)
  (t_jellyfish_merkle_node W) (t_stale_node_index W).
Definition on_transaction_by_account (f : gmap (AccountAddress * Z) Z -> gmap (AccountAddress * Z) Z) (W : Tables) : Tables := mkTables
  (t_epoch_by_version W) (t_ledger_info W) (t_transaction_info W) (t_transaction W) (t_transaction_accumulator W)
  (t_event W) (t_event_accumulator W) (t_event_by_key W) (f (t_transaction_by_account W)) (t_ledger_counters W)
  (t_jellyfish_merkle_node W) (t_stale_node_index W).
Definition on_ledger_counters (f : gmap Z LedgerCounters -> gmap Z LedgerCounters) (W : Tables) : Tables := mkTables
  (t_epoch_by_version W) (t_ledger_info W) (t_transaction_info W) (t_transaction W) (t_transaction_accumulator W)
  (t_event W) (t_event_accumulator W) (t_event_by_key W) (t_transaction_by_account W) (f (t_ledger_counters W))
  (t_jellyfish_merkle_node W) (t_stale_node_index W).
Definition on_jellyfish_merkle_node (f : gmap NodeKey Node -> gmap NodeKey Node) (W : Tables) : Tables := mkTables
  (t_epoch_by_version W) (t_ledger_info W) (t_transaction_info W) (t_transaction W) (t_transaction_accumulator W)
  (t_event W) (t_event_accumulator W) (t_event_by_key W) (t_transaction_by_account W) (t_ledger_counters W)
  (f (t_jellyfish_merkle_node W)) (t_stale_node_index W).
Definition on_stale_node_index (f : gmap StaleNodeIndex unit -> gmap StaleNodeIndex unit) (W : Tables) : Tables := mkTables
  (t_epoch_by_version W) (t_ledger_info W) (t_transaction_info W) (t_transaction W) (t_transaction_accumulator W)
  (t_event W) (t_event_accumulator W) (t_event_by_key W) (t_transaction_by_account W) (t_ledger_counters W)
  (t_jellyfish_merkle_node W) (f (t_stale_node_index W)).

(** The table of a schema: changing it, and what putting a row does. *)
Class TableOf {K V : Type} `{Countable K} (S : Schema K V) `{!SchemaLaws S} := {
  on_table : (gmap K V -> gmap K V) -> Tables -> Tables;
  on_table_id W : on_table id W = W;
  on_table_comp f g W : on_table f (on_table g W) = on_table (f ∘ g) W;
  put_table b W k v b' : batch_tables b W -> key_ok S k -> value_ok S v -> batch_put S b k v = Ok b' ->
    batch_tables b' (on_table <[k := v]> W)
}.

(** A row goes into its own column family; the others have other names. *)
Ltac put_tables :=
  [> by intros [] | by intros f g [] |
   intros b W k v b' [] Hk Hv Hp; split;
   first [eapply batch_put_rows; [eassumption|exact Hk|exact Hv|exact Hp]
         |eapply batch_put_other; [|exact Hp|eassumption]; discriminate]].

#[export] Instance epoch_by_version_table : TableOf EpochByVersionSchema.
Proof. refine {| on_table := on_epoch_by_version |}; put_tables. Defined.
#[export] Instance ledger_info_table : TableOf LedgerInfoSchema.
Proof. refine {| on_table := on_ledger_info |}; put_tables. Defined.
#[export] Instance transaction_info_table : TableOf TransactionInfoSchema.
Proof. refine {| on_table := on_transaction_info |}; put_tables. Defined.
#[export] Instance transaction_table : TableOf TransactionSchema.
Proof. refine {| on_table := on_transaction |}; put_tables. Defined.
#[export] Instance transaction_accumulator_table : TableOf TransactionAccumulatorSchema.
Proof. refine {| on_table := on_transaction_accumulator |}; put_tables. Defined.
#[export] Instance event_table : TableOf EventSchema.
Proof. refine {| on_table := on_event |}; put_tables. Defined.
#[export] Instance event_accumulator_table : TableOf EventAccumulatorSchema.
Proof. refine {| on_table := on_event_accumulator |}; put_tables. Defined.
#[export] Instance event_by_key_table : TableOf EventByKeySchema.
Proof. refine {| on_table := on_event_by_key |}; put_tables. Defined.
#[export] Instance transaction_by_account_table : TableOf TransactionByAccountSchema.
Proof. refine {| on_table := on_transaction_by_account |}; put_tables. Defined.
#[export] Instance ledger_counters_table : TableOf LedgerCountersSchema.
Proof. refine {| on_table := on_ledger_counters |}; put_tables. Defined.
#[export] Instance jellyfish_merkle_node_table : TableOf JellyfishMerkleNodeSchema.
Proof. refine {| on_table := on_jellyfish_merkle_node |}; put_tables. Defined.
#[export] Instance stale_node_index_table : TableOf StaleNodeIndexSchema.
Proof. refine {| on_table := on_stale_node_index |}; put_tables. Defined.

Section PutTable.
Context {K V : Type} `{Countable K} (S : Schema K V) `{!SchemaLaws S, !TableOf S}.

(** Rows that the schema can store. *)
Definition storable (row : K * V) : Prop :=
  key_ok S row.1 /\ value_ok S row.2 /\ is_ok (encode_value S row.2) = true.

Lemma cs_put_table cs W k v : storable (k, v) -> batch_tables (cs_batch cs) W -> exists cs',
  cs_put S cs k v = Ok cs' /\ batch_tables (cs_batch cs') (on_table <[k := v]> W) /\
  cs_counter_bumps cs' = cs_counter_bumps cs.
Proof.
  intros (Hk & Hv & He) Hb. destruct (batch_put_total S (cs_batch cs) k v Hk He) as [b' E].
  exists (mkChangeSet b' (cs_counter_bumps cs)). split_and!; [unfold cs_put; by rewrite E|by eapply put_table|done].
Qed.

Lemma cs_put_all_table rows : forall cs W, Forall storable rows -> batch_tables (cs_batch cs) W -> exists cs',
  cs_put_all S rows cs = Ok cs' /\ batch_tables (cs_batch cs') (on_table (map_put rows) W) /\
  cs_counter_bumps cs' = cs_counter_bumps cs.
Proof.
  induction rows as [|[k v] rows IH]; intros cs W Hok Hb; unfold cs_put_all; cbn [result_fold].
  - exists cs. split_and!; [done| |done]. change (map_put []) with (@id (gmap K V)). by rewrite on_table_id.
  - apply list.Forall_cons in Hok as [Hkv Hok]. destruct (cs_put_table cs W k v Hkv Hb) as (cs1 & E1 & Hb1 & Hc1).
    cbn [fst snd]. rewrite E1. cbn [mbind result_bind]. destruct (IH cs1 _ Hok Hb1) as (cs' & E & Hb' & Hc').
    exists cs'. split_and!; [exact E| |congruence]. by rewrite on_table_comp in Hb'.
Qed.

(** The same on a batch that is not yet part of a change set. *)
Lemma batch_put_all_table rows b W : Forall storable rows -> batch_tables b W -> exists b',
  result_fold (fun b row => batch_put S b row.1 row.2) rows b = Ok b' /\ batch_tables b' (on_table (map_put rows) W).
Proof.
  intros Hok Hb. destruct (cs_put_all_table rows (mkChangeSet b ∅) W Hok Hb) as (cs' & E & Hb' & _).
  exists (cs_batch cs'). split; [|done]. clear Hb Hb' Hok. revert b E. unfold cs_put_all.
  induction rows as [|row rows IH]; intros b E; cbn [result_fold] in *; [by injection E as <-|].
  apply bind_Ok in E as (cs1 & E1 & E). unfold cs_put in E1. cbn [cs_batch] in E1. apply bind_Ok in E1 as (b1 & Eb & [= <-]).
  rewrite Eb. cbn [mbind result_bind]. by apply IH.
Qed.
End PutTable.

Lemma tables_unique db T1 T2 : tables db T1 -> tables db T2 -> T1 = T2.
Proof. intros [] []. apply tables_ext; by eapply column_unique. Qed.

(** ** Deletions *)

Lemma delete_nodes_tables {A} (key : A -> NodeKey) db T (l : list A) : tables db T -> Forall (fun x => node_key_ok (key x)) l ->
  exists b, result_fold (fun b x => batch_delete JellyfishMerkleNodeSchema b (key x)) l batch_new = Ok b /\ (forall cf ops, b !! cf = Some ops -> cf_handle db cf = true) /\
    forall db', write_schemas (mkDB db) b = Ok (mkDB db') -> tables db' (on_jellyfish_merkle_node (without (map key l)) T).
Proof.
  intros [] Hl. destruct (batch_delete_all_rows JellyfishMerkleNodeSchema key l batch_new []) as (b & E & Hb & Ho).
  { split; [by intros k ?%elem_of_nil|]. intros rk op. unfold batch_column, batch_new. by rewrite lookup_empty. }
  { exact Hl. }
  exists b. split; [done|]. split.
  { intros cf ops Hcf. destruct (decide (cf = COLUMN_FAMILY_NAME JellyfishMerkleNodeSchema)) as [->|Hne]; [by apply (column_open JellyfishMerkleNodeSchema) in col_jellyfish_merkle_node0|].
    rewrite Ho in Hcf by done. unfold batch_new in Hcf. by rewrite lookup_empty in Hcf. }
  intros db' Hw.
  assert (Hother : forall K V `{Countable K} (S : Schema K V) `{!SchemaLaws S} m, COLUMN_FAMILY_NAME S <> COLUMN_FAMILY_NAME JellyfishMerkleNodeSchema ->
    column S db m -> column S db' m).
  { intros K V HK HC S HS m Hne Hc. rewrite <- (left_id_L ∅ (∪) m). eapply write_rows; [exact Hc| |exact Hw].
    assert (Eb : batch_column S b = ∅) by (unfold batch_column; by rewrite Ho).
    split; [by intros k v ?%lookup_empty_Some|]. rewrite Eb. by intros rk op ?%lookup_empty_Some. }
  split; cbn; try (eapply Hother; [done|eassumption]). by eapply write_deletes.
Qed.

Lemma range_delete_tables db T b e db' : tables db T -> range_delete StaleNodeIndexSchema (mkDB db) b e = Ok (mkDB db') ->
  tables db' (on_stale_node_index (outside StaleNodeIndexSchema b e) T).
Proof.
  intros [] Hw. split; cbn; try (eapply range_delete_other; [|eassumption|exact Hw]; done). by eapply range_delete_rows.
Qed.

(** ** Numeric keys *)

(** Schemas whose keys are [u64]s. *)
Class NumericKey {V : Type} (S : Schema Z V) `{!SchemaLaws S} : Prop := {
  numeric_encode k : encode_key S k = Ok (u64_be k);
  numeric_ok k : key_ok S k <-> is_u64 k
}.
#[export] Instance EpochByVersion_numeric : NumericKey EpochByVersionSchema.
Proof. by split. Qed.
#[export] Instance LedgerInfo_numeric : NumericKey LedgerInfoSchema.
Proof. by split. Qed.
#[export] Instance TransactionInfo_numeric : NumericKey TransactionInfoSchema.
Proof. by split. Qed.
#[export] Instance Transaction_numeric : NumericKey TransactionSchema.
Proof. by split. Qed.
#[export] Instance LedgerCounters_numeric : NumericKey LedgerCountersSchema.
Proof. by split. Qed.

(** Rows under [u64] keys come in the order of the keys. *)
Section NumericKeys.
Context {V : Type} (S : Schema Z V) `{!SchemaLaws S, !NumericKey S}.

Lemma numeric_raw_key k : raw_key S k = u64_be k.
Proof. unfold raw_key. by rewrite numeric_encode. Qed.

Lemma numeric_leb a b : is_u64 a -> is_u64 b -> bytes_leb (u64_be a) (raw_key S b) = (a <=? b).
Proof.
  intros Ha Hb. unfold bytes_leb. rewrite numeric_raw_key, bytes_ltb_u64 by done.
  destruct (Z.ltb_spec b a), (Z.leb_spec a b); (done || lia).
Qed.

Lemma numeric_leb_r a b : is_u64 a -> is_u64 b -> bytes_leb (raw_key S a) (u64_be b) = (a <=? b).
Proof.
  intros Ha Hb. unfold bytes_leb. rewrite numeric_raw_key, bytes_ltb_u64 by done.
  destruct (Z.ltb_spec b a), (Z.leb_spec a b); (done || lia).
Qed.

Definition ascending (l : list (Z * V)) : Prop := Sorted.StronglySorted (fun r1 r2 => r1.1 < r2.1) l.

Lemma numeric_sorted (m : gmap Z V) : (forall k v, m !! k = Some v -> key_ok S k) -> ascending (sorted_rows S m).
Proof.
  intros Hm. pose proof (sorted_rows_sorted S m Hm) as Hs.
  assert (Hin : Forall (fun r => is_u64 r.1) (sorted_rows S m)).
  { apply list.Forall_forall. intros [k v] Hr%sorted_rows_elem. by eapply numeric_ok, Hm. }
  revert Hin. induction Hs as [|r l _ IH Hf]; intros Hin; constructor; apply list.Forall_cons in Hin as [Hr Hin].
  - by apply IH.
  - rewrite list.Forall_forall in *. intros r' Hr'. specialize (Hf r' Hr'). unfold row_lt, bytes_lt in Hf.
    rewrite !numeric_raw_key, bytes_ltb_u64 in Hf by (done || by apply Hin). by apply Z.ltb_lt in Hf.
Qed.

Lemma filter_ascending f l : ascending l -> ascending (List.filter f l).
Proof.
  unfold ascending. induction 1 as [|r l _ IH Hf]; cbn; [constructor|]. destruct (f r); [|done].
  constructor; [done|]. by apply Forall_list_filter.
Qed.

Lemma ascending_NoDup l : ascending l -> NoDup l.
Proof.
  unfold ascending. induction 1 as [|r l _ IH Hf]; constructor; [|done]. intros Hin.
  rewrite list.Forall_forall in Hf. specialize (Hf r Hin). lia.
Qed.

Lemma ascending_unique l1 l2 : ascending l1 -> ascending l2 -> (forall r, r ∈ l1 <-> r ∈ l2) -> l1 = l2.
Proof.
  intros H1 H2 Hin. apply (sorting.StronglySorted_unique_strong (fun r1 r2 : Z * V => r1.1 < r2.1)); [lia|done|done|].
  apply NoDup_Permutation; [by apply ascending_NoDup..|done].
Qed.

(** *** Tables of consecutive rows *)

Definition indexed (k : Z) (l : list V) : list (Z * V) := imap (fun i x => (k + Z.of_nat i, x)) l.

Lemma indexed_cons k x l : indexed k (x :: l) = (k, x) :: indexed (k + 1) l.
Proof. unfold indexed. cbn. f_equal; [f_equal; lia|]. apply imap_ext. intros i y _. cbn. f_equal. lia. Qed.

Lemma indexed_snoc k l x : indexed k (l ++ [x]) = indexed k l ++ [(k + Z.of_nat (length l), x)].
Proof. unfold indexed. rewrite imap_app. cbn. rewrite Nat.add_0_r. done. Qed.

Lemma indexed_last l : head (take 1 (rev (indexed 0 l))) = (fun x => (Z.of_nat (length l) - 1, x)) <$> list.last l.
Proof.
  destruct l as [|x l _] using rev_ind; [done|]. rewrite indexed_snoc, rev_unit, last_snoc, length_app. cbn.
  repeat f_equal. lia.
Qed.

Lemma indexed_elem k l v x : (v, x) ∈ indexed k l <-> k <= v /\ l !! Z.to_nat (v - k) = Some x.
Proof.
  unfold indexed. rewrite elem_of_lookup_imap. split.
  - intros (i & y & [= -> ->] & Hi). split; [lia|]. by replace (Z.to_nat (k + Z.of_nat i - k)) with i by lia.
  - intros [Hk Hi]. exists (Z.to_nat (v - k)), x. split; [f_equal; lia|done].
Qed.

Lemma indexed_ascending l : forall k, ascending (indexed k l).
Proof.
  induction l as [|x l IH]; intros k; [constructor|]. rewrite indexed_cons. constructor; [apply IH|].
  apply list.Forall_forall. intros [v y] [Hv _]%indexed_elem. cbn. lia.
Qed.

(** The rows are those of [l], under 0 and up. *)
Definition dense (m : gmap Z V) (l : list V) : Prop :=
  forall v, m !! v = if 0 <=? v then l !! Z.to_nat v else None.

Lemma indexed_zip l : forall k, zip (seqZ k (Z.of_nat (length l))) l = indexed k l.
Proof.
  induction l as [|x l IH]; intros k; [by destruct (seqZ _ _)|]. cbn [length]. rewrite Nat2Z.inj_succ, seqZ_cons by lia.
  rewrite indexed_cons. cbn [zip_with]. replace (Z.pred (Z.succ (Z.of_nat (length l)))) with (Z.of_nat (length l)) by lia.
  f_equal. apply IH.
Qed.

Lemma dense_put m l new : dense m l -> dense (map_put (indexed (Z.of_nat (length l)) new) m) (l ++ new).
Proof.
  intros Hm v. destruct (decide (v ∈ (indexed (Z.of_nat (length l)) new).*1)) as [Hv|Hv].
  - apply list_elem_of_fmap in Hv as ([v' x] & -> & Hv). cbn [fst]. pose proof Hv as [Hle Hx]%indexed_elem.
    rewrite (map_put_elem _ _ _ x Hv).
    2:{ intros y [_ Hy]%indexed_elem. congruence. }
    destruct (Z.leb_spec 0 v'); [|lia]. rewrite lookup_app_r by lia.
    by replace (Z.to_nat v' - length l)%nat with (Z.to_nat (v' - Z.of_nat (length l))) by lia.
  - rewrite map_put_notin, Hm by done. destruct (Z.leb_spec 0 v); [|done].
    destruct (decide (Z.to_nat v < length l)%nat); [by rewrite lookup_app_l by lia|].
    rewrite lookup_app_r, (lookup_ge_None_2 l) by lia. symmetry. apply eq_None_not_Some. intros [x Hx]. apply Hv.
    apply list_elem_of_fmap. exists (v, x). split; [done|]. apply indexed_elem. split; [lia|].
    by replace (Z.to_nat (v - Z.of_nat (length l))) with (Z.to_nat v - length l)%nat by lia.
Qed.

Section Dense.
Context (db : rocks) (m : gmap Z V) (l : list V) (Hc : column S db m) (Hm : dense m l).

Lemma dense_column_keys k v : m !! k = Some v -> key_ok S k.
Proof. intros Hkv. by apply (column_row S _ _ Hc k v). Qed.

Lemma dense_lookup v x : m !! v = Some x <-> 0 <= v /\ l !! Z.to_nat v = Some x.
Proof. rewrite Hm. destruct (Z.leb_spec 0 v); naive_solver lia. Qed.

Lemma dense_key v x : 0 <= v -> l !! Z.to_nat v = Some x -> is_u64 v.
Proof. intros Hv Hx. apply numeric_ok, (dense_column_keys v x), dense_lookup. done. Qed.

Lemma dense_sorted : sorted_rows S m = indexed 0 l.
Proof.
  apply ascending_unique; [apply numeric_sorted, dense_column_keys|apply indexed_ascending|]. intros [v x].
  rewrite sorted_rows_elem, indexed_elem, dense_lookup, Z.sub_0_r. done.
Qed.

Lemma dense_from k : is_u64 k -> rows_from S (u64_be k) m = indexed k (drop (Z.to_nat k) l).
Proof.
  intros Hk. apply ascending_unique; [|apply indexed_ascending|].
  { unfold rows_from. rewrite dense_sorted. apply filter_ascending, indexed_ascending. }
  intros [v x]. unfold rows_from. rewrite dense_sorted. rewrite list_elem_of_In, filter_In, <- list_elem_of_In.
  rewrite !indexed_elem, lookup_drop, Z.sub_0_r. cbn [fst]. unfold is_u64 in Hk. split.
  - intros [[Hv Hx] Hle]. rewrite numeric_leb in Hle by (done || by apply (dense_key v x)). apply Z.leb_le in Hle.
    split; [done|]. by replace (Z.to_nat k + Z.to_nat (v - k))%nat with (Z.to_nat v) by lia.
  - intros [Hv Hx]. replace (Z.to_nat k + Z.to_nat (v - k))%nat with (Z.to_nat v) in Hx by lia.
    split; [split; [lia|done]|]. rewrite numeric_leb by (done || apply (dense_key v x); (lia || done)). lia.
Qed.

Lemma dense_to k : is_u64 k -> rows_to S (u64_be k) m = indexed 0 (take (Z.to_nat (k + 1)) l).
Proof.
  intros Hk. apply ascending_unique; [|apply indexed_ascending|].
  { unfold rows_to. rewrite dense_sorted. apply filter_ascending, indexed_ascending. }
  intros [v x]. unfold rows_to. rewrite dense_sorted. rewrite list_elem_of_In, filter_In, <- list_elem_of_In.
  rewrite !indexed_elem, Z.sub_0_r. cbn [fst]. unfold is_u64 in Hk. split.
  - intros [[Hv Hx] Hle]. rewrite numeric_leb_r in Hle by (done || by apply (dense_key v x)). apply Z.leb_le in Hle.
    split; [done|]. by rewrite lookup_take_lt by lia.
  - intros [Hv Hx]. apply lookup_take_Some in Hx as [Hx Hlt].
    split; [split; [lia|done]|]. rewrite numeric_leb_r by (done || apply (dense_key v x); (lia || done)). lia.
Qed.
End Dense.
End NumericKeys.
End Tables.
