(* ===== verification/LedgerStoreProof.v ===== *)
(** * Correctness of the ledger store

    The rows of transaction infos and of accumulator nodes represent a list of
    transaction infos ([ledger_rows]).  Appending to the store keeps the representation,
    and the proofs it serves for any earlier ledger version verify against the root of
    that version.  The index of epoch endings is that of the stored ledger infos. *)

From S2P Require Import Prelude U64 Bytes Lcs SchemaDb LedgerCounters.
From S2P Require Import Crypto Hash Position Accumulator AccumulatorProof ProofSoundness MerkleAccumulator.
From S2P Require Import ValidatorVerifier LedgerInfo LedgerProof NodeType Schema Tables LedgerStore.

Section LedgerStoreProof.
Context `{Crypto} `{B : !HashBytes, !HashBytesLaws B, !LedgerHashers}.
Context `{!CryptoHash TransactionInfo}.
Context `{!Lcs LedgerInfoWithSignatures, !Lcs TransactionInfo, !Lcs Transaction, !Lcs ContractEvent, !Lcs LedgerCounters,
  !Lcs LeafNode}.
Context `{!LcsLaws LedgerInfoWithSignatures, !LcsLaws TransactionInfo, !LcsLaws Transaction, !LcsLaws ContractEvent,
  !LcsLaws LedgerCounters, !LcsLaws LeafNode}.
Context {rocks raw_iter : Type} `{!RocksDB rocks raw_iter, !RocksDBLaws rocks raw_iter}.

Notation txn_nhash := (nhash TransactionAccumulatorInternalNode_hash ACCUMULATOR_PLACEHOLDER_HASH).
Notation txn_tree_root := (tree_root TransactionAccumulatorInternalNode_hash ACCUMULATOR_PLACEHOLDER_HASH).
Notation txn_reader_ok := (reader_ok TransactionAccumulatorInternalNode_hash ACCUMULATOR_PLACEHOLDER_HASH).
Notation leaves_of := (map (crypto_hash (T:=TransactionInfo))).

(** ** Iterators *)

Lemma iter_next_yields {K V} (S : Schema K V) `{!SchemaLaws S} (it : SchemaIterator raw_iter) l :
  yields S it l -> iter_next S it = Ok (head l).
Proof.
  destruct l as [|r l]; intros Hy; unfold iter_next.
  - by rewrite (next_nil S it Hy).
  - destruct (next_cons S it r l Hy) as (it' & E & _). by rewrite E.
Qed.

(** An iterator that returns the elements of [l] and then ends, by its own measure of
    what is left. *)
Lemma iter_collect_list {It A : Type} (next : It -> It * result string (option A)) (left : It -> list A -> Prop) :
  (forall it, left it [] -> (next it).2 = Ok None) ->
  (forall it a l, left it (a :: l) -> exists it', next it = (it', Ok (Some a)) /\ left it' l) ->
  forall l it fuel, left it l -> (length l < fuel)%nat -> iter_collect next fuel it = Ok l.
Proof.
  intros Hnil Hcons. induction l as [|a l IH]; intros it fuel Hl Hf; (destruct fuel as [|fuel]; [cbn in Hf; lia|]); cbn [iter_collect].
  - specialize (Hnil it Hl). destruct (next it) as [it' r]. cbn in Hnil. by subst r.
  - destruct (Hcons it a l Hl) as (it' & E & Hl'). rewrite E, (IH it' fuel Hl') by (cbn in Hf; lia). done.
Qed.

(** ** Transaction infos and their accumulator *)

Record ledger_rows (ti : gmap Z TransactionInfo) (ta : gmap Z HashValue) (infos : list TransactionInfo) : Prop := {
  rows_length : Z.of_nat (length infos) < 2 ^ 63;
  rows_info : dense ti infos;
  rows_node l p : 0 <= l -> 0 <= p -> (p + 1) * 2 ^ l <= Z.of_nat (length infos) ->
    ta !! inorder l p = Some (txn_nhash (leaves_of infos) l p)
}.

Lemma ledger_rows_nil : ledger_rows ∅ ∅ [].
Proof.
  split; [done| |].
  - intros v. rewrite lookup_empty. by destruct (0 <=? v), (Z.to_nat v).
  - intros l p Hl Hp Hb. cbn in Hb. assert (0 < 2 ^ l) by (apply pow2_pos; lia). nia.
Qed.

Lemma stored_position_full l p n : 0 <= l -> 0 <= p -> (p + 1) * 2 ^ l <= n -> n < 2 ^ 63 -> stored_position (inorder l p).
Proof.
  intros Hl Hp Hb Hn. exists l, p. split_and!; [apply valid_node_full; lia| |done]. apply (level_lt_63 (@nil HashValue) l p); lia.
Qed.

Lemma ls_db_inner (self : LedgerStore (rocks:=rocks)) : ls_db self = mkDB (inner (ls_db self)).
Proof. by destruct (ls_db self). Qed.

Section Reads.
Context (self : LedgerStore (rocks:=rocks)) (T : Tables) (infos : list TransactionInfo).
Context (Htab : tables (inner (ls_db self)) T).
Context (Hrows : ledger_rows (t_transaction_info T) (t_transaction_accumulator T) infos).

Lemma store_reader_ok n : (n <= length infos)%nat -> txn_reader_ok self (take n (leaves_of infos)) (Z.of_nat n).
Proof.
  intros Hn l p Hl Hp Hb. unfold reader_get, ledger_store_reader. rewrite ls_db_inner.
  rewrite (column_get _ _ (t_transaction_accumulator T)); [|by destruct Htab|].
  2:{ apply (stored_position_full l p (Z.of_nat (length infos))); try done; [lia|]. by destruct Hrows. }
  rewrite (rows_node _ _ _ Hrows) by (done || lia). cbn. f_equal.
  rewrite <- (take_drop n (leaves_of infos)) at 1. apply nhash_app; try done. rewrite length_take, length_map. lia.
Qed.

Lemma get_transaction_info_rows v i : is_u64 v -> infos !! Z.to_nat v = Some i -> get_transaction_info self v = Ok i.
Proof.
  intros Hv Hi. unfold get_transaction_info. rewrite ls_db_inner.
  rewrite (column_get _ _ (t_transaction_info T)) by (done || by destruct Htab).
  rewrite (rows_info _ _ _ Hrows). destruct (Z.leb_spec 0 v); [|unfold is_u64 in Hv; lia]. by rewrite Hi.
Qed.

Lemma get_latest_transaction_info_rows : get_latest_transaction_info_option self =
  Ok ((fun i => (Z.of_nat (length infos) - 1, i)) <$> list.last infos).
Proof.
  unfold get_latest_transaction_info_option. rewrite ls_db_inner.
  destruct (seek_to_last_yields TransactionInfoSchema (inner (ls_db self)) (t_transaction_info T)) as (it & E & Hy);
    [by destruct Htab|]. rewrite E. cbn [mbind result_bind]. rewrite (iter_next_yields _ _ _ Hy). f_equal.
  rewrite (dense_sorted TransactionInfoSchema _ _ _ (col_transaction_info _ _ Htab) (rows_info _ _ _ Hrows)).
  apply indexed_last.
Qed.

(** *** The iterator of transaction infos *)

Definition infos_left (it : TransactionInfoIter (raw_iter:=raw_iter)) (l : list TransactionInfo) : Prop :=
  0 <= tii_expected_next_version it /\ is_u64 (tii_end_version it) /\
  exists rest, yields TransactionInfoSchema (tii_inner it) (indexed (tii_expected_next_version it) (l ++ rest)) /\
    (tii_end_version it = tii_expected_next_version it + Z.of_nat (length l) \/
     rest = [] /\ tii_expected_next_version it + Z.of_nat (length l) <= tii_end_version it).

Lemma infos_left_nil it : infos_left it [] -> (transaction_info_iter_next it).2 = Ok None.
Proof.
  intros (_ & _ & rest & Hy & Hend). unfold transaction_info_iter_next.
  destruct (Z.leb_spec (tii_end_version it) (tii_expected_next_version it)); [done|].
  destruct Hend as [Hend|[-> Hend]]; [cbn in Hend; lia|]. by rewrite (next_nil _ _ Hy).
Qed.

Lemma infos_left_cons it i l : infos_left it (i :: l) ->
  exists it', transaction_info_iter_next it = (it', Ok (Some i)) /\ infos_left it' l.
Proof.
  intros (H0' & Hu & rest & Hy & Hend). unfold transaction_info_iter_next, is_u64 in *. cbn [length] in Hend.
  destruct (Z.leb_spec (tii_end_version it) (tii_expected_next_version it)); [lia|].
  cbn [app] in Hy. rewrite indexed_cons in Hy. destruct (next_cons _ _ _ _ Hy) as (it' & E & Hy'). rewrite E.
  rewrite Z.eqb_refl. eexists. split; [reflexivity|].
  unfold infos_left. cbn [tii_expected_next_version tii_end_version tii_inner].
  rewrite u64_add_small by lia. split_and!; [lia|done|]. exists rest. split; [exact Hy'|].
  destruct Hend as [?|[? ?]]; [left; lia|right; split; [done|lia]].
Qed.

(** The iterator returns the infos from [start] on, [n] of them or as many as there are. *)
Lemma transaction_info_iter_rows start n fuel : is_u64 start -> 0 <= n -> start + n < 2 ^ 64 -> (Z.to_nat n < fuel)%nat ->
  exists it, get_transaction_info_iter self start n = Ok it /\
    iter_collect transaction_info_iter_next fuel it = Ok (take (Z.to_nat n) (drop (Z.to_nat start) infos)).
Proof.
  intros Hs Hn Hb Hf. unfold get_transaction_info_iter. rewrite ls_db_inner.
  destruct (seek_yields TransactionInfoSchema (inner (ls_db self)) (t_transaction_info T) (u64_be start)) as (it & E & Hy);
    [by destruct Htab|]. rewrite E. cbn [mbind result_bind encode_key TransactionInfoSchema u64_encode].
  unfold is_u64 in Hs. rewrite u64_checked_add_small by lia.
  cbn [ok_or mbind result_bind]. eexists. split; [reflexivity|].
  apply (iter_collect_list _ infos_left infos_left_nil infos_left_cons).
  2:{ rewrite length_take. lia. }
  rewrite (dense_from TransactionInfoSchema _ _ _ (col_transaction_info _ _ Htab) (rows_info _ _ _ Hrows)) in Hy
    by (unfold is_u64; lia).
  unfold infos_left, is_u64. cbn [tii_expected_next_version tii_end_version tii_inner]. split_and!; [lia..|].
  exists (drop (Z.to_nat n) (drop (Z.to_nat start) infos)). rewrite take_drop. split; [exact Hy|].
  rewrite length_take. destruct (decide (Z.to_nat n <= length (drop (Z.to_nat start) infos))%nat); [left; lia|].
  right. split; [apply drop_ge; lia|lia].
Qed.

(** *** What is served at a ledger version *)

Section AtVersion.
Context (ledger_version : Z) (Hlv : 0 <= ledger_version < Z.of_nat (length infos)).

Definition leaves_at : list HashValue := leaves_of (take (Z.to_nat (ledger_version + 1)) infos).

Lemma leaves_at_length : Z.of_nat (length leaves_at) = ledger_version + 1.
Proof. unfold leaves_at. rewrite length_map, length_take. lia. Qed.

Lemma leaves_at_bound : 0 < Z.of_nat (length leaves_at) <= 2 ^ 63.
Proof. rewrite leaves_at_length. pose proof (rows_length _ _ _ Hrows). lia. Qed.

Lemma reader_at : txn_reader_ok self leaves_at (Z.of_nat (length leaves_at)).
Proof.
  unfold leaves_at. rewrite <- firstn_map, length_take, length_map, Nat.min_l by lia. apply store_reader_ok. lia.
Qed.

Lemma view_at : u64_add ledger_version 1 = Z.of_nat (length leaves_at).
Proof. rewrite leaves_at_length. pose proof (rows_length _ _ _ Hrows). apply u64_add_small. lia. Qed.

Lemma leaves_at_lookup version i : 0 <= version <= ledger_version -> infos !! Z.to_nat version = Some i ->
  leaves_at !! Z.to_nat version = Some (crypto_hash i).
Proof. intros Hv Hi. unfold leaves_at. rewrite list_lookup_fmap, lookup_take_lt by lia. by rewrite Hi. Qed.

(** The info of an earlier version, with a proof against the root of the ledger version. *)
Lemma get_transaction_info_with_proof_rows version i : 0 <= version <= ledger_version ->
  infos !! Z.to_nat version = Some i ->
  exists pf, get_transaction_info_with_proof self version ledger_version = Ok (mkTransactionInfoWithProof pf i) /\
    accumulator_proof_verify TransactionAccumulatorInternalNode_hash pf (txn_tree_root leaves_at) (crypto_hash i) version = Ok tt.
Proof.
  intros Hv Hi. unfold get_transaction_info_with_proof, get_transaction_proof. rewrite view_at.
  rewrite (get_proof_view _ _ self leaves_at leaves_at_bound reader_at) by (rewrite leaves_at_length; lia).
  cbn [mbind result_bind].
  assert (Hu : is_u64 version) by (pose proof (rows_length _ _ _ Hrows); unfold is_u64; lia).
  rewrite (get_transaction_info_rows version i Hu Hi). cbn [mbind result_bind].
  eexists. split; [reflexivity|]. apply inclusion_complete; [lia|apply leaves_at_bound|by apply leaves_at_lookup].
Qed.

Lemma get_transaction_range_proof_rows version m : 0 <= version -> (0 < m)%nat -> version + Z.of_nat m <= ledger_version + 1 ->
  exists pf, get_transaction_range_proof self (Some version) (Z.of_nat m) ledger_version = Ok pf /\
    range_proof_verify TransactionAccumulatorInternalNode_hash pf (txn_tree_root leaves_at) (Some version)
      (leaves_of (take m (drop (Z.to_nat version) infos))) = Ok tt.
Proof.
  intros Hv Hm Hb. unfold get_transaction_range_proof. rewrite view_at.
  rewrite (get_range_proof_view _ _ self leaves_at leaves_at_bound reader_at) by (rewrite ?leaves_at_length; lia).
  eexists. split; [reflexivity|].
  assert (E : leaves_of (take m (drop (Z.to_nat version) infos)) = take m (drop (Z.to_nat version) leaves_at)).
  { unfold leaves_at. rewrite skipn_map, firstn_map. f_equal.
    apply list_eq. intros k. destruct (decide (k < m)%nat).
    - rewrite !lookup_take_lt by done. rewrite !lookup_drop, lookup_take_lt by lia. done.
    - rewrite !lookup_take_ge by lia. done. }
  rewrite E. apply range_complete; [lia|done|apply leaves_at_bound|rewrite leaves_at_length; lia].
Qed.

Lemma get_consistency_proof_rows known_version : 0 <= known_version <= ledger_version ->
  exists pf, ledger_get_consistency_proof self known_version ledger_version = Ok pf /\
    append_subtrees TransactionAccumulatorInternalNode_hash ACCUMULATOR_PLACEHOLDER_HASH
      (accumulator_of TransactionAccumulatorInternalNode_hash ACCUMULATOR_PLACEHOLDER_HASH
         (leaves_of (take (Z.to_nat (known_version + 1)) infos)))
      (subtrees pf) (ledger_version - known_version) =
    Ok (accumulator_of TransactionAccumulatorInternalNode_hash ACCUMULATOR_PLACEHOLDER_HASH leaves_at).
Proof.
  intros Hk. unfold ledger_get_consistency_proof. rewrite view_at, u64_add_small by (pose proof (rows_length _ _ _ Hrows); lia).
  rewrite (get_consistency_proof_view _ _ self leaves_at leaves_at_bound reader_at) by (rewrite leaves_at_length; lia).
  eexists. split; [reflexivity|]. cbn [subtrees]. rewrite leaves_at_length.
  set (L1 := leaves_of (take (Z.to_nat (known_version + 1)) infos)).
  assert (HL1 : Z.of_nat (length L1) = known_version + 1) by (unfold L1; rewrite length_map, length_take; lia).
  set (L2 := drop (Z.to_nat (known_version + 1)) leaves_at).
  assert (E : leaves_at = L1 ++ L2).
  { unfold L1, L2. rewrite <- (take_drop (Z.to_nat (known_version + 1)) leaves_at) at 1. f_equal.
    unfold leaves_at. rewrite firstn_map, take_take. do 2 f_equal. lia. }
  pose proof leaves_at_length as Hl. pose proof leaves_at_bound as Hb. rewrite E, length_app in Hl, Hb. rewrite E, <- HL1.
  replace (ledger_version + 1 - Z.of_nat (length L1)) with (Z.of_nat (length L2)) by lia.
  replace (ledger_version - known_version) with (Z.of_nat (length L2)) by lia.
  apply append_subtrees_accumulator_of; [rewrite length_app; lia|lia].
Qed.

Lemma get_tree_state_rows i : get_tree_state self (u64_add ledger_version 1) i =
  Ok (mkTreeState (ledger_version + 1)
        (frozen_subtree_roots (accumulator_of TransactionAccumulatorInternalNode_hash ACCUMULATOR_PLACEHOLDER_HASH leaves_at))
        (ti_state_root_hash i)).
Proof.
  unfold get_tree_state. rewrite view_at.
  rewrite (get_frozen_subtree_hashes_view _ _ self leaves_at leaves_at_bound reader_at).
  unfold accumulator_of. cbn [mbind result_bind frozen_subtree_roots]. rewrite leaves_at_length. reflexivity.
Qed.
End AtVersion.
End Reads.

(** *** Appending transaction infos *)

Lemma put_nodes_rows ta (L : list HashValue) new (writes : list (Z * HashValue)) :
  Z.of_nat (length (L ++ new)) < 2 ^ 63 ->
  (forall l p, 0 <= l -> 0 <= p -> (p + 1) * 2 ^ l <= Z.of_nat (length L) -> ta !! inorder l p = Some (txn_nhash L l p)) ->
  (forall k h, (k, h) ∈ writes <-> exists l p, 0 <= l /\ 0 <= p /\
     Z.of_nat (length L) < (p + 1) * 2 ^ l <= Z.of_nat (length (L ++ new)) /\ k = inorder l p /\ h = txn_nhash (L ++ new) l p) ->
  forall l p, 0 <= l -> 0 <= p -> (p + 1) * 2 ^ l <= Z.of_nat (length (L ++ new)) ->
    map_put writes ta !! inorder l p = Some (txn_nhash (L ++ new) l p).
Proof.
  intros Hlen Hold Hw l p Hl Hp Hb. assert (Hv : valid_node l p) by (apply valid_node_full; lia).
  assert (Huniq : forall h, (inorder l p, h) ∈ writes -> h = txn_nhash (L ++ new) l p /\ Z.of_nat (length L) < (p + 1) * 2 ^ l).
  { intros h (l' & p' & Hl' & Hp' & Hb' & E & ->)%Hw.
    assert (Hv' : valid_node l' p') by (apply valid_node_full; lia).
    destruct (inorder_inj _ _ _ _ Hv Hv' E) as [-> ->]. split; [done|lia]. }
  destruct (decide ((p + 1) * 2 ^ l <= Z.of_nat (length L))).
  - assert (Hnot : inorder l p ∉ writes.*1).
    { intros ([k h] & E & Hin)%list_elem_of_fmap. cbn in E. subst k. apply Huniq in Hin as [_ ?]. lia. }
    by rewrite map_put_notin, Hold, nhash_app.
  - apply map_put_elem; [|by intros h [-> _]%Huniq]. apply Hw. exists l, p. split_and!; (done || lia).
Qed.

Lemma ledger_rows_app ti ta infos new writes : ledger_rows ti ta infos -> Z.of_nat (length (infos ++ new)) < 2 ^ 63 ->
  (forall k h, (k, h) ∈ writes <-> exists l p, 0 <= l /\ 0 <= p /\
     Z.of_nat (length infos) < (p + 1) * 2 ^ l <= Z.of_nat (length (infos ++ new)) /\ k = inorder l p /\
     h = txn_nhash (leaves_of (infos ++ new)) l p) ->
  ledger_rows (map_put (indexed (Z.of_nat (length infos)) new) ti) (map_put writes ta) (infos ++ new).
Proof.
  intros [_ Hd Hn] Hlen Hw. split; [done|by apply dense_put|]. intros l p Hl Hp Hb. rewrite map_app in *.
  assert (El : length (leaves_of infos ++ leaves_of new) = length (infos ++ new)) by (by rewrite <- map_app, length_map).
  apply put_nodes_rows; rewrite ?El; try done.
  - intros l' p' Hl' Hp'. rewrite length_map. by apply Hn.
  - intros k h. rewrite Hw, length_map. done.
Qed.

Definition encodable {V} `{!Lcs V} (v : V) : Prop := is_ok (lcs_to_bytes v) = true.

(** The rows that appending adds to the batch. *)
Definition info_writes (infos new : list TransactionInfo) (writes : list (Z * HashValue)) (W : Tables) : Tables :=
  on_transaction_accumulator (map_put writes) (on_transaction_info (map_put (indexed (Z.of_nat (length infos)) new)) W).

Lemma put_transaction_infos_rows (self : LedgerStore (rocks:=rocks)) T infos new cs W :
  tables (inner (ls_db self)) T -> ledger_rows (t_transaction_info T) (t_transaction_accumulator T) infos ->
  Z.of_nat (length (infos ++ new)) < 2 ^ 63 -> Forall encodable new -> batch_tables (cs_batch cs) W ->
  exists cs' writes, put_transaction_infos self (Z.of_nat (length infos)) new cs = Ok (cs', txn_tree_root (leaves_of (infos ++ new))) /\
    batch_tables (cs_batch cs') (info_writes infos new writes W) /\ cs_counter_bumps cs' = cs_counter_bumps cs /\
    ledger_rows (map_put (indexed (Z.of_nat (length infos)) new) (t_transaction_info T))
      (map_put writes (t_transaction_accumulator T)) (infos ++ new).
Proof.
  intros Htab Hrows Hlen Henc Hb. pose proof (rows_length _ _ _ Hrows) as Hl0.
  unfold put_transaction_infos. rewrite u64_add_small by (rewrite length_app in Hlen; lia).
  unfold u64_range. replace (_ + _ - _) with (Z.of_nat (length new)) by lia.
  unfold zip_eq. rewrite length_seqZ, Nat2Z.id, Nat.eqb_refl, indexed_zip. cbn [mbind result_bind].
  assert (Hok1 : Forall (storable TransactionInfoSchema) (indexed (Z.of_nat (length infos)) new)).
  { apply list.Forall_forall. intros [v x] [Hv Hx]%indexed_elem. split_and!; [|done|].
    - apply lookup_lt_Some in Hx. rewrite length_app in Hlen. cbn. unfold is_u64. lia.
    - rewrite list.Forall_forall in Henc. apply Henc. by eapply list_elem_of_lookup_2. }
  destruct (cs_put_all_table TransactionInfoSchema _ cs W Hok1 Hb) as (cs1 & E1 & Hb1 & Hc1).
  rewrite E1. cbn [mbind result_bind]. clear E1 Hok1.
  pose proof (store_reader_ok self T infos Htab Hrows (length infos) (Nat.le_refl _)) as Hr.
  rewrite take_ge in Hr by (by rewrite length_map). rewrite <- (length_map crypto_hash infos) in Hr at 1.
  destruct (append_writes TransactionAccumulatorInternalNode_hash ACCUMULATOR_PLACEHOLDER_HASH self (leaves_of infos) (leaves_of new))
    as (writes & Ha & Hw); [by rewrite <- map_app, length_map|exact Hr|].
  rewrite length_map, <- map_app in Ha. rewrite Ha. cbn [mbind result_bind]. clear Ha.
  rewrite <- map_app, !length_map in Hw.
  assert (Hok2 : Forall (storable TransactionAccumulatorSchema) writes).
  { apply list.Forall_forall. intros [k h] (l & p & Hl & Hp & Hlp & -> & _)%Hw. split_and!; [|done|done].
    apply (stored_position_full l p (Z.of_nat (length (infos ++ new)))); (done || lia). }
  destruct (cs_put_all_table TransactionAccumulatorSchema _ cs1 _ Hok2 Hb1) as (cs2 & E2 & Hb2 & Hc2).
  rewrite E2. cbn [mbind result_bind]. exists cs2, writes. split_and!; [done|exact Hb2|congruence|].
  by apply ledger_rows_app.
Qed.

(** ** Ledger infos by epoch *)

Definition ends (li : LedgerInfoWithSignatures) : bool := li_ends_epoch (liws_ledger_info li).
Definition version_of (li : LedgerInfoWithSignatures) : Z := li_version (liws_ledger_info li).

(** [lis] holds the last ledger info of every epoch from 0 on; all but the last one end
    their epoch, and [tev] indexes those that do by version. *)
Record epoch_rows (tli : gmap Z LedgerInfoWithSignatures) (tev : gmap Z Z) (lis : list LedgerInfoWithSignatures) : Prop := {
  epochs_length : Z.of_nat (length lis) < 2 ^ 63;
  epochs_rows : dense tli lis;
  epochs_number e li : lis !! e = Some li -> li_epoch (liws_ledger_info li) = Z.of_nat e;
  epochs_version li : li ∈ lis -> is_u64 (version_of li);
  epochs_closed e li : lis !! e = Some li -> (S e < length lis)%nat -> ends li = true;
  epochs_ascending e e' li li' : (e < e')%nat -> lis !! e = Some li -> lis !! e' = Some li' -> ends li' = true ->
    version_of li < version_of li';
  epochs_index v e : tev !! v = Some e <->
    0 <= e /\ exists li, lis !! Z.to_nat e = Some li /\ ends li = true /\ version_of li = v
}.

Lemma epoch_rows_nil : epoch_rows ∅ ∅ [].
Proof.
  split; try done.
  - intros v. rewrite lookup_empty. by destruct (0 <=? v).
  - intros li []%elem_of_nil.
  - intros v e. rewrite lookup_empty. split; [done|]. by intros (_ & li & Hli & _).
Qed.

(** The ledger infos that end an epoch. *)
Definition closed (lis : list LedgerInfoWithSignatures) : list LedgerInfoWithSignatures := List.filter ends lis.

(** The epoch of a version: how many epochs ended before it. *)
Definition epoch_of (lis : list LedgerInfoWithSignatures) (version : Z) : Z :=
  Z.of_nat (length (List.filter (fun li => version_of li <? version) (closed lis))).

Lemma closed_lookup lis : (forall e li, lis !! e = Some li -> (S e < length lis)%nat -> ends li = true) ->
  forall e li, closed lis !! e = Some li <-> lis !! e = Some li /\ ends li = true.
Proof.
  induction lis as [|x lis IH]; intros Hc e li; [cbn; split; [done|by intros [? _]]|]. unfold closed. cbn [List.filter].
  destruct (ends x) eqn:Ex.
  - destruct e as [|e]; [cbn; split; [by intros [= <-]|by intros [? _]]|]. change (closed lis !! e = Some li <-> lis !! e = Some li /\ ends li = true). apply IH. intros e' li' He' Hlt.
    apply (Hc (S e') li'); [done|cbn; lia].
  - assert (lis = []) as ->.
    { destruct lis as [|y lis]; [done|]. specialize (Hc O x eq_refl). cbn in Hc. rewrite Hc in Ex by lia. done. }
    cbn. destruct e as [|e]; cbn; split; try done; intros [? ?]; [simplify_eq; congruence|done].
Qed.

(** The rows of the index of epoch endings. *)
Definition ending_rows (k : Z) (lis : list LedgerInfoWithSignatures) : list (Z * Z) :=
  imap (fun i li => (version_of li, k + Z.of_nat i)) lis.

Lemma ending_rows_last x k lis : Sorted.StronglySorted (fun a b => version_of a < version_of b) lis ->
  let before := Z.of_nat (length (List.filter (fun li => version_of li <? x) lis)) in
  match rev (List.filter (fun r : Z * Z => r.1 <=? x) (ending_rows k lis)) with
  | [] => before = 0
  | (v, e) :: _ => v <= x /\ k <= e < k + Z.of_nat (length lis) /\ k + before = if v <? x then e + 1 else e
  end.
Proof.
  induction lis as [|li lis IH] using rev_ind; intros Hs; [done|]. cbv zeta.
  apply sorting.StronglySorted_app in Hs as (Hlt & Hs & _). specialize (IH Hs). cbv zeta in IH.
  unfold ending_rows. rewrite imap_app. fold (ending_rows k lis). cbn [imap]. rewrite Nat.add_0_r.
  rewrite !List.filter_app, !length_app. cbn [List.filter fst compose].
  destruct (Z.leb_spec (version_of li) x) as [Hx|Hx].
  - rewrite rev_unit. cbn [length]. split; [done|]. split; [lia|].
    assert (Hall : length (List.filter (fun li' => version_of li' <? x) lis) = length lis).
    { rewrite forallb_filter_id; [done|]. apply forallb_forall. intros y Hy%list_elem_of_In.
      specialize (Hlt y li Hy ltac:(by left)). lia. }
    rewrite Hall. destruct (Z.ltb_spec (version_of li) x); cbn; lia.
  - rewrite app_nil_r. destruct (Z.ltb_spec (version_of li) x); [lia|]. cbn [length]. rewrite Nat.add_0_r.
    destruct (rev _) as [|[v e] ?]; [done|]. destruct IH as (? & ? & ?). split_and!; (done || lia).
Qed.

Section EpochReads.
Context (self : LedgerStore (rocks:=rocks)) (T : Tables) (lis : list LedgerInfoWithSignatures).
Context (Htab : tables (inner (ls_db self)) T).
Context (Hrows : epoch_rows (t_ledger_info T) (t_epoch_by_version T) lis).

Lemma closed_elem e li : closed lis !! e = Some li <-> lis !! e = Some li /\ ends li = true.
Proof. apply closed_lookup, (epochs_closed _ _ _ Hrows). Qed.

Lemma closed_sorted : Sorted.StronglySorted (fun a b => version_of a < version_of b) (closed lis).
Proof.
  apply strongly_sorted_lookup. intros i j a b Hij [Ha _]%closed_elem [Hb Hend]%closed_elem.
  by apply (epochs_ascending _ _ _ Hrows i j).
Qed.

Lemma ending_rows_ascending k l : Sorted.StronglySorted (fun a b => version_of a < version_of b) l -> ascending (ending_rows k l).
Proof.
  intros Hs. apply strongly_sorted_lookup. intros i j [v e] [v' e'] Hij. unfold ending_rows. rewrite !list_lookup_imap.
  intros (a & Ha & [= -> ->])%fmap_Some (b & Hb & [= -> ->])%fmap_Some. cbn. by apply (strongly_sorted_lookup_1 _ _ Hs i j).
Qed.

Lemma index_sorted : sorted_rows EpochByVersionSchema (t_epoch_by_version T) = ending_rows 0 (closed lis).
Proof.
  apply ascending_unique.
  - apply (numeric_sorted EpochByVersionSchema), (dense_column_keys EpochByVersionSchema _ _ (col_epoch_by_version _ _ Htab)).
  - apply ending_rows_ascending, closed_sorted.
  - intros [v e]. rewrite sorted_rows_elem, (epochs_index _ _ _ Hrows). unfold ending_rows. rewrite elem_of_lookup_imap. split.
    + intros (He & li & Hli & Hend & <-). exists (Z.to_nat e), li. split; [f_equal; lia|by apply closed_elem].
    + intros (i & li & [= -> ->] & [Hli Hend]%closed_elem). split; [lia|]. exists li. split_and!; try done.
      by replace (Z.to_nat (0 + Z.of_nat i)) with i by lia.
Qed.

(** The epoch of a version is found in the index. *)
Lemma get_epoch_rows version : is_u64 version -> get_epoch self version = Ok (epoch_of lis version).
Proof.
  intros Hv. unfold get_epoch. rewrite (ls_db_inner self).
  destruct (seek_for_prev_yields EpochByVersionSchema (inner (ls_db self)) (t_epoch_by_version T) (u64_be version)) as (it & E & Hy);
    [by destruct Htab|]. rewrite E. cbn [mbind result_bind encode_key EpochByVersionSchema u64_encode].
  rewrite (iter_next_yields _ _ _ Hy). cbn [mbind result_bind]. clear Hy E.
  assert (Hto : rows_to EpochByVersionSchema (u64_be version) (t_epoch_by_version T) =
    List.filter (fun r : Z * Z => r.1 <=? version) (ending_rows 0 (closed lis))).
  { unfold rows_to. rewrite index_sorted. apply List.filter_ext_in. intros [v e] Hin%list_elem_of_In.
    rewrite <- index_sorted, sorted_rows_elem in Hin. cbn [fst]. apply (numeric_leb_r EpochByVersionSchema); [|done].
    apply (dense_column_keys EpochByVersionSchema _ _ (col_epoch_by_version _ _ Htab) v e Hin). }
  rewrite Hto. pose proof (ending_rows_last version 0 (closed lis) closed_sorted) as Hl. cbv zeta in Hl.
  fold (epoch_of lis version) in Hl. destruct (rev _) as [|[v e] ?]; cbn [head].
  - by rewrite Hl.
  - destruct Hl as (Hle & He & Hb). destruct (Z.leb_spec v version); [|lia]. cbn [ensure mbind result_bind].
    assert (Z.of_nat (length (closed lis)) <= Z.of_nat (length lis)) by (apply inj_le, List.filter_length_le).
    pose proof (epochs_length _ _ _ Hrows). destruct (v <? version); [rewrite u64_add_small by lia|]; f_equal; lia.
Qed.

Lemma ledger_info_get e : is_u64 e -> db_get LedgerInfoSchema (ls_db self) e = Ok (lis !! Z.to_nat e).
Proof.
  intros He. rewrite (ls_db_inner self), (column_get _ _ (t_ledger_info T)) by (done || by destruct Htab).
  rewrite (epochs_rows _ _ _ Hrows). destruct (Z.leb_spec 0 e); [done|]. unfold is_u64 in He. lia.
Qed.

(** After a restart the latest ledger info is the last one stored. *)
Lemma ledger_store_new_rows : ledger_store_new (ls_db self) = Ok (mkLedgerStore (ls_db self) (list.last lis)).
Proof.
  unfold ledger_store_new. rewrite (ls_db_inner self).
  destruct (seek_to_last_yields LedgerInfoSchema (inner (ls_db self)) (t_ledger_info T)) as (it & E & Hy); [by destruct Htab|].
  rewrite E, (iter_next_yields _ _ _ Hy).
  rewrite (dense_sorted LedgerInfoSchema _ _ _ (col_ledger_info _ _ Htab) (epochs_rows _ _ _ Hrows)), indexed_last.
  by destruct (list.last lis).
Qed.

(** The ledger info that ends the epoch before holds the validators of an epoch. *)
Lemma get_epoch_state_rows e li es : 0 < e < 2 ^ 64 -> lis !! Z.to_nat (e - 1) = Some li ->
  li_next_epoch_state (liws_ledger_info li) = Some es -> LedgerStore.get_epoch_state self e = Ok es.
Proof.
  intros He Hli Hes. unfold LedgerStore.get_epoch_state. destruct (Z.ltb_spec 0 e); [|lia]. cbn [ensure mbind result_bind].
  rewrite ledger_info_get by (unfold is_u64; lia). cbn [mbind result_bind]. rewrite Hli. cbn. by rewrite Hes.
Qed.

(** The argument is looked up as an epoch. *)
Lemma get_epoch_ending_ledger_info_rows version : is_u64 version ->
  get_epoch_ending_ledger_info self version =
  match lis !! Z.to_nat version with
  | Some li => if ends li then Ok li else Err "Not an epoch change"%string
  | None => Err "Epoch change LedgerInfo not found."%string
  end.
Proof.
  intros Hv. unfold get_epoch_ending_ledger_info. rewrite ledger_info_get by done. cbn [mbind result_bind].
  destruct (lis !! Z.to_nat version) as [li|]; [|done]. cbn. unfold ends, li_ends_epoch, has_reconfiguration, li_next_epoch_state.
  by destruct (bi_next_epoch_state _).
Qed.

(** *** The iterator of epoch endings *)

Definition endings_left (it : EpochEndingLedgerInfoIter (raw_iter:=raw_iter)) (l : list LedgerInfoWithSignatures) : Prop :=
  0 <= eli_next_epoch it /\ is_u64 (eli_end_epoch it) /\ Forall (fun li => ends li = true) l /\
  exists rest, yields LedgerInfoSchema (eli_inner it) (indexed (eli_next_epoch it) (l ++ rest)) /\
    (eli_end_epoch it = eli_next_epoch it + Z.of_nat (length l) \/
     eli_next_epoch it + Z.of_nat (length l) <= eli_end_epoch it /\
     match rest with [] => True | li :: _ => ends li = false end).

Lemma endings_left_nil it : endings_left it [] -> (epoch_ending_ledger_info_iter_next it).2 = Ok None.
Proof.
  intros (_ & _ & _ & rest & Hy & Hend). unfold epoch_ending_ledger_info_iter_next.
  destruct (Z.leb_spec (eli_end_epoch it) (eli_next_epoch it)); [done|].
  destruct Hend as [Hend|[_ Hrest]]; [cbn in Hend; lia|]. cbn [app] in Hy. destruct rest as [|li rest].
  - by rewrite (next_nil _ _ Hy).
  - rewrite indexed_cons in Hy. destruct (next_cons _ _ _ _ Hy) as (it' & E & _). rewrite E.
    unfold ends in Hrest. by rewrite Hrest.
Qed.

Lemma endings_left_cons it li l : endings_left it (li :: l) ->
  exists it', epoch_ending_ledger_info_iter_next it = (it', Ok (Some li)) /\ endings_left it' l.
Proof.
  intros (H0' & Hu & Hall & rest & Hy & Hend). apply list.Forall_cons in Hall as [Hli Hall].
  unfold epoch_ending_ledger_info_iter_next, is_u64 in *. cbn [length] in Hend.
  destruct (Z.leb_spec (eli_end_epoch it) (eli_next_epoch it)); [lia|].
  cbn [app] in Hy. rewrite indexed_cons in Hy. destruct (next_cons _ _ _ _ Hy) as (it' & E & Hy'). rewrite E.
  unfold ends in Hli. rewrite Hli. cbn [negb]. rewrite Z.eqb_refl. eexists. split; [reflexivity|].
  unfold endings_left, is_u64. cbn [eli_next_epoch eli_end_epoch eli_inner].
  rewrite u64_add_small by lia. split_and!; [lia|lia|lia|done|]. exists rest. split; [exact Hy'|].
  destruct Hend as [?|[? ?]]; [left; lia|right; split; [lia|done]].
Qed.

(** All but the last ledger info end their epoch, so what follows the closed ones does not. *)
Lemma closed_prefix : lis = closed lis \/ exists li, lis = closed lis ++ [li] /\ ends li = false.
Proof.
  pose proof (epochs_closed _ _ _ Hrows) as Hc. clear Hrows. induction lis as [|x l IH]; [by left|].
  unfold closed. cbn [List.filter]. fold (closed l). destruct (ends x) eqn:Ex.
  - destruct IH as [El|(li & El & Hli)]; [intros e li He Hlt; apply (Hc (S e) li); [done|cbn; lia]| |].
    + left. by rewrite <- El.
    + right. exists li. split; [|done]. cbn. by rewrite <- El.
  - right. destruct l as [|y l]; [by exists x|]. specialize (Hc O x eq_refl). cbn in Hc. rewrite Hc in Ex by lia. done.
Qed.

Lemma epoch_ending_iter_rows start end_ fuel : is_u64 start -> start <= end_ -> is_u64 end_ ->
  (Z.to_nat (end_ - start) < fuel)%nat ->
  exists it, get_epoch_ending_ledger_info_iter self start end_ = Ok it /\
    iter_collect epoch_ending_ledger_info_iter_next fuel it =
    Ok (take (Z.to_nat (end_ - start)) (drop (Z.to_nat start) (closed lis))).
Proof.
  intros Hs Hle He Hf. unfold get_epoch_ending_ledger_info_iter. rewrite (ls_db_inner self).
  destruct (seek_yields LedgerInfoSchema (inner (ls_db self)) (t_ledger_info T) (u64_be start)) as (it & E & Hy); [by destruct Htab|].
  rewrite E. cbn [mbind result_bind encode_key LedgerInfoSchema u64_encode]. eexists. split; [reflexivity|].
  apply (iter_collect_list _ endings_left endings_left_nil endings_left_cons).
  2:{ rewrite length_take. lia. }
  rewrite (dense_from LedgerInfoSchema _ _ _ (col_ledger_info _ _ Htab) (epochs_rows _ _ _ Hrows)) in Hy by done.
  unfold endings_left, is_u64 in *. cbn [eli_next_epoch eli_end_epoch eli_inner]. split_and!; [lia..| |].
  { apply Forall_take, Forall_drop, list.Forall_forall. intros li Hin%list_elem_of_In%filter_In. apply Hin. }
  set (C := drop (Z.to_nat start) (closed lis)) in *.
  assert (Hrest : exists rest, drop (Z.to_nat start) lis = C ++ rest /\ match rest with [] => True | li :: _ => ends li = false end).
  { destruct closed_prefix as [El|(li & El & Hli)].
    - exists []. split; [|done]. rewrite app_nil_r. unfold C. by rewrite <- El.
    - exists (drop (Z.to_nat start - length (closed lis)) [li]). split; [rewrite El at 1; apply skipn_app|].
      by destruct (Z.to_nat start - length (closed lis))%nat as [|k]; [|rewrite drop_ge by (cbn; lia)]. }
  destruct Hrest as (rest & Er & Hrest). rewrite Er in Hy. exists (drop (Z.to_nat (end_ - start)) C ++ rest).
  rewrite app_assoc, take_drop. split; [exact Hy|]. rewrite length_take.
  destruct (decide (Z.to_nat (end_ - start) <= length C)%nat) as [Hn|Hn]; [left; lia|right].
  split; [lia|]. by rewrite (drop_ge C) by lia.
Qed.

(** C38: The ledger info that ends an epoch at a given version is looked up with the
    version as if it were the number of an epoch: the result is that of the epoch of this
    number, whatever version ended it, and an error beyond the last epoch. *)
Theorem epoch_ending_ledger_info_by_epoch version : is_u64 version ->
  get_epoch_ending_ledger_info self version =
  match lis !! Z.to_nat version with
  | Some li => if ends li then Ok li else Err "Not an epoch change"%string
  | None => Err "Epoch change LedgerInfo not found."%string
  end.
Proof. apply get_epoch_ending_ledger_info_rows. Qed.
End EpochReads.

(** *** Storing a ledger info *)

(** A ledger info of the last epoch, if that is still open (or the one that ended it, once
    more), or the first of the next epoch. *)
Record li_follows (lis : list LedgerInfoWithSignatures) (x : LedgerInfoWithSignatures) : Prop := {
  follows_epoch : is_u64 (li_epoch (liws_ledger_info x));
  follows_last : (Z.to_nat (li_epoch (liws_ledger_info x)) <= length lis <= S (Z.to_nat (li_epoch (liws_ledger_info x))))%nat;
  follows_closed : Forall (fun li => ends li = true) (take (Z.to_nat (li_epoch (liws_ledger_info x))) lis);
  follows_open li : lis !! Z.to_nat (li_epoch (liws_ledger_info x)) = Some li ->
    ends li = false \/ (ends x = true /\ version_of li = version_of x);
  follows_version : is_u64 (version_of x);
  follows_ascending : ends x = true ->
    Forall (fun li => version_of li < version_of x) (take (Z.to_nat (li_epoch (liws_ledger_info x))) lis)
}.

(** The ledger info replaces that of its epoch or starts the next one. *)
Definition lis_put (lis : list LedgerInfoWithSignatures) (x : LedgerInfoWithSignatures) : list LedgerInfoWithSignatures :=
  take (Z.to_nat (li_epoch (liws_ledger_info x))) lis ++ [x].

Section PutLedgerInfo.
Context (lis : list LedgerInfoWithSignatures) (x : LedgerInfoWithSignatures) (Hf : li_follows lis x).
Let e := Z.to_nat (li_epoch (liws_ledger_info x)).

Lemma lis_put_lookup k : lis_put lis x !! k =
  if decide (k < e)%nat then lis !! k else if decide (k = e) then Some x else None.
Proof.
  destruct (follows_last _ _ Hf) as [Hle _]. unfold lis_put. fold e.
  assert (Hl : length (take e lis) = e) by (rewrite length_take; unfold e in *; lia).
  destruct (decide (k < e)%nat); [by rewrite lookup_app_l, lookup_take_lt by lia|].
  rewrite lookup_app_r, Hl by lia. destruct (decide (k = e)) as [->|]; [by rewrite Nat.sub_diag|].
  destruct (k - e)%nat eqn:Ek; [lia|done].
Qed.

Lemma follows_lookup_closed k li : (k < e)%nat -> lis !! k = Some li -> ends li = true.
Proof.
  intros Hk Hli. pose proof (follows_closed _ _ Hf) as Hc. rewrite list.Forall_forall in Hc. apply Hc.
  apply list_elem_of_lookup. exists k. by rewrite lookup_take_lt.
Qed.

Lemma follows_lookup_version k li : ends x = true -> (k < e)%nat -> lis !! k = Some li -> version_of li < version_of x.
Proof.
  intros Hend Hk Hli. pose proof (follows_ascending _ _ Hf Hend) as Hc. rewrite list.Forall_forall in Hc. apply Hc.
  apply list_elem_of_lookup. exists k. by rewrite lookup_take_lt.
Qed.

Lemma epoch_index_put (tev : gmap Z Z) : (forall v k, tev !! v = Some k <->
    0 <= k /\ exists li, lis !! Z.to_nat k = Some li /\ ends li = true /\ version_of li = v) ->
  forall v k, (if ends x then <[version_of x := li_epoch (liws_ledger_info x)]> tev else tev) !! v = Some k <->
    0 <= k /\ exists li, lis_put lis x !! Z.to_nat k = Some li /\ ends li = true /\ version_of li = v.
Proof.
  intros Hix v k. pose proof (follows_epoch _ _ Hf) as He. unfold is_u64 in He. pose proof (follows_last _ _ Hf) as Hlast.
  fold e in Hlast. setoid_rewrite lis_put_lookup.
  assert (Hold : forall li, lis !! Z.to_nat k = Some li -> (Z.to_nat k <= e)%nat) by (intros li Hli%lookup_lt_Some; lia).
  destruct (ends x) eqn:Ex.
  - destruct (decide (version_of x = v)) as [<-|Hne]; [rewrite lookup_insert_eq|rewrite lookup_insert_ne by done].
    + split.
      * intros [= <-]. split; [lia|]. exists x. fold e. destruct (decide (e < e)%nat); [lia|]. by rewrite decide_True.
      * intros (Hk & li & Hli & Hend & Hv). destruct (decide (Z.to_nat k < e)%nat) as [Hlt|].
        { pose proof (follows_lookup_version _ _ Ex Hlt Hli). lia. }
        destruct (decide (Z.to_nat k = e)); [|done]. f_equal. unfold e in *. lia.
    + rewrite Hix. split; intros (Hk & li & Hli & Hend & Hv); (split; [done|]); exists li; (split; [|done]).
      * pose proof (Hold li Hli). destruct (decide (Z.to_nat k < e)%nat); [done|]. exfalso.
        replace (Z.to_nat k) with e in Hli by lia. destruct (follows_open _ _ Hf li Hli) as [|[_ ?]]; congruence.
      * destruct (decide (Z.to_nat k < e)%nat); [done|]. destruct (decide (Z.to_nat k = e)); [injection Hli as <-; congruence|done].
  - rewrite Hix. split; intros (Hk & li & Hli & Hend & Hv); (split; [done|]); exists li; (split; [|done]).
    + pose proof (Hold li Hli). destruct (decide (Z.to_nat k < e)%nat); [done|]. exfalso.
      replace (Z.to_nat k) with e in Hli by lia. destruct (follows_open _ _ Hf li Hli) as [|[? _]]; congruence.
    + destruct (decide (Z.to_nat k < e)%nat); [done|]. destruct (decide (Z.to_nat k = e)); [injection Hli as <-; congruence|done].
Qed.

Lemma epoch_rows_put tli tev : epoch_rows tli tev lis -> Z.of_nat (length (lis_put lis x)) < 2 ^ 63 ->
  epoch_rows (<[li_epoch (liws_ledger_info x) := x]> tli)
    (if ends x then <[version_of x := li_epoch (liws_ledger_info x)]> tev else tev) (lis_put lis x).
Proof.
  intros [Hlen Hd Hn Hv Hc Ha Hix] Hlen'. pose proof (follows_epoch _ _ Hf) as He. unfold is_u64 in He.
  pose proof (follows_last _ _ Hf) as Hlast. fold e in Hlast.
  assert (Hl' : length (lis_put lis x) = S e).
  { unfold lis_put. fold e. rewrite length_app, length_take. cbn. lia. }
  split; [done| | | | | |by apply epoch_index_put].
  - intros v. rewrite lis_put_lookup. destruct (decide (li_epoch (liws_ledger_info x) = v)) as [<-|Hne].
    + rewrite lookup_insert_eq. destruct (Z.leb_spec 0 (li_epoch (liws_ledger_info x))); [|lia]. fold e.
      destruct (decide (e < e)%nat); [lia|]. by rewrite decide_True.
    + rewrite lookup_insert_ne by done. rewrite Hd. destruct (Z.leb_spec 0 v); [|done].
      destruct (decide (Z.to_nat v < e)%nat); [done|]. destruct (decide (Z.to_nat v = e)); [unfold e in *; lia|].
      apply lookup_ge_None_2. lia.
  - intros k li. rewrite lis_put_lookup. destruct (decide (k < e)%nat); [apply Hn|].
    destruct (decide (k = e)) as [->|]; [|done]. intros [= <-]. unfold e. lia.
  - intros li. unfold lis_put. intros [Hin|Hin]%elem_of_app.
    + apply Hv. by apply (subseteq_take e).
    + apply list_elem_of_singleton in Hin as ->. apply (follows_version _ _ Hf).
  - intros k li. rewrite lis_put_lookup, Hl'. intros Hk Hlt. rewrite decide_True in Hk by lia.
    apply (follows_lookup_closed k li); [lia|done].
  - intros k k' li li' Hkk. rewrite !lis_put_lookup. intros Hk Hk' Hend.
    destruct (decide (k' < e)%nat); [rewrite decide_True in Hk by lia; by apply (Ha k k' li li')|].
    destruct (decide (k' = e)); [|done]. injection Hk' as <-. rewrite decide_True in Hk by lia.
    apply (follows_lookup_version k li); (done || lia).
Qed.
End PutLedgerInfo.

Definition li_writes (x : LedgerInfoWithSignatures) (W : Tables) : Tables :=
  on_ledger_info <[li_epoch (liws_ledger_info x) := x]>
    (if ends x then on_epoch_by_version <[version_of x := li_epoch (liws_ledger_info x)]> W else W).

Lemma put_ledger_info_rows (self : LedgerStore (rocks:=rocks)) cs W x :
  is_u64 (li_epoch (liws_ledger_info x)) -> is_u64 (version_of x) -> encodable x -> batch_tables (cs_batch cs) W ->
  exists cs', put_ledger_info self x cs = Ok cs' /\ batch_tables (cs_batch cs') (li_writes x W) /\
    cs_counter_bumps cs' = cs_counter_bumps cs.
Proof.
  intros He Hv Henc Hb. unfold put_ledger_info, li_writes. change (li_ends_epoch (liws_ledger_info x)) with (ends x).
  destruct (ends x).
  - destruct (cs_put_table EpochByVersionSchema cs W (version_of x) (li_epoch (liws_ledger_info x))) as (cs1 & E1 & Hb1 & Hc1);
      [by split_and!|done|]. change (li_version (liws_ledger_info x)) with (version_of x). rewrite E1. cbn [mbind result_bind].
    destruct (cs_put_table LedgerInfoSchema cs1 _ (li_epoch (liws_ledger_info x)) x ltac:(by split_and!) Hb1) as (cs2 & E2 & Hb2 & Hc2).
    exists cs2. split_and!; [done|exact Hb2|congruence].
  - cbn [mbind result_bind].
    destruct (cs_put_table LedgerInfoSchema cs _ (li_epoch (liws_ledger_info x)) x ltac:(by split_and!) Hb) as (cs2 & E2 & Hb2 & Hc2).
    exists cs2. split_and!; [done|exact Hb2|done].
Qed.
End LedgerStoreProof.
