(* ===== verification/StateStore.v ===== *)
(** * The state store

    [storage/libradb/src/state_store/mod.rs]: the account states of every version, kept
    in the Jellyfish Merkle tree whose nodes are the rows of one column family and whose
    stale nodes are listed in another. *)

From S2P Require Import Prelude U64 Bytes Lcs SchemaDb LedgerCounters.
From S2P Require Import Crypto Hash ValidatorVerifier LedgerInfo SparseMerkleProof LedgerProof Schema.
From S2P Require Import NibblePath NodeType JellyfishMerkle LedgerStore.

Section StateStore.
Context `{Crypto} `{B : !HashBytes, !LedgerHashers}.
Context `{!CryptoHash AccountStateBlob, !CryptoHash SparseMerkleLeafNode, !CryptoHash AccountAddress}.
Context `{!Lcs LeafNode}.
Context {rocks raw_iter : Type} `{!RocksDB rocks raw_iter}.

Record StateStore := mkStateStore { ss_db : DB rocks }.

(** [impl TreeReader for StateStore]. *)
Definition state_reader (self : StateStore) : TreeReader :=
  mkTreeReader (fun node_key => db_get JellyfishMerkleNodeSchema (ss_db self) node_key).

Definition state_get_account_state_with_proof_by_version (self : StateStore) (address : AccountAddress) (version : Z)
    : result string (option AccountStateBlob * SparseMerkleProof) :=
  get_with_proof (state_reader self) (crypto_hash address) version.

Definition get_account_state_range_proof (self : StateStore) (rightmost_key : HashValue) (version : Z)
    : result string SparseMerkleRangeProof :=
  get_range_proof (state_reader self) rightmost_key version.

Definition state_get_root_hash_option (self : StateStore) (version : Z) : result string (option HashValue) :=
  get_root_hash_option (state_reader self) version.

(** [cs.counter_bumps.bump(counter, by)]. *)
Definition cs_bump (cs : ChangeSet) (counter : LedgerCounter) (by_ : Z) : ChangeSet :=
  mkChangeSet (cs_batch cs) (bumps_bump (cs_counter_bumps cs) counter by_).

(** [for row in rows { batch.put(..)? }]. *)
Definition add_node_batch (batch : SchemaBatch) (node_batch : gmap NodeKey Node) : result string SchemaBatch :=
  result_fold (fun batch row => batch_put JellyfishMerkleNodeSchema batch row.1 row.2) (map_to_list node_batch) batch.

(** The account states of a transaction under the hashes of their addresses. *)
Definition blob_set (account_states : gmap AccountAddress AccountStateBlob) : list (HashValue * AccountStateBlob) :=
  map (fun '(addr, blob) => (crypto_hash addr, blob)) (map_to_list account_states).

Definition put_account_state_sets (self : StateStore) (account_state_sets : list (gmap AccountAddress AccountStateBlob))
    (first_version : Z) (cs : ChangeSet) : result string (ChangeSet * list HashValue) :=
  let blob_sets := map blob_set account_state_sets in
  '(new_root_hash_vec, tree_update_batch) ← put_blob_sets (state_reader self) blob_sets first_version;
  let cs := cs_bump cs NewStateNodes (Z.of_nat (size (node_batch tree_update_batch))) in
  let cs := cs_bump cs NewStateLeaves (tub_num_new_leaves tree_update_batch) in
  batch ← add_node_batch (cs_batch cs) (node_batch tree_update_batch);
  let cs := mkChangeSet batch (cs_counter_bumps cs) in
  let cs := cs_bump cs StaleStateNodes (Z.of_nat (size (stale_node_index_batch tree_update_batch))) in
  let cs := cs_bump cs StaleStateLeaves (tub_num_stale_leaves tree_update_batch) in
  cs ← cs_put_all StaleNodeIndexSchema (map (fun row => (row, tt)) (elements (stale_node_index_batch tree_update_batch))) cs;
  Ok (cs, new_root_hash_vec).

(** [impl TreeWriter for StateStore]. *)
Definition write_node_batch (self : StateStore) (node_batch : gmap NodeKey Node) : result string StateStore :=
  batch ← add_node_batch batch_new node_batch;
  db ← write_schemas (ss_db self) batch;
  Ok (mkStateStore db).

(** *** The rightmost leaf *)

(** [leaf_node.account_key() > other.account_key()]: hashes are compared as bytes. *)
Definition better_leaf (ret : option (NodeKey * LeafNode)) (node_key : NodeKey) (leaf_node : LeafNode)
    : option (NodeKey * LeafNode) :=
  match ret with
  | None => Some (node_key, leaf_node)
  | Some other =>
    if bytes_ltb (hash_to_vec (account_key other.2)) (hash_to_vec (account_key leaf_node))
    then Some (node_key, leaf_node) else ret
  end.

(** One range of nodes with the same number of nibbles: its last node. *)
Definition rightmost_of_range (self : StateStore) (version : Z) (ret : option (NodeKey * LeafNode)) (num_nibbles : Z)
    : result string (option (NodeKey * LeafNode)) :=
  it ← iter JellyfishMerkleNodeSchema (ss_db self);
  row ← iter_next JellyfishMerkleNodeSchema (seek_for_prev it (node_seek_key version num_nibbles));
  match row with
  | Some (node_key, Leaf leaf_node) => Ok (better_leaf ret node_key leaf_node)
  | _ => Ok ret
  end.

Definition get_rightmost_leaf (self : StateStore) : result string (option (NodeKey * LeafNode)) :=
  it ← iter JellyfishMerkleNodeSchema (ss_db self);
  row ← iter_next JellyfishMerkleNodeSchema (seek_to_first it);
  match row with
  | Some (node_key, _) =>
    result_fold (rightmost_of_range self (nk_version node_key)) (seqZ 1 (Z.of_nat ROOT_NIBBLE_HEIGHT + 1)) None
  | None => Ok None
  end.
End StateStore.
