(* ===== verification/EventStore.v ===== *)
(** * The event store

    [storage/libradb/src/event_store/mod.rs]: the events of every version, in the order
    in which the transaction emitted them, an index by event key and sequence number,
    and one accumulator per version whose frozen nodes are rows too. *)

From S2P Require Import Prelude U64 Bytes Lcs SchemaDb LedgerCounters.
From S2P Require Import Crypto Hash Position Accumulator AccumulatorProof MerkleAccumulator.
From S2P Require Import ValidatorVerifier LedgerInfo LedgerProof Schema NodeType LedgerStore StateStore.

Section EventStore.
Context `{Crypto} `{B : !HashBytes, !LedgerHashers}.
Context `{!CryptoHash ContractEvent}.
Context `{!Lcs ContractEvent}.
Context {rocks raw_iter : Type} `{!RocksDB rocks raw_iter}.

Record EventStore := mkEventStore { es_db : DB rocks }.

(** [while let Some(((ver, index), event)) = iter.next().transpose()? { .. }]. *)
Definition events_of_version_body (version : Z) (s : SchemaIterator raw_iter * list ContractEvent)
    : (SchemaIterator raw_iter * list ContractEvent) + result string (list ContractEvent) :=
  let '(it, events) := s in
  match next_impl EventSchema it with
  | (it, Ok (Some ((ver, _), event))) => if negb (ver =? version) then inr (Ok events) else inl (it, events ++ [event])
  | (_, Ok None) => inr (Ok events)
  | (_, Err e) => inr (Err e)
  | (_, Panic) => inr Panic
  end.

Definition get_events_by_version (self : EventStore) (version : Z) : result string (list ContractEvent) :=
  it ← iter EventSchema (es_db self);
  run_loop (events_of_version_body version) (seek it (event_seek_key version), []).

(** [EventHashReader], and [MerkleAccumulator<EventHashReader, EventAccumulatorHasher>]. *)
Record EventHashReader := mkEventHashReader { ehr_store : EventStore; ehr_version : Z }.

#[export] Instance event_hash_reader : HashReader EventHashReader HashValue := fun self position =>
  row ← db_get EventAccumulatorSchema (es_db (ehr_store self)) (ehr_version self, position);
  ok_or row "Hash at position not found."%string.

Notation Accumulator_get_proof := (get_proof EventAccumulatorInternalNode_hash ACCUMULATOR_PLACEHOLDER_HASH).

Definition get_event_with_proof_by_version_and_index (self : EventStore) (version index : Z)
    : result string (ContractEvent * AccumulatorProof (HashValue:=HashValue)) :=
  row ← db_get EventSchema (es_db self) (version, index);
  event ← ok_or row "Event of Txn"%string;
  it ← iter EventSchema (es_db self);
  row ← iter_next EventSchema (seek_for_prev it (event_seek_key (u64_add version 1)));
  num_events ← match row with
               | Some ((ver, index), _) => if ver =? version then Ok (u64_add index 1) else Panic
               | None => Panic
               end;
  proof ← Accumulator_get_proof (mkMerkleAccumulatorView (mkEventHashReader self version) num_events) index;
  Ok (event, proof).

Definition get_txn_ver_by_seq_num (self : EventStore) (event_key : bytes) (seq_num : Z) : result string Z :=
  row ← db_get EventByKeySchema (es_db self) (event_key, seq_num);
  '(ver, _) ← ok_or row "Index entry should exist for seq_num"%string;
  Ok ver.

(** *** The latest sequence number *)

(** The linear search from the recent end: the sequence number found, or the one it
    stopped at. *)
Fixpoint search_recent (n_try_recent : nat) (self : EventStore) (event_key : bytes) (ledger_version seq : Z)
    : result string (Z + Z) :=
  match n_try_recent with
  | O => Ok (inr seq)
  | S n_try_recent =>
    if negb (0 <? seq) then Ok (inr seq)
    else
      let seq := seq - 1 in
      ver ← get_txn_ver_by_seq_num self event_key seq;
      if ver <=? ledger_version then Ok (inl seq) else search_recent n_try_recent self event_key ledger_version seq
  end.

(** [while begin < end { .. }]; the interval halves, so that 65 rounds are enough. *)
Fixpoint binary_search (fuel : nat) (self : EventStore) (event_key : bytes) (ledger_version begin_ end_ : Z)
    : result string Z :=
  match fuel with
  | O => Panic
  | S fuel =>
    if negb (begin_ <? end_) then Ok begin_
    else
      let mid := end_ - (end_ - begin_) / 2 in
      ver ← get_txn_ver_by_seq_num self event_key mid;
      if ver <=? ledger_version then binary_search fuel self event_key ledger_version mid end_
      else binary_search fuel self event_key ledger_version begin_ (mid - 1)
  end.

Definition get_latest_sequence_number (self : EventStore) (ledger_version : Z) (event_key : bytes)
    : result string (option Z) :=
  it ← iter EventByKeySchema (es_db self);
  (* The result of [seek_for_prev] is not looked at: a key that does not encode leaves
     the iterator where it is. *)
  let it := match encode_key EventByKeySchema (event_key, u64_max) with
            | Ok seek_key => seek_for_prev it seek_key
            | _ => it
            end in
  row ← iter_next EventByKeySchema it;
  match row with
  | Some ((key, seq), (ver, _)) =>
    if bool_decide (key = event_key) then
      if ver <=? ledger_version then Ok (Some seq)
      else
        recent ← search_recent 10 self event_key ledger_version seq;
        match recent with
        | inl seq => Ok (Some seq)
        | inr seq => begin_ ← binary_search 65 self event_key ledger_version 0 seq; Ok (Some begin_)
        end
    else Ok None
  | None => Ok None
  end.

(** *** The index by key *)

(** [for res in iter.take(limit) { .. }]. *)
Fixpoint lookup_events_loop (limit : nat) (event_key : bytes) (ledger_version cur_seq : Z) (it : SchemaIterator raw_iter)
    : result string (list (Z * Z * Z)) :=
  match limit with
  | O => Ok []
  | S limit =>
    match next_impl EventByKeySchema it with
    | (it, Ok (Some ((path, seq), (ver, idx)))) =>
      if negb (bool_decide (path = event_key)) || (ledger_version <? ver) then Ok []
      else
        _ ← ensure (seq =? cur_seq) "DB corrupt: Sequence number not continuous"%string;
        result ← lookup_events_loop limit event_key ledger_version (u64_add cur_seq 1) it;
        Ok ((seq, ver, idx) :: result)
    | (_, Ok None) => Ok []
    | (_, Err e) => Err e
    | (_, Panic) => Panic
    end
  end.

Definition lookup_events_by_key (self : EventStore) (event_key : bytes) (start_seq_num limit ledger_version : Z)
    : result string (list (Z * Z * Z)) :=
  it ← iter EventByKeySchema (es_db self);
  seek_key ← encode_key EventByKeySchema (event_key, start_seq_num);
  lookup_events_loop (Z.to_nat limit) event_key ledger_version start_seq_num (seek it seek_key).

(** *** Writes *)

(** [EmptyReader]: its [get] is [unreachable!()]. *)
Inductive EmptyReader := mkEmptyReader.
#[export] Instance empty_reader : HashReader EmptyReader HashValue := fun _ _ => Panic.

Notation EmptyAccumulator_append := (view_append EventAccumulatorInternalNode_hash ACCUMULATOR_PLACEHOLDER_HASH).

Definition put_event (version : Z) (cs : ChangeSet) (row : Z * ContractEvent) : result string ChangeSet :=
  let '(idx, event) := row in
  cs ← cs_put EventSchema cs (version, idx) event;
  cs_put EventByKeySchema cs (ce_key event, ce_sequence_number event) (version, idx).

Definition put_events (self : EventStore) (version : Z) (events : list ContractEvent) (cs : ChangeSet)
    : result string (ChangeSet * HashValue) :=
  let cs := cs_bump cs EventsCreated (Z.of_nat (length events)) in
  cs ← result_fold (put_event version) (zip (seqZ 0 (Z.of_nat (length events))) events) cs;
  let event_hashes := map crypto_hash events in
  '(root_hash, writes) ← EmptyAccumulator_append (mkMerkleAccumulatorView mkEmptyReader 0) event_hashes;
  cs ← cs_put_all EventAccumulatorSchema (map (fun '(pos, hash) => ((version, pos), hash)) writes) cs;
  Ok (cs, root_hash).
End EventStore.
