(* ===== verification/TransactionStore.v ===== *)
(** * The transaction store and the system store

    [storage/libradb/src/transaction_store/mod.rs]: the transactions by version, with an
    index by sender and sequence number; and [storage/libradb/src/system_store/mod.rs]:
    the ledger counters of every batch. *)

From S2P Require Import Prelude U64 Bytes Lcs SchemaDb LedgerCounters.
From S2P Require Import Crypto Hash ValidatorVerifier LedgerInfo LedgerProof Schema NodeType LedgerStore.

Section TransactionStore.
Context `{Crypto}.
Context `{!Lcs Transaction, !Lcs LedgerCounters}.
Context {rocks raw_iter : Type} `{!RocksDB rocks raw_iter}.

Record TransactionStore := mkTransactionStore { txs_db : DB rocks }.

Definition lookup_transaction_by_account (self : TransactionStore) (address : AccountAddress)
    (sequence_number ledger_version : Z) : result string (option Z) :=
  row ← db_get TransactionByAccountSchema (txs_db self) (address, sequence_number);
  Ok (match row with
      | Some version => if version <=? ledger_version then Some version else None
      | None => None
      end).

Definition get_transaction (self : TransactionStore) (version : Z) : result string Transaction :=
  row ← db_get TransactionSchema (txs_db self) version;
  ok_or row "Txn"%string.

Record TransactionIter := mkTransactionIter {
  txi_inner : SchemaIterator raw_iter;
  txi_expected_next_version : Z;
  txi_end_version : Z
}.

Definition get_transaction_iter (self : TransactionStore) (start_version num_transactions : Z)
    : result string TransactionIter :=
  it ← iter TransactionSchema (txs_db self);
  key ← encode_key TransactionSchema start_version;
  end_version ← ok_or (u64_checked_add start_version num_transactions) "Too many transactions requested."%string;
  Ok (mkTransactionIter (seek it key) start_version end_version).

Definition transaction_iter_next (self : TransactionIter) : TransactionIter * result string (option Transaction) :=
  if txi_end_version self <=? txi_expected_next_version self then (self, Ok None)
  else
    match next_impl TransactionSchema (txi_inner self) with
    | (it, Ok (Some (version, transaction))) =>
      if version =? txi_expected_next_version self then
        (mkTransactionIter it (u64_add (txi_expected_next_version self) 1) (txi_end_version self), Ok (Some transaction))
      else (mkTransactionIter it (txi_expected_next_version self) (txi_end_version self),
            Err "Transaction versions are not consecutive."%string)
    | (it, Ok None) => (mkTransactionIter it (txi_expected_next_version self) (txi_end_version self), Ok None)
    | (it, Err e) => (mkTransactionIter it (txi_expected_next_version self) (txi_end_version self), Err e)
    | (it, Panic) => (mkTransactionIter it (txi_expected_next_version self) (txi_end_version self), Panic)
    end.

Definition MAX_VERSIONS_TO_SEARCH : Z := 1000 * 3.

(** [for res in iter.take(MAX_VERSIONS_TO_SEARCH) { .. }]. *)
Fixpoint block_metadata_loop (n : nat) (it : SchemaIterator raw_iter) : result string (option (Z * BlockMetadata)) :=
  match n with
  | O => Err "BlockMetadata preceding version"%string
  | S n =>
    match next_impl TransactionSchema it with
    | (it, Ok (Some (v, txn))) =>
      match txn with
      | BlockMetadataTransaction block_meta => Ok (Some (v, block_meta))
      | _ => if v =? 0 then Ok None else block_metadata_loop n it
      end
    | (_, Ok None) => Err "BlockMetadata preceding version"%string
    | (_, Err e) => Err e
    | (_, Panic) => Panic
    end
  end.

Definition get_block_metadata (self : TransactionStore) (version : Z) : result string (option (Z * BlockMetadata)) :=
  it ← rev_iter TransactionSchema (txs_db self);
  key ← encode_key TransactionSchema version;
  block_metadata_loop (Z.to_nat MAX_VERSIONS_TO_SEARCH) (seek it key).

Definition put_transaction (self : TransactionStore) (version : Z) (transaction : Transaction) (cs : ChangeSet)
    : result string ChangeSet :=
  cs ← match transaction with
       | UserTransaction txn => cs_put TransactionByAccountSchema cs (st_sender txn, st_sequence_number txn) version
       | _ => Ok cs
       end;
  cs_put TransactionSchema cs version transaction.

(** ** The system store *)

Record SystemStore := mkSystemStore { sys_db : DB rocks }.

Definition bump_ledger_counters (self : SystemStore) (first_version last_version : Z) (bumps : LedgerCounterBumps)
    (batch : SchemaBatch) : result string (SchemaBatch * LedgerCounters) :=
  _ ← assert_ (first_version <=? last_version);
  counters ← (if 0 <? first_version then
                row ← db_get LedgerCountersSchema (sys_db self) (first_version - 1);
                Ok (default counters_new row)
              else Ok counters_new);
  let counters := counters_bump counters bumps in
  batch ← batch_put LedgerCountersSchema batch last_version counters;
  Ok (batch, counters).
End TransactionStore.
