(* ===== verification/Pruner.v ===== *)
(** * The pruner

    [storage/libradb/src/pruner/mod.rs]: a worker that deletes the nodes of the state
    trees of old versions in the background.  The threads of the database send it
    commands through a channel.  [prune_state] reads the stale nodes and then deletes them;
    the two parts are definitions of their own, so that commits can come in between. *)

From S2P Require Import Prelude U64 Bytes Lcs SchemaDb LedgerCounters.
From S2P Require Import Crypto Hash ValidatorVerifier LedgerInfo LedgerProof Schema NodeType JellyfishMerkle LedgerStore.

Inductive Command := Quit | Prune (least_readable_version : Z).

(** The sending side.  The channel is the list of the commands sent and not yet received. *)
Record Pruner := mkPruner { historical_versions_to_keep : Z; channel : list Command }.

Definition wake (self : Pruner) (latest_version : Z) : Pruner :=
  if historical_versions_to_keep self <? latest_version then
    let least_readable_version := latest_version - historical_versions_to_keep self in
    mkPruner (historical_versions_to_keep self) (channel self ++ [Prune least_readable_version])
  else self.

(** The worker; [index_purged_at] and the time are in seconds. *)
Record Worker := mkWorker {
  target_least_readable_version : Z;
  least_readable_version : Z;
  blocking_recv : bool;
  index_min_nonpurged_version : Z;
  index_purged_at : Z
}.

Definition worker_new (now : Z) : Worker := mkWorker 0 0 true 0 now.

Definition set_target (self : Worker) (v : Z) : Worker :=
  mkWorker v (least_readable_version self) false (index_min_nonpurged_version self) (index_purged_at self).

(** What [receive_commands] comes to when the channel holds [channel]: it returns with the
    rest of the channel and whether to go on, or it waits for a command ([None]). *)
Fixpoint receive_commands (self : Worker) (channel : list Command) : Worker * option (list Command * bool) :=
  match channel with
  | [] => if blocking_recv self then (self, None) else (self, Some ([], true))
  | Quit :: channel => (self, Some (channel, false))
  | Prune v :: channel =>
    receive_commands (if target_least_readable_version self <? v then set_target self v else self) channel
  end.

Section Pruner.
Context {rocks raw_iter : Type} `{!RocksDB rocks raw_iter}.
Context `{Crypto} `{B : !HashBytes, !Lcs LeafNode}.

(** *** The stale nodes, version by version *)

(** [Peekable<SchemaIterator<..>>]: the element peeked at, if any. *)
Record PeekableIter := mkPeekableIter {
  peeked : option (result string (option (StaleNodeIndex * unit)));
  pk_inner : SchemaIterator raw_iter
}.

Definition pk_next (self : PeekableIter) : PeekableIter * result string (option (StaleNodeIndex * unit)) :=
  match peeked self with
  | Some r => (mkPeekableIter None (pk_inner self), r)
  | None => let '(it, r) := next_impl StaleNodeIndexSchema (pk_inner self) in (mkPeekableIter None it, r)
  end.
Definition pk_peek (self : PeekableIter) : PeekableIter * result string (option (StaleNodeIndex * unit)) :=
  match peeked self with
  | Some r => (self, r)
  | None => let '(it, r) := next_impl StaleNodeIndexSchema (pk_inner self) in (mkPeekableIter (Some r) it, r)
  end.

Record StaleNodeIndicesByVersionIterator := mkStaleIter {
  sit_inner : PeekableIter;
  sit_target_least_readable_version : Z
}.

Definition stale_iter_new (db : DB rocks) (least_readable_version target_least_readable_version : Z)
    : result string StaleNodeIndicesByVersionIterator :=
  it ← iter StaleNodeIndexSchema db;
  Ok (mkStaleIter (mkPeekableIter None (seek it (stale_seek_key least_readable_version))) target_least_readable_version).

(** [while let Some(res) = self.inner.peek() { .. }]; an error that is peeked at is
    returned by [next]. *)
Definition same_version_body (version : Z) (s : PeekableIter * list StaleNodeIndex)
    : (PeekableIter * list StaleNodeIndex) + result string (PeekableIter * list StaleNodeIndex) :=
  let '(inner, indices) := s in
  match pk_peek inner with
  | (inner, Ok None) => inr (Ok (inner, indices))
  | (inner, Ok (Some (index_ref, _))) =>
    if negb (stale_since_version index_ref =? version) then inr (Ok (inner, indices))
    else
      match pk_next inner with
      | (inner, Ok (Some (index, _))) => inl (inner, indices ++ [index])
      | (_, Ok None) => inr Panic
      | (_, Err e) => inr (Err e)
      | (_, Panic) => inr Panic
      end
  | (_, Err e) => inr (Err e)
  | (_, Panic) => inr Panic
  end.

(** [next_result]; after an error the iterator is dropped. *)
Definition stale_iter_next (self : StaleNodeIndicesByVersionIterator)
    : result string (StaleNodeIndicesByVersionIterator * option (list StaleNodeIndex)) :=
  match pk_next (sit_inner self) with
  | (inner, Ok None) => Ok (mkStaleIter inner (sit_target_least_readable_version self), None)
  | (inner, Ok (Some (index, _))) =>
    let version := stale_since_version index in
    if sit_target_least_readable_version self <? version
    then Ok (mkStaleIter inner (sit_target_least_readable_version self), None)
    else
      '(inner, indices) ← run_loop (same_version_body version) (inner, [index]);
      Ok (mkStaleIter inner (sit_target_least_readable_version self), Some indices)
  | (_, Err e) => Err e
  | (_, Panic) => Panic
  end.

(** [.take(max_versions).collect::<Result<Vec<_>>>()]. *)
Fixpoint collect_indices (max_versions : nat) (it : StaleNodeIndicesByVersionIterator)
    : result string (list (list StaleNodeIndex)) :=
  match max_versions with
  | O => Ok []
  | S max_versions =>
    '(it, indices) ← stale_iter_next it;
    match indices with
    | None => Ok []
    | Some indices => rest ← collect_indices max_versions it; Ok (indices :: rest)
    end
  end.

(** What [prune_state] reads. *)
Definition stale_indices (db : DB rocks) (least_readable_version target_least_readable_version : Z) (max_versions : nat)
    : result string (list StaleNodeIndex) :=
  it ← stale_iter_new db least_readable_version target_least_readable_version;
  groups ← collect_indices max_versions it;
  Ok (concat groups).

(** What it does with them; the result is the new least readable version. *)
Definition delete_stale_nodes (db : DB rocks) (least_readable_version : Z) (indices : list StaleNodeIndex)
    : result string (DB rocks * Z) :=
  match list.last indices with
  | None => Ok (db, least_readable_version)
  | Some last =>
    let new_least_readable_version := stale_since_version last in
    batch ← result_fold (fun batch index => batch_delete JellyfishMerkleNodeSchema batch (sni_node_key index)) indices batch_new;
    db ← write_schemas db batch;
    Ok (db, new_least_readable_version)
  end.

Definition prune_state (db : DB rocks) (least_readable_version target_least_readable_version : Z) (max_versions : nat)
    : result string (DB rocks * Z) :=
  indices ← stale_indices db least_readable_version target_least_readable_version max_versions;
  delete_stale_nodes db least_readable_version indices.

(** *** The worker *)

Definition MAX_VERSIONS_TO_PRUNE_PER_BATCH : nat := 100.
Definition MIN_INTERVAL : Z := 60.
Definition MIN_VERSIONS : Z := 60000.

(** [maybe_purge_index]; [now] is the time it reads. *)
Definition maybe_purge_index (self : Worker) (db : DB rocks) (now : Z) : result string (Worker * DB rocks) :=
  if MIN_INTERVAL <? now - index_purged_at self then
    let least_readable_version := least_readable_version self in
    if MIN_VERSIONS <? u64_add (u64_sub least_readable_version (index_min_nonpurged_version self)) 1 then
      let new_min_non_purged_version := u64_add least_readable_version 1 in
      db ← range_delete StaleNodeIndexSchema db (stale_seek_key (index_min_nonpurged_version self))
             (stale_seek_key new_min_non_purged_version);
      Ok (mkWorker (target_least_readable_version self) least_readable_version (blocking_recv self)
            new_min_non_purged_version now, db)
    else Ok (self, db)
  else Ok (self, db).

(** The progress of a round, and an error, which makes the worker wait. *)
Definition store_progress (self : Worker) (least : Z) : Worker :=
  mkWorker (target_least_readable_version self) least (least =? target_least_readable_version self)
    (index_min_nonpurged_version self) (index_purged_at self).
Definition stop_retrying (self : Worker) : Worker :=
  mkWorker (target_least_readable_version self) (least_readable_version self) true
    (index_min_nonpurged_version self) (index_purged_at self).

(** The body of [work_loop]: errors are logged; a panic ends the thread. *)
Definition work (self : Worker) (db : DB rocks) (now : Z) : result string (Worker * DB rocks) :=
  match prune_state db (least_readable_version self) (target_least_readable_version self) MAX_VERSIONS_TO_PRUNE_PER_BATCH with
  | Ok (db, least) =>
    let self := store_progress self least in
    match maybe_purge_index self db now with
    | Ok (self, db) => Ok (self, db)
    | Err _ => Ok (self, db)
    | Panic => Panic
    end
  | Err _ => Ok (stop_retrying self, db)
  | Panic => Panic
  end.
End Pruner.
