(* ===== verification/LibraDB.v ===== *)
(** * LibraDB

    [storage/libradb/src/lib.rs]: the database as its clients see it.  The stores share
    one database, so they are views of the state [LibraDB]; [save_transactions] is the
    one write, atomic in the database, and the rest are reads with proofs. *)

From S2P Require Import Prelude U64 Bytes Lcs SchemaDb LedgerCounters.
From S2P Require Import Crypto Hash Position Accumulator AccumulatorProof MerkleAccumulator.
From S2P Require Import ValidatorVerifier LedgerInfo SparseMerkleProof LedgerProof Schema NodeType JellyfishMerkle.
From S2P Require Import LedgerStore StateStore EventStore TransactionStore Pruner.

Definition MAX_LIMIT : Z := 1000.
Definition MAX_NUM_EPOCH_ENDING_LEDGER_INFO : Z := 100.

Definition error_if_too_many_requested (num_requested max_allowed : Z) : result string unit :=
  if max_allowed <? num_requested then Err "Too many items requested"%string else Ok tt.

(** Converts the requested range and order to a range in ascending order. *)
Definition get_first_seq_num_and_limit (ascending : bool) (cursor limit : Z) : result string (Z * Z) :=
  _ ← ensure (0 <? limit) "limit should > 0"%string;
  Ok (if ascending then (cursor, limit)
      else if limit <=? cursor then (cursor - limit + 1, limit)
      else (0, u64_add cursor 1)).

(** [zip_eq(first..=last, l)]. *)
Definition zip_eq_versions {A : Type} (first last : Z) (l : list A) : result string (list (Z * A)) :=
  if (if first <=? last then last - first + 1 else 0) =? Z.of_nat (length l)
  then Ok (zip (seqZ first (Z.of_nat (length l))) l) else Panic.

Section LibraDB.
Context `{Crypto} `{B : !HashBytes, !LedgerHashers}.
Context `{!CryptoHash TransactionInfo, !CryptoHash Transaction, !CryptoHash ContractEvent}.
Context `{!CryptoHash AccountStateBlob, !CryptoHash SparseMerkleLeafNode, !CryptoHash AccountAddress}.
Context `{!Lcs LedgerInfoWithSignatures, !Lcs TransactionInfo, !Lcs Transaction, !Lcs ContractEvent, !Lcs LedgerCounters,
  !Lcs LeafNode}.
Context {rocks raw_iter : Type} `{!RocksDB rocks raw_iter}.

Record LibraDB := mkLibraDB {
  ldb_db : DB rocks;
  (** The cache of the ledger store. *)
  ldb_latest_ledger_info : option LedgerInfoWithSignatures;
  ldb_pruner : option Pruner
}.

Definition ledger_store (self : LibraDB) : LedgerStore := mkLedgerStore (ldb_db self) (ldb_latest_ledger_info self).
Definition transaction_store (self : LibraDB) : TransactionStore := mkTransactionStore (ldb_db self).
Definition state_store (self : LibraDB) : StateStore := mkStateStore (ldb_db self).
Definition event_store (self : LibraDB) : EventStore := mkEventStore (ldb_db self).
Definition system_store (self : LibraDB) : SystemStore := mkSystemStore (ldb_db self).

(** [open], on a database that RocksDB has opened. *)
Definition libradb_open (db : DB rocks) (prune_window : option Z) : result string LibraDB :=
  store ← ledger_store_new db;
  Ok (mkLibraDB db (latest_ledger_info store) ((fun n => mkPruner n []) <$> prune_window)).

(** *** Reads *)

Definition get_epoch_ending_ledger_infos_impl (self : LibraDB) (start_epoch end_epoch limit : Z)
    : result string (list LedgerInfoWithSignatures * bool) :=
  _ ← ensure (start_epoch <=? end_epoch) "Bad epoch range"%string;
  li ← get_latest_ledger_info (ledger_store self);
  let latest_epoch := li_next_block_epoch (liws_ledger_info li) in
  _ ← ensure (end_epoch <=? latest_epoch) "Unable to provide epoch change ledger info for still open epoch."%string;
  let '(paging_epoch, more) :=
    if limit <? end_epoch - start_epoch then (u64_add start_epoch limit, true) else (end_epoch, false) in
  it ← get_epoch_ending_ledger_info_iter (ledger_store self) start_epoch paging_epoch;
  lis ← iter_collect epoch_ending_ledger_info_iter_next (S (Z.to_nat (paging_epoch - start_epoch))) it;
  _ ← ensure (Z.of_nat (length lis) =? paging_epoch - start_epoch) "DB corruption: missing epoch ending ledger info"%string;
  Ok (lis, more).

Definition get_epoch_ending_ledger_infos (self : LibraDB) (start_epoch end_epoch : Z)
    : result string (list LedgerInfoWithSignatures * bool) :=
  get_epoch_ending_ledger_infos_impl self start_epoch end_epoch MAX_NUM_EPOCH_ENDING_LEDGER_INFO.

Definition get_transaction_with_proof (self : LibraDB) (version ledger_version : Z) (fetch_events : bool)
    : result string TransactionWithProof :=
  proof ← get_transaction_info_with_proof (ledger_store self) version ledger_version;
  transaction ← get_transaction (transaction_store self) version;
  events ← (if fetch_events then events ← get_events_by_version (event_store self) version; Ok (Some events) else Ok None);
  Ok (mkTransactionWithProof version transaction events proof).

(** An event found in the index, with its proofs. *)
Definition indexed_event_with_proof (self : LibraDB) (ledger_version : Z) (key : Z * Z * Z) : result string EventWithProof :=
  let '(seq, ver, idx) := key in
  '(event, event_proof) ← get_event_with_proof_by_version_and_index (event_store self) ver idx;
  _ ← ensure (seq =? ce_sequence_number event) "Index broken"%string;
  txn_info_with_proof ← get_transaction_info_with_proof (ledger_store self) ver ledger_version;
  Ok (mkEventWithProof ver idx event (mkEventProof txn_info_with_proof event_proof)).

Definition get_events_by_event_key (self : LibraDB) (event_key : bytes) (start_seq_num : Z) (ascending : bool)
    (limit ledger_version : Z) : result string (list EventWithProof) :=
  _ ← error_if_too_many_requested limit MAX_LIMIT;
  let get_latest := negb ascending && (start_seq_num =? u64_max) in
  cursor ← (if get_latest
            then seq ← get_latest_sequence_number (event_store self) ledger_version event_key; Ok (default 0 seq)
            else Ok start_seq_num);
  '(first_seq, real_limit) ← get_first_seq_num_and_limit ascending cursor limit;
  event_keys ← lookup_events_by_key (event_store self) event_key first_seq real_limit ledger_version;
  let event_keys :=
    if ascending then event_keys
    else match list.last event_keys with
         | Some (seq_num, _, _) => if seq_num <? cursor then [] else event_keys
         | None => event_keys
         end in
  events_with_proof ← result_collect (indexed_event_with_proof self ledger_version) event_keys;
  Ok (if ascending then events_with_proof else rev events_with_proof).

(** *** Writes *)

Definition seal_change_set (self : LibraDB) (first_version num_txns : Z) (cs : ChangeSet)
    : result string (SealedChangeSet * option LedgerCounters) :=
  if 0 <? num_txns then
    '(batch, counters) ← bump_ledger_counters (system_store self) first_version
       (u64_sub (u64_add first_version num_txns) 1) (cs_counter_bumps cs) (cs_batch cs);
    Ok (mkSealedChangeSet batch, Some counters)
  else Ok (mkSealedChangeSet (cs_batch cs), None).

(** [iter.map(|(ver, txn)| store.put_events(ver, ..)).collect()]. *)
Fixpoint put_all_events (self : EventStore (rocks:=rocks)) (rows : list (Z * TransactionToCommit)) (cs : ChangeSet)
    : result string (ChangeSet * list HashValue) :=
  match rows with
  | [] => Ok (cs, [])
  | (ver, txn_to_commit) :: rows =>
    '(cs, root_hash) ← put_events self ver (tc_events txn_to_commit) cs;
    '(cs, root_hashes) ← put_all_events self rows cs;
    Ok (cs, root_hash :: root_hashes)
  end.

Definition transaction_info_of (t : TransactionToCommit) (roots : HashValue * HashValue) : TransactionInfo :=
  mkTransactionInfo (crypto_hash (tc_transaction t)) roots.1 roots.2 (tc_gas_used t) (tc_major_status t).

Definition save_transactions_impl (self : LibraDB) (txns_to_commit : list TransactionToCommit) (first_version : Z)
    (cs : ChangeSet) : result string (ChangeSet * HashValue) :=
  let last_version := u64_sub (u64_add first_version (Z.of_nat (length txns_to_commit))) 1 in
  '(cs, state_root_hashes) ← put_account_state_sets (state_store self) (map tc_account_states txns_to_commit) first_version cs;
  rows ← zip_eq_versions first_version last_version txns_to_commit;
  '(cs, event_root_hashes) ← put_all_events (event_store self) rows cs;
  cs ← result_fold (fun cs row => put_transaction (transaction_store self) row.1 (tc_transaction row.2) cs) rows cs;
  let txn_infos := zip_with transaction_info_of txns_to_commit (zip state_root_hashes event_root_hashes) in
  _ ← assert_ (length txn_infos =? length txns_to_commit)%nat;
  put_transaction_infos (ledger_store self) first_version txn_infos cs.

Definition commit (self : LibraDB) (sealed_cs : SealedChangeSet) : result string LibraDB :=
  db ← write_schemas (ldb_db self) (scs_batch sealed_cs);
  Ok (mkLibraDB db (ldb_latest_ledger_info self) (ldb_pruner self)).

Definition wake_pruner (self : LibraDB) (latest_version : Z) : LibraDB :=
  mkLibraDB (ldb_db self) (ldb_latest_ledger_info self) ((fun p => wake p latest_version) <$> ldb_pruner self).

(** The checks and the sealed batch of [save_transactions]. *)
Definition prepare_transactions (self : LibraDB) (txns_to_commit : list TransactionToCommit) (first_version : Z)
    (ledger_info_with_sigs : option LedgerInfoWithSignatures) : result string SealedChangeSet :=
  let num_txns := Z.of_nat (length txns_to_commit) in
  _ ← ensure (bool_decide (is_Some ledger_info_with_sigs) || (0 <? num_txns))
        "txns_to_commit is empty while ledger_info_with_sigs is None."%string;
  _ ← match ledger_info_with_sigs with
      | Some x =>
        let claimed_last_version := li_version (liws_ledger_info x) in
        ensure (u64_add claimed_last_version 1 =? u64_add first_version num_txns)
          "Transaction batch not applicable"%string
      | None => Ok tt
      end;
  '(cs, new_root_hash) ← save_transactions_impl self txns_to_commit first_version change_set_new;
  cs ← match ledger_info_with_sigs with
       | Some x =>
         let expected_root_hash := li_transaction_accumulator_hash (liws_ledger_info x) in
         _ ← ensure (bool_decide (new_root_hash = expected_root_hash)) "Root hash calculated doesn't match expected."%string;
         put_ledger_info (ledger_store self) x cs
       | None => Ok cs
       end;
  '(sealed_cs, _) ← seal_change_set self first_version num_txns cs;
  Ok sealed_cs.

(** The batch is written at once, and the latest ledger info follows. *)
Definition write_transactions (self : LibraDB) (sealed_cs : SealedChangeSet) (ledger_info_with_sigs : option LedgerInfoWithSignatures)
    : result string LibraDB :=
  self ← commit self sealed_cs;
  Ok match ledger_info_with_sigs with
     | Some x => mkLibraDB (ldb_db self) (latest_ledger_info (set_latest_ledger_info (ledger_store self) x)) (ldb_pruner self)
     | None => self
     end.

(** Last, the pruner is told. *)
Definition save_transactions (self : LibraDB) (txns_to_commit : list TransactionToCommit) (first_version : Z)
    (ledger_info_with_sigs : option LedgerInfoWithSignatures) : result string LibraDB :=
  let num_txns := Z.of_nat (length txns_to_commit) in
  sealed_cs ← prepare_transactions self txns_to_commit first_version ledger_info_with_sigs;
  self ← write_transactions self sealed_cs ledger_info_with_sigs;
  Ok (if 0 <? num_txns then wake_pruner self (u64_sub (u64_add first_version num_txns) 1) else self).

(** *** [impl DbReader for LibraDB] *)

Definition reader_get_epoch_ending_ledger_infos (self : LibraDB) (start_epoch end_epoch : Z) : result string EpochChangeProof :=
  '(ledger_info_with_sigs, more) ← get_epoch_ending_ledger_infos self start_epoch end_epoch;
  Ok (mkEpochChangeProof ledger_info_with_sigs more).

Definition get_latest_account_state (self : LibraDB) (address : AccountAddress) : result string (option AccountStateBlob) :=
  ledger_info_with_sigs ← get_latest_ledger_info (ledger_store self);
  let version := li_version (liws_ledger_info ledger_info_with_sigs) in
  '(blob, _) ← state_get_account_state_with_proof_by_version (state_store self) address version;
  Ok blob.

Definition get_latest_version (self : LibraDB) : result string Z :=
  li ← get_latest_ledger_info (ledger_store self);
  Ok (li_version (liws_ledger_info li)).

Definition get_latest_commit_metadata (self : LibraDB) : result string (Z * Z) :=
  li ← get_latest_ledger_info (ledger_store self);
  Ok (li_version (liws_ledger_info li), li_timestamp_usecs (liws_ledger_info li)).

Definition get_txn_by_account (self : LibraDB) (address : AccountAddress) (seq_num ledger_version : Z) (fetch_events : bool)
    : result string (option TransactionWithProof) :=
  version ← lookup_transaction_by_account (transaction_store self) address seq_num ledger_version;
  match version with
  | Some version => txn ← get_transaction_with_proof self version ledger_version fetch_events; Ok (Some txn)
  | None => Ok None
  end.

Definition get_transactions (self : LibraDB) (start_version limit ledger_version : Z) (fetch_events : bool)
    : result string TransactionListWithProof :=
  _ ← error_if_too_many_requested limit MAX_LIMIT;
  if (ledger_version <? start_version) || (limit =? 0) then Ok transaction_list_with_proof_new_empty
  else
    let limit := Z.min limit (u64_add (ledger_version - start_version) 1) in
    let versions := u64_range start_version (u64_add start_version limit) in
    txns ← result_collect (get_transaction (transaction_store self)) versions;
    txn_infos ← result_collect (get_transaction_info (ledger_store self)) versions;
    events ← (if fetch_events
              then events ← result_collect (get_events_by_version (event_store self)) versions; Ok (Some events)
              else Ok None);
    range_proof ← get_transaction_range_proof (ledger_store self) (Some start_version) limit ledger_version;
    Ok (mkTransactionListWithProof txns events (Some start_version) (mkTransactionListProof range_proof txn_infos)).

Definition get_events (self : LibraDB) (event_key : bytes) (start : Z) (ascending : bool) (limit : Z)
    : result string (list (Z * ContractEvent)) :=
  li ← get_latest_ledger_info (ledger_store self);
  let version := li_version (liws_ledger_info li) in
  events ← get_events_by_event_key self event_key start ascending limit version;
  Ok (map (fun e => (ewp_transaction_version e, ewp_event e)) events).

Definition reader_get_epoch_ending_ledger_info (self : LibraDB) (version : Z) : result string LedgerInfoWithSignatures :=
  get_epoch_ending_ledger_info (ledger_store self) version.

Definition get_state_proof_with_ledger_info (self : LibraDB) (known_version : Z) (ledger_info_with_sigs : LedgerInfoWithSignatures)
    : result string (EpochChangeProof * AccumulatorConsistencyProof (HashValue:=HashValue)) :=
  let ledger_info := liws_ledger_info ledger_info_with_sigs in
  known_epoch ← get_epoch (ledger_store self) known_version;
  epoch_change_proof ←
    (if known_epoch <? li_next_block_epoch ledger_info then
       '(ledger_infos_with_sigs, more) ← get_epoch_ending_ledger_infos self known_epoch (li_next_block_epoch ledger_info);
       Ok (mkEpochChangeProof ledger_infos_with_sigs more)
     else Ok (mkEpochChangeProof [] false));
  ledger_consistency_proof ← ledger_get_consistency_proof (ledger_store self) known_version (li_version ledger_info);
  Ok (epoch_change_proof, ledger_consistency_proof).

Definition get_state_proof (self : LibraDB) (known_version : Z)
    : result string (LedgerInfoWithSignatures * EpochChangeProof * AccumulatorConsistencyProof (HashValue:=HashValue)) :=
  ledger_info_with_sigs ← get_latest_ledger_info (ledger_store self);
  '(epoch_change_proof, ledger_consistency_proof) ← get_state_proof_with_ledger_info self known_version ledger_info_with_sigs;
  Ok (ledger_info_with_sigs, epoch_change_proof, ledger_consistency_proof).

Definition get_account_state_with_proof (self : LibraDB) (address : AccountAddress) (version ledger_version : Z)
    : result string AccountStateWithProof :=
  _ ← ensure (version <=? ledger_version) "The queried version should be equal to or older than ledger version."%string;
  latest_version ← get_latest_version self;
  _ ← ensure (ledger_version <=? latest_version)
        "The ledger version is greater than the latest version currently in ledger."%string;
  txn_info_with_proof ← get_transaction_info_with_proof (ledger_store self) version ledger_version;
  '(account_state_blob, sparse_merkle_proof) ← state_get_account_state_with_proof_by_version (state_store self) address version;
  Ok (mkAccountStateWithProof version account_state_blob (mkAccountStateProof txn_info_with_proof sparse_merkle_proof)).

Definition reader_get_startup_info (self : LibraDB) : result string (option StartupInfo) := get_startup_info (ledger_store self).

Definition get_account_state_with_proof_by_version (self : LibraDB) (address : AccountAddress) (version : Z)
    : result string (option AccountStateBlob * SparseMerkleProof) :=
  state_get_account_state_with_proof_by_version (state_store self) address version.

Definition get_latest_state_root (self : LibraDB) : result string (Z * HashValue) :=
  '(version, txn_info) ← get_latest_transaction_info (ledger_store self);
  Ok (version, ti_state_root_hash txn_info).

Definition get_latest_tree_state (self : LibraDB) : result string TreeState :=
  row ← get_latest_transaction_info_option (ledger_store self);
  match row with
  | Some (version, txn_info) => get_tree_state (ledger_store self) (u64_add version 1) txn_info
  | None =>
    root ← state_get_root_hash_option (state_store self) PRE_GENESIS_VERSION;
    Ok (mkTreeState 0 [] (default SPARSE_MERKLE_PLACEHOLDER_HASH root))
  end.

Definition get_block_timestamp (self : LibraDB) (version : Z) : result string Z :=
  meta ← get_block_metadata (transaction_store self) version;
  Ok (match meta with Some (_, block_meta) => bm_timestamp_usecs block_meta | None => 0 end).
End LibraDB.
