(* ===== verification/StateStoreProof.v ===== *)
(** * Correctness of the state store

    [state_rows] ties the rows of nodes and of stale node indices to the account states
    of every version.  Saving account states extends the history and returns the roots of
    the new states; the states of a readable version are served with the proofs of the
    reference tree. *)

From S2P Require Import Prelude U64 Bytes Lcs SchemaDb LedgerCounters.
From S2P Require Import Crypto Hash ValidatorVerifier LedgerInfo SparseMerkleProof SparseMerkleTree LedgerProof.
From S2P Require Import NibblePath NodeType NodeTypeProof NodeCodec.
From S2P Require Import JellyfishMerkle JellyfishMerkleNodes JellyfishMerkleProof JellyfishMerkleUpdate JellyfishMerkleBatch.
From S2P Require Import Schema Tables LedgerStore LedgerStoreProof StateStore.

Section StateStoreProof.
Context `{Crypto} `{B : !HashBytes, !HashBytesLaws B, !LedgerHashers}.
Context `{!CryptoHash AccountStateBlob, !CryptoHash SparseMerkleLeafNode, !CryptoHash AccountAddress}.
Context `{!Lcs LedgerInfoWithSignatures, !Lcs TransactionInfo, !Lcs Transaction, !Lcs ContractEvent, !Lcs LedgerCounters,
  !Lcs LeafNode}.
Context `{!LcsLaws LedgerInfoWithSignatures, !LcsLaws TransactionInfo, !LcsLaws Transaction, !LcsLaws ContractEvent,
  !LcsLaws LedgerCounters, !LcsLaws LeafNode}.
Context {rocks raw_iter : Type} `{!RocksDB rocks raw_iter, !RocksDBLaws rocks raw_iter}.

Notation entries := (list (HashValue * AccountStateBlob)).
Notation state_root := (sparse_root SparseMerkleInternalNode_hash SPARSE_MERKLE_PLACEHOLDER_HASH).
Notation ref_sparse_proof := (ref_sparse_proof SparseMerkleInternalNode_hash SPARSE_MERKLE_PLACEHOLDER_HASH).

(** ** The rows *)

(** The nodes of a table, as a reader. *)
Definition table_reader (nodes : gmap NodeKey Node) : TreeReader := mkTreeReader (fun k => Ok (nodes !! k)).
Definition stale_rows (indices : gmap StaleNodeIndex unit) : StaleNodeIndex -> Prop := fun i => is_Some (indices !! i).

(** The account states [hist] of the versions from 0 on, of which those from [least] on
    are readable, on top of the states [es0] restored before genesis. *)
Record state_rows (nodes : gmap NodeKey Node) (indices : gmap StaleNodeIndex unit) (es0 : entries) (least : Z)
    (hist : list entries) : Prop := {
  state_genesis : hist = [] -> base_tree (table_reader nodes) (stale_rows indices) 0 es0;
  state_stale : stale_before (Z.of_nat (length hist)) (stale_rows indices);
  state_nonempty : Forall (fun es => es <> []) hist;
  state_tree w es : least <= w -> 0 <= w -> hist !! Z.to_nat w = Some es ->
    version_tree (reader_get_node (table_reader nodes)) (stale_rows indices) w es
}.

(** The account states that the next version starts from. *)
Definition current (es0 : entries) (hist : list entries) : entries := default es0 (list.last hist).

Lemma state_rows_nil indices : (forall i, indices !! i = None) -> state_rows ∅ indices [] 0 [].
Proof.
  intros Hi. split; try done.
  intros i [u Hu]. by rewrite Hi in Hu.
Qed.

(** ** Reading *)

Section Reads.
Context (db : rocks) (T : Tables) (Htab : tables db T).
Notation store := (mkStateStore (mkDB db)).
Notation nodes := (t_jellyfish_merkle_node T).
Notation indices := (t_stale_node_index T).

Lemma state_reader_get k : node_key_ok k -> reader_get_node_option (state_reader store) k = Ok (nodes !! k).
Proof. intros Hk. cbn. by apply (column_get JellyfishMerkleNodeSchema db nodes); [destruct Htab|]. Qed.

Lemma state_reader_node k : node_key_ok k -> reader_get_node (state_reader store) k = reader_get_node (table_reader nodes) k.
Proof. intros Hk. unfold reader_get_node. by rewrite state_reader_get. Qed.

Lemma old_key_ok w v q : 0 <= w < u64_max -> old (w + 1) v -> wf_path q -> node_key_ok (node_key_of v q).
Proof.
  intros Hw Ho Hq. exists v, q. split_and!; [done| |done]. unfold old, PRE_GENESIS_VERSION, is_u64, u64_max in *. lia.
Qed.

Lemma state_version_tree w es stale : 0 <= w < u64_max ->
  version_tree (reader_get_node (table_reader nodes)) stale w es -> version_tree (reader_get_node (state_reader store)) stale w es.
Proof.
  intros Hw Ht. eapply version_tree_impl; [exact Ht| |by left].
  intros q v node Hq [Ho _]. rewrite state_reader_node; [done|]. by eapply old_key_ok.
Qed.

(** The rows that are in the table are the ones that the reader returns. *)
Lemma state_reader_row k node : reader_get_node_option (state_reader store) k = Ok (Some node) ->
  is_ok (node_encode node) = true.
Proof.
  change (reader_get_node_option (state_reader store) k) with (db_get JellyfishMerkleNodeSchema (mkDB db) k).
  unfold db_get. intros Hg. apply bind_Ok in Hg as (rk & _ & Hg). apply bind_Ok in Hg as (u & _ & Hg). cbn [inner] in Hg.
  rewrite get_cell in Hg. cbn [mbind result_bind] in Hg. destruct (cf_cell db _ rk) as [rv|] eqn:E; [|done]. apply bind_Ok in Hg as (node' & Hd & [= ->]).
  destruct Htab as [_ _ _ _ _ _ _ _ _ _ Hc _]. destruct (column_only _ _ _ Hc _ _ E) as (k' & node' & Hm & ->).
  destruct (column_row _ _ _ Hc _ _ Hm) as [Hok Hg']. rewrite E in Hg'. injection Hg' as ->.
  pose proof (decode_value_raw _ _ Hok) as D. cbn in D, Hd. rewrite Hd in D. injection D as ->.
  destruct Hok as (_ & _ & He). cbn in He. by rewrite He.
Qed.

Context (es0 : entries) (least : Z) (hist : list entries) (Hrows : state_rows nodes indices es0 least hist).
Context (Hlen : Z.of_nat (length hist) <= u64_max).

Lemma readable_tree w es : least <= w -> 0 <= w -> hist !! Z.to_nat w = Some es ->
  version_tree (reader_get_node (state_reader store)) (stale_rows indices) w es.
Proof.
  intros Hl Hw He. apply state_version_tree; [|by eapply state_tree]. apply lookup_lt_Some in He. lia.
Qed.

(** An account of a readable version, or its absence, with the proof of the reference tree. *)
Lemma get_account_state_rows w es address : least <= w -> 0 <= w -> hist !! Z.to_nat w = Some es ->
  state_get_account_state_with_proof_by_version store address w =
  Ok (lookup_entry (crypto_hash address) es, ref_sparse_proof (crypto_hash address) es).
Proof. intros Hl Hw He. unfold state_get_account_state_with_proof_by_version. eapply get_with_proof_ok, readable_tree; eauto. Qed.

Lemma get_root_hash_rows w es : least <= w -> 0 <= w -> hist !! Z.to_nat w = Some es ->
  state_get_root_hash_option store w = Ok (Some (state_root es)).
Proof. intros Hl Hw He. unfold state_get_root_hash_option. eapply get_root_hash_option_ok, readable_tree; eauto. Qed.

(** The tree that the next batch starts from. *)
Lemma state_base : (hist = [] \/ least < Z.of_nat (length hist)) ->
  base_tree (state_reader store) (stale_rows indices) (Z.of_nat (length hist)) (current es0 hist).
Proof.
  intros Hl. unfold current. destruct (list.last hist) as [es|] eqn:El; cbn [default from_option].
  - rewrite last_lookup in El. assert (Hn : hist <> []) by (by intros ->). assert (length hist <> 0%nat) by (by destruct hist).
    unfold base_tree. destruct (Z.eqb_spec (Z.of_nat (length hist)) 0); [lia|]. split.
    + pose proof (state_nonempty _ _ _ _ _ Hrows) as Hne. by eapply Forall_lookup_1 in Hne.
    + apply readable_tree; [destruct Hl; [done|lia]|lia|].
      by replace (Z.to_nat (Z.of_nat (length hist) - 1)) with (pred (length hist)) by lia.
  - apply last_None in El as Eh. pose proof (state_genesis _ _ _ _ _ Hrows Eh) as Hb. rewrite Eh.
    unfold base_tree in *. cbn [length Z.of_nat Z.eqb] in *.
    change (reader_get_node_option (table_reader nodes) ?k) with (Ok (E:=string) (nodes !! k)) in Hb.
    assert (Hk : forall q, wf_path q -> node_key_ok (node_key_of PRE_GENESIS_VERSION q)).
    { intros q Hq. eexists _, _. split_and!; [done|unfold is_u64, PRE_GENESIS_VERSION, u64_max; lia|done]. }
    rewrite state_reader_get by (apply Hk; split; [constructor|cbn; lia]).
    destruct (nodes !! _) as [node|]; [|done]. destruct Hb as [Ht|(-> & Hn & Hg & _)]; [left|right].
    + eapply tree_impl_wf; [exact Ht| |done|done]. intros q v nd _ Hq [-> _]. by rewrite state_reader_node by (by apply Hk).
    + refine (conj eq_refl (conj _ (conj Hg (fun _ _ => I)))). rewrite state_reader_node; [done|]. apply Hk. split; [constructor|cbn; lia].
Qed.
End Reads.

(** ** Writing *)

Lemma put_entry_nonempty k b es : put_entry k b es <> [].
Proof. by unfold put_entry. Qed.

Lemma put_entries_nonempty blobs : forall es, blobs <> [] \/ es <> [] -> put_entries blobs es <> [].
Proof.
  induction blobs as [|[k b] blobs IH]; intros es Hne; unfold put_entries; cbn [fold_left]; [naive_solver|].
  apply IH. right. apply put_entry_nonempty.
Qed.

Lemma states_nonempty blob_sets : forall es, Forall (fun b => b <> []) blob_sets -> Forall (fun es => es <> []) (states es blob_sets).
Proof.
  induction blob_sets as [|blobs blob_sets IH]; intros es Hne; cbn [states]; constructor; apply list.Forall_cons in Hne as [Hb Hne].
  - apply put_entries_nonempty. by left.
  - by apply IH.
Qed.
Lemma states_length blob_sets : forall es, length (states es blob_sets) = length blob_sets.
Proof. induction blob_sets as [|blobs blob_sets IH]; intros es; cbn; [done|]. by rewrite IH. Qed.

Definition index_rows (stale : gset StaleNodeIndex) : list (StaleNodeIndex * unit) := map (fun row => (row, tt)) (elements stale).

Lemma index_rows_stale stale indices i : stale_rows (map_put (index_rows stale) indices) i <-> add_stale (stale_rows indices) stale i.
Proof. unfold stale_rows, index_rows, add_stale. rewrite (map_put_keys (fun _ => tt)), elem_of_elements. tauto. Qed.

(** A leaf that LCS can serialize, whatever its key. *)
Notation storable_blob := (blob_ok (encodable (V:=LeafNode))).

Lemma batch_storable first ver nodes stale : 0 <= first -> ver <= u64_max -> batch_ok first ver nodes stale ->
  (forall k node, nodes !! k = Some node -> leaf_ok encodable node) ->
  Forall (storable JellyfishMerkleNodeSchema) (map_to_list nodes) /\ Forall (storable StaleNodeIndexSchema) (index_rows stale).
Proof.
  intros Hf Hv [Hn Hs] Hl. split; apply list.Forall_forall.
  - intros [k node] Hk%elem_of_map_to_list. destruct (Hn _ _ Hk) as (w & q & -> & Hw & Hq & Hst). specialize (Hl _ _ Hk).
    assert (Hwf : wf_node node) by (by destruct node as [|[]|]). split_and!; cbn; [|done|].
    + exists w, q. split_and!; [done|unfold is_u64, u64_max in *; lia|done].
    + apply node_encode_ok; [done|]. by intros leaf ->.
  - intros [i u] Hi. apply list_elem_of_fmap in Hi as (i' & [= -> ->] & Hi). apply elem_of_elements in Hi.
    destruct (Hs _ Hi) as (Hw & v & q & E & Hq & Ho). split; [|done]. cbn.
    split; [unfold is_u64, u64_max in *; lia|]. exists v, q. split; [done|]. split; [|done].
    unfold old, PRE_GENESIS_VERSION, is_u64, u64_max in *. lia.
Qed.

Definition state_writes (nodes : gmap NodeKey Node) (stale : gset StaleNodeIndex) (W : Tables) : Tables :=
  on_stale_node_index (map_put (index_rows stale)) (on_jellyfish_merkle_node (map_put (map_to_list nodes)) W).

Section Writes.
Context (db : rocks) (T : Tables) (Htab : tables db T).
Context (es0 : entries) (least : Z) (hist : list entries).
Notation store := (mkStateStore (mkDB db)).
Notation nodes := (t_jellyfish_merkle_node T).
Notation indices := (t_stale_node_index T).
Notation first := (Z.of_nat (length hist)).
Context (Hrows : state_rows nodes indices es0 least hist) (Hleast : hist = [] \/ least < first).

(** The rows with a batch of account states. *)
Lemma state_rows_app sets new_nodes stale : Forall (fun b => b <> []) sets -> first + Z.of_nat (length sets) < u64_max ->
  batch_ok first (first + Z.of_nat (length sets)) new_nodes stale ->
  (forall j h, states (current es0 hist) sets !! j = Some h ->
    version_tree (reader_get_node (overlay new_nodes (state_reader store))) (add_stale (stale_rows indices) stale) (first + Z.of_nat j) h) ->
  (forall w h, 0 <= w < first -> version_tree (reader_get_node (state_reader store)) (stale_rows indices) w h ->
    version_tree (reader_get_node (overlay new_nodes (state_reader store))) (add_stale (stale_rows indices) stale) w h) ->
  state_rows (new_nodes ∪ nodes) (map_put (index_rows stale) indices) es0 least (hist ++ states (current es0 hist) sets).
Proof.
  intros Hne Hmax [Hbn Hbs] Hnew Hold. split.
  - intros [E1 E2]%app_eq_nil. assert (sets = []) as -> by (by destruct sets). cbn [length] in *. rewrite E1 in *.
    assert (new_nodes = ∅) as ->.
    { apply map_empty. intros k. destruct (new_nodes !! k) eqn:E; [|done]. apply Hbn in E as (w & _ & _ & Hw & _). lia. }
    assert (Estale : elements stale = []).
    { apply elements_empty_iff. intros i. split; [|set_solver]. intros Hi. apply Hbs in Hi as [Hw _]. lia. }
    unfold index_rows. rewrite Estale, (left_id_L ∅ (∪)). by apply (state_genesis _ _ _ _ _ Hrows).
  - intros i [Hi|Hi]%index_rows_stale; rewrite length_app, states_length.
    + destruct (state_stale _ _ _ _ _ Hrows i Hi) as [Hb ?]. split; [lia|done].
    + destruct (Hbs i Hi) as [Hb ?]. split; [lia|done].
  - apply Forall_app. split; [by apply (state_nonempty _ _ _ _ _ Hrows)|by apply states_nonempty].
  - intros w es Hl Hw Hes. assert (Hw' : w < first + Z.of_nat (length sets)).
    { apply lookup_lt_Some in Hes. rewrite length_app, states_length in Hes. lia. }
    assert (Hvt : version_tree (reader_get_node (overlay new_nodes (state_reader store))) (add_stale (stale_rows indices) stale) w es).
    { apply lookup_app_Some in Hes as [Hes|[Hge Hes]].
      - apply Hold; [apply lookup_lt_Some in Hes; lia|]. eapply readable_tree; eauto. lia.
      - apply Hnew in Hes. by replace (first + Z.of_nat (Z.to_nat w - length hist)) with w in Hes by lia. }
    eapply version_tree_impl; [exact Hvt| |intros i ?%index_rows_stale; by left].
    intros q v node Hq [Ho _] Hg. unfold reader_get_node in *. cbn [reader_get_node_option overlay table_reader] in *.
    destruct (new_nodes !! node_key_of v q) eqn:En; [by rewrite (lookup_union_Some_l _ _ _ _ En)|].
    rewrite lookup_union_r by done. change (db_get JellyfishMerkleNodeSchema _) with (reader_get_node_option (state_reader store)) in Hg.
    by rewrite (state_reader_get db T Htab) in Hg by (eapply old_key_ok; [|exact Ho|done]; lia).
Qed.

Lemma put_account_state_sets_rows sets cs W : Forall (fun m => m <> ∅) sets -> Forall (map_Forall (fun _ => storable_blob)) sets ->
  first + Z.of_nat (length sets) < u64_max -> batch_tables (cs_batch cs) W -> exists cs' new_nodes stale,
  put_account_state_sets store sets first cs = Ok (cs', map state_root (states (current es0 hist) (map blob_set sets))) /\
  batch_tables (cs_batch cs') (state_writes new_nodes stale W) /\
  dom (cs_counter_bumps cs') ⊆ dom (cs_counter_bumps cs) ∪ list_to_set (map counter_raw_key [NewStateNodes; NewStateLeaves; StaleStateNodes; StaleStateLeaves]) /\
  state_rows (new_nodes ∪ nodes) (map_put (index_rows stale) indices) es0 least (hist ++ states (current es0 hist) (map blob_set sets)) /\
  forall w, first <= w < first + Z.of_nat (length sets) -> 0 < w -> mkStaleNodeIndex w (node_key_of (w - 1) []) ∈ stale.
Proof.
  intros Hne Hbl Hmax Hb. assert (Hne' : Forall (fun b => b <> []) (map blob_set sets)).
  { apply list.Forall_fmap. eapply list.Forall_impl; [exact Hne|]. intros m Hm. cbn. unfold blob_set. intros E%map_eq_nil.
    apply Hm. by apply map_to_list_empty_iff. }
  destruct (put_blob_sets_ok (state_reader store) (stale_rows indices) first (current es0 hist) (map blob_set sets))
    as (batch & E & Hok & Hnew & Hold & Hroots); [lia|by apply (state_stale _ _ _ _ _ Hrows)|eapply state_base; eauto; lia|done|by rewrite length_map|].
  rewrite length_map in Hok, Hroots.
  assert (Hl : forall k node, node_batch batch !! k = Some node -> leaf_ok encodable node).
  { eapply put_blob_sets_leaves; [| |exact E].
    - intros k node Hg. destruct node as [| |leaf]; [done..|]. apply (state_reader_row db T Htab) in Hg. cbn in Hg |- *. unfold encodable.
      by destruct (lcs_to_bytes leaf).
    - apply list.Forall_fmap. eapply list.Forall_impl; [exact Hbl|]. intros m Hm. cbn. unfold blob_set. apply list.Forall_fmap.
      apply map_Forall_to_list in Hm. eapply list.Forall_impl; [exact Hm|]. by intros [a b]. }
  destruct (batch_storable first (first + Z.of_nat (length sets)) _ _ ltac:(lia) ltac:(lia) Hok Hl) as [Hsn Hss].
  unfold put_account_state_sets. rewrite E. cbn [mbind result_bind].
  destruct (batch_put_all_table JellyfishMerkleNodeSchema (map_to_list (node_batch batch)) (cs_batch cs) W Hsn Hb) as (b' & Eb & Hb').
  unfold add_node_batch. cbn [cs_batch cs_bump]. rewrite Eb. cbn [mbind result_bind].
  match goal with |- context [cs_put_all StaleNodeIndexSchema _ ?cs1] =>
    destruct (cs_put_all_table StaleNodeIndexSchema (index_rows (stale_node_index_batch batch)) cs1 _ Hss Hb') as (cs' & Ec & Hb'' & Hcb) end.
  unfold index_rows in Ec. rewrite Ec. cbn [mbind result_bind]. exists cs', (node_batch batch), (stale_node_index_batch batch).
  split_and!; [done|exact Hb''| | |exact Hroots].
  - rewrite Hcb. cbn [cs_counter_bumps cs_bump]. unfold bumps_bump, inc, raw_inc. rewrite !dom_insert_L. set_solver.
  - apply state_rows_app; [done|by rewrite length_map|by rewrite length_map|done|done].
Qed.
End Writes.
End StateStoreProof.
