(* ===== verification/EventStoreProof.v ===== *)
(** * Correctness of the event store

    [event_rows] ties the rows of events, of their index by key and of the event
    accumulators to the events of every version.  Events come back in the order in which
    they were emitted, with proofs that verify against the event root of their version;
    the index finds the events of a key up to a ledger version, and the searches for the
    latest of them end at it. *)

From S2P Require Import Prelude U64 Bytes Lcs SchemaDb LedgerCounters.
From S2P Require Import Crypto Hash Position Accumulator AccumulatorProof MerkleAccumulator.
From S2P Require Import ValidatorVerifier LedgerInfo LedgerProof NodeType Schema Tables LedgerStore LedgerStoreProof.
From S2P Require Import StateStore EventStore.

(** A sorted list with the elements that satisfy [f] before the others. *)
Lemma sorted_split {A} (R : A -> A -> Prop) f l : Sorted.StronglySorted R l ->
  (forall x y, f x = false -> f y = true -> x ∈ l -> y ∈ l -> ~ R x y) -> l = List.filter f l ++ List.filter (fun x => negb (f x)) l.
Proof.
  induction 1 as [|x l _ IH Hf]; intros Hl; [done|]. cbn. destruct (f x) eqn:Ex; cbn [negb app].
  - f_equal. apply IH. intros y z Hy Hz Hin Hin'. apply Hl; [done|done|by right|by right].
  - assert (Hn : List.filter f l = []).
    { apply filter_none. intros y Hy%list_elem_of_In. destruct (f y) eqn:Ey; [|done]. exfalso. rewrite list.Forall_forall in Hf.
      apply (Hl x y Ex Ey); [by left|by right|by apply Hf]. }
    rewrite Hn. cbn. f_equal. symmetry. apply forallb_filter_id, forallb_forall. intros y Hy.
    destruct (f y) eqn:Ey; [|done]. assert (Hin : In y (List.filter f l)) by (by apply filter_In). by rewrite Hn in Hin.
Qed.

(** The elements of an ascending list up to a bound are a prefix of it. *)
Section Prefix.
Context {A : Type} (f : A -> Z) (c : Z).
Notation upto := (List.filter (fun x => f x <=? c)).

Lemma ascending_upto l : Sorted.StronglySorted (fun x y => f x <= f y) l ->
  upto l = take (length (upto l)) l /\ forall i x, l !! i = Some x -> (f x <= c <-> (i < length (upto l))%nat).
Proof.
  induction 1 as [|x l _ [IH1 IH2] Hf]; cbn [List.filter]; [done|]. destruct (Z.leb_spec (f x) c) as [Hx|Hx]; cbn [length take].
  - split; [by f_equal|]. intros [|i] y Hy; cbn in Hy; [injection Hy as <-; lia|]. rewrite (IH2 _ _ Hy). lia.
  - assert (Hn : upto l = []).
    { apply filter_none. intros y Hy. apply Z.leb_gt. rewrite list.Forall_forall in Hf. specialize (Hf y (proj2 (list_elem_of_In _ _) Hy)). lia. }
    rewrite Hn. split; [done|]. intros [|i] y Hy; cbn in *; [injection Hy as <-; lia|]. apply list_elem_of_lookup_2 in Hy.
    rewrite list.Forall_forall in Hf. specialize (Hf y Hy). lia.
Qed.

Lemma upto_drop l : forall n, Sorted.StronglySorted (fun x y => f x <= f y) l -> upto (drop n l) = drop n (upto l).
Proof.
  induction l as [|x l IH]; intros n Hs; [by destruct n|]. destruct n as [|n]; [done|]. inversion Hs as [|? ? Hs' Hf]; subst.
  cbn [drop List.filter]. rewrite IH by done. destruct (Z.leb_spec (f x) c) as [Hx|Hx]; [done|].
  rewrite (filter_none (fun x => f x <=? c) l); [by destruct n|]. intros y Hy. apply Z.leb_gt.
  rewrite list.Forall_forall in Hf. specialize (Hf y (proj2 (list_elem_of_In _ _) Hy)). lia.
Qed.

Lemma drop_sorted {R : A -> A -> Prop} l : forall n, Sorted.StronglySorted R l -> Sorted.StronglySorted R (drop n l).
Proof.
  induction l as [|x l IH]; intros n Hs; [by destruct n|]. destruct n as [|n]; [done|]. inversion Hs; subst. by apply IH.
Qed.
End Prefix.

Notation event_at := (Z * Z * ContractEvent)%type (only parsing).

Section Events.
Context `{Crypto}.

(** All events from version [k] on: their version and index, in the order of the keys. *)
Fixpoint all_events (k : Z) (evs : list (list ContractEvent)) : list event_at :=
  match evs with
  | [] => []
  | es :: evs => map (fun '(i, e) => (k, i, e)) (indexed 0 es) ++ all_events (k + 1) evs
  end.

Definition of_key (key : bytes) (r : event_at) : bool := bool_decide (ce_key r.2 = key).
Definition key_events (key : bytes) (evs : list (list ContractEvent)) : list event_at :=
  List.filter (of_key key) (all_events 0 evs).

(** The events of a key are numbered from 0 on, as the handles of the Move VM count them. *)
Definition sequenced (evs : list (list ContractEvent)) : Prop :=
  forall key j r, key_events key evs !! j = Some r -> ce_sequence_number r.2 = Z.of_nat j.

Lemma all_events_elem evs : forall k v i e, (v, i, e) ∈ all_events k evs <->
  k <= v /\ 0 <= i /\ exists es, evs !! Z.to_nat (v - k) = Some es /\ es !! Z.to_nat i = Some e.
Proof.
  induction evs as [|es evs IH]; intros k v i e; cbn [all_events].
  - split; [by intros ?%elem_of_nil|]. by intros (_ & _ & es & Hes & _).
  - rewrite elem_of_app, IH, list_elem_of_fmap. split.
    + intros [([i' e'] & [= -> -> ->] & [Hi He]%indexed_elem)|(Hv & Hi & es' & Hes & He)].
      * rewrite Z.sub_diag, Z.sub_0_r in *. split_and!; [lia|lia|]. by exists es.
      * split_and!; [lia|lia|]. exists es'. split; [|done]. by replace (Z.to_nat (v - k)) with (S (Z.to_nat (v - (k + 1)))) by lia.
    + intros (Hv & Hi & es' & Hes & He). destruct (decide (v = k)) as [->|].
      * left. rewrite Z.sub_diag in Hes. injection Hes as ->. exists (i, e). split; [done|]. apply indexed_elem. by rewrite Z.sub_0_r.
      * right. split_and!; [lia|lia|]. exists es'. split; [|done].
        by replace (Z.to_nat (v - k)) with (S (Z.to_nat (v - (k + 1)))) in Hes by lia.
Qed.

Lemma all_events_app a : forall k b, all_events k (a ++ b) = all_events k a ++ all_events (k + Z.of_nat (length a)) b.
Proof.
  induction a as [|es a IH]; intros k b; cbn [all_events app length]; [by rewrite Z.add_0_r|].
  rewrite IH, <- app_assoc. do 3 f_equal. lia.
Qed.

Lemma key_events_app key a b : key_events key (a ++ b) =
  key_events key a ++ List.filter (of_key key) (all_events (Z.of_nat (length a)) b).
Proof. unfold key_events. by rewrite all_events_app, List.filter_app. Qed.

Lemma key_events_elem key evs r : r ∈ key_events key evs <-> r ∈ all_events 0 evs /\ ce_key r.2 = key.
Proof. unfold key_events, of_key. by rewrite list_elem_of_In, filter_In, <- list_elem_of_In, bool_decide_eq_true. Qed.

Lemma sequenced_app (evs new : list (list ContractEvent)) : sequenced (evs ++ new) -> sequenced evs.
Proof.
  intros Hs key j r Hr. apply (Hs key). rewrite key_events_app. by apply lookup_app_l_Some.
Qed.

(** *** In order *)

Definition pos_lt (r1 r2 : event_at) : Prop := r1.1.1 < r2.1.1 \/ (r1.1.1 = r2.1.1 /\ r1.1.2 < r2.1.2).

Lemma all_events_sorted evs : forall k, Sorted.StronglySorted pos_lt (all_events k evs).
Proof.
  induction evs as [|es evs IH]; intros k; cbn [all_events]; [constructor|]. apply sorting.StronglySorted_app. split_and!.
  - intros [[v1 i1] e1] [[v2 i2] e2] ([i e] & [= -> -> ->] & _)%list_elem_of_fmap (Hv & _)%all_events_elem. left. cbn. lia.
  - pose proof (indexed_ascending (V:=ContractEvent) es 0) as Ha. unfold ascending in Ha. induction Ha as [|[i e] l _ IHa Hf]; cbn; constructor; [done|].
    apply list.Forall_fmap. eapply list.Forall_impl; [exact Hf|]. intros [i' e'] Hlt. right. cbn in *. lia.
  - apply IH.
Qed.

(** The versions of the events of a key ascend. *)
Lemma key_events_sorted key evs i j r1 r2 : (i <= j)%nat -> key_events key evs !! i = Some r1 -> key_events key evs !! j = Some r2 ->
  r1.1.1 <= r2.1.1.
Proof.
  intros Hij Hi Hj. destruct (decide (i = j)) as [->|]; [rewrite Hi in Hj; by injection Hj as ->|].
  pose proof (filter_sorted _ (of_key key) _ (all_events_sorted evs 0)) as Hs. fold (key_events key evs) in Hs.
  destruct (strongly_sorted_lookup_1 _ _ Hs i j r1 r2 ltac:(lia) Hi Hj); lia.
Qed.
End Events.

Section EventStoreProof.
Context `{Crypto} `{B : !HashBytes, !HashBytesLaws B, !LedgerHashers}.
Context `{!CryptoHash ContractEvent}.
Context `{!Lcs LedgerInfoWithSignatures, !Lcs TransactionInfo, !Lcs Transaction, !Lcs ContractEvent, !Lcs LedgerCounters,
  !Lcs LeafNode}.
Context `{!LcsLaws LedgerInfoWithSignatures, !LcsLaws TransactionInfo, !LcsLaws Transaction, !LcsLaws ContractEvent,
  !LcsLaws LedgerCounters, !LcsLaws LeafNode}.
Context {rocks raw_iter : Type} `{!RocksDB rocks raw_iter, !RocksDBLaws rocks raw_iter}.

Notation event_nhash := (nhash EventAccumulatorInternalNode_hash ACCUMULATOR_PLACEHOLDER_HASH).
Notation event_tree_root := (tree_root EventAccumulatorInternalNode_hash ACCUMULATOR_PLACEHOLDER_HASH).
Notation event_hashes := (map (crypto_hash (T:=ContractEvent))).

Record event_rows (te : gmap (Z * Z) ContractEvent) (tea : gmap (Z * Z) HashValue) (tek : gmap (bytes * Z) (Z * Z))
    (evs : list (list ContractEvent)) : Prop := {
  events_length : Z.of_nat (length evs) < 2 ^ 63 /\ Forall (fun es => Z.of_nat (length es) < 2 ^ 63) evs;
  events_table v i e : te !! (v, i) = Some e <-> (v, i, e) ∈ all_events 0 evs;
  events_node v es l p : 0 <= v -> evs !! Z.to_nat v = Some es -> 0 <= l -> 0 <= p -> (p + 1) * 2 ^ l <= Z.of_nat (length es) ->
    tea !! (v, inorder l p) = Some (event_nhash (event_hashes es) l p);
  events_index key s : tek !! (key, s) = if 0 <=? s then fst <$> key_events key evs !! Z.to_nat s else None;
  events_sequenced : sequenced evs
}.

Lemma event_rows_nil : event_rows ∅ ∅ ∅ [].
Proof.
  split; try done.
  - intros v i e. rewrite lookup_empty. cbn. by rewrite elem_of_nil.
  - intros key s. rewrite lookup_empty. by destruct (0 <=? s).
Qed.

(** ** Writing *)

(** The rows of the index for some events, and those of their accumulators. *)
Definition index_of (r : event_at) : bytes * Z * (Z * Z) := (ce_key r.2, ce_sequence_number r.2, r.1).
Definition accumulator_rows (k : Z) (new : list (list ContractEvent)) (rows : list (Z * Z * HashValue)) : Prop :=
  forall v pos h, (v, pos, h) ∈ rows <-> k <= v /\ exists es l p, new !! Z.to_nat (v - k) = Some es /\ 0 <= l /\ 0 <= p /\
    (p + 1) * 2 ^ l <= Z.of_nat (length es) /\ pos = inorder l p /\ h = event_nhash (event_hashes es) l p.

Definition fits (es : list ContractEvent) : Prop := Z.of_nat (length es) < 2 ^ 63.

Lemma event_index_app (evs new : list (list ContractEvent)) (tek : gmap (bytes * Z) (Z * Z)) : sequenced (evs ++ new) ->
  (forall key s, tek !! (key, s) = if 0 <=? s then fst <$> key_events key evs !! Z.to_nat s else None) ->
  forall key s, map_put (map index_of (all_events (Z.of_nat (length evs)) new)) tek !! (key, s) =
    if 0 <=? s then fst <$> key_events key (evs ++ new) !! Z.to_nat s else None.
Proof.
  intros Hseq Hidx key s. set (rows := map index_of _).
  assert (Hrow : forall p, (key, s, p) ∈ rows -> 0 <= s /\ fst <$> key_events key (evs ++ new) !! Z.to_nat s = Some p).
  { intros p (r & [= -> -> ->] & Hr)%list_elem_of_fmap.
    assert (Hin : r ∈ List.filter (of_key (ce_key r.2)) (all_events (Z.of_nat (length evs)) new)).
    { apply list_elem_of_In, filter_In. split; [by apply list_elem_of_In|]. unfold of_key. by apply bool_decide_eq_true. }
    apply list_elem_of_lookup in Hin as [j Hj].
    assert (Hk : key_events (ce_key r.2) (evs ++ new) !! (length (key_events (ce_key r.2) evs) + j)%nat = Some r).
    { rewrite key_events_app, lookup_app_r by lia. by replace (_ + j - _)%nat with j by lia. }
    rewrite (Hseq _ _ _ Hk), Nat2Z.id, Hk. split; [lia|done]. }
  destruct (decide ((key, s) ∈ rows.*1)) as [Hin|Hin].
  - apply list_elem_of_fmap in Hin as ([k0 p] & E0 & Hin); cbn in E0; subst k0. destruct (Hrow p Hin) as [Hs Hp].
    rewrite (map_put_elem rows tek (key, s) p Hin), Hp by (intros p' Hp'; apply Hrow in Hp' as [_ Hp']; congruence).
    by destruct (Z.leb_spec 0 s); [|lia].
  - rewrite map_put_notin, Hidx by done. destruct (Z.leb_spec 0 s); [|done]. rewrite key_events_app.
    destruct (decide (Z.to_nat s < length (key_events key evs))%nat); [by rewrite lookup_app_l|].
    rewrite (lookup_ge_None_2 (key_events key evs)), lookup_app_r by lia. cbn. symmetry. apply eq_None_not_Some. intros [p Hp]. apply Hin.
    destruct (List.filter _ _ !! _) as [r|] eqn:Er; [|done]. injection Hp as <-.
    assert (Hk : key_events key (evs ++ new) !! Z.to_nat s = Some r) by (rewrite key_events_app, lookup_app_r by lia; done).
    apply list_elem_of_lookup_2, list_elem_of_In, filter_In in Er as [Hr Hkey]. apply list_elem_of_In in Hr.
    apply Hseq in Hk. rewrite Z2Nat.id in Hk by lia. unfold of_key in Hkey. apply bool_decide_eq_true in Hkey.
    apply list_elem_of_fmap. exists (index_of r). split; [unfold index_of; cbn; by rewrite Hkey, Hk|]. by apply list_elem_of_fmap_2.
Qed.

Lemma event_rows_app te tea tek (evs new : list (list ContractEvent)) rows : event_rows te tea tek evs -> sequenced (evs ++ new) ->
  Z.of_nat (length (evs ++ new)) < 2 ^ 63 -> Forall fits new -> accumulator_rows (Z.of_nat (length evs)) new rows ->
  event_rows (map_put (all_events (Z.of_nat (length evs)) new) te) (map_put rows tea)
    (map_put (map index_of (all_events (Z.of_nat (length evs)) new)) tek) (evs ++ new).
Proof.
  intros [[_ Hl] Ht Hn Hi Hs] Hseq Hlen Hfit Hacc. split.
  - split; [done|]. apply Forall_app. by split.
  - intros v i e. rewrite all_events_app, elem_of_app, Z.add_0_l. split.
    + intros [?|?]%map_put_inv; [by right|left; by apply Ht].
    + destruct (decide ((v, i) ∈ (all_events (Z.of_nat (length evs)) new).*1)) as [Hin|Hin].
      * intros He. apply list_elem_of_fmap in Hin as ([[v' i'] e'] & [= <- <-] & Hin).
        pose proof Hin as (Hv & Hi' & es & Hes & He')%all_events_elem.
        assert (Hu : forall x, (v, i, x) ∈ all_events (Z.of_nat (length evs)) new -> x = e').
        { intros x (_ & _ & es' & Hes' & Hx)%all_events_elem. congruence. }
        destruct He as [(_ & _ & es' & Hes' & _)%all_events_elem|He]; [apply lookup_lt_Some in Hes'; lia|].
        rewrite (Hu e He). by apply map_put_elem.
      * intros [He|He]; [by rewrite map_put_notin, Ht by done|]. exfalso. apply Hin. apply list_elem_of_fmap. by exists (v, i, e).
  - intros v es l p Hv Hes Hl0 Hp Hb.
    assert (Hbound : Z.of_nat (length es) < 2 ^ 63).
    { apply lookup_app_Some in Hes as [Hes|[_ Hes]]; [by eapply Forall_lookup_1 in Hl|by eapply Forall_lookup_1 in Hfit]. }
    apply lookup_app_Some in Hes as [Hes|[Hge Hes]].
    + rewrite map_put_notin; [by apply Hn|]. intros ([[v' pos] h] & [= <- <-] & Hin)%list_elem_of_fmap.
      apply Hacc in Hin as (Hv' & _). apply lookup_lt_Some in Hes. lia.
    + assert (Hv' : Z.of_nat (length evs) <= v) by lia.
      replace (Z.to_nat v - length evs)%nat with (Z.to_nat (v - Z.of_nat (length evs))) in Hes by lia.
      apply map_put_elem.
      * apply Hacc. split; [done|]. by exists es, l, p.
      * intros h Hin. apply Hacc in Hin as (_ & es' & l' & p' & Hes' & Hl' & Hp' & Hb' & E & ->).
        rewrite Hes in Hes'. injection Hes' as <-. apply inorder_inj in E as [-> ->]; [done|apply valid_node_full; lia..].
  - by apply event_index_app.
  - done.
Qed.

(** Events that can be stored: within the limits of LCS, with a key and a number of their widths. *)
Record event_storable (e : ContractEvent) : Prop := {
  storable_encodable : encodable e;
  storable_key : length (ce_key e) = EVENT_KEY_LENGTH;
  storable_seq : is_u64 (ce_sequence_number e)
}.

(** What saving events adds to the batch. *)
Definition event_writes (events : list event_at) (rows : list (Z * Z * HashValue)) (W : Tables) : Tables :=
  on_event_accumulator (map_put rows) (on_event_by_key (map_put (map index_of events)) (on_event (map_put events) W)).

Lemma event_writes_app events1 events2 rows1 rows2 W :
  event_writes events2 rows2 (event_writes events1 rows1 W) = event_writes (events1 ++ events2) (rows1 ++ rows2) W.
Proof.
  apply tables_ext; try reflexivity; unfold event_writes; rewrite ?map_app; symmetry; apply map_put_app.
Qed.

Lemma put_event_rows version rows : is_u64 version -> Forall (fun r => is_u64 r.1 /\ event_storable r.2) rows ->
  forall cs W, batch_tables (cs_batch cs) W -> exists cs', result_fold (put_event version) rows cs = Ok cs' /\
    batch_tables (cs_batch cs') (event_writes (map (fun '(i, e) => (version, i, e)) rows) [] W) /\
    cs_counter_bumps cs' = cs_counter_bumps cs.
Proof.
  intros Hv. induction rows as [|[i e] rows IH]; intros Hok cs W Hb; cbn [result_fold map].
  { exists cs. split_and!; [done| |done]. by destruct W. }
  apply list.Forall_cons in Hok as [[Hi [He Hk Hs]] Hok]. cbn [fst snd] in *.
  change (put_event version cs (i, e)) with (cs1 ← cs_put EventSchema cs (version, i) e;
    cs_put EventByKeySchema cs1 (ce_key e, ce_sequence_number e) (version, i)).
  destruct (cs_put_table EventSchema cs W (version, i) e) as (cs1 & E1 & Hb1 & Hc1); [by split_and!|done|].
  rewrite E1. cbn [mbind result_bind].
  destruct (cs_put_table EventByKeySchema cs1 (on_event <[(version, i) := e]> W) (ce_key e, ce_sequence_number e) (version, i)) as (cs2 & E2 & Hb2 & Hc2);
    [by split_and!|exact Hb1|]. rewrite E2. cbn [mbind result_bind].
  destruct (IH Hok cs2 _ Hb2) as (cs' & E & Hb' & Hc'). exists cs'. split_and!; [done| |congruence]. exact Hb'.
Qed.

Lemma put_events_rows (self : EventStore (rocks:=rocks)) version events cs W : is_u64 version -> fits events -> Forall event_storable events ->
  batch_tables (cs_batch cs) W -> exists cs' rows,
    put_events self version events cs = Ok (cs', event_tree_root (event_hashes events)) /\
    batch_tables (cs_batch cs') (event_writes (all_events version [events]) rows W) /\ accumulator_rows version [events] rows /\
    dom (cs_counter_bumps cs') ⊆ dom (cs_counter_bumps cs) ∪ {[ counter_raw_key EventsCreated ]}.
Proof.
  intros Hv Hfit Hok Hb. unfold put_events. cbn [cs_batch cs_bump]. rewrite indexed_zip. unfold fits in Hfit.
  destruct (put_event_rows version (indexed 0 events) Hv) with (cs := cs_bump cs EventsCreated (Z.of_nat (length events))) (W := W)
    as (cs1 & E1 & Hb1 & Hc1); [|exact Hb|].
  { apply list.Forall_forall. intros [i e] [Hi He]%indexed_elem. cbn. split; [apply lookup_lt_Some in He; unfold is_u64; lia|].
    by eapply Forall_lookup_1 in Hok. }
  rewrite E1. cbn [mbind result_bind].
  destruct (append_writes EventAccumulatorInternalNode_hash ACCUMULATOR_PLACEHOLDER_HASH mkEmptyReader [] (event_hashes events))
    as (writes & Ea & Hw); [cbn [app]; by rewrite length_map| |].
  { intros l p Hl Hp Hlp. cbn in Hlp. assert (0 < 2 ^ l) by (apply pow2_pos; lia). nia. }
  cbn [length app] in Ea, Hw. change (Z.of_nat 0) with 0 in *. rewrite Ea. cbn [mbind result_bind]. rewrite length_map in Hw.
  set (rows := map (fun '(pos, hash) => (version, pos, hash)) writes).
  assert (Hrows : Forall (storable EventAccumulatorSchema) rows).
  { apply list.Forall_forall. intros [[v pos] h] ([pos' h'] & [= -> -> ->] & Hin)%list_elem_of_fmap. apply Hw in Hin as (l & p & Hl & Hp & Hlp & -> & _).
    split; [|done]. cbn. split; [done|]. apply valid_node_u64, valid_node_full; lia. }
  destruct (cs_put_all_table EventAccumulatorSchema rows cs1 _ Hrows Hb1) as (cs2 & E2 & Hb2 & Hc2). rewrite E2. cbn [mbind result_bind].
  exists cs2, rows. split_and!; [done| | |].
  - cbn [all_events]. rewrite app_nil_r. exact Hb2.
  - intros v pos h. unfold rows. rewrite list_elem_of_fmap. split.
    + intros ([pos' h'] & [= -> -> ->] & Hin). apply Hw in Hin as (l & p & Hl & Hp & Hlp & -> & ->). split; [lia|].
      exists events, l, p. rewrite Z.sub_diag. split_and!; (done || lia).
    + intros (Hle & es & l & p & Hes & Hl & Hp & Hlp & -> & ->). apply list_lookup_singleton_Some in Hes as [Hv0 <-].
      exists (inorder l p, event_nhash (event_hashes events) l p). split; [f_equal; f_equal; lia|]. apply Hw. exists l, p.
      assert (0 < 2 ^ l) by (apply pow2_pos; lia). split_and!; (done || nia).
  - rewrite Hc2, Hc1. cbn [cs_counter_bumps cs_bump]. unfold bumps_bump, inc, raw_inc. rewrite dom_insert_L. set_solver.
Qed.

(** ** Reading *)

Lemma event_key_lt v1 i1 v2 i2 : is_u64 v1 -> is_u64 i1 -> is_u64 v2 -> is_u64 i2 ->
  bytes_ltb (u64_be v1 ++ u64_be i1) (u64_be v2 ++ u64_be i2) = (v1 <? v2) || ((v1 =? v2) && (i1 <? i2)).
Proof.
  intros. rewrite bytes_ltb_app, !bytes_ltb_u64 by (done || by rewrite !u64_be_length). do 2 f_equal.
  destruct (Z.eqb_spec v1 v2) as [->|Hne]; [by apply bool_decide_eq_true|]. apply bool_decide_eq_false. intros E. by apply u64_be_inj in E.
Qed.

Section Reads.
Context (db : rocks) (T : Tables) (Htab : tables db T) (evs : list (list ContractEvent)).
Context (Hrows : event_rows (t_event T) (t_event_accumulator T) (t_event_by_key T) evs).
Notation store := (mkEventStore (mkDB db)).

Lemma events_u64 k l v i e : (v, i, e) ∈ all_events k l -> 0 <= k -> k + Z.of_nat (length l) < 2 ^ 63 -> Forall fits l -> is_u64 v /\ is_u64 i.
Proof.
  intros (Hv & Hi & es & Hes & He)%all_events_elem Hk Hl Hf. eapply Forall_lookup_1 in Hf; [|exact Hes]. unfold fits in Hf.
  apply lookup_lt_Some in Hes, He. unfold is_u64. lia.
Qed.

Lemma event_rows_sorted : sorted_rows EventSchema (t_event T) = all_events 0 evs.
Proof.
  destruct (events_length _ _ _ _ Hrows) as [Hl Hf].
  apply (sorted_rows_unique EventSchema); [intros k v Hkv; exact (column_keys EventSchema db _ k v (col_event _ _ Htab) Hkv)| |intros [v i] e; symmetry; apply (events_table _ _ _ _ Hrows)].
  assert (Hu : Forall (fun r : event_at => is_u64 r.1.1 /\ is_u64 r.1.2) (all_events 0 evs)).
  { apply list.Forall_forall. intros [[v i] e] Hin. cbn. by eapply events_u64. }
  pose proof (all_events_sorted evs 0) as Hs. revert Hu. induction Hs as [|r l _ IH Hall]; intros Hu; constructor; apply list.Forall_cons in Hu as [Hr Hu].
  - by apply IH.
  - rewrite list.Forall_forall in *. intros r' Hr'. specialize (Hall r' Hr'). destruct (Hu r' Hr'), Hr. destruct r as [[v i] e], r' as [[v' i'] e'].
    unfold row_lt, bytes_lt. change (raw_key EventSchema ?p) with (u64_be p.1 ++ u64_be p.2). cbn [fst snd] in *.
    rewrite event_key_lt by done. unfold pos_lt in Hall. cbn in Hall. apply orb_true_iff. rewrite andb_true_iff, !Z.ltb_lt, Z.eqb_eq. done.
Qed.

Lemma events_from version : is_u64 version ->
  rows_from EventSchema (u64_be version) (t_event T) = all_events version (drop (Z.to_nat version) evs).
Proof.
  intros Hv. destruct (events_length _ _ _ _ Hrows) as [Hl Hf]. unfold rows_from. rewrite event_rows_sorted.
  rewrite <- (take_drop (Z.to_nat version) evs) at 1. rewrite all_events_app, List.filter_app, Z.add_0_l.
  assert (Hkey : forall v i e, is_u64 v -> bytes_leb (u64_be version) (raw_key EventSchema (v, i, e : ContractEvent).1) = (version <=? v)).
  { intros v i e Hu. change (raw_key EventSchema (v, i, e).1) with (u64_be v ++ u64_be i). unfold bytes_leb.
    rewrite <- (app_nil_r (u64_be version)), bytes_ltb_app, bytes_ltb_nil_r, andb_false_r, orb_false_r, bytes_ltb_u64 by (done || by rewrite !u64_be_length).
    by rewrite Z.leb_antisym. }
  rewrite filter_none.
  2:{ intros [[v i] e] Hin%list_elem_of_In. pose proof Hin as (Hv' & Hi & es & Hes & He)%all_events_elem.
      apply lookup_take_Some in Hes as [Hes Hlt]. unfold is_u64 in Hv. rewrite Hkey by (apply lookup_lt_Some in Hes; unfold is_u64; lia).
      apply Z.leb_gt. lia. }
  cbn [app]. destruct (decide (Z.to_nat version <= length evs)%nat) as [Hle|].
  - rewrite length_take, Nat.min_l, Z2Nat.id by (unfold is_u64 in Hv; lia). apply forallb_filter_id, forallb_forall.
    intros [[v i] e] Hin%list_elem_of_In. pose proof Hin as (Hv' & Hi & es & Hes & He)%all_events_elem.
    rewrite Hkey; [by apply Z.leb_le|]. apply lookup_lt_Some in Hes. rewrite length_drop in Hes. unfold is_u64 in *. lia.
  - by rewrite drop_ge by lia.
Qed.

Lemma events_loop version l : forall it acc rest, yields EventSchema it (map (fun '(i, e) => (version, i, e)) l ++ rest) ->
  (forall r, head rest = Some r -> r.1.1 <> version) ->
  rounds (events_of_version_body version) (S (length l)) (it, acc) = inr (Ok (acc ++ map snd l)).
Proof.
  induction l as [|[i e] l IH]; intros it acc rest Hy Hr; cbn [map app length] in *.
  - cbn [rounds events_of_version_body]. rewrite app_nil_r. destruct rest as [|[[v i] e] rest].
    + by rewrite (next_nil _ _ Hy).
    + destruct (next_cons _ _ _ _ Hy) as (it' & E & _). rewrite E. specialize (Hr _ eq_refl). cbn in Hr.
      by rewrite (proj2 (Z.eqb_neq _ _) Hr).
  - destruct (next_cons _ _ _ _ Hy) as (it' & E & Hy'). cbn [rounds events_of_version_body]. rewrite E, Z.eqb_refl. cbn [negb].
    change (rounds (events_of_version_body version) (S (length l)) (it', acc ++ [e]) = inr (Ok (acc ++ e :: map snd l))).
    rewrite (IH it' (acc ++ [e]) rest Hy' Hr). by rewrite <- app_assoc.
Qed.

Lemma indexed_snd {V} (l : list V) : forall k, map snd (indexed k l) = l.
Proof. induction l as [|x l IH]; intros k; [done|]. rewrite indexed_cons. cbn. by rewrite IH. Qed.

(** The events of a version, in order; none for a version beyond the last. *)
Lemma get_events_by_version_rows version : is_u64 version ->
  get_events_by_version store version = Ok (default [] (evs !! Z.to_nat version)).
Proof.
  intros Hv. destruct (events_length _ _ _ _ Hrows) as [Hl Hf]. unfold get_events_by_version. cbn [es_db].
  destruct (seek_yields EventSchema db (t_event T) (u64_be version) (col_event _ _ Htab)) as (it & E & Hy).
  rewrite E. cbn [mbind result_bind]. rewrite (events_from version Hv) in Hy. unfold event_seek_key.
  destruct (evs !! Z.to_nat version) as [es|] eqn:Ees; cbn [default from_option].
  - rewrite (drop_S _ _ _ Ees) in Hy. cbn [all_events] in Hy.
    pose proof (Forall_lookup_1 _ _ _ _ Hf Ees) as Hes. cbn in Hes.
    apply (run_loop_exits _ (S (length (indexed 0 es)))); [unfold indexed; rewrite length_imap; lia|].
    rewrite (events_loop version (indexed 0 es) _ [] _ Hy); [cbn [app]; unfold id; by rewrite indexed_snd|].
    intros [[v i] e] Hr%head_Some_elem_of. apply all_events_elem in Hr as (Hv' & _). cbn. lia.
  - apply lookup_ge_None in Ees. rewrite drop_ge in Hy by lia. apply (run_loop_exits _ 1); [lia|].
    by apply (events_loop version [] _ [] []).
Qed.

(** *** An event with its proof *)

Lemma events_to version : 0 <= version -> version + 1 < 2 ^ 64 ->
  rows_to EventSchema (u64_be (version + 1)) (t_event T) = all_events 0 (take (Z.to_nat (version + 1)) evs).
Proof.
  intros Hv Hv1. destruct (events_length _ _ _ _ Hrows) as [Hl Hf]. unfold rows_to. rewrite event_rows_sorted.
  rewrite <- (take_drop (Z.to_nat (version + 1)) evs) at 1. rewrite all_events_app, List.filter_app, Z.add_0_l.
  assert (Hkey : forall v i e, is_u64 v -> bytes_leb (raw_key EventSchema (v, i, e : ContractEvent).1) (u64_be (version + 1)) = (v <=? version)).
  { intros v i e Hu. change (raw_key EventSchema (v, i, e).1) with (u64_be v ++ u64_be i). unfold bytes_leb.
    rewrite <- (app_nil_r (u64_be (version + 1))), bytes_ltb_app, bytes_ltb_u64 by (by rewrite !u64_be_length || (unfold is_u64 in *; lia)).
    assert (Hn : bytes_ltb [] (u64_be i) = true).
    { assert (Hli : length (u64_be i) = 8%nat) by apply u64_be_length. by destruct (u64_be i). }
    rewrite Hn, andb_true_r. destruct (Z.ltb_spec (version + 1) v), (Z.leb_spec v version); try lia; try done; cbn [orb].
    - apply negb_true_iff, bool_decide_eq_false. intros E. apply u64_be_inj in E; [lia|unfold is_u64 in *; lia|done].
    - apply negb_false_iff, bool_decide_eq_true. f_equal. lia. }
  rewrite (filter_none _ (all_events _ (drop _ _))).
  2:{ intros [[v i] e] Hin%list_elem_of_In. pose proof Hin as (Hv' & Hi & es & Hes & He)%all_events_elem.
      apply lookup_lt_Some in Hes. rewrite length_drop, length_take in *. rewrite Hkey by (unfold is_u64; lia). apply Z.leb_gt. lia. }
  rewrite app_nil_r. apply forallb_filter_id, forallb_forall.
  intros [[v i] e] Hin%list_elem_of_In. pose proof Hin as (Hv' & Hi & es & Hes & He)%all_events_elem.
  apply lookup_take_Some in Hes as [Hes Hlt]. rewrite Hkey; [apply Z.leb_le; lia|]. apply lookup_lt_Some in Hes. unfold is_u64 in *. lia.
Qed.

Lemma events_last version es e : 0 <= version -> evs !! Z.to_nat version = Some es -> list.last es = Some e ->
  head (rev (all_events 0 (take (Z.to_nat (version + 1)) evs))) = Some (version, Z.of_nat (length es) - 1, e).
Proof.
  intros Hv Hes He. replace (Z.to_nat (version + 1)) with (S (Z.to_nat version)) by lia. rewrite (take_S_r _ _ _ Hes), all_events_app.
  rewrite length_take, Nat.min_l, Z2Nat.id, Z.add_0_l by (apply lookup_lt_Some in Hes; lia). cbn [all_events]. rewrite app_nil_r.
  destruct es as [|e' es _] using rev_ind; [done|]. rewrite last_snoc in He. injection He as ->.
  rewrite indexed_snoc, map_app, rev_app_distr, rev_app_distr. cbn. rewrite length_app. cbn. do 3 f_equal. lia.
Qed.

Lemma event_reader_ok version es : 0 <= version -> evs !! Z.to_nat version = Some es ->
  reader_ok EventAccumulatorInternalNode_hash ACCUMULATOR_PLACEHOLDER_HASH (mkEventHashReader store version) (event_hashes es) (Z.of_nat (length es)).
Proof.
  intros Hv Hes l p Hl Hp Hb. destruct (events_length _ _ _ _ Hrows) as [Hlen Hf]. pose proof (Forall_lookup_1 _ _ _ _ Hf Hes) as Hf'. cbn in Hf'.
  unfold reader_get, event_hash_reader. cbn [ehr_store ehr_version es_db].
  rewrite (column_get _ _ _ _ (col_event_accumulator _ _ Htab)).
  - rewrite (events_node _ _ _ _ Hrows version es l p) by done. done.
  - split; cbn; [apply lookup_lt_Some in Hes; unfold is_u64; lia|]. apply valid_node_u64, valid_node_full; lia.
Qed.

Lemma get_event_with_proof_rows version index es e : 0 <= version -> 0 <= index -> evs !! Z.to_nat version = Some es ->
  es !! Z.to_nat index = Some e -> exists pf,
  get_event_with_proof_by_version_and_index store version index = Ok (e, pf) /\
  accumulator_proof_verify EventAccumulatorInternalNode_hash pf (event_tree_root (event_hashes es)) (crypto_hash e) index = Ok tt.
Proof.
  intros Hv Hi Hes He. destruct (events_length _ _ _ _ Hrows) as [Hl Hf].
  pose proof (Forall_lookup_1 _ _ _ _ Hf Hes) as Hf'. cbn in Hf'. apply lookup_lt_Some in Hes as Hv', He as Hi'.
  unfold get_event_with_proof_by_version_and_index. cbn [es_db].
  rewrite (column_get _ _ _ _ (col_event _ _ Htab)) by (split; cbn; unfold is_u64; lia).
  rewrite (proj2 (events_table _ _ _ _ Hrows version index e)) by (apply all_events_elem; split_and!; [lia|lia|]; exists es; by rewrite Z.sub_0_r).
  cbn [mbind result_bind ok_or]. rewrite u64_add_small by lia.
  destruct (seek_for_prev_yields EventSchema db (t_event T) (u64_be (version + 1)) (col_event _ _ Htab)) as (it & E & Hy).
  rewrite E. cbn [mbind result_bind]. rewrite (events_to version) in Hy by lia.
  destruct (list.last es) as [el|] eqn:El; [|apply last_None in El; by subst].
  pose proof (events_last version es el Hv Hes El) as Hlast.
  unfold event_seek_key. rewrite (iter_next_yields _ _ _ Hy).
  destruct (rev (all_events 0 (take (Z.to_nat (version + 1)) evs))) as [|r l]; [done|]. injection Hlast as ->. cbn [head mbind result_bind].
  rewrite Z.eqb_refl. cbn [mbind result_bind]. rewrite u64_add_small by lia. rewrite Z.sub_add.
  rewrite <- (length_map crypto_hash es).
  rewrite (get_proof_view EventAccumulatorInternalNode_hash ACCUMULATOR_PLACEHOLDER_HASH (mkEventHashReader store version) (event_hashes es));
    [|rewrite length_map; lia|rewrite length_map; by apply event_reader_ok|rewrite length_map; lia].
  cbn [mbind result_bind]. eexists. split; [done|]. apply inclusion_complete; [done|rewrite length_map; lia|].
  by rewrite list_lookup_fmap, He.
Qed.

(** *** The index by key *)

Lemma index_key_lt k1 s1 k2 s2 : length k1 = length k2 -> is_u64 s1 -> is_u64 s2 ->
  bytes_ltb (k1 ++ u64_be s1) (k2 ++ u64_be s2) = bytes_ltb k1 k2 || (bool_decide (k1 = k2) && (s1 <? s2)).
Proof. intros. by rewrite bytes_ltb_app, bytes_ltb_u64. Qed.

Lemma index_row key s p : t_event_by_key T !! (key, s) = Some p -> length key = EVENT_KEY_LENGTH /\ is_u64 s.
Proof. intros Hr. exact (column_keys EventByKeySchema db _ _ _ (col_event_by_key _ _ Htab) Hr). Qed.

Lemma index_sorted_rows : Sorted.StronglySorted (row_lt EventByKeySchema) (sorted_rows EventByKeySchema (t_event_by_key T)).
Proof. apply (sorted_rows_sorted EventByKeySchema). intros [k s] p. apply index_row. Qed.

Section Key.
Context (key : bytes) (Hkey : length key = EVENT_KEY_LENGTH).
Notation events := (key_events key evs).

(** The events of the key from a number on, as rows of the index. *)
Definition key_rows (start : Z) (l : list event_at) : list (bytes * Z * (Z * Z)) := imap (fun j r => (key, start + Z.of_nat j, r.1)) l.

Lemma key_rows_cons start r l : key_rows start (r :: l) = (key, start, r.1) :: key_rows (start + 1) l.
Proof. unfold key_rows. cbn. f_equal; [f_equal; f_equal; lia|]. apply imap_ext. intros j x _. cbn. f_equal. f_equal. lia. Qed.

Lemma key_rows_elem start l k s p : (k, s, p) ∈ key_rows start l <->
  k = key /\ start <= s /\ fst <$> l !! Z.to_nat (s - start) = Some p.
Proof.
  unfold key_rows. rewrite elem_of_lookup_imap. split.
  - intros (j & r & [= -> -> ->] & Hj). split_and!; [done|lia|]. replace (Z.to_nat (start + Z.of_nat j - start)) with j by lia. by rewrite Hj.
  - intros (-> & Hs & Hp). destruct (l !! Z.to_nat (s - start)) as [r|] eqn:E; [|done]. injection Hp as <-.
    exists (Z.to_nat (s - start)), r. split; [f_equal; f_equal; lia|done].
Qed.

Lemma events_count : Z.of_nat (length events) <= 2 ^ 64.
Proof.
  destruct (decide (Z.of_nat (length events) <= 2 ^ 64)) as [|Hgt]; [done|]. exfalso.
  destruct (lookup_lt_is_Some_2 events (Z.to_nat (2 ^ 64))) as [r Hr]; [lia|].
  assert (Hrow : t_event_by_key T !! (key, 2 ^ 64) = Some r.1) by (rewrite (events_index _ _ _ _ Hrows); by rewrite Hr).
  apply index_row in Hrow as [_ Hu]. unfold is_u64 in Hu. lia.
Qed.

Lemma key_rows_sorted l : forall start, 0 <= start -> start + Z.of_nat (length l) <= 2 ^ 64 ->
  Sorted.StronglySorted (row_lt EventByKeySchema) (key_rows start l).
Proof.
  induction l as [|r l IH]; intros start Hs Hl; [constructor|]. cbn [length] in Hl. rewrite key_rows_cons. constructor; [apply IH; lia|].
  apply list.Forall_forall. intros [[k s] p] (-> & Hle & Hp)%key_rows_elem. unfold row_lt, bytes_lt.
  change (bytes_ltb (key ++ u64_be start) (key ++ u64_be s) = true).
  destruct (l !! _) eqn:E; [|done]. apply lookup_lt_Some in E.
  rewrite index_key_lt, bytes_ltb_irrefl, bool_decide_eq_true_2 by (done || (unfold is_u64; lia)). cbn. apply Z.ltb_lt. lia.
Qed.

(** From a number on the iterator runs through the events of the key and then into other keys. *)
Lemma index_from start : is_u64 start -> exists rest,
  rows_from EventByKeySchema (key ++ u64_be start) (t_event_by_key T) = key_rows start (drop (Z.to_nat start) events) ++ rest /\
  Forall (fun r => r.1.1 <> key) rest.
Proof.
  intros Hs. set (R := rows_from _ _ _). set (f := fun r : bytes * Z * (Z * Z) => bool_decide (r.1.1 = key)).
  exists (List.filter (fun r => negb (f r)) R). pose proof events_count as Hc. unfold is_u64 in Hs.
  assert (HR : forall k s p, (k, s, p) ∈ R <-> t_event_by_key T !! (k, s) = Some p /\ bytes_leb (key ++ u64_be start) (k ++ u64_be s) = true).
  { intros k s p. unfold R, rows_from. rewrite list_elem_of_In, filter_In, <- list_elem_of_In, sorted_rows_elem. done. }
  assert (Hle : forall s, is_u64 s -> bytes_leb (key ++ u64_be start) (key ++ u64_be s) = (start <=? s)).
  { intros s Hu. unfold bytes_leb. rewrite index_key_lt, bytes_ltb_irrefl, bool_decide_eq_true_2 by (done || (unfold is_u64; lia)).
    by rewrite Z.leb_antisym. }
  assert (HsR : Sorted.StronglySorted (row_lt EventByKeySchema) R) by (by apply filter_sorted, index_sorted_rows).
  split.
  - rewrite (sorted_split (row_lt EventByKeySchema) f R HsR) at 1.
    + f_equal. apply (row_lt_unique EventByKeySchema); [by apply filter_sorted|apply key_rows_sorted; [lia|]|].
      { rewrite length_drop. lia. }
      intros [[k s] p]. rewrite list_elem_of_In, filter_In, <- list_elem_of_In, HR, key_rows_elem. unfold f. cbn [fst]. rewrite bool_decide_eq_true. split.
      * intros [[Hrow Hb] ->]. pose proof (index_row _ _ _ Hrow) as [_ Hu]. rewrite Hle in Hb by done. apply Z.leb_le in Hb.
        split_and!; [done|done|]. rewrite lookup_drop. rewrite (events_index _ _ _ _ Hrows) in Hrow. destruct (Z.leb_spec 0 s); [|lia].
        by replace (Z.to_nat start + Z.to_nat (s - start))%nat with (Z.to_nat s) by lia.
      * intros (-> & Hge & Hp). rewrite lookup_drop in Hp. replace (Z.to_nat start + Z.to_nat (s - start))%nat with (Z.to_nat s) in Hp by lia.
        assert (Hrow : t_event_by_key T !! (key, s) = Some p) by (rewrite (events_index _ _ _ _ Hrows); by destruct (Z.leb_spec 0 s); [|lia]).
        split; [|done]. split; [done|]. pose proof (index_row _ _ _ Hrow) as [_ Hu]. rewrite Hle by done. by apply Z.leb_le.
    + intros [[k1 s1] p1] [[k2 s2] p2] Hf1 Hf2 H1 H2. unfold f in *. cbn [fst] in *. apply bool_decide_eq_false in Hf1. apply bool_decide_eq_true in Hf2. subst k2.
      apply HR in H1 as [Hr1 Hb1], H2 as [Hr2 _]. apply index_row in Hr1 as [Hl1 Hu1], Hr2 as [_ Hu2].
      unfold row_lt, bytes_lt. change (~ bytes_ltb (k1 ++ u64_be s1) (key ++ u64_be s2) = true).
      unfold bytes_leb in Hb1. apply negb_true_iff in Hb1. rewrite index_key_lt in Hb1 |- * by (congruence || done || (unfold is_u64; lia)).
      rewrite bool_decide_eq_false_2, orb_false_r in Hb1 |- * by done. by rewrite Hb1.
  - apply list.Forall_forall. intros r Hr. apply list_elem_of_In, filter_In in Hr as [_ Hr]. unfold f in Hr.
    by apply negb_true_iff, bool_decide_eq_false in Hr.
Qed.

(** The last row up to the greatest number of the key. *)
Lemma index_prev : exists it, iter EventByKeySchema (mkDB db) = Ok it /\
  iter_next EventByKeySchema (raw_iter:=raw_iter) (seek_for_prev it (key ++ u64_be u64_max)) =
    Ok (head (rev (rows_to EventByKeySchema (key ++ u64_be u64_max) (t_event_by_key T)))).
Proof.
  destruct (seek_for_prev_yields EventByKeySchema db (t_event_by_key T) (key ++ u64_be u64_max) (col_event_by_key _ _ Htab)) as (it & E & Hy).
  exists it. split; [done|]. rewrite (iter_next_yields _ _ _ Hy). by destruct (rev _).
Qed.

Lemma index_last : head (rev (rows_to EventByKeySchema (key ++ u64_be u64_max) (t_event_by_key T))) =
    (fun r => (key, Z.of_nat (length events) - 1, r.1)) <$> list.last events \/
  events = [] /\ exists r, head (rev (rows_to EventByKeySchema (key ++ u64_be u64_max) (t_event_by_key T))) = Some r /\ r.1.1 <> key.
Proof.
  set (R := rows_to _ _ _).
  assert (HR : forall k s p, (k, s, p) ∈ R <-> t_event_by_key T !! (k, s) = Some p /\ bytes_leb (k ++ u64_be s) (key ++ u64_be u64_max) = true).
  { intros k s p. unfold R, rows_to. rewrite list_elem_of_In, filter_In, <- list_elem_of_In, sorted_rows_elem. done. }
  assert (HsR : Sorted.StronglySorted (row_lt EventByKeySchema) R) by (by apply filter_sorted, index_sorted_rows).
  destruct (list.last events) as [r|] eqn:El.
  - left. cbn [fmap option_fmap option_map]. rewrite last_lookup in El. pose proof (lookup_lt_Some _ _ _ El).
    assert (Hrow : t_event_by_key T !! (key, Z.of_nat (length events) - 1) = Some r.1).
    { rewrite (events_index _ _ _ _ Hrows). destruct (Z.leb_spec 0 (Z.of_nat (length events) - 1)); [|lia].
      replace (Z.to_nat (Z.of_nat (length events) - 1)) with (pred (length events)) by lia. by rewrite El. }
    pose proof (index_row _ _ _ Hrow) as [_ Hu]. apply (row_lt_last EventByKeySchema); [done| |].
    + apply HR. split; [done|]. unfold bytes_leb. rewrite index_key_lt, bytes_ltb_irrefl, bool_decide_eq_true_2 by (done || (unfold is_u64, u64_max; lia)).
      apply negb_true_iff, Z.ltb_ge. unfold is_u64, u64_max in *. lia.
    + intros [[k s] p] [Hr' Hb]%HR. pose proof (index_row _ _ _ Hr') as [Hlk Hus].
      unfold bytes_leb in Hb. apply negb_true_iff in Hb. rewrite index_key_lt in Hb by (congruence || done || (unfold is_u64, u64_max; lia)).
      apply orb_false_iff in Hb as [Hb _]. unfold row_lt, bytes_lt. change (raw_key EventByKeySchema ?p) with (p.1 ++ u64_be p.2). cbn [fst snd].
      rewrite index_key_lt by (congruence || done). destruct (decide (k = key)) as [->|Hne].
      * rewrite (events_index _ _ _ _ Hrows) in Hr'. destruct (Z.leb_spec 0 s); [|done]. destruct (events !! Z.to_nat s) as [r'|] eqn:Er; [|done].
        injection Hr' as <-. pose proof (lookup_lt_Some _ _ _ Er). destruct (decide (s = Z.of_nat (length events) - 1)) as [->|].
        -- left. replace (Z.to_nat (Z.of_nat (length events) - 1)) with (pred (length events)) in Er by lia. rewrite El in Er. by injection Er as ->.
        -- right. rewrite bool_decide_eq_true_2 by done. apply orb_true_iff. right. apply Z.ltb_lt. lia.
      * right. destruct (bytes_ltb k key) eqn:Ek; [done|]. exfalso. apply Hne. by apply bytes_ltb_total.
  - apply last_None in El. rewrite El. destruct (head (rev R)) as [[[k s] p]|] eqn:Eh; [right|by left]. split; [done|]. eexists. split; [done|]. cbn. intros ->.
    apply head_Some_elem_of in Eh. apply list_elem_of_In, in_rev, list_elem_of_In, HR in Eh as [Hr' _].
    rewrite (events_index _ _ _ _ Hrows), El in Hr'. by destruct (0 <=? s).
Qed.

(** The events of the key up to a ledger version. *)
Context (ledger_version : Z).
Notation later := (fun x y : event_at => x.1.1 <= y.1.1).
Definition events_upto : list event_at := List.filter (fun r => r.1.1 <=? ledger_version) events.
Notation count := (Z.of_nat (length events_upto)).

Lemma key_events_ascending : Sorted.StronglySorted later events.
Proof. apply strongly_sorted_lookup. intros i j x y Hij Hx Hy. eapply key_events_sorted; [|exact Hx|exact Hy]. lia. Qed.

Lemma events_upto_prefix i r : events !! i = Some r -> (r.1.1 <= ledger_version <-> (i < length events_upto)%nat).
Proof. apply (ascending_upto (fun r : event_at => r.1.1) ledger_version events key_events_ascending). Qed.

Lemma count_bound : 0 <= count <= Z.of_nat (length events).
Proof.
  destruct (ascending_upto (fun r : event_at => r.1.1) ledger_version events key_events_ascending) as [E _].
  fold events_upto in E. rewrite E, length_take. lia.
Qed.

(** *** Looking up the events of a key *)

Lemma lookup_loop_ok limit : forall l start it rest, Sorted.StronglySorted later l -> 0 <= start -> start + Z.of_nat (length l) <= 2 ^ 64 ->
  yields EventByKeySchema it (key_rows start l ++ rest) -> Forall (fun r => r.1.1 <> key) rest ->
  lookup_events_loop limit key ledger_version start it =
  Ok (imap (fun j r => (start + Z.of_nat j, r.1.1, r.1.2)) (take limit (List.filter (fun r => r.1.1 <=? ledger_version) l))).
Proof.
  induction limit as [|limit IH]; intros l start it rest Hs H0' Hl Hy Hr; cbn [lookup_events_loop]; [by rewrite take_0|].
  destruct l as [|[[v i] e] l].
  - cbn [key_rows imap app] in Hy. destruct rest as [|[[k s] [v i]] rest]; [by rewrite (next_nil _ _ Hy)|].
    destruct (next_cons _ _ _ _ Hy) as (it' & E & _). rewrite E. apply list.Forall_cons in Hr as [Hk _]. cbn in Hk.
    by rewrite bool_decide_eq_false_2.
  - rewrite key_rows_cons in Hy. cbn [app fst] in Hy. destruct (next_cons _ _ _ _ Hy) as (it' & E & Hy'). rewrite E.
    rewrite bool_decide_eq_true_2 by done. cbn [negb orb List.filter fst length] in *. inversion Hs as [|? ? Hs' Hf]; subst.
    destruct (Z.leb_spec v ledger_version) as [Hv|Hv]; destruct (Z.ltb_spec ledger_version v); try lia.
    + rewrite Z.eqb_refl. cbn [ensure mbind result_bind]. destruct (decide (start + 1 = 2 ^ 64)) as [Hmax|].
      * assert (l = []) as -> by (destruct l; [done|cbn [length] in Hl; lia]). cbn [key_rows imap app] in Hy'.
        assert (Enext : forall c, lookup_events_loop limit key ledger_version c it' = Ok []).
        { intros c. destruct limit; [done|]. cbn [lookup_events_loop]. destruct rest as [|[[k s] [v' i']] rest]; [by rewrite (next_nil _ _ Hy')|].
          destruct (next_cons _ _ _ _ Hy') as (it2 & E2 & _). rewrite E2. apply list.Forall_cons in Hr as [Hk _]. cbn in Hk.
          by rewrite bool_decide_eq_false_2. }
        rewrite Enext. cbn [mbind result_bind List.filter take]. rewrite take_nil. cbn. do 2 f_equal. f_equal. f_equal. lia.
      * rewrite u64_add_small by lia. rewrite (IH l (start + 1) it' rest) by (done || lia). cbn [mbind result_bind take imap].
        f_equal. cbn. f_equal; [f_equal; f_equal; lia|]. apply imap_ext. intros j x _. cbn. f_equal. f_equal. lia.
    + rewrite filter_none; [done|]. intros y Hy0. apply Z.leb_gt. rewrite list.Forall_forall in Hf.
      specialize (Hf y (proj2 (list_elem_of_In _ _) Hy0)). cbn in Hf. lia.
Qed.

Lemma lookup_events_by_key_rows start limit : is_u64 start ->
  lookup_events_by_key store key start limit ledger_version =
  Ok (imap (fun j r => (start + Z.of_nat j, r.1.1, r.1.2)) (take (Z.to_nat limit) (drop (Z.to_nat start) events_upto))).
Proof.
  intros Hs. unfold lookup_events_by_key. cbn [es_db].
  destruct (seek_yields EventByKeySchema db (t_event_by_key T) (key ++ u64_be start) (col_event_by_key _ _ Htab)) as (it & E & Hy).
  rewrite E. cbn [mbind result_bind encode_key EventByKeySchema fst snd].
  destruct (index_from start Hs) as (rest & Er & Hr). rewrite Er in Hy. pose proof events_count as Hc. unfold is_u64 in Hs.
  destruct (decide (Z.of_nat (length events) <= start)) as [Hge|Hlt].
  - rewrite (drop_ge events) in Hy by lia. rewrite (lookup_loop_ok _ [] start _ rest); [|constructor|lia|cbn; lia|done|done].
    cbn [List.filter]. rewrite take_nil, (drop_ge events_upto) by (pose proof count_bound; lia). by rewrite take_nil.
  - rewrite (lookup_loop_ok _ (drop (Z.to_nat start) events) start _ rest);
      [|apply drop_sorted, key_events_ascending|lia|rewrite length_drop; lia|done|done].
    by rewrite (upto_drop (fun r : event_at => r.1.1) ledger_version) by apply key_events_ascending.
Qed.

(** *** The latest number *)

Lemma get_txn_ver_rows s r : 0 <= s -> events !! Z.to_nat s = Some r -> get_txn_ver_by_seq_num store key s = Ok r.1.1.
Proof.
  intros Hs Hr. assert (Hrow : t_event_by_key T !! (key, s) = Some r.1).
  { rewrite (events_index _ _ _ _ Hrows), Hr. by destruct (Z.leb_spec 0 s); [|lia]. }
  unfold get_txn_ver_by_seq_num. cbn [es_db]. rewrite (column_get _ _ _ _ (col_event_by_key _ _ Htab)) by (by apply index_row in Hrow).
  rewrite Hrow. by destruct r as [[v i] e].
Qed.

(** The search at a number: which side the bound is on. *)
Lemma get_txn_ver_side s : 0 <= s < Z.of_nat (length events) -> exists v,
  get_txn_ver_by_seq_num store key s = Ok v /\ (v <=? ledger_version) = (s <? count).
Proof.
  intros Hs. destruct (lookup_lt_is_Some_2 events (Z.to_nat s)) as [r Hr]; [lia|]. exists r.1.1.
  split; [apply get_txn_ver_rows; [lia|done]|]. pose proof (events_upto_prefix _ _ Hr).
  destruct (Z.leb_spec r.1.1 ledger_version), (Z.ltb_spec s count); (done || lia).
Qed.

Lemma search_recent_ok n : forall seq, count <= seq < Z.of_nat (length events) -> exists r,
  search_recent n store key ledger_version seq = Ok r /\
  match r with inl s => s = count - 1 /\ 0 < count | inr s => count <= s < Z.of_nat (length events) end.
Proof.
  induction n as [|n IH]; intros seq Hs; cbn [search_recent]; [by eexists|]. pose proof count_bound.
  destruct (Z.ltb_spec 0 seq); cbn [negb]; [|by eexists].
  destruct (get_txn_ver_side (seq - 1)) as (v & -> & Hside); [lia|]. cbn [mbind result_bind]. rewrite Hside.
  destruct (Z.ltb_spec (seq - 1) count); [eexists; split; [done|cbn; lia]|]. apply IH. lia.
Qed.

Lemma binary_search_ok f : forall begin_ end_, 0 <= begin_ <= end_ -> end_ < Z.of_nat (length events) -> end_ - begin_ < 2 ^ Z.of_nat f ->
  (begin_ = 0 \/ begin_ < count) -> count <= end_ + 1 ->
  binary_search (S f) store key ledger_version begin_ end_ = Ok (Z.max 0 (count - 1)).
Proof.
  induction f as [|f IH]; intros begin_ end_ Hb He Hf Hlo Hhi.
  - change (2 ^ Z.of_nat 0) with 1 in Hf. cbn [binary_search]. destruct (Z.ltb_spec begin_ end_); [lia|]. cbn [negb]. f_equal. lia.
  - rewrite Nat2Z.inj_succ, Z.pow_succ_r in Hf by lia. cbn [binary_search]. destruct (Z.ltb_spec begin_ end_) as [Hlt|]; cbn [negb]; [|f_equal; lia].
    pose proof (Z.div_mod (end_ - begin_) 2 ltac:(lia)) as Hd. pose proof (Z.mod_pos_bound (end_ - begin_) 2 ltac:(lia)) as Hm.
    set (half := (end_ - begin_) / 2) in *. destruct (get_txn_ver_side (end_ - half)) as (v & -> & Hside); [lia|]. cbn [mbind result_bind]. rewrite Hside.
    destruct (Z.ltb_spec (end_ - half) count); apply IH; lia.
Qed.

Lemma searches_ok f seq : count <= seq < Z.of_nat (length events) -> Z.of_nat (length events) <= 2 ^ Z.of_nat f ->
  (recent ← search_recent 10 store key ledger_version seq;
   match recent with
   | inl seq => Ok (Some seq)
   | inr seq => begin_ ← binary_search (S f) store key ledger_version 0 seq; Ok (Some begin_)
   end) = Ok (Some (Z.max 0 (count - 1))).
Proof.
  intros Hs Hf. pose proof count_bound. destruct (search_recent_ok 10 seq Hs) as ([s|s] & -> & Hr); cbn [mbind result_bind].
  - do 2 f_equal. lia.
  - by rewrite (binary_search_ok f) by lia.
Qed.

(** With events of the key in storage, the number of the last one up to the ledger
    version is found; but 0 is returned as well when all are later. *)
Lemma get_latest_sequence_number_rows : get_latest_sequence_number store ledger_version key =
  Ok (if (length events =? 0)%nat then None else Some (Z.max 0 (count - 1))).
Proof.
  unfold get_latest_sequence_number. cbn [es_db encode_key EventByKeySchema fst snd].
  destruct index_prev as (it & E & En). rewrite E. cbn [mbind result_bind]. rewrite En. cbn [mbind result_bind]. pose proof count_bound as Hcb.
  destruct index_last as [Hl|(Hnil & [[k s] p] & Hl & Hne)]; rewrite Hl.
  2:{ rewrite Hnil. cbn in Hne. destruct p as [v i]. by rewrite bool_decide_eq_false_2. }
  destruct (list.last events) as [[[v i] e]|] eqn:El; cbn [fmap option_fmap option_map fst]; [|by apply last_None in El; rewrite El].
  rewrite last_lookup in El. pose proof (lookup_lt_Some _ _ _ El) as Hlt. pose proof events_count.
  rewrite bool_decide_eq_true_2 by done. destruct (Nat.eqb_spec (length events) 0); [lia|].
  pose proof (events_upto_prefix _ _ El) as Hside. cbn [fst] in Hside. destruct (Z.leb_spec v ledger_version).
  - do 2 f_equal. lia.
  - apply (searches_ok 64); [lia|]. change (2 ^ Z.of_nat 64) with (2 ^ 64). lia.
Qed.

(** C32: The search for the latest number of a key up to a ledger version ends, by 10 steps
    back and then halving, and returns the number of the last such event; if all events of
    the key are later than the ledger version it returns 0 all the same. *)
Theorem latest_sequence_number_found : get_latest_sequence_number store ledger_version key =
  Ok (if (length events =? 0)%nat then None else Some (Z.max 0 (count - 1))).
Proof. apply get_latest_sequence_number_rows. Qed.
End Key.
End Reads.
End EventStoreProof.
