(* ===== verification/TransactionStoreProof.v ===== *)
(** * Correctness of the transaction store and the system store

    [transaction_rows] ties the rows of transactions and of their index by account to
    the list of transactions; [counter_rows] says that the stored ledger counters are
    the known ones. *)

From S2P Require Import Prelude U64 Bytes Lcs SchemaDb LedgerCounters.
From S2P Require Import Crypto Hash ValidatorVerifier LedgerInfo LedgerProof NodeType Schema Tables LedgerStore LedgerStoreProof.
From S2P Require Import TransactionStore.

Section TransactionStoreProof.
Context `{Crypto} `{B : !HashBytes, !HashBytesLaws B}.
Context `{!Lcs LedgerInfoWithSignatures, !Lcs TransactionInfo, !Lcs Transaction, !Lcs ContractEvent, !Lcs LedgerCounters,
  !Lcs LeafNode}.
Context `{!LcsLaws LedgerInfoWithSignatures, !LcsLaws TransactionInfo, !LcsLaws Transaction, !LcsLaws ContractEvent,
  !LcsLaws LedgerCounters, !LcsLaws LeafNode}.
Context {rocks raw_iter : Type} `{!RocksDB rocks raw_iter, !RocksDBLaws rocks raw_iter}.

(** The account and the sequence number of a user transaction. *)
Definition account_of (txn : Transaction) : option (AccountAddress * Z) :=
  match txn with UserTransaction t => Some (st_sender t, st_sequence_number t) | _ => None end.

(** No account uses a sequence number twice. *)
Definition distinct_accounts (txns : list Transaction) : Prop :=
  forall i j t1 t2 a, txns !! i = Some t1 -> txns !! j = Some t2 -> account_of t1 = Some a -> account_of t2 = Some a -> i = j.

Record transaction_rows (tt : gmap Z Transaction) (tta : gmap (AccountAddress * Z) Z) (txns : list Transaction) : Prop := {
  txns_length : Z.of_nat (length txns) < 2 ^ 63;
  txns_table : dense tt txns;
  txns_index a v : tta !! a = Some v <-> 0 <= v /\ exists t, txns !! Z.to_nat v = Some t /\ account_of t = Some a;
  txns_distinct : distinct_accounts txns
}.

Lemma transaction_rows_nil : transaction_rows ∅ ∅ [].
Proof.
  split; try done.
  - intros v. rewrite lookup_empty. by destruct (0 <=? v), (Z.to_nat v).
  - intros a v. rewrite lookup_empty. split; [done|]. by intros (_ & t & Ht & _).
Qed.

Section Reads.
Context (db : rocks) (T : Tables) (Htab : tables db T) (txns : list Transaction).
Context (Hrows : transaction_rows (t_transaction T) (t_transaction_by_account T) txns).
Notation store := (mkTransactionStore (mkDB db)).

Lemma get_transaction_rows v : is_u64 v ->
  get_transaction store v = match txns !! Z.to_nat v with Some t => Ok t | None => Err "Txn"%string end.
Proof.
  intros Hv. unfold get_transaction. cbn [txs_db]. rewrite (column_get _ _ _ _ (col_transaction _ _ Htab)) by done.
  rewrite (txns_table _ _ _ Hrows). destruct (Z.leb_spec 0 v); [|unfold is_u64 in Hv; lia]. cbn. by destruct (txns !! Z.to_nat v).
Qed.

(** The version of the transaction that an account sent with a sequence number. *)
Lemma lookup_transaction_by_account_rows address seq ledger_version : is_address address -> is_u64 seq -> exists r,
  lookup_transaction_by_account store address seq ledger_version = Ok r /\
  forall v, r = Some v <-> 0 <= v <= ledger_version /\ exists t, txns !! Z.to_nat v = Some t /\ account_of t = Some (address, seq).
Proof.
  intros Ha Hs. unfold lookup_transaction_by_account. cbn [txs_db]. rewrite (column_get _ _ _ _ (col_transaction_by_account _ _ Htab)) by done.
  cbn [mbind result_bind]. eexists. split; [done|]. intros v. pose proof (txns_index _ _ _ Hrows (address, seq)) as Hi.
  destruct (t_transaction_by_account T !! (address, seq)) as [v'|] eqn:E.
  - pose proof (proj1 (Hi v') eq_refl) as [Hv' Ht']. destruct (Z.leb_spec v' ledger_version) as [Hle|Hgt].
    + split; [intros [= <-]; split; [lia|done]|]. intros [Hv Ht]. apply (Hi v). split; [lia|done].
    + split; [done|]. intros [Hv Ht]. assert (Some v' = Some v) as [= ->] by (apply Hi; split; [lia|done]). lia.
  - split; [done|]. intros [Hv Ht]. exfalso. assert (None = Some v) by (apply Hi; split; [lia|done]). done.
Qed.

(** *** The iterator *)

Definition txns_left (it : TransactionIter (raw_iter:=raw_iter)) (l : list Transaction) : Prop :=
  0 <= txi_expected_next_version it /\ is_u64 (txi_end_version it) /\
  exists rest, yields TransactionSchema (txi_inner it) (indexed (txi_expected_next_version it) (l ++ rest)) /\
    (txi_end_version it = txi_expected_next_version it + Z.of_nat (length l) \/
     rest = [] /\ txi_expected_next_version it + Z.of_nat (length l) <= txi_end_version it).

Lemma txns_left_nil it : txns_left it [] -> (transaction_iter_next it).2 = Ok None.
Proof.
  intros (_ & _ & rest & Hy & Hend). unfold transaction_iter_next.
  destruct (Z.leb_spec (txi_end_version it) (txi_expected_next_version it)); [done|].
  destruct Hend as [Hend|[-> Hend]]; [cbn in Hend; lia|]. by rewrite (next_nil _ _ Hy).
Qed.

Lemma txns_left_cons it t l : txns_left it (t :: l) -> exists it', transaction_iter_next it = (it', Ok (Some t)) /\ txns_left it' l.
Proof.
  intros (H0' & Hu & rest & Hy & Hend). unfold transaction_iter_next, is_u64 in *. cbn [length] in Hend.
  destruct (Z.leb_spec (txi_end_version it) (txi_expected_next_version it)); [lia|].
  cbn [app] in Hy. rewrite indexed_cons in Hy. destruct (next_cons _ _ _ _ Hy) as (it' & E & Hy'). rewrite E.
  rewrite Z.eqb_refl. eexists. split; [reflexivity|].
  unfold txns_left. cbn [txi_expected_next_version txi_end_version txi_inner].
  rewrite u64_add_small by lia. split_and!; [lia|done|]. exists rest. split; [exact Hy'|].
  destruct Hend as [?|[? ?]]; [left; lia|right; split; [done|lia]].
Qed.

Lemma transaction_iter_rows start n fuel : is_u64 start -> 0 <= n -> start + n < 2 ^ 64 -> (Z.to_nat n < fuel)%nat ->
  exists it, get_transaction_iter store start n = Ok it /\
    iter_collect transaction_iter_next fuel it = Ok (take (Z.to_nat n) (drop (Z.to_nat start) txns)).
Proof.
  intros Hs Hn Hb Hf. unfold get_transaction_iter. cbn [txs_db].
  destruct (seek_yields TransactionSchema db (t_transaction T) (u64_be start) (col_transaction _ _ Htab)) as (it & E & Hy).
  rewrite E. cbn [mbind result_bind encode_key TransactionSchema u64_encode]. unfold is_u64 in Hs.
  rewrite u64_checked_add_small by lia. cbn [ok_or mbind result_bind]. eexists. split; [reflexivity|].
  apply (iter_collect_list _ txns_left txns_left_nil txns_left_cons).
  2:{ rewrite length_take. lia. }
  rewrite (dense_from TransactionSchema _ _ _ (col_transaction _ _ Htab) (txns_table _ _ _ Hrows)) in Hy by (unfold is_u64; lia).
  unfold txns_left, is_u64. cbn [txi_expected_next_version txi_end_version txi_inner]. split_and!; [lia..|].
  exists (drop (Z.to_nat n) (drop (Z.to_nat start) txns)). rewrite take_drop. split; [exact Hy|].
  destruct (decide (Z.to_nat n <= length (drop (Z.to_nat start) txns))%nat).
  - left. rewrite length_take. lia.
  - right. split; [apply drop_ge; lia|]. rewrite length_take. lia.
Qed.

(** *** Block metadata *)

(** The first block metadata transaction of a list. *)
Fixpoint find_block (l : list (Z * Transaction)) : option (Z * BlockMetadata) :=
  match l with
  | [] => None
  | (v, BlockMetadataTransaction meta) :: _ => Some (v, meta)
  | _ :: l => find_block l
  end.

Lemma block_metadata_loop_ok l : forall n it, yields TransactionSchema it (rev (indexed 0 l)) ->
  block_metadata_loop n it =
  match find_block (take n (rev (indexed 0 l))) with
  | Some r => Ok (Some r)
  | None => if (0 <? length l)%nat && (length l <=? n)%nat then Ok None else Err "BlockMetadata preceding version"%string
  end.
Proof.
  induction l as [|t l IH] using rev_ind; intros n it Hy.
  - cbn. destruct n; cbn; [done|]. by rewrite (next_nil _ _ Hy).
  - rewrite indexed_snoc, rev_unit, Z.add_0_l in *. rewrite length_app. cbn [length].
    destruct n as [|n]; cbn [block_metadata_loop take find_block].
    { destruct (Nat.leb_spec (length l + 1) 0); [lia|]. by rewrite andb_false_r. }
    destruct (next_cons _ _ _ _ Hy) as (it' & E & Hy'). rewrite E.
    destruct (Nat.ltb_spec 0 (length l + 1)); [|lia]. cbn [andb].
    assert (Hnext : (if Z.of_nat (length l) =? 0 then Ok None else block_metadata_loop n it') =
      match find_block (take n (rev (indexed 0 l))) with
      | Some r => Ok (Some r)
      | None => if (length l + 1 <=? S n)%nat then Ok None else Err "BlockMetadata preceding version"%string
      end).
    { destruct (Z.eqb_spec (Z.of_nat (length l)) 0) as [Hz|Hz].
      - destruct l; [|cbn in Hz; lia]. cbn. by destruct n.
      - rewrite (IH n it' Hy'). destruct (Nat.ltb_spec 0 (length l)); [|lia]. cbn [andb].
        by replace (length l + 1 <=? S n)%nat with (length l <=? n)%nat by (destruct (Nat.leb_spec (length l) n), (Nat.leb_spec (length l + 1) (S n)); (done || lia)). }
    by destruct t.
Qed.

(** The latest block metadata transaction up to a version, when it is among the last 3000
    versions; [None] when the search reaches genesis first. *)
Lemma get_block_metadata_rows version : 0 <= version < Z.of_nat (length txns) ->
  get_block_metadata store version =
  match find_block (take (Z.to_nat MAX_VERSIONS_TO_SEARCH) (rev (indexed 0 (take (Z.to_nat (version + 1)) txns)))) with
  | Some r => Ok (Some r)
  | None => if version <? MAX_VERSIONS_TO_SEARCH then Ok None else Err "BlockMetadata preceding version"%string
  end.
Proof.
  intros Hv. pose proof (txns_length _ _ _ Hrows) as Hl. assert (Hu : is_u64 version) by (unfold is_u64; lia).
  unfold get_block_metadata. cbn [txs_db].
  destruct (rev_seek_yields TransactionSchema db (t_transaction T) (u64_be version) (col_transaction _ _ Htab)) as (it & E & Hy).
  rewrite E. cbn [mbind result_bind encode_key TransactionSchema u64_encode].
  rewrite (dense_from TransactionSchema _ _ _ (col_transaction _ _ Htab) (txns_table _ _ _ Hrows)) in Hy by done.
  destruct (lookup_lt_is_Some_2 txns (Z.to_nat version)) as [t Ht]; [lia|]. rewrite (drop_S _ _ _ Ht), indexed_cons in Hy.
  assert (Hb : List.filter (fun row => negb (bytes_leb (u64_be version) (raw_key TransactionSchema row.1))) (sorted_rows TransactionSchema (t_transaction T)) =
    indexed 0 (take (Z.to_nat version) txns)).
  { rewrite (dense_sorted TransactionSchema _ _ _ (col_transaction _ _ Htab) (txns_table _ _ _ Hrows)).
    apply ascending_unique; [apply filter_ascending, indexed_ascending|apply indexed_ascending|]. intros [v x].
    rewrite list_elem_of_In, filter_In, <- list_elem_of_In, !indexed_elem, Z.sub_0_r. cbn [fst]. split.
    - intros [[Hv0 Hx] Hn]. apply lookup_lt_Some in Hx as Hlt. rewrite (numeric_leb TransactionSchema) in Hn by (done || (unfold is_u64; lia)).
      apply negb_true_iff, Z.leb_gt in Hn. split; [done|]. by rewrite lookup_take_lt by lia.
    - intros [Hv0 Hx]. apply lookup_take_Some in Hx as [Hx Hlt]. split; [done|].
      rewrite (numeric_leb TransactionSchema) by (done || (unfold is_u64; lia)). apply negb_true_iff, Z.leb_gt. lia. }
  rewrite Hb in Hy. replace (Z.to_nat (version + 1)) with (S (Z.to_nat version)) by lia. rewrite (take_S_r _ _ _ Ht) in *.
  rewrite (block_metadata_loop_ok (take (Z.to_nat version) txns ++ [t])).
  2:{ rewrite indexed_snoc, rev_unit, length_take, Nat.min_l, Z2Nat.id by lia. exact Hy. }
  destruct (find_block _); [done|]. rewrite length_app, length_take, Nat.min_l by lia. cbn [length].
  destruct (Nat.ltb_spec 0 (Z.to_nat version + 1)); [|lia]. cbn [andb].
  destruct (Nat.leb_spec (Z.to_nat version + 1) (Z.to_nat MAX_VERSIONS_TO_SEARCH)), (Z.ltb_spec version MAX_VERSIONS_TO_SEARCH);
    (done || unfold MAX_VERSIONS_TO_SEARCH in *; lia).
Qed.
End Reads.

(** ** Writing *)

(** A transaction that can be stored. *)
Record txn_storable (t : Transaction) : Prop := {
  txn_encodable : encodable t;
  txn_account a s : account_of t = Some (a, s) -> is_address a /\ is_u64 s
}.

Definition account_rows (rows : list (Z * Transaction)) : list (AccountAddress * Z * Z) :=
  omap (fun '(v, t) => (fun a => (a, v)) <$> account_of t) rows.

Definition txn_writes (rows : list (Z * Transaction)) (W : Tables) : Tables :=
  on_transaction (map_put rows) (on_transaction_by_account (map_put (account_rows rows)) W).

Lemma put_transactions_rows (self : TransactionStore (rocks:=rocks)) rows : forall cs W,
  Forall (fun r => is_u64 r.1 /\ txn_storable r.2) rows -> batch_tables (cs_batch cs) W -> exists cs',
  result_fold (fun cs row => put_transaction self row.1 row.2 cs) rows cs = Ok cs' /\
  batch_tables (cs_batch cs') (txn_writes rows W) /\ cs_counter_bumps cs' = cs_counter_bumps cs.
Proof.
  induction rows as [|[v t] rows IH]; intros cs W Hok Hb; cbn [result_fold].
  { exists cs. split_and!; [done| |done]. by destruct W. }
  apply list.Forall_cons in Hok as [[Hv [He Ha]] Hok]. cbn [fst snd] in *.
  assert (H1 : exists cs1, (match t with
      | UserTransaction txn => cs_put TransactionByAccountSchema cs (st_sender txn, st_sequence_number txn) v
      | _ => Ok cs end) = Ok cs1 /\
    batch_tables (cs_batch cs1) (on_transaction_by_account (map_put (account_rows [(v, t)])) W) /\ cs_counter_bumps cs1 = cs_counter_bumps cs).
  { destruct t as [txn| |]; [|exists cs; split_and!; [done|by destruct W|done]..].
    destruct (cs_put_table TransactionByAccountSchema cs W (st_sender txn, st_sequence_number txn) v) as (cs1 & E1 & Hb1 & Hc1);
      [split; [by apply (Ha _ _ eq_refl)|by split]|done|]. exists cs1. split_and!; [done|exact Hb1|done]. }
  destruct H1 as (cs1 & E1 & Hb1 & Hc1).
  destruct (cs_put_table TransactionSchema cs1 _ v t ltac:(by split_and!) Hb1) as (cs2 & E2 & Hb2 & Hc2).
  destruct (IH cs2 _ Hok Hb2) as (cs' & E & Hb' & Hc'). exists cs'. split_and!; [| |congruence].
  - assert (Ep : put_transaction self v t cs = Ok cs2).
    { unfold put_transaction. rewrite E1. cbn [mbind result_bind]. exact E2. }
    rewrite Ep. cbn [mbind result_bind]. exact E.
  - assert (Ew : txn_writes ((v, t) :: rows) W =
      txn_writes rows (on_transaction <[v := t]> (on_transaction_by_account (map_put (account_rows [(v, t)])) W))).
    { unfold txn_writes, on_transaction, on_transaction_by_account. cbn. f_equal. destruct t; done. }
    rewrite Ew. exact Hb'.
Qed.

Lemma account_rows_elem rows a v : (a, v) ∈ account_rows rows <-> exists t, (v, t) ∈ rows /\ account_of t = Some a.
Proof.
  unfold account_rows. rewrite list_elem_of_omap. split.
  - intros ([v' t] & Hin & E). destruct (account_of t) as [a'|] eqn:Ea; [|done]. cbn in E. injection E as -> ->. by exists t.
  - intros (t & Hin & Ea). exists (v, t). split; [done|]. by rewrite Ea.
Qed.

Lemma transaction_rows_app tt tta (txns new : list Transaction) : transaction_rows tt tta txns -> distinct_accounts (txns ++ new) ->
  Z.of_nat (length (txns ++ new)) < 2 ^ 63 ->
  transaction_rows (map_put (indexed (Z.of_nat (length txns)) new) tt)
    (map_put (account_rows (indexed (Z.of_nat (length txns)) new)) tta) (txns ++ new).
Proof.
  intros [_ Hd Hi Hu] Hdist Hlen. split; [done|by apply dense_put| |done]. intros a v. set (rows := account_rows _).
  assert (Hrow : forall v, (a, v) ∈ rows <-> Z.of_nat (length txns) <= v /\ exists t, (txns ++ new) !! Z.to_nat v = Some t /\ account_of t = Some a).
  { intros v'. unfold rows. rewrite account_rows_elem. setoid_rewrite indexed_elem. split.
    - intros (t & [Hv Ht] & Ha). split; [done|]. exists t. split; [|done]. rewrite lookup_app_r by lia.
      by replace (Z.to_nat v' - length txns)%nat with (Z.to_nat (v' - Z.of_nat (length txns))) by lia.
    - intros (Hv & t & Ht & Ha). exists t. split; [|done]. split; [done|]. rewrite lookup_app_r in Ht by lia.
      by replace (Z.to_nat v' - length txns)%nat with (Z.to_nat (v' - Z.of_nat (length txns))) in Ht by lia. }
  assert (Huniq : forall v1 v2, 0 <= v1 -> 0 <= v2 -> (exists t, (txns ++ new) !! Z.to_nat v1 = Some t /\ account_of t = Some a) ->
    (exists t, (txns ++ new) !! Z.to_nat v2 = Some t /\ account_of t = Some a) -> v1 = v2).
  { intros v1 v2 H1 H2 (t1 & Ht1 & Ha1) (t2 & Ht2 & Ha2). pose proof (Hdist _ _ _ _ _ Ht1 Ht2 Ha1 Ha2). lia. }
  destruct (decide (a ∈ rows.*1)) as [Hin|Hin].
  - apply list_elem_of_fmap in Hin as ([a' v'] & E & Hin). cbn in E. subst a'. pose proof (proj1 (Hrow v') Hin) as [Hv' Ht'].
    rewrite (map_put_elem rows tta a v' Hin).
    2:{ intros v2 [Hv2 Ht2]%Hrow. apply Huniq; (done || lia). }
    split; [intros [= <-]; split; [lia|done]|]. intros [Hv Ht]. f_equal. apply Huniq; (done || lia).
  - rewrite map_put_notin, Hi by done. split.
    + intros (Hv & t & Ht & Ha). split; [done|]. exists t. split; [|done]. by apply lookup_app_l_Some.
    + intros (Hv & t & Ht & Ha). split; [done|]. exists t. split; [|done]. apply lookup_app_Some in Ht as [?|[Hge Ht]]; [done|].
      exfalso. apply Hin, list_elem_of_fmap. exists (a, v). split; [done|]. apply Hrow. split; [lia|]. exists t. split; [|done].
      rewrite lookup_app_r by lia. done.
Qed.

(** ** Ledger counters *)

Definition counter_keys : gset Z :=
  list_to_set (map counter_raw_key [EventsCreated; NewStateLeaves; StaleStateLeaves; NewStateNodes; StaleStateNodes]).

Lemma event_counter_key : {[ counter_raw_key EventsCreated ]} ⊆ counter_keys.
Proof. apply (bool_decide_unpack _). by vm_compute. Qed.
Lemma state_counter_keys :
  list_to_set (map counter_raw_key [NewStateNodes; NewStateLeaves; StaleStateNodes; StaleStateLeaves]) ⊆ counter_keys.
Proof. apply (bool_decide_unpack _). by vm_compute. Qed.

Definition counter_rows (tlc : gmap Z LedgerCounters) : Prop := forall v (c : gmap Z Z), tlc !! v = Some c -> dom c ⊆ counter_keys.

Lemma counters_bump_dom (c bumps : gmap Z Z) : dom (counters_bump c bumps) = dom c ∪ dom bumps.
Proof.
  unfold counters_bump. assert (Hf : forall l (m : gmap Z Z), dom (fold_left (fun counters kv => raw_inc counters kv.1 kv.2) l m) = dom m ∪ list_to_set l.*1).
  { induction l as [|[k v] l IH]; intros m; cbn [fold_left]; [cbn; set_solver|]. rewrite IH. unfold raw_inc. rewrite dom_insert_L. cbn. set_solver. }
  rewrite Hf, <- dom_list_to_map_L, list_to_map_to_list. done.
Qed.

Lemma bump_ledger_counters_rows db T first last (bumps : gmap Z Z) b W : tables db T -> counter_rows (t_ledger_counters T) ->
  0 <= first <= last -> last < 2 ^ 64 -> dom bumps ⊆ counter_keys -> (forall c : gmap Z Z, dom c ⊆ counter_keys -> encodable c) ->
  batch_tables b W -> exists b' c,
  bump_ledger_counters (mkSystemStore (mkDB db)) first last bumps b = Ok (b', c) /\
  batch_tables b' (on_ledger_counters <[last := c]> W) /\ dom c ⊆ counter_keys /\
  c = counters_bump (if 0 <? first then default ∅ (t_ledger_counters T !! (first - 1)) else ∅) bumps.
Proof.
  intros Htab Hrows Hf Hl Hb Henc Hbt. unfold bump_ledger_counters. cbn [sys_db].
  destruct (Z.leb_spec first last); [|lia]. cbn [assert_ mbind result_bind].
  set (base := if 0 <? first then default ∅ (t_ledger_counters T !! (first - 1)) else ∅).
  assert (Ebase : (if 0 <? first then row ← db_get LedgerCountersSchema (mkDB db) (first - 1); Ok (default counters_new row) else Ok counters_new)
    = Ok (E:=string) base).
  { unfold base. destruct (Z.ltb_spec 0 first); [|done].
    rewrite (column_get _ _ _ _ (col_ledger_counters _ _ Htab)) by (change (is_u64 (first - 1)); unfold is_u64; lia). done. }
  rewrite Ebase. cbn [mbind result_bind].
  assert (Hdom : dom (counters_bump base bumps) ⊆ counter_keys).
  { rewrite counters_bump_dom. apply union_subseteq. split; [|done]. unfold base. destruct (0 <? first); [|set_solver].
    destruct (t_ledger_counters T !! (first - 1)) as [c|] eqn:E; [by eapply Hrows|cbn; set_solver]. }
  destruct (cs_put_table LedgerCountersSchema (mkChangeSet b ∅) W last (counters_bump base bumps)) as (cs' & E & Hb' & _);
    [split; [change (is_u64 last); unfold is_u64; lia|split; [done|by apply Henc]]|done|].
  unfold cs_put in E. cbn [cs_batch] in E. apply bind_Ok in E as (b' & E & [= <-]). rewrite E. cbn [mbind result_bind]. by exists b', (counters_bump base bumps).
Qed.
End TransactionStoreProof.
