(* ===== verification/LibraDBProof.v ===== *)
(** * Correctness of LibraDB

    [db_ok] says what the database holds: a ledger [E], a list of versions each with its
    transaction, events, account states and transaction info, and the last ledger info of
    every epoch, each of which commits to a prefix of the ledger.  Saving transactions
    appends to the ledger, and what the database serves is part of it. *)

From S2P Require Import Prelude U64 Bytes Lcs SchemaDb LedgerCounters.
From S2P Require Import Crypto Hash Position Accumulator AccumulatorProof MerkleAccumulator.
From S2P Require Import ValidatorVerifier LedgerInfo SparseMerkleProof SparseMerkleTree LedgerProof NibblePath NodeType NodeTypeProof NodeCodec.
From S2P Require Import JellyfishMerkle JellyfishMerkleNodes JellyfishMerkleProof JellyfishMerkleUpdate JellyfishMerkleBatch.
From S2P Require Import Schema Tables LedgerStore LedgerStoreProof StateStore StateStoreProof.
From S2P Require Import EventStore EventStoreProof TransactionStore TransactionStoreProof Pruner LibraDB.

Section LibraDBProof.
Context `{Crypto} `{B : !HashBytes, !HashBytesLaws B, !LedgerHashers}.
Context `{!CryptoHash TransactionInfo, !CryptoHash Transaction, !CryptoHash ContractEvent}.
Context `{!CryptoHash AccountStateBlob, !CryptoHash SparseMerkleLeafNode, !CryptoHash AccountAddress}.
Context `{!Lcs LedgerInfoWithSignatures, !Lcs TransactionInfo, !Lcs Transaction, !Lcs ContractEvent, !Lcs LedgerCounters,
  !Lcs LeafNode}.
Context `{!LcsLaws LedgerInfoWithSignatures, !LcsLaws TransactionInfo, !LcsLaws Transaction, !LcsLaws ContractEvent,
  !LcsLaws LedgerCounters, !LcsLaws LeafNode}.
Context {rocks raw_iter : Type} `{!RocksDB rocks raw_iter, !RocksDBLaws rocks raw_iter}.

Notation entries := (list (HashValue * AccountStateBlob)).
Notation txn_tree_root := (tree_root TransactionAccumulatorInternalNode_hash ACCUMULATOR_PLACEHOLDER_HASH).
Notation event_tree_root := (tree_root EventAccumulatorInternalNode_hash ACCUMULATOR_PLACEHOLDER_HASH).
Notation state_root := (sparse_root SparseMerkleInternalNode_hash SPARSE_MERKLE_PLACEHOLDER_HASH).
Notation event_hashes := (map (crypto_hash (T:=ContractEvent))).
Notation ledger_root E := (txn_tree_root (map crypto_hash (map le_info E))).

(** ** What the database holds *)

Record ledger_tables (T : Tables) (es0 : entries) (least : Z) (E : list LedgerEntry) (lis : list LedgerInfoWithSignatures) : Prop := {
  tables_infos : ledger_rows (t_transaction_info T) (t_transaction_accumulator T) (map le_info E);
  tables_transactions : transaction_rows (t_transaction T) (t_transaction_by_account T) (map le_transaction E);
  tables_events : event_rows (t_event T) (t_event_accumulator T) (t_event_by_key T) (map le_events E);
  tables_states : state_rows (t_jellyfish_merkle_node T) (t_stale_node_index T) es0 least (map le_accounts E);
  tables_epochs : epoch_rows (t_ledger_info T) (t_epoch_by_version T) lis;
  tables_counters : counter_rows (t_ledger_counters T)
}.

(** The ledger at a version of it. *)
Definition ledger_at (E : list LedgerEntry) (version : Z) : list LedgerEntry := take (Z.to_nat (version + 1)) E.
Definition commits (E : list LedgerEntry) (li : LedgerInfoWithSignatures) : Prop :=
  0 <= version_of li < Z.of_nat (length E) /\
  li_transaction_accumulator_hash (liws_ledger_info li) = ledger_root (ledger_at E (version_of li)).

(** The states of versions from [least] on are readable; [es0] are the account states
    restored before genesis, if any. *)
Record db_ok (self : LibraDB (rocks:=rocks)) (es0 : entries) (least : Z) (E : list LedgerEntry)
    (lis : list LedgerInfoWithSignatures) : Prop := {
  ok_tables : exists T, tables (inner (ldb_db self)) T /\ ledger_tables T es0 least E lis;
  ok_latest : ldb_latest_ledger_info self = list.last lis;
  ok_entries : Forall entry_ok E;
  ok_base : NoDup es0.*1;
  ok_commits : Forall (commits E) lis;
  ok_least : least <= 0 \/ least < Z.of_nat (length E)
}.

(** ** The entries that a batch of transactions adds *)

Fixpoint commit_entries (es : entries) (txns : list TransactionToCommit) : list LedgerEntry :=
  match txns with
  | [] => []
  | t :: txns =>
    let es := put_entries (blob_set (tc_account_states t)) es in
    mkLedgerEntry (tc_transaction t) (tc_events t) es
      (transaction_info_of t (state_root es, event_tree_root (event_hashes (tc_events t)))) :: commit_entries es txns
  end.

Lemma commit_entries_length txns : forall es, length (commit_entries es txns) = length txns.
Proof. induction txns as [|t txns IH]; intros es; cbn; [done|]. by rewrite IH. Qed.
Lemma commit_entries_transactions txns : forall es, map le_transaction (commit_entries es txns) = map tc_transaction txns.
Proof. induction txns as [|t txns IH]; intros es; cbn; [done|]. by rewrite IH. Qed.
Lemma commit_entries_events txns : forall es, map le_events (commit_entries es txns) = map tc_events txns.
Proof. induction txns as [|t txns IH]; intros es; cbn; [done|]. by rewrite IH. Qed.
Lemma commit_entries_accounts txns : forall es, map le_accounts (commit_entries es txns) = states es (map blob_set (map tc_account_states txns)).
Proof. induction txns as [|t txns IH]; intros es; cbn; [done|]. by rewrite IH. Qed.
Lemma commit_entries_infos txns : forall es,
  zip_with transaction_info_of txns (zip (map state_root (states es (map blob_set (map tc_account_states txns))))
    (map (fun t => event_tree_root (event_hashes (tc_events t))) txns)) = map le_info (commit_entries es txns).
Proof. induction txns as [|t txns IH]; intros es; cbn; [done|]. by rewrite IH. Qed.

Lemma put_entries_nodup blobs : forall es : entries, NoDup es.*1 -> NoDup (put_entries blobs es).*1.
Proof.
  induction blobs as [|[k b] blobs IH]; intros es Hn; [done|]. unfold put_entries. cbn [fold_left]. by apply IH, put_entry_nodup.
Qed.

Lemma commit_entries_ok txns : forall es, NoDup es.*1 -> Forall entry_ok (commit_entries es txns).
Proof.
  induction txns as [|t txns IH]; intros es Hn; cbn [commit_entries]; constructor.
  - split; cbn; try done. by apply put_entries_nodup.
  - by apply IH, put_entries_nodup.
Qed.

(** ** What may be saved *)

(** A transaction with its outputs, within the limits of the formats. *)
Record txn_ok (t : TransactionToCommit) : Prop := {
  ok_states : tc_account_states t <> ∅;
  ok_blobs : map_Forall (fun _ => blob_ok (encodable (V:=LeafNode))) (tc_account_states t);
  ok_events : Forall event_storable (tc_events t);
  ok_fits : fits (tc_events t);
  ok_transaction : txn_storable (tc_transaction t)
}.

(** A batch on top of a ledger: accounts and event handles count on from there. *)
Record batch_follows (E : list LedgerEntry) (new : list LedgerEntry) : Prop := {
  follows_length : Z.of_nat (length (E ++ new)) < 2 ^ 63;
  follows_accounts : distinct_accounts (map le_transaction (E ++ new));
  follows_events : sequenced (map le_events (E ++ new));
  follows_infos : Forall encodable (map le_info new)
}.

(** A ledger info on top of those in storage. *)
Record li_ok (lis : list LedgerInfoWithSignatures) (x : LedgerInfoWithSignatures) : Prop := {
  li_ok_follows : li_follows lis x;
  li_ok_encodable : encodable x;
  li_ok_length : Z.of_nat (length (lis_put lis x)) < 2 ^ 63
}.

(** What [save_transactions] accepts: a ledger info must be that of the ledger with the batch. *)
Definition acceptable (E' : list LedgerEntry) (txns : list TransactionToCommit) (li : option LedgerInfoWithSignatures) : bool :=
  match li with
  | Some x => (version_of x + 1 =? Z.of_nat (length E')) &&
      bool_decide (ledger_root E' = li_transaction_accumulator_hash (liws_ledger_info x))
  | None => 0 <? Z.of_nat (length txns)
  end.
Definition lis_after (lis : list LedgerInfoWithSignatures) (li : option LedgerInfoWithSignatures) : list LedgerInfoWithSignatures :=
  match li with Some x => lis_put lis x | None => lis end.

Definition counters_encodable : Prop := forall c : gmap Z Z, dom c ⊆ counter_keys -> encodable c.

(** The index of stale nodes from one database to a later one, which marks at least the
    root before each version from [first] to [last]. *)
Record stale_grows (T T' : Tables) (first last : Z) : Prop := {
  grows_rows i : stale_rows (t_stale_node_index T) i -> stale_rows (t_stale_node_index T') i;
  grows_roots w : first <= w < last -> 0 < w -> stale_rows (t_stale_node_index T') (mkStaleNodeIndex w (node_key_of (w - 1) []))
}.

(** *** Events of a batch *)

Lemma accumulator_rows_cons k es new rows1 rows2 : accumulator_rows k [es] rows1 -> accumulator_rows (k + 1) new rows2 ->
  accumulator_rows k (es :: new) (rows1 ++ rows2).
Proof.
  intros H1 H2 v pos h. rewrite elem_of_app, (H1 v pos h), (H2 v pos h). split.
  - intros [(Hv & es' & l & p & Hes & Hr)|(Hv & es' & l & p & Hes & Hr)].
    + apply list_lookup_singleton_Some in Hes as [Hz <-]. split; [done|]. exists es, l, p. by replace (Z.to_nat (v - k)) with O by lia.
    + split; [lia|]. exists es', l, p. by replace (Z.to_nat (v - k)) with (S (Z.to_nat (v - (k + 1)))) by lia.
  - intros (Hv & es' & l & p & Hes & Hr). destruct (decide (v = k)) as [->|].
    + left. split; [lia|]. exists es', l, p. rewrite Z.sub_diag in *. done.
    + right. split; [lia|]. exists es', l, p. by replace (Z.to_nat (v - k)) with (S (Z.to_nat (v - (k + 1)))) in Hes by lia.
Qed.

Lemma put_all_events_rows (self : EventStore (rocks:=rocks)) txns : forall k cs W, Forall txn_ok txns -> 0 <= k -> k + Z.of_nat (length txns) < 2 ^ 64 ->
  batch_tables (cs_batch cs) W -> exists cs' rows,
  put_all_events self (indexed k txns) cs = Ok (cs', map (fun t => event_tree_root (event_hashes (tc_events t))) txns) /\
  batch_tables (cs_batch cs') (event_writes (all_events k (map tc_events txns)) rows W) /\ accumulator_rows k (map tc_events txns) rows /\
  dom (cs_counter_bumps cs') ⊆ dom (cs_counter_bumps cs) ∪ counter_keys.
Proof.
  induction txns as [|t txns IH]; intros k cs W Hok Hk Hlen Hb; cbn [map length] in *.
  - exists cs, []. split_and!; [done|by destruct W| |apply union_subseteq_l]. intros v pos h. split; [by intros ?%elem_of_nil|]. by intros (_ & es & l & p & Hes & _).
  - apply list.Forall_cons in Hok as [Ht Hok]. rewrite indexed_cons. cbn [put_all_events].
    destruct (put_events_rows self k (tc_events t) cs W) as (cs1 & rows1 & E1 & Hb1 & Hr1 & Hd1); [unfold is_u64; lia|apply Ht..|done|].
    rewrite E1. cbn [mbind result_bind].
    destruct (IH (k + 1) cs1 _ Hok ltac:(lia) ltac:(lia) Hb1) as (cs' & rows2 & E2 & Hb2 & Hr2 & Hd2). rewrite E2. cbn [mbind result_bind].
    exists cs', (rows1 ++ rows2). split_and!; [done| |by apply accumulator_rows_cons|].
    + rewrite event_writes_app in Hb2. cbn [all_events] in Hb2 |- *. by rewrite app_nil_r in Hb2.
    + etrans; [exact Hd2|]. apply union_subseteq. split; [|apply union_subseteq_r].
      etrans; [exact Hd1|]. apply union_mono_l, event_counter_key.
Qed.

Lemma put_transactions_of (self : TransactionStore (rocks:=rocks)) rows cs :
  result_fold (fun cs row => put_transaction self row.1 (tc_transaction row.2) cs) rows cs =
  result_fold (fun cs row => put_transaction self row.1 row.2 cs) (map (fun r => (r.1, tc_transaction r.2)) rows) cs.
Proof. revert cs. induction rows as [|r rows IH]; intros cs; cbn [result_fold map fst snd]; [done|].
  destruct (put_transaction _ _ _ _); [apply IH|done..].
Qed.

Lemma indexed_map {V V'} (f : V -> V') l : forall k, map (fun r => (r.1, f r.2)) (indexed k l) = indexed k (map f l).
Proof. induction l as [|x l IH]; intros k; [done|]. rewrite !indexed_cons. cbn. by rewrite IH, <- indexed_cons. Qed.

(** *** Saving a batch *)

Section Save.
Context (self : LibraDB (rocks:=rocks)) (es0 : entries) (least : Z) (E : list LedgerEntry) (lis : list LedgerInfoWithSignatures).
Context (T : Tables) (Htab : tables (inner (ldb_db self)) T) (HT : ledger_tables T es0 least E lis).
Context (Hleast : least <= 0 \/ least < Z.of_nat (length E)).
Context (txns : list TransactionToCommit) (Htxns : Forall txn_ok txns).
Notation n := (Z.of_nat (length E)).
Notation new := (commit_entries (current es0 (map le_accounts E)) txns).
Context (Hnew : batch_follows E new) (Hsome : 0 < n + Z.of_nat (length txns)).

Lemma new_length : Z.of_nat (length (E ++ new)) = n + Z.of_nat (length txns).
Proof. rewrite length_app, commit_entries_length. lia. Qed.

Lemma last_version_ok : u64_sub (u64_add n (Z.of_nat (length txns))) 1 = n + Z.of_nat (length txns) - 1.
Proof.
  pose proof (follows_length _ _ Hnew) as Hl. rewrite new_length in Hl. rewrite u64_add_small by lia. by rewrite u64_sub_small by lia.
Qed.

Lemma zip_eq_versions_ok : zip_eq_versions n (n + Z.of_nat (length txns) - 1) txns = Ok (indexed n txns).
Proof.
  unfold zip_eq_versions. destruct (Z.leb_spec n (n + Z.of_nat (length txns) - 1)).
  - replace (_ =? _) with true by (symmetry; apply Z.eqb_eq; lia). by rewrite indexed_zip.
  - replace (_ =? _) with true by (symmetry; apply Z.eqb_eq; lia). by rewrite indexed_zip.
Qed.

Lemma new_storable : Forall (fun r => is_u64 r.1 /\ txn_storable r.2) (indexed n (map tc_transaction txns)).
Proof.
  pose proof (follows_length _ _ Hnew) as Hl. rewrite new_length in Hl.
  apply list.Forall_forall. intros [v t] [Hv Ht]%indexed_elem. pose proof (lookup_lt_Some _ _ _ Ht) as Hlt. rewrite length_map in Hlt.
  apply list_lookup_fmap_Some in Ht as (t' & -> & Ht'). split; [unfold is_u64; cbn; lia|].
  eapply Forall_lookup_1 in Htxns; [|exact Ht']. apply Htxns.
Qed.

Lemma save_transactions_impl_rows : exists (cs : ChangeSet) (W : Tables),
  save_transactions_impl self txns n change_set_new = Ok (cs, ledger_root (E ++ new)) /\
  batch_tables (cs_batch cs) W /\ dom (cs_counter_bumps cs) ⊆ counter_keys /\
  t_ledger_info W = ∅ /\ t_epoch_by_version W = ∅ /\ t_ledger_counters W = ∅ /\
  ledger_rows (t_transaction_info (tables_union W T)) (t_transaction_accumulator (tables_union W T)) (map le_info (E ++ new)) /\
  transaction_rows (t_transaction (tables_union W T)) (t_transaction_by_account (tables_union W T)) (map le_transaction (E ++ new)) /\
  event_rows (t_event (tables_union W T)) (t_event_accumulator (tables_union W T)) (t_event_by_key (tables_union W T)) (map le_events (E ++ new)) /\
  state_rows (t_jellyfish_merkle_node (tables_union W T)) (t_stale_node_index (tables_union W T)) es0 least (map le_accounts (E ++ new)) /\
  stale_grows T (tables_union W T) n (n + Z.of_nat (length txns)).
Proof.
  pose proof (follows_length _ _ Hnew) as Hl. rewrite new_length in Hl. destruct HT as [Ti Tt Te Ts _ _].
  assert (Hdb : ldb_db self = mkDB (inner (ldb_db self))) by (by destruct (ldb_db self)).
  unfold save_transactions_impl. rewrite last_version_ok. unfold state_store. rewrite Hdb.
  destruct (put_account_state_sets_rows _ T Htab es0 least (map le_accounts E) Ts) with (sets := map tc_account_states txns)
    (cs := change_set_new) (W := tables_empty) as (cs1 & nodes & stale & E1 & Hb1 & Hd1 & Hs1 & Hroots).
  { rewrite length_map. destruct E as [|e E']; [by left|right; cbn [length] in *; lia]. }
  { apply list.Forall_fmap. eapply list.Forall_impl; [exact Htxns|]. intros t Ht. apply Ht. }
  { apply list.Forall_fmap. eapply list.Forall_impl; [exact Htxns|]. intros t Ht. apply Ht. }
  { rewrite !length_map. unfold u64_max. lia. }
  { apply batch_tables_new. }
  rewrite length_map in E1. rewrite E1. cbn [mbind result_bind]. rewrite zip_eq_versions_ok. cbn [mbind result_bind].
  destruct (put_all_events_rows (event_store self) txns n cs1 _ Htxns ltac:(lia) ltac:(lia) Hb1) as (cs2 & rows & E2 & Hb2 & Hr2 & Hd2).
  rewrite E2. cbn [mbind result_bind]. rewrite put_transactions_of, indexed_map.
  destruct (put_transactions_rows (transaction_store self) _ cs2 _ new_storable Hb2) as (cs3 & E3 & Hb3 & Hd3).
  rewrite E3. cbn [mbind result_bind]. rewrite commit_entries_infos, length_map, commit_entries_length, Nat.eqb_refl. cbn [assert_ mbind result_bind].
  assert (Hinf : Z.of_nat (length (map le_info E ++ map le_info new)) < 2 ^ 63) by (rewrite <- map_app, length_map, new_length; lia).
  destruct (put_transaction_infos_rows (ledger_store self) T (map le_info E) (map le_info new) cs3 _ Htab Ti Hinf (follows_infos _ _ Hnew) Hb3)
    as (cs4 & writes & E4 & Hb4 & Hd4 & Hr4).
  rewrite length_map in E4. rewrite E4, <- map_app. eexists _, _. split; [done|]. split; [exact Hb4|].
  split; [|split; [done|split; [done|split; [done|split; [|split; [|split; [|split]]]]]]].
  - rewrite Hd4, Hd3. etrans; [exact Hd2|]. apply union_subseteq. split; [|done]. etrans; [exact Hd1|].
    apply union_subseteq. split; [apply empty_subseteq|apply state_counter_keys].
  - rewrite <- map_app, (map_put_union _ (t_transaction_info T)), (map_put_union _ (t_transaction_accumulator T)) in Hr4. exact Hr4.
  - pose proof (transaction_rows_app _ _ _ (map tc_transaction txns) Tt) as Hr3. rewrite length_map, (map_put_union _ (t_transaction T)), (map_put_union _ (t_transaction_by_account T)) in Hr3.
    rewrite map_app, commit_entries_transactions. apply Hr3; rewrite <- (commit_entries_transactions txns (current es0 (map le_accounts E))), <- map_app;
      [apply Hnew|rewrite length_map, new_length; lia].
  - pose proof (event_rows_app _ _ _ _ (map tc_events txns) rows Te) as Hr5. rewrite length_map, (map_put_union _ (t_event T)), (map_put_union _ (t_event_accumulator T)), (map_put_union _ (t_event_by_key T)) in Hr5.
    rewrite map_app, commit_entries_events. apply Hr5; [rewrite <- (commit_entries_events txns (current es0 (map le_accounts E))), <- map_app; apply Hnew| | |done].
    + rewrite length_app, !length_map. lia.
    + apply list.Forall_fmap. eapply list.Forall_impl; [exact Htxns|]. intros t Ht. apply Ht.
  - rewrite map_app, commit_entries_accounts. rewrite (map_put_union _ (t_stale_node_index T)) in Hs1.
    rewrite <- (map_put_map nodes), (map_put_union (map_to_list nodes)) in Hs1. exact Hs1.
  - rewrite !length_map in Hroots. split; cbn; rewrite <- map_put_union.
    + intros i Hi. apply index_rows_stale. by left.
    + intros w Hw Hpos. apply index_rows_stale. right. by apply Hroots.
Qed.

Context (li : option LedgerInfoWithSignatures) (Hli : forall x, li = Some x -> li_ok lis x) (Henc : counters_encodable).

Lemma seal_change_set_rows cs W : batch_tables (cs_batch cs) W -> dom (cs_counter_bumps cs) ⊆ counter_keys -> t_ledger_counters W = ∅ ->
  exists sealed c W', seal_change_set self n (Z.of_nat (length txns)) cs = Ok (sealed, c) /\ batch_tables (scs_batch sealed) W' /\
  (W' = W \/ exists v c', W' = on_ledger_counters <[v := c']> W) /\ counter_rows (t_ledger_counters (tables_union W' T)).
Proof.
  intros Hb Hd H0'. pose proof (tables_counters _ _ _ _ _ HT) as Hc. unfold seal_change_set.
  destruct (Z.ltb_spec 0 (Z.of_nat (length txns))) as [Hpos|].
  - rewrite last_version_ok. pose proof (follows_length _ _ Hnew) as Hl. rewrite new_length in Hl. unfold system_store.
    assert (Hdb : ldb_db self = mkDB (inner (ldb_db self))) by (by destruct (ldb_db self)). rewrite Hdb.
    destruct (bump_ledger_counters_rows _ T n (n + Z.of_nat (length txns) - 1) (cs_counter_bumps cs) _ W Htab Hc ltac:(lia) ltac:(lia) Hd Henc Hb)
      as (b & c & Eb & Hb' & Hdc & _).
    rewrite Eb. cbn [mbind result_bind]. eexists _, _, _. split; [done|]. split; [exact Hb'|]. split; [right; eauto|].
    intros v c' Hv. cbn in Hv. rewrite H0' in Hv. apply lookup_union_Some_raw in Hv as [Hv|[_ Hv]]; [|by eapply Hc].
    apply lookup_insert_Some in Hv as [[_ <-]|[_ []%lookup_empty_Some]]. done.
  - eexists _, _, _. split; [done|]. split; [exact Hb|]. split; [by left|]. intros v c' Hv. cbn in Hv. rewrite H0', (left_id_L ∅ (∪)) in Hv.
    by eapply Hc.
Qed.

Lemma prepare_transactions_rows : if acceptable (E ++ new) txns li
  then exists sealed W, prepare_transactions self txns n li = Ok sealed /\ batch_tables (scs_batch sealed) W /\
    ledger_tables (tables_union W T) es0 least (E ++ new) (lis_after lis li) /\
    stale_grows T (tables_union W T) n (n + Z.of_nat (length txns))
  else exists e, prepare_transactions self txns n li = Err e.
Proof.
  pose proof (follows_length _ _ Hnew) as Hl. rewrite new_length in Hl.
  destruct save_transactions_impl_rows as (cs & W & Es & Hb & Hd & W1 & W2 & W3 & Ri & Rt & Re & Rs & [Rg Rr]).
  pose proof (tables_epochs _ _ _ _ _ HT) as Hep.
  unfold prepare_transactions, acceptable. destruct li as [x|].
  - destruct (Hli x eq_refl) as [Hf Hx Hlx]. pose proof (follows_version _ _ Hf) as Hv. unfold is_u64 in Hv.
    rewrite (bool_decide_eq_true_2 (is_Some (Some x))) by eauto. cbn [ensure mbind result_bind orb]. fold (version_of x).
    rewrite (u64_add_small n), new_length by lia.
    assert (Hadd : (u64_add (version_of x) 1 =? n + Z.of_nat (length txns)) = (version_of x + 1 =? n + Z.of_nat (length txns))).
    { destruct (decide (version_of x + 1 = 2 ^ 64)) as [Hmax|]; [|by rewrite u64_add_small by lia].
      rewrite Hmax. replace (u64_add (version_of x) 1) with 0 by (unfold u64_add; by rewrite Hmax). 
      rewrite (proj2 (Z.eqb_neq 0 _)), (proj2 (Z.eqb_neq (2 ^ 64) _)) by lia. done. }
    rewrite Hadd. destruct (Z.eqb_spec (version_of x + 1) (n + Z.of_nat (length txns))); cbn [ensure mbind result_bind andb]; [|by eexists].
    rewrite Es. cbn [mbind result_bind]. destruct (bool_decide _); cbn [ensure mbind result_bind]; [|by eexists].
    destruct (put_ledger_info_rows (ledger_store self) cs W x (follows_epoch _ _ Hf) Hv Hx Hb) as (cs' & Ep & Hb' & Hd').
    rewrite Ep. cbn [mbind result_bind]. rewrite <- Hd' in Hd.
    destruct (seal_change_set_rows cs' _ Hb' Hd) as (sealed & c & W' & Ec & Hb'' & HW & Hc); [by unfold li_writes; destruct (ends x)|].
    rewrite Ec. cbn [mbind result_bind]. exists sealed, W'. split; [done|]. split; [done|].
    pose proof (epoch_rows_put lis x Hf _ _ Hep Hlx) as Hep'.
    assert (HW' : t_ledger_info (tables_union W' T) = <[li_epoch (liws_ledger_info x) := x]> (t_ledger_info T) /\
      t_epoch_by_version (tables_union W' T) =
        if ends x then <[version_of x := li_epoch (liws_ledger_info x)]> (t_epoch_by_version T) else t_epoch_by_version T).
    { destruct HW as [->|(v & c' & ->)]; unfold li_writes; destruct (ends x); cbn; rewrite W1, W2, <- ?insert_union_l, !(left_id_L ∅ (∪)); done. }
    destruct HW' as [HW1 HW2].
    split; (split; [..|by rewrite HW1, HW2|done] || split); destruct HW as [->|(v & c' & ->)]; unfold li_writes; destruct (ends x); assumption.
  - rewrite (bool_decide_eq_false_2 (is_Some None)) by (by intros [? ?]). cbn [orb]. destruct (Z.ltb_spec 0 (Z.of_nat (length txns))); cbn [ensure mbind result_bind]; [|by eexists].
    rewrite Es. cbn [mbind result_bind].
    destruct (seal_change_set_rows cs _ Hb Hd W3) as (sealed & c & W' & Ec & Hb'' & HW & Hc).
    rewrite Ec. cbn [mbind result_bind]. exists sealed, W'. split; [done|]. split; [done|].
    assert (HW' : t_ledger_info (tables_union W' T) = t_ledger_info T /\ t_epoch_by_version (tables_union W' T) = t_epoch_by_version T).
    { destruct HW as [->|(v & c' & ->)]; cbn; rewrite W1, W2, !(left_id_L ∅ (∪)); done. }
    destruct HW' as [HW1 HW2]. split; (split; [..|by rewrite HW1, HW2|done] || split); destruct HW as [->|(v & c' & ->)]; assumption.
Qed.
End Save.

Lemma commits_app E new li : commits E li -> commits (E ++ new) li.
Proof.
  intros [Hv Hr]. split; [rewrite length_app; lia|]. rewrite Hr. unfold ledger_at. by rewrite take_app_le by lia.
Qed.

Lemma commits_whole E li : acceptable E [] (Some li) = true -> 0 < Z.of_nat (length E) -> commits E li.
Proof.
  unfold acceptable. intros [Hv%Z.eqb_eq Hr%bool_decide_eq_true_1]%andb_true_iff Hpos. split; [lia|].
  unfold ledger_at. rewrite firstn_all2 by lia. done.
Qed.

(** The write of a batch whose rows extend the tables by the new entries. *)
Lemma write_transactions_rows (self : LibraDB (rocks:=rocks)) es0 least E lis txns li sealed W T :
  let E' := E ++ commit_entries (current es0 (map le_accounts E)) txns in
  db_ok self es0 least E lis -> tables (inner (ldb_db self)) T -> batch_tables (scs_batch sealed) W ->
  ledger_tables (tables_union W T) es0 least E' (lis_after lis li) -> acceptable E' txns li = true -> 0 < Z.of_nat (length E') ->
  match write_schemas (ldb_db self) (scs_batch sealed) with
  | Ok db => exists self', write_transactions self sealed li = Ok self' /\ ldb_db self' = db /\ ldb_pruner self' = ldb_pruner self /\
      db_ok self' es0 least E' (lis_after lis li) /\ tables (inner db) (tables_union W T)
  | Err e => write_transactions self sealed li = Err e
  | Panic => write_transactions self sealed li = Panic
  end.
Proof.
  intros E' [_ Hlat Hent Hbase Hcom Hleast] Htab Hb HT' Eacc Hpos. unfold write_transactions, commit.
  destruct (write_schemas (ldb_db self) (scs_batch sealed)) as [db|e|] eqn:Ew; cbn [mbind result_bind]; [|done..].
  assert (Ht' : tables (inner db) (tables_union W T)).
  { eapply write_tables; [exact Htab|exact Hb|]. destruct (ldb_db self), db. exact Ew. }
  eexists. split; [reflexivity|]. match goal with |- context [ldb_db ?d] => set (d' := d) end.
  assert (Hdb : ldb_db d' = db) by (unfold d'; by destruct li). split; [done|]. split; [unfold d'; by destruct li|]. split; [|done].
  assert (Hnd : NoDup (current es0 (map le_accounts E)).*1).
  { unfold current. destruct (list.last (map le_accounts E)) as [es|] eqn:El; cbn; [|done]. apply last_Some_elem_of, list_elem_of_fmap in El as (e & -> & He).
    rewrite list.Forall_forall in Hent. by apply (entry_accounts _ (Hent e He)). }
  split.
  - exists (tables_union W T). by rewrite Hdb.
  - unfold d'. destruct li as [x|]; cbn; [|done]. unfold lis_put. by rewrite last_snoc.
  - apply Forall_app. split; [done|by apply commit_entries_ok].
  - done.
  - assert (Hold : Forall (commits E') lis) by (eapply list.Forall_impl; [exact Hcom|]; intros l; apply commits_app).
    destruct li as [x|]; cbn [lis_after]; [|done]. unfold lis_put. apply Forall_app. split; [by apply Forall_take|].
    constructor; [|constructor]. by apply commits_whole.
  - unfold E'. rewrite length_app. lia.
Qed.

Lemma wake_pruner_ok (self : LibraDB (rocks:=rocks)) es0 least E lis v : db_ok self es0 least E lis -> db_ok (wake_pruner self v) es0 least E lis.
Proof. intros []. by split. Qed.

Lemma save_transactions_rows (self : LibraDB (rocks:=rocks)) es0 least E lis txns li : db_ok self es0 least E lis ->
  let E' := E ++ commit_entries (current es0 (map le_accounts E)) txns in
  Forall txn_ok txns -> batch_follows E (commit_entries (current es0 (map le_accounts E)) txns) ->
  (forall x, li = Some x -> li_ok lis x) -> counters_encodable -> 0 < Z.of_nat (length E') ->
  if acceptable E' txns li
  then exists sealed, prepare_transactions self txns (Z.of_nat (length E)) li = Ok sealed /\
    match write_schemas (ldb_db self) (scs_batch sealed) with
    | Ok db => exists self', save_transactions self txns (Z.of_nat (length E)) li = Ok self' /\ ldb_db self' = db /\
        db_ok self' es0 least E' (lis_after lis li) /\
        forall T T', tables (inner (ldb_db self)) T -> tables (inner db) T' -> stale_grows T T' (Z.of_nat (length E)) (Z.of_nat (length E'))
    | Err e => save_transactions self txns (Z.of_nat (length E)) li = Err e
    | Panic => save_transactions self txns (Z.of_nat (length E)) li = Panic
    end
  else exists e, save_transactions self txns (Z.of_nat (length E)) li = Err e.
Proof.
  intros Hok E' Htx Hnew Hli Henc Hpos. destruct (ok_tables _ _ _ _ _ Hok) as (T & Htab & HT).
  assert (Hsome : 0 < Z.of_nat (length E) + Z.of_nat (length txns)) by (unfold E' in Hpos; rewrite length_app, commit_entries_length in Hpos; lia).
  pose proof (prepare_transactions_rows self es0 least E lis T Htab HT (ok_least _ _ _ _ _ Hok) txns Htx Hnew Hsome li Hli Henc) as Hp.
  fold E' in Hp. unfold save_transactions. destruct (acceptable E' txns li) eqn:Eacc; [|destruct Hp as (e & ->); by exists e].
  destruct Hp as (sealed & W & Ep & Hb & HT' & Hg). exists sealed. split; [done|]. rewrite Ep. cbn [mbind result_bind].
  pose proof (write_transactions_rows self es0 least E lis txns li sealed W T Hok Htab Hb HT' Eacc Hpos) as Hw.
  destruct (write_schemas (ldb_db self) (scs_batch sealed)) as [db|e|]; [|by rewrite Hw..].
  destruct Hw as (self' & -> & Hdb & _ & Hok' & Ht'). cbn [mbind result_bind]. eexists. split; [done|].
  split; [by destruct (0 <? _)|]. split; [destruct (0 <? _); [by apply wake_pruner_ok|done]|].
  intros T1 T1' H1 H1'. rewrite (tables_unique _ _ _ H1 Htab), (tables_unique _ _ _ H1' Ht').
  unfold E'. rewrite length_app, commit_entries_length, Nat2Z.inj_add. exact Hg.
Qed.

(** C4: Saving a batch of transactions on a database that holds a ledger: a batch whose
    ledger info is not that of the ledger with the batch (its version or its accumulator
    root), or an empty batch without one, is refused with an error; any other batch is
    written at once, and either the write fails and its error is returned, or the database
    holds the ledger extended by one entry per transaction, with the account states, events
    and transaction info that the outputs of the transaction give, and the ledger info. *)
Theorem save_transactions_extends (self : LibraDB (rocks:=rocks)) es0 least E lis txns li : db_ok self es0 least E lis ->
  let E' := E ++ commit_entries (current es0 (map le_accounts E)) txns in
  Forall txn_ok txns -> batch_follows E (commit_entries (current es0 (map le_accounts E)) txns) ->
  (forall x, li = Some x -> li_ok lis x) -> counters_encodable -> 0 < Z.of_nat (length E') ->
  if acceptable E' txns li
  then exists sealed, prepare_transactions self txns (Z.of_nat (length E)) li = Ok sealed /\
    match write_schemas (ldb_db self) (scs_batch sealed) with
    | Ok db => exists self', save_transactions self txns (Z.of_nat (length E)) li = Ok self' /\ ldb_db self' = db /\
        db_ok self' es0 least E' (lis_after lis li)
    | Err e => save_transactions self txns (Z.of_nat (length E)) li = Err e
    | Panic => save_transactions self txns (Z.of_nat (length E)) li = Panic
    end
  else exists e, save_transactions self txns (Z.of_nat (length E)) li = Err e.
Proof.
  intros Hok E' Htx Hnew Hli Henc Hpos. pose proof (save_transactions_rows self es0 least E lis txns li Hok Htx Hnew Hli Henc Hpos) as Hs. fold E' in Hs.
  destruct (acceptable E' txns li); [|done]. destruct Hs as (sealed & Ep & Hs). exists sealed. split; [done|].
  destruct (write_schemas _ _); [|done..]. destruct Hs as (self' & Es & Edb & Hok' & _). eauto.
Qed.

(** Reopening finds the state that was saved. *)
Lemma libradb_open_rows (self : LibraDB (rocks:=rocks)) es0 least E lis prune_window : db_ok self es0 least E lis -> exists self',
  libradb_open (ldb_db self) prune_window = Ok self' /\ ldb_db self' = ldb_db self /\ db_ok self' es0 least E lis.
Proof.
  intros [(T & Htab & HT) Hlat Hent Hbase Hcom Hleast]. unfold libradb_open.
  pose proof (ledger_store_new_rows (ledger_store self) T lis Htab (tables_epochs _ _ _ _ _ HT)) as En. cbn [ls_db ledger_store] in En.
  rewrite En. cbn [mbind result_bind latest_ledger_info]. eexists. split; [done|]. split; [done|]. split; try done. by exists T.
Qed.

(** Opening a database again, after a stop or a crash at any point between writes,
    finds the ledger and the latest ledger info that were saved. *)
Theorem reopen_finds_saved (self : LibraDB (rocks:=rocks)) es0 least E lis prune_window : db_ok self es0 least E lis -> exists self',
  libradb_open (ldb_db self) prune_window = Ok self' /\ ldb_latest_ledger_info self' = ldb_latest_ledger_info self /\ db_ok self' es0 least E lis.
Proof.
  intros Hok. destruct (libradb_open_rows self es0 least E lis prune_window Hok) as (self' & Eo & _ & Hok'). exists self'. split; [done|].
  split; [|done]. by rewrite (ok_latest _ _ _ _ _ Hok), (ok_latest _ _ _ _ _ Hok').
Qed.

Lemma db_ok_empty (db : rocks) pruner : tables db tables_empty -> db_ok (mkLibraDB (mkDB db) None pruner) [] 0 [] [].
Proof.
  intros Htab. split; try done; [|constructor|left; lia]. exists tables_empty. split; [done|]. split.
  - apply ledger_rows_nil.
  - apply transaction_rows_nil.
  - apply event_rows_nil.
  - apply state_rows_nil. intros i. apply lookup_empty.
  - apply epoch_rows_nil.
  - intros v c Hv. cbn in Hv. by apply lookup_empty_Some in Hv.
Qed.

(** An empty database holds the empty ledger. *)
Lemma libradb_open_empty (db : rocks) prune_window : tables db tables_empty -> exists self,
  libradb_open (mkDB db) prune_window = Ok self /\ ldb_db self = mkDB db /\ db_ok self [] 0 [] [].
Proof.
  intros Htab. apply (libradb_open_rows _ [] 0 [] [] prune_window (db_ok_empty db None Htab)).
Qed.
End LibraDBProof.
