(* ===== verification/LibraDBReads.v ===== *)
(** * What LibraDB serves

    The reads of LibraDB on a database that holds a ledger: each returns the part of the
    ledger asked for, and its proof is accepted by the client's verifier under any ledger
    info that commits to the ledger. *)

From S2P Require Import Prelude U64 Bytes Lcs SchemaDb LedgerCounters.
From S2P Require Import Crypto Hash Position Accumulator AccumulatorProof MerkleAccumulator.
From S2P Require Import ValidatorVerifier LedgerInfo SparseMerkleProof SparseMerkleTree LedgerProof NodeType.
From S2P Require Import JellyfishMerkle JellyfishMerkleProof Schema Tables LedgerStore LedgerStoreProof StateStore StateStoreProof.
From S2P Require Import EventStore EventStoreProof TransactionStore TransactionStoreProof Pruner LibraDB LibraDBProof.

Section LibraDBReads.
Context `{Crypto} `{B : !HashBytes, !HashBytesLaws B, !LedgerHashers}.
Context `{!CryptoHash TransactionInfo, !CryptoHash Transaction, !CryptoHash ContractEvent}.
Context `{!CryptoHash AccountStateBlob, !CryptoHash SparseMerkleLeafNode, !CryptoHash AccountAddress}.
Context `{!Lcs LedgerInfoWithSignatures, !Lcs TransactionInfo, !Lcs Transaction, !Lcs ContractEvent, !Lcs LedgerCounters,
  !Lcs LeafNode}.
Context `{!LcsLaws LedgerInfoWithSignatures, !LcsLaws TransactionInfo, !LcsLaws Transaction, !LcsLaws ContractEvent,
  !LcsLaws LedgerCounters, !LcsLaws LeafNode}.
Context {rocks raw_iter : Type} `{!RocksDB rocks raw_iter, !RocksDBLaws rocks raw_iter}.


Notation entries := (list (HashValue * AccountStateBlob)).
Notation txn_tree_root := (tree_root TransactionAccumulatorInternalNode_hash ACCUMULATOR_PLACEHOLDER_HASH).
Notation event_tree_root := (tree_root EventAccumulatorInternalNode_hash ACCUMULATOR_PLACEHOLDER_HASH).
Notation event_hashes := (map (crypto_hash (T:=ContractEvent))).
Notation ledger_root E := (txn_tree_root (map crypto_hash (map le_info E))).

(** Reading a range of versions one by one. *)
Lemma collect_range {A X} (f : Z -> result string A) (g : X -> A) (l : list X) start m : 0 <= start -> start + Z.of_nat m <= Z.of_nat (length l) ->
  (forall v x, 0 <= v -> l !! Z.to_nat v = Some x -> f v = Ok (g x)) ->
  result_collect f (seqZ start (Z.of_nat m)) = Ok (map g (take m (drop (Z.to_nat start) l))).
Proof.
  intros Hs Hm Hf. apply result_collect_Ok, Forall2_same_length_lookup. split; [rewrite length_seqZ, length_map, length_take, length_drop; lia|].
  intros i v y [-> Hi]%lookup_seqZ Hy. rewrite list_lookup_fmap in Hy. apply fmap_Some in Hy as (x & Hx & ->).
  apply Hf; [lia|]. rewrite lookup_take_lt, lookup_drop in Hx by lia. by replace (Z.to_nat (start + Z.of_nat i)) with (Z.to_nat start + i)%nat by lia.
Qed.

(** Checks of pairs from one list all pass. *)
Lemma collect_checks {A B' X} (f : A * B' -> result string unit) (g : X -> A) (h : X -> B') l : (forall x, x ∈ l -> f (g x, h x) = Ok tt) ->
  result_collect f (zip (map g l) (map h l)) = Ok (replicate (length l) tt).
Proof.
  induction l as [|x l IH]; intros Hf; [done|]. cbn. rewrite Hf by (by left). cbn. rewrite IH; [done|]. intros y Hy. apply Hf. by right.
Qed.

(** A list of ledger entries with a range proof of their infos is accepted. *)
Lemma list_verifies li (part : list LedgerEntry) start (fetch_events : bool) pf : Forall entry_ok part ->
  Forall (fun e => Z.of_nat (length (le_events e)) < 2 ^ 63) part ->
  range_proof_verify TransactionAccumulatorInternalNode_hash pf (li_transaction_accumulator_hash li) (Some start)
    (map crypto_hash (map le_info part)) = Ok tt ->
  transaction_list_with_proof_verify (mkTransactionListWithProof (map le_transaction part)
    (if fetch_events then Some (map le_events part) else None) (Some start) (mkTransactionListProof pf (map le_info part))) li (Some start) = Ok tt.
Proof.
  rewrite !list.Forall_forall. intros Hpart Hfit Hver.
  unfold transaction_list_with_proof_verify. cbn [tlwp_first_transaction_version tlwp_proof tlwp_transactions tlwp_events].
  rewrite bool_decide_eq_true_2 by done. cbn [ensure mbind result_bind]. unfold transaction_list_proof_verify, zip_eq.
  cbn [tlp_transaction_infos ledger_info_to_transaction_infos_proof]. rewrite !length_map, Nat.eqb_refl. cbn [ensure mbind result_bind].
  rewrite (map_map le_transaction), collect_checks by (intros e He; rewrite bool_decide_eq_true_2; [done|]; symmetry; apply (entry_transaction _ (Hpart e He))).
  cbn [mbind result_bind]. rewrite Hver. cbn [mbind result_bind]. destruct fetch_events; [|done]. rewrite !length_map, Nat.eqb_refl. cbn [ensure mbind result_bind].
  rewrite collect_checks; [done|]. intros e He. pose proof (Hfit e He). rewrite event_root_tree by lia. cbn [mbind result_bind].
  rewrite bool_decide_eq_true_2; [done|]. symmetry. apply (entry_events _ (Hpart e He)).
Qed.

Notation event_at := (Z * Z * ContractEvent)%type.

(** The events of a key asked for, of those up to the ledger version: from a number up, or
    from a number down, where [u64_max] stands for the last. *)
Definition event_window (ascending : bool) (start limit : Z) (upto : list event_at) : list event_at :=
  if ascending then take (Z.to_nat limit) (drop (Z.to_nat start) upto)
  else
    let cursor := if start =? u64_max then Z.of_nat (length upto) - 1 else start in
    if cursor <? Z.of_nat (length upto) then rev (drop (Z.to_nat (cursor - limit + 1)) (take (Z.to_nat (cursor + 1)) upto)) else [].

Definition event_at_of (e : EventWithProof) : event_at := (ewp_transaction_version e, ewp_event_index e, ewp_event e).

(** Collecting over a list that carries its numbers. *)
Lemma collect_imap {X Y A} (f : A -> result string Y) (g : nat -> X -> A) (P : X -> Y -> Prop) l :
  (forall j x, l !! j = Some x -> exists y, f (g j x) = Ok y /\ P x y) -> exists ys, result_collect f (imap g l) = Ok ys /\ Forall2 P l ys.
Proof.
  revert g. induction l as [|x l IH]; intros g Hf; [by exists []|]. destruct (Hf 0%nat x eq_refl) as (y & Ey & Hy).
  destruct (IH (fun j => g (S j))) as (ys & Eys & Hys); [intros j z Hj; by apply (Hf (S j))|].
  exists (y :: ys). cbn. rewrite Ey. cbn. change (imap (g ∘ S) l) with (imap (fun j => g (S j)) l). rewrite Eys. split; [done|by constructor].
Qed.

Lemma last_imap {X A} (g : nat -> X -> A) l : list.last (imap g l) = g (pred (length l)) <$> list.last l.
Proof. by rewrite !last_lookup, list_lookup_imap, length_imap. Qed.

Lemma Forall2_rev {X Y} (P : X -> Y -> Prop) l k : Forall2 P l k -> Forall2 P (rev l) (rev k).
Proof. induction 1 as [|x y l k Hxy _ IH]; cbn; [constructor|]. apply Forall2_app; [done|]. by repeat constructor. Qed.

Section Reads.
Context (self : LibraDB (rocks:=rocks)) (es0 : entries) (least : Z) (E : list LedgerEntry) (lis : list LedgerInfoWithSignatures).
Context (Hok : db_ok self es0 least E lis).
Notation n := (Z.of_nat (length E)).

Lemma db_inner : ldb_db self = mkDB (inner (ldb_db self)).
Proof. by destruct (ldb_db self). Qed.

Lemma ledger_bound : n < 2 ^ 63.
Proof. destruct (ok_tables _ _ _ _ _ Hok) as (T & _ & HT). pose proof (rows_length _ _ _ (tables_infos _ _ _ _ _ HT)) as Hl. by rewrite length_map in Hl. Qed.

Lemma latest_ok latest : list.last lis = Some latest -> get_latest_ledger_info (ledger_store self) = Ok latest.
Proof.
  intros Hlast. unfold get_latest_ledger_info, get_latest_ledger_info_option, ledger_store. cbn [latest_ledger_info].
  by rewrite (ok_latest _ _ _ _ _ Hok), Hlast.
Qed.

Lemma leaves_at_ledger v : leaves_at (map le_info E) v = map crypto_hash (map le_info (ledger_at E v)).
Proof. unfold leaves_at, ledger_at. by rewrite firstn_map. Qed.

(** *** At a ledger info *)

Section AtLedgerInfo.
Context (li : LedgerInfo).
Notation ledger_version := (li_version li).
Context (Hlv : 0 <= ledger_version < n).
Context (Hroot : li_transaction_accumulator_hash li = ledger_root (ledger_at E ledger_version)).

Lemma info_with_proof version e : 0 <= version <= ledger_version -> E !! Z.to_nat version = Some e -> exists pf,
  get_transaction_info_with_proof (ledger_store self) version ledger_version = Ok (mkTransactionInfoWithProof pf (le_info e)) /\
  transaction_info_with_proof_verify (mkTransactionInfoWithProof pf (le_info e)) li version = Ok tt.
Proof.
  intros Hv He. destruct (ok_tables _ _ _ _ _ Hok) as (T & Htab & HT).
  destruct (get_transaction_info_with_proof_rows (ledger_store self) T (map le_info E) Htab (tables_infos _ _ _ _ _ HT) ledger_version)
    with (version := version) (i := le_info e) as (pf & Epf & Hver); [by rewrite length_map|done|by rewrite list_lookup_fmap, He|].
  exists pf. split; [done|]. unfold transaction_info_with_proof_verify, verify_transaction_info.
  destruct (Z.leb_spec version ledger_version); [|lia]. cbn [ensure mbind result_bind]. rewrite Hroot. by rewrite leaves_at_ledger in Hver.
Qed.

Lemma entry_at version : 0 <= version <= ledger_version -> exists e, E !! Z.to_nat version = Some e /\ entry_ok e.
Proof.
  intros Hv. destruct (lookup_lt_is_Some_2 E (Z.to_nat version)) as [e He]; [lia|]. exists e. split; [done|].
  pose proof (ok_entries _ _ _ _ _ Hok) as Hf. by eapply Forall_lookup_1 in Hf.
Qed.

Lemma events_bound version e : E !! version = Some e -> Z.of_nat (length (le_events e)) < 2 ^ 63.
Proof.
  intros He. destruct (ok_tables _ _ _ _ _ Hok) as (T & _ & HT). destruct (events_length _ _ _ _ (tables_events _ _ _ _ _ HT)) as [_ Hf].
  eapply Forall_lookup_1 in Hf; [exact Hf|]. by rewrite list_lookup_fmap, He.
Qed.

(** A transaction, its events if asked for, and a proof that a client accepts. *)
Lemma get_transaction_with_proof_ok version fetch_events e : 0 <= version <= ledger_version -> E !! Z.to_nat version = Some e ->
  exists t, get_transaction_with_proof self version ledger_version fetch_events = Ok t /\
    twp_version t = version /\ twp_transaction t = le_transaction e /\ twp_events t = (if fetch_events then Some (le_events e) else None) /\
    transaction_info_with_proof_verify (twp_proof t) li version = Ok tt /\
    forall sender seq, account_of (le_transaction e) = Some (sender, seq) -> verify_user_txn t li version sender seq = Ok tt.
Proof.
  intros Hv He. pose proof ledger_bound as Hb. destruct (info_with_proof version e Hv He) as (pf & Epf & Hver).
  destruct (entry_at version Hv) as (e' & He' & [Et Ee _ _]). rewrite He in He'. injection He' as <-.
  destruct (ok_tables _ _ _ _ _ Hok) as (T & Htab & HT). assert (Hu : is_u64 version) by (unfold is_u64; lia).
  unfold get_transaction_with_proof. rewrite Epf. cbn [mbind result_bind]. unfold transaction_store, event_store. rewrite db_inner.
  rewrite (get_transaction_rows _ T Htab _ (tables_transactions _ _ _ _ _ HT) version Hu), list_lookup_fmap, He. cbn [fmap option_fmap option_map mbind result_bind].
  assert (Hev : (if fetch_events then events ← get_events_by_version (mkEventStore (mkDB (inner (ldb_db self)))) version; Ok (Some events) else Ok None) =
    Ok (if fetch_events then Some (le_events e) else None)).
  { destruct fetch_events; [|done]. rewrite (get_events_by_version_rows _ T Htab _ (tables_events _ _ _ _ _ HT) version Hu), list_lookup_fmap, He. done. }
  rewrite Hev. cbn [mbind result_bind]. eexists. split; [done|]. cbn [twp_version twp_transaction twp_events twp_proof]. split; [done|]. split; [done|]. split; [done|].
  split; [exact Hver|]. intros sender seq Hacc. unfold verify_user_txn. cbn [twp_version twp_transaction twp_events twp_proof tip_transaction_info].
  destruct (le_transaction e) as [txn| |]; try done. injection Hacc as <- <-. cbn [as_signed_user_txn mbind result_bind].
  rewrite Z.eqb_refl, (bool_decide_eq_true_2 (st_sender txn = _)), Z.eqb_refl by done. cbn [ensure mbind result_bind].
  rewrite (bool_decide_eq_true_2 (crypto_hash (UserTransaction txn) = _)) by done. cbn [ensure mbind result_bind].
  destruct fetch_events; cbn [mbind result_bind]; [|exact Hver]. pose proof (events_bound _ _ He). rewrite event_root_tree by lia.
  cbn [mbind result_bind]. rewrite bool_decide_eq_true_2 by done. exact Hver.
Qed.

(** The transaction that an account sent with a sequence number. *)
Lemma get_txn_by_account_ok address seq fetch_events : is_address address -> is_u64 seq -> exists r,
  get_txn_by_account self address seq ledger_version fetch_events = Ok r /\
  match r with
  | Some t => (exists e, E !! Z.to_nat (twp_version t) = Some e /\ twp_transaction t = le_transaction e /\
        twp_events t = (if fetch_events then Some (le_events e) else None)) /\
      verify_user_txn t li (twp_version t) address seq = Ok tt
  | None => forall v e, 0 <= v <= ledger_version -> E !! Z.to_nat v = Some e -> account_of (le_transaction e) <> Some (address, seq)
  end.
Proof.
  intros Ha Hs. destruct (ok_tables _ _ _ _ _ Hok) as (T & Htab & HT). unfold get_txn_by_account, transaction_store. rewrite db_inner.
  destruct (lookup_transaction_by_account_rows _ T Htab _ (tables_transactions _ _ _ _ _ HT) address seq ledger_version Ha Hs) as (r & Er & Hr).
  rewrite Er. cbn [mbind result_bind]. destruct r as [v|].
  - destruct (proj1 (Hr v) eq_refl) as (Hv & t & Ht & Hacc). rewrite list_lookup_fmap in Ht. apply fmap_Some in Ht as (e & He & ->).
    destruct (get_transaction_with_proof_ok v fetch_events e Hv He) as (t & Et & Ev & Etx & Eev & _ & Hver). rewrite Et. cbn [mbind result_bind].
    eexists. split; [done|]. cbn. rewrite Ev. split; [by exists e|]. by apply Hver.
  - eexists. split; [done|]. intros v e Hv He Hacc. destruct (Hr v) as [_ Hr']. discriminate Hr'. split; [done|]. exists (le_transaction e).
    split; [by rewrite list_lookup_fmap, He|done].
Qed.

(** An account's state, or its absence. *)
Lemma get_account_state_with_proof_ok address version e latest : 0 <= version <= ledger_version -> least <= version ->
  list.last lis = Some latest -> ledger_version <= version_of latest -> E !! Z.to_nat version = Some e -> exists r,
  get_account_state_with_proof self address version ledger_version = Ok r /\
  aswp_blob r = lookup_entry (crypto_hash address) (le_accounts e) /\ account_state_with_proof_verify r li version address = Ok tt.
Proof.
  intros Hv Hl Hlast Hle He. destruct (ok_tables _ _ _ _ _ Hok) as (T & Htab & HT). pose proof ledger_bound as Hb.
  destruct (info_with_proof version e Hv He) as (pf & Epf & Hver). destruct (entry_at version Hv) as (e' & He' & [_ _ Es Hnd]).
  rewrite He in He'. injection He' as <-. unfold get_account_state_with_proof, get_latest_version.
  destruct (Z.leb_spec version ledger_version); [|lia]. cbn [ensure mbind result_bind]. rewrite (latest_ok latest Hlast). cbn [mbind result_bind].
  fold (version_of latest). destruct (Z.leb_spec ledger_version (version_of latest)); [|lia]. cbn [ensure mbind result_bind].
  rewrite Epf. cbn [mbind result_bind].
  unfold state_store. rewrite db_inner.
  rewrite (get_account_state_rows _ T Htab es0 least (map le_accounts E) (tables_states _ _ _ _ _ HT)) with (es := le_accounts e);
    [|rewrite length_map; unfold u64_max; lia|lia|lia|by rewrite list_lookup_fmap, He].
  cbn [mbind result_bind]. eexists. split; [done|]. split; [done|]. unfold account_state_with_proof_verify. cbn [aswp_version aswp_proof aswp_blob].
  rewrite Z.eqb_refl. cbn [ensure mbind result_bind]. unfold account_state_proof_verify.
  cbn [transaction_info_to_account_proof asp_transaction_info_with_proof tip_transaction_info]. rewrite Es, ref_sparse_proof_verifies by done. exact Hver.
Qed.

(** A range of transactions, with their events if asked for. *)
Lemma get_transactions_ok start limit fetch_events : 0 <= start <= ledger_version -> 0 < limit <= MAX_LIMIT ->
  let part := take (Z.to_nat (Z.min limit (ledger_version - start + 1))) (drop (Z.to_nat start) E) in
  exists r, get_transactions self start limit ledger_version fetch_events = Ok r /\
    tlwp_transactions r = map le_transaction part /\ tlwp_events r = (if fetch_events then Some (map le_events part) else None) /\
    transaction_list_with_proof_verify r li (Some start) = Ok tt.
Proof.
  intros Hs Hl part. pose proof ledger_bound as Hb. destruct (ok_tables _ _ _ _ _ Hok) as (T & Htab & HT).
  unfold get_transactions, error_if_too_many_requested. destruct (Z.ltb_spec MAX_LIMIT limit); [lia|]. cbn [mbind result_bind].
  destruct (Z.ltb_spec ledger_version start); [lia|]. destruct (Z.eqb_spec limit 0); [lia|]. cbn [orb].
  rewrite (u64_add_small (ledger_version - start)) by lia. set (m := Z.min limit (ledger_version - start + 1)) in *.
  rewrite (u64_add_small start) by lia. unfold u64_range. replace (start + m - start) with (Z.of_nat (Z.to_nat m)) by lia.
  unfold transaction_store, event_store. rewrite db_inner.
  rewrite (collect_range _ le_transaction E) by (lia || (intros v e Hv He; apply lookup_lt_Some in He as Hv';
    rewrite (get_transaction_rows _ T Htab _ (tables_transactions _ _ _ _ _ HT)), list_lookup_fmap, He by (unfold is_u64; lia); done)).
  cbn [mbind result_bind].
  rewrite (collect_range _ le_info E) by (lia || (intros v e Hv He; apply lookup_lt_Some in He as Hv';
    apply (get_transaction_info_rows (ledger_store self) T _ Htab (tables_infos _ _ _ _ _ HT)); [unfold is_u64; lia|by rewrite list_lookup_fmap, He])).
  cbn [mbind result_bind].
  rewrite (collect_range _ le_events E) by (lia || (intros v e Hv He; apply lookup_lt_Some in He as Hv';
    rewrite (get_events_by_version_rows _ T Htab _ (tables_events _ _ _ _ _ HT)), list_lookup_fmap, He by (unfold is_u64; lia); done)).
  cbn [mbind result_bind]. fold part.
  replace (if fetch_events then Ok (Some (map le_events part)) else Ok None) with (Ok (E:=string) (if fetch_events then Some (map le_events part) else None))
    by (by destruct fetch_events). cbn [mbind result_bind].
  destruct (get_transaction_range_proof_rows (ledger_store self) T (map le_info E) Htab (tables_infos _ _ _ _ _ HT) ledger_version)
    with (version := start) (m := Z.to_nat m) as (pf & Epf & Hver); [by rewrite length_map|lia|lia|lia|].
  rewrite Z2Nat.id in Epf by lia. rewrite Epf. cbn [mbind result_bind]. eexists. split; [done|]. cbn [tlwp_transactions tlwp_events]. split; [done|].
  split; [done|]. rewrite leaves_at_ledger, <- Hroot, skipn_map, firstn_map in Hver. fold part in Hver.
  apply list_verifies; [apply Forall_take, Forall_drop, (ok_entries _ _ _ _ _ Hok)| |done].
  apply Forall_take, Forall_drop, Forall_lookup. intros i e. apply events_bound.
Qed.

(** *** Events of a key *)

Section Key.
Context (key : bytes) (Hkey : length key = EVENT_KEY_LENGTH).
Notation upto := (events_upto (map le_events E) key ledger_version).
Notation count := (Z.of_nat (length upto)).

Lemma upto_elem j v i e : upto !! j = Some (v, i, e) -> 0 <= v <= ledger_version /\ 0 <= i /\ ce_key e = key /\
  ce_sequence_number e = Z.of_nat j /\ exists entry, E !! Z.to_nat v = Some entry /\ le_events entry !! Z.to_nat i = Some e.
Proof.
  intros Hj. destruct (ok_tables _ _ _ _ _ Hok) as (T & Htab & HT). pose proof (tables_events _ _ _ _ _ HT) as Hr.
  destruct (ascending_upto (fun r : event_at => r.1.1) ledger_version _ (key_events_ascending (map le_events E) key Hkey)) as [Eu _].
  fold upto in Eu. assert (Hj' : key_events key (map le_events E) !! j = Some (v, i, e)).
  { rewrite Eu in Hj. by apply lookup_take_Some in Hj as [Hj _]. }
  pose proof (events_sequenced _ _ _ _ Hr key j _ Hj') as Hseq. apply list_elem_of_lookup_2 in Hj, Hj'.
  apply key_events_elem in Hj' as [(Hv & Hi & es & Hes & He)%all_events_elem Hk]. unfold events_upto in Hj.
  apply list_elem_of_In, filter_In in Hj as [_ Hle%Z.leb_le]. cbn in Hle, Hk, Hseq. rewrite Z.sub_0_r, list_lookup_fmap in Hes.
  apply fmap_Some in Hes as (entry & Hentry & ->). split; [lia|]. split; [done|]. split; [done|]. split; [done|]. by exists entry.
Qed.

Definition event_served (r : event_at) (e : EventWithProof) : Prop := event_at_of e = r /\
  event_with_proof_verify e li key (ce_sequence_number r.2) r.1.1 r.1.2 = Ok tt.

Lemma indexed_event_ok j r : upto !! j = Some r -> exists e,
  indexed_event_with_proof self ledger_version (Z.of_nat j, r.1.1, r.1.2) = Ok e /\ event_served r e.
Proof.
  destruct r as [[v i] e]. intros Hj. destruct (upto_elem j v i e Hj) as (Hv & Hi & Hk & Hs & entry & Hentry & He). cbn [fst snd].
  destruct (ok_tables _ _ _ _ _ Hok) as (T & Htab & HT). unfold indexed_event_with_proof, event_store. rewrite db_inner.
  destruct (get_event_with_proof_rows _ T Htab _ (tables_events _ _ _ _ _ HT) v i (le_events entry) e ltac:(lia) Hi) as (pf & Epf & Hver);
    [by rewrite list_lookup_fmap, Hentry|done|]. rewrite Epf. cbn [mbind result_bind]. rewrite Hs, Z.eqb_refl. cbn [ensure mbind result_bind].
  destruct (info_with_proof v entry Hv Hentry) as (ipf & Eipf & Hiver). rewrite Eipf. cbn [mbind result_bind]. eexists. split; [done|]. split; [done|].
  destruct (entry_at v Hv) as (entry' & Hentry' & [_ Ee _ _]). rewrite Hentry in Hentry'. injection Hentry' as <-.
  unfold event_with_proof_verify. cbn [ewp_event ewp_transaction_version ewp_event_index ewp_proof fst snd].
  rewrite bool_decide_eq_true_2, !Z.eqb_refl by done. cbn [ensure mbind result_bind]. unfold event_proof_verify.
  cbn [transaction_info_to_event_proof ep_transaction_info_with_proof tip_transaction_info]. rewrite Ee, Hver. exact Hiver.
Qed.

(** A run of the events, looked up and served. *)
Lemma lookup_served start limit : is_u64 start -> exists keys evs,
  lookup_events_by_key (event_store self) key start limit ledger_version = Ok keys /\
  keys = imap (fun j r => (start + Z.of_nat j, r.1.1, r.1.2)) (take (Z.to_nat limit) (drop (Z.to_nat start) upto)) /\
  result_collect (indexed_event_with_proof self ledger_version) keys = Ok evs /\
  Forall2 event_served (take (Z.to_nat limit) (drop (Z.to_nat start) upto)) evs.
Proof.
  intros Hs. destruct (ok_tables _ _ _ _ _ Hok) as (T & Htab & HT). unfold event_store. rewrite db_inner.
  rewrite (lookup_events_by_key_rows _ T Htab _ (tables_events _ _ _ _ _ HT) key Hkey ledger_version start limit Hs).
  edestruct (collect_imap (indexed_event_with_proof self ledger_version) (fun j (r : event_at) => (start + Z.of_nat j, r.1.1, r.1.2)) event_served)
    as (evs & Eevs & Hevs); [|eexists _, evs; split; [done|split; [done|split; [exact Eevs|exact Hevs]]]].
  intros j r [Hj _]%lookup_take_Some. rewrite lookup_drop in Hj. unfold is_u64 in Hs.
  destruct (indexed_event_ok _ r Hj) as (e & Ee & He). exists e. split; [|done].
  by replace (start + Z.of_nat j) with (Z.of_nat (Z.to_nat start + j)) by lia.
Qed.

(** The cursor of a descending request; 0 when there is nothing to serve. *)
Lemma cursor_ok start : is_u64 start -> exists cursor,
  (if start =? u64_max then seq ← get_latest_sequence_number (event_store self) ledger_version key; Ok (default 0 seq) else Ok start) =
    Ok (E:=string) cursor /\ is_u64 cursor /\ (start <> u64_max -> cursor = start) /\ (start = u64_max -> cursor = Z.max 0 (count - 1)).
Proof.
  intros Hs. destruct (Z.eqb_spec start u64_max) as [->|]; [|by exists start].
  destruct (ok_tables _ _ _ _ _ Hok) as (T & Htab & HT). unfold event_store. rewrite db_inner. pose proof (tables_events _ _ _ _ _ HT) as Hr.
  rewrite (get_latest_sequence_number_rows _ T Htab _ Hr key Hkey ledger_version). cbn [mbind result_bind].
  pose proof (events_count _ T Htab _ Hr key) as Hc. pose proof (count_bound (map le_events E) key Hkey ledger_version) as Hcb.
  eexists. split; [done|]. destruct (Nat.eqb_spec (length (key_events key (map le_events E))) 0); cbn; unfold is_u64; repeat split; lia.
Qed.

(** Ascending or descending, from a number or from the last: the window of events asked
    for, each with a proof that a client accepts. *)
Lemma get_events_by_event_key_ok start ascending limit : is_u64 start -> 0 < limit <= MAX_LIMIT -> exists evs,
  get_events_by_event_key self key start ascending limit ledger_version = Ok evs /\
  Forall2 event_served (event_window ascending start limit upto) evs.
Proof.
  intros Hs Hl. unfold get_events_by_event_key, error_if_too_many_requested, get_first_seq_num_and_limit, event_window.
  destruct (Z.ltb_spec MAX_LIMIT limit); [lia|]. destruct (Z.ltb_spec 0 limit); [|lia]. cbn [ensure mbind result_bind].
  destruct ascending; cbn [negb andb mbind result_bind].
  - destruct (lookup_served start limit Hs) as (keys & evs & Ek & _ & Ee & He). rewrite Ek. cbn [mbind result_bind]. rewrite Ee. by exists evs.
  - destruct (cursor_ok start Hs) as (cursor & Ec & Hu & Hne & Heq). rewrite Ec. cbn [mbind result_bind]. clear Ec. unfold is_u64 in Hu.
    set (first := if limit <=? cursor then cursor - limit + 1 else 0). set (m := if limit <=? cursor then limit else u64_add cursor 1).
    replace (if limit <=? cursor then (cursor - limit + 1, limit) else (0, u64_add cursor 1)) with (first, m) by (unfold first, m; by destruct (limit <=? cursor)).
    assert (Hfm : 0 <= first /\ first = Z.max 0 (cursor - limit + 1) /\ m = cursor + 1 - first /\ 0 < m).
    { unfold first, m, MAX_LIMIT in *. destruct (Z.leb_spec limit cursor); rewrite ?u64_add_small; lia. }
    destruct (lookup_served first m) as (keys & evs & Ek & Hk & Ee & He); [unfold is_u64; lia|]. rewrite Ek. cbn [mbind result_bind].
    set (run := take (Z.to_nat m) (drop (Z.to_nat first) upto)) in *.
    assert (Hlast : list.last keys = (fun r : event_at => (first + Z.of_nat (pred (length run)), r.1.1, r.1.2)) <$> list.last run) by (by rewrite Hk, last_imap).
    assert (Hlen : Z.of_nat (length run) = Z.max 0 (Z.min m (count - first))) by (unfold run; rewrite length_take, length_drop; lia).
    rewrite Hlast. destruct (Z.ltb_spec cursor count) as [Hin|Hout].
    + assert (Hl' : is_Some (list.last run)) by (apply last_is_Some; intros En; rewrite En in Hlen; cbn in Hlen; lia).
      destruct Hl' as [r Er]. rewrite Er. cbn [fmap option_fmap option_map]. destruct (Z.ltb_spec (first + Z.of_nat (pred (length run))) cursor); [lia|].
      rewrite Ee. cbn [mbind result_bind]. eexists. split; [done|]. set (cursor' := if start =? u64_max then count - 1 else start).
      assert (cursor' = cursor) as -> by (unfold cursor'; destruct (Z.eqb_spec start u64_max); lia).
      destruct (Z.ltb_spec cursor count); [|lia]. apply Forall2_rev. unfold run in He. rewrite firstn_skipn_comm in He.
      replace (Z.to_nat first + Z.to_nat m)%nat with (Z.to_nat (cursor + 1)) in He by lia.
      by replace (Z.to_nat (cursor - limit + 1)) with (Z.to_nat first) by lia.
    + assert (Hnil : match (fun r : event_at => (first + Z.of_nat (pred (length run)), r.1.1, r.1.2)) <$> list.last run with
        | Some (seq_num, _, _) => if seq_num <? cursor then [] else keys | None => keys end = []).
      { destruct (list.last run) as [r|] eqn:Er; cbn [fmap option_fmap option_map].
        - assert (length run <> 0)%nat by (intros En%nil_length_inv; by rewrite En in Er).
          destruct (Z.ltb_spec (first + Z.of_nat (pred (length run))) cursor); [done|lia].
        - apply last_None in Er. by rewrite Hk, Er. }
      rewrite Hnil. cbn [result_collect mbind result_bind rev]. eexists. split; [done|].
      destruct (Z.eqb_spec start u64_max) as [->|]; [|destruct (Z.ltb_spec start count); [lia|constructor]].
      assert (upto = []) as -> by (apply nil_length_inv; lia). cbn. rewrite take_nil, drop_nil. constructor.
Qed.
End Key.
End AtLedgerInfo.

(** *** Epoch changes and the latest state *)

Section Latest.
Context (latest : LedgerInfoWithSignatures) (Hlast : list.last lis = Some latest).
(** The validators of the next epoch are those of the next epoch number. *)
Context (Hnext : li_next_block_epoch (liws_ledger_info latest) = li_epoch (liws_ledger_info latest) + if ends latest then 1 else 0).

Lemma closed_count : Z.of_nat (length (closed lis)) = li_next_block_epoch (liws_ledger_info latest).
Proof.
  destruct (ok_tables _ _ _ _ _ Hok) as (T & Htab & HT). pose proof (tables_epochs _ _ _ _ _ HT) as He.
  pose proof Hlast as Hl. rewrite last_lookup in Hl. pose proof (epochs_number _ _ _ He _ _ Hl) as Hn. apply lookup_lt_Some in Hl as Hlt. rewrite Hnext, Hn.
  destruct (closed_prefix T lis He) as [Ec|(x & Ec & Hx)].
  - assert (ends latest = true) as ->; [|rewrite <- Ec; lia]. apply list_elem_of_lookup_2 in Hl. rewrite Ec in Hl. unfold closed in Hl.
    by apply list_elem_of_In, filter_In in Hl as [_ ?].
  - rewrite Ec, last_snoc in Hlast. injection Hlast as ->. rewrite Hx. apply (f_equal length) in Ec. rewrite length_app in Ec. cbn in Ec. lia.
Qed.

(** One page of the ledger infos that end the epochs of a range. *)
Lemma get_epoch_ending_ledger_infos_ok start end_ : 0 <= start <= end_ -> end_ <= Z.of_nat (length (closed lis)) ->
  get_epoch_ending_ledger_infos self start end_ =
  Ok (take (Z.to_nat (Z.min MAX_NUM_EPOCH_ENDING_LEDGER_INFO (end_ - start))) (drop (Z.to_nat start) (closed lis)),
      MAX_NUM_EPOCH_ENDING_LEDGER_INFO <? end_ - start).
Proof.
  intros Hs He. destruct (ok_tables _ _ _ _ _ Hok) as (T & Htab & HT). pose proof (tables_epochs _ _ _ _ _ HT) as Hr.
  pose proof (epochs_length _ _ _ Hr) as Hl. assert (Hcl : (length (closed lis) <= length lis)%nat) by apply List.filter_length_le.
  unfold get_epoch_ending_ledger_infos, get_epoch_ending_ledger_infos_impl. destruct (Z.leb_spec start end_); [|lia]. cbn [ensure mbind result_bind].
  rewrite (latest_ok latest Hlast). cbn [mbind result_bind]. rewrite <- closed_count.
  destruct (Z.leb_spec end_ (Z.of_nat (length (closed lis)))); [|lia]. cbn [ensure mbind result_bind].
  set (limit := MAX_NUM_EPOCH_ENDING_LEDGER_INFO). assert (Hlim : limit = 100) by done.
  replace (if limit <? end_ - start then (u64_add start limit, true) else (end_, false)) with (start + Z.min limit (end_ - start), limit <? end_ - start)
    by (destruct (Z.ltb_spec limit (end_ - start)); rewrite ?u64_add_small by lia; f_equal; lia).
  cbn [mbind result_bind]. replace (start + Z.min limit (end_ - start) - start) with (Z.min limit (end_ - start)) by lia.
  destruct (epoch_ending_iter_rows (ledger_store self) T lis Htab Hr start (start + Z.min limit (end_ - start)) (S (Z.to_nat (Z.min limit (end_ - start)))))
    as (it & Ei & Ec); [unfold is_u64; lia|lia|unfold is_u64; lia|lia|].
  rewrite Ei. cbn [mbind result_bind]. rewrite Ec. cbn [mbind result_bind]. replace (start + Z.min limit (end_ - start) - start) with (Z.min limit (end_ - start)) by lia.
  rewrite length_take, length_drop. replace (_ =? _) with true by (symmetry; apply Z.eqb_eq; lia). done.
Qed.

(** What a client that knows an earlier version needs to follow to the latest ledger
    info: the epoch changes from its epoch on, and a proof that its ledger is a prefix. *)
Lemma get_state_proof_ok known_version : 0 <= known_version <= version_of latest ->
  let known_epoch := epoch_of lis known_version in let left := Z.of_nat (length (closed lis)) - known_epoch in
  exists pf, get_state_proof self known_version =
    Ok (latest, mkEpochChangeProof (take (Z.to_nat (Z.min MAX_NUM_EPOCH_ENDING_LEDGER_INFO left)) (drop (Z.to_nat known_epoch) (closed lis)))
          (MAX_NUM_EPOCH_ENDING_LEDGER_INFO <? left), pf) /\
    append_subtrees TransactionAccumulatorInternalNode_hash ACCUMULATOR_PLACEHOLDER_HASH
      (accumulator_of TransactionAccumulatorInternalNode_hash ACCUMULATOR_PLACEHOLDER_HASH (map crypto_hash (map le_info (ledger_at E known_version))))
      (subtrees pf) (version_of latest - known_version) =
    Ok (accumulator_of TransactionAccumulatorInternalNode_hash ACCUMULATOR_PLACEHOLDER_HASH
         (map crypto_hash (map le_info (ledger_at E (version_of latest))))).
Proof.
  intros Hk known_epoch left. destruct (ok_tables _ _ _ _ _ Hok) as (T & Htab & HT). pose proof ledger_bound as Hb.
  pose proof (ok_commits _ _ _ _ _ Hok) as Hcom. rewrite list.Forall_forall in Hcom. destruct (Hcom latest) as [Hver _]; [by apply last_Some_elem_of|].
  unfold get_state_proof. rewrite (latest_ok latest Hlast). cbn [mbind result_bind]. unfold get_state_proof_with_ledger_info.
  rewrite (get_epoch_rows (ledger_store self) T lis Htab (tables_epochs _ _ _ _ _ HT) known_version) by (unfold is_u64; lia). cbn [mbind result_bind].
  fold known_epoch (version_of latest). rewrite <- closed_count.
  assert (Hke : 0 <= known_epoch <= Z.of_nat (length (closed lis))).
  { unfold known_epoch, epoch_of. pose proof (List.filter_length_le (fun li => version_of li <? known_version) (closed lis)). lia. }
  destruct (get_consistency_proof_rows (ledger_store self) T (map le_info E) Htab (tables_infos _ _ _ _ _ HT) (version_of latest)) with (known_version := known_version)
    as (pf & Epf & Hpf); [by rewrite length_map|lia|]. exists pf. rewrite leaves_at_ledger, firstn_map in Hpf. split; [|exact Hpf].
  destruct (Z.ltb_spec known_epoch (Z.of_nat (length (closed lis)))).
  - rewrite get_epoch_ending_ledger_infos_ok by lia. cbn [mbind result_bind]. rewrite Epf. done.
  - cbn [mbind result_bind]. rewrite Epf. cbn [mbind result_bind]. assert (left = 0) as -> by (unfold left; lia). done.
Qed.
End Latest.

(** The state that a node starts executing from. *)
Lemma get_latest_tree_state_ok e : list.last E = Some e -> get_latest_tree_state self =
  Ok (mkTreeState n (frozen_subtree_roots (accumulator_of TransactionAccumulatorInternalNode_hash ACCUMULATOR_PLACEHOLDER_HASH
        (map crypto_hash (map le_info E)))) (ti_state_root_hash (le_info e))).
Proof.
  intros Hlast. destruct (ok_tables _ _ _ _ _ Hok) as (T & Htab & HT). pose proof (tables_infos _ _ _ _ _ HT) as Hi.
  assert (Hpos : 0 < n) by (destruct E; [done|cbn; lia]). unfold get_latest_tree_state.
  rewrite (get_latest_transaction_info_rows (ledger_store self) T (map le_info E) Htab Hi), fmap_last, Hlast, length_map. cbn [mbind result_bind fmap option_fmap option_map].
  rewrite (get_tree_state_rows (ledger_store self) T (map le_info E) Htab Hi (n - 1)) by (rewrite length_map; lia).
  rewrite leaves_at_ledger. unfold ledger_at. rewrite Z.sub_add, firstn_all2 by lia. done.
Qed.
End Reads.

(** ** The reads of a client

    [li] is any ledger info that commits to the ledger up to its version, such as the
    latest one of the database. *)

Section Served.
Context (self : LibraDB (rocks:=rocks)) (es0 : entries) (least : Z) (E : list LedgerEntry) (lis : list LedgerInfoWithSignatures).

(** C20: The state of an account at a readable version is served, present or absent, with
    a proof that the client's verifier accepts. *)
Theorem account_state_served li latest address version e : db_ok self es0 least E lis -> commits E li -> list.last lis = Some latest ->
  version_of li <= version_of latest -> 0 <= version <= version_of li -> least <= version -> E !! Z.to_nat version = Some e -> exists r,
  get_account_state_with_proof self address version (version_of li) = Ok r /\
  aswp_blob r = lookup_entry (crypto_hash address) (le_accounts e) /\
  account_state_with_proof_verify r (liws_ledger_info li) version address = Ok tt.
Proof.
  intros Hok [Hv Hr] Hlast Hle Hver Hl He. by apply (get_account_state_with_proof_ok self es0 least E lis Hok (liws_ledger_info li) Hv Hr address version e latest).
Qed.

(** C21: A range of transactions is served, cut at the limit and at the ledger version,
    with their events if asked for and a proof that the client's verifier accepts. *)
Theorem transactions_served li start limit fetch_events : db_ok self es0 least E lis -> commits E li ->
  0 <= start <= version_of li -> 0 < limit <= MAX_LIMIT ->
  let part := take (Z.to_nat (Z.min limit (version_of li - start + 1))) (drop (Z.to_nat start) E) in
  exists r, get_transactions self start limit (version_of li) fetch_events = Ok r /\
    tlwp_transactions r = map le_transaction part /\ tlwp_events r = (if fetch_events then Some (map le_events part) else None) /\
    transaction_list_with_proof_verify r (liws_ledger_info li) (Some start) = Ok tt.
Proof. intros Hok [Hv Hr] Hs Hl. by apply (get_transactions_ok self es0 least E lis Hok (liws_ledger_info li) Hv Hr). Qed.

(** C22: The events of a key are served in either direction, from a number or from the
    last one, never beyond the ledger version, each with a proof that the client's
    verifier accepts for its key, number, version and index. *)
Theorem events_served li key start ascending limit : db_ok self es0 least E lis -> commits E li -> length key = EVENT_KEY_LENGTH ->
  is_u64 start -> 0 < limit <= MAX_LIMIT -> exists evs,
  get_events_by_event_key self key start ascending limit (version_of li) = Ok evs /\
  Forall2 (event_served (liws_ledger_info li) key)
    (event_window ascending start limit (events_upto (map le_events E) key (version_of li))) evs.
Proof. intros Hok [Hv Hr] Hk Hs Hl. by apply (get_events_by_event_key_ok self es0 least E lis Hok (liws_ledger_info li) Hv Hr). Qed.

(** C23: A client that knows the ledger up to a version is served the latest ledger info,
    the ledger infos that end the epochs from its own on (a page of them), and a proof that
    takes its accumulator to that of the latest ledger info. *)
Theorem state_proof_served latest known_version : db_ok self es0 least E lis -> list.last lis = Some latest ->
  li_next_block_epoch (liws_ledger_info latest) = li_epoch (liws_ledger_info latest) + (if ends latest then 1 else 0) ->
  0 <= known_version <= version_of latest ->
  let known_epoch := epoch_of lis known_version in let left := Z.of_nat (length (closed lis)) - known_epoch in
  exists pf, get_state_proof self known_version =
    Ok (latest, mkEpochChangeProof (take (Z.to_nat (Z.min MAX_NUM_EPOCH_ENDING_LEDGER_INFO left)) (drop (Z.to_nat known_epoch) (closed lis)))
          (MAX_NUM_EPOCH_ENDING_LEDGER_INFO <? left), pf) /\
    append_subtrees TransactionAccumulatorInternalNode_hash ACCUMULATOR_PLACEHOLDER_HASH
      (accumulator_of TransactionAccumulatorInternalNode_hash ACCUMULATOR_PLACEHOLDER_HASH (map crypto_hash (map le_info (ledger_at E known_version))))
      (subtrees pf) (version_of latest - known_version) =
    Ok (accumulator_of TransactionAccumulatorInternalNode_hash ACCUMULATOR_PLACEHOLDER_HASH
         (map crypto_hash (map le_info (ledger_at E (version_of latest))))).
Proof. intros Hok Hlast Hnext Hk. by apply (get_state_proof_ok self es0 least E lis Hok latest Hlast Hnext). Qed.
End Served.
End LibraDBReads.
