(* ===== verification/PrunerProof.v ===== *)
(** * Correctness of the pruner

    What a round of the pruner deletes; that it makes progress; and that, with the
    database's threads committing at any time in between, the versions that are to be kept
    stay readable. *)

From S2P Require Import Prelude U64 Bytes Lcs SchemaDb LedgerCounters.
From S2P Require Import Crypto Hash Position Accumulator AccumulatorProof MerkleAccumulator.
From S2P Require Import ValidatorVerifier LedgerInfo SparseMerkleProof SparseMerkleTree LedgerProof NibblePath NodeType NodeTypeProof NodeCodec.
From S2P Require Import JellyfishMerkle JellyfishMerkleProof JellyfishMerkleUpdate JellyfishMerkleBatch.
From S2P Require Import Schema Tables LedgerStore LedgerStoreProof StateStore StateStoreProof.
From S2P Require Import EventStore EventStoreProof TransactionStore Pruner LibraDB LibraDBProof.

Section PrunerProof.
Context `{Crypto} `{B : !HashBytes, !HashBytesLaws B, !LedgerHashers}.
Context `{!CryptoHash TransactionInfo, !CryptoHash Transaction, !CryptoHash ContractEvent}.
Context `{!CryptoHash AccountStateBlob, !CryptoHash SparseMerkleLeafNode, !CryptoHash AccountAddress}.
Context `{!Lcs LedgerInfoWithSignatures, !Lcs TransactionInfo, !Lcs Transaction, !Lcs ContractEvent, !Lcs LedgerCounters,
  !Lcs LeafNode}.
Context `{!LcsLaws LedgerInfoWithSignatures, !LcsLaws TransactionInfo, !LcsLaws Transaction, !LcsLaws ContractEvent,
  !LcsLaws LedgerCounters, !LcsLaws LeafNode}.
Context {rocks raw_iter : Type} `{!RocksDB rocks raw_iter, !RocksDBLaws rocks raw_iter}.



Notation entries := (list (HashValue * AccountStateBlob)).
Notation index_row := (StaleNodeIndex * unit)%type.
Notation since := (fun r : index_row => stale_since_version r.1).

(** ** Reading the stale nodes *)

(** The rows that a peekable iterator has left. *)
Definition pk_left (it : PeekableIter (raw_iter:=raw_iter)) (l : list index_row) : Prop :=
  match peeked it with
  | None => yields StaleNodeIndexSchema (pk_inner it) l
  | Some (Ok (Some r)) => exists l', l = r :: l' /\ yields StaleNodeIndexSchema (pk_inner it) l'
  | Some (Ok None) => l = [] /\ yields StaleNodeIndexSchema (pk_inner it) []
  | Some _ => False
  end.

Lemma pk_next_left it l : pk_left it l -> exists it', pk_next it = (it', Ok (head l)) /\ pk_left it' (tail l).
Proof.
  unfold pk_left, pk_next. destruct (peeked it) as [[[r|]| |]|]; try done.
  - intros (l' & -> & Hy). eexists. split; [done|]. done.
  - intros (-> & Hy). eexists. split; [done|]. done.
  - intros Hy. destruct l as [|r l].
    + rewrite (next_nil _ _ Hy). eexists. split; [done|]. done.
    + destruct (next_cons _ _ _ _ Hy) as (it' & E & Hy'). rewrite E. eexists. split; [done|]. done.
Qed.

Lemma pk_peek_left it l : pk_left it l -> exists it', pk_peek it = (it', Ok (head l)) /\ pk_left it' l.
Proof.
  unfold pk_left, pk_peek. destruct (peeked it) as [[[r|]| |]|] eqn:Ep; try done.
  - intros (l' & -> & Hy). eexists. split; [done|]. rewrite Ep. by exists l'.
  - intros (-> & Hy). eexists. split; [done|]. by rewrite Ep.
  - intros Hy. destruct l as [|r l].
    + rewrite (next_nil _ _ Hy). eexists. split; [done|]. done.
    + destruct (next_cons _ _ _ _ Hy) as (it' & E & Hy'). rewrite E. eexists. split; [done|]. cbn. by exists l.
Qed.

(** The rows of one version. *)
Lemma same_version_ok v g : forall it acc rest, pk_left it (g ++ rest) -> Forall (fun r => since r = v) g ->
  (forall r, head rest = Some r -> since r <> v) -> exists it',
  rounds (same_version_body v) (S (length g)) (it, acc) = inr (Ok (it', acc ++ g.*1)) /\ pk_left it' rest.
Proof.
  induction g as [|[i u] g IH]; intros it acc rest Hl Hg Hr; cbn [app length] in *.
  - destruct (pk_peek_left _ _ Hl) as (it' & E & Hl'). exists it'. rewrite app_nil_r. split; [|done]. cbn [rounds same_version_body]. rewrite E.
    destruct rest as [|[i u] rest]; cbn [head]; [done|]. specialize (Hr _ eq_refl). cbn in Hr. by rewrite (proj2 (Z.eqb_neq _ _) Hr).
  - apply list.Forall_cons in Hg as [Hi Hg]. cbn in Hi. destruct (pk_peek_left _ _ Hl) as (it1 & E1 & Hl1). destruct (pk_next_left _ _ Hl1) as (it2 & E2 & Hl2).
    cbn [tail] in Hl2. destruct (IH it2 (acc ++ [i]) rest Hl2 Hg Hr) as (it' & E & Hl'). exists it'. split; [|done].
    cbn [rounds same_version_body]. rewrite E1. cbn [head]. rewrite Hi, Z.eqb_refl. cbn [negb]. rewrite E2. cbn [head].
    change (rounds (same_version_body v) (S (length g)) (it2, acc ++ [i]) = inr (Ok (it', acc ++ i :: g.*1))). rewrite E. by rewrite <- app_assoc.
Qed.

Notation by_version := (fun r1 r2 : index_row => since r1 <= since r2).

(** The rows of the first version come first. *)
Lemma first_version (r : index_row) l : Sorted.StronglySorted by_version (r :: l) -> exists g rest, l = g ++ rest /\
  Forall (fun x => since x = since r) g /\ Forall (fun x => since r < since x) rest /\ Sorted.StronglySorted by_version rest.
Proof.
  intros Hs. inversion Hs as [|? ? Hl Hr]; subst. exists (List.filter (fun x => since x =? since r) l), (List.filter (fun x => negb (since x =? since r)) l).
  split; [|split; [|split; [|by apply filter_sorted]]].
  - apply (sorted_split by_version); [done|]. intros x y Hx%Z.eqb_neq Hy%Z.eqb_eq Hxl Hyl Hle. rewrite list.Forall_forall in Hr. specialize (Hr x Hxl). lia.
  - apply list.Forall_forall. intros x Hx. apply list_elem_of_In, filter_In in Hx as [_ Hx%Z.eqb_eq]. done.
  - apply list.Forall_forall. intros x Hx. apply list_elem_of_In, filter_In in Hx as [Hx Hn%negb_true_iff%Z.eqb_neq].
    rewrite list.Forall_forall in Hr. specialize (Hr x (proj2 (list_elem_of_In _ _) Hx)). lia.
Qed.

(** The rows of the first versions up to the target: all of them, or those of
    [max_versions] versions. *)
Lemma collect_indices_ok max_versions : forall it l lo, pk_left (sit_inner it) l -> Sorted.StronglySorted by_version l ->
  Z.of_nat (length l) < 2 ^ 64 -> (forall r, r ∈ l -> lo <= since r) -> exists groups pre post,
  collect_indices max_versions it = Ok groups /\ concat groups = pre.*1 /\ l = pre ++ post /\
  (forall r, r ∈ pre -> since r <= sit_target_least_readable_version it) /\ (forall r1 r2, r1 ∈ pre -> r2 ∈ post -> since r1 < since r2) /\
  ((forall r, r ∈ post -> sit_target_least_readable_version it < since r) \/ max_versions = 0%nat \/
   exists r, list.last pre = Some r /\ lo + Z.of_nat max_versions - 1 <= since r).
Proof.
  induction max_versions as [|m IH]; intros it l lo Hl Hs Hlen Hlo; cbn [collect_indices].
  - exists [], [], l. repeat (split; [done|]). split; [by intros r ?%elem_of_nil|]. split; [by intros r1 r2 ?%elem_of_nil|]. by right; left.
  - unfold stale_iter_next. destruct (pk_next_left _ _ Hl) as (it1 & E1 & Hl1). rewrite E1. destruct l as [|[i u] l]; cbn [head tail] in *.
    + exists [], [], []. repeat (split; [done|]). split; [by intros r ?%elem_of_nil|]. split; [by intros r1 r2 ?%elem_of_nil|]. left. by intros r ?%elem_of_nil.
    + set (target := sit_target_least_readable_version it) in *. destruct (Z.ltb_spec target (stale_since_version i)) as [Hgt|Hle]; cbn [mbind result_bind].
      * exists [], [], ((i, u) :: l). repeat (split; [done|]). split; [by intros r ?%elem_of_nil|]. split; [by intros r1 r2 ?%elem_of_nil|]. left.
        inversion Hs as [|? ? _ Hr]; subst. rewrite list.Forall_forall in Hr. intros r [->|Hrl]%elem_of_cons; [done|]. specialize (Hr r Hrl). cbn in Hr. lia.
      * destruct (first_version _ _ Hs) as (g & rest & -> & Hg & Hrest & Hsr). cbn [fst] in Hg, Hrest. rewrite list.Forall_forall in Hrest.
        cbn [length] in Hlen. rewrite length_app in Hlen.
        destruct (same_version_ok (stale_since_version i) g it1 [i] rest Hl1 Hg) as (it2 & E2 & Hl2).
        { intros r Hr. apply head_Some_elem_of, Hrest in Hr. lia. }
        rewrite (run_loop_exits _ (S (length g)) _ _ ltac:(lia) E2). cbn [mbind result_bind].
        destruct (IH (mkStaleIter it2 target) rest (stale_since_version i + 1)) as (groups & pre & post & Ec & Ecc & -> & Hpre & Hpp & Hcase);
          [done|done|lia|intros r Hr; specialize (Hrest r Hr); lia|].
        cbn [sit_target_least_readable_version] in Hpre, Hcase. rewrite Ec. cbn [mbind result_bind].
        exists (([i] ++ g.*1) :: groups), ((i, u) :: g ++ pre), post. rewrite list.Forall_forall in Hg.
        assert (Hin : forall r, r ∈ (i, u) :: g ++ pre -> since r = stale_since_version i \/ r ∈ pre).
        { intros r [->|[Hr|Hr]%elem_of_app]%elem_of_cons; [by left|left; by apply Hg|by right]. }
        split; [done|]. split; [cbn; by rewrite fmap_app, Ecc|]. split; [cbn; by rewrite app_assoc|].
        split; [intros r [->|Hr]%Hin; [done|by apply Hpre]|].
        split; [intros r1 r2 [->|Hr]%Hin Hr2; [apply Hrest, elem_of_app; by right|by apply Hpp]|].
        assert (Hi : lo <= stale_since_version i) by (apply (Hlo (i, u)); by left).
        destruct Hcase as [Hc|[->|(r & Er & Hr)]]; [by left|right; right..].
        -- cbn in Ec. injection Ec as <-. assert (pre = []) as -> by (by destruct pre). rewrite app_nil_r in *.
           destruct (list.last ((i, u) :: g)) as [r|] eqn:Er; [|by apply last_None in Er]. exists r. split; [done|].
           apply last_Some_elem_of, Hin in Er as [->|Hr%elem_of_nil]; [lia|done].
        -- exists r. split; [|lia]. change ((i, u) :: g ++ pre) with (((i, u) :: g) ++ pre). by rewrite last_app, Er.
Qed.

(** Whatever is collected comes from the rows, up to the target. *)
Lemma collect_indices_sound (P : StaleNodeIndex -> Prop) max_versions : forall it l groups, pk_left (sit_inner it) l ->
  (forall r, r ∈ l -> P r.1) -> collect_indices max_versions it = Ok groups ->
  forall i, i ∈ concat groups -> P i /\ stale_since_version i <= sit_target_least_readable_version it.
Proof.
  induction max_versions as [|m IH]; intros it l groups Hl HP Hc; cbn [collect_indices] in Hc; [injection Hc as <-; by intros i ?%elem_of_nil|].
  unfold stale_iter_next in Hc. destruct (pk_next_left _ _ Hl) as (it1 & E1 & Hl1). rewrite E1 in Hc.
  destruct l as [|[i0 u] l]; cbn [head tail] in *; [injection Hc as <-; by intros i ?%elem_of_nil|].
  destruct (Z.ltb_spec (sit_target_least_readable_version it) (stale_since_version i0)); cbn [mbind result_bind] in Hc; [injection Hc as <-; by intros i ?%elem_of_nil|].
  destruct (run_loop _ _) as [[it2 g]| |] eqn:Er; cbn [mbind result_bind] in Hc; [|done..].
  set (I := fun s : PeekableIter * list StaleNodeIndex => exists rest, pk_left s.1 rest /\ (forall r, r ∈ rest -> P r.1) /\
    forall i, i ∈ s.2 -> P i /\ stale_since_version i = stale_since_version i0).
  eapply (run_loop_invariant _ I) in Er as ([it3 g'] & (rest & Hrest & HPr & Hg) & Ebody).
  - cbn [fst snd] in *. cbn [same_version_body] in Ebody. destruct (pk_peek_left _ _ Hrest) as (it4 & E4 & Hl4). rewrite E4 in Ebody.
    assert (Hfin : g = g' /\ it2 = it4).
    { destruct (head rest) as [[i1 u1]|] eqn:Eh; [|by injection Ebody as -> ->]. destruct (negb _); [by injection Ebody as -> ->|].
      destruct (pk_next_left _ _ Hl4) as (it5 & E5 & _). rewrite E5, Eh in Ebody. done. }
    destruct Hfin as [-> ->]. destruct (collect_indices m _) as [gs| |] eqn:Ec; cbn [mbind result_bind] in Hc; [|done..]. injection Hc as <-.
    intros i [Hi|Hi]%elem_of_app; [destruct (Hg i Hi) as [? ->]; split; [done|lia]|]. by eapply (IH (mkStaleIter it4 _) rest gs Hl4 HPr Ec).
  - exists l. cbn [fst snd]. split; [done|]. split; [intros r Hr; apply HP; by right|]. intros i Hi%list_elem_of_singleton. subst i. split; [|done]. apply (HP (i0, u)). by left.
  - intros [it3 g'] [it4 g4] (rest & Hrest & HPr & Hg) Ebody. cbn [fst snd] in *. cbn [same_version_body] in Ebody.
    destruct (pk_peek_left _ _ Hrest) as (it5 & E5 & Hl5). rewrite E5 in Ebody. destruct rest as [|[i1 u1] rest]; cbn [head] in Ebody; [done|].
    destruct (Z.eqb_spec (stale_since_version i1) (stale_since_version i0)) as [Heq|]; [|done]. cbn [negb] in Ebody.
    destruct (pk_next_left _ _ Hl5) as (it6 & E6 & Hl6). rewrite E6 in Ebody. cbn [head tail] in *. injection Ebody as <- <-.
    exists rest. split; [done|]. split; [intros r Hr; apply HPr; by right|]. intros i [Hi|Hi%list_elem_of_singleton]%elem_of_app; [by apply Hg|]. subst i.
    split; [apply (HPr (i1, u1)); by left|done].
Qed.

(** *** The rows in storage *)

Section Stale.
Context (db : rocks) (T : Tables) (Htab : tables db T).
Notation indices := (t_stale_node_index T).

Lemma index_key_ok i u : indices !! i = Some u -> is_u64 (stale_since_version i) /\ node_key_ok (sni_node_key i).
Proof. intros Hi. exact (column_keys StaleNodeIndexSchema db _ i u (col_stale_node_index _ _ Htab) Hi). Qed.

Lemma index_raw_key i : node_key_ok (sni_node_key i) -> exists raw, raw_key StaleNodeIndexSchema i = u64_be (stale_since_version i) ++ raw.
Proof. intros Hk. destruct (node_key_codec _ Hk) as (raw & E & _). exists raw. unfold raw_key. cbn. by rewrite E. Qed.

Lemma stale_from least : is_u64 least -> Sorted.StronglySorted by_version (rows_from StaleNodeIndexSchema (stale_seek_key least) indices) /\
  forall i u, (i, u) ∈ rows_from StaleNodeIndexSchema (stale_seek_key least) indices <-> indices !! i = Some u /\ least <= stale_since_version i.
Proof.
  intros Hl. unfold rows_from, stale_seek_key. split.
  - assert (Hs : Sorted.StronglySorted (row_lt StaleNodeIndexSchema) (sorted_rows StaleNodeIndexSchema indices)).
    { apply (sorted_rows_sorted StaleNodeIndexSchema). intros i u. apply index_key_ok. }
    apply filter_sorted. apply strongly_sorted_lookup. intros a b [i1 u1] [i2 u2] Hab H1 H2.
    pose proof (strongly_sorted_lookup_1 _ _ Hs a b _ _ Hab H1 H2) as Hlt. apply list_elem_of_lookup_2, sorted_rows_elem, index_key_ok in H1 as [Hu1 Hk1], H2 as [Hu2 Hk2].
    unfold row_lt, bytes_lt in Hlt. cbn [fst] in *. destruct (index_raw_key _ Hk1) as [r1 E1], (index_raw_key _ Hk2) as [r2 E2]. rewrite E1, E2 in Hlt.
    rewrite bytes_ltb_app, bytes_ltb_u64 in Hlt by (done || by rewrite !u64_be_length).
    apply orb_true_iff in Hlt as [Hlt%Z.ltb_lt|[He%bool_decide_eq_true_1 _]%andb_true_iff]; [lia|]. apply u64_be_inj in He; [lia|done..].
  - intros i u. rewrite list_elem_of_In, filter_In, <- list_elem_of_In, sorted_rows_elem. cbn [fst].
    split; intros [Hi Hle]; (split; [done|]); pose proof (index_key_ok _ _ Hi) as [Hu Hk]; destruct (index_raw_key _ Hk) as [raw E]; rewrite E in *; unfold bytes_leb in *;
      rewrite <- (app_nil_r (u64_be least)), bytes_ltb_app, bytes_ltb_nil_r, andb_false_r, orb_false_r, bytes_ltb_u64 in * by (done || by rewrite !u64_be_length);
      [apply negb_true_iff, Z.ltb_ge in Hle; lia|apply negb_true_iff, Z.ltb_ge; lia].
Qed.

(** What is read from storage: the stale nodes of some first versions from [least] on,
    all of them up to the target or at least [max_versions] versions of them. *)
Record read_ok (least target : Z) (max_versions : nat) (l : list StaleNodeIndex) : Prop := {
  read_row i : i ∈ l -> stale_rows indices i /\ least <= stale_since_version i <= target;
  read_last i j : list.last l = Some i -> j ∈ l -> stale_since_version j <= stale_since_version i;
  read_all i j : list.last l = Some i -> stale_rows indices j -> least <= stale_since_version j <= stale_since_version i -> j ∈ l;
  read_progress : (forall i, stale_rows indices i -> least <= stale_since_version i <= target -> i ∈ l) \/ max_versions = 0%nat \/
    exists i, list.last l = Some i /\ least + Z.of_nat max_versions - 1 <= stale_since_version i
}.

Lemma stale_indices_sound least target max_versions l : is_u64 least -> stale_indices (mkDB db) least target max_versions = Ok l ->
  forall i, i ∈ l -> stale_rows indices i /\ least <= stale_since_version i <= target.
Proof.
  intros Hl Hs i Hi. destruct (stale_from least Hl) as [_ Hin].
  destruct (seek_yields StaleNodeIndexSchema db indices (stale_seek_key least) (col_stale_node_index _ _ Htab)) as (it & E & Hy).
  unfold stale_indices, stale_iter_new in Hs. rewrite E in Hs. cbn [mbind result_bind] in Hs.
  destruct (collect_indices _ _) as [groups| |] eqn:Ec; cbn [mbind result_bind] in Hs; [|done..]. injection Hs as <-.
  destruct (collect_indices_sound (fun i => stale_rows indices i /\ least <= stale_since_version i) max_versions
    (mkStaleIter (mkPeekableIter None (seek it (stale_seek_key least))) target) _ groups Hy) with (i := i) as [[Hr Hle] Ht]; [|done|done|].
  - intros [j u] [Hj Hle]%Hin. split; [by eexists|done].
  - cbn in Ht. done.
Qed.

Context (Hsize : Z.of_nat (size indices) < 2 ^ 64).

Lemma stale_indices_ok least target max_versions : is_u64 least -> exists l,
  stale_indices (mkDB db) least target max_versions = Ok l /\ read_ok least target max_versions l.
Proof.
  intros Hl. destruct (stale_from least Hl) as [Hs Hin].
  destruct (seek_yields StaleNodeIndexSchema db indices (stale_seek_key least) (col_stale_node_index _ _ Htab)) as (it & E & Hy).
  unfold stale_indices, stale_iter_new. rewrite E. cbn [mbind result_bind]. set (R := rows_from _ _ _) in *.
  assert (Hlen : Z.of_nat (length R) < 2 ^ 64).
  { pose proof (List.filter_length_le (fun row => bytes_leb (stale_seek_key least) (raw_key StaleNodeIndexSchema row.1)) (sorted_rows StaleNodeIndexSchema indices)) as Hle.
    unfold sorted_rows in Hle. rewrite (Permutation_length (sorting.merge_sort_Permutation _ _)), length_map_to_list in Hle. unfold R, rows_from, sorted_rows. lia. }
  destruct (collect_indices_ok max_versions (mkStaleIter (mkPeekableIter None (seek it (stale_seek_key least))) target) R least Hy Hs Hlen)
    as (groups & pre & post & Ec & Ecc & ER & Hpre & Hpp & Hcase); [by intros [i u] [_ Hi]%Hin|]. cbn [sit_target_least_readable_version] in *.
  rewrite Ec. cbn [mbind result_bind]. eexists. split; [done|]. rewrite Ecc.
  assert (Hmem : forall i, i ∈ pre.*1 <-> (i, tt) ∈ pre).
  { intros i. rewrite list_elem_of_fmap. split; [by intros ([j []] & -> & Hj)|intros Hi; by exists (i, tt)]. }
  assert (Hrow : forall i, (i, tt) ∈ pre ++ post <-> stale_rows indices i /\ least <= stale_since_version i).
  { intros i. rewrite <- ER, Hin. unfold stale_rows. split; intros [Hi Hle]; (split; [|done]); [by eexists|by destruct Hi as [[] Hi]]. }
  assert (Hlast : forall i, list.last pre.*1 = Some i -> (i, tt) ∈ pre) by (intros i Hi%last_Some_elem_of; by apply Hmem).
  assert (Hleft : forall j, stale_rows indices j -> least <= stale_since_version j -> (j, tt) ∈ pre \/ (j, tt) ∈ post).
  { intros j Hj Hle. by apply elem_of_app, Hrow. }
  split.
  - intros i Hi%Hmem. assert (Hi' : (i, tt) ∈ pre ++ post) by (apply elem_of_app; by left). apply Hrow in Hi' as [Hr Hle]. split; [done|].
    specialize (Hpre _ Hi). cbn in Hpre. lia.
  - intros i j Hi Hj%Hmem. rewrite ER in Hs. apply sorting.StronglySorted_app in Hs as (_ & Hsp & _).
    rewrite fmap_last in Hi. apply fmap_Some in Hi as (r & Hr & ->). rewrite last_lookup in Hr. apply list_elem_of_lookup in Hj as [a Ha].
    pose proof (lookup_lt_Some _ _ _ Ha). destruct (decide (a = pred (length pre))) as [->|]; [rewrite Hr in Ha; by injection Ha as ->|].
    apply (strongly_sorted_lookup_1 _ _ Hsp a (pred (length pre)) _ _ ltac:(lia) Ha Hr).
  - intros i j Hi Hj Hb. apply Hmem. destruct (Hleft j Hj ltac:(lia)) as [|Hpost]; [done|]. specialize (Hpp _ _ (Hlast i Hi) Hpost). cbn in Hpp. lia.
  - destruct Hcase as [Hc|[Hc|(r & Hr & Hle)]]; [left|by right; left|right; right].
    + intros i Hi Hb. apply Hmem. destruct (Hleft i Hi ltac:(lia)) as [|Hpost]; [done|]. specialize (Hc _ Hpost). cbn in Hc. lia.
    + exists r.1. by rewrite fmap_last, Hr.
Qed.
End Stale.

(** ** Deleting them *)

(** Nodes that are stale since the least readable version, or before, are not missed, with
    rows of a batch on top or without. *)
Lemma state_rows_prune new nodes indices es0 least hist l : state_rows (new ∪ nodes) indices es0 least hist ->
  (forall i, i ∈ l -> stale_rows indices i /\ stale_since_version i <= least) ->
  state_rows (new ∪ without (map sni_node_key l) nodes) indices es0 least hist.
Proof.
  intros [Hg Hs Hn Ht] Hl. split; [|done|done|].
  - intros ->. assert (l = []) as ->; [|by apply Hg]. destruct l as [|i l]; [done|]. destruct (Hl i) as [Hi _]; [by left|].
    destruct (Hs i Hi) as [Hb _]. cbn in Hb. lia.
  - intros w es Hw H0w Hes. eapply version_tree_impl; [by apply Ht| |by left].
    intros q v node Hq [_ Hlive] Hget. unfold reader_get_node in *. cbn [reader_get_node_option table_reader] in *.
    destruct (new !! node_key_of v q) eqn:En; [rewrite (lookup_union_Some_l _ _ _ _ En) in Hget; by rewrite (lookup_union_Some_l _ _ _ _ En)|].
    rewrite lookup_union_r in Hget by done. rewrite lookup_union_r, without_lookup by done.
    case_bool_decide as Hk; [exfalso|done]. apply list_elem_of_fmap in Hk as ([s k] & Ek & Hi). cbn in Ek. subst k. destruct (Hl _ Hi) as [Hr Hle].
    specialize (Hlive s Hr). cbn in Hle. lia.
Qed.

Lemma state_rows_mono nodes indices es0 least least' hist : state_rows nodes indices es0 least hist -> least <= least' -> state_rows nodes indices es0 least' hist.
Proof. intros [Hg Hs Hn Ht] Hle. split; [done..|]. intros w es Hw. apply Ht. lia. Qed.

(** Index rows may go. *)
Lemma state_rows_unindex nodes indices indices' es0 least hist : state_rows nodes indices es0 least hist -> indices' ⊆ indices ->
  state_rows nodes indices' es0 least hist.
Proof.
  intros [Hg Hs Hn Ht] Hsub. assert (Hr : forall i, stale_rows indices' i -> stale_rows indices i).
  { intros i [u Hi]. exists u. by eapply lookup_weaken. }
  split; [|by intros i Hi%Hr; apply Hs|done|].
  - intros ->. assert (indices = ∅) as ->.
    { apply map_empty. intros i. destruct (indices !! i) eqn:Ei; [|done]. destruct (Hs i) as [Hb _]; [by eexists|]. cbn in Hb. lia. }
    assert (indices' = ∅) as -> by (apply (anti_symm (⊆)); [done|apply map_empty_subseteq]). by apply Hg.
  - intros w es Hw H0w Hes. eapply version_tree_impl; [by apply Ht|done|]. intros i Hi. left. by apply Hr.
Qed.

Definition with_db (self : LibraDB (rocks:=rocks)) (db : DB rocks) : LibraDB := mkLibraDB db (ldb_latest_ledger_info self) (ldb_pruner self).
Definition new_least (least : Z) (l : list StaleNodeIndex) : Z := from_option stale_since_version least (list.last l).

Lemma db_ok_mono self es0 least least' E lis : db_ok self es0 least E lis -> least <= least' -> (least' <= 0 \/ least' < Z.of_nat (length E)) ->
  db_ok self es0 least' E lis.
Proof.
  intros [(T & Htab & []) Hlat Hent Hbase Hcom Hleast] Hle Hb. split; try done. exists T. split; [done|]. split; try done. by eapply state_rows_mono.
Qed.

Lemma delete_stale_nodes_tables (db : DB rocks) T least l db' least' : tables (inner db) T -> (forall i, i ∈ l -> stale_rows (t_stale_node_index T) i) ->
  delete_stale_nodes db least l = Ok (db', least') ->
  least' = new_least least l /\ tables (inner db') (on_jellyfish_merkle_node (without (map sni_node_key l)) T).
Proof.
  intros Htab Hl. unfold delete_stale_nodes, new_least. destruct (list.last l) as [i|] eqn:El.
  - destruct (delete_nodes_tables sni_node_key _ T l Htab) as (b & -> & _ & Hb).
    { apply list.Forall_forall. intros j Hj. destruct (Hl j Hj) as [u Hu]. by apply (index_key_ok _ T Htab) in Hu as [_ ?]. }
    cbn [mbind result_bind]. destruct (write_schemas db b) as [db1| |] eqn:Ew; cbn [mbind result_bind]; [|done..].
    intros [= <- <-]. split; [done|]. apply Hb. destruct db, db1. exact Ew.
  - intros [= <- <-]. split; [done|]. apply last_None in El as ->. by destruct T.
Qed.

Lemma delete_stale_nodes_ok self es0 m E lis T least l : db_ok self es0 m E lis -> tables (inner (ldb_db self)) T ->
  (forall i, i ∈ l -> stale_rows (t_stale_node_index T) i /\ stale_since_version i <= m) ->
  match delete_stale_nodes (ldb_db self) least l with
  | Ok (db, least') => least' = new_least least l /\ db_ok (with_db self db) es0 m E lis /\
      forall T', tables (inner db) T' -> t_stale_node_index T' = t_stale_node_index T
  | _ => True
  end.
Proof.
  intros Hok HtabT Hl. destruct (delete_stale_nodes _ _ _) as [[db least']| |] eqn:Ed; [|done..].
  destruct (delete_stale_nodes_tables _ T _ _ _ _ HtabT (fun i Hi => proj1 (Hl i Hi)) Ed) as [-> Ht'].
  split; [done|]. split; [|intros T' HT'; by rewrite (tables_unique _ _ _ HT' Ht')].
  destruct Hok as [(T0 & Htab & HT) Hlat Hent Hbase Hcom Hleast]. rewrite (tables_unique _ _ _ Htab HtabT) in HT.
  split; try done. eexists. split; [exact Ht'|]. destruct HT as [? ? ? Hst ? ?]. split; try done.
  cbn. rewrite <- (left_id_L ∅ (∪) (without _ _)). apply state_rows_prune; [by rewrite (left_id_L ∅ (∪))|done].
Qed.

(** The roots that are marked stale by the versions from [from] to [last]. *)
Definition stale_roots (T : Tables) (from last : Z) : Prop := forall w, from <= w < last -> 0 < w ->
  stale_rows (t_stale_node_index T) (mkStaleNodeIndex w (node_key_of (w - 1) [])).

Lemma outside_later T db (b bound : Z) i : tables db T -> is_u64 bound -> stale_rows (t_stale_node_index T) i -> bound <= stale_since_version i ->
  stale_rows (outside StaleNodeIndexSchema (stale_seek_key b) (stale_seek_key bound) (t_stale_node_index T)) i.
Proof.
  intros Htab Hb [u Hi] Hle. exists u. apply map_lookup_filter_Some. split; [done|]. cbn [fst]. apply andb_false_iff. right.
  pose proof (index_key_ok db T Htab _ _ Hi) as [Hu Hk]. destruct (index_raw_key _ Hk) as [raw E]. rewrite E. unfold stale_seek_key.
  rewrite <- (app_nil_r (u64_be bound)), bytes_ltb_app, bytes_ltb_nil_r, andb_false_r, orb_false_r, bytes_ltb_u64 by (done || by rewrite !u64_be_length).
  by apply Z.ltb_ge.
Qed.

(** Purging the index keeps the rows of the versions to come. *)
Lemma maybe_purge_index_ok self es0 m E lis T worker now : db_ok self es0 m E lis -> tables (inner (ldb_db self)) T ->
  0 <= least_readable_version worker < u64_max ->
  match maybe_purge_index worker (ldb_db self) now with
  | Ok (worker', db) => db_ok (with_db self db) es0 m E lis /\ target_least_readable_version worker' = target_least_readable_version worker /\
      least_readable_version worker' = least_readable_version worker /\ blocking_recv worker' = blocking_recv worker /\
      (forall T', tables (inner db) T' -> t_stale_node_index T' ⊆ t_stale_node_index T /\
        forall i, stale_rows (t_stale_node_index T) i ->
          index_min_nonpurged_version worker' <= stale_since_version i \/ least_readable_version worker < stale_since_version i ->
          stale_rows (t_stale_node_index T') i) /\
      (index_min_nonpurged_version worker' = index_min_nonpurged_version worker \/ index_min_nonpurged_version worker' = least_readable_version worker + 1)
  | _ => True
  end.
Proof.
  intros Hok Htab Hl. destruct worker as [target least blocking minv at_]. cbn in Hl. unfold maybe_purge_index. cbn [index_purged_at least_readable_version index_min_nonpurged_version].
  assert (Hsame : db_ok (with_db self (ldb_db self)) es0 m E lis) by (destruct Hok; by split).
  assert (Hrows : forall T', tables (inner (ldb_db self)) T' -> t_stale_node_index T' ⊆ t_stale_node_index T /\
    forall i, stale_rows (t_stale_node_index T) i -> minv <= stale_since_version i \/ least < stale_since_version i -> stale_rows (t_stale_node_index T') i).
  { intros T' HT'. by rewrite (tables_unique _ _ _ HT' Htab). }
  destruct (MIN_INTERVAL <? now - at_); [|by repeat (split; [done|]); auto]. destruct (MIN_VERSIONS <? _); [|by repeat (split; [done|]); auto].
  rewrite u64_add_small by (unfold u64_max in Hl; lia).
  destruct (range_delete StaleNodeIndexSchema (ldb_db self) _ _) as [db| |] eqn:Ed; cbn [mbind result_bind]; [|done..].
  assert (Ht' : tables (inner db) (on_stale_node_index (outside StaleNodeIndexSchema (stale_seek_key minv) (stale_seek_key (least + 1))) T)).
  { eapply range_delete_tables; [exact Htab|]. destruct (ldb_db self), db. exact Ed. }
  cbn. split; [|repeat (split; [done|]); split; [|by right]].
  - destruct Hok as [(T0 & Htab0 & HT) Hlat Hent Hbase Hcom Hleast]. rewrite (tables_unique _ _ _ Htab0 Htab) in HT. split; try done.
    eexists. split; [exact Ht'|]. destruct HT. split; try done. eapply state_rows_unindex; [done|]. apply map_filter_subseteq.
  - intros T' HT'. rewrite (tables_unique _ _ _ HT' Ht'). split; [apply map_filter_subseteq|]. intros i Hi Hb.
    eapply (outside_later T); [exact Htab|unfold is_u64, u64_max in *; lia|done|lia].
Qed.

Lemma maybe_purge_index_tables worker (db : DB rocks) T now worker' db' : tables (inner db) T -> maybe_purge_index worker db now = Ok (worker', db') ->
  tables (inner db') T \/ tables (inner db') (on_stale_node_index (outside StaleNodeIndexSchema (stale_seek_key (index_min_nonpurged_version worker))
    (stale_seek_key (u64_add (least_readable_version worker) 1))) T).
Proof.
  intros Htab. unfold maybe_purge_index. destruct (_ <? _); [|intros [= <- <-]; by left]. destruct (_ <? _); [|intros [= <- <-]; by left].
  destruct (range_delete _ _ _ _) as [db1| |] eqn:Ed; cbn [mbind result_bind]; [|done..]. intros [= <- <-]. right.
  eapply range_delete_tables; [exact Htab|]. destruct db, db1. exact Ed.
Qed.

(** ** The threads

    The pruner's worker and the thread that saves transactions share the database.  The
    worker's loop is cut where it reads from or writes to shared state: the channel, the
    iterator over the index (a snapshot), the batch of deletions and the purge.
    [save_transactions] is cut between the preparation of the batch, which reads the
    database, its write, and the message to the pruner. *)

Inductive Phase := Receiving | Reading | Deleting (l : list StaleNodeIndex) | Purging | Stopped.

Record System := mkSystem {
  sys_db : LibraDB (rocks:=rocks);
  sys_worker : Worker;
  sys_phase : Phase
}.

Definition with_channel (self : LibraDB (rocks:=rocks)) (c : list Command) : LibraDB :=
  mkLibraDB (ldb_db self) (ldb_latest_ledger_info self) ((fun p => mkPruner (historical_versions_to_keep p) c) <$> ldb_pruner self).

(** One step of the worker. *)
Inductive worker_step : System -> System -> Prop :=
| step_wait self worker p worker' : ldb_pruner self = Some p -> receive_commands worker (channel p) = (worker', None) ->
    worker_step (mkSystem self worker Receiving) (mkSystem (with_channel self []) worker' Receiving)
| step_receive self worker p worker' c go_on : ldb_pruner self = Some p -> receive_commands worker (channel p) = (worker', Some (c, go_on)) ->
    worker_step (mkSystem self worker Receiving) (mkSystem (with_channel self c) worker' (if go_on then Reading else Stopped))
| step_read self worker l :
    stale_indices (ldb_db self) (least_readable_version worker) (target_least_readable_version worker) MAX_VERSIONS_TO_PRUNE_PER_BATCH = Ok l ->
    worker_step (mkSystem self worker Reading) (mkSystem self worker (Deleting l))
| step_read_error self worker e :
    stale_indices (ldb_db self) (least_readable_version worker) (target_least_readable_version worker) MAX_VERSIONS_TO_PRUNE_PER_BATCH = Err e ->
    worker_step (mkSystem self worker Reading) (mkSystem self (stop_retrying worker) Receiving)
| step_delete self worker l db least : delete_stale_nodes (ldb_db self) (least_readable_version worker) l = Ok (db, least) ->
    worker_step (mkSystem self worker (Deleting l)) (mkSystem (with_db self db) (store_progress worker least) Purging)
| step_delete_error self worker l e : delete_stale_nodes (ldb_db self) (least_readable_version worker) l = Err e ->
    worker_step (mkSystem self worker (Deleting l)) (mkSystem self (stop_retrying worker) Receiving)
| step_purge self worker now worker' db : maybe_purge_index worker (ldb_db self) now = Ok (worker', db) ->
    worker_step (mkSystem self worker Purging) (mkSystem (with_db self db) worker' Receiving)
| step_purge_error self worker now e : maybe_purge_index worker (ldb_db self) now = Err e ->
    worker_step (mkSystem self worker Purging) (mkSystem self worker Receiving).

(** Without a commit in between, the steps of a round are those of [work]. *)
Lemma work_steps self worker now worker' db : work worker (ldb_db self) now = Ok (worker', db) ->
  exists self', ldb_db self' = db /\ ldb_pruner self' = ldb_pruner self /\ rtc worker_step (mkSystem self worker Reading) (mkSystem self' worker' Receiving).
Proof.
  unfold work, prune_state. intros Hw.
  destruct (stale_indices _ _ _ _) as [l|e|] eqn:El; cbn [mbind result_bind] in Hw; [|injection Hw as <- <-|done].
  - destruct (delete_stale_nodes _ _ l) as [[db1 least]|e|] eqn:Ed; [|injection Hw as <- <-|done].
    + destruct (maybe_purge_index _ db1 now) as [[w2 db2]|e|] eqn:Ep; [| |done]; injection Hw as <- <-.
      * exists (with_db (with_db self db1) db2). split; [done|]. split; [done|]. eapply rtc_l; [by apply step_read|]. eapply rtc_l; [by eapply step_delete|].
        eapply rtc_l; [|apply rtc_refl]. by eapply (step_purge (with_db self db1)).
      * exists (with_db self db1). split; [done|]. split; [done|]. eapply rtc_l; [by apply step_read|]. eapply rtc_l; [by eapply step_delete|].
        eapply rtc_l; [|apply rtc_refl]. by eapply (step_purge_error (with_db self db1)).
    + exists self. split; [done|]. split; [done|]. eapply rtc_l; [by apply step_read|]. eapply rtc_l; [by eapply step_delete_error|apply rtc_refl].
  - exists self. split; [done|]. split; [done|]. eapply rtc_l; [by eapply step_read_error|apply rtc_refl].
Qed.

(** The system with the ledger that it holds. *)
Record Ledger := mkLedger { lg_entries : list LedgerEntry; lg_infos : list LedgerInfoWithSignatures }.

(** How far [save_transactions] is: a batch that waits to be written, or one that is written
    and of which the pruner is to be told. *)
Inductive Saving := Idle | Prepared (sealed_cs : SealedChangeSet) (txns_to_commit : list TransactionToCommit) (li : option LedgerInfoWithSignatures) | Written (latest_version : Z).

Definition saved_entries (es0 : entries) (E : list LedgerEntry) (txns : list TransactionToCommit) : list LedgerEntry :=
  commit_entries (current es0 (map le_accounts E)) txns.
Definition after_write (E : list LedgerEntry) (txns : list TransactionToCommit) : Saving :=
  if 0 <? Z.of_nat (length txns) then Written (u64_sub (u64_add (Z.of_nat (length E)) (Z.of_nat (length txns))) 1) else Idle.

(** What may be saved on top of a ledger. *)
Record may_save (es0 : entries) (L : Ledger) (txns : list TransactionToCommit) (li : option LedgerInfoWithSignatures) : Prop := {
  save_txns : Forall txn_ok txns;
  save_follows : batch_follows (lg_entries L) (saved_entries es0 (lg_entries L) txns);
  save_li x : li = Some x -> li_ok (lg_infos L) x;
  save_some : 0 < Z.of_nat (length (lg_entries L ++ saved_entries es0 (lg_entries L) txns))
}.

Inductive sys_step (es0 : entries) : System * Saving * Ledger -> System * Saving * Ledger -> Prop :=
| sys_work st st' saving L : worker_step st st' -> sys_step es0 (st, saving, L) (st', saving, L)
| sys_prepare st L txns li sealed : may_save es0 L txns li ->
    prepare_transactions (sys_db st) txns (Z.of_nat (length (lg_entries L))) li = Ok sealed ->
    sys_step es0 (st, Idle, L) (st, Prepared sealed txns li, L)
| sys_write self worker phase sealed txns li E lis self' : write_transactions self sealed li = Ok self' ->
    sys_step es0 (mkSystem self worker phase, Prepared sealed txns li, mkLedger E lis)
      (mkSystem self' worker phase, after_write E txns, mkLedger (E ++ saved_entries es0 E txns) (lis_after lis li))
| sys_write_error st sealed txns li L e : write_transactions (sys_db st) sealed li = Err e ->
    sys_step es0 (st, Prepared sealed txns li, L) (st, Idle, L)
| sys_wake self worker phase v L : sys_step es0 (mkSystem self worker phase, Written v, L) (mkSystem (wake_pruner self v) worker phase, Idle, L).

(** Without an access of the worker in between, the steps are those of [save_transactions]. *)
Lemma save_steps es0 self worker phase E lis txns li self' : may_save es0 (mkLedger E lis) txns li ->
  save_transactions self txns (Z.of_nat (length E)) li = Ok self' ->
  rtc (sys_step es0) (mkSystem self worker phase, Idle, mkLedger E lis)
    (mkSystem self' worker phase, Idle, mkLedger (E ++ saved_entries es0 E txns) (lis_after lis li)).
Proof.
  unfold save_transactions. intros Hm Hs. destruct (prepare_transactions _ _ _ _) as [sealed| |] eqn:Ep; cbn [mbind result_bind] in Hs; [|done..].
  destruct (write_transactions _ _ _) as [self1| |] eqn:Ew; cbn [mbind result_bind] in Hs; [|done..]. injection Hs as <-.
  eapply rtc_l; [by eapply sys_prepare|]. eapply rtc_l; [by apply sys_write|]. unfold after_write.
  destruct (0 <? _); [|apply rtc_refl]. eapply rtc_l; [apply sys_wake|apply rtc_refl].
Qed.

Section Safety.
Context (es0 : entries) (keep m0 r0 : Z) (Hkeep : 0 <= keep) (Henc : counters_encodable).

(** The first version to keep: all but the last [keep] + 1 may be pruned. *)
Definition keep_from (E : list LedgerEntry) : Z := Z.max 0 (Z.of_nat (length E) - 1 - keep).

Definition command_ok (E : list LedgerEntry) (c : Command) : Prop :=
  match c with Prune v => 0 <= v <= Z.of_nat (length E) - 1 - keep | Quit => True end.

(** [m0] is the least readable version at the start, [r0] the first one whose stale root
    is in the index. *)
Record sys_ok (st : System) (L : Ledger) : Prop := {
  sys_pruner : exists p, ldb_pruner (sys_db st) = Some p /\ historical_versions_to_keep p = keep /\ Forall (command_ok (lg_entries L)) (channel p);
  sys_target : 0 <= target_least_readable_version (sys_worker st) <= keep_from (lg_entries L);
  sys_least : 0 <= least_readable_version (sys_worker st) <= target_least_readable_version (sys_worker st);
  sys_purged : 0 <= index_min_nonpurged_version (sys_worker st) <= least_readable_version (sys_worker st) + 1;
  sys_holds : db_ok (sys_db st) es0 (Z.max m0 (target_least_readable_version (sys_worker st))) (lg_entries L) (lg_infos L);
  sys_deleting l T : sys_phase st = Deleting l -> tables (inner (ldb_db (sys_db st))) T -> forall i, i ∈ l ->
    stale_rows (t_stale_node_index T) i /\ least_readable_version (sys_worker st) <= stale_since_version i <= target_least_readable_version (sys_worker st);
  sys_roots T : tables (inner (ldb_db (sys_db st))) T ->
    stale_roots T (Z.max r0 (index_min_nonpurged_version (sys_worker st))) (Z.of_nat (length (lg_entries L)))
}.

Lemma receive_commands_ok E c : forall worker worker' r, receive_commands worker c = (worker', r) -> Forall (command_ok E) c ->
  0 <= target_least_readable_version worker <= keep_from E ->
  target_least_readable_version worker <= target_least_readable_version worker' <= keep_from E /\
  least_readable_version worker' = least_readable_version worker /\ index_min_nonpurged_version worker' = index_min_nonpurged_version worker /\
  match r with Some (rest, _) => Forall (command_ok E) rest | None => True end.
Proof.
  induction c as [|[|v] c IH]; intros worker worker' r Hr Hc Ht; cbn [receive_commands] in Hr.
  - destruct (blocking_recv worker); injection Hr as <- <-; repeat split; (lia || constructor).
  - injection Hr as <- <-. apply list.Forall_cons in Hc as [_ Hc]. repeat split; (lia || done).
  - apply list.Forall_cons in Hc as [Hv Hc]. cbn in Hv. destruct (Z.ltb_spec (target_least_readable_version worker) v).
    + destruct (IH _ _ _ Hr Hc) as (Ht' & Hl & Hm & Hrest); [cbn; unfold keep_from; lia|]. cbn in Ht', Hl, Hm. split; [lia|]. done.
    + by apply (IH _ _ _ Hr Hc).
Qed.

Lemma raise_target self E lis t t' : db_ok self es0 (Z.max m0 t) E lis -> 0 <= t <= t' -> t' <= keep_from E -> db_ok self es0 (Z.max m0 t') E lis.
Proof.
  intros Hok Ht Hk. pose proof (ok_least _ _ _ _ _ Hok). eapply db_ok_mono; [exact Hok|lia|]. unfold keep_from in Hk. destruct E; cbn [length] in *; lia.
Qed.

Lemma with_channel_ok self least E lis c : db_ok self es0 least E lis -> db_ok (with_channel self c) es0 least E lis.
Proof. intros []. by split. Qed.

Lemma worker_step_ok st st' L : worker_step st st' -> sys_ok st L -> sys_ok st' L.
Proof.
  destruct L as [E lis]. intros Hstep [(p & Ep & Hk & Hc) Ht Hl Hp Hh Hd Hr]. cbn [lg_entries lg_infos] in *.
  destruct (ok_tables _ _ _ _ _ Hh) as (T & Htab & _). pose proof (ok_least _ _ _ _ _ Hh) as Hlb.
  assert (Hn : Z.of_nat (length E) < 2 ^ 63).
  { destruct (ok_tables _ _ _ _ _ Hh) as (T1 & _ & HT1). pose proof (rows_length _ _ _ (tables_infos _ _ _ _ _ HT1)) as Hl1. by rewrite length_map in Hl1. }
  destruct Hstep as [self worker p' worker' Ep' Er|self worker p' worker' c go_on Ep' Er|self worker l El|self worker e El|self worker l db least El|
    self worker l e El|self worker now worker' db El|self worker now e El]; cbn [sys_db sys_worker sys_phase] in *.
  - rewrite Ep in Ep'. injection Ep' as <-. destruct (receive_commands_ok E _ _ _ _ Er Hc Ht) as (Ht' & Hl' & Hm' & _).
    split; cbn; rewrite ?Hl', ?Hm'; try done; [|lia|lia|by apply with_channel_ok, (raise_target _ _ _ _ _ Hh); lia].
    rewrite Ep. eexists. split; [done|]. by repeat constructor.
  - rewrite Ep in Ep'. injection Ep' as <-. destruct (receive_commands_ok E _ _ _ _ Er Hc Ht) as (Ht' & Hl' & Hm' & Hrest).
    split; cbn; rewrite ?Hl', ?Hm'; try done; [|lia|lia|by apply with_channel_ok, (raise_target _ _ _ _ _ Hh); lia|by destruct go_on].
    rewrite Ep. eexists. split; [done|]. done.
  - split; cbn; try done; [by eexists|]. intros l' T' [= <-] HT'. unfold keep_from in Ht.
    apply (stale_indices_sound (inner (ldb_db self)) T' HT' _ _ MAX_VERSIONS_TO_PRUNE_PER_BATCH); [unfold is_u64; lia|by destruct (ldb_db self)].
  - split; cbn; try done. by eexists.
  - pose proof (Hd l T eq_refl Htab) as Hd'.
    pose proof (delete_stale_nodes_ok self es0 _ E lis T (least_readable_version worker) l Hh Htab) as Hdel. rewrite El in Hdel.
    destruct Hdel as (-> & Hok & Hidx); [intros i Hi; destruct (Hd' i Hi); split; [done|lia]|].
    assert (Hnl : least_readable_version worker <= new_least (least_readable_version worker) l <= target_least_readable_version worker).
    { unfold new_least. destruct (list.last l) as [i|] eqn:Ei; cbn; [|lia]. apply last_Some_elem_of in Ei. by destruct (Hd' i Ei). }
    split; cbn; try done; [by eexists|lia|lia|]. intros T' HT'. unfold stale_roots. rewrite (Hidx T' HT'). by apply Hr.
  - split; cbn; try done. by eexists.
  - pose proof (maybe_purge_index_ok self es0 _ E lis T worker now Hh Htab) as Hpur. rewrite El in Hpur.
    destruct Hpur as (Hok & Et & Els & _ & Hrows & Hmin); [unfold keep_from, u64_max in *; lia|].
    split; cbn; rewrite ?Et, ?Els; try done; [by eexists|lia|]. intros T' HT' w Hw Hpos. destruct (Hrows T' HT') as [_ Hkeep'].
    apply Hkeep'; [apply (Hr T Htab); lia|left; cbn; lia].
  - split; cbn; try done. by eexists.
Qed.

(** A prepared batch: with its rows on top, whatever the worker has deleted since, the tables
    are those of the ledger with the batch. *)
Record prepared_ok (st : System) (L : Ledger) (sealed : SealedChangeSet) (txns : list TransactionToCommit) (li : option LedgerInfoWithSignatures) : Prop := {
  prepared_may : may_save es0 L txns li;
  prepared_accepted : acceptable (lg_entries L ++ saved_entries es0 (lg_entries L) txns) txns li = true;
  prepared_rows : exists W, batch_tables (scs_batch sealed) W /\ forall T, tables (inner (ldb_db (sys_db st))) T ->
    ledger_tables (tables_union W T) es0 (Z.max m0 (target_least_readable_version (sys_worker st)))
      (lg_entries L ++ saved_entries es0 (lg_entries L) txns) (lis_after (lg_infos L) li) /\
    stale_grows T (tables_union W T) (Z.of_nat (length (lg_entries L))) (Z.of_nat (length (lg_entries L ++ saved_entries es0 (lg_entries L) txns)))
}.

Definition saving_ok (st : System) (saving : Saving) (L : Ledger) : Prop :=
  match saving with
  | Idle => True
  | Prepared sealed txns li => prepared_ok st L sealed txns li
  | Written v => v = Z.of_nat (length (lg_entries L)) - 1 /\ 0 <= v
  end.

(** What a step of the worker does to the tables: it deletes stale nodes up to the target,
    or old rows of the index. *)
Inductive deletes (from target : Z) (T : Tables) : Tables -> Prop :=
| deletes_nothing : deletes from target T T
| deletes_nodes l : (forall i, i ∈ l -> stale_rows (t_stale_node_index T) i /\ stale_since_version i <= target) ->
    deletes from target T (on_jellyfish_merkle_node (without (map sni_node_key l)) T)
| deletes_index f : (forall m, f m ⊆ m) -> (forall i, stale_rows (t_stale_node_index T) i -> from <= stale_since_version i -> stale_rows (f (t_stale_node_index T)) i) ->
    deletes from target T (on_stale_node_index f T).

Lemma worker_step_deletes st st' L T : worker_step st st' -> sys_ok st L -> tables (inner (ldb_db (sys_db st))) T -> exists T',
  tables (inner (ldb_db (sys_db st'))) T' /\ deletes (Z.max 1 (Z.of_nat (length (lg_entries L)))) (target_least_readable_version (sys_worker st)) T T' /\
  target_least_readable_version (sys_worker st) <= target_least_readable_version (sys_worker st').
Proof.
  intros Hstep [(p & Ep & Hk & Hc) Ht Hl Hp Hh Hd Hr] Htab.
  assert (Hn : Z.of_nat (length (lg_entries L)) < 2 ^ 63).
  { destruct (ok_tables _ _ _ _ _ Hh) as (T1 & _ & HT1). pose proof (rows_length _ _ _ (tables_infos _ _ _ _ _ HT1)) as Hl1. by rewrite length_map in Hl1. }
  destruct Hstep as [self worker p' worker' Ep' Er|self worker p' worker' c go_on Ep' Er|self worker l El|self worker e El|self worker l db least El|
    self worker l e El|self worker now worker' db El|self worker now e El]; cbn [sys_db sys_worker sys_phase] in *.
  1,2: rewrite Ep in Ep'; injection Ep' as <-; destruct (receive_commands_ok _ _ _ _ _ Er Hc Ht) as (Ht' & _);
    exists T; (split; [exact Htab|]); split; [constructor|lia].
  1,2,4,6: exists T; split; [exact Htab|]; split; [constructor|cbn; lia].
  - specialize (Hd l T eq_refl Htab). destruct (delete_stale_nodes_tables _ T _ _ _ _ Htab (fun i Hi => proj1 (Hd i Hi)) El) as [_ Ht'].
    eexists. split; [exact Ht'|]. split; [|cbn; lia]. apply deletes_nodes. intros i Hi. destruct (Hd i Hi). split; [done|lia].
  - pose proof (maybe_purge_index_ok self es0 _ _ _ T worker now Hh Htab) as Hpur. rewrite El in Hpur.
    destruct Hpur as (_ & Et & _); [unfold keep_from, u64_max in *; lia|]. rewrite Et.
    destruct (maybe_purge_index_tables _ _ T _ _ _ Htab El) as [Ht'|Ht']; [exists T; split; [exact Ht'|]; split; [constructor|lia]|].
    eexists. split; [exact Ht'|]. split; [|lia]. apply deletes_index; [intros m; apply map_filter_subseteq|]. intros i Hi Hge.
    unfold keep_from in Ht. eapply (outside_later T); [exact Htab|rewrite u64_add_small; unfold is_u64; lia|done|rewrite u64_add_small; lia].
Qed.

(** The deletions do not touch what a prepared batch builds on. *)
Lemma deletes_prepared W T T' from target least E lis n n' : deletes from target T T' -> target <= least ->
  ledger_tables (tables_union W T) es0 least E lis -> stale_grows T (tables_union W T) n n' -> from <= Z.max 1 n ->
  ledger_tables (tables_union W T') es0 least E lis /\ stale_grows T' (tables_union W T') n n'.
Proof.
  intros Hdel Hle [Ti Tt Te Ts Tp Tc] [Hg1 Hg2] Hfrom.
  assert (Hu : forall (m m' : gmap StaleNodeIndex unit) i, stale_rows (m ∪ m') i <-> stale_rows m i \/ stale_rows m' i).
  { intros m m' i. unfold stale_rows. rewrite lookup_union_is_Some. done. }
  destruct Hdel as [|l Hl|f Hf Hrest].
  - split; by split.
  - split; [split; try done|by split]. cbn. apply state_rows_prune; [done|]. intros i Hi. destruct (Hl i Hi). split; [by apply Hg1|lia].
  - split; [split; try done|split; cbn].
    + cbn. eapply state_rows_unindex; [exact Ts|]. by apply map_union_mono_l.
    + intros i Hi. apply Hu. by right.
    + intros w Hw Hpos. apply Hu. specialize (Hg2 w Hw Hpos). cbn in Hg2. apply Hu in Hg2 as [?|Hi]; [by left|right]. apply Hrest; [done|cbn; lia].
Qed.

Lemma ledger_tables_mono T least least' E lis : ledger_tables T es0 least E lis -> least <= least' -> ledger_tables T es0 least' E lis.
Proof. intros [] Hle. split; try done. by eapply state_rows_mono. Qed.

Lemma worker_step_saving st st' saving L : worker_step st st' -> sys_ok st L -> saving_ok st saving L -> saving_ok st' saving L.
Proof.
  intros Hstep Hok. destruct saving as [|sealed txns li|v]; cbn; [done| |done]. intros [Hm Ha (W & Hb & HW)].
  destruct (ok_tables _ _ _ _ _ (sys_holds _ _ Hok)) as (T & Htab & _).
  destruct (worker_step_deletes _ _ _ _ Hstep Hok Htab) as (T' & Htab' & Hdel & Hle). split; [done..|]. exists W. split; [done|]. intros T1 HT1.
  rewrite (tables_unique _ _ _ HT1 Htab'). destruct (HW T Htab) as [HT Hg].
  edestruct (deletes_prepared W T T') as [HT' Hg']; [exact Hdel| |exact HT|exact Hg| |]; [lia|lia|]. split; [|done].
  eapply ledger_tables_mono; [exact HT'|lia].
Qed.

(** A prepared batch is written. *)
Lemma sys_write_ok self worker phase sealed txns li E lis self' : write_transactions self sealed li = Ok self' ->
  sys_ok (mkSystem self worker phase) (mkLedger E lis) -> prepared_ok (mkSystem self worker phase) (mkLedger E lis) sealed txns li ->
  sys_ok (mkSystem self' worker phase) (mkLedger (E ++ saved_entries es0 E txns) (lis_after lis li)).
Proof.
  intros Hsave [(p & Ep & Hk & Hc) Ht Hl Hp Hh Hd Hr] [[_ Hnew _ Hpos] Hacc (W & Hb & HW)]. cbn [sys_db sys_worker sys_phase lg_entries lg_infos] in *.
  destruct (ok_tables _ _ _ _ _ Hh) as (T & Htab & _). destruct (HW T Htab) as [HT' [Hg1 Hg2]].
  pose proof (write_transactions_rows self es0 _ E lis txns li sealed W T Hh Htab Hb HT' Hacc Hpos) as Hs.
  destruct (write_schemas _ _) as [db|e|]; [|by rewrite Hs in Hsave..]. destruct Hs as (self2 & Es & Hdb & Hpr & Hok & Ht'). rewrite Hsave in Es. injection Es as <-.
  assert (Hlen : (length E <= length (E ++ saved_entries es0 E txns))%nat) by (rewrite length_app; lia).
  split; cbn; try done.
  - rewrite Hpr. exists p. split_and!; [done..|]. eapply list.Forall_impl; [exact Hc|]. intros [|v]; cbn; [done|lia].
  - unfold keep_from in *. lia.
  - intros l T' El HT2 i Hi. rewrite Hdb in HT2. rewrite (tables_unique _ _ _ HT2 Ht'). destruct (Hd l T El Htab i Hi) as [Hrow Hbd]. split; [by apply Hg1|done].
  - intros T' HT2 w Hw Hpos'. rewrite Hdb in HT2. rewrite (tables_unique _ _ _ HT2 Ht').
    destruct (decide (w < Z.of_nat (length E))); [apply Hg1, (Hr T Htab); lia|apply Hg2; lia].
Qed.

(** The pruner is told of the versions that are written. *)
Lemma sys_wake_ok self worker phase v L : v = Z.of_nat (length (lg_entries L)) - 1 ->
  sys_ok (mkSystem self worker phase) L -> sys_ok (mkSystem (wake_pruner self v) worker phase) L.
Proof.
  intros -> [(p & Ep & Hk & Hc) Ht Hl Hp Hh Hd Hr]. cbn [sys_db sys_worker sys_phase] in *. split; cbn; try done; [|by apply wake_pruner_ok].
  rewrite Ep. eexists. split; [done|]. unfold wake. rewrite Hk. destruct (Z.ltb_spec keep (Z.of_nat (length (lg_entries L)) - 1)); [|done].
  cbn. split; [done|]. apply Forall_app. split; [done|]. repeat constructor; cbn; lia.
Qed.

Definition config_ok (c : System * Saving * Ledger) : Prop := sys_ok c.1.1 c.2 /\ saving_ok c.1.1 c.1.2 c.2.

Lemma sys_step_ok c c' : sys_step es0 c c' -> config_ok c -> config_ok c'.
Proof.
  unfold config_ok. destruct 1 as [st st' saving L Hstep|st L txns li sealed Hm Hp|self worker phase sealed txns li E lis self' Hw|st sealed txns li L e Hw|self worker phase v L];
    cbn [fst snd]; intros [Hok Hsv].
  - split; [by eapply worker_step_ok|by eapply worker_step_saving].
  - split; [done|]. destruct L as [E lis]. cbn [lg_entries lg_infos] in *. pose proof (sys_holds _ _ Hok) as Hh. cbn [lg_entries lg_infos] in Hh.
    destruct (ok_tables _ _ _ _ _ Hh) as (T & Htab & HT). destruct Hm as [Htx Hnew Hli Hpos]. cbn [lg_entries lg_infos] in *.
    assert (Hlen : Z.of_nat (length (E ++ saved_entries es0 E txns)) = Z.of_nat (length E) + Z.of_nat (length txns))
      by (unfold saved_entries; rewrite length_app, commit_entries_length; lia).
    pose proof (prepare_transactions_rows (sys_db st) es0 _ E lis T Htab HT (ok_least _ _ _ _ _ Hh) txns Htx Hnew ltac:(lia) li Hli Henc) as Hr.
    fold (saved_entries es0 E txns) in Hr. destruct (acceptable _ _ _) eqn:Ea; [|destruct Hr as [e Hr]; by rewrite Hr in Hp].
    destruct Hr as (sealed' & W & Ep & Hb & HT' & Hg). rewrite Hp in Ep. injection Ep as <-. split; [by split|done|].
    exists W. split; [done|]. intros T1 HT1. rewrite (tables_unique _ _ _ HT1 Htab). cbn [lg_entries lg_infos]. by rewrite Hlen.
  - split; [by eapply sys_write_ok|]. unfold after_write. destruct (Z.ltb_spec 0 (Z.of_nat (length txns))); [|done]. cbn.
    destruct Hsv as [[_ Hnew _ _] _ _]. cbn [lg_entries] in Hnew. pose proof (follows_length _ _ Hnew) as Hl. unfold saved_entries in *.
    rewrite length_app, commit_entries_length in *. rewrite u64_add_small, u64_sub_small by lia. lia.
  - by split.
  - destruct Hsv as [Hv _]. split; [by apply sys_wake_ok|done].
Qed.

(** *** The versions to keep stay readable *)

Lemma reachable_ok c c' : rtc (sys_step es0) c c' -> config_ok c -> config_ok c'.
Proof. induction 1; [done|]. intros Hok. by apply IHrtc, (sys_step_ok _ _ H1). Qed.

Lemma sys_ok_readable st L : sys_ok st L -> db_ok (sys_db st) es0 (Z.max m0 (keep_from (lg_entries L))) (lg_entries L) (lg_infos L).
Proof. intros Hok. eapply raise_target; [apply Hok|apply Hok|done]. Qed.

(** A worker starts on a database. *)
Lemma sys_start self E lis p now : db_ok self es0 m0 E lis -> ldb_pruner self = Some p -> historical_versions_to_keep p = keep -> channel p = [] ->
  (forall T, tables (inner (ldb_db self)) T -> stale_roots T r0 (Z.of_nat (length E))) -> 0 <= r0 ->
  sys_ok (mkSystem self (worker_new now) Receiving) (mkLedger E lis).
Proof.
  intros Hok Ep Hk Hc Hr Hr0. split; cbn; try done; try (unfold keep_from; lia).
  - exists p. by rewrite Hc.
  - pose proof (ok_least _ _ _ _ _ Hok). eapply db_ok_mono; [exact Hok|lia|lia].
  - intros T HT. rewrite Z.max_l by lia. by apply Hr.
Qed.
End Safety.

(** ** Progress *)

Section Progress.
Context (Hwrite : forall (db : rocks) b, exists db', write_opt db b = Ok db').
Context (Hrange : forall (db : rocks) cf b e, exists db', delete_range_cf db cf b e = Ok db').

Lemma delete_stale_nodes_total self T least l : tables (inner (ldb_db self)) T -> (forall i, i ∈ l -> stale_rows (t_stale_node_index T) i) ->
  exists db, delete_stale_nodes (ldb_db self) least l = Ok (db, new_least least l).
Proof.
  intros Htab Hl. unfold delete_stale_nodes, new_least. destruct (list.last l) as [i|]; [|by eexists].
  destruct (delete_nodes_tables sni_node_key _ T l Htab) as (b & Eb & Ho & _).
  { apply list.Forall_forall. intros j Hj. destruct (Hl j Hj) as [u Hu]. by apply (index_key_ok _ T Htab) in Hu as [_ ?]. }
  rewrite Eb. cbn [mbind result_bind]. destruct (write_schemas_total _ _ Ho (Hwrite _ _)) as [db' Ew].
  exists (mkDB db'). destruct (ldb_db self) as [db]. cbn [inner] in Ew. by rewrite Ew.
Qed.

Lemma maybe_purge_index_total self T worker now : tables (inner (ldb_db self)) T -> exists r, maybe_purge_index worker (ldb_db self) now = Ok r.
Proof.
  intros Htab. unfold maybe_purge_index. destruct (_ <? _); [|by eexists]. destruct (_ <? _); [|by eexists].
  unfold range_delete, get_cf_handle. rewrite (column_open StaleNodeIndexSchema _ _ (col_stale_node_index _ _ Htab)). cbn [ensure mbind result_bind].
  edestruct Hrange as [db' E']. rewrite E'. cbn. by eexists.
Qed.

(** A worker that is behind its target, on a database that marks a node stale at the target. *)
Record behind (self : LibraDB (rocks:=rocks)) (es0 : entries) (m : Z) (E : list LedgerEntry) (lis : list LedgerInfoWithSignatures) (worker : Worker) : Prop := {
  behind_ok : db_ok self es0 m E lis;
  behind_least : 0 <= least_readable_version worker <= target_least_readable_version worker;
  behind_target : target_least_readable_version worker <= m /\ target_least_readable_version worker < u64_max;
  behind_size T : tables (inner (ldb_db self)) T -> Z.of_nat (size (t_stale_node_index T)) < 2 ^ 64;
  behind_row T : tables (inner (ldb_db self)) T -> least_readable_version worker = target_least_readable_version worker \/
    exists i, stale_rows (t_stale_node_index T) i /\ stale_since_version i = target_least_readable_version worker
}.

Lemma work_progress self es0 m E lis worker now : behind self es0 m E lis worker -> exists worker' db,
  work worker (ldb_db self) now = Ok (worker', db) /\ behind (with_db self db) es0 m E lis worker' /\
  target_least_readable_version worker' = target_least_readable_version worker /\
  Z.min (target_least_readable_version worker) (least_readable_version worker + 99) <= least_readable_version worker' /\
  blocking_recv worker' = (least_readable_version worker' =? target_least_readable_version worker).
Proof.
  intros [Hok Hl Ht Hsize Hrow]. destruct (ok_tables _ _ _ _ _ Hok) as (T & Htab & _). unfold work, prune_state.
  set (least := least_readable_version worker) in *. set (target := target_least_readable_version worker) in *.
  destruct (stale_indices_ok (inner (ldb_db self)) T Htab (Hsize T Htab) least target MAX_VERSIONS_TO_PRUNE_PER_BATCH) as (l & El & Hread);
    [unfold is_u64, u64_max in *; lia|].
  replace (mkDB (inner (ldb_db self))) with (ldb_db self) in El by (by destruct (ldb_db self)). rewrite El. cbn [mbind result_bind].
  destruct (delete_stale_nodes_total self T least l Htab) as [db Ed]; [intros i Hi; by apply (read_row _ _ _ _ _ Hread)|].
  pose proof (delete_stale_nodes_ok self es0 m E lis T least l Hok Htab) as Hdel. rewrite Ed in Hdel. rewrite Ed.
  destruct Hdel as (_ & Hok1 & Hidx); [intros i Hi; destruct (read_row _ _ _ _ _ Hread i Hi); split; [done|lia]|].
  assert (Hnl : least <= new_least least l <= target /\ Z.min target (least + 99) <= new_least least l).
  { unfold new_least. assert (Hin : forall i, list.last l = Some i -> least <= stale_since_version i <= target).
    { intros i Hi%last_Some_elem_of. by apply (read_row _ _ _ _ _ Hread). }
    destruct (read_progress _ _ _ _ _ Hread) as [Hall|[|(i & Hi & Hge)]]; [|done|].
    - destruct (list.last l) as [i|] eqn:Ei; cbn.
      + specialize (Hin i eq_refl). split; [lia|]. destruct (Hrow T Htab) as [|(j & Hj & Ej)]; [lia|].
        pose proof (read_last _ _ _ _ _ Hread i j Ei (Hall j Hj ltac:(lia))). lia.
      + apply last_None in Ei. subst l. destruct (Hrow T Htab) as [|(j & Hj & Ej)]; [lia|]. by specialize (Hall j Hj ltac:(lia)) as ?%elem_of_nil.
    - rewrite Hi. cbn. specialize (Hin i Hi). change (Z.of_nat MAX_VERSIONS_TO_PRUNE_PER_BATCH) with 100 in Hge. lia. }
  destruct (ok_tables _ _ _ _ _ Hok1) as (T1 & Htab1 & _).
  destruct (maybe_purge_index_total (with_db self db) T1 (store_progress worker (new_least least l)) now Htab1) as [[worker' db'] Ep].
  pose proof (maybe_purge_index_ok (with_db self db) es0 m E lis T1 (store_progress worker (new_least least l)) now Hok1 Htab1) as Hpur.
  rewrite Ep in Hpur. cbn [with_db ldb_db] in Ep. rewrite Ep. destruct Hpur as (Hok2 & Et & Els & Ebl & Hrows & _); [cbn; lia|].
  cbn [target_least_readable_version least_readable_version blocking_recv store_progress] in *. exists worker', db'. split; [done|].
  change (with_db (with_db self db) db') with (with_db self db') in Hok2.
  split; [|rewrite Et, Els, Ebl; split; [done|]; split; [lia|done]]. split; rewrite ?Et, ?Els; [done|lia|done| |].
  - intros T2 HT2. destruct (Hrows T2 HT2) as [Hsub _]. rewrite (Hidx T1 Htab1) in Hsub. pose proof (Hsize T Htab). apply map_subseteq_size in Hsub. lia.
  - intros T2 HT2. destruct (Hrow T Htab) as [Heq|(i & Hi & Ei)]; [left; lia|]. destruct (decide (new_least least l = target)) as [|Hne]; [by left|right].
    exists i. split; [|done]. destruct (Hrows T2 HT2) as [_ Hk]. apply Hk; [by rewrite (Hidx T1 Htab1)|right; lia].
Qed.

(** Rounds of the worker, with the time of each. *)
Fixpoint work_rounds (nows : list Z) (worker : Worker) (db : DB rocks) : result string (Worker * DB rocks) :=
  match nows with
  | [] => Ok (worker, db)
  | now :: nows => '(worker, db) ← work worker db now; work_rounds nows worker db
  end.

Lemma work_rounds_progress nows : forall self es0 m E lis worker, behind self es0 m E lis worker -> exists worker' db,
  work_rounds nows worker (ldb_db self) = Ok (worker', db) /\ behind (with_db self db) es0 m E lis worker' /\
  target_least_readable_version worker' = target_least_readable_version worker /\
  Z.min (target_least_readable_version worker) (least_readable_version worker + 99 * Z.of_nat (length nows)) <= least_readable_version worker' /\
  (nows <> [] -> blocking_recv worker' = (least_readable_version worker' =? target_least_readable_version worker)).
Proof.
  induction nows as [|now nows IH]; intros self es0 m E lis worker Hb; cbn [work_rounds length].
  - exists worker, (ldb_db self). split; [done|]. destruct Hb as [Hok ? ? ? ?]. split; [split; try done; destruct Hok; by split|]. split; [done|]. split; [lia|done].
  - destruct (work_progress self es0 m E lis worker now Hb) as (w1 & db1 & E1 & Hb1 & Et1 & Hl1 & Hbl1). rewrite E1. cbn [mbind result_bind].
    destruct (IH _ _ _ _ _ _ Hb1) as (w2 & db2 & E2 & Hb2 & Et2 & Hl2 & Hbl2). cbn [with_db ldb_db] in E2. exists w2, db2. split; [done|]. split; [done|].
    rewrite Et1 in *. split; [done|]. split; [lia|]. intros _. destruct nows as [|now' nows]; [|by apply Hbl2]. cbn in E2. injection E2 as <- <-. done.
Qed.
End Progress.

(** Nothing to read up to the target: the worker stays where it is and does not wait. *)
Lemma work_stalls (self : LibraDB (rocks:=rocks)) T worker now : tables (inner (ldb_db self)) T -> is_u64 (least_readable_version worker) ->
  least_readable_version worker < target_least_readable_version worker ->
  (forall i, stale_rows (t_stale_node_index T) i -> least_readable_version worker <= stale_since_version i -> target_least_readable_version worker < stale_since_version i) ->
  Z.of_nat (size (t_stale_node_index T)) < 2 ^ 64 -> (now - index_purged_at worker <= MIN_INTERVAL) ->
  work worker (ldb_db self) now = Ok (store_progress worker (least_readable_version worker), ldb_db self) /\
  blocking_recv (store_progress worker (least_readable_version worker)) = false.
Proof.
  intros Htab Hu Hlt Hnone Hsize Hnow. destruct (stale_indices_ok _ T Htab Hsize (least_readable_version worker) (target_least_readable_version worker)
    MAX_VERSIONS_TO_PRUNE_PER_BATCH Hu) as (l & El & Hread).
  assert (l = []) as ->. { destruct l as [|i l]; [done|]. destruct (read_row _ _ _ _ _ Hread i) as [Hi Hb]; [by left|]. specialize (Hnone i Hi). lia. }
  replace (mkDB (inner (ldb_db self))) with (ldb_db self) in El by (by destruct (ldb_db self)).
  unfold work, prune_state. rewrite El. cbn [mbind result_bind delete_stale_nodes list.last]. split; [|cbn; apply Z.eqb_neq; lia].
  unfold maybe_purge_index. cbn [index_purged_at store_progress]. destruct (Z.ltb_spec MIN_INTERVAL (now - index_purged_at worker)); [lia|done].
Qed.

(** ** The pruner's promises *)

(** C5: While transactions are saved, with the accesses of the pruner's worker to the
    database at any time between the preparation of a batch, its write and the message to
    the pruner, the last [keep] versions before the latest one, and all that
    were readable at the start and are not older, stay readable: the account states of
    each are those of the ledger. *)
Theorem pruner_safe es0 keep m0 r0 self worker E lis st saving E' lis' : 0 <= keep -> counters_encodable ->
  sys_ok es0 keep m0 r0 (mkSystem self worker Receiving) (mkLedger E lis) ->
  rtc (sys_step es0) (mkSystem self worker Receiving, Idle, mkLedger E lis) (st, saving, mkLedger E' lis') ->
  db_ok (sys_db st) es0 (Z.max m0 (keep_from keep E')) E' lis' /\
  forall w e address, Z.max m0 (keep_from keep E') <= w -> E' !! Z.to_nat w = Some e ->
    state_get_account_state_with_proof_by_version (state_store (sys_db st)) address w =
    Ok (lookup_entry (crypto_hash address) (le_accounts e),
      ref_sparse_proof SparseMerkleInternalNode_hash SPARSE_MERKLE_PLACEHOLDER_HASH (crypto_hash address) (le_accounts e)).
Proof.
  intros Hkeep Henc Hok Hr. destruct (reachable_ok es0 keep m0 r0 Hkeep Henc _ _ Hr (conj Hok I)) as [Hok' _]. cbn [fst snd] in Hok'.
  pose proof (sys_ok_readable es0 keep m0 r0 Hkeep _ _ Hok') as Hdb. cbn [lg_entries lg_infos] in Hdb. split; [exact Hdb|].
  intros w e address Hw He. destruct (ok_tables _ _ _ _ _ Hdb) as (T & Htab & HT). pose proof (rows_length _ _ _ (tables_infos _ _ _ _ _ HT)) as Hl.
  rewrite length_map in Hl. unfold state_store. replace (ldb_db (sys_db st)) with (mkDB (inner (ldb_db (sys_db st)))) by (by destruct (ldb_db (sys_db st))).
  apply (get_account_state_rows _ T Htab es0 _ (map le_accounts E') (tables_states _ _ _ _ _ HT));
    [rewrite length_map; unfold u64_max; lia|done|unfold keep_from in Hw; lia|by rewrite list_lookup_fmap, He].
Qed.

(** C31: A worker that has received its commands reaches its target, at least 99 versions a
    round, and then waits; it does so from every state of the system whose index still
    marks the roots up to the target, if the database does not fail. *)
Theorem pruner_catches_up (Hwrite : forall (db : rocks) b, exists db', write_opt db b = Ok db')
    (Hrange : forall (db : rocks) cf b e, exists db', delete_range_cf db cf b e = Ok db') es0 keep m0 r0 self worker E lis nows :
  sys_ok es0 keep m0 r0 (mkSystem self worker Reading) (mkLedger E lis) -> 0 <= keep -> r0 <= target_least_readable_version worker ->
  (forall T, tables (inner (ldb_db self)) T -> Z.of_nat (size (t_stale_node_index T)) < 2 ^ 64) ->
  target_least_readable_version worker - least_readable_version worker <= 99 * Z.of_nat (length nows) -> nows <> [] -> exists worker' db,
  work_rounds nows worker (ldb_db self) = Ok (worker', db) /\
  least_readable_version worker' = target_least_readable_version worker /\ blocking_recv worker' = true.
Proof.
  intros [_ Ht Hl Hp Hh _ Hr] Hkeep Hr0 Hsize Hlen Hne. cbn in *. destruct (ok_tables _ _ _ _ _ Hh) as (T & Htab & HT).
  pose proof (rows_length _ _ _ (tables_infos _ _ _ _ _ HT)) as Hn. rewrite length_map in Hn. unfold keep_from in Ht.
  destruct (work_rounds_progress Hwrite Hrange nows self es0 (Z.max m0 (target_least_readable_version worker)) E lis worker) as (w' & db & Ew & Hb & Et & Hle & Hbl).
  - split; [done|lia|unfold u64_max; lia|done|]. intros T' HT'. destruct (decide (least_readable_version worker = target_least_readable_version worker)); [by left|right].
    eexists. split; [apply (Hr T' HT' (target_least_readable_version worker)); lia|done].
  - exists w', db. split; [done|]. destruct (behind_least _ _ _ _ _ _ Hb) as [_ Hle']. rewrite Et in Hle'. assert (Heq : least_readable_version w' = target_least_readable_version worker) by lia.
    split; [done|]. rewrite Hbl, Heq by done. apply Z.eqb_refl.
Qed.

End PrunerProof.
