(* ===== verification/Scratchpad.v ===== *)
(** * The state of uncommitted transactions

    [storage/scratchpad/src/sparse_merkle]: an in-memory sparse Merkle tree of the accounts
    that uncommitted transactions have written, on top of the tree in storage.  A new tree
    shares its nodes with the tree it is made from; a commit replaces the nodes of a tree by
    their hashes in place, under the trees that share them.  The nodes, each behind an
    [Arc] and a lock, are therefore entries of a heap. *)

From S2P Require Import Prelude U64 Bytes Crypto Hash SparseMerkleProof LedgerProof.

(** [Arc<SparseMerkleNode>]. *)
Notation Loc := nat.

Section Scratchpad.
Context `{Crypto} `{B : !HashBytes, !LedgerHashers}.
Context `{!CryptoHash AccountStateBlob, !CryptoHash SparseMerkleLeafNode}.

(** ** Nodes *)

Inductive LeafValue := Blob (blob : AccountStateBlob) | BlobHash (hash : HashValue).

Record InternalNode := mkInternalNode { in_hash : HashValue; in_left_child : Loc; in_right_child : Loc }.
Record LeafNode := mkLeafNode { ln_key : HashValue; ln_value : LeafValue; ln_hash : HashValue }.
Record SubtreeNode := mkSubtreeNode { sn_hash : HashValue }.
Inductive Node := Internal (node : InternalNode) | Leaf (node : LeafNode) | Subtree (node : SubtreeNode) | Empty.

Inductive UpdateError := MissingProof.

Definition node_hash (self : Node) : HashValue :=
  match self with
  | Internal node => in_hash node
  | Leaf node => ln_hash node
  | Subtree node => sn_hash node
  | Empty => SPARSE_MERKLE_PLACEHOLDER_HASH
  end.

Notation heap := (list Node).
Notation Hp := (M heap UpdateError).

Definition alloc (node : Node) : Hp Loc := fun h => (h ++ [node], Ok (length h)).
Definition read_lock (l : Loc) : Hp Node := m_reads (fun h => expect (h !! l)).
Definition write_lock (l : Loc) (node : Node) : Hp unit := m_modify (fun h => <[l := node]> h).

Definition leaf_node_new (key : HashValue) (value : LeafValue) : LeafNode :=
  let value_hash := match value with Blob val => crypto_hash val | BlobHash val_hash => val_hash end in
  mkLeafNode key value (crypto_hash (mkSparseMerkleLeafNode key value_hash)).
Definition leaf_node_from (leaf_node : SparseMerkleLeafNode) : LeafNode :=
  leaf_node_new (leaf_key leaf_node) (BlobHash (leaf_value_hash leaf_node)).
Definition subtree_node_new (hash : HashValue) : result UpdateError SubtreeNode :=
  _ ← assert_ (negb (bool_decide (hash = SPARSE_MERKLE_PLACEHOLDER_HASH)));
  Ok (mkSubtreeNode hash).
Definition internal_node_new (left_child right_child : Loc) : Hp InternalNode :=
  let* left := read_lock left_child in
  let* right := read_lock right_child in
  run* m_lift (match left, right with
               | Subtree _, Subtree _ => Panic
               | Leaf _, Empty => Panic
               | Empty, Leaf _ => Panic
               | _, _ => Ok tt
               end) in
  m_ret (mkInternalNode (SparseMerkleInternalNode_hash (node_hash left) (node_hash right)) left_child right_child).

Definition new_internal (left_child right_child : Loc) : Hp Loc :=
  let* node := internal_node_new left_child right_child in alloc (Internal node).
Definition new_leaf (key : HashValue) (value : LeafValue) : Hp Loc := alloc (Leaf (leaf_node_new key value)).
Definition new_subtree (hash : HashValue) : Hp Loc := let* node := m_lift (subtree_node_new hash) in alloc (Subtree node).
Definition new_empty : Hp Loc := alloc Empty.

(** [if hash != placeholder { new_subtree(hash) } else { new_empty() }]. *)
Definition new_from_hash (hash : HashValue) : Hp Loc :=
  if negb (bool_decide (hash = SPARSE_MERKLE_PLACEHOLDER_HASH)) then new_subtree hash else new_empty.

(** ** The tree *)

Record SparseMerkleTree := mkSparseMerkleTree { smt_root : Loc }.

Definition sparse_merkle_tree_new (root_hash : HashValue) : Hp SparseMerkleTree :=
  let* root := new_from_hash root_hash in m_ret (mkSparseMerkleTree root).

(** [itertools::zip_eq(bits, siblings).fold(leaf, ..)]. *)
Fixpoint construct_subtree (bits : list bool) (siblings : list Loc) (leaf : Loc) : Hp Loc :=
  match bits, siblings with
  | [], [] => m_ret leaf
  | bit :: bits, sibling :: siblings =>
    let* node := if bit : bool then new_internal sibling leaf else new_internal leaf sibling in
    construct_subtree bits siblings node
  | _, _ => m_lift Panic
  end.

Definition construct_subtree_with_new_leaf (key : HashValue) (new_blob : AccountStateBlob) (existing_leaf : LeafNode)
    (distance_from_root_to_existing_leaf : nat) : Hp Loc :=
  let* leaf := new_leaf key (Blob new_blob) in
  if bool_decide (key = ln_key existing_leaf) then m_ret leaf
  else
    let common_prefix_len := common_prefix_bits_len key (ln_key existing_leaf) in
    run* m_lift (assert_ (distance_from_root_to_existing_leaf <=? common_prefix_len)%nat) in
    let extension_len := (common_prefix_len - distance_from_root_to_existing_leaf)%nat in
    let* existing := new_leaf (ln_key existing_leaf) (ln_value existing_leaf) in
    let* empty := new_empty in
    construct_subtree (take (extension_len + 1) (drop (HASH_LENGTH_IN_BITS - common_prefix_len - 1) (rev (iter_bits key))))
      (existing :: replicate extension_len empty) leaf.

(** The nodes of the siblings in a proof. *)
Fixpoint sibling_nodes (siblings : list HashValue) : Hp (list Loc) :=
  match siblings with
  | [] => m_ret []
  | sibling_hash :: siblings =>
    let* node := new_from_hash sibling_hash in
    let* nodes := sibling_nodes siblings in
    m_ret (node :: nodes)
  end.

(** [ProofRead::get_proof]. *)
Notation ProofRead := (HashValue -> option SparseMerkleProof).

(** A difference of [usize] that is negative wraps to more elements than there are. *)
Definition construct_subtree_at_bottom (current_node : Loc) (key : HashValue) (new_blob : AccountStateBlob) (remaining_bits : list bool)
    (proof_reader : ProofRead) : Hp Loc :=
  let* node := read_lock current_node in
  match node with
  | Internal _ => m_lift Panic
  | Leaf node => construct_subtree_with_new_leaf key new_blob node (HASH_LENGTH_IN_BITS - length remaining_bits)
  | Subtree _ =>
    let* proof := m_lift (ok_or (proof_reader key) MissingProof) in
    let* new_subtree := match smp_leaf proof with
      | Some existing_leaf => construct_subtree_with_new_leaf key new_blob (leaf_node_from existing_leaf) (length (smp_siblings proof))
      | None => new_leaf key (Blob new_blob)
      end in
    let num_remaining_bits := length remaining_bits in
    let proof_length := length (smp_siblings proof) in
    let* siblings := sibling_nodes
      (if (HASH_LENGTH_IN_BITS <=? num_remaining_bits + proof_length)%nat
       then take (num_remaining_bits + proof_length - HASH_LENGTH_IN_BITS) (smp_siblings proof) else smp_siblings proof) in
    construct_subtree
      (if (proof_length <=? HASH_LENGTH_IN_BITS)%nat then drop (HASH_LENGTH_IN_BITS - proof_length) (rev remaining_bits) else [])
      siblings new_subtree
  | Empty => new_leaf key (Blob new_blob)
  end.

(** From the root to the first node that is not internal: that node, the bits left, the
    bits and the siblings on the way. *)
Fixpoint find_bottom (bits : list bool) (current_node : Loc) (bits_on_path : list bool) (siblings_on_path : list Loc)
    : Hp (Loc * list bool * list bool * list Loc) :=
  let* node := read_lock current_node in
  match node with
  | Internal node =>
    match bits with
    | [] => m_lift Panic
    | bit :: bits =>
      if bit : bool then find_bottom bits (in_right_child node) (bits_on_path ++ [bit]) (siblings_on_path ++ [in_left_child node])
      else find_bottom bits (in_left_child node) (bits_on_path ++ [bit]) (siblings_on_path ++ [in_right_child node])
    end
  | _ => m_ret (current_node, bits, bits_on_path, siblings_on_path)
  end.

Definition update_one (root : Loc) (key : HashValue) (new_blob : AccountStateBlob) (proof_reader : ProofRead) : Hp Loc :=
  let* found := find_bottom (iter_bits key) root [] [] in
  let '(current_node, bits, bits_on_path, siblings_on_path) := found in
  let* new_node := construct_subtree_at_bottom current_node key new_blob bits proof_reader in
  construct_subtree (rev bits_on_path) (rev siblings_on_path) new_node.

Fixpoint update_all (root : Loc) (updates : list (HashValue * AccountStateBlob)) (proof_reader : ProofRead) : Hp Loc :=
  match updates with
  | [] => m_ret root
  | (key, new_blob) :: updates =>
    let* root := update_one root key new_blob proof_reader in
    update_all root updates proof_reader
  end.
Definition update (self : SparseMerkleTree) (updates : list (HashValue * AccountStateBlob)) (proof_reader : ProofRead) : Hp SparseMerkleTree :=
  let* root := update_all (smt_root self) updates proof_reader in m_ret (mkSparseMerkleTree root).

(** ** Queries *)

Inductive AccountStatus := ExistsInScratchPad (blob : AccountStateBlob) | ExistsInDB | DoesNotExist | Unknown.

Definition smt_get (self : SparseMerkleTree) (key : HashValue) : Hp AccountStatus :=
  let* found := find_bottom (iter_bits key) (smt_root self) [] [] in
  let '(current_node, _, _, _) := found in
  let* node := read_lock current_node in
  match node with
  | Leaf node =>
    if bool_decide (key = ln_key node)
    then m_ret (match ln_value node with Blob blob => ExistsInScratchPad blob | BlobHash _ => ExistsInDB end)
    else m_ret DoesNotExist
  | Subtree _ => m_ret Unknown
  | Empty => m_ret DoesNotExist
  | Internal _ => m_lift Panic
  end.

Definition smt_root_hash (self : SparseMerkleTree) : Hp HashValue := let* node := read_lock (smt_root self) in m_ret (node_hash node).

(** ** Pruning *)

(** A tree has at most 256 levels below its root. *)
Fixpoint prune_node (fuel : nat) (node : Loc) : Hp unit :=
  match fuel with
  | O => m_lift Panic
  | S fuel =>
    let* writable_node := read_lock node in
    let replace := let* subtree := m_lift (subtree_node_new (node_hash writable_node)) in write_lock node (Subtree subtree) in
    match writable_node with
    | Empty | Subtree _ => m_ret tt
    | Internal n => run* prune_node fuel (in_left_child n) in run* prune_node fuel (in_right_child n) in replace
    | Leaf _ => replace
    end
  end.
Definition smt_prune (self : SparseMerkleTree) : Hp unit := prune_node (S HASH_LENGTH_IN_BITS) (smt_root self).
End Scratchpad.
