(* ===== verification/ScratchpadProof.v ===== *)
(** * The trees of uncommitted transactions represent the accounts

    Trees are made from a state in storage by sequences of updates, share their nodes, and
    are pruned when one of them is committed.  Each stands for the entries in storage
    with its own updates applied: it has the root hash of the sparse Merkle tree over them,
    answers queries from them, and an update applies to them.  This holds at every point of
    any interleaving of new trees, updates and commits ([sp_step]). *)

From S2P Require Import Prelude U64 Bytes Crypto Hash SparseMerkleProof SparseMerkleTree LedgerProof.
From S2P Require Import NodeTypeProof JellyfishMerkleProof JellyfishMerkleUpdate Scratchpad.

#[local] Arguments iter_bits : simpl never.

Section ScratchpadProof.
Context `{Crypto} `{B : !HashBytes, !HashBytesLaws B, !LedgerHashers}.
Context `{!CryptoHash AccountStateBlob, !CryptoHash SparseMerkleLeafNode}.

Notation entries := (list (HashValue * AccountStateBlob)).
Notation sparse_hash := (sparse_hash SparseMerkleInternalNode_hash SPARSE_MERKLE_PLACEHOLDER_HASH).
Notation state_root := (sparse_root SparseMerkleInternalNode_hash SPARSE_MERKLE_PLACEHOLDER_HASH).
Notation ref_proof := (ref_proof SparseMerkleInternalNode_hash SPARSE_MERKLE_PLACEHOLDER_HASH).
Notation ref_sparse_proof := (ref_sparse_proof SparseMerkleInternalNode_hash SPARSE_MERKLE_PLACEHOLDER_HASH).

(** No node has the hash of the empty tree. *)
Class PlaceholderFresh : Prop := {
  leaf_not_placeholder (leaf : SparseMerkleLeafNode) : crypto_hash leaf <> SPARSE_MERKLE_PLACEHOLDER_HASH;
  internal_not_placeholder l r : SparseMerkleInternalNode_hash l r <> SPARSE_MERKLE_PLACEHOLDER_HASH
}.

(** ** Parts of the state *)

Section Parts.
Context (e0 : entries) (He0 : NoDup e0.*1).

(** The state after a history of updates, and its entries under the bits [bs]. *)
Definition state (hist : entries) : entries := put_entries hist e0.
Definition part (hist : entries) (bs : list bool) : entries := follow 0 bs (state hist).
Definition part_hash (hist : entries) (bs : list bool) : HashValue :=
  sparse_hash (HASH_LENGTH_IN_BITS - length bs) (length bs) (part hist bs).

Notation under bs k := (bs `prefix_of` iter_bits k).

Lemma state_snoc hist k b : state (hist ++ [(k, b)]) = put_entry k b (state hist).
Proof. unfold state, put_entries. by rewrite fold_left_app. Qed.

Lemma state_nodup hist : NoDup (state hist).*1.
Proof. induction hist as [|[k b] hist IH] using rev_ind; [done|]. rewrite state_snoc. by apply put_entry_nodup. Qed.

Lemma part_nodup hist bs : NoDup (part hist bs).*1.
Proof. apply follow_nodup, state_nodup. Qed.

Lemma part_snoc hist bs x : part hist (bs ++ [x]) = split_bit (length bs) x (part hist bs).
Proof. unfold part. by rewrite follow_app. Qed.

Lemma split_put_entry d x k b (es : entries) :
  split_bit d x (put_entry k b es) = if Bool.eqb (key_bit d k) x then put_entry k b (split_bit d x es) else split_bit d x es.
Proof.
  unfold split_bit, put_entry. cbn [List.filter fst]. rewrite !filter_filter_bool. destruct (Bool.eqb (key_bit d k) x) eqn:E.
  - f_equal. apply List.filter_ext. intros e. apply andb_comm.
  - apply List.filter_ext. intros e. case_bool_decide as Ek; [|cbn; by rewrite ?andb_true_r]. rewrite Ek, E. done.
Qed.

Lemma under_snoc bs x k : (length bs < HASH_LENGTH_IN_BITS)%nat -> under (bs ++ [x]) k <-> under bs k /\ key_bit (length bs) k = x.
Proof.
  intros Hl. split.
  - intros [r Hr]. split; [exists ([x] ++ r); by rewrite Hr, <- app_assoc|]. unfold key_bit. rewrite Hr, nth_lookup, <- app_assoc.
    cbn [app]. by rewrite list_lookup_middle.
  - intros [[r Hr] Hx]. destruct r as [|y r].
    + apply (f_equal length) in Hr. rewrite length_app, iter_bits_length in Hr. cbn in Hr. lia.
    + exists r. rewrite <- app_assoc. unfold key_bit in Hx. rewrite Hr, nth_lookup, list_lookup_middle in Hx by done. cbn in Hx. by subst y.
Qed.

Lemma under_app bs bs' k : under (bs ++ bs') k -> under bs k.
Proof. intros [r ->]. rewrite <- app_assoc. by exists (bs' ++ r). Qed.

Lemma under_take n k : under (take n (iter_bits k)) k.
Proof. exists (drop n (iter_bits k)). by rewrite take_drop. Qed.

Lemma under_length bs k : under bs k -> (length bs <= HASH_LENGTH_IN_BITS)%nat.
Proof. intros Hp%prefix_length. by rewrite iter_bits_length in Hp. Qed.

Lemma under_eq bs k : under bs k -> bs = take (length bs) (iter_bits k).
Proof. intros [r ->]. by rewrite take_app_length. Qed.

(** An update changes the parts its key is under. *)
Lemma part_put hist k b bs : (length bs <= HASH_LENGTH_IN_BITS)%nat ->
  part (hist ++ [(k, b)]) bs = if bool_decide (under bs k) then put_entry k b (part hist bs) else part hist bs.
Proof.
  induction bs as [|x bs IH] using rev_ind; intros Hl.
  { unfold part. cbn [follow]. rewrite state_snoc, bool_decide_eq_true_2; [done|]. by exists (iter_bits k). }
  rewrite length_app in Hl. cbn in Hl. rewrite !part_snoc, IH by lia.
  pose proof (under_snoc bs x k ltac:(lia)) as Hu. case_bool_decide as Ek.
  - rewrite split_put_entry. destruct (Bool.eqb (key_bit (length bs) k) x) eqn:Ex.
    + rewrite bool_decide_eq_true_2; [done|]. apply Hu. by apply eqb_prop in Ex.
    + rewrite bool_decide_eq_false_2; [done|]. intros [_ Hx]%Hu. rewrite Hx, eqb_reflx in Ex. done.
  - rewrite bool_decide_eq_false_2; [done|]. by intros [? _]%Hu.
Qed.

(** [hist'] continues [hist] with keys that [P] does not hold of. *)
Definition extends (P : HashValue -> Prop) (hist hist' : entries) : Prop :=
  exists new, hist' = hist ++ new /\ forall k b, (k, b) ∈ new -> ~ P k.

Lemma extends_refl P hist : extends P hist hist.
Proof. exists []. split; [by rewrite app_nil_r|]. intros k b Hin. by apply elem_of_nil in Hin. Qed.

Lemma extends_trans P h1 h2 h3 : extends P h1 h2 -> extends P h2 h3 -> extends P h1 h3.
Proof.
  intros (n1 & -> & H1) (n2 & -> & H2). exists (n1 ++ n2). split; [by rewrite app_assoc|].
  intros k b [Hin|Hin]%elem_of_app; eauto.
Qed.

Lemma extends_snoc P hist k b : ~ P k -> extends P hist (hist ++ [(k, b)]).
Proof. intros Hk. exists [(k, b)]. split; [done|]. intros k' b' Hin. apply list_elem_of_singleton in Hin as [= -> ->]. done. Qed.

Lemma extends_weaken (P Q : HashValue -> Prop) h1 h2 : (forall k, Q k -> P k) -> extends P h1 h2 -> extends Q h1 h2.
Proof. intros HQ (n & -> & Hn). exists n. split; [done|]. intros k b Hin Hk. by eapply Hn, HQ. Qed.

(** What holds of the updates from [h1] to [h3] holds of those between two points on the way. *)
Lemma extends_between P Q R h1 h2 h3 : extends Q h1 h2 -> extends P h1 h3 -> extends R h2 h3 -> extends P h1 h2 /\ extends P h2 h3.
Proof.
  intros (n1 & -> & _) (n & E & Hn) (n2 & -> & _). rewrite <- app_assoc in E. apply app_inv_head in E as <-.
  split; [exists n1|exists n2]; (split; [done|]); intros k b Hin; eapply Hn, elem_of_app; eauto.
Qed.

Lemma extends_part hist hist' bs : (length bs <= HASH_LENGTH_IN_BITS)%nat -> extends (fun k => under bs k) hist hist' ->
  part hist' bs = part hist bs.
Proof.
  intros Hl (new & -> & Hn). induction new as [|[k b] new IH] using rev_ind; [by rewrite app_nil_r|].
  rewrite app_assoc, part_put by done. rewrite bool_decide_eq_false_2 by (apply (Hn k b), elem_of_app; right; by left).
  apply IH. intros k' b' Hin. apply (Hn k' b'), elem_of_app. by left.
Qed.

Lemma extends_elem hist hist' k b : extends (fun k' => k' = k) hist hist' -> (k, b) ∈ state hist' <-> (k, b) ∈ state hist.
Proof.
  intros (new & -> & Hn). induction new as [|[k' b'] new IH] using rev_ind; [by rewrite app_nil_r|].
  rewrite app_assoc, state_snoc, put_entry_elem, IH by (intros k2 b2 Hin; apply (Hn k2 b2), elem_of_app; by left).
  assert (k <> k') by (intros ->; apply (Hn k' b'); [apply elem_of_app; right; by left|done]). naive_solver.
Qed.

(** A state keeps its keys, so that parts do not shrink. *)
Lemma part_grows hist new bs : (length bs <= HASH_LENGTH_IN_BITS)%nat -> (length (part hist bs) <= length (part (hist ++ new) bs))%nat.
Proof.
  intros Hl. induction new as [|[k b] new IH] using rev_ind; [by rewrite app_nil_r|]. rewrite app_assoc, part_put by done.
  case_bool_decide; [|done]. pose proof (put_entry_length k b (part (hist ++ new) bs) (part_nodup _ _)). lia.
Qed.

Lemma part_elem hist bs k b : (length bs <= HASH_LENGTH_IN_BITS)%nat -> (k, b) ∈ part hist bs <-> (k, b) ∈ state hist /\ under bs k.
Proof.
  induction bs as [|x bs IH] using rev_ind; intros Hl.
  { unfold part. cbn [follow]. split; [|by intros [? _]]. intros Hin. split; [done|]. by exists (iter_bits k). }
  rewrite length_app in Hl. cbn in Hl. rewrite part_snoc, split_bit_elem, IH, under_snoc by lia. naive_solver.
Qed.

Lemma part_short hist bs : (2 <= length (part hist bs))%nat -> (length bs < HASH_LENGTH_IN_BITS)%nat \/ (HASH_LENGTH_IN_BITS < length bs)%nat.
Proof.
  intros Hl. destruct (Nat.lt_trichotomy (length bs) HASH_LENGTH_IN_BITS) as [?|[E|?]]; [by left| |by right]. exfalso.
  pose proof (part_nodup hist bs) as Hnd. destruct (part hist bs) as [|[k1 b1] [|[k2 b2] es]] eqn:Ep; cbn in Hl; try lia.
  assert (k1 = k2) as ->.
  { apply (follow_full (state hist) bs k1 b1 k2 b2 E); fold (part hist bs); rewrite Ep; [by left|right; by left]. }
  cbn in Hnd. apply list.NoDup_cons in Hnd as [Hn _]. apply Hn. by left.
Qed.

Lemma split_bit_length d (es : entries) : (length (split_bit d false es) + length (split_bit d true es) = length es)%nat.
Proof. induction es as [|e es IH]; [done|]. unfold split_bit in *. cbn. destruct (key_bit d e.1); cbn; lia. Qed.

Lemma part_hash_internal hist bs : (length bs < HASH_LENGTH_IN_BITS)%nat -> (2 <= length (part hist bs))%nat ->
  part_hash hist bs = SparseMerkleInternalNode_hash (part_hash hist (bs ++ [false])) (part_hash hist (bs ++ [true])).
Proof.
  intros Hl Hn. unfold part_hash. rewrite !length_app. cbn [length]. rewrite !part_snoc.
  replace (HASH_LENGTH_IN_BITS - length bs)%nat with (S (HASH_LENGTH_IN_BITS - (length bs + 1))) by lia.
  rewrite sparse_hash_many by done. by rewrite Nat.add_1_r.
Qed.

Lemma part_hash_fresh `{!PlaceholderFresh} hist bs : (length bs <= HASH_LENGTH_IN_BITS)%nat -> part hist bs <> [] ->
  part_hash hist bs <> SPARSE_MERKLE_PLACEHOLDER_HASH.
Proof.
  intros Hl Hp. destruct (decide (2 <= length (part hist bs))%nat) as [Hn|Hn].
  - rewrite part_hash_internal; [apply internal_not_placeholder|by destruct (part_short _ _ Hn); lia|done].
  - unfold part_hash. destruct (part hist bs) as [|[k b] [|]]; [done| |cbn in Hn; lia].
    destruct (_ - _)%nat; apply leaf_not_placeholder.
Qed.

(** ** The reference proof *)

(** The levels a proof passes hold more than one entry, and what they leave aside hashes to
    its siblings; it ends at one entry or none. *)
Lemma ref_proof_parts hist key : let '(leaf, sibs) := ref_proof HASH_LENGTH_IN_BITS 0 key (state hist) in
  let bits := iter_bits key in
  (length sibs <= HASH_LENGTH_IN_BITS)%nat /\
  (forall i s, sibs !! i = Some s -> (2 <= length (part hist (take i bits)))%nat /\ s = part_hash hist (take i bits ++ [negb (key_bit i key)])) /\
  part hist (take (length sibs) bits) = match leaf with Some e => [e] | None => [] end.
Proof.
  set (bits := iter_bits key). cut (forall fuel d, (d + fuel = HASH_LENGTH_IN_BITS)%nat ->
    let '(leaf, sibs) := ref_proof fuel d key (part hist (take d bits)) in
    (length sibs <= fuel)%nat /\
    (forall i s, sibs !! i = Some s -> (2 <= length (part hist (take (d + i) bits)))%nat /\
      s = part_hash hist (take (d + i) bits ++ [negb (key_bit (d + i) key)])) /\
    part hist (take (d + length sibs) bits) = match leaf with Some e => [e] | None => [] end).
  { intros Hc. apply (Hc HASH_LENGTH_IN_BITS 0%nat). done. }
  assert (Hlen : forall d, (d <= HASH_LENGTH_IN_BITS)%nat -> length (take d bits) = d)
    by (intros d Hd; unfold bits; rewrite length_take, iter_bits_length; lia).
  induction fuel as [|fuel IH]; intros d Hf.
  - pose proof (part_short hist (take d bits)) as Hs. rewrite Hlen in Hs by lia.
    destruct (part hist (take d bits)) as [|e [|e2 es]] eqn:Ep; cbn [SparseMerkleTree.ref_proof]; [| |cbn in Hs; lia];
      cbn [length]; rewrite Nat.add_0_r, Ep; (split_and!; [lia|done|done]).
  - destruct (part hist (take d bits)) as [|e [|e2 es]] eqn:Ep; cbn [SparseMerkleTree.ref_proof];
      try (cbn [length]; rewrite Nat.add_0_r, Ep; split_and!; [lia|done|done]).
    rewrite <- Ep. pose proof (key_bit_lookup d key ltac:(lia)) as Hb. fold bits in Hb.
    assert (Hst : split_bit d (key_bit d key) (part hist (take d bits)) = part hist (take (S d) bits)).
    { rewrite (take_S_r _ _ _ Hb), part_snoc, Hlen by lia. done. }
    cbv zeta. rewrite Hst. specialize (IH (S d) ltac:(lia)). destruct (ref_proof fuel (S d) key (part hist (take (S d) bits))) as [leaf sibs].
    destruct IH as (Hl & Hi & He). cbn [length]. split_and!; [lia| |by rewrite <- Nat.add_succ_comm].
    intros [|i] s Hs; cbn in Hs.
    + injection Hs as <-. rewrite Nat.add_0_r. split; [rewrite Ep; cbn; lia|]. unfold part_hash.
      rewrite length_app, part_snoc, Hlen by lia. cbn [length]. replace (HASH_LENGTH_IN_BITS - (d + 1))%nat with fuel by lia.
      by rewrite Nat.add_1_r.
    + rewrite <- Nat.add_succ_comm. by apply Hi.
Qed.

(** ** Representation *)

(** Every part on the way to [bs] holds more than one entry. *)
Definition deep (hist : entries) (bs : list bool) : Prop :=
  forall n, (n < length bs)%nat -> (2 <= length (part hist (take n bs)))%nat.

Definition leaf_value (base hist : entries) (k : HashValue) (b : AccountStateBlob) (v : LeafValue) : Prop :=
  v = Blob b \/ (v = BlobHash (crypto_hash b) /\ (k, b) ∈ state base /\ extends (fun k' => k' = k) base hist).

(** The node at [l] represents the part of the state after [hist] under [bs], on top of the
    state after [base] in storage; only parts in [U] are left to storage.  [g] records of
    every leaf and internal node its place in the tree and a history at which it represents
    the same part. *)
Inductive repr_in (U : list bool -> Prop) (h : list Node) (g : list (list bool * entries)) (base hist : entries) : list bool -> Loc -> Prop :=
| repr_empty bs l : h !! l = Some Empty -> part hist bs = [] -> repr_in U h g base hist bs l
| repr_leaf bs l k b v since : h !! l = Some (Leaf (mkLeafNode k v (crypto_hash (mkSparseMerkleLeafNode k (crypto_hash b))))) ->
    part hist bs = [(k, b)] -> leaf_value base hist k b v ->
    g !! l = Some (bs, since) -> extends (fun k => under bs k) since hist -> repr_in U h g base hist bs l
| repr_subtree bs l : h !! l = Some (Subtree (mkSubtreeNode (part_hash base bs))) -> part base bs <> [] ->
    extends (fun k => under bs k) base hist -> deep base bs -> U bs -> repr_in U h g base hist bs l
| repr_internal bs l l1 l2 since : h !! l = Some (Internal (mkInternalNode (part_hash hist bs) l1 l2)) ->
    (2 <= length (part hist bs))%nat -> g !! l = Some (bs, since) -> extends (fun k => under bs k) since hist ->
    repr_in U h g base hist (bs ++ [false]) l1 -> repr_in U h g base hist (bs ++ [true]) l2 -> repr_in U h g base hist bs l.

Section Parts_left.
Context (U : list bool -> Prop) (HU : forall bs q, U bs -> U (bs ++ q)).
Notation repr := (repr_in U).

Definition solid (h : list Node) (l : Loc) : Prop :=
  match h !! l with Some (Leaf _) | Some (Internal _) => True | _ => False end.

Lemma length_snoc_le {A} (bs : list A) x n : (length bs < n)%nat -> (length (bs ++ [x]) <= n)%nat.
Proof. rewrite length_app. cbn. lia. Qed.

Lemma part_short_lt hist bs : (length bs <= HASH_LENGTH_IN_BITS)%nat -> (2 <= length (part hist bs))%nat -> (length bs < HASH_LENGTH_IN_BITS)%nat.
Proof. intros Hl Hn. destruct (part_short _ _ Hn); lia. Qed.

Lemma read_lock_ok h l n : h !! l = Some n -> read_lock l h = (h, Ok n).
Proof. intros E. unfold read_lock, m_reads. by rewrite E. Qed.

Lemma repr_node h g base hist bs l : (length bs <= HASH_LENGTH_IN_BITS)%nat -> repr h g base hist bs l ->
  exists node, h !! l = Some node /\ node_hash node = part_hash hist bs.
Proof.
  intros Hl Hr. inversion Hr as [? ? Hn Hp|? ? k b v since Hn Hp Hv|? ? Hn Hp He|]; subst; (eexists; split; [done|]); cbn [node_hash ln_hash sn_hash in_hash]; try done.
  - unfold part_hash. rewrite Hp. by destruct (_ - _)%nat.
  - unfold part_hash. rewrite Hp. by destruct (_ - _)%nat.
  - unfold part_hash. by rewrite (extends_part base hist bs).
Qed.

Lemma repr_mono h g h' g' base hist bs l : (forall l n, h !! l = Some n -> h' !! l = Some n) -> (forall l x, g !! l = Some x -> g' !! l = Some x) ->
  repr h g base hist bs l -> repr h' g' base hist bs l.
Proof. intros Hh Hg Hr. induction Hr; [eapply repr_empty|eapply repr_leaf|eapply repr_subtree|eapply repr_internal]; eauto. Qed.

Lemma repr_app h g new gnew base hist bs l : repr h g base hist bs l -> repr (h ++ new) (g ++ gnew) base hist bs l.
Proof. apply repr_mono; intros; by apply lookup_app_l_Some. Qed.

Lemma solid_app h new l : solid h l -> solid (h ++ new) l.
Proof. unfold solid. destruct (h !! l) as [n|] eqn:E; [|done]. by rewrite (lookup_app_l_Some _ _ _ _ E). Qed.

(** Updates elsewhere leave a node as it is. *)
Lemma repr_frame h g base hist hist' bs l : (length bs <= HASH_LENGTH_IN_BITS)%nat -> extends (fun k => under bs k) hist hist' ->
  repr h g base hist bs l -> repr h g base hist' bs l.
Proof.
  intros Hl He Hr. induction Hr as [bs l Hn Hp|bs l k b v since Hn Hp Hv Hg Hs|bs l Hn Hp Hb Hd Hun|bs l l1 l2 since Hn Hp Hg Hs H1 IH1 H2 IH2];
    pose proof (extends_part _ _ _ Hl He) as Ep.
  - apply repr_empty; [done|by rewrite Ep].
  - eapply repr_leaf; [done|by rewrite Ep| |done|by eapply extends_trans].
    destruct Hv as [Hv|(Hv & Hin & Hk)]; [by left|right]. split_and!; [done..|]. eapply extends_trans; [done|].
    eapply extends_weaken; [|done]. intros k' ->. apply (part_elem hist bs k b); [done|]. rewrite Hp. by left.
  - apply repr_subtree; [done..| |done|done]. by eapply extends_trans.
  - pose proof (part_short_lt _ _ Hl Hp) as Hlt.
    eapply repr_internal; [by replace (part_hash hist' bs) with (part_hash hist bs) by (unfold part_hash; by rewrite Ep)|by rewrite Ep|done| | |].
    + by eapply extends_trans.
    + apply IH1; [by apply length_snoc_le|]. eapply extends_weaken; [|done]. intros k. apply under_app.
    + apply IH2; [by apply length_snoc_le|]. eapply extends_weaken; [|done]. intros k. apply under_app.
Qed.

(** ** Building nodes *)

(** [m] adds nodes to the heap and returns one for the part under [bs]. *)
Definition builds (g : list (list bool * entries)) (base hist : entries) (bs : list bool) (m : M (list Node) UpdateError Loc) (h : list Node) : Prop :=
  exists new gnew l, length new = length gnew /\ m h = (h ++ new, Ok l) /\
    repr (h ++ new) (g ++ gnew) base hist bs l /\ solid (h ++ new) l.

Lemma builds_step {A} g base hist bs m (k : A -> M (list Node) UpdateError Loc) bs' h new gnew l : length new = length gnew ->
  m h = (h ++ new, Ok l) -> builds (g ++ gnew) base hist bs' (k l) (h ++ new) -> bs = bs' -> builds g base hist bs (m_bind m k) h.
Proof.
  intros Hl E (new' & gnew' & l' & Hl' & E' & Hr & Hs) ->. exists (new ++ new'), (gnew ++ gnew'), l'. rewrite !app_assoc.
  split_and!; [rewrite !length_app; lia|by rewrite (m_bind_run _ _ _ _ _ E)|done|done].
Qed.

Lemma builds_run {A} g base hist bs m (k : A -> M (list Node) UpdateError Loc) h a : m h = (h, Ok a) ->
  builds g base hist bs (k a) h -> builds g base hist bs (m_bind m k) h.
Proof. intros E (new & gnew & l & Hl & E' & Hr). exists new, gnew, l. by rewrite (m_bind_run _ _ _ _ _ E). Qed.

Lemma alloc_ok (g : list (list bool * entries)) (h : list Node) node x : length g = length h -> alloc node h = (h ++ [node], Ok (length h)) /\
  (h ++ [node]) !! length h = Some node /\ (g ++ [x]) !! length h = Some x.
Proof. intros Hg. split; [done|]. split; [by rewrite list_lookup_middle|]. by rewrite <- Hg, list_lookup_middle. Qed.

Lemma new_leaf_builds g base hist bs h k b v : length g = length h -> part hist bs = [(k, b)] -> leaf_value base hist k b v ->
  builds g base hist bs (new_leaf k v) h.
Proof.
  intros Hg Hp Hv. destruct (alloc_ok g h (Leaf (leaf_node_new k v)) (bs, hist) Hg) as (E & Hn & Hx).
  exists [Leaf (leaf_node_new k v)], [(bs, hist)], (length h). split_and!; [done|done| |unfold solid; by rewrite Hn].
  eapply repr_leaf; [rewrite Hn|done..|apply extends_refl]. unfold leaf_node_new. by destruct Hv as [->|(-> & _)].
Qed.

Lemma new_internal_builds g base hist bs h l1 l2 : length g = length h -> (length bs <= HASH_LENGTH_IN_BITS)%nat -> (2 <= length (part hist bs))%nat ->
  repr h g base hist (bs ++ [false]) l1 -> repr h g base hist (bs ++ [true]) l2 -> solid h l1 \/ solid h l2 ->
  builds g base hist bs (new_internal l1 l2) h.
Proof.
  intros Hg Hl Hp H1 H2 Hs. pose proof (part_short_lt _ _ Hl Hp) as Hlt.
  destruct (repr_node _ _ _ _ _ _ (length_snoc_le bs false _ Hlt) H1) as (n1 & E1 & Hh1).
  destruct (repr_node _ _ _ _ _ _ (length_snoc_le bs true _ Hlt) H2) as (n2 & E2 & Hh2).
  set (node := mkInternalNode (part_hash hist bs) l1 l2).
  assert (Hlen : (length (part hist (bs ++ [false])) + length (part hist (bs ++ [true])) = length (part hist bs))%nat)
    by (rewrite !part_snoc; apply split_bit_length).
  assert (E : internal_node_new l1 l2 h = (h, Ok node)).
  { unfold internal_node_new, read_lock, m_bind, m_reads, m_lift. rewrite E1, E2. cbn [expect].
    unfold solid in Hs. rewrite E1, E2 in Hs. unfold node. rewrite part_hash_internal, <- Hh1, <- Hh2 by done.
    inversion H1 as [? ? G1 P1|? ? ? ? ? ? G1 P1|? ? G1|? ? ? ? ? G1]; rewrite E1 in G1; injection G1 as ->;
    inversion H2 as [? ? G2 P2|? ? ? ? ? ? G2 P2|? ? G2|? ? ? ? ? G2]; rewrite E2 in G2; injection G2 as ->; try done;
      try (rewrite P1, P2 in Hlen; cbn in Hlen; lia). by destruct Hs. }
  destruct (alloc_ok g h (Internal node) (bs, hist) Hg) as (Ea & Hn & Hx).
  exists [Internal node], [(bs, hist)], (length h). split_and!; [done| | |unfold solid; by rewrite Hn].
  - unfold new_internal. by rewrite (m_bind_run _ _ _ _ _ E).
  - eapply repr_internal; [exact Hn|done|done|apply extends_refl|by apply repr_app|by apply repr_app].
Qed.

(** Along the bits [bs] from [pre] on, with what is beside the path as siblings. *)
Definition beside h g base hist pre bs sibs : Prop :=
  length sibs = length bs /\ forall i b s, bs !! i = Some b -> sibs !! i = Some s ->
    repr h g base hist (pre ++ take i bs ++ [negb b]) s /\ (2 <= length (part hist (pre ++ take i bs)))%nat.

Lemma beside_app h g new gnew base hist pre bs sibs : beside h g base hist pre bs sibs -> beside (h ++ new) (g ++ gnew) base hist pre bs sibs.
Proof. intros [Hl Hs]. split; [done|]. intros i b s Hb Hi. destruct (Hs i b s Hb Hi). split; [by apply repr_app|done]. Qed.

Lemma construct_subtree_builds base hist pre bs : forall sibs l h g, length g = length h -> (length (pre ++ bs) <= HASH_LENGTH_IN_BITS)%nat ->
  beside h g base hist pre bs sibs -> repr h g base hist (pre ++ bs) l -> solid h l ->
  builds g base hist pre (construct_subtree (rev bs) (rev sibs) l) h.
Proof.
  induction bs as [|x bs IH] using rev_ind; intros sibs l h g Hg Hl [Hls Hs] Hr Hsol.
  { destruct sibs; [|done]. rewrite app_nil_r in Hr. exists [], [], l. rewrite !app_nil_r. done. }
  rewrite length_app in Hls. destruct (exists_last (l := sibs)) as (sibs' & s & ->); [by destruct sibs; cbn in Hls; try lia|].
  rewrite length_app in Hls. cbn in Hls. rewrite !rev_app_distr. cbn [rev app construct_subtree].
  rewrite app_assoc, length_app in Hl. cbn in Hl. destruct (Hs (length bs) x s) as [Hrs Hp].
  { by rewrite list_lookup_middle. }
  { rewrite list_lookup_middle; [done|lia]. }
  rewrite take_app_length in Hrs, Hp. rewrite app_assoc in Hrs. rewrite app_assoc in Hr.
  assert (Hb : builds g base hist (pre ++ bs) (if x then new_internal s l else new_internal l s) h).
  { destruct x; apply new_internal_builds; try done; try lia; [by right|by left]. }
  destruct Hb as (new & gnew & l' & Hn & E & Hr' & Hs'). eapply builds_step; [exact Hn|exact E| |done].
  apply IH; [rewrite !length_app; lia|lia| |done|done]. apply beside_app. split; [lia|].
  intros i b s' Hb Hi. destruct (Hs i b s'); [by apply lookup_app_l_Some..|]. rewrite take_app_le in * by (apply lookup_lt_Some in Hb; lia). done.
Qed.

(** ** Inserting beside a leaf *)

Lemma entries_single (es : entries) k b : NoDup es.*1 -> (k, b) ∈ es -> (forall k' b', (k', b') ∈ es -> k' = k) -> es = [(k, b)].
Proof.
  intros Hnd Hin Hall. destruct es as [|[k1 b1] es]; [by apply elem_of_nil in Hin|]. cbn in Hnd. apply list.NoDup_cons in Hnd as [Hk _].
  assert (k1 = k) as -> by (apply (Hall k1 b1); by left). destruct es as [|[k2 b2] es].
  - by apply list_elem_of_singleton in Hin as [= ->].
  - exfalso. apply Hk. assert (k2 = k) as -> by (apply (Hall k2 b2); right; by left). by left.
Qed.

Lemma entries_two (es : entries) k1 b1 k2 b2 : k1 <> k2 -> (k1, b1) ∈ es -> (k2, b2) ∈ es -> (2 <= length es)%nat.
Proof.
  intros Hne H1 H2. destruct es as [|e1 [|e2 es]]; [by apply elem_of_nil in H1| |cbn; lia].
  apply list_elem_of_singleton in H1, H2. congruence.
Qed.

Lemma rev_window {A} (l a b c : list A) : l = a ++ b ++ c -> take (length b) (drop (length c) (rev l)) = rev b.
Proof.
  intros ->. rewrite !rev_app_distr, <- app_assoc, <- (length_rev c), drop_app_length, <- (length_rev b). apply take_app_length.
Qed.

Lemma rev_replicate {A} n (x : A) : rev (replicate n x) = replicate n x.
Proof. induction n as [|n IH]; [done|]. cbn [replicate rev]. rewrite IH. clear IH. induction n as [|n IH]; [done|]. cbn. by rewrite IH. Qed.

Lemma take_bits_length key m : (m <= HASH_LENGTH_IN_BITS)%nat -> length (take m (iter_bits key)) = m.
Proof. intros Hm. rewrite length_take, iter_bits_length. lia. Qed.

Lemma take_window key n m : (n <= m)%nat -> take n (iter_bits key) ++ take (m - n) (drop n (iter_bits key)) = take m (iter_bits key).
Proof. intros Hm. rewrite take_take_drop. f_equal. lia. Qed.

Lemma key_under_other key i b k : (i < HASH_LENGTH_IN_BITS)%nat -> under (take i (iter_bits key) ++ [b]) k -> key_bit i k = b.
Proof. intros Hi Hu. apply under_snoc in Hu as [_ Hu]; rewrite take_bits_length in * by lia; done. Qed.

Lemma below_pre key n i q : (n <= i)%nat -> exists q', take i (iter_bits key) ++ q = take n (iter_bits key) ++ q'.
Proof. intros Hi. exists (take (i - n) (drop n (iter_bits key)) ++ q). by rewrite app_assoc, take_window. Qed.

Lemma length_beside key i b : (i < HASH_LENGTH_IN_BITS)%nat -> (length (take i (iter_bits key) ++ [b]) <= HASH_LENGTH_IN_BITS)%nat.
Proof. intros Hi. apply length_snoc_le. by rewrite take_bits_length by lia. Qed.

Section WithNewLeaf.
Context (base hist : entries) (key : HashValue) (blob : AccountStateBlob) (n : nat) (k0 : HashValue) (b0 : AccountStateBlob) (v0 : LeafValue).
Notation bits := (iter_bits key).
Notation hist' := (hist ++ [(key, blob)]).
Context (Hn : (n <= HASH_LENGTH_IN_BITS)%nat) (Hp : part hist (take n bits) = [(k0, b0)]) (Hv : leaf_value base hist k0 b0 v0).

Lemma part_path m : (m <= HASH_LENGTH_IN_BITS)%nat -> part hist' (take m bits) = put_entry key blob (part hist (take m bits)).
Proof. intros Hm. rewrite part_put by (by rewrite take_bits_length). rewrite bool_decide_eq_true_2; [done|apply under_take]. Qed.

Lemma existing_under : under (take n bits) k0.
Proof. apply (part_elem hist _ k0 b0); [by rewrite take_bits_length|]. rewrite Hp. by left. Qed.

(** The two entries below the leaf. *)
Lemma new_part_elem q k b : (length (take n bits ++ q) <= HASH_LENGTH_IN_BITS)%nat ->
  (k, b) ∈ part hist' (take n bits ++ q) <-> ((k, b) = (key, blob) \/ (key <> k0 /\ (k, b) = (k0, b0))) /\ under (take n bits ++ q) k.
Proof.
  intros Hl. rewrite part_elem by done.
  assert (Hpre : (k, b) ∈ part hist' (take n bits) <-> (k, b) = (key, blob) \/ (key <> k0 /\ (k, b) = (k0, b0))).
  { rewrite part_path, Hp, put_entry_elem by done. rewrite list_elem_of_singleton. naive_solver. }
  rewrite <- Hpre, part_elem by (by rewrite take_bits_length). split; [|naive_solver]. intros [? Hu]. pose proof (under_app _ _ _ Hu). naive_solver.
Qed.

Lemma new_leaf_value : key <> k0 -> leaf_value base hist' k0 b0 v0.
Proof.
  intros Hne. destruct Hv as [?|(? & ? & Hk)]; [by left|right]. split_and!; [done..|]. eapply extends_trans; [exact Hk|]. by apply extends_snoc.
Qed.

Let c := common_prefix_bits_len key k0.

Lemma common_facts : key <> k0 -> (n <= c < HASH_LENGTH_IN_BITS)%nat /\ take c bits = take c (iter_bits k0) /\ key_bit c k0 = negb (key_bit c key).
Proof.
  intros Hne. destruct (common_prefix_take bits (iter_bits k0)) as (Et & Hc1 & Hc2). fold (common_prefix_bits_len key k0) in Et, Hc1, Hc2. fold c in Et, Hc1, Hc2.
  rewrite iter_bits_length in Hc1. assert (Hlt : (c < HASH_LENGTH_IN_BITS)%nat).
  { destruct (decide (c = HASH_LENGTH_IN_BITS)) as [E|]; [|lia]. exfalso. apply Hne, iter_bits_inj.
    rewrite !take_ge in Et by (rewrite iter_bits_length; lia). done. }
  split_and!; [|done|done|].
  - pose proof (under_eq _ _ existing_under) as Hu. rewrite take_bits_length in Hu by done.
    apply common_prefix_len_ge; rewrite ?iter_bits_length; try done. intros j Hj.
    rewrite <- (lookup_take_lt bits n j), <- (lookup_take_lt (iter_bits k0) n j), Hu by done. done.
  - pose proof (common_prefix_next bits (iter_bits k0) _ _ (key_bit_lookup c key Hlt) (key_bit_lookup c k0 Hlt)) as Hb.
    destruct (key_bit c key), (key_bit c k0); done.
Qed.

Lemma new_elem i q k b : (n <= i)%nat -> (length (take i bits ++ q) <= HASH_LENGTH_IN_BITS)%nat ->
  (k, b) ∈ part hist' (take i bits ++ q) <-> ((k, b) = (key, blob) \/ (key <> k0 /\ (k, b) = (k0, b0))) /\ under (take i bits ++ q) k.
Proof. intros Hi Hl. destruct (below_pre key n i q Hi) as [q' E]. rewrite E in *. by apply new_part_elem. Qed.

Section Distinct.
Context (Ek : key <> k0).

Lemma existing_bit i : (i < c)%nat -> key_bit i k0 = key_bit i key.
Proof.
  intros Hi. destruct (common_facts Ek) as ([Hc1 Hc2] & Ec & _). pose proof (f_equal (fun l => l !! i) Ec) as El. cbv beta in El.
  rewrite !lookup_take_lt, !key_bit_lookup in El by lia. congruence.
Qed.

Lemma existing_under_take i : (i <= c)%nat -> under (take i bits) k0.
Proof.
  intros Hi. destruct (common_facts Ek) as (_ & Ec & _). replace (take i bits) with (take i (take c bits)) by (rewrite take_take; f_equal; lia).
  rewrite Ec, take_take. apply under_take.
Qed.

Lemma part_on_path i : (n <= i <= c)%nat -> (2 <= length (part hist' (take i bits)))%nat.
Proof.
  intros [Hi1 Hi2]. destruct (common_facts Ek) as ([Hc1 Hc2] & _). rewrite <- (app_nil_r (take i bits)).
  apply (entries_two _ key blob k0 b0 Ek); (apply new_elem; [done|rewrite app_nil_r, take_bits_length; lia|rewrite app_nil_r]).
  - split; [by left|apply under_take].
  - split; [by right|by apply existing_under_take].
Qed.

Lemma part_beside_path i : (n <= i < c)%nat -> part hist' (take i bits ++ [negb (key_bit i key)]) = [].
Proof.
  intros [Hi1 Hi2]. destruct (common_facts Ek) as ([Hc1 Hc2] & _). apply NodeTypeProof.entries_nil. intros k b.
  rewrite new_elem by (done || (apply length_beside; lia)). intros [Hor Hu]. apply key_under_other in Hu; [|lia].
  assert (Hk : key_bit i k = key_bit i key) by (destruct Hor as [[= -> ->]|(_ & [= -> ->])]; [done|by apply existing_bit]).
  rewrite Hk in Hu. by destruct (key_bit i key).
Qed.

Lemma part_existing_leaf : part hist' (take c bits ++ [negb (key_bit c key)]) = [(k0, b0)].
Proof.
  destruct (common_facts Ek) as ([Hc1 Hc2] & Ec & Eb). apply entries_single; [apply part_nodup| |].
  - apply new_elem; [done|by apply length_beside|]. split; [by right|]. apply under_snoc; rewrite take_bits_length by lia; [done|].
    split; [by apply existing_under_take|done].
  - intros k b. rewrite new_elem by (done || by apply length_beside). intros [[[= -> ->]|(_ & [= -> ->])] Hu]; [|done].
    apply key_under_other in Hu; [|done]. by destruct (key_bit c key).
Qed.

Lemma part_new_leaf : part hist' (take (S c) bits) = [(key, blob)].
Proof.
  destruct (common_facts Ek) as ([Hc1 Hc2] & Ec & Eb). rewrite (take_S_r _ _ _ (key_bit_lookup c key Hc2)). apply entries_single; [apply part_nodup| |].
  - apply new_elem; [done|by apply length_beside|]. split; [by left|]. apply under_snoc; rewrite take_bits_length by lia; [done|]. split; [apply under_take|done].
  - intros k b. rewrite new_elem by (done || by apply length_beside). intros [[[= -> ->]|(_ & [= -> ->])] Hu]; [done|].
    apply key_under_other in Hu; [|done]. rewrite Eb in Hu. by destruct (key_bit c key).
Qed.

(** The bits between the old place of the existing leaf and where the two keys part. *)
Notation ext := (c - n)%nat.
Notation mid := (take (ext + 1) (drop n bits)).

Lemma mid_window : take (ext + 1) (drop (HASH_LENGTH_IN_BITS - c - 1) (rev bits)) = rev mid /\ length mid = (ext + 1)%nat /\
  take n bits ++ mid = take (S c) bits.
Proof.
  destruct (common_facts Ek) as ([Hc1 Hc2] & _).
  assert (Hmid : take n bits ++ mid = take (S c) bits) by (replace (c - n + 1)%nat with (S c - n)%nat by lia; apply take_window; lia).
  assert (Hmidl : length mid = (ext + 1)%nat) by (rewrite length_take, length_drop, iter_bits_length; lia).
  split_and!; [|done|done]. rewrite <- (rev_window bits (take n bits) mid (drop (S c) bits)) by (by rewrite app_assoc, Hmid, take_drop).
  rewrite Hmidl, length_drop, iter_bits_length. f_equal. f_equal. lia.
Qed.

Lemma extension_beside h g le l2 : h !! le = Some Empty -> repr h g base hist' (take c bits ++ [negb (key_bit c key)]) l2 ->
  beside h g base hist' (take n bits) mid (replicate ext le ++ [l2]).
Proof.
  intros Hle Hr2. destruct (common_facts Ek) as ([Hc1 Hc2] & _). destruct mid_window as (_ & Hmidl & Hmid).
  split; [rewrite length_app, length_replicate, Hmidl; done|]. intros i b s Hb Hi.
  assert (Hik : (i <= ext)%nat) by (apply lookup_lt_Some in Hb; lia).
  assert (Hti : take n bits ++ take i mid = take (n + i) bits).
  { rewrite take_take. replace (i `min` (ext + 1))%nat with i by lia. rewrite <- (take_window key n (n + i)) by lia. do 2 f_equal. lia. }
  assert (Ebit : b = key_bit (n + i) key).
  { apply lookup_take_Some in Hb as [Hb _]. rewrite lookup_drop, key_bit_lookup in Hb by lia. congruence. }
  rewrite app_assoc, Hti, Ebit. split; [|apply part_on_path; lia]. apply lookup_app_Some in Hi as [Hi|[Hi1 Hi2]].
  - apply lookup_replicate in Hi as [-> Hi]. apply repr_empty; [done|]. apply part_beside_path. lia.
  - rewrite length_replicate in *. replace i with ext in * by lia. rewrite Nat.sub_diag in Hi2. injection Hi2 as <-.
    by replace (n + ext)%nat with c in * by lia.
Qed.
End Distinct.

Lemma construct_subtree_with_new_leaf_builds g h hash : length g = length h ->
  builds g base hist' (take n bits) (construct_subtree_with_new_leaf key blob (mkLeafNode k0 v0 hash) n) h.
Proof.
  intros Hg. unfold construct_subtree_with_new_leaf. cbn [ln_key ln_value]. case_bool_decide as Ek.
  - destruct (new_leaf_builds g base hist' (take n bits) h key blob (Blob blob) Hg) as (new & gnew & l & Hl & E & Hr & Hs); [|by left|].
    + rewrite part_path, Hp by done. unfold put_entry. cbn. by rewrite bool_decide_eq_true_2.
    + exists new, gnew, l. rewrite (m_bind_run _ _ _ _ _ E). done.
  - destruct (common_facts Ek) as ([Hc1 Hc2] & _). destruct (mid_window Ek) as (Hwin & Hmidl & Hmid).
    destruct (new_leaf_builds g base hist' (take (S c) bits) h key blob (Blob blob) Hg) as (new1 & g1 & l1 & Hl1 & E1 & Hr1 & Hs1);
      [by apply part_new_leaf|by left|].
    eapply builds_step; [exact Hl1|exact E1| |done]. cbv beta zeta. fold c.
    apply (builds_run _ _ _ _ _ _ _ tt); [unfold m_lift, assert_; by rewrite (proj2 (Nat.leb_le _ _) Hc1)|].
    destruct (new_leaf_builds (g ++ g1) base hist' (take c bits ++ [negb (key_bit c key)]) (h ++ new1) k0 b0 v0) as (new2 & g2 & l2 & Hl2 & E2 & Hr2 & Hs2);
      [rewrite !length_app; lia|by apply part_existing_leaf|by apply new_leaf_value|].
    eapply builds_step; [exact Hl2|exact E2| |done]. cbv beta.
    eapply (builds_step _ _ _ _ _ _ _ _ [Empty] [([], [])]); [done|done| |done]. cbv beta. rewrite Hwin.
    set (le := length ((h ++ new1) ++ new2)).
    replace (l2 :: replicate (c - n) le) with (rev (replicate (c - n) le ++ [l2])) by (rewrite rev_app_distr, rev_replicate; done).
    apply construct_subtree_builds; [rewrite !length_app; cbn; lia|rewrite Hmid, take_bits_length; lia| | |].
    + apply extension_beside; [done|unfold le; by rewrite list_lookup_middle|by apply repr_app].
    + rewrite Hmid. by do 2 apply repr_app.
    + by do 2 apply solid_app.
Qed.
End WithNewLeaf.

(** ** Inserting in a part that is in storage *)

Context `{!PlaceholderFresh}.

Lemma part_hash_nil hist bs : part hist bs = [] -> part_hash hist bs = SPARSE_MERKLE_PLACEHOLDER_HASH.
Proof. intros Hp. unfold part_hash. rewrite Hp. by destruct (_ - _)%nat. Qed.

(** A path whose part is as in storage. *)
Definition in_storage (base hist : entries) (bs : list bool) : Prop :=
  (length bs <= HASH_LENGTH_IN_BITS)%nat /\ extends (fun k => under bs k) base hist /\ deep base bs /\ U bs.

Lemma new_from_hash_ok base hist bs h : in_storage base hist bs -> exists node,
  new_from_hash (part_hash base bs) h = (h ++ [node], Ok (length h)) /\ forall g, repr (h ++ [node]) g base hist bs (length h).
Proof.
  intros (Hl & He & Hd & Hu). unfold new_from_hash. case_bool_decide as Eh; cbn [negb].
  - exists Empty. split; [done|]. intros g. apply repr_empty; [by rewrite list_lookup_middle|]. rewrite (extends_part base hist bs) by done.
    destruct (decide (part base bs = [])) as [|Hne]; [done|]. by apply part_hash_fresh in Hne.
  - exists (Subtree (mkSubtreeNode (part_hash base bs))). split.
    + unfold new_subtree. rewrite (m_bind_lift _ _ _ (mkSubtreeNode (part_hash base bs))); [done|]. unfold subtree_node_new.
      by rewrite bool_decide_eq_false_2.
    + intros g. apply repr_subtree; [by rewrite list_lookup_middle| |done..]. intros Hp. by apply Eh, part_hash_nil.
Qed.

Lemma sibling_nodes_ok base hist ps : forall h, Forall (in_storage base hist) ps -> exists new ls,
  sibling_nodes (map (part_hash base) ps) h = (h ++ new, Ok ls) /\ Forall2 (fun p l => forall g, repr (h ++ new) g base hist p l) ps ls.
Proof.
  induction ps as [|p ps IH]; intros h Hps; cbn [map sibling_nodes].
  { exists [], []. rewrite app_nil_r. split; [done|constructor]. }
  apply list.Forall_cons in Hps as [Hp Hps]. destruct (new_from_hash_ok base hist p h Hp) as (node & E & Hr).
  destruct (IH (h ++ [node]) Hps) as (new & ls & E' & Hls). exists ([node] ++ new), (length h :: ls). rewrite app_assoc. split.
  - rewrite (m_bind_run _ _ _ _ _ E), (m_bind_run _ _ _ _ _ E'). done.
  - constructor; [|done]. intros g. specialize (Hr g). eapply repr_mono; [| |exact Hr]; [intros; by apply lookup_app_l_Some|done].
Qed.

Section AtSubtree.
Context (base hist : entries) (key : HashValue) (blob : AccountStateBlob) (n : nat).
Notation bits := (iter_bits key).
Notation hist' := (hist ++ [(key, blob)]).
Context (Hn : (n <= HASH_LENGTH_IN_BITS)%nat) (Hs : in_storage base hist (take n bits)).
Context (leaf : option (HashValue * AccountStateBlob)) (sibs : list HashValue).
Context (Eref : ref_proof HASH_LENGTH_IN_BITS 0 key (state base) = (leaf, sibs)).
Notation pl := (length sibs).
Notation beside_path i := (take i bits ++ [negb (key_bit i key)]).

Lemma proof_facts : (n <= pl <= HASH_LENGTH_IN_BITS)%nat /\
  (forall i, (i < pl)%nat -> (2 <= length (part base (take i bits)))%nat) /\
  (forall i s, sibs !! i = Some s -> s = part_hash base (beside_path i)) /\
  part base (take pl bits) = match leaf with Some e => [e] | None => [] end.
Proof.
  pose proof (ref_proof_parts base key) as Hp. rewrite Eref in Hp. destruct Hp as (Hl & Hi & He). split_and!; [|done| | |done].
  - destruct (Nat.le_gt_cases n pl) as [|Hlt]; [done|]. exfalso. destruct Hs as (_ & _ & Hd & _). specialize (Hd pl).
    rewrite take_bits_length, take_take in Hd by done. specialize (Hd Hlt). rewrite Nat.min_l in Hd by lia. rewrite He in Hd.
    destruct leaf; cbn in Hd; lia.
  - intros i Hip. destruct (lookup_lt_is_Some_2 sibs i Hip) as [s Es]. by apply (Hi i s).
  - intros i s Es. by apply (Hi i s).
Qed.

Lemma path_extends m q : (n <= m)%nat -> extends (fun k => under (take m bits ++ q) k) base hist.
Proof.
  intros Hm. destruct Hs as (_ & He & _). eapply extends_weaken; [|exact He]. intros k Hu. destruct (below_pre key n m q Hm) as [q' E].
  rewrite E in Hu. by apply under_app in Hu.
Qed.

Lemma path_part m : (n <= m <= HASH_LENGTH_IN_BITS)%nat -> part hist (take m bits) = part base (take m bits).
Proof.
  intros Hm. apply extends_part; [rewrite take_bits_length; lia|]. pose proof (path_extends m [] ltac:(lia)) as He. by rewrite app_nil_r in He.
Qed.

Lemma beside_in_storage i : (n <= i < pl)%nat -> in_storage base hist' (beside_path i).
Proof.
  intros Hi. destruct proof_facts as (Hpl & H2 & _). split_and!; [apply length_beside; lia| | |].
  - eapply extends_trans; [apply path_extends; lia|]. apply extends_snoc. intros Hu. apply key_under_other in Hu; [|lia].
    by destruct (key_bit i key).
  - intros m Hm. rewrite length_app, take_bits_length in Hm by lia. cbn in Hm.
    rewrite take_app_le, take_take, Nat.min_l by (rewrite ?take_bits_length; lia). apply H2. lia.
  - destruct (below_pre key n i [negb (key_bit i key)]) as [q ->]; [lia|]. apply HU, Hs.
Qed.

Notation window := (take (pl - n) (drop n bits)).

Lemma storage_siblings h : exists new ls,
  sibling_nodes (take (HASH_LENGTH_IN_BITS - n + pl - HASH_LENGTH_IN_BITS) (rev sibs)) h = (h ++ new, Ok (rev ls)) /\
  forall g, beside (h ++ new) g base hist' (take n bits) window ls.
Proof.
  destruct proof_facts as (Hpl & H2 & Hsib & _). set (ps := map (fun i => beside_path i) (seq n (pl - n))).
  assert (Hps : Forall (in_storage base hist') (rev ps)).
  { apply list.Forall_forall. intros q Hq. rewrite list_elem_of_In, <- in_rev in Hq. unfold ps in Hq. apply in_map_iff in Hq as (i & <- & Hi).
    apply in_seq in Hi. apply beside_in_storage. lia. }
  assert (Eh : take (HASH_LENGTH_IN_BITS - n + pl - HASH_LENGTH_IN_BITS) (rev sibs) = map (part_hash base) (rev ps)).
  { replace (HASH_LENGTH_IN_BITS - n + pl - HASH_LENGTH_IN_BITS)%nat with (length (drop n sibs)) by (rewrite length_drop; lia).
    rewrite <- (take_drop n sibs) at 2. rewrite rev_app_distr, <- (length_rev (drop n sibs)), take_app_length, map_rev. f_equal.
    apply list_eq_same_length with (n := (pl - n)%nat); [unfold ps; by rewrite !length_map, length_seq|by rewrite length_drop|].
    intros i x y Hi Hx Hy. rewrite lookup_drop in Hx. apply Hsib in Hx as ->. unfold ps in Hy. rewrite map_map in Hy.
    rewrite list_lookup_fmap, lookup_seq_lt in Hy by lia. cbn in Hy. congruence. }
  destruct (sibling_nodes_ok base hist' (rev ps) h Hps) as (new & ls & E & Hls). exists new, (rev ls). rewrite rev_involutive, Eh. split; [done|].
  intros g. pose proof (Forall2_length Hls) as Hlen. unfold ps in Hlen. rewrite length_rev, length_map, length_seq in Hlen.
  split; [rewrite length_rev, length_take, length_drop, iter_bits_length; lia|]. intros i b s Hb Hi.
  assert (Hi' : (i < pl - n)%nat) by (apply lookup_lt_Some in Hi; rewrite length_rev in Hi; lia).
  assert (Hti : take n bits ++ take i window = take (n + i) bits).
  { rewrite take_take, Nat.min_l by lia. rewrite <- (take_window key n (n + i)) by lia. do 2 f_equal. lia. }
  assert (Ebit : b = key_bit (n + i) key).
  { apply lookup_take_Some in Hb as [Hb _]. rewrite lookup_drop, key_bit_lookup in Hb by lia. congruence. }
  rewrite app_assoc, Hti, Ebit. split.
  - rewrite rev_alt in Hi. change (rev_append ls []) with (reverse ls) in Hi. apply Forall2_reverse in Hls.
    rewrite rev_alt in Hls. change (rev_append ps []) with (reverse ps) in Hls. rewrite reverse_involutive in Hls.
    assert (Hq : ps !! i = Some (beside_path (n + i))) by (unfold ps; by rewrite list_lookup_fmap, lookup_seq_lt by lia).
    exact (Forall2_lookup_lr _ _ _ _ _ _ Hls Hq Hi g).
  - pose proof (part_grows hist [(key, blob)] (take (n + i) bits)) as Hgr. rewrite take_bits_length in Hgr by lia. specialize (Hgr ltac:(lia)).
    rewrite path_part in Hgr by lia. specialize (H2 (n + i)%nat ltac:(lia)). lia.
Qed.

Lemma window_rev : drop (HASH_LENGTH_IN_BITS - pl) (rev (drop n bits)) = rev window.
Proof.
  destruct proof_facts as (Hpl & _). rewrite <- (take_drop (pl - n) (drop n bits)) at 1.
  rewrite rev_app_distr. apply drop_app_length'. rewrite length_rev, !length_drop, iter_bits_length. lia.
Qed.

(** The place the proof leads to. *)
Lemma proof_end_builds g h : length g = length h -> builds g base hist' (take pl bits)
  (match leaf_of <$> leaf with
   | Some existing_leaf => construct_subtree_with_new_leaf key blob (leaf_node_from existing_leaf) (length (rev sibs))
   | None => new_leaf key (Blob blob)
   end) h.
Proof.
  intros Hg. destruct proof_facts as (Hpl & _ & _ & He). rewrite length_rev. destruct leaf as [[k0 b0]|]; cbn [fmap option_fmap option_map].
  - apply (construct_subtree_with_new_leaf_builds base hist key blob pl k0 b0); [lia|by rewrite path_part| |done]. right.
    assert (Hin : (k0, b0) ∈ part base (take pl bits)) by (rewrite He; by left). apply part_elem in Hin as [Hin Hu]; [|rewrite take_bits_length; lia].
    split_and!; [done..|]. eapply extends_weaken; [|apply (path_extends pl []); lia]. intros k ->. by rewrite app_nil_r.
  - apply (new_leaf_builds _ _ _ _ _ key blob); [done| |by left]. rewrite part_path, path_part, He by lia. done.
Qed.
End AtSubtree.

(** The reader has proofs from the state in storage. *)
Definition reads_base (base : entries) (reader : HashValue -> option SparseMerkleProof) : Prop :=
  forall key pf, reader key = Some pf -> pf = ref_sparse_proof key (state base).

Definition bottom (h : list Node) (l : Loc) : Prop := match h !! l with Some (Internal _) => False | _ => True end.

Section Update.
Context (base : entries) (reader : HashValue -> option SparseMerkleProof) (Hreader : reads_base base reader).

Lemma subtree_builds hist key blob n l h g hash : length g = length h -> (n <= HASH_LENGTH_IN_BITS)%nat ->
  h !! l = Some (Subtree hash) -> in_storage base hist (take n (iter_bits key)) -> reader key <> None ->
  builds g base (hist ++ [(key, blob)]) (take n (iter_bits key)) (construct_subtree_at_bottom l key blob (drop n (iter_bits key)) reader) h.
Proof.
  intros Hg Hn Hl Hst Hpf. destruct (reader key) as [pf|] eqn:Er; [|done].
  destruct (ref_proof HASH_LENGTH_IN_BITS 0 key (state base)) as [leaf sibs] eqn:Eref.
  assert (pf = mkSparseMerkleProof (leaf_of <$> leaf) (rev sibs)) as ->
    by (rewrite (Hreader _ _ Er); unfold SparseMerkleTree.ref_sparse_proof; by rewrite Eref).
  destruct (proof_facts base hist key n Hn Hst leaf sibs Eref) as (Hpl & _).
  apply (builds_run _ _ _ _ _ _ _ (Subtree hash)); [exact (read_lock_ok _ _ _ Hl)|].
  apply (builds_run _ _ _ _ _ _ _ (mkSparseMerkleProof (leaf_of <$> leaf) (rev sibs))); [unfold m_lift; by rewrite Er|].
  cbn [smp_leaf smp_siblings]. destruct (proof_end_builds base hist key blob n Hn Hst leaf sibs Eref g h Hg) as (new & gnew & l' & Hl' & E & Hr & Hsol).
  eapply builds_step; [exact Hl'|exact E| |done]. cbv beta zeta. rewrite length_drop, iter_bits_length, length_rev.
  rewrite (proj2 (Nat.leb_le _ _)) by lia. rewrite (proj2 (Nat.leb_le (length sibs) _)) by lia.
  destruct (storage_siblings base hist key blob n Hn Hst leaf sibs Eref (h ++ new)) as (new2 & ls & E2 & Hbes).
  eapply (builds_step _ _ _ _ _ _ _ _ new2 (replicate (length new2) ([], []))); [by rewrite length_replicate|exact E2| |done]. cbv beta.
  rewrite (window_rev base hist key n Hn Hst leaf sibs Eref).
  assert (Hw : take n (iter_bits key) ++ take (length sibs - n) (drop n (iter_bits key)) = take (length sibs) (iter_bits key)) by (apply take_window; lia).
  apply construct_subtree_builds; [rewrite !length_app, length_replicate; lia|rewrite Hw, take_bits_length; lia|done| |by apply solid_app].
  rewrite Hw. by apply repr_app.
Qed.

Lemma construct_subtree_at_bottom_ok hist key blob n l h g : length g = length h -> (n <= HASH_LENGTH_IN_BITS)%nat ->
  repr h g base hist (take n (iter_bits key)) l -> bottom h l ->
  let m := construct_subtree_at_bottom l key blob (drop n (iter_bits key)) reader in
  builds g base (hist ++ [(key, blob)]) (take n (iter_bits key)) m h \/ (m h = (h, Err MissingProof) /\ reader key = None /\ U (take n (iter_bits key))).
Proof.
  intros Hg Hn Hr Hb m. pose proof (take_bits_length key n Hn) as Htl.
  inversion Hr as [? ? Hl Hp|? ? k0 b0 v0 since Hl Hp Hv|? ? Hl Hp He Hd Hu|? ? ? ? ? Hl]; subst.
  - left. apply (builds_run _ _ _ _ _ _ _ Empty); [exact (read_lock_ok _ _ _ Hl)|].
    apply (new_leaf_builds _ _ _ _ _ key blob); [done| |by left]. by rewrite part_path, Hp by done.
  - left. eapply builds_run; [exact (read_lock_ok _ _ _ Hl)|]. cbv beta iota. rewrite length_drop, iter_bits_length.
    replace (HASH_LENGTH_IN_BITS - (HASH_LENGTH_IN_BITS - n))%nat with n by lia. by apply (construct_subtree_with_new_leaf_builds base hist key blob n k0 b0).
  - destruct (reader key) as [pf|] eqn:Er; [left|right].
    + eapply subtree_builds; [done..| |by rewrite Er]. split_and!; [lia|done|done|done].
    + split; [|by split]. unfold m, construct_subtree_at_bottom. rewrite (m_bind_run _ _ _ _ _ (read_lock_ok _ _ _ Hl)). cbv beta iota. unfold m_bind, m_lift. by rewrite Er.
  - unfold bottom in Hb. by rewrite Hl in Hb.
Qed.

Lemma beside_cons h g hist pre b bs s sibs : repr h g base hist (pre ++ [negb b]) s -> (2 <= length (part hist pre))%nat ->
  beside h g base hist (pre ++ [b]) bs sibs -> beside h g base hist pre (b :: bs) (s :: sibs).
Proof.
  intros Hr Hp [Hl Hs]. split; [cbn; lia|]. intros [|i] b' s' Hb Hi; cbn in Hb, Hi.
  - injection Hb as <-. injection Hi as <-. cbn. by rewrite app_nil_r.
  - specialize (Hs i b' s' Hb Hi). by rewrite <- !app_assoc in Hs.
Qed.

(** The search follows the key to the bottom. *)
Lemma find_bottom_ok h g hist key rest : forall pre l bp sp, iter_bits key = pre ++ rest -> repr h g base hist pre l ->
  exists bs rest' l' sibs, rest = bs ++ rest' /\ find_bottom rest l bp sp h = (h, Ok (l', rest', bp ++ bs, sp ++ sibs)) /\
    repr h g base hist (pre ++ bs) l' /\ bottom h l' /\ beside h g base hist pre bs sibs.
Proof.
  assert (Hstop : forall pre rest l bp sp, repr h g base hist pre l -> bottom h l ->
    exists bs rest' l' sibs, rest = bs ++ rest' /\ find_bottom rest l bp sp h = (h, Ok (l', rest', bp ++ bs, sp ++ sibs)) /\
    repr h g base hist (pre ++ bs) l' /\ bottom h l' /\ beside h g base hist pre bs sibs).
  { intros pre rest0 l bp sp Hr Hb. exists [], rest0, l, []. rewrite !app_nil_r. split_and!; [done| |done|done|done].
    unfold bottom in Hb. inversion Hr as [? ? Hl|? ? ? ? ? ? Hl|? ? Hl|? ? ? ? ? Hl]; rewrite Hl in Hb; try done;
      destruct rest0; cbn [find_bottom]; rewrite (m_bind_run _ _ _ _ _ (read_lock_ok _ _ _ Hl)); done. }
  induction rest as [|b rest IH]; intros pre l bp sp Hk Hr.
  all: pose proof Hr as Hr'; inversion Hr' as [? ? Hl|? ? ? ? ? ? Hl|? ? Hl|? ? l1 l2 since Hl Hp Hg He Hc1 Hc2]; subst;
    try (apply Hstop; [done|unfold bottom; by rewrite Hl]).
  - exfalso. rewrite app_nil_r in Hk. destruct (part_short _ _ Hp); rewrite <- Hk, iter_bits_length in *; lia.
  - cbn [find_bottom]. rewrite (m_bind_run _ _ _ _ _ (read_lock_ok _ _ _ Hl)). cbn [in_left_child in_right_child].
    assert (Hk' : iter_bits key = (pre ++ [b]) ++ rest) by (by rewrite <- app_assoc).
    assert (Hc : repr h g base hist (pre ++ [b]) (if b then l2 else l1) /\ repr h g base hist (pre ++ [negb b]) (if b then l1 else l2)) by (by destruct b).
    destruct Hc as [Hc Hc']. destruct (IH _ _ (bp ++ [b]) (sp ++ [if b then l1 else l2]) Hk' Hc) as (bs & rest' & l' & sibs & -> & E & Hr2 & Hb & Hbes).
    exists (b :: bs), rest', l', ((if b then l1 else l2) :: sibs). rewrite <- !app_assoc in E. rewrite <- app_assoc in Hr2.
    split_and!; [done|by destruct b|done|done|by apply beside_cons].
Qed.

(** The siblings of the path to the new key are as before. *)
Lemma beside_frame h g hist key blob bs sibs : under bs key -> beside h g base hist [] bs sibs -> beside h g base (hist ++ [(key, blob)]) [] bs sibs.
Proof.
  intros Hu [Hl Hs]. split; [done|]. intros i b s Hb Hi. destruct (Hs i b s Hb Hi) as [Hr Hp]. cbn [app] in *.
  pose proof (under_length _ _ Hu) as Hlen. pose proof (lookup_lt_Some _ _ _ Hb) as Hib. rewrite (under_eq _ _ Hu) in Hb.
  assert (Hti : take i bs = take i (iter_bits key)) by (rewrite (under_eq _ _ Hu), take_take; f_equal; lia). rewrite Hti in *.
  apply lookup_take_Some in Hb as [Hb _]. rewrite key_bit_lookup in Hb by lia. injection Hb as <-. split.
  - eapply repr_frame; [apply length_beside; lia| |done]. apply extends_snoc. intros Hu'. apply key_under_other in Hu'; [|lia]. by destruct (key_bit i key).
  - pose proof (part_grows hist [(key, blob)] (take i (iter_bits key))) as Hgr. rewrite take_bits_length in Hgr by lia. lia.
Qed.

Lemma update_one_ok hist key blob root h g : length g = length h -> repr h g base hist [] root ->
  builds g base (hist ++ [(key, blob)]) [] (update_one root key blob reader) h \/
  (update_one root key blob reader h = (h, Err MissingProof) /\ reader key = None /\ exists bs, under bs key /\ U bs).
Proof.
  intros Hg Hr. destruct (find_bottom_ok h g hist key (iter_bits key) [] root [] [] eq_refl Hr) as (bs & rest & l & sibs & Ek & E & Hl & Hb & Hbes).
  cbn [app] in E, Hl. assert (Hu : under bs key) by (by exists rest). pose proof (under_length _ _ Hu) as Hlen. set (n := length bs) in *.
  assert (Ebs : bs = take n (iter_bits key)) by (by apply under_eq).
  assert (Er : rest = drop n (iter_bits key)) by (rewrite Ek; unfold n; by rewrite drop_app_length). rewrite Er in E.
  unfold update_one. rewrite Ebs in Hl. destruct (construct_subtree_at_bottom_ok hist key blob n l h g Hg Hlen Hl Hb) as [Hbld|(Em & Hnone & Hun)].
  - left. eapply builds_run; [exact E|]. cbv beta iota. destruct Hbld as (new & gnew & l' & Hl' & E' & Hr' & Hs').
    eapply builds_step; [exact Hl'|exact E'| |done]. rewrite <- Ebs in Hr'. apply construct_subtree_builds; [rewrite !length_app; lia|done| |done|done].
    apply beside_app. by apply beside_frame.
  - right. split_and!; [|done|exists bs; by rewrite Ebs at 2]. rewrite (m_bind_run _ _ _ _ _ E). cbv beta iota. unfold m_bind. by rewrite Em.
Qed.

Lemma update_all_ok us : forall hist root h g, length g = length h -> repr h g base hist [] root -> exists new gnew, length new = length gnew /\
  ((exists l, update_all root us reader h = (h ++ new, Ok l) /\ repr (h ++ new) (g ++ gnew) base (hist ++ us) [] l) \/
   (update_all root us reader h = (h ++ new, Err MissingProof) /\ exists k b bs, (k, b) ∈ us /\ reader k = None /\ under bs k /\ U bs)).
Proof.
  induction us as [|[k b] us IH]; intros hist root h g Hg Hr; cbn [update_all].
  { exists [], []. split; [done|]. left. exists root. by rewrite !app_nil_r. }
  destruct (update_one_ok hist k b root h g Hg Hr) as [(new & gnew & l & Hl & E & Hr' & _)|(E & Hnone & bs & Hu & HUb)].
  - destruct (IH (hist ++ [(k, b)]) l (h ++ new) (g ++ gnew)) as (new' & gnew' & Hl' & Hor); [rewrite !length_app; lia|done|].
    exists (new ++ new'), (gnew ++ gnew'). split; [rewrite !length_app; lia|]. rewrite (m_bind_run _ _ _ _ _ E), !app_assoc.
    destruct Hor as [(l' & E' & Hr2)|(E' & k' & b' & bs & Hin & Hmiss)].
    + left. exists l'. split; [done|]. by rewrite <- (app_assoc hist) in Hr2.
    + right. split; [done|]. exists k', b', bs. split; [by right|done].
  - exists [], []. split; [done|]. right. rewrite app_nil_r. split; [unfold m_bind; by rewrite E|]. exists k, b, bs. split; [by left|done].
Qed.
End Update.

(** ** Queries *)

(** What a query tells about the state after [hist], given that storage has the state after [base]. *)
Definition status_ok (base hist : entries) (key : HashValue) (status : AccountStatus) : Prop :=
  match status with
  | ExistsInScratchPad blob => lookup_entry key (state hist) = Some blob
  | ExistsInDB => lookup_entry key (state hist) = lookup_entry key (state base) /\ lookup_entry key (state base) <> None
  | DoesNotExist => lookup_entry key (state hist) = None
  | Unknown => lookup_entry key (state hist) = lookup_entry key (state base)
  end.

Lemma lookup_part hist bs key : under bs key -> lookup_entry key (state hist) = lookup_entry key (part hist bs).
Proof.
  intros Hu. apply option_eq. intros b. rewrite !(lookup_entry_Some SparseMerkleInternalNode_hash) by (apply state_nodup || apply part_nodup).
  rewrite part_elem by (by eapply under_length). naive_solver.
Qed.

Lemma smt_get_ok h g base hist root key : repr h g base hist [] root ->
  exists status, smt_get (mkSparseMerkleTree root) key h = (h, Ok status) /\ status_ok base hist key status.
Proof.
  intros Hr. destruct (find_bottom_ok base h g hist key (iter_bits key) [] root [] [] eq_refl Hr) as (bs & rest & l & sibs & Ek & E & Hl & Hb & _).
  cbn [app] in Hl. assert (Hu : under bs key) by (by exists rest). pose proof (lookup_part hist bs key Hu) as Hlk.
  unfold smt_get. cbn [smt_root]. rewrite (m_bind_run _ _ _ _ _ E). cbv beta iota.
  inversion Hl as [? ? Hn Hp|? ? k b v since Hn Hp Hv|? ? Hn Hp He Hd Hun|? ? ? ? ? Hn]; subst;
    (rewrite (m_bind_run _ _ _ _ _ (read_lock_ok _ _ _ Hn))); cbv beta iota.
  - exists DoesNotExist. split; [done|]. cbn. by rewrite Hlk, Hp.
  - cbn [ln_key ln_value]. rewrite Hp in Hlk. cbn [lookup_entry] in Hlk. destruct (decide (key = k)) as [Ekk|Ekk].
    + subst k. rewrite bool_decide_eq_true_2 in Hlk |- * by done. destruct Hv as [->|(-> & Hin & _)]; [by eexists|].
      eexists. split; [done|]. cbn. apply (lookup_entry_Some SparseMerkleInternalNode_hash) in Hin; [|apply state_nodup]. rewrite Hlk, Hin. done.
    + rewrite bool_decide_eq_false_2 in Hlk by congruence. rewrite bool_decide_eq_false_2 by done. by eexists.
  - exists Unknown. split; [done|]. cbn. rewrite Hlk, (lookup_part base bs) by done. f_equal. apply extends_part; [by eapply under_length|done].
  - unfold bottom in Hb. by rewrite Hn in Hb.
Qed.

Lemma smt_root_hash_ok h g base hist root : repr h g base hist [] root ->
  smt_root_hash (mkSparseMerkleTree root) h = (h, Ok (state_root (state hist))).
Proof.
  intros Hr. destruct (repr_node h g base hist [] root (Nat.le_0_l _) Hr) as (node & E & Hh). unfold smt_root_hash. cbn [smt_root].
  rewrite (m_bind_run _ _ _ _ _ (read_lock_ok _ _ _ E)). by rewrite Hh.
Qed.

(** ** Pruning *)

(** [h'] is [h] with some nodes of the tree after [hist] replaced by their hashes. *)
Definition pruned (g : list (list bool * entries)) (hist : entries) (h h' : list Node) : Prop :=
  length h' = length h /\ forall l, h' !! l = h !! l \/ exists bs since,
    g !! l = Some (bs, since) /\ h' !! l = Some (Subtree (mkSubtreeNode (part_hash hist bs))) /\ solid h l /\
    extends (fun k => under bs k) since hist /\ part hist bs <> [] /\ deep hist bs.

Lemma pruned_refl g hist h : pruned g hist h h.
Proof. split; [done|]. by left. Qed.

Lemma pruned_write g hist h h1 l bs since : pruned g hist h h1 -> solid h l -> g !! l = Some (bs, since) ->
  extends (fun k => under bs k) since hist -> part hist bs <> [] -> deep hist bs ->
  pruned g hist h (<[l := Subtree (mkSubtreeNode (part_hash hist bs))]> h1).
Proof.
  intros [Hlen Hp] Hs Hg He Hne Hd. split; [by rewrite length_insert|]. intros l'. destruct (decide (l' = l)) as [->|Hl].
  - right. exists bs, since. split_and!; try done. apply list_lookup_insert_eq. rewrite Hlen. unfold solid in Hs.
    destruct (h !! l) eqn:E; [|done]. by apply lookup_lt_Some in E.
  - rewrite list_lookup_insert_ne by done. apply Hp.
Qed.

Lemma replace_ok h1 l node hist bs : (length bs <= HASH_LENGTH_IN_BITS)%nat -> node_hash node = part_hash hist bs -> part hist bs <> [] ->
  (let* subtree := m_lift (subtree_node_new (node_hash node)) in write_lock l (Subtree subtree)) h1 =
  (<[l := Subtree (mkSubtreeNode (part_hash hist bs))]> h1, Ok tt).
Proof.
  intros Hl Hh Hne. rewrite (m_bind_lift _ _ _ (mkSubtreeNode (part_hash hist bs))); [done|]. unfold subtree_node_new.
  rewrite Hh, bool_decide_eq_false_2; [done|]. by apply part_hash_fresh.
Qed.

Lemma deep_snoc hist bs b : deep hist bs -> (2 <= length (part hist bs))%nat -> deep hist (bs ++ [b]).
Proof.
  intros Hd Hp m Hm. rewrite length_app in Hm. cbn in Hm. destruct (decide (m = length bs)) as [->|]; [by rewrite take_app_length|].
  rewrite take_app_le by lia. apply Hd. lia.
Qed.

Lemma prune_node_ok h g base hist bs l : repr h g base hist bs l -> forall fuel h1, (length bs <= HASH_LENGTH_IN_BITS)%nat ->
  (HASH_LENGTH_IN_BITS - length bs < fuel)%nat -> deep hist bs -> pruned g hist h h1 ->
  exists h2, prune_node fuel l h1 = (h2, Ok tt) /\ pruned g hist h h2.
Proof.
  induction 1 as [bs l Hn Hp|bs l k b v since Hn Hp Hv Hg Hs|bs l Hn Hp Hb Hd Hun|bs l l1 l2 since Hn Hp Hg Hs Hr1 IH1 Hr2 IH2];
    intros [|fuel] h1 Hl Hf Hdp Hpr; try lia; cbn [prune_node];
    (destruct (proj2 Hpr l) as [Hsame|(bs' & since' & Hg' & Hsub & Hsol & _)];
      [rewrite Hn in Hsame; rewrite (m_bind_run _ _ _ _ _ (read_lock_ok _ _ _ Hsame))
      |rewrite (m_bind_run _ _ _ _ _ (read_lock_ok _ _ _ Hsub)); by exists h1]); cbv beta iota zeta.
  - by exists h1.
  - eexists. split; [eapply (replace_ok _ _ _ hist bs)|].
    + done.
    + cbn. unfold part_hash. rewrite Hp. by destruct (_ - _)%nat.
    + by rewrite Hp.
    + eapply pruned_write; try done; [unfold solid; by rewrite Hn|by rewrite Hp].
  - by exists h1.
  - pose proof (part_short_lt _ _ Hl Hp) as Hlt. cbn [in_left_child in_right_child].
    destruct (IH1 fuel h1) as (h2 & E2 & Hpr2); [by apply length_snoc_le|rewrite length_app; cbn; lia|by apply deep_snoc|done|].
    destruct (IH2 fuel h2) as (h3 & E3 & Hpr3); [by apply length_snoc_le|rewrite length_app; cbn; lia|by apply deep_snoc|done|].
    rewrite (m_bind_run _ _ _ _ _ E2), (m_bind_run _ _ _ _ _ E3). assert (Hne : part hist bs <> []) by (intros E; rewrite E in Hp; cbn in Hp; lia).
    eexists. split; [by apply (replace_ok _ _ _ hist bs)|]. eapply pruned_write; try done. unfold solid. by rewrite Hn.
Qed.


Lemma update_ok tree updates reader h g base hist : length g = length h -> reads_base base reader -> repr h g base hist [] (smt_root tree) ->
  exists new gnew, length new = length gnew /\
  ((exists tree', update tree updates reader h = (h ++ new, Ok tree') /\ repr (h ++ new) (g ++ gnew) base (hist ++ updates) [] (smt_root tree')) \/
   (update tree updates reader h = (h ++ new, Err MissingProof) /\ exists k b bs, (k, b) ∈ updates /\ reader k = None /\ under bs k /\ U bs)).
Proof.
  intros Hg Hrd Hr. destruct (update_all_ok base reader Hrd updates hist (smt_root tree) h g Hg Hr) as (new & gnew & Hl & [(l & E & Hr')|(E & Hmiss)]);
    exists new, gnew; (split; [done|]); unfold update.
  - left. exists (mkSparseMerkleTree l). by rewrite (m_bind_run _ _ _ _ _ E).
  - right. split; [|done]. unfold m_bind. by rewrite E.
Qed.

Lemma smt_prune_ok tree h g base hist : repr h g base hist [] (smt_root tree) -> exists h', smt_prune tree h = (h', Ok tt) /\ pruned g hist h h'.
Proof.
  intros Hr. apply (prune_node_ok h g base hist [] _ Hr); [cbn; lia|cbn [length]; lia| |apply pruned_refl]. intros m Hm. cbn in Hm. lia.
Qed.

Lemma repr_off h g base hist key bs l : ~ under bs key -> repr h g base hist bs l -> repr_in (fun bs => U bs /\ ~ under bs key) h g base hist bs l.
Proof.
  intros Hu Hr. induction Hr; [eapply repr_empty|eapply repr_leaf|eapply repr_subtree|eapply repr_internal]; eauto;
    [apply IHHr1|apply IHHr2]; by intros ?%under_app.
Qed.

Lemma find_bottom_known h g base hist key bs l : repr h g base hist bs l -> forall rest bp sp l' r' bp' sp', iter_bits key = bs ++ rest ->
  find_bottom rest l bp sp h = (h, Ok (l', r', bp', sp')) -> (forall n, h !! l' <> Some (Subtree n)) ->
  repr_in (fun bs => U bs /\ ~ under bs key) h g base hist bs l.
Proof.
  induction 1 as [bs l Hn Hp|bs l k b v since Hn Hp Hv Hg Hs|bs l Hn Hp Hb Hd Hun|bs l l1 l2 since Hn Hp Hg Hs Hr1 IH1 Hr2 IH2];
    intros rest bp sp l' r' bp' sp' Hk E Hsub.
  - by eapply repr_empty.
  - by eapply repr_leaf.
  - exfalso. destruct rest; cbn [find_bottom] in E; rewrite (m_bind_run _ _ _ _ _ (read_lock_ok _ _ _ Hn)) in E; injection E as <- _ _ _; by eapply Hsub.
  - destruct rest as [|b rest]; cbn [find_bottom] in E; rewrite (m_bind_run _ _ _ _ _ (read_lock_ok _ _ _ Hn)) in E; [done|].
    assert (Hk' : iter_bits key = (bs ++ [b]) ++ rest) by (by rewrite <- app_assoc).
    assert (Hoff : ~ under (bs ++ [negb b]) key).
    { intros [r Hr]. rewrite Hk, <- app_assoc in Hr. apply app_inv_head in Hr. injection Hr as Eb _. by destruct b. }
    destruct b; cbn [negb] in Hoff; (eapply repr_internal; [done..| |]); try (by apply repr_off); [by eapply IH2|by eapply IH1].
Qed.

(** A key that a query finds is nowhere left to storage. *)
Lemma smt_get_known h g base hist root key status : repr h g base hist [] root -> smt_get (mkSparseMerkleTree root) key h = (h, Ok status) ->
  status <> Unknown -> repr_in (fun bs => U bs /\ ~ under bs key) h g base hist [] root.
Proof.
  intros Hr Hget Hst. destruct (find_bottom_ok base h g hist key (iter_bits key) [] root [] [] eq_refl Hr) as (bs & rest & l & sibs & Ek & E & Hl & _).
  eapply (find_bottom_known h g base hist key [] root Hr (iter_bits key)); [done|exact E|]. intros n Hn. apply Hst.
  unfold smt_get in Hget. cbn [smt_root] in Hget. rewrite (m_bind_run _ _ _ _ _ E) in Hget. cbv beta iota in Hget.
  rewrite (m_bind_run _ _ _ _ _ (read_lock_ok _ _ _ Hn)) in Hget. by injection Hget as <-.
Qed.
End Parts_left.

Notation repr := (repr_in (fun _ => True)).
Context `{!PlaceholderFresh}.

(** Once a tree is committed, storage has its state, and the trees made from it represent
    what they did. *)
Lemma repr_rebase U h h' g base committed hist bs l : (length bs <= HASH_LENGTH_IN_BITS)%nat -> pruned g committed h h' ->
  extends (fun _ => False) base committed -> extends (fun _ => False) committed hist ->
  repr_in U h g base hist bs l -> repr h' g committed hist bs l.
Proof.
  intros Hl [_ Hpr] Hbc Hch Hr.
  assert (Hsub : forall l bs since, g !! l = Some (bs, since) -> extends (fun k => under bs k) since hist -> h' !! l = h !! l \/ repr h' g committed hist bs l).
  { intros l' bs' since Hg He. destruct (Hpr l') as [|(bs2 & since2 & Hg2 & Hn2 & _ & He2 & Hp2 & Hd2)]; [by left|right].
    rewrite Hg in Hg2. injection Hg2 as <- <-. apply repr_subtree; [done|done| |done|done]. by eapply extends_between. }
  induction Hr as [bs l Hn Hp|bs l k b v since Hn Hp Hv Hg Hs|bs l Hn Hp Hb Hd Hun|bs l l1 l2 since Hn Hp Hg Hs Hr1 IH1 Hr2 IH2].
  - apply repr_empty; [|done]. destruct (Hpr l) as [->|(? & ? & _ & _ & Hsol & _)]; [done|]. unfold solid in Hsol. by rewrite Hn in Hsol.
  - destruct (Hsub l bs since Hg Hs) as [Esame|]; [|done]. eapply repr_leaf; [by rewrite Esame|done| |done|done].
    destruct Hv as [->|(-> & Hin & Hk)]; [by left|right]. destruct (extends_between _ _ _ _ _ _ Hbc Hk Hch) as [Hk1 Hk2].
    split_and!; [done| |done]. by apply (extends_elem base committed).
  - destruct (extends_between _ _ _ _ _ _ Hbc Hb Hch) as [Hb1 Hb2]. pose proof (extends_part _ _ _ Hl Hb1) as Ep. destruct Hbc as (new & -> & _).
    apply repr_subtree; [|by rewrite Ep|done| |done].
    + destruct (Hpr l) as [->|(? & ? & _ & _ & Hsol & _)]; [|unfold solid in Hsol; by rewrite Hn in Hsol].
      rewrite Hn. unfold part_hash. by rewrite Ep.
    + intros m Hm. specialize (Hd m Hm). pose proof (part_grows base new (take m bs)) as Hgr. rewrite length_take in Hgr. lia.
  - pose proof (part_short_lt _ _ Hl Hp) as Hlt. destruct (Hsub l bs since Hg Hs) as [Esame|]; [|done].
    eapply repr_internal; [by rewrite Esame|done..| |]; [apply IH1|apply IH2]; by apply length_snoc_le.
Qed.

(** ** Any sequence of new trees, updates and commits *)

(** The nodes, the updates that are committed, and the trees in use, each with the history
    of updates that made it.  Updates are committed with the tree pruned, or by other means
    ([sp_advance]); trees that do not continue what is committed are dropped. *)
Record Scratch := mkScratch { sc_heap : list Node; sc_committed : entries; sc_trees : list (SparseMerkleTree * entries) }.

Inductive sp_step : Scratch -> Scratch -> Prop :=
| sp_new h h' committed trees tree :
    sparse_merkle_tree_new (state_root (state committed)) h = (h', Ok tree) ->
    sp_step (mkScratch h committed trees) (mkScratch h' committed ((tree, committed) :: trees))
| sp_update h h' committed trees tree hist updates reader tree' :
    (tree, hist) ∈ trees -> reads_base committed reader -> update tree updates reader h = (h', Ok tree') ->
    sp_step (mkScratch h committed trees) (mkScratch h' committed ((tree', hist ++ updates) :: trees))
| sp_update_failed h h' committed trees tree hist updates reader e :
    (tree, hist) ∈ trees -> reads_base committed reader -> update tree updates reader h = (h', Err e) ->
    sp_step (mkScratch h committed trees) (mkScratch h' committed trees)
| sp_advance h committed trees hist trees' :
    (forall t, t ∈ trees' -> t ∈ trees /\ hist `prefix_of` t.2) -> committed `prefix_of` hist ->
    sp_step (mkScratch h committed trees) (mkScratch h hist trees')
| sp_commit h h' committed trees tree hist trees' :
    (tree, hist) ∈ trees -> smt_prune tree h = (h', Ok tt) ->
    (forall t, t ∈ trees' -> t ∈ trees /\ hist `prefix_of` t.2) ->
    sp_step (mkScratch h committed trees) (mkScratch h' hist trees').

Definition scratch_ok (s : Scratch) : Prop := exists g, length g = length (sc_heap s) /\
  forall tree hist, (tree, hist) ∈ sc_trees s -> extends (fun _ => False) (sc_committed s) hist /\ repr (sc_heap s) g (sc_committed s) hist [] (smt_root tree).

Lemma prefix_extends h1 h2 : h1 `prefix_of` h2 -> extends (fun _ => False) h1 h2.
Proof. intros [r ->]. exists r. split; [done|]. by intros ? ? _ []. Qed.

Lemma state_in_storage hist : in_storage (fun _ => True) hist hist [].
Proof. split_and!; [cbn; lia|apply extends_refl| |done]. intros m Hm. cbn in Hm. lia. Qed.

Lemma sp_step_ok s s' : sp_step s s' -> scratch_ok s -> scratch_ok s'.
Proof.
  intros Hstep (g & Hg & Ht). destruct Hstep as [h h' committed trees tree E|h h' committed trees tree hist updates reader tree' Hin Hrd E|
    h h' committed trees tree hist updates reader e Hin Hrd E|h committed trees hist trees' Hsub Hpre|h h' committed trees tree hist trees' Hin E Hsub]; cbn [sc_heap sc_committed sc_trees] in *.
  - destruct (new_from_hash_ok (fun _ => True) committed committed [] h (state_in_storage committed)) as (node & En & Hr).
    unfold sparse_merkle_tree_new in E. change (state_root (state committed)) with (part_hash committed []) in E.
    rewrite (m_bind_run _ _ _ _ _ En) in E. injection E as <- <-. exists (g ++ [([], [])]). cbn [sc_heap sc_committed sc_trees]. split; [rewrite !length_app; cbn; lia|].
    intros t hist [[= -> ->]|Hin]%elem_of_cons; [split; [apply extends_refl|apply Hr]|]. destruct (Ht t hist Hin). split; [done|by apply repr_app].
  - destruct (Ht _ _ Hin) as [He Hr]. destruct (update_ok (fun _ => True) ltac:(done) tree updates reader h g committed hist Hg Hrd Hr) as (new & gnew & Hl & [(t & E' & Hr')|(E' & _)]);
      rewrite E in E'; [|done]. injection E' as -> ->. exists (g ++ gnew). cbn [sc_heap sc_committed sc_trees]. split; [rewrite !length_app; lia|].
    intros t2 hist2 [[= -> ->]|Hin2]%elem_of_cons.
    + split; [|done]. eapply extends_trans; [exact He|]. apply prefix_extends. by exists updates.
    + destruct (Ht t2 hist2 Hin2). split; [done|by apply repr_app].
  - destruct (Ht _ _ Hin) as [He Hr]. destruct (update_ok (fun _ => True) ltac:(done) tree updates reader h g committed hist Hg Hrd Hr) as (new & gnew & Hl & [(t & E' & Hr')|(E' & _)]);
      rewrite E in E'; [done|]. assert (h' = h ++ new) as -> by congruence. exists (g ++ gnew). cbn [sc_heap sc_committed sc_trees]. split; [rewrite !length_app; lia|].
    intros t2 hist2 Hin2. destruct (Ht t2 hist2 Hin2). split; [done|by apply repr_app].
  - exists g. cbn [sc_heap sc_committed sc_trees]. split; [done|]. intros t2 hist2 [Hin2 Hpre2%prefix_extends]%Hsub. split; [done|].
    destruct (Ht t2 hist2 Hin2) as [He2 Hr2]. apply prefix_extends in Hpre.
    apply (repr_rebase (fun _ => True) h h g committed hist hist2); [cbn; lia|apply pruned_refl|done..].
  - destruct (Ht _ _ Hin) as [He Hr]. destruct (smt_prune_ok (fun _ => True) tree h g committed hist Hr) as (h2 & E2 & Hpr). rewrite E in E2. injection E2 as <-.
    exists g. cbn [sc_heap sc_committed sc_trees]. split; [by rewrite (proj1 Hpr)|]. intros t2 hist2 [Hin2 Hpre%prefix_extends]%Hsub. split; [done|].
    destruct (Ht t2 hist2 Hin2) as [He2 Hr2]. apply (repr_rebase (fun _ => True) h h' g committed hist hist2); [cbn; lia|done..].
Qed.

(** C35: At every point of any sequence of new trees, updates and commits, every tree in use
    represents the entries in storage with its updates applied.  It has the root hash of the
    sparse Merkle tree over them, and answers every query from them or sends the reader to
    storage, which has the answer.  An update applies to them, unless a key it writes is in a
    part that is not in memory and comes without a proof.  Pruning succeeds. *)
Theorem scratchpad_refines s : rtc sp_step (mkScratch [] [] []) s -> forall tree hist, (tree, hist) ∈ sc_trees s ->
  let h := sc_heap s in
  smt_root_hash tree h = (h, Ok (state_root (state hist))) /\
  (forall key, exists status, smt_get tree key h = (h, Ok status) /\ status_ok (sc_committed s) hist key status) /\
  (forall updates reader, reads_base (sc_committed s) reader -> exists h',
    (exists tree', update tree updates reader h = (h', Ok tree') /\ smt_root_hash tree' h' = (h', Ok (state_root (state (hist ++ updates))))) \/
    (update tree updates reader h = (h', Err MissingProof) /\ exists key blob, (key, blob) ∈ updates /\ reader key = None)) /\
  (exists h', smt_prune tree h = (h', Ok tt)).
Proof.
  intros Hreach tree hist Hin h.
  assert (Hok : scratch_ok s).
  { apply (rtc_ind_r scratch_ok (mkScratch [] [] [])) with (2 := fun y z _ Hstep IH => sp_step_ok y z Hstep IH); [|exact Hreach].
    exists []. split; [done|]. intros ? ? Hn. by apply elem_of_nil in Hn. }
  destruct Hok as (g & Hg & Ht). destruct (Ht tree hist Hin) as [He Hr]. destruct tree as [root]. split_and!.
  - by apply (smt_root_hash_ok (fun _ => True) h g (sc_committed s)).
  - intros key. by apply (smt_get_ok (fun _ => True) h g).
  - intros updates reader Hrd. destruct (update_ok (fun _ => True) ltac:(done) _ updates reader h g _ hist Hg Hrd Hr) as (new & gnew & Hl & [([root'] & E & Hr')|Hm]); exists (h ++ new).
    + left. exists (mkSparseMerkleTree root'). split; [done|]. by apply (smt_root_hash_ok (fun _ => True) _ (g ++ gnew) (sc_committed s)).
    + right. destruct Hm as (Em & k & b & bs & Hin2 & Hnone & _). split; [done|]. by exists k, b.
  - destruct (smt_prune_ok (fun _ => True) _ h g _ hist Hr) as (h' & E & _). by exists h'.
Qed.
End Parts.
End ScratchpadProof.
