(* ===== verification/ConsensusTypes.v ===== *)
(** * The consensus data types

    [consensus/consensus-types/src]: blocks, votes, quorum and timeout certificates and
    the messages that carry them, with the checks each of them makes on its own. *)

From S2P Require Import Prelude U64 Crypto ValidatorVerifier LedgerInfo Accumulator.
From S2P Require Import AccumulatorProof.

Section ConsensusTypes.
Context `{Crypto}.

Definition Author : Type := AccountAddress.
Definition Round : Type := Z.

(** A signed transaction is kept serialized. *)
Definition Payload : Type := list Bytes.

(** ** Votes and quorum certificates *)

Record VoteData := mkVoteData { vd_proposed : BlockInfo; vd_parent : BlockInfo }.

#[global] Instance VoteData_eq_dec : EqDecision VoteData.
Proof. solve_decision. Defined.

Definition vote_data_verify (self : VoteData) : result string unit :=
  _ ← ensure (bi_epoch (vd_parent self) =? bi_epoch (vd_proposed self))
        "Parent and proposed epochs do not match"%string;
  _ ← ensure (bi_round (vd_parent self) <? bi_round (vd_proposed self))
        "Proposed round is less than parent round"%string;
  _ ← ensure (bi_timestamp_usecs (vd_parent self) <=? bi_timestamp_usecs (vd_proposed self))
        "Proposed happened before parent"%string;
  _ ← ensure (bi_version (vd_parent self) <=? bi_version (vd_proposed self))
        "Proposed version is less than parent version"%string;
  Ok tt.

Record QuorumCert := mkQuorumCert {
  qc_vote_data : VoteData;
  qc_signed_ledger_info : LedgerInfoWithSignatures
}.

#[global] Instance QuorumCert_eq_dec : EqDecision QuorumCert.
Proof. solve_decision. Defined.

Definition certified_block (self : QuorumCert) : BlockInfo := vd_proposed (qc_vote_data self).
Definition parent_block (self : QuorumCert) : BlockInfo := vd_parent (qc_vote_data self).
Definition qc_ledger_info (self : QuorumCert) : LedgerInfo := liws_ledger_info (qc_signed_ledger_info self).
Definition qc_commit_info (self : QuorumCert) : BlockInfo := li_commit_info (qc_ledger_info self).
Definition qc_ends_epoch (self : QuorumCert) : bool := li_ends_epoch (qc_ledger_info self).

Context `{!CryptoHash LedgerInfo, !CryptoHash VoteData}.

Definition certificate_for_genesis_from_ledger_info (ledger_info : LedgerInfo) (genesis_id : HashValue)
    : QuorumCert :=
  let ancestor := {|
    bi_epoch := u64_add (li_epoch ledger_info) 1; bi_round := 0; bi_id := genesis_id;
    bi_executed_state_id := li_transaction_accumulator_hash ledger_info;
    bi_version := li_version ledger_info; bi_timestamp_usecs := li_timestamp_usecs ledger_info;
    bi_next_epoch_state := None |} in
  let vote_data := {| vd_proposed := ancestor; vd_parent := ancestor |} in
  let li := {| li_commit_info := ancestor; li_consensus_data_hash := crypto_hash vote_data |} in
  {| qc_vote_data := vote_data;
     qc_signed_ledger_info := {| liws_ledger_info := li; liws_signatures := ∅ |} |}.

(** A certificate of round 0 is the genesis certificate of the epoch, which nobody
    signs. *)
Definition quorum_cert_verify (self : QuorumCert) (validator : ValidatorVerifier) : result string unit :=
  let vote_hash := crypto_hash (qc_vote_data self) in
  _ ← ensure (bool_decide (li_consensus_data_hash (qc_ledger_info self) = vote_hash))
        "Quorum Cert's hash mismatch LedgerInfo"%string;
  if bi_round (certified_block self) =? 0 then
    _ ← ensure (bool_decide (parent_block self = certified_block self))
          "Genesis QC has inconsistent parent block with certified block"%string;
    _ ← ensure (bool_decide (certified_block self = qc_commit_info self))
          "Genesis QC has inconsistent commit block with certified block"%string;
    _ ← ensure (bool_decide (liws_signatures (qc_signed_ledger_info self) = ∅))
          "Genesis QC should not carry signatures"%string;
    Ok tt
  else
    _ ← map_err (fun _ => "Fail to verify QuorumCert"%string)
          (verify_signatures (qc_signed_ledger_info self) validator);
    vote_data_verify (qc_vote_data self).

(** ** Timeouts *)

Record Timeout := mkTimeout { to_epoch : Z; to_round : Z }.

#[global] Instance Timeout_eq_dec : EqDecision Timeout.
Proof. solve_decision. Defined.

Record TimeoutCertificate := mkTimeoutCertificate {
  tc_timeout : Timeout;
  tc_signatures : gmap Author Signature
}.

#[global] Instance TimeoutCertificate_eq_dec : EqDecision TimeoutCertificate.
Proof. solve_decision. Defined.

Definition timeout_certificate_new (timeout : Timeout) : TimeoutCertificate :=
  {| tc_timeout := timeout; tc_signatures := ∅ |}.
Definition tc_epoch (self : TimeoutCertificate) : Z := to_epoch (tc_timeout self).
Definition tc_round (self : TimeoutCertificate) : Z := to_round (tc_timeout self).

Definition tc_add_signature (self : TimeoutCertificate) (author : Author) (sig : Signature)
    : TimeoutCertificate :=
  {| tc_timeout := tc_timeout self;
     tc_signatures :=
       match tc_signatures self !! author with
       | Some _ => tc_signatures self
       | None => <[author := sig]> (tc_signatures self)
       end |}.

Definition tc_remove_signature (self : TimeoutCertificate) (author : Author) : TimeoutCertificate :=
  {| tc_timeout := tc_timeout self; tc_signatures := delete author (tc_signatures self) |}.

Context `{!CryptoHash Timeout}.

Definition timeout_sign (self : Timeout) (signer : ValidatorSigner) : Signature := signer_sign signer self.

Definition timeout_certificate_verify (self : TimeoutCertificate) (validator : ValidatorVerifier)
    : result string unit :=
  map_err (fun _ => "Failed to verify TimeoutCertificate"%string)
    (verify_aggregated_struct_signature validator (tc_timeout self) (tc_signatures self)).

(** ** [Vote] *)

Record Vote := mkVote {
  vote_data : VoteData;
  vote_author : Author;
  vote_ledger_info : LedgerInfo;
  vote_signature : Signature;
  vote_timeout_signature : option Signature
}.

#[global] Instance Vote_eq_dec : EqDecision Vote.
Proof. solve_decision. Defined.

Definition vote_new (vd : VoteData) (author : Author) (ledger_info_placeholder : LedgerInfo)
    (validator_signer : ValidatorSigner) : Vote :=
  let li := {| li_commit_info := li_commit_info ledger_info_placeholder;
               li_consensus_data_hash := crypto_hash vd |} in
  {| vote_data := vd; vote_author := author; vote_ledger_info := li;
     vote_signature := signer_sign validator_signer li; vote_timeout_signature := None |}.

Definition add_timeout_signature (self : Vote) (sig : Signature) : Vote :=
  match vote_timeout_signature self with
  | Some _ => self
  | None => {| vote_data := vote_data self; vote_author := vote_author self;
               vote_ledger_info := vote_ledger_info self; vote_signature := vote_signature self;
               vote_timeout_signature := Some sig |}
  end.

Definition vote_timeout (self : Vote) : Timeout :=
  {| to_epoch := bi_epoch (vd_proposed (vote_data self)); to_round := bi_round (vd_proposed (vote_data self)) |}.
Definition vote_epoch (self : Vote) : Z := bi_epoch (vd_proposed (vote_data self)).
Definition vote_round (self : Vote) : Z := bi_round (vd_proposed (vote_data self)).
Definition vote_is_timeout (self : Vote) : bool :=
  match vote_timeout_signature self with Some _ => true | None => false end.

Definition vote_verify (self : Vote) (validator : ValidatorVerifier) : result string unit :=
  _ ← ensure (bool_decide (li_consensus_data_hash (vote_ledger_info self) = crypto_hash (vote_data self)))
        "Vote's hash mismatch with LedgerInfo"%string;
  _ ← map_err (fun _ => "Failed to verify Vote"%string)
        (verifier_verify validator (vote_author self) (vote_ledger_info self) (vote_signature self));
  match vote_timeout_signature self with
  | Some timeout_signature =>
    map_err (fun _ => "Failed to verify Timeout Vote"%string)
      (verifier_verify validator (vote_author self) (vote_timeout self) timeout_signature)
  | None => Ok tt
  end.

(** ** [BlockData] and [Block] *)

Inductive BlockType : Type :=
| Proposal (payload : Payload) (author : Author)
| NilBlock
| Genesis.

#[global] Instance BlockType_eq_dec : EqDecision BlockType.
Proof. solve_decision. Defined.

Record BlockData := mkBlockData {
  bd_epoch : Z;
  bd_round : Z;
  bd_timestamp_usecs : Z;
  bd_quorum_cert : QuorumCert;
  bd_block_type : BlockType
}.

#[global] Instance BlockData_eq_dec : EqDecision BlockData.
Proof. solve_decision. Defined.

Definition bd_author (self : BlockData) : option Author :=
  match bd_block_type self with Proposal _ author => Some author | _ => None end.
Definition bd_payload (self : BlockData) : option Payload :=
  match bd_block_type self with Proposal payload _ => Some payload | _ => None end.
Definition bd_parent_id (self : BlockData) : HashValue := bi_id (certified_block (bd_quorum_cert self)).
Definition bd_is_genesis_block (self : BlockData) : bool :=
  match bd_block_type self with Genesis => true | _ => false end.
Definition bd_is_nil_block (self : BlockData) : bool :=
  match bd_block_type self with NilBlock => true | _ => false end.

Definition block_data_new_genesis (timestamp_usecs : Z) (quorum_cert : QuorumCert) : BlockData :=
  {| bd_epoch := u64_add (bi_epoch (certified_block quorum_cert)) 1; bd_round := 0;
     bd_timestamp_usecs := timestamp_usecs; bd_quorum_cert := quorum_cert; bd_block_type := Genesis |}.

Definition block_data_new_genesis_from_ledger_info (ledger_info : LedgerInfo) : result string BlockData :=
  _ ← assert_ (li_ends_epoch ledger_info);
  let ancestor := {|
    bi_epoch := li_epoch ledger_info; bi_round := 0; bi_id := HashValue_zero;
    bi_executed_state_id := li_transaction_accumulator_hash ledger_info;
    bi_version := li_version ledger_info; bi_timestamp_usecs := li_timestamp_usecs ledger_info;
    bi_next_epoch_state := None |} in
  let genesis_quorum_cert := {|
    qc_vote_data := {| vd_proposed := ancestor; vd_parent := ancestor |};
    qc_signed_ledger_info := {|
      liws_ledger_info := {| li_commit_info := ancestor; li_consensus_data_hash := HashValue_zero |};
      liws_signatures := ∅ |} |} in
  Ok (block_data_new_genesis (li_timestamp_usecs ledger_info) genesis_quorum_cert).

Definition block_data_new_nil (round : Z) (quorum_cert : QuorumCert) : BlockData :=
  {| bd_epoch := bi_epoch (certified_block quorum_cert); bd_round := round;
     bd_timestamp_usecs := bi_timestamp_usecs (certified_block quorum_cert);
     bd_quorum_cert := quorum_cert; bd_block_type := NilBlock |}.

Definition block_data_new_proposal (payload : Payload) (author : Author) (round timestamp_usecs : Z)
    (quorum_cert : QuorumCert) : BlockData :=
  {| bd_epoch := bi_epoch (certified_block quorum_cert); bd_round := round;
     bd_timestamp_usecs := timestamp_usecs; bd_quorum_cert := quorum_cert;
     bd_block_type := Proposal payload author |}.

Record Block := mkBlock {
  block_id : HashValue;
  block_data : BlockData;
  block_signature : option Signature
}.

#[global] Instance Block_eq_dec : EqDecision Block.
Proof. solve_decision. Defined.

Definition block_author (self : Block) : option Author := bd_author (block_data self).
Definition block_epoch (self : Block) : Z := bd_epoch (block_data self).
Definition block_round (self : Block) : Z := bd_round (block_data self).
Definition block_parent_id (self : Block) : HashValue := bd_parent_id (block_data self).
Definition block_payload (self : Block) : option Payload := bd_payload (block_data self).
Definition block_quorum_cert (self : Block) : QuorumCert := bd_quorum_cert (block_data self).
Definition block_timestamp_usecs (self : Block) : Z := bd_timestamp_usecs (block_data self).
Definition is_genesis_block (self : Block) : bool := bd_is_genesis_block (block_data self).
Definition is_nil_block (self : Block) : bool := bd_is_nil_block (block_data self).

Definition gen_block_info (self : Block) (executed_state_id : HashValue) (version : Z)
    (next_epoch_state : option EpochState) : BlockInfo := {|
  bi_epoch := block_epoch self; bi_round := block_round self; bi_id := block_id self;
  bi_executed_state_id := executed_state_id; bi_version := version;
  bi_timestamp_usecs := block_timestamp_usecs self; bi_next_epoch_state := next_epoch_state |}.

Context `{!CryptoHash BlockData}.

Definition make_genesis_block_from_ledger_info (ledger_info : LedgerInfo) : result string Block :=
  bd ← block_data_new_genesis_from_ledger_info ledger_info;
  Ok {| block_id := crypto_hash bd; block_data := bd; block_signature := None |}.

Definition block_new_nil (round : Z) (quorum_cert : QuorumCert) : Block :=
  let bd := block_data_new_nil round quorum_cert in
  {| block_id := crypto_hash bd; block_data := bd; block_signature := None |}.

Definition new_proposal_from_block_data (bd : BlockData) (validator_signer : ValidatorSigner) : Block :=
  {| block_id := crypto_hash bd; block_data := bd; block_signature := Some (signer_sign validator_signer bd) |}.

Definition block_new_proposal (payload : Payload) (round timestamp_usecs : Z) (quorum_cert : QuorumCert)
    (validator_signer : ValidatorSigner) : Block :=
  new_proposal_from_block_data
    (block_data_new_proposal payload (signer_author validator_signer) round timestamp_usecs quorum_cert)
    validator_signer.

Definition validate_signature (self : Block) (validator : ValidatorVerifier) : result string unit :=
  match bd_block_type (block_data self) with
  | Genesis => Err "We should not accept genesis from others"%string
  | NilBlock => quorum_cert_verify (block_quorum_cert self) validator
  | Proposal _ author =>
    sig ← ok_or (block_signature self) "Missing signature in Proposal"%string;
    _ ← map_err (fun _ => "verify"%string) (verifier_verify validator author (block_data self) sig);
    quorum_cert_verify (block_quorum_cert self) validator
  end.

Definition verify_well_formed (self : Block) : result string unit :=
  _ ← ensure (negb (is_genesis_block self)) "We must not accept genesis from others"%string;
  let parent := certified_block (block_quorum_cert self) in
  _ ← ensure (bi_round parent <? block_round self)
        "Block must have a greater round than parent's block"%string;
  _ ← ensure (bi_epoch parent =? block_epoch self) "block's parent should be in the same epoch"%string;
  _ ← (if has_reconfiguration parent then
         ensure (match block_payload self with None => true | Some p => is_nil p end)
           "Reconfiguration suffix should not carry payload"%string
       else Ok tt);
  _ ← (if is_nil_block self || has_reconfiguration parent then
         ensure (block_timestamp_usecs self =? bi_timestamp_usecs parent)
           "Nil/reconfig suffix block must have same timestamp as parent"%string
       else
         ensure (bi_timestamp_usecs parent <? block_timestamp_usecs self)
           "Blocks must have strictly increasing timestamps"%string);
  _ ← ensure (negb (qc_ends_epoch (block_quorum_cert self)))
        "Block cannot be proposed in an epoch that has ended"%string;
  Ok tt.

(** A deserialized block: the identifier is recomputed. *)
Definition block_deserialize (bd : BlockData) (sig : option Signature) : Block :=
  {| block_id := crypto_hash bd; block_data := bd; block_signature := sig |}.

(** ** Vote proposals *)

Record VoteProposal := mkVoteProposal {
  vp_accumulator_extension_proof : AccumulatorExtensionProof (HashValue:=HashValue);
  vp_block : Block;
  vp_next_epoch_state : option EpochState
}.

Record MaybeSignedVoteProposal := mkMaybeSignedVoteProposal {
  msvp_vote_proposal : VoteProposal;
  msvp_signature : option Signature
}.

(** ** [SyncInfo] and the messages *)

Record SyncInfo := mkSyncInfo {
  si_highest_quorum_cert : QuorumCert;
  si_highest_commit_cert : option QuorumCert;
  si_highest_timeout_cert : option TimeoutCertificate
}.

Definition sync_info_new (highest_quorum_cert highest_commit_cert : QuorumCert)
    (highest_timeout_cert : option TimeoutCertificate) : SyncInfo := {|
  si_highest_quorum_cert := highest_quorum_cert;
  si_highest_commit_cert :=
    if bool_decide (highest_quorum_cert = highest_commit_cert) then None else Some highest_commit_cert;
  si_highest_timeout_cert :=
    match highest_timeout_cert with
    | Some tc => if bi_round (certified_block highest_quorum_cert) <? tc_round tc then Some tc else None
    | None => None
    end |}.

Definition highest_commit_cert (self : SyncInfo) : QuorumCert :=
  default (si_highest_quorum_cert self) (si_highest_commit_cert self).
Definition highest_certified_round (self : SyncInfo) : Z :=
  bi_round (certified_block (si_highest_quorum_cert self)).
Definition highest_timeout_round (self : SyncInfo) : Z :=
  match si_highest_timeout_cert self with Some tc => tc_round tc | None => 0 end.
Definition highest_commit_round (self : SyncInfo) : Z := bi_round (qc_commit_info (highest_commit_cert self)).
Definition highest_round (self : SyncInfo) : Z :=
  Z.max (highest_certified_round self) (highest_timeout_round self).
Definition si_epoch (self : SyncInfo) : Z := bi_epoch (certified_block (si_highest_quorum_cert self)).

Definition sync_info_verify (self : SyncInfo) (validator : ValidatorVerifier) : result string unit :=
  let epoch := si_epoch self in
  _ ← ensure (epoch =? bi_epoch (certified_block (highest_commit_cert self)))
        "Multi epoch in SyncInfo - HCC and HQC"%string;
  _ ← (match si_highest_timeout_cert self with
       | Some tc => ensure (epoch =? tc_epoch tc) "Multi epoch in SyncInfo - TC and HQC"%string
       | None => Ok tt
       end);
  _ ← ensure (bi_round (certified_block (highest_commit_cert self)) <=? highest_certified_round self)
        "HQC has lower round than HCC"%string;
  _ ← ensure (bool_decide (qc_commit_info (highest_commit_cert self) <> block_info_empty))
        "HCC has no committed block"%string;
  map_err (fun _ => "Fail to verify SyncInfo"%string)
    (_ ← quorum_cert_verify (si_highest_quorum_cert self) validator;
     _ ← (match si_highest_commit_cert self with
          | Some cert => quorum_cert_verify cert validator | None => Ok tt end);
     match si_highest_timeout_cert self with
     | Some tc => timeout_certificate_verify tc validator | None => Ok tt end).

Definition has_newer_certificates (self other : SyncInfo) : bool :=
  (highest_certified_round other <? highest_certified_round self)
  || (highest_timeout_round other <? highest_timeout_round self)
  || (highest_commit_round other <? highest_commit_round self).

Record ProposalMsg := mkProposalMsg { pm_proposal : Block; pm_sync_info : SyncInfo }.

Definition proposal_msg_verify_well_formed (self : ProposalMsg) : result string unit :=
  let proposal := pm_proposal self in
  let sync_info := pm_sync_info self in
  _ ← ensure (negb (is_nil_block proposal)) "Proposal for a NIL block"%string;
  _ ← map_err (fun _ => "Fail to verify ProposalMsg's block"%string) (verify_well_formed proposal);
  _ ← ensure (0 <? block_round proposal) "Proposal has an incorrect round of 0"%string;
  _ ← ensure (block_epoch proposal =? si_epoch sync_info)
        "ProposalMsg has different epoch number from SyncInfo"%string;
  _ ← ensure (bool_decide (block_parent_id proposal = bi_id (certified_block (si_highest_quorum_cert sync_info))))
        "Proposal HQC in SyncInfo certifies another block"%string;
  let previous_round := u64_sub (block_round proposal) 1 in
  let highest_certified_round :=
    Z.max (bi_round (certified_block (block_quorum_cert proposal))) (highest_timeout_round sync_info) in
  _ ← ensure (previous_round =? highest_certified_round) "Proposal does not have a certified round"%string;
  _ ← ensure (match block_author proposal with Some _ => true | None => false end)
        "Proposal does not define an author"%string;
  Ok tt.

Definition proposal_msg_verify (self : ProposalMsg) (validator : ValidatorVerifier) : result string unit :=
  _ ← validate_signature (pm_proposal self) validator;
  _ ← (match si_highest_timeout_cert (pm_sync_info self) with
       | Some tc => timeout_certificate_verify tc validator | None => Ok tt end);
  proposal_msg_verify_well_formed self.

Record VoteMsg := mkVoteMsg { vm_vote : Vote; vm_sync_info : SyncInfo }.

Definition vote_msg_verify (self : VoteMsg) (validator : ValidatorVerifier) : result string unit :=
  _ ← ensure (vote_epoch (vm_vote self) =? si_epoch (vm_sync_info self)) "VoteMsg has different epoch"%string;
  vote_verify (vm_vote self) validator.
End ConsensusTypes.
