(* ===== verification/PendingVotes.v ===== *)
(** * Pending votes

    [consensus/src/pending_votes.rs]: the votes that a validator has received for one
    round.  The first vote of an author counts; a quorum of votes for one ledger info is a
    quorum certificate, a quorum of timeout signatures is a timeout certificate. *)

From S2P Require Import Prelude U64 Crypto ValidatorVerifier LedgerInfo Accumulator AccumulatorProof ConsensusTypes.

Section PendingVotes.
Context `{Crypto} `{HC : !Countable HashValue}.
Context `{!CryptoHash LedgerInfo, !CryptoHash VoteData, !CryptoHash Timeout}.

Inductive VoteReceptionResult :=
| VoteAdded (voting_power : Z)
| DuplicateVote
| EquivocateVote
| NewQuorumCertificate (qc : QuorumCert)
| NewTimeoutCertificate (tc : TimeoutCertificate)
| ErrorAddingVote (error : VerifyError)
| UnexpectedRound (vote_round current_round : Z).

Record PendingVotes := mkPendingVotes {
  li_digest_to_votes : gmap HashValue LedgerInfoWithSignatures;
  maybe_partial_tc : option TimeoutCertificate;
  author_to_vote : gmap Author Vote
}.

Definition pending_votes_new : PendingVotes := mkPendingVotes ∅ None ∅.

(** Step 4 of [insert_vote]: without a quorum certificate, a timeout certificate. *)
Definition insert_timeout_vote (self : PendingVotes) (vote : Vote) (validator_verifier : ValidatorVerifier) (voting_power : Z)
    : PendingVotes * VoteReceptionResult :=
  match vote_timeout_signature vote with
  | Some timeout_signature =>
    let partial_tc := default (timeout_certificate_new (vote_timeout vote)) (maybe_partial_tc self) in
    let partial_tc := tc_add_signature partial_tc (vote_author vote) timeout_signature in
    let self := mkPendingVotes (li_digest_to_votes self) (Some partial_tc) (author_to_vote self) in
    match check_voting_power validator_verifier (sig_authors (tc_signatures partial_tc)) with
    | Ok _ => (self, NewTimeoutCertificate partial_tc)
    | Err (TooLittleVotingPower _ _) => (self, VoteAdded voting_power)
    | Err error => (self, ErrorAddingVote error)
    | Panic => (self, ErrorAddingVote UnknownAuthor)
    end
  | None => (self, VoteAdded voting_power)
  end.

(** Steps 2 and 3: the vote is stored and counted. *)
Definition store_vote (self : PendingVotes) (vote : Vote) (validator_verifier : ValidatorVerifier)
    : PendingVotes * VoteReceptionResult :=
  let li_digest := crypto_hash (vote_ledger_info vote) in
  let li_with_sig := default (mkLedgerInfoWithSignatures (vote_ledger_info vote) ∅) (li_digest_to_votes self !! li_digest) in
  let li_with_sig := add_signature li_with_sig (vote_author vote) (vote_signature vote) in
  let self := mkPendingVotes (<[li_digest := li_with_sig]> (li_digest_to_votes self)) (maybe_partial_tc self)
                (<[vote_author vote := vote]> (author_to_vote self)) in
  match check_voting_power validator_verifier (sig_authors (liws_signatures li_with_sig)) with
  | Ok _ => (self, NewQuorumCertificate (mkQuorumCert (vote_data vote) li_with_sig))
  | Err (TooLittleVotingPower voting_power _) => insert_timeout_vote self vote validator_verifier voting_power
  | Err error => (self, ErrorAddingVote error)
  | Panic => (self, ErrorAddingVote UnknownAuthor)
  end.

Definition insert_vote (self : PendingVotes) (vote : Vote) (validator_verifier : ValidatorVerifier)
    : PendingVotes * VoteReceptionResult :=
  let li_digest := crypto_hash (vote_ledger_info vote) in
  match author_to_vote self !! vote_author vote with
  | Some previously_seen_vote =>
    if bool_decide (li_digest = crypto_hash (vote_ledger_info previously_seen_vote)) then
      let new_timeout_vote := vote_is_timeout vote && negb (vote_is_timeout previously_seen_vote) in
      if negb new_timeout_vote then (self, DuplicateVote) else store_vote self vote validator_verifier
    else (self, EquivocateVote)
  | None => store_vote self vote validator_verifier
  end.

(** ** What the votes amount to *)

(** The votes that count, by author: the first one, with the timeout signature that the
    author adds to it later. *)
Definition digest (vote : Vote) : HashValue := crypto_hash (vote_ledger_info vote).

Definition recorded (m : gmap Author Vote) (vote : Vote) : gmap Author Vote :=
  match m !! vote_author vote with
  | None => <[vote_author vote := vote]> m
  | Some seen =>
    if bool_decide (digest vote = digest seen) && (vote_is_timeout vote && negb (vote_is_timeout seen))
    then <[vote_author vote := vote]> m else m
  end.
Definition ballots (votes : list Vote) : gmap Author Vote := foldl recorded ∅ votes.

(** Who votes for a ledger info, and who has signed a timeout. *)
Definition signers (m : gmap Author Vote) (d : HashValue) : list Author :=
  map fst (map_to_list (filter (fun kv => digest kv.2 = d) m)).
Definition timeout_signers (m : gmap Author Vote) : list Author :=
  map fst (map_to_list (filter (fun kv => vote_is_timeout kv.2 = true) m)).

Lemma signers_elem m d a : a ∈ signers m d <-> exists v, m !! a = Some v /\ digest v = d.
Proof.
  unfold signers. rewrite list_elem_of_fmap. split.
  - intros ([k v] & -> & Hv%elem_of_map_to_list). apply map_lookup_filter_Some in Hv as [? ?]. by exists v.
  - intros (v & Hv & Hd). exists (a, v). split; [done|]. apply elem_of_map_to_list, map_lookup_filter_Some. done.
Qed.

Lemma timeout_signers_elem m a : a ∈ timeout_signers m <-> exists v, m !! a = Some v /\ vote_is_timeout v = true.
Proof.
  unfold timeout_signers. rewrite list_elem_of_fmap. split.
  - intros ([k v] & -> & Hv%elem_of_map_to_list). apply map_lookup_filter_Some in Hv as [? ?]. by exists v.
  - intros (v & Hv & Hd). exists (a, v). split; [done|]. apply elem_of_map_to_list, map_lookup_filter_Some. done.
Qed.

(** Recording a vote changes no digest and takes back no timeout. *)
Lemma recorded_lookup m vote a v : m !! a = Some v ->
  exists v', recorded m vote !! a = Some v' /\ digest v' = digest v /\ (vote_is_timeout v = true -> v' = v).
Proof.
  intros Ha. unfold recorded. destruct (m !! vote_author vote) as [seen|] eqn:E.
  - destruct (_ && _) eqn:Eb; [|by exists v]. apply andb_true_iff in Eb as [Hd%bool_decide_eq_true Ht].
    destruct (decide (a = vote_author vote)) as [->|Hne]; [|rewrite lookup_insert_ne by done; by exists v].
    rewrite lookup_insert_eq. simplify_eq. exists vote. split_and!; [done..|]. intros Hv. rewrite Hv in Ht. by rewrite andb_false_r in Ht.
  - exists v. rewrite lookup_insert_ne; [done|]. intros <-. by rewrite E in Ha.
Qed.

Lemma signers_mono m vote d : signers m d ⊆ signers (recorded m vote) d.
Proof.
  intros a (v & Hv & Hd)%signers_elem. destruct (recorded_lookup m vote a v Hv) as (v' & Hv' & Hd' & _).
  apply signers_elem. exists v'. by rewrite Hd'.
Qed.

(** A vote that is stored is the vote recorded for its author. *)
Lemma recorded_other m vote a v : recorded m vote !! a = Some v -> v = vote \/ m !! a = Some v.
Proof.
  unfold recorded. intros Ha. destruct (m !! vote_author vote); [destruct (_ && _)|]; [| |].
  all: try (by right). all: apply lookup_insert_Some in Ha as [[_ ?]|[_ ?]]; auto.
Qed.

Lemma ballots_from votes a v : ballots votes !! a = Some v -> v ∈ votes /\ vote_author v = a.
Proof.
  unfold ballots. revert v. induction votes as [|vote votes IH] using rev_ind; intros v; [done|].
  rewrite foldl_snoc. unfold recorded at 1. set (m := foldl recorded ∅ votes) in *.
  assert (Hm : m !! a = Some v -> v ∈ votes ++ [vote] /\ vote_author v = a) by (intros [? ?]%IH; rewrite elem_of_app; auto).
  assert (Hi : <[vote_author vote := vote]> m !! a = Some v -> v ∈ votes ++ [vote] /\ vote_author v = a).
  { intros [[<- <-]|[_ ?]]%lookup_insert_Some; [|auto]. split; [apply elem_of_app; right; by constructor|done]. }
  destruct (m !! vote_author vote); [destruct (_ && _)|]; auto.
Qed.

(** ** Counting *)

Section Counting.
Context `{!CryptoLaws _}.
Variables (infos : gmap AccountAddress ValidatorConsensusInfo) (epoch round : Z).
Hypothesis Hinfos : wf_infos infos.
Notation verifier := (verifier_new infos).
Notation quorum := (quorum_voting_power verifier).
Notation power := (zsum (power_of infos)).

(** A vote that the validator lets in. *)
Record valid_vote (vote : Vote) : Prop := {
  vv_verified : vote_verify vote verifier = Ok tt;
  vv_epoch : vote_epoch vote = epoch;
  vv_round : vote_round vote = round
}.

Definition no_collision (votes : list Vote) : Prop := forall v1 v2, v1 ∈ votes -> v2 ∈ votes ->
  digest v1 = digest v2 -> vote_ledger_info v1 = vote_ledger_info v2.

Lemma valid_vote_author vote : valid_vote vote -> vote_author vote ∈ validators infos.
Proof.
  intros [Hv _ _]. unfold vote_verify in Hv. res_inv. unfold verifier_verify in H1.
  destruct (get_public_key verifier (vote_author vote)) as [pk|] eqn:E; [|done].
  apply fmap_Some in E as (i & E & _). apply validators_elem. by exists i.
Qed.

Lemma valid_vote_signature vote : valid_vote vote -> verifier_verify verifier (vote_author vote) (vote_ledger_info vote) (vote_signature vote) = Ok tt.
Proof. intros [Hv _ _]. unfold vote_verify in Hv. res_inv. by destruct x0. Qed.

Lemma valid_vote_timeout vote sig : valid_vote vote -> vote_timeout_signature vote = Some sig ->
  verifier_verify verifier (vote_author vote) (mkTimeout epoch round) sig = Ok tt.
Proof.
  intros [Hv <- <-] Hs. unfold vote_verify in Hv. rewrite Hs in Hv. by res_inv.
Qed.

Lemma valid_vote_hash vote : valid_vote vote -> li_consensus_data_hash (vote_ledger_info vote) = crypto_hash (vote_data vote).
Proof. intros [Hv _ _]. unfold vote_verify in Hv. by res_inv. Qed.

(** The sum of known authors, compared with the quorum. *)
Lemma check_voting_power_value authors : NoDup authors -> authors ⊆ validators infos ->
  check_voting_power verifier authors = if quorum <=? power authors then Ok tt else Err (TooLittleVotingPower (power authors) quorum).
Proof.
  intros Hnd Hsub. destruct (add_voting_power_known verifier authors 0 Hsub) as [p E].
  pose proof (subset_power_bound _ _ Hinfos Hnd Hsub). pose proof (wf_total _ Hinfos).
  assert (p = power authors) as ->.
  { apply add_voting_power_fold in E as [_ E]. cbn [address_to_validator_info verifier_new] in E.
    rewrite E; [lia|lia|apply Hinfos|lia]. }
  unfold check_voting_power. rewrite E. cbn [mbind result_bind]. rewrite Z.ltb_antisym. by destruct (quorum <=? power authors).
Qed.

Lemma verifier_verify_signed {T} `{!CryptoHash T} (message : T) sigs a sig : sigs !! a = Some sig ->
  verifier_verify verifier a message sig = Ok tt -> signed_by verifier message sigs a.
Proof.
  unfold verifier_verify. intros Hs Hv. destruct (get_public_key verifier a) as [pk|] eqn:E; [|done].
  destruct (verify_struct_signature pk message sig) eqn:Es; [|done]. by exists pk, sig.
Qed.

(** Signatures of a quorum, each of them checked, verify together. *)
Lemma aggregate_verifies {T} `{!CryptoHash T} (message : T) sigs : sig_authors sigs ⊆ validators infos ->
  (forall a sig, sigs !! a = Some sig -> verifier_verify verifier a message sig = Ok tt) ->
  quorum <= power (sig_authors sigs) -> verify_aggregated_struct_signature verifier message sigs = Ok tt.
Proof.
  intros Hsub Hs Hq. apply verify_aggregated_Ok. split_and!.
  - by apply check_num_of_signatures_known.
  - rewrite check_voting_power_value by (try done; apply sig_authors_NoDup). by rewrite (proj2 (Z.leb_le _ _)).
  - intros a [sig Ha]%sig_authors_elem. apply (verifier_verify_signed _ _ _ sig); auto.
Qed.

(** *** The invariant *)

Record votes_ok (votes : list Vote) (pv : PendingVotes) : Prop := {
  po_authors : author_to_vote pv = ballots votes;
  po_li : forall d l, li_digest_to_votes pv !! d = Some l -> crypto_hash (liws_ledger_info l) = d /\
    (exists v, v ∈ votes /\ vote_ledger_info v = liws_ledger_info l) /\
    forall a sig, liws_signatures l !! a = Some sig -> verifier_verify verifier a (liws_ledger_info l) sig = Ok tt;
  po_signers : forall d a, a ∈ signers (ballots votes) d <-> exists l, li_digest_to_votes pv !! d = Some l /\ a ∈ sig_authors (liws_signatures l)
}.

(** The timeout certificate in the making; a timeout signature that comes with the last
    vote for a quorum certificate is not added to it. *)
Record timeouts_ok (votes : list Vote) (partial_tc : option TimeoutCertificate) : Prop := {
  po_tc : forall tc, partial_tc = Some tc -> tc_timeout tc = mkTimeout epoch round /\
    (forall a sig, tc_signatures tc !! a = Some sig -> verifier_verify verifier a (mkTimeout epoch round) sig = Ok tt) /\
    sig_authors (tc_signatures tc) ⊆ timeout_signers (ballots votes);
  po_tc_all : (forall d, power (signers (ballots votes) d) < quorum) -> timeout_signers (ballots votes) ⊆
    match partial_tc with Some tc => sig_authors (tc_signatures tc) | None => [] end
}.

Definition pending_ok (votes : list Vote) (pv : PendingVotes) : Prop := votes_ok votes pv /\ timeouts_ok votes (maybe_partial_tc pv).

Lemma pending_new_ok : pending_ok [] pending_votes_new.
Proof.
  split; split; cbn; try done.
  intros d a. rewrite signers_elem. split; [by intros (v & ? & _)|by intros (l & ? & _)].
Qed.

Lemma ballots_snoc votes vote : ballots (votes ++ [vote]) = recorded (ballots votes) vote.
Proof. apply foldl_snoc. Qed.

Lemma add_signature_authors l author sig a :
  a ∈ sig_authors (liws_signatures (add_signature l author sig)) <-> a = author \/ a ∈ sig_authors (liws_signatures l).
Proof.
  rewrite !sig_authors_elem. unfold add_signature. cbn. destruct (liws_signatures l !! author) eqn:E.
  - split; [auto|]. intros [->|?]; [by rewrite E|done].
  - rewrite lookup_insert_is_Some'. naive_solver.
Qed.

Lemma tc_add_signature_authors tc author sig a :
  a ∈ sig_authors (tc_signatures (tc_add_signature tc author sig)) <-> a = author \/ a ∈ sig_authors (tc_signatures tc).
Proof.
  rewrite !sig_authors_elem. unfold tc_add_signature. cbn. destruct (tc_signatures tc !! author) as [s|] eqn:E.
  - split; [auto|]. intros [->|?]; [by exists s|done].
  - change (is_Some (<[author := sig]> (tc_signatures tc) !! a) <-> a = author \/ is_Some (tc_signatures tc !! a)).
    rewrite lookup_insert_is_Some'. naive_solver.
Qed.

(** What a vote that is counted comes to, given the votes that count with it. *)
Definition counted (m : gmap Author Vote) (vote : Vote) (r : VoteReceptionResult) : Prop :=
  let signed := signers m (digest vote) in
  if quorum <=? power signed then
    exists qc, r = NewQuorumCertificate qc /\ qc_vote_data qc = vote_data vote /\ qc_ledger_info qc = vote_ledger_info vote /\
      sig_authors (liws_signatures (qc_signed_ledger_info qc)) ≡ₚ signed /\
      (round <> 0 -> quorum_cert_verify qc verifier = vote_data_verify (vote_data vote))
  else
    (r = VoteAdded (power signed) \/
     exists tc, r = NewTimeoutCertificate tc /\ tc_timeout tc = vote_timeout vote /\ timeout_certificate_verify tc verifier = Ok tt) /\
    (vote_is_timeout vote = true -> quorum <= power (timeout_signers m) -> (forall d, power (signers m d) < quorum) ->
     exists tc, r = NewTimeoutCertificate tc).

Section Insert.
Variables (votes : list Vote) (vote : Vote) (pv : PendingVotes).
Hypothesis Hvalid : Forall valid_vote (votes ++ [vote]).
Hypothesis Hcoll : no_collision (votes ++ [vote]).
Hypothesis Hok : pending_ok votes pv.
Notation m' := (ballots (votes ++ [vote])).

Lemma vote_valid : valid_vote vote.
Proof. apply Forall_app in Hvalid as [_ Hv]. by inv Hv. Qed.
Lemma votes_valid v : v ∈ votes ++ [vote] -> valid_vote v.
Proof. rewrite list.Forall_forall in Hvalid. apply Hvalid. Qed.

(** The entry of the vote's digest. *)
Definition entry : LedgerInfoWithSignatures :=
  default (mkLedgerInfoWithSignatures (vote_ledger_info vote) ∅) (li_digest_to_votes pv !! digest vote).

Lemma entry_li : liws_ledger_info entry = vote_ledger_info vote.
Proof.
  unfold entry. destruct (li_digest_to_votes pv !! digest vote) as [l|] eqn:E; [|done]. cbn.
  destruct (po_li _ _ (proj1 Hok) _ _ E) as (Hd & (v & Hv & Ev) & _). rewrite <- Ev. apply Hcoll; [set_solver..|].
  unfold digest at 1. by rewrite Ev.
Qed.

Lemma entry_signers a : a ∈ sig_authors (liws_signatures entry) <-> a ∈ signers (ballots votes) (digest vote).
Proof.
  rewrite (po_signers _ _ (proj1 Hok)). unfold entry. destruct (li_digest_to_votes pv !! digest vote) as [l|] eqn:E; cbn; [naive_solver|].
  rewrite sig_authors_elem. cbn. rewrite lookup_empty. split; [by intros []|by intros (? & ? & _)].
Qed.

Lemma entry_verified a sig : liws_signatures entry !! a = Some sig -> verifier_verify verifier a (vote_ledger_info vote) sig = Ok tt.
Proof.
  rewrite <- entry_li. unfold entry. destruct (li_digest_to_votes pv !! digest vote) as [l|] eqn:E; cbn; [|done].
  destruct (po_li _ _ (proj1 Hok) _ _ E) as (_ & _ & Hs). apply Hs.
Qed.

(** The vote is one to store. *)
Hypothesis Hstore : m' = <[vote_author vote := vote]> (ballots votes).

Lemma stored_signers d a : a ∈ signers m' d <-> (a = vote_author vote /\ digest vote = d) \/ a ∈ signers (ballots votes) d.
Proof.
  split.
  - rewrite Hstore, !signers_elem. intros (v & [[<- <-]|[_ ?]]%lookup_insert_Some & Hd); [by left|right; eauto].
  - intros [[-> Hd]|Ha]; [|rewrite ballots_snoc; by apply signers_mono].
    rewrite Hstore, signers_elem. exists vote. by rewrite lookup_insert_eq.
Qed.

Notation entry' := (add_signature entry (vote_author vote) (vote_signature vote)).

Lemma entry'_signers a : a ∈ sig_authors (liws_signatures entry') <-> a ∈ signers m' (digest vote).
Proof. rewrite add_signature_authors, stored_signers, entry_signers. naive_solver. Qed.

Lemma entry'_verified a sig : liws_signatures entry' !! a = Some sig -> verifier_verify verifier a (vote_ledger_info vote) sig = Ok tt.
Proof.
  pose proof (entry_verified a sig) as He. unfold add_signature. cbn. case_match; [done|].
  intros [[<- <-]|[_ ?]]%lookup_insert_Some; [|auto]. apply valid_vote_signature, vote_valid.
Qed.

Lemma signers_NoDup m d : NoDup (signers m d).
Proof. apply NoDup_fst_map_to_list. Qed.
Lemma timeout_signers_NoDup m : NoDup (timeout_signers m).
Proof. apply NoDup_fst_map_to_list. Qed.

Lemma ballots_known a v : m' !! a = Some v -> a ∈ validators infos.
Proof. intros [Hv <-]%ballots_from. by apply valid_vote_author, votes_valid. Qed.
Lemma signers_known d : signers m' d ⊆ validators infos.
Proof. intros a (v & Hv & _)%signers_elem. by apply (ballots_known a v). Qed.
Lemma timeout_signers_known : timeout_signers m' ⊆ validators infos.
Proof. intros a (v & Hv & _)%timeout_signers_elem. by apply (ballots_known a v). Qed.

Lemma entry'_perm : sig_authors (liws_signatures entry') ≡ₚ signers m' (digest vote).
Proof. apply NoDup_Permutation; [apply sig_authors_NoDup|apply signers_NoDup|apply entry'_signers]. Qed.

Lemma stored_votes_ok tc : votes_ok (votes ++ [vote])
  (mkPendingVotes (<[digest vote := entry']> (li_digest_to_votes pv)) tc (<[vote_author vote := vote]> (author_to_vote pv))).
Proof.
  pose proof (po_authors _ _ (proj1 Hok)) as Ha. split; cbn.
  - by rewrite Ha.
  - intros d l [[<- <-]|[Hne Hl]]%lookup_insert_Some.
    + change (liws_ledger_info entry') with (liws_ledger_info entry). rewrite entry_li.
      split_and!; [done|exists vote; set_solver|apply entry'_verified].
    + destruct (po_li _ _ (proj1 Hok) d l Hl) as (Hd & (v & Hv & Ev) & Hs). split_and!; [done|exists v; set_solver|done].
  - intros d a. destruct (decide (d = digest vote)) as [->|Hne].
    + rewrite lookup_insert_eq, <- entry'_signers. naive_solver.
    + rewrite lookup_insert_ne, <- (po_signers _ _ (proj1 Hok)), stored_signers by done. naive_solver.
Qed.

(** The certificate of a quorum verifies, but for the vote data itself, which no vote
    vouches for. *)
Lemma quorum_certificate_ok : quorum <= power (signers m' (digest vote)) -> round <> 0 ->
  quorum_cert_verify (mkQuorumCert (vote_data vote) entry') verifier = vote_data_verify (vote_data vote).
Proof.
  intros Hq Hr. pose proof vote_valid as Hv. unfold quorum_cert_verify, qc_ledger_info. cbn [qc_vote_data qc_signed_ledger_info].
  change (liws_ledger_info entry') with (liws_ledger_info entry). rewrite entry_li.
  rewrite (bool_decide_eq_true_2 _ (valid_vote_hash _ Hv)). cbn [ensure mbind result_bind].
  rewrite (proj2 (Z.eqb_neq _ _)) by (unfold certified_block; cbn; by rewrite (vv_round _ Hv : bi_round _ = round)).
  unfold verify_signatures. rewrite batch_verify_aggregated_equiv.
  change (liws_ledger_info entry') with (liws_ledger_info entry). rewrite entry_li, aggregate_verifies; [done| | |].
  - rewrite entry'_perm. apply signers_known.
  - apply entry'_verified.
  - by rewrite (zsum_perm _ _ _ entry'_perm).
Qed.

(** *** Timeouts *)

Lemma stored_timeout_signers a :
  a ∈ timeout_signers m' <-> (a = vote_author vote /\ vote_is_timeout vote = true) \/ a ∈ timeout_signers (ballots votes).
Proof.
  split.
  - rewrite Hstore, !timeout_signers_elem. intros (v & [[<- <-]|[_ ?]]%lookup_insert_Some & Hd); [by left|right; eauto].
  - intros [[-> Ht]|(v & Hv & Ht)%timeout_signers_elem].
    + rewrite Hstore, timeout_signers_elem. exists vote. by rewrite lookup_insert_eq.
    + destruct (recorded_lookup _ vote a v Hv) as (v' & Hv' & _ & Ev). rewrite (Ev Ht) in Hv'. apply timeout_signers_elem. rewrite ballots_snoc. eauto.
Qed.

Lemma no_quorum_before : (forall d, power (signers m' d) < quorum) -> forall d, power (signers (ballots votes) d) < quorum.
Proof.
  intros Hno d. eapply Z.le_lt_trans; [|apply (Hno d)]. apply zsum_subset; [|apply signers_NoDup|rewrite ballots_snoc; apply signers_mono].
  intros. apply power_of_nonneg, Hinfos.
Qed.

Lemma timeouts_kept : vote_is_timeout vote = false \/ quorum <= power (signers m' (digest vote)) ->
  timeouts_ok (votes ++ [vote]) (maybe_partial_tc pv).
Proof.
  destruct (proj2 Hok) as [Htc Hall]. intros Hc. split.
  - intros tc Et. destruct (Htc tc Et) as (? & ? & Hs). split_and!; [done..|]. intros a Ha%Hs. apply stored_timeout_signers. by right.
  - intros Hno a Ha. apply (Hall (no_quorum_before Hno)). apply stored_timeout_signers in Ha as [[_ Ht]|?]; [|done].
    destruct Hc as [Hc|Hc]; [congruence|]. specialize (Hno (digest vote)). lia.
Qed.

Section TimeoutVote.
Variable timeout_signature : Signature.
Hypothesis Hts : vote_timeout_signature vote = Some timeout_signature.
Notation tc' := (tc_add_signature (default (timeout_certificate_new (vote_timeout vote)) (maybe_partial_tc pv)) (vote_author vote) timeout_signature).

Lemma timeout_of_vote : vote_timeout vote = mkTimeout epoch round.
Proof. destruct vote_valid as [_ <- <-]. done. Qed.

Lemma tc'_authors a : a ∈ sig_authors (tc_signatures tc') <->
  a = vote_author vote \/ a ∈ match maybe_partial_tc pv with Some tc => sig_authors (tc_signatures tc) | None => [] end.
Proof. rewrite tc_add_signature_authors. destruct (maybe_partial_tc pv); [done|]. cbn. done. Qed.

Lemma tc'_ok : tc_timeout tc' = mkTimeout epoch round /\
  (forall a sig, tc_signatures tc' !! a = Some sig -> verifier_verify verifier a (mkTimeout epoch round) sig = Ok tt) /\
  sig_authors (tc_signatures tc') ⊆ timeout_signers m'.
Proof.
  destruct (proj2 Hok) as [Htc _]. split_and!.
  - cbn. destruct (maybe_partial_tc pv) as [tc|]; [by apply Htc|apply timeout_of_vote].
  - intros a sig Ha. apply (valid_vote_timeout vote) in Hts as Hv; [|apply vote_valid]. unfold tc_add_signature in Ha. cbn in Ha.
    assert (Hold : tc_signatures (default (timeout_certificate_new (vote_timeout vote)) (maybe_partial_tc pv)) !! a = Some sig ->
      verifier_verify verifier a (mkTimeout epoch round) sig = Ok tt) by (destruct (maybe_partial_tc pv) as [tc|]; [by apply Htc|done]).
    case_match; [auto|]. apply lookup_insert_Some in Ha as [[<- <-]|[_ ?]]; auto.
  - intros a [->|Ha]%tc'_authors; apply stored_timeout_signers; [left; split; [done|unfold vote_is_timeout; by rewrite Hts]|right].
    destruct (maybe_partial_tc pv) as [tc|]; [by apply (Htc tc)|]. by apply elem_of_nil in Ha.
Qed.

Lemma tc'_all : (forall d, power (signers m' d) < quorum) -> sig_authors (tc_signatures tc') ≡ₚ timeout_signers m'.
Proof.
  intros Hno. apply NoDup_Permutation; [apply sig_authors_NoDup|apply timeout_signers_NoDup|]. intros a. split; [apply tc'_ok|].
  intros [[-> _]|Ha]%stored_timeout_signers; apply tc'_authors; [by left|right].
  by apply (po_tc_all _ _ (proj2 Hok) (no_quorum_before Hno)).
Qed.

Lemma tc'_timeouts_ok : timeouts_ok (votes ++ [vote]) (Some tc').
Proof. split; [intros tc [= <-]; apply tc'_ok|]. intros Hno. by rewrite (tc'_all Hno). Qed.

Lemma timeout_certificate_ok : quorum <= power (sig_authors (tc_signatures tc')) -> timeout_certificate_verify tc' verifier = Ok tt.
Proof.
  intros Hq. destruct tc'_ok as (Et & Hs & Hsub). unfold timeout_certificate_verify. rewrite Et, aggregate_verifies; [done| |done|done].
  intros a Ha. by apply timeout_signers_known, Hsub.
Qed.
End TimeoutVote.

(** *** Storing a vote *)

Lemma insert_timeout_vote_ok pv' : li_digest_to_votes pv' = <[digest vote := entry']> (li_digest_to_votes pv) ->
  maybe_partial_tc pv' = maybe_partial_tc pv -> author_to_vote pv' = <[vote_author vote := vote]> (author_to_vote pv) ->
  power (signers m' (digest vote)) < quorum ->
  pending_ok (votes ++ [vote]) (insert_timeout_vote pv' vote verifier (power (signers m' (digest vote)))).1 /\
  counted m' vote (insert_timeout_vote pv' vote verifier (power (signers m' (digest vote)))).2.
Proof.
  intros El Et Ea Hq. unfold insert_timeout_vote, counted. rewrite (proj2 (Z.leb_gt _ _)) by done.
  destruct (vote_timeout_signature vote) as [sig|] eqn:Es.
  - rewrite El, Et, Ea. destruct (tc'_ok sig Es) as (Htc & _ & Hsub).
    rewrite check_voting_power_value by (try apply sig_authors_NoDup; intros a Ha; by apply timeout_signers_known, Hsub).
    destruct (Z.leb_spec quorum (power (sig_authors (tc_signatures (tc_add_signature (default (timeout_certificate_new (vote_timeout vote))
      (maybe_partial_tc pv)) (vote_author vote) sig))))) as [Hle|Hlt]; cbn [fst snd].
    + split; [split; [apply stored_votes_ok|by apply tc'_timeouts_ok]|]. split; [right|by eauto].
      eexists. split_and!; [done|by rewrite Htc, timeout_of_vote|by apply timeout_certificate_ok].
    + split; [split; [apply stored_votes_ok|by apply tc'_timeouts_ok]|]. split; [by left|].
      intros _ Hqt Hno. rewrite (zsum_perm _ _ _ (tc'_all sig Es Hno)) in Hlt. lia.
  - assert (Hnt : vote_is_timeout vote = false) by (unfold vote_is_timeout; by rewrite Es). cbn [fst snd].
    split; [|by rewrite Hnt; split; [left|]]. split; [|rewrite Et; apply timeouts_kept; by left].
    destruct pv'. cbn in El, Et, Ea. subst. apply stored_votes_ok.
Qed.

Lemma store_vote_ok : pending_ok (votes ++ [vote]) (store_vote pv vote verifier).1 /\ counted m' vote (store_vote pv vote verifier).2.
Proof.
  unfold store_vote. fold (digest vote) entry. rewrite check_voting_power_value;
    [|apply sig_authors_NoDup|rewrite entry'_perm; apply signers_known].
  rewrite (zsum_perm _ _ _ entry'_perm). destruct (Z.leb_spec quorum (power (signers m' (digest vote)))) as [Hq|Hq].
  - cbn [fst snd]. split; [split; [apply stored_votes_ok|apply timeouts_kept; by right]|]. unfold counted.
    rewrite (proj2 (Z.leb_le _ _)) by done. eexists. split_and!; [done|done| |apply entry'_perm|by apply quorum_certificate_ok].
    apply entry_li.
  - by apply insert_timeout_vote_ok.
Qed.
End Insert.

(** A vote that is not stored changes nothing. *)
Lemma pending_ok_ignored votes vote pv : pending_ok votes pv -> ballots (votes ++ [vote]) = ballots votes -> pending_ok (votes ++ [vote]) pv.
Proof.
  intros [[Ha Hl Hs] [Ht Hta]] E. split; split; rewrite ?E; try done.
  intros d l El. destruct (Hl d l El) as (? & (v & ? & ?) & ?). split_and!; [done|exists v; set_solver|done].
Qed.

(** The result of inserting a vote after [m]. *)
Definition received (m : gmap Author Vote) (vote : Vote) (r : VoteReceptionResult) : Prop :=
  match m !! vote_author vote with
  | Some seen =>
    if bool_decide (digest vote = digest seen) then
      if vote_is_timeout vote && negb (vote_is_timeout seen) then counted (recorded m vote) vote r else r = DuplicateVote
    else r = EquivocateVote
  | None => counted (recorded m vote) vote r
  end.

Lemma insert_vote_ok votes vote pv : Forall valid_vote (votes ++ [vote]) -> no_collision (votes ++ [vote]) -> pending_ok votes pv ->
  pending_ok (votes ++ [vote]) (insert_vote pv vote verifier).1 /\ received (ballots votes) vote (insert_vote pv vote verifier).2.
Proof.
  intros Hv Hc Hok. unfold insert_vote, received. rewrite (po_authors _ _ (proj1 Hok)). rewrite <- ballots_snoc. fold (digest vote).
  pose proof (store_vote_ok votes vote pv Hv Hc Hok) as Hst. pose proof (pending_ok_ignored votes vote pv Hok) as Hig.
  rewrite ballots_snoc in Hst at 1. rewrite ballots_snoc in Hig. unfold recorded in Hst at 1. unfold recorded in Hig.
  destruct (ballots votes !! vote_author vote) as [seen|] eqn:E; [|by apply Hst]. fold (digest seen).
  destruct (bool_decide (digest vote = digest seen)); [|by split; [apply Hig|]]. cbn [andb] in Hst, Hig.
  destruct (vote_is_timeout vote && negb (vote_is_timeout seen)); cbn [negb]; [by apply Hst|by split; [apply Hig|]].
Qed.

Definition receive (votes : list Vote) : PendingVotes := foldl (fun pv vote => (insert_vote pv vote verifier).1) pending_votes_new votes.

Lemma receive_ok votes : Forall valid_vote votes -> no_collision votes -> pending_ok votes (receive votes).
Proof.
  unfold receive. induction votes as [|vote votes IH] using rev_ind; intros Hv Hc; [apply pending_new_ok|].
  rewrite foldl_snoc. apply insert_vote_ok; [done..|]. apply IH; [by apply Forall_app in Hv as [? _]|].
  intros v1 v2 H1 H2. apply Hc; set_solver.
Qed.

(** C14: The votes of a round are counted right: the first vote of every author counts, once;
    a second one for another ledger info is reported as an equivocation.  The vote with
    which the authors of one ledger info reach a quorum yields a quorum certificate signed
    by all of them, which verifies as far as votes can vouch for it; a quorum of timeout
    signatures, as long as no ledger info has one, yields a timeout certificate that
    verifies; and short of a quorum the voting power so far is returned. *)
Theorem votes_counted votes vote : Forall valid_vote (votes ++ [vote]) -> no_collision (votes ++ [vote]) ->
  received (ballots votes) vote (insert_vote (receive votes) vote verifier).2.
Proof.
  intros Hv Hc. apply insert_vote_ok; [done..|]. apply receive_ok; [by apply Forall_app in Hv as [? _]|]. intros v1 v2 H1 H2. apply Hc; set_solver.
Qed.
End Counting.
End PendingVotes.
