(* ===== verification/ProposerElection.v ===== *)
(** * Who proposes

    [consensus/src/liveness/proposer_election.rs], [rotating_proposer_election.rs] and
    [leader_reputation.rs]: the author who may propose in a round, by rotation or drawn by
    weight, the weights coming from the blocks committed last. *)

From S2P Require Import Prelude U64 Bytes Crypto Hash ValidatorVerifier LedgerInfo Accumulator AccumulatorProof ConsensusTypes.

(** The trait: its one required method, and the provided ones. *)
Class ProposerElection `{Crypto} (E : Type) := get_valid_proposer : E -> Z -> result string Author.

Section Provided.
Context `{Crypto} {E : Type} `{!ProposerElection E}.

Definition is_valid_proposer (self : E) (author : Author) (round : Z) : result string bool :=
  proposer ← get_valid_proposer self round; Ok (bool_decide (proposer = author)).
Definition is_valid_proposal (self : E) (block : Block) : result string bool :=
  match block_author block with
  | Some author => is_valid_proposer self author (block_round block)
  | None => Ok false
  end.
End Provided.

Section ProposerElection.
Context `{Crypto} `{B : !HashBytes}.

(** ** By rotation *)

Record RotatingProposer := mkRotatingProposer { rp_proposers : list Author; contiguous_rounds : Z }.

(** [u64] division and remainder by zero panic. *)
Definition checked_div (a b : Z) : result string Z := if b =? 0 then Panic else Ok (a / b).
Definition checked_rem (a b : Z) : result string Z := if b =? 0 then Panic else Ok (a mod b).

#[export] Instance rotating_proposer_election : ProposerElection RotatingProposer := fun self round =>
  turn ← checked_div round (contiguous_rounds self);
  index ← checked_rem turn (Z.of_nat (length (rp_proposers self)));
  expect (rp_proposers self !! Z.to_nat index).

(** ** By reputation *)

Record NewBlockEvent := mkNewBlockEvent { nbe_round : Z; nbe_proposer : AccountAddress; nbe_votes : list AccountAddress; nbe_timestamp : Z }.

(** The candidates that appear in the history weigh more. *)
Record ActiveInactiveHeuristic := mkActiveInactiveHeuristic { active_weight : Z; inactive_weight : Z }.

Definition get_weights (self : ActiveInactiveHeuristic) (candidates : list Author) (history : list NewBlockEvent) : list Z :=
  let set := foldl (fun (set : gset AccountAddress) meta => {[ nbe_proposer meta ]} ∪ set ∪ list_to_set (nbe_votes meta)) ∅ history in
  map (fun author => if bool_decide (author ∈ set) then active_weight self else inactive_weight self) candidates.

(** [HashValue::sha3_256_of]. *)
Variable sha3_256_of : bytes -> HashValue.

Definition u64_from_le_bytes (l : bytes) : Z := from_be_bytes (rev l).
Definition u64_to_le_bytes (v : Z) : bytes := rev (u64_be v).

Definition next (state : bytes) : bytes * Z :=
  let state := hash_to_vec (sha3_256_of state) in
  (state, u64_from_le_bytes (take 8 state)).

(** [for w in &mut weights { total_weight += *w; *w = total_weight; }]. *)
Fixpoint accumulate (total_weight : Z) (weights : list Z) : Z * list Z :=
  match weights with
  | [] => (total_weight, [])
  | w :: weights =>
    let total_weight := u64_add total_weight w in
    let '(total, weights) := accumulate total_weight weights in (total, total_weight :: weights)
  end.

(** [slice::binary_search_by] of the standard library, for a comparison that is never
    [Equal]: where the element would be inserted. *)
Fixpoint binary_search_loop (fuel : nat) (less : Z -> bool) (s : list Z) (size base : nat) : result string nat :=
  match fuel with
  | O => Panic
  | S fuel =>
    if (1 <? size)%nat then
      let half := (size / 2)%nat in
      let mid := (base + half)%nat in
      x ← expect (s !! mid);
      binary_search_loop fuel less s (size - half) (if less x then mid else base)
    else x ← expect (s !! base); Ok (if less x then S base else base)
  end.
Definition binary_search_by (less : Z -> bool) (s : list Z) : result string nat :=
  match s with [] => Ok O | _ => binary_search_loop (length s) less s (length s) 0 end.

(** The backend and the heuristic are trait objects. *)
Record LeaderReputation := mkLeaderReputation {
  lr_proposers : list Author;
  backend_get_block_metadata : Z -> list NewBlockEvent;
  heuristic_get_weights : list Author -> list NewBlockEvent -> list Z
}.

#[export] Instance leader_reputation_election : ProposerElection LeaderReputation := fun self round =>
  let target_round := if 4 <=? round then round - 4 else 0 in
  let sliding_window := backend_get_block_metadata self target_round in
  let weights := heuristic_get_weights self (lr_proposers self) sliding_window in
  _ ← assert_ (length weights =? length (lr_proposers self))%nat;
  let '(total_weight, weights) := accumulate 0 weights in
  let '(_, draw) := next (u64_to_le_bytes round) in
  chosen_weight ← checked_rem draw total_weight;
  chosen_index ← binary_search_by (fun w => w <=? chosen_weight) weights;
  expect (lr_proposers self !! chosen_index).

(** ** The draw is by weight *)

Lemma accumulate_sums weights : forall total, 0 <= total -> Forall (fun w => 0 <= w) weights -> total + zsum id weights < 2 ^ 64 ->
  accumulate total weights = (total + zsum id weights, imap (fun i _ => total + zsum id (take (S i) weights)) weights).
Proof.
  induction weights as [|w weights IH]; intros total Ht Hw Hs; cbn [accumulate zsum]; [by rewrite Z.add_0_r|]. inv Hw. cbn [zsum] in Hs.
  assert (0 <= zsum id weights) by (apply zsum_nonneg; by apply list.Forall_forall). unfold id in *.
  rewrite u64_add_small by lia. rewrite IH by (try done; lia). cbn [imap]. f_equal; [lia|]. f_equal; [cbn; rewrite take_0; cbn; lia|].
  apply imap_ext. intros i x _. cbn. lia.
Qed.

(** A search in a list that is split by the comparison. *)
Lemma binary_search_loop_split less s k fuel : forall size base,
  (forall i x, s !! i = Some x -> less x = bool_decide (i < k)%nat) -> (0 < size <= fuel)%nat -> (base + size <= length s)%nat ->
  (base <= k <= base + size)%nat -> binary_search_loop fuel less s size base = Ok k.
Proof.
  induction fuel as [|fuel IH]; intros size base Hs Hf Hl Hk; [lia|]. cbn [binary_search_loop]. destruct (Nat.ltb_spec 1 size) as [H1|H1].
  - assert (Hh : (0 < size / 2 < size)%nat) by (split; [apply Nat.div_str_pos; lia|apply Nat.div_lt; lia]).
    pose proof (Nat.Div0.mul_div_le size 2). destruct (lookup_lt_is_Some_2 s (base + size / 2)) as [x Hx]; [lia|]. rewrite Hx. cbn [expect mbind result_bind]. rewrite (Hs _ _ Hx).
    destruct (bool_decide_reflect (base + size / 2 < k)%nat); apply IH; try done; lia.
  - assert (size = 1%nat) as -> by lia. destruct (lookup_lt_is_Some_2 s base) as [x Hx]; [lia|]. rewrite Hx. cbn [expect mbind result_bind]. rewrite (Hs _ _ Hx).
    destruct (bool_decide_reflect (base < k)%nat); f_equal; lia.
Qed.

Lemma binary_search_by_split less s k : (forall i x, s !! i = Some x -> less x = bool_decide (i < k)%nat) -> (k <= length s)%nat ->
  binary_search_by less s = Ok k.
Proof.
  intros Hs Hk. unfold binary_search_by. destruct s as [|x s]; [cbn in Hk; by replace k with 0%nat by lia|].
  apply (binary_search_loop_split _ _ k); [done|cbn [length] in *; lia..].
Qed.

Lemma prefix_sums_mono weights i j : Forall (fun w => 0 <= w) weights -> (i <= j)%nat -> zsum id (take i weights) <= zsum id (take j weights).
Proof.
  intros Hw Hij. replace j with (i + (j - i))%nat by lia. rewrite <- take_take_drop, zsum_app.
  enough (0 <= zsum id (take (j - i) (drop i weights))) by lia. apply zsum_nonneg. rewrite list.Forall_forall in Hw.
  intros x (k & Hk%list_elem_of_lookup_2 & _)%elem_of_take. apply Hw. rewrite <- (take_drop i weights). set_solver.
Qed.

(** The index whose share of the total holds the weight drawn. *)
Lemma share_of weights c : Forall (fun w => 0 <= w) weights -> 0 <= c < zsum id weights -> exists k, (k < length weights)%nat /\
  zsum id (take k weights) <= c < zsum id (take (S k) weights).
Proof.
  intros Hw. revert c. induction Hw as [|w weights Hw _ IH]; intros c Hc; cbn in Hc; [lia|]. destruct (decide (c < w)) as [Hlt|Hge].
  - exists 0%nat. cbn. rewrite take_0. cbn. unfold id. lia.
  - destruct (IH (c - w)) as (k & Hk & Hs); [unfold id in *; lia|]. exists (S k). cbn [length take zsum] in *. unfold id in *. lia.
Qed.

Definition drawn (round : Z) : Z := (next (u64_to_le_bytes round)).2.

Lemma reputation_elects self round weights :
  weights = heuristic_get_weights self (lr_proposers self) (backend_get_block_metadata self (if 4 <=? round then round - 4 else 0)) ->
  length weights = length (lr_proposers self) -> Forall (fun w => 0 <= w) weights -> 0 < zsum id weights < 2 ^ 64 -> 0 <= drawn round ->
  exists k proposer, get_valid_proposer self round = Ok proposer /\ lr_proposers self !! k = Some proposer /\
    zsum id (take k weights) <= drawn round mod zsum id weights < zsum id (take (S k) weights).
Proof.
  intros E Hlen Hw Hsum Hd. set (c := drawn round mod zsum id weights). assert (Hc : 0 <= c < zsum id weights) by (apply Z.mod_pos_bound; lia).
  destruct (share_of weights c Hw Hc) as (k & Hk & Hs). destruct (lookup_lt_is_Some_2 (lr_proposers self) k) as [p Hp]; [lia|]. exists k, p.
  split; [|done]. unfold get_valid_proposer, leader_reputation_election. rewrite <- E, Hlen, Nat.eqb_refl. cbn [assert_ mbind result_bind].
  rewrite accumulate_sums by (try done; lia). rewrite Z.add_0_l. change (next (u64_to_le_bytes round)) with ((next (u64_to_le_bytes round)).1, drawn round).
  unfold checked_rem. rewrite (proj2 (Z.eqb_neq _ _)) by lia. cbn [mbind result_bind]. fold c.
  rewrite (binary_search_by_split _ _ k); [cbn [mbind result_bind]; by rewrite Hp| |rewrite length_imap; lia].
  intros i y (w & Hw' & ->)%list_lookup_imap_Some. rewrite Z.add_0_l.
  pose proof (prefix_sums_mono weights (S i) k Hw). pose proof (prefix_sums_mono weights (S k) (S i) Hw).
  destruct (bool_decide_reflect (i < k)%nat); [apply Z.leb_le|apply Z.leb_gt]; lia.
Qed.

(** The draw is a [u64]. *)
Lemma drawn_nonneg `{!HashBytesLaws B} round : 0 <= drawn round.
Proof.
  unfold drawn, next. cbn. apply from_be_bytes_bound. unfold is_bytes, hash_to_vec. rewrite <- (Permutation_rev (take 8 _)). apply Forall_take, hash_bytes_bytes.
Qed.

(** C34: The leader of a round is drawn by weight: the number drawn for the round, taken
    modulo the total weight, falls into the share of exactly the proposer elected, so that
    every proposer is elected for as many numbers as its weight; without any weight the
    election panics. *)
Theorem leader_drawn_by_weight `{!HashBytesLaws B} self round weights :
  weights = heuristic_get_weights self (lr_proposers self) (backend_get_block_metadata self (if 4 <=? round then round - 4 else 0)) ->
  length weights = length (lr_proposers self) -> Forall (fun w => 0 <= w) weights -> zsum id weights < 2 ^ 64 ->
  if zsum id weights =? 0 then get_valid_proposer self round = Panic
  else exists k proposer, get_valid_proposer self round = Ok proposer /\ lr_proposers self !! k = Some proposer /\
    zsum id (take k weights) <= drawn round mod zsum id weights < zsum id (take (S k) weights).
Proof.
  intros E Hlen Hw Hsum. destruct (Z.eqb_spec (zsum id weights) 0) as [H0|H0].
  - unfold get_valid_proposer, leader_reputation_election. rewrite <- E, Hlen, Nat.eqb_refl. cbn [assert_ mbind result_bind].
    rewrite accumulate_sums by (try done; lia). by rewrite Z.add_0_l, H0.
  - apply reputation_elects; try done; [|apply drawn_nonneg]. pose proof (zsum_nonneg id weights) as Hn. rewrite list.Forall_forall in Hw. specialize (Hn Hw). lia.
Qed.
End ProposerElection.
