(* ===== verification/LeaderReputation.v ===== *)
(** * The history behind the reputation of leaders

    [LibraDBBackend] of [consensus/src/liveness/leader_reputation.rs]: the blocks committed
    last, read from the events of LibraDB.  The window that it keeps is read again only when
    it can have changed. *)

From S2P Require Import Prelude U64 Bytes Lcs SchemaDb LedgerCounters.
From S2P Require Import Crypto Hash Position Accumulator AccumulatorProof MerkleAccumulator.
From S2P Require Import ValidatorVerifier LedgerInfo SparseMerkleProof SparseMerkleTree LedgerProof NodeType.
From S2P Require Import JellyfishMerkle JellyfishMerkleProof Schema Tables LedgerStore LedgerStoreProof StateStore StateStoreProof.
From S2P Require Import EventStore EventStoreProof TransactionStore TransactionStoreProof Pruner LibraDB LibraDBProof LibraDBReads.
From S2P Require Import ConsensusTypes ProposerElection.

(** [EventKey::new_from_address(&libra_root_address(), 20)]. *)
Definition libra_root_address : AccountAddress := 0xA550C18.
Definition event_key_new_from_address (addr : AccountAddress) (salt : Z) : bytes := u64_to_le_bytes salt ++ account_address_bytes addr.
Definition new_block_event_key : bytes := event_key_new_from_address libra_root_address 20.

Section LeaderReputation.
Context `{Crypto} `{B : !HashBytes, !HashBytesLaws B, !LedgerHashers}.
Context `{!CryptoHash TransactionInfo, !CryptoHash Transaction, !CryptoHash ContractEvent}.
Context `{!CryptoHash AccountStateBlob, !CryptoHash SparseMerkleLeafNode, !CryptoHash AccountAddress}.
Context `{!Lcs LedgerInfoWithSignatures, !Lcs TransactionInfo, !Lcs Transaction, !Lcs ContractEvent, !Lcs LedgerCounters,
  !Lcs LeafNode, !Lcs NewBlockEvent}.
Context {rocks raw_iter : Type} `{!RocksDB rocks raw_iter}.

Record LibraDBBackend := mkLibraDBBackend { window_size : Z; window : list (Z * NewBlockEvent) }.

(** [for (v, e) in events { .. }]. *)
Definition push_block_event (self : LibraDBBackend) (target_round : Z) (res : list (Z * NewBlockEvent)) (row : Z * ContractEvent)
    : result string (list (Z * NewBlockEvent)) :=
  e ← lcs_from_bytes (ce_event_data row.2);
  Ok (if (nbe_round e <=? target_round) && (Z.of_nat (length res) <? window_size self) then res ++ [(row.1, e)] else res).

Definition refresh_window (self : LibraDBBackend) (libra_db : LibraDB (rocks:=rocks)) (target_round : Z) : result string LibraDBBackend :=
  let buffer := 10 in
  events ← get_events libra_db new_block_event_key u64_max false (u64_add (window_size self) buffer);
  res ← result_fold (push_block_event self target_round) events [];
  Ok (mkLibraDBBackend (window_size self) res).

Definition get_block_metadata (self : LibraDBBackend) (libra_db : LibraDB (rocks:=rocks)) (target_round : Z)
    : result string (LibraDBBackend * list NewBlockEvent) :=
  let '(known_version, known_round) :=
    match window self with [] => (0, 0) | (v, e) :: _ => (v, nbe_round e) end in
  known ← (if known_round =? target_round then Ok true
           else match get_latest_version libra_db with
                | Ok latest_version => Ok (known_version =? latest_version)
                | Err _ => Ok (known_version =? 0)
                | Panic => Panic
                end);
  if negb known then
    match refresh_window self libra_db target_round with
    | Ok self => Ok (self, map snd (window self))
    | Err _ => Ok (self, [])
    | Panic => Panic
    end
  else Ok (self, map snd (window self)).

(** ** The window is the recent history *)

Section Window.
Context `{!LcsLaws LedgerInfoWithSignatures, !LcsLaws TransactionInfo, !LcsLaws Transaction, !LcsLaws ContractEvent,
  !LcsLaws LedgerCounters, !LcsLaws LeafNode}.
Context `{!RocksDBLaws rocks raw_iter}.
Notation entries := (list (HashValue * AccountStateBlob)).
Notation event_at := (Z * Z * ContractEvent)%type.

(** The block events decode. *)
Variable decode : ContractEvent -> NewBlockEvent.

Definition block_event (r : event_at) : Z * NewBlockEvent := (r.1.1, decode r.2).

Lemma new_block_event_key_length : length new_block_event_key = EVENT_KEY_LENGTH.
Proof. reflexivity. Qed.

Lemma push_block_events self target rows : forall res, (forall row, row ∈ rows -> lcs_from_bytes (ce_event_data row.2) = Ok (decode row.2)) ->
  0 <= window_size self -> (length res <= Z.to_nat (window_size self))%nat ->
  result_fold (push_block_event self target) rows res =
  Ok (take (Z.to_nat (window_size self)) (res ++ List.filter (fun r => nbe_round r.2 <=? target) (map (fun row => (row.1, decode row.2)) rows))).
Proof.
  induction rows as [|row rows IH]; intros res Hd Hw Hl; cbn [result_fold map List.filter].
  - by rewrite app_nil_r, take_ge.
  - unfold push_block_event at 2. rewrite Hd by (by constructor). cbn [mbind result_bind fst snd].
    destruct (nbe_round (decode row.2) <=? target); cbn [andb]; [|apply IH; [set_solver|done..]].
    destruct (Z.ltb_spec (Z.of_nat (length res)) (window_size self)).
    + rewrite IH; [by rewrite <- app_assoc|set_solver|done|rewrite length_app; cbn; lia].
    + rewrite IH by (done || set_solver). rewrite !take_app_le by lia. done.
Qed.

(** Reading the history again gives the latest committed blocks up to the target round, as
    many as the window holds, the newest first, out of the last [window_size + 10]. *)
Lemma refresh_window_ok db es0 least E lis latest (self : LibraDBBackend) target : db_ok db es0 least E lis -> list.last lis = Some latest ->
  0 <= window_size self <= MAX_LIMIT - 10 ->
  (forall r, r ∈ events_upto (map le_events E) new_block_event_key (version_of latest) -> lcs_from_bytes (ce_event_data r.2) = Ok (decode r.2)) ->
  exists self', refresh_window self db target = Ok self' /\ window_size self' = window_size self /\
    window self' = take (Z.to_nat (window_size self)) (List.filter (fun r => nbe_round r.2 <=? target)
      (map block_event (event_window false u64_max (window_size self + 10) (events_upto (map le_events E) new_block_event_key (version_of latest))))).
Proof.
  intros Hok Hlast Hw Hd. pose proof (ok_commits _ _ _ _ _ Hok) as Hc. rewrite list.Forall_forall in Hc.
  destruct (Hc latest) as [Hv Hr]; [by apply last_Some_elem_of|]. unfold MAX_LIMIT in Hw.
  unfold refresh_window, get_events. rewrite (latest_ok db es0 least E lis Hok latest Hlast), u64_add_small by lia. cbn [mbind result_bind].
  destruct (get_events_by_event_key_ok db es0 least E lis Hok (liws_ledger_info latest) Hv Hr new_block_event_key new_block_event_key_length
    u64_max false (window_size self + 10)) as (evs & -> & Hs); [unfold is_u64, u64_max; lia|unfold MAX_LIMIT; lia|]. cbn [mbind result_bind].
  set (upto := events_upto _ _ _) in *. set (rows := event_window _ _ _ _) in *.
  assert (Hrows : map (fun e => (ewp_transaction_version e, ewp_event e)) evs = map (fun r : event_at => (r.1.1, r.2)) rows).
  { clear -Hs. induction Hs as [|r e rows evs [He _] _ IH]; [done|]. cbn. rewrite IH. by rewrite <- He. }
  assert (Hin : forall r, r ∈ rows -> r ∈ upto).
  { subst rows. unfold event_window. rewrite Z.eqb_refl. case_match; [|by intros r ?%elem_of_nil]. intros r Hr'.
    apply list_elem_of_In, in_rev, list_elem_of_In in Hr'. rewrite <- (take_drop (Z.to_nat (Z.of_nat (length upto) - 1 + 1)) upto).
    apply elem_of_app. left. rewrite <- (take_drop (Z.to_nat (Z.of_nat (length upto) - 1 - (window_size self + 10) + 1)) (take _ upto)). apply elem_of_app. by right. }
  rewrite Hrows, push_block_events; [|intros row (r & -> & Hr')%list_elem_of_fmap; by apply Hd, Hin|lia|cbn; lia].
  eexists. split; [done|]. split; [done|]. cbn. by rewrite map_map.
Qed.
End Window.
End LeaderReputation.
