(* ===== verification/RoundState.v ===== *)
(** * The round of a validator

    [consensus/src/liveness/round_state.rs]: the current round, its votes and its deadline.
    A round starts when a certificate of the round before it is known.  Durations and times
    are numbers; how long a round lasts is the trait [RoundTimeInterval], here a function.
    The timers that an operation starts are part of its result, as pairs of a delay and a
    round. *)

From S2P Require Import Prelude U64 Crypto ValidatorVerifier LedgerInfo Accumulator AccumulatorProof ConsensusTypes PendingVotes.

Inductive NewRoundReason := QCReady | TimeoutReady.
Record NewRoundEvent := mkNewRoundEvent { nre_round : Z; nre_reason : NewRoundReason; nre_timeout : Z }.

Section RoundState.
Context `{Crypto} `{HC : !Countable HashValue}.
Context `{!CryptoHash LedgerInfo, !CryptoHash VoteData, !CryptoHash Timeout}.

Record RoundState := mkRoundState {
  time_interval : Z -> Z;
  rs_highest_committed_round : Z;
  current_round : Z;
  current_round_deadline : Z;
  pending_votes : PendingVotes;
  vote_sent : option Vote
}.

Definition round_state_new (time_interval : Z -> Z) (now : Z) : RoundState :=
  mkRoundState time_interval 0 0 now pending_votes_new None.

Definition with_deadline (self : RoundState) (deadline : Z) : RoundState :=
  mkRoundState (time_interval self) (rs_highest_committed_round self) (current_round self) deadline (pending_votes self) (vote_sent self).

(** The duration of the current round; [now] is the time it reads. *)
Definition setup_deadline (self : RoundState) (now : Z) : RoundState * Z :=
  let round_index_after_committed_round :=
    if rs_highest_committed_round self =? 0 then u64_sub (current_round self) 1
    else if current_round self <? u64_add (rs_highest_committed_round self) 3 then 0
    else u64_sub (u64_sub (current_round self) (rs_highest_committed_round self)) 3 in
  let timeout := time_interval self round_index_after_committed_round in
  (with_deadline self (now + timeout), timeout).

Definition setup_timeout (self : RoundState) (now : Z) : RoundState * Z * list (Z * Z) :=
  let '(self, timeout) := setup_deadline self now in
  (self, timeout, [(timeout, current_round self)]).

Definition process_local_timeout (self : RoundState) (round now : Z) : RoundState * bool * list (Z * Z) :=
  if negb (round =? current_round self) then (self, false, [])
  else let '(self, _, timers) := setup_timeout self now in (self, true, timers).

Definition process_certificates (self : RoundState) (sync_info : SyncInfo) (now : Z)
    : RoundState * option NewRoundEvent * list (Z * Z) :=
  let self := mkRoundState (time_interval self)
    (if rs_highest_committed_round self <? highest_commit_round sync_info then highest_commit_round sync_info else rs_highest_committed_round self)
    (current_round self) (current_round_deadline self) (pending_votes self) (vote_sent self) in
  let new_round := u64_add (highest_round sync_info) 1 in
  if current_round self <? new_round then
    let self := mkRoundState (time_interval self) (rs_highest_committed_round self) new_round (current_round_deadline self) pending_votes_new None in
    let '(self, timeout, timers) := setup_timeout self now in
    let new_round_reason := match si_highest_timeout_cert sync_info with None => QCReady | Some _ => TimeoutReady end in
    (self, Some (mkNewRoundEvent (current_round self) new_round_reason timeout), timers)
  else (self, None, []).

Definition rs_insert_vote (self : RoundState) (vote : Vote) (verifier : ValidatorVerifier) : RoundState * VoteReceptionResult :=
  if bi_round (vd_proposed (vote_data vote)) =? current_round self then
    let '(pending, r) := insert_vote (pending_votes self) vote verifier in
    (mkRoundState (time_interval self) (rs_highest_committed_round self) (current_round self) (current_round_deadline self) pending (vote_sent self), r)
  else (self, UnexpectedRound (bi_round (vd_proposed (vote_data vote))) (current_round self)).

Definition record_vote (self : RoundState) (vote : Vote) : RoundState :=
  if bi_round (vd_proposed (vote_data vote)) =? current_round self
  then mkRoundState (time_interval self) (rs_highest_committed_round self) (current_round self) (current_round_deadline self) (pending_votes self) (Some vote)
  else self.

(** ** Rounds go forward *)

(** What can happen to a round state, with the event it gives out. *)
Inductive round_step (verifier : ValidatorVerifier) : RoundState -> option NewRoundEvent -> RoundState -> Prop :=
| step_certificates self sync_info now :
    round_step verifier self (process_certificates self sync_info now).1.2 (process_certificates self sync_info now).1.1
| step_local_timeout self round now : round_step verifier self None (process_local_timeout self round now).1.1
| step_insert_vote self vote : round_step verifier self None (rs_insert_vote self vote verifier).1
| step_record_vote self vote : round_step verifier self None (record_vote self vote).

(** A sequence of steps with the rounds it starts. *)
Inductive round_run (verifier : ValidatorVerifier) : RoundState -> list Z -> RoundState -> Prop :=
| run_nil self : round_run verifier self [] self
| run_step self event self' rounds self'' : round_step verifier self event self' -> round_run verifier self' rounds self'' ->
    round_run verifier self (match event with Some e => nre_round e :: rounds | None => rounds end) self''.

(** Only votes of the current round are kept. *)
Record round_ok (self : RoundState) : Prop := {
  ro_pending : forall a v, author_to_vote (pending_votes self) !! a = Some v -> vote_round v = current_round self;
  ro_sent : forall v, vote_sent self = Some v -> vote_round v = current_round self
}.

Lemma insert_vote_keeps pv vote verifier a v : author_to_vote (insert_vote pv vote verifier).1 !! a = Some v ->
  v = vote \/ author_to_vote pv !! a = Some v.
Proof.
  assert (Hst : author_to_vote (store_vote pv vote verifier).1 = <[vote_author vote := vote]> (author_to_vote pv)).
  { unfold store_vote, insert_timeout_vote. by repeat case_match. }
  assert (Hs : author_to_vote (store_vote pv vote verifier).1 !! a = Some v -> v = vote \/ author_to_vote pv !! a = Some v).
  { rewrite Hst. intros [[_ <-]|[_ ?]]%lookup_insert_Some; auto. }
  unfold insert_vote. repeat case_match; auto.
Qed.

Lemma round_step_ok verifier self event self' : round_ok self -> round_step verifier self event self' ->
  round_ok self' /\ match event with Some e => nre_round e = current_round self' /\ current_round self < current_round self' | None => current_round self' = current_round self end.
Proof.
  intros [Hp Hs] H1. destruct H1 as [self sync_info now|self round now|self vote|self vote].
  - unfold process_certificates, setup_timeout, setup_deadline. cbn. destruct (Z.ltb_spec (current_round self) (u64_add (highest_round sync_info) 1)); cbn; [|by split].
    by split; [split|].
  - unfold process_local_timeout, setup_timeout, setup_deadline. destruct (round =? current_round self); cbn; by split.
  - unfold rs_insert_vote. destruct (Z.eqb_spec (bi_round (vd_proposed (vote_data vote))) (current_round self)) as [E|_]; [|by split].
    pose proof (insert_vote_keeps (pending_votes self) vote verifier) as Hk. destruct (insert_vote _ _ _) as [pending r]. cbn in Hk |- *. split; [|done]. split; cbn; [|done].
    intros a v [->|Hv]%Hk; [done|by eapply Hp].
  - unfold record_vote. destruct (Z.eqb_spec (bi_round (vd_proposed (vote_data vote))) (current_round self)) as [E|_]; [|by split].
    split; [|done]. split; cbn; [done|]. by intros v [= <-].
Qed.

Lemma round_run_ok verifier self rounds self' : round_run verifier self rounds self' -> round_ok self ->
  round_ok self' /\ Sorted.StronglySorted Z.lt (current_round self :: rounds) /\ list.last (current_round self :: rounds) = Some (current_round self').
Proof.
  induction 1 as [self|self event self' rounds self'' Hst _ IH]; intros Hok; [split_and!; [done|apply Sorted.SSorted_cons; constructor|done]|].
  destruct (round_step_ok _ _ _ _ Hok Hst) as [Hok' He]. destruct (IH Hok') as (Hok'' & Hso & Hla). destruct event as [e|].
  - destruct He as [-> Hlt]. split_and!; [done| |by rewrite last_cons_cons]. constructor; [done|]. constructor; [done|].
    inv Hso. eapply list.Forall_impl; [eassumption|]. cbn. intros; lia.
  - by rewrite He in Hso, Hla.
Qed.

(** The certificates decide the round, and its timer is for it. *)
Lemma process_certificates_round self sync_info now : 0 <= highest_round sync_info < u64_max ->
  let '(self', event, timers) := process_certificates self sync_info now in
  current_round self' = Z.max (current_round self) (highest_round sync_info + 1) /\
  rs_highest_committed_round self' = Z.max (rs_highest_committed_round self) (highest_commit_round sync_info) /\
  match event with
  | Some e => timers = [(nre_timeout e, current_round self')] /\ current_round_deadline self' = now + nre_timeout e
  | None => timers = [] /\ current_round self' = current_round self
  end.
Proof.
  intros Hr. unfold process_certificates, setup_timeout, setup_deadline. cbn. rewrite u64_add_small by (unfold u64_max in Hr; lia).
  destruct (Z.ltb_spec (current_round self) (highest_round sync_info + 1)); cbn;
    destruct (Z.ltb_spec (rs_highest_committed_round self) (highest_commit_round sync_info)); split_and!; done || lia.
Qed.

(** C26: Whatever certificates, timeouts and votes come in any order, the rounds that a
    validator starts are strictly increasing, the last one is the current round, and the
    votes it keeps, received or sent, are of the current round only. *)
Theorem new_rounds_increase verifier interval now rounds self : round_run verifier (round_state_new interval now) rounds self ->
  Sorted.StronglySorted Z.lt (0 :: rounds) /\ list.last (0 :: rounds) = Some (current_round self) /\
  (forall a v, author_to_vote (pending_votes self) !! a = Some v -> vote_round v = current_round self) /\
  (forall v, vote_sent self = Some v -> vote_round v = current_round self).
Proof.
  intros Hr. destruct (round_run_ok _ _ _ _ Hr) as ([Hp Hs] & Hso & Hla); [by split|]. by split_and!.
Qed.
End RoundState.
