(* ===== verification/BlockTree.v ===== *)
(** * The block tree

    [consensus/src/block_storage/block_tree.rs]: the blocks that a validator knows above
    the last committed one, with their quorum certificates.  A commit moves the root; the
    blocks that are pruned stay in memory for a while, for peers that still ask for them. *)

From S2P Require Import Prelude U64 Crypto ValidatorVerifier LedgerInfo Accumulator AccumulatorProof ConsensusTypes.

(** The order in which a [HashSet] is iterated is not specified. *)
Class HashSetOrder (K : Type) `{Countable K} := {
  set_iter : gset K -> list K;
  set_iter_perm : forall X : gset K, set_iter X ≡ₚ elements X
}.

Lemma elem_of_set_iter {K} `{HashSetOrder K} (X : gset K) x : x ∈ set_iter X <-> x ∈ X.
Proof. rewrite set_iter_perm. apply elem_of_elements. Qed.

Lemma NoDup_set_iter {K} `{HashSetOrder K} (X : gset K) : NoDup (set_iter X).
Proof. rewrite set_iter_perm. apply NoDup_elements. Qed.

Section BlockTree.
Context `{Crypto} `{HC : !Countable HashValue, !HashSetOrder HashValue}.

(** ** Executed blocks *)

(** [execution/executor-types/src/lib.rs]; transaction statuses are kept serialized. *)
Record StateComputeResult := mkStateComputeResult {
  scr_root_hash : HashValue;
  scr_frozen_subtree_roots : list HashValue;
  scr_parent_frozen_subtree_roots : list HashValue;
  scr_num_leaves : Z;
  scr_parent_num_leaves : Z;
  scr_epoch_state : option EpochState;
  scr_compute_status : list Bytes;
  scr_transaction_info_hashes : list HashValue;
  scr_signature : option Signature
}.

#[export] Instance StateComputeResult_eq_dec : EqDecision StateComputeResult.
Proof. solve_decision. Defined.

Definition state_compute_result_new (root_hash : HashValue) (frozen_subtree_roots : list HashValue) (num_leaves : Z)
    (parent_frozen_subtree_roots : list HashValue) (parent_num_leaves : Z) (epoch_state : option EpochState)
    (compute_status : list Bytes) (transaction_info_hashes : list HashValue) : StateComputeResult :=
  mkStateComputeResult root_hash frozen_subtree_roots parent_frozen_subtree_roots num_leaves parent_num_leaves epoch_state
    compute_status transaction_info_hashes None.

Definition scr_version (self : StateComputeResult) : Z := Z.max (scr_num_leaves self) 1 - 1.
Definition scr_extension_proof (self : StateComputeResult) : AccumulatorExtensionProof (HashValue:=HashValue) :=
  mkAccumulatorExtensionProof (scr_parent_frozen_subtree_roots self) (scr_parent_num_leaves self) (scr_transaction_info_hashes self).

(** [consensus/consensus-types/src/executed_block.rs]. *)
Record ExecutedBlock := mkExecutedBlock { eb_block : Block; eb_compute_result : StateComputeResult }.

Definition eb_id (self : ExecutedBlock) : HashValue := block_id (eb_block self).
Definition eb_quorum_cert (self : ExecutedBlock) : QuorumCert := block_quorum_cert (eb_block self).
Definition eb_parent_id (self : ExecutedBlock) : HashValue := bi_id (certified_block (eb_quorum_cert self)).
Definition eb_round (self : ExecutedBlock) : Z := block_round (eb_block self).
Definition eb_timestamp_usecs (self : ExecutedBlock) : Z := block_timestamp_usecs (eb_block self).
Definition eb_block_info (self : ExecutedBlock) : BlockInfo :=
  gen_block_info (eb_block self) (scr_root_hash (eb_compute_result self)) (scr_version (eb_compute_result self))
    (scr_epoch_state (eb_compute_result self)).
Definition maybe_signed_vote_proposal (self : ExecutedBlock) : MaybeSignedVoteProposal :=
  mkMaybeSignedVoteProposal
    (mkVoteProposal (scr_extension_proof (eb_compute_result self)) (eb_block self) (scr_epoch_state (eb_compute_result self)))
    (scr_signature (eb_compute_result self)).

(** ** The tree *)

Record LinkableBlock := mkLinkableBlock { lb_executed_block : ExecutedBlock; lb_children : gset HashValue }.

Definition linkable_block_new (block : ExecutedBlock) : LinkableBlock := mkLinkableBlock block ∅.
Definition add_child (self : LinkableBlock) (child_id : HashValue) : result string LinkableBlock :=
  _ ← assert_ (bool_decide (child_id ∉ lb_children self));
  Ok (mkLinkableBlock (lb_executed_block self) ({[ child_id ]} ∪ lb_children self)).
Definition lb_id (self : LinkableBlock) : HashValue := eb_id (lb_executed_block self).

Record BlockTree := mkBlockTree {
  id_to_block : gmap HashValue LinkableBlock;
  root_id : HashValue;
  highest_certified_block_id : HashValue;
  bt_highest_quorum_cert : QuorumCert;
  bt_highest_timeout_cert : option TimeoutCertificate;
  bt_highest_commit_cert : QuorumCert;
  id_to_quorum_cert : gmap HashValue QuorumCert;
  pruned_block_ids : list HashValue;
  max_pruned_blocks_in_mem : nat
}.

Definition block_tree_new (root : ExecutedBlock) (root_quorum_cert root_ledger_info : QuorumCert) (max_pruned : nat)
    (highest_timeout_cert : option TimeoutCertificate) : result string BlockTree :=
  _ ← assert_ (bool_decide (eb_id root = bi_id (qc_commit_info root_ledger_info)));
  let root_id := eb_id root in
  Ok (mkBlockTree {[ root_id := linkable_block_new root ]} root_id root_id root_quorum_cert highest_timeout_cert root_ledger_info
        {[ bi_id (certified_block root_quorum_cert) := root_quorum_cert ]} [] max_pruned).

Definition with_blocks (self : BlockTree) (blocks : gmap HashValue LinkableBlock) : BlockTree :=
  mkBlockTree blocks (root_id self) (highest_certified_block_id self) (bt_highest_quorum_cert self) (bt_highest_timeout_cert self)
    (bt_highest_commit_cert self) (id_to_quorum_cert self) (pruned_block_ids self) (max_pruned_blocks_in_mem self).

Definition get_linkable_block (self : BlockTree) (id : HashValue) : option LinkableBlock := id_to_block self !! id.
Definition linkable_root (self : BlockTree) : result string LinkableBlock := expect (get_linkable_block self (root_id self)).

Definition remove_block (self : BlockTree) (id : HashValue) : BlockTree :=
  mkBlockTree (delete id (id_to_block self)) (root_id self) (highest_certified_block_id self) (bt_highest_quorum_cert self)
    (bt_highest_timeout_cert self) (bt_highest_commit_cert self) (delete id (id_to_quorum_cert self)) (pruned_block_ids self)
    (max_pruned_blocks_in_mem self).

Definition bt_block_exists (self : BlockTree) (id : HashValue) : bool := bool_decide (is_Some (id_to_block self !! id)).
Definition bt_get_block (self : BlockTree) (id : HashValue) : option ExecutedBlock := lb_executed_block <$> get_linkable_block self id.
Definition bt_root (self : BlockTree) : result string ExecutedBlock := expect (bt_get_block self (root_id self)).
Definition bt_highest_certified_block (self : BlockTree) : result string ExecutedBlock :=
  expect (bt_get_block self (highest_certified_block_id self)).

Definition replace_timeout_cert (self : BlockTree) (tc : TimeoutCertificate) : BlockTree :=
  mkBlockTree (id_to_block self) (root_id self) (highest_certified_block_id self) (bt_highest_quorum_cert self) (Some tc)
    (bt_highest_commit_cert self) (id_to_quorum_cert self) (pruned_block_ids self) (max_pruned_blocks_in_mem self).

Definition bt_get_quorum_cert_for_block (self : BlockTree) (id : HashValue) : option QuorumCert := id_to_quorum_cert self !! id.

Definition insert_block (self : BlockTree) (block : ExecutedBlock) : result string (BlockTree * ExecutedBlock) :=
  let id := eb_id block in
  match bt_get_block self id with
  | Some existing_block =>
    _ ← assert_ (bool_decide (eb_compute_result existing_block = eb_compute_result block));
    Ok (self, existing_block)
  | None =>
    match get_linkable_block self (eb_parent_id block) with
    | Some parent_block =>
      parent_block ← add_child parent_block id;
      let blocks := <[eb_parent_id block := parent_block]> (id_to_block self) in
      _ ← assert_ (bool_decide (blocks !! id = None));
      Ok (with_blocks self (<[id := linkable_block_new block]> blocks), block)
    | None => Err "Parent block not found"%string
    end
  end.

Definition bt_insert_quorum_cert (self : BlockTree) (qc : QuorumCert) : result string BlockTree :=
  let id := bi_id (certified_block qc) in
  match bt_get_block self id with
  | Some block =>
    highest ← bt_highest_certified_block self;
    let higher := eb_round highest <? eb_round block in
    Ok (mkBlockTree (id_to_block self) (root_id self)
          (if higher then eb_id block else highest_certified_block_id self)
          (if higher then qc else bt_highest_quorum_cert self)
          (bt_highest_timeout_cert self)
          (if bi_round (qc_commit_info (bt_highest_commit_cert self)) <? bi_round (qc_commit_info qc)
           then qc else bt_highest_commit_cert self)
          (match id_to_quorum_cert self !! id with
           | Some _ => id_to_quorum_cert self
           | None => <[id := qc]> (id_to_quorum_cert self)
           end)
          (pruned_block_ids self) (max_pruned_blocks_in_mem self))
  | None => Err "Block not found"%string
  end.

(** ** Pruning *)

(** [for child_id in block_to_remove.children() { .. }]; the stack has its top first. *)
Definition push_child (self : BlockTree) (next_root_id : HashValue) (blocks_to_be_pruned : list LinkableBlock)
    (child_id : HashValue) : result string (list LinkableBlock) :=
  if bool_decide (next_root_id = child_id) then Ok blocks_to_be_pruned
  else child ← expect (get_linkable_block self child_id); Ok (child :: blocks_to_be_pruned).

(** [while let Some(block_to_remove) = blocks_to_be_pruned.pop() { .. }]; no block is
    visited twice. *)
Fixpoint prune_loop (fuel : nat) (self : BlockTree) (next_root_id : HashValue) (blocks_to_be_pruned : list LinkableBlock)
    (blocks_pruned : list HashValue) : result string (list HashValue) :=
  match blocks_to_be_pruned with
  | [] => Ok blocks_pruned
  | block_to_remove :: blocks_to_be_pruned =>
    match fuel with
    | O => Panic
    | S fuel =>
      blocks_to_be_pruned ← result_fold (push_child self next_root_id) (set_iter (lb_children block_to_remove)) blocks_to_be_pruned;
      prune_loop fuel self next_root_id blocks_to_be_pruned (blocks_pruned ++ [lb_id block_to_remove])
    end
  end.

Definition find_blocks_to_prune (self : BlockTree) (next_root_id : HashValue) : result string (list HashValue) :=
  if bool_decide (next_root_id = root_id self) then Ok []
  else root ← linkable_root self; prune_loop (size (id_to_block self)) self next_root_id [root] [].

(** The oldest pruned blocks beyond the limit leave the memory. *)
Definition process_pruned_blocks (self : BlockTree) (new_root_id : HashValue) (newly_pruned_blocks : list HashValue)
    : result string BlockTree :=
  _ ← assert_ (bt_block_exists self new_root_id);
  let pruned := pruned_block_ids self ++ newly_pruned_blocks in
  let num_blocks_to_remove := (length pruned - max_pruned_blocks_in_mem self)%nat in
  let self := mkBlockTree (id_to_block self) new_root_id (highest_certified_block_id self) (bt_highest_quorum_cert self)
    (bt_highest_timeout_cert self) (bt_highest_commit_cert self) (id_to_quorum_cert self) (drop num_blocks_to_remove pruned)
    (max_pruned_blocks_in_mem self) in
  Ok (foldl remove_block self (take num_blocks_to_remove pruned)).

(** ** Paths *)

(** The loop of [path_from_root]: where it stops, and the blocks on the way; rounds go
    down, so that it passes every block once at most. *)
Fixpoint path_loop (fuel : nat) (self : BlockTree) (cur_block_id : HashValue) (res : list ExecutedBlock)
    : result string (option (HashValue * list ExecutedBlock)) :=
  match fuel with
  | O => Panic
  | S fuel =>
    match bt_get_block self cur_block_id with
    | Some block =>
      root ← bt_root self;
      if eb_round block <=? eb_round root then Ok (Some (cur_block_id, res))
      else path_loop fuel self (eb_parent_id block) (res ++ [block])
    | None => Ok None
    end
  end.

Definition bt_path_from_root (self : BlockTree) (id : HashValue) : result string (option (list ExecutedBlock)) :=
  r ← path_loop (S (size (id_to_block self))) self id [];
  match r with
  | Some (cur_block_id, res) =>
    if negb (bool_decide (cur_block_id = root_id self)) then Ok None else Ok (Some (rev res))
  | None => Ok None
  end.

(** The keys of the map; the storage deletes them all, so their order is of no account. *)
Definition get_all_block_id (self : BlockTree) : list HashValue := map fst (map_to_list (id_to_block self)).
End BlockTree.
