(* ===== verification/BlockTreeProof.v ===== *)
(** * The block tree: invariant, pruning and paths

    The invariant of the tree is kept by every operation: links of parents and children
    match, the pruned blocks are outside the tree with parents before children, and the
    certified block of the highest round is in the tree.  It makes the assertions of the
    code hold, its loops end, pruning remove exactly the blocks that do not descend from
    the new root, and the path from the root be the chain of blocks up to the given one. *)

From S2P Require Import Prelude U64 Crypto ValidatorVerifier LedgerInfo Accumulator AccumulatorProof ConsensusTypes BlockTree.

(** ** Order in a list without duplicates *)

Section Before.
Context {A : Type}.

Definition before (x y : A) (l : list A) : Prop := exists l1 l2 l3, l = l1 ++ x :: l2 ++ y :: l3.

Lemma before_app_l x y l k : before x y l -> before x y (l ++ k).
Proof. intros (l1 & l2 & l3 & ->). exists l1, l2, (l3 ++ k). by list_simplifier. Qed.
Lemma before_app_r x y l k : before x y l -> before x y (k ++ l).
Proof. intros (l1 & l2 & l3 & ->). exists (k ++ l1), l2, l3. by list_simplifier. Qed.
Lemma before_app x y l k : x ∈ l -> y ∈ k -> before x y (l ++ k).
Proof.
  intros (l1 & l2 & ->)%list_elem_of_split (k1 & k2 & ->)%list_elem_of_split.
  exists l1, (l2 ++ k1), k2. by list_simplifier.
Qed.

(** What is before an element of a prefix is in the prefix; what is before an element of
    the rest is there too, or in the prefix. *)
Lemma before_take x y l n : NoDup l -> before x y l -> y ∈ take n l -> x ∈ take n l.
Proof.
  intros Hnd (l1 & l2 & l3 & E) Hy. assert (Hd : l = (l1 ++ x :: l2) ++ y :: l3) by (rewrite E; by list_simplifier).
  destruct (decide (length (l1 ++ x :: l2) < n)%nat) as [Hlt|Hge].
  - rewrite Hd, take_app_ge by lia. apply elem_of_app. left. apply elem_of_app. right. by constructor.
  - exfalso. rewrite Hd, take_app_le in Hy by lia. rewrite Hd in Hnd. apply list.NoDup_app in Hnd as (_ & Hn & _). eapply Hn; [|by constructor].
    by apply elem_of_take in Hy as (i & Hi%list_elem_of_lookup_2 & _).
Qed.

Lemma before_drop x y l n : NoDup l -> before x y l -> x ∈ take n l \/ before x y (drop n l).
Proof.
  intros Hnd (l1 & l2 & l3 & ->). destruct (decide (length l1 < n)%nat) as [Hlt|Hge].
  - left. rewrite take_app_ge by lia. apply elem_of_app. right. destruct (n - length l1)%nat eqn:En; [lia|]. by constructor.
  - right. rewrite drop_app_le by lia. by exists (drop n l1), l2, l3.
Qed.
End Before.

Section BlockTreeProof.
Context `{Crypto} `{HC : !Countable HashValue, !HashSetOrder HashValue}.

(** Identifiers determine blocks, hence their parents and rounds; quorum certificates
    certify the right round. *)
Variables (round_of : HashValue -> Z) (parent_of : HashValue -> HashValue).
Hypothesis Hmono : forall x, round_of (parent_of x) <= round_of x.

Record valid_block (b : ExecutedBlock) : Prop := {
  vb_round : round_of (eb_id b) = eb_round b;
  vb_parent : parent_of (eb_id b) = eb_parent_id b;
  vb_lower : round_of (eb_parent_id b) < eb_round b
}.

Definition child (t : BlockTree) (x y : HashValue) : Prop := exists lb, id_to_block t !! x = Some lb /\ y ∈ lb_children lb.
Definition descends (t : BlockTree) : HashValue -> HashValue -> Prop := rtc (child t).
Definition in_tree (t : BlockTree) (x : HashValue) : Prop := descends t (root_id t) x.

Record tree_ok (t : BlockTree) : Prop := {
  ok_block : forall i lb, id_to_block t !! i = Some lb -> lb_id lb = i /\ valid_block (lb_executed_block lb);
  ok_root : is_Some (id_to_block t !! root_id t);
  ok_link : forall i c, child t i c -> exists lc, id_to_block t !! c = Some lc /\ eb_parent_id (lb_executed_block lc) = i;
  ok_parent : forall c lc, id_to_block t !! c = Some lc -> is_Some (id_to_block t !! eb_parent_id (lb_executed_block lc)) ->
    child t (eb_parent_id (lb_executed_block lc)) c;
  ok_where : forall i, is_Some (id_to_block t !! i) -> in_tree t i \/ i ∈ pruned_block_ids t;
  ok_pruned : forall i, i ∈ pruned_block_ids t -> is_Some (id_to_block t !! i);
  ok_pruned_NoDup : NoDup (pruned_block_ids t);
  ok_pruned_out : forall i n, i ∈ pruned_block_ids t -> ~ in_tree t (Nat.iter n parent_of i);
  ok_order : forall i c, child t i c -> c ∈ pruned_block_ids t -> before i c (pruned_block_ids t);
  ok_certified : in_tree t (highest_certified_block_id t) /\ bi_id (certified_block (bt_highest_quorum_cert t)) = highest_certified_block_id t;
  ok_qcs : forall i qc, id_to_quorum_cert t !! i = Some qc -> bi_id (certified_block qc) = i /\ is_Some (id_to_block t !! i) /\
    round_of i <= round_of (highest_certified_block_id t)
}.

Section Facts.
Variable t : BlockTree.
Hypothesis Hok : tree_ok t.

Lemma child_parent x y : child t x y -> parent_of y = x /\ round_of x < round_of y.
Proof.
  intros (lc & Hc & <-)%(ok_link t Hok). destruct (ok_block t Hok y lc Hc) as [<- [Hr Hp Hl]]. unfold lb_id. rewrite Hp, Hr. done.
Qed.

Lemma child_unique x x' y : child t x y -> child t x' y -> x = x'.
Proof. intros [<- _]%child_parent [<- _]%child_parent. done. Qed.

Lemma descends_round x y : descends t x y -> x = y \/ round_of x < round_of y.
Proof. induction 1 as [|x z y Hc _ IH]; [by left|right]. apply child_parent in Hc as [_ Hc]. destruct IH as [<-|?]; lia. Qed.

Lemma descends_known x y : descends t x y -> is_Some (id_to_block t !! x) -> is_Some (id_to_block t !! y).
Proof. induction 1 as [|x z y Hc _ IH]; [done|]. intros _. apply IH. apply (ok_link t Hok) in Hc as (lc & -> & _). by eexists. Qed.

Lemma in_tree_known x : in_tree t x -> is_Some (id_to_block t !! x).
Proof. intros Hx. by apply (descends_known _ _ Hx), Hok. Qed.

Lemma descends_trans x y z : descends t x y -> descends t y z -> descends t x z.
Proof. unfold descends. intros ? ?. by transitivity y. Qed.

(** The last step of a descent. *)
Lemma descends_last x y : descends t x y -> x = y \/ exists z, descends t x z /\ child t z y.
Proof. intros [->|(z & ? & ?)]%rtc_inv_r; [by left|right; by exists z]. Qed.

Lemma root_parent x : child t x (root_id t) -> x ∈ pruned_block_ids t.
Proof.
  intros Hc. destruct (ok_where t Hok x) as [Hx|?]; [destruct Hc as (lb & -> & _); by eexists| |done].
  apply child_parent in Hc as [_ Hc]. destruct (descends_round _ _ Hx) as [E|?]; [rewrite E in Hc|]; lia.
Qed.

(** Ancestors of the root are not in the tree. *)
Lemma above_root n : ~ in_tree t (Nat.iter (S n) parent_of (root_id t)).
Proof.
  destruct (ok_root t Hok) as [lb Hr]. destruct (ok_block t Hok _ _ Hr) as [Hid [Hrd Hp Hl]]. unfold lb_id in Hid.
  assert (Hb : round_of (Nat.iter (S n) parent_of (root_id t)) < round_of (root_id t)).
  { induction n as [|n IH]; [cbn; rewrite <- Hid, Hp, Hrd; done|]. cbn. pose proof (Hmono (Nat.iter (S n) parent_of (root_id t))) as Hm. cbn in IH, Hm. lia. }
  intros Hin. destruct (descends_round _ _ Hin) as [E|?]; [rewrite <- E in Hb|]; lia.
Qed.

(** An ancestor that is in the tree is one through the links. *)
Lemma ancestor_descends y n : in_tree t y -> in_tree t (Nat.iter n parent_of y) -> descends t (Nat.iter n parent_of y) y.
Proof.
  revert y. induction n as [|n IH]; intros y Hy Ha; [done|]. rewrite Nat.iter_succ_r in Ha |- *.
  destruct (descends_last _ _ Hy) as [<-|(z & Hz & Hc)].
  - rewrite <- Nat.iter_succ_r in Ha. by apply above_root in Ha.
  - destruct (child_parent _ _ Hc) as [E _]. rewrite E in Ha |- *. eapply rtc_r; [by apply IH|done].
Qed.
End Facts.

(** ** Inserting a block *)

Section InsertBlock.
Variables (t : BlockTree) (b : ExecutedBlock).
Hypothesis Hok : tree_ok t.
Hypothesis Hb : valid_block b.
Hypothesis Hparent : in_tree t (eb_parent_id b).
Hypothesis Hnew : id_to_block t !! eb_id b = None.

(** The tree with the block below its parent [lb]. *)
Definition extended (lb : LinkableBlock) : BlockTree :=
  with_blocks t (<[eb_id b := linkable_block_new b]> (<[eb_parent_id b := mkLinkableBlock (lb_executed_block lb) ({[ eb_id b ]} ∪ lb_children lb)]> (id_to_block t))).

Variable lb : LinkableBlock.
Hypothesis Hlb : id_to_block t !! eb_parent_id b = Some lb.

Lemma new_not_parent : eb_id b <> eb_parent_id b.
Proof. intros E. by rewrite E, Hlb in Hnew. Qed.

Lemma extended_lookup i : id_to_block (extended lb) !! i =
  if decide (i = eb_id b) then Some (linkable_block_new b)
  else if decide (i = eb_parent_id b) then Some (mkLinkableBlock (lb_executed_block lb) ({[ eb_id b ]} ∪ lb_children lb))
  else id_to_block t !! i.
Proof.
  cbn. destruct (decide (i = eb_id b)) as [->|Hi]; [by rewrite lookup_insert_eq|]. rewrite lookup_insert_ne by done.
  destruct (decide (i = eb_parent_id b)) as [->|Hp]; [by rewrite lookup_insert_eq|by rewrite lookup_insert_ne].
Qed.

Lemma extended_child x y : child (extended lb) x y <-> child t x y \/ x = eb_parent_id b /\ y = eb_id b.
Proof.
  unfold child. rewrite extended_lookup. destruct (decide (x = eb_id b)) as [->|Hx]; [|destruct (decide (x = eb_parent_id b)) as [->|Hp]].
  - rewrite Hnew. split; [intros (l & [= <-] & Hy); cbn in Hy; set_solver|]. intros [(l & ? & _)|[E _]]; [done|by apply new_not_parent in E].
  - rewrite Hlb. split.
    + intros (l & [= <-] & Hy). cbn in Hy. apply elem_of_union in Hy as [->%elem_of_singleton|Hy]; [by right|left; by exists lb].
    + intros Hc. eexists. split; [done|]. cbn. destruct Hc as [(l & [= <-] & ?)|[_ ->]]; set_solver.
  - split; [by left|]. by intros [?|[? _]].
Qed.

Lemma extended_descends x y : descends (extended lb) x y <-> descends t x y \/ descends t x (eb_parent_id b) /\ y = eb_id b \/ x = eb_id b /\ y = eb_id b.
Proof.
  split.
  - induction 1 as [x|x z y Hc _ IH]; [by left; constructor|]. apply extended_child in Hc as [Hc|[-> ->]].
    + destruct IH as [IH|[[IH ->]|[-> ->]]]; [left; by eapply rtc_l|right; left; split; [by eapply rtc_l|done]|].
      exfalso. apply (ok_link t Hok) in Hc as (lc & Hc & _). by rewrite Hnew in Hc.
    + destruct IH as [IH|[[IH ->]|[_ ->]]]; [|right; left; split; [constructor|done]..].
      destruct (rtc_inv _ _ IH) as [<-|(z & (l & Hz & _) & _)]; [right; left; split; [constructor|done]|by rewrite Hnew in Hz].
  - assert (Hsub : forall x y, descends t x y -> descends (extended lb) x y).
    { intros x' y' Hd. eapply rtc_subrel; [|exact Hd]. intros ? ? Hc. apply extended_child. by left. }
    intros [Hd|[[Hd ->]|[-> ->]]]; [by apply Hsub| |constructor]. eapply rtc_r; [by apply Hsub|]. apply extended_child. by right.
Qed.

Lemma extended_in_tree x : in_tree (extended lb) x <-> in_tree t x \/ x = eb_id b.
Proof.
  unfold in_tree. change (root_id (extended lb)) with (root_id t). rewrite extended_descends. split.
  - intros [?|[[_ ->]|[_ ->]]]; auto.
  - intros [?| ->]; [by left|right; left; done].
Qed.

Lemma no_children_yet c lc : id_to_block t !! c = Some lc -> eb_parent_id (lb_executed_block lc) <> eb_id b.
Proof.
  intros Hc E. destruct (ok_block t Hok c lc Hc) as [Hid [Hr Hp Hl]]. unfold lb_id in Hid. rewrite Hid, E in Hp. rewrite E in Hl.
  destruct (ok_where t Hok c) as [Hin|Hin]; [by rewrite Hc|..].
  - destruct (descends_last _ _ _ Hin) as [<-|(z & Hz & Hcz)].
    + rewrite Hid in Hr. rewrite (vb_round b Hb) in Hl. pose proof (vb_lower b Hb). destruct (descends_round t Hok _ _ Hparent) as [E'|?]; [rewrite <- E' in *|]; lia.
    + destruct (child_parent t Hok _ _ Hcz) as [Ez _]. rewrite Hp in Ez. subst z. destruct Hcz as (l & Hl' & _). by rewrite Hnew in Hl'.
  - apply (ok_pruned_out t Hok c 2 Hin). cbn. by rewrite Hp, (vb_parent b Hb).
Qed.

Lemma extended_known i : is_Some (id_to_block (extended lb) !! i) <-> is_Some (id_to_block t !! i) \/ i = eb_id b.
Proof.
  rewrite extended_lookup. destruct (decide (i = eb_id b)) as [->|Hi]; [split; eauto|]. destruct (decide (i = eb_parent_id b)) as [->|Hp].
  - rewrite Hlb. split; eauto.
  - split; [auto|]. by intros [?|?].
Qed.

Lemma extended_ok : tree_ok (extended lb).
Proof.
  split.
  - intros i l. rewrite extended_lookup. destruct (decide (i = eb_id b)) as [->|Hi]; [by intros [= <-]|].
    destruct (decide (i = eb_parent_id b)) as [->|Hp]; [intros [= <-]; apply (ok_block t Hok _ lb Hlb)|apply (ok_block t Hok)].
  - apply extended_known. left. apply Hok.
  - intros i c [Hc|[-> ->]]%extended_child.
    + apply (ok_link t Hok) in Hc as (lc & Hc & Hp). rewrite extended_lookup. destruct (decide (c = eb_id b)) as [->|Hi]; [by rewrite Hnew in Hc|].
      destruct (decide (c = eb_parent_id b)) as [->|Hne]; [|by eauto]. rewrite Hlb in Hc. injection Hc as ->. by eauto.
    + rewrite extended_lookup, decide_True by done. by eauto.
  - intros c lc Hc Hp. apply extended_child. rewrite extended_lookup in Hc. destruct (decide (c = eb_id b)) as [->|Hi]; [injection Hc as <-; by right|left].
    assert (Hold : exists lo, id_to_block t !! c = Some lo /\ lb_executed_block lo = lb_executed_block lc)
      by (destruct (decide (c = eb_parent_id b)) as [->|Hne]; [injection Hc as <-|]; by eauto).
    destruct Hold as (lo & Ho & E). rewrite <- E in Hp |- *. apply extended_known in Hp as [Hp|Hp]; [by apply (ok_parent t Hok)|].
    by apply (no_children_yet c lo Ho) in Hp.
  - intros i [Hi|Hi]%extended_known; rewrite extended_in_tree; [|by left; right]. destruct (ok_where t Hok i Hi); auto.
  - intros i Hi. apply extended_known. left. by apply Hok.
  - apply Hok.
  - intros i n Hi [Hin|E]%extended_in_tree; [by apply (ok_pruned_out t Hok i n)|].
    apply (ok_pruned_out t Hok i (S n) Hi). by rewrite Nat.iter_succ, E, (vb_parent b Hb).
  - intros i c [Hc|[-> ->]]%extended_child Hp; [by apply (ok_order t Hok)|]. apply (ok_pruned t Hok) in Hp as [l Hl]. by rewrite Hnew in Hl.
  - split; [|apply Hok]. apply extended_in_tree. left. apply Hok.
  - intros i qc Hq. destruct (ok_qcs t Hok i qc Hq) as (? & ? & ?). split_and!; [done|apply extended_known; by left|done].
Qed.
End InsertBlock.

(** A new block below a block of the tree is inserted, without a failed assertion. *)
Lemma insert_block_ok t b : tree_ok t -> valid_block b -> in_tree t (eb_parent_id b) -> id_to_block t !! eb_id b = None ->
  exists t', insert_block t b = Ok (t', b) /\ tree_ok t' /\ bt_get_block t' (eb_id b) = Some b /\
    (forall x, in_tree t' x <-> in_tree t x \/ x = eb_id b).
Proof.
  intros Hok Hb Hp Hnew. destruct (in_tree_known t Hok _ Hp) as [lb Hlb]. exists (extended t b lb).
  assert (Hn : eb_id b <> eb_parent_id b) by (intros E; by rewrite E, Hlb in Hnew). unfold insert_block, bt_get_block, get_linkable_block. rewrite Hnew, Hlb.
  assert (Hch : eb_id b ∉ lb_children lb).
  { intros Hin. assert (Hc : child t (eb_parent_id b) (eb_id b)) by (by exists lb). apply (ok_link t Hok) in Hc as (lc & Hc & _). by rewrite Hnew in Hc. }
  unfold add_child. cbn [fmap option_fmap option_map]. rewrite bool_decide_eq_true_2 by done. cbn [assert_ mbind result_bind].
  rewrite bool_decide_eq_true_2 by (by rewrite lookup_insert_ne). split_and!; [done|by apply extended_ok| |by apply extended_in_tree].
  unfold extended. cbn. by rewrite lookup_insert_eq.
Qed.

(** What an insertion leaves as it was. *)
Lemma insert_block_frame t b t' b' : insert_block t b = Ok (t', b') -> id_to_block t !! eb_id b = None ->
  root_id t' = root_id t /\ highest_certified_block_id t' = highest_certified_block_id t /\ bt_highest_timeout_cert t' = bt_highest_timeout_cert t /\
  id_to_quorum_cert t' = id_to_quorum_cert t /\ pruned_block_ids t' = pruned_block_ids t /\ forall i, bt_get_block t' i = if decide (i = eb_id b) then Some b else bt_get_block t i.
Proof.
  intros E Hn. unfold insert_block, bt_get_block, get_linkable_block in E. rewrite Hn in E. cbn [fmap option_fmap option_map] in E.
  destruct (id_to_block t !! eb_parent_id b) as [lb|] eqn:Ep; [|done]. unfold add_child in E. res_inv. split_and!; [done..|]. intros i. unfold bt_get_block, get_linkable_block. cbn.
  destruct (decide (i = eb_id b')) as [->|Hi]; [by rewrite lookup_insert_eq|]. rewrite lookup_insert_ne by done.
  destruct (decide (i = eb_parent_id b')) as [->|Hp]; [by rewrite lookup_insert_eq, Ep|by rewrite lookup_insert_ne].
Qed.

(** ** Pruning *)

Lemma remove_blocks_lookup l : forall t0 i, id_to_block (foldl remove_block t0 l) !! i = (if decide (i ∈ l) then None else id_to_block t0 !! i) /\
  id_to_quorum_cert (foldl remove_block t0 l) !! i = (if decide (i ∈ l) then None else id_to_quorum_cert t0 !! i).
Proof.
  induction l as [|x l IH]; intros t0 i; [by rewrite decide_False by (by intros ?%elem_of_nil)|]. cbn [foldl]. destruct (IH (remove_block t0 x) i) as [-> ->].
  cbn. destruct (decide (i = x)) as [->|Hne].
  - rewrite !lookup_delete_eq. destruct (decide (x ∈ l)); destruct (decide (x ∈ x :: l)); try done; set_solver.
  - rewrite !lookup_delete_ne by done. destruct (decide (i ∈ l)) as [Hi|Hi]; destruct (decide (i ∈ x :: l)) as [Hx|Hx]; try done; set_solver.
Qed.

Lemma remove_blocks_rest l : forall t0, let t1 := foldl remove_block t0 l in
  root_id t1 = root_id t0 /\ highest_certified_block_id t1 = highest_certified_block_id t0 /\ bt_highest_quorum_cert t1 = bt_highest_quorum_cert t0 /\
  bt_highest_timeout_cert t1 = bt_highest_timeout_cert t0 /\ bt_highest_commit_cert t1 = bt_highest_commit_cert t0 /\
  pruned_block_ids t1 = pruned_block_ids t0 /\ max_pruned_blocks_in_mem t1 = max_pruned_blocks_in_mem t0.
Proof. induction l as [|x l IH]; intros t0; [done|]. apply (IH (remove_block t0 x)). Qed.

Section Prune.
Variables (t : BlockTree) (next : HashValue).
Hypothesis Hok : tree_ok t.
Hypothesis Hnext : in_tree t next.

Lemma known_size l : NoDup l -> (forall x, x ∈ l -> is_Some (id_to_block t !! x)) -> (length l <= size (id_to_block t))%nat.
Proof.
  intros Hnd Hl. rewrite <- length_map_to_list, <- (length_map fst). apply submseteq_length, NoDup_submseteq; [done|].
  intros x [lb Hx]%Hl. apply list_elem_of_fmap. exists (x, lb). split; [done|]. by apply elem_of_map_to_list.
Qed.

Lemma push_children cs : forall st, (forall c, c ∈ cs -> is_Some (id_to_block t !! c)) -> exists ls,
  result_fold (push_child t next) cs st = Ok (rev ls ++ st) /\ map lb_id ls = filter (fun c => next <> c) cs /\
  (forall l, l ∈ ls -> id_to_block t !! lb_id l = Some l).
Proof.
  induction cs as [|c cs IH]; intros st Hcs; [exists []; split_and!; [done..|by intros l ?%elem_of_nil]|]. cbn [result_fold].
  unfold push_child at 2. rewrite filter_cons. destruct (decide (next = c)) as [<-|Hne].
  - rewrite bool_decide_eq_true_2 by done. cbn [mbind result_bind]. rewrite decide_False by auto. apply IH. set_solver.
  - rewrite bool_decide_eq_false_2, decide_True by done. destruct (Hcs c) as [lb Hlb]; [by constructor|]. unfold get_linkable_block. rewrite Hlb.
    cbn [expect mbind result_bind]. destruct (IH (lb :: st)) as (ls & -> & Hm & Hl); [set_solver|]. exists (lb :: ls).
    destruct (ok_block t Hok c lb Hlb) as [Hid _]. split_and!.
    + cbn [rev]. by rewrite <- app_assoc.
    + cbn. by rewrite Hm, Hid.
    + intros l [->|?]%elem_of_cons; [by rewrite Hid|auto].
Qed.

Record prune_inv (st : list LinkableBlock) (P : list HashValue) : Prop := {
  pi_NoDup : NoDup (P ++ map lb_id st);
  pi_stack : forall l, l ∈ st -> id_to_block t !! lb_id l = Some l;
  pi_in : forall x, x ∈ P ++ map lb_id st -> in_tree t x /\ x <> next /\ (x = root_id t \/ exists p, p ∈ P /\ child t p x);
  pi_before : forall x, x ∈ P -> x = root_id t \/ exists p, child t p x /\ before p x P;
  pi_closed : forall x c, x ∈ P -> child t x c -> c = next \/ c ∈ P ++ map lb_id st;
  pi_root : root_id t ∈ P ++ map lb_id st
}.

Lemma not_root_child x : in_tree t x -> ~ child t x (root_id t).
Proof. intros Hx Hc%(root_parent t Hok). by apply (ok_pruned_out t Hok x 0) in Hc. Qed.

Lemma prune_step b st P ls : prune_inv (b :: st) P -> map lb_id ls = filter (fun c => next <> c) (set_iter (lb_children b)) ->
  (forall l, l ∈ ls -> id_to_block t !! lb_id l = Some l) -> prune_inv (rev ls ++ st) (P ++ [lb_id b]).
Proof.
  intros [Hnd Hst Hin Hbf Hcl Hr] Hm Hls. cbn [map] in *. assert (Hb : id_to_block t !! lb_id b = Some b) by (apply Hst; by constructor).
  assert (Hbin : in_tree t (lb_id b)) by (apply Hin; set_solver).
  assert (Hids : forall x, x ∈ map lb_id (rev ls ++ st) <-> (child t (lb_id b) x /\ x <> next) \/ x ∈ map lb_id st).
  { intros x. rewrite map_app, elem_of_app, map_rev. rewrite list_elem_of_In, <- in_rev, <- list_elem_of_In, Hm, list_elem_of_filter, elem_of_set_iter.
    unfold child. rewrite Hb. naive_solver. }
  assert (Hsub : forall x, x ∈ P ++ lb_id b :: map lb_id st -> x ∈ (P ++ [lb_id b]) ++ map lb_id (rev ls ++ st)).
  { intros x. rewrite !elem_of_app, Hids. set_solver. }
  split.
  - rewrite map_app, map_rev. assert (Hp : (P ++ [lb_id b]) ++ rev (map lb_id ls) ++ map lb_id st ≡ₚ map lb_id ls ++ P ++ lb_id b :: map lb_id st)
      by (rewrite <- (Permutation_rev (map lb_id ls)); solve_Permutation).
    rewrite Hp. apply list.NoDup_app. split_and!; [rewrite Hm; apply list.NoDup_filter, NoDup_set_iter| |done].
    intros x Hx Hx2. rewrite Hm in Hx. apply list_elem_of_filter in Hx as [Hnx Hx%elem_of_set_iter].
    assert (Hc : child t (lb_id b) x) by (by exists b). destruct (Hin x Hx2) as (_ & _ & [->|(p & Hp' & Hcp)]); [by apply not_root_child in Hc|].
    rewrite (child_unique t Hok _ _ _ Hcp Hc) in Hp'. apply list.NoDup_app in Hnd as (_ & Hd & _). apply (Hd _ Hp'). by constructor.
  - intros l [Hl|Hl]%elem_of_app; [apply Hls; by apply list_elem_of_In, in_rev, list_elem_of_In in Hl|apply Hst; by constructor].
  - intros x Hx. rewrite elem_of_app, Hids in Hx. destruct Hx as [Hx|[[Hc Hne]|Hx]].
    + destruct (Hin x) as (? & ? & Hor); [set_solver|]. split_and!; [done..|]. destruct Hor as [?|(p & ? & ?)]; [by left|right; exists p; set_solver].
    + split_and!; [by eapply rtc_r|done|right]. exists (lb_id b). set_solver.
    + destruct (Hin x) as (? & ? & Hor); [set_solver|]. split_and!; [done..|]. destruct Hor as [?|(p & ? & ?)]; [by left|right; exists p; set_solver].
  - intros x [Hx| ->%list_elem_of_singleton]%elem_of_app.
    + destruct (Hbf x Hx) as [?|(p & ? & ?)]; [by left|right; exists p; split; [done|by apply before_app_l]].
    + destruct (Hin (lb_id b)) as (_ & _ & [?|(p & Hp & Hc)]); [set_solver|by left|right; exists p; split; [done|]]. apply before_app; [done|by constructor].
  - intros x c [Hx| ->%list_elem_of_singleton]%elem_of_app Hc.
    + destruct (Hcl x c Hx Hc) as [?|?]; [by left|right; by apply Hsub].
    + destruct (decide (c = next)) as [?|?]; [by left|right]. rewrite elem_of_app, Hids. auto.
  - by apply Hsub.
Qed.

Lemma prune_loop_ok fuel : forall st P, prune_inv st P -> (size (id_to_block t) <= fuel + length P)%nat ->
  exists P', prune_loop fuel t next st P = Ok P' /\ prune_inv [] P'.
Proof.
  induction fuel as [|fuel IH]; intros st P Hinv Hf; (destruct st as [|b st]; [exists P; by split|]).
  all: assert (Hlen : (length (P ++ [lb_id b]) <= size (id_to_block t))%nat) by
    (apply known_size; [pose proof (pi_NoDup _ _ Hinv) as Hnd; cbn in Hnd; rewrite cons_middle, app_assoc in Hnd; by apply list.NoDup_app in Hnd as [? _]|
     intros x Hx; apply (in_tree_known t Hok), (pi_in _ _ Hinv); cbn; set_solver]).
  all: rewrite length_app in Hlen; cbn [length] in Hlen.
  { lia. }
  cbn [prune_loop].
  destruct (push_children (set_iter (lb_children b)) st) as (ls & -> & Hm & Hls).
  { intros c Hc%elem_of_set_iter. assert (Hch : child t (lb_id b) c) by (exists b; split; [apply (pi_stack _ _ Hinv); by constructor|done]).
    apply (ok_link t Hok) in Hch as (lc & -> & _). by eexists. }
  cbn [mbind result_bind]. apply IH; [by apply prune_step|]. rewrite length_app. cbn. lia.
Qed.

(** What [find_blocks_to_prune] returns. *)
Record prunes (P : list HashValue) : Prop := {
  pr_NoDup : NoDup P;
  pr_in : forall x, x ∈ P -> in_tree t x /\ ~ descends t next x;
  pr_all : forall x, in_tree t x -> x ∈ P \/ descends t next x;
  pr_order : forall p x, child t p x -> x ∈ P -> x = root_id t \/ before p x P
}.

Lemma find_blocks_to_prune_ok : exists P, find_blocks_to_prune t next = Ok P /\ prunes P.
Proof.
  unfold find_blocks_to_prune. destruct (decide (next = root_id t)) as [E|Hne].
  - rewrite bool_decide_eq_true_2 by done. exists []. split; [done|]. split; [constructor|by intros x ?%elem_of_nil| |by intros p x _ ?%elem_of_nil].
    intros x Hx. right. by rewrite E.
  - rewrite bool_decide_eq_false_2 by done. destruct (ok_root t Hok) as [lb Hlb]. destruct (ok_block t Hok _ _ Hlb) as [Hid _].
    unfold linkable_root, get_linkable_block. rewrite Hlb. cbn [expect mbind result_bind].
    destruct (prune_loop_ok (size (id_to_block t)) [lb] []) as (P & -> & [Hnd _ Hin Hbf Hcl Hr]).
    { split; cbn; rewrite ?Hid; try (by intros ? ?%elem_of_nil); try (by intros ? ? ?%elem_of_nil); [apply NoDup_singleton| | |by constructor].
      - intros l ->%list_elem_of_singleton. by rewrite Hid.
      - intros x ->%list_elem_of_singleton. split_and!; [constructor|done|by left]. }
    { cbn. lia. }
    rewrite app_nil_r in *. exists P. split; [done|]. split; [done| | |].
    + intros x Hx. split; [apply Hin; set_solver|]. intros Hd. assert (Hup : forall y, descends t next y -> y ∈ P -> False); [|by eapply Hup].
      clear x Hx Hd. apply (rtc_ind_r (fun y => y ∈ P -> False)).
      { intros Hy. destruct (Hin next) as (_ & [] & _); set_solver. }
      intros y z Hd Hc IH Hz. destruct (Hbf z Hz) as [->|(p & Hcp & (l1 & l2 & l3 & Ep))].
      { apply (not_root_child y); [|done]. exact (descends_trans t _ _ _ Hnext Hd). }
      apply IH. rewrite (child_unique t Hok _ _ _ Hc Hcp), Ep. set_solver.
    + apply (rtc_ind_r (fun x => x ∈ P \/ descends t next x)); [by left|]. intros y x Hy Hc [Hp|Hd]; [|right; by eapply rtc_r].
      destruct (Hcl y x Hp Hc) as [->|?]; [right; constructor|by left].
    + intros p x Hc Hx. destruct (Hbf x Hx) as [->|(p' & Hc' & Hp')]; [by left|right]. by rewrite (child_unique t Hok _ _ _ Hc Hc').
Qed.

(** *** Moving the root *)

Variable P : list HashValue.
Hypothesis HP : prunes P.
Hypothesis Hhigh : descends t next (highest_certified_block_id t).

Notation all_pruned := (pruned_block_ids t ++ P).
Notation excess := (length all_pruned - max_pruned_blocks_in_mem t)%nat.
Notation removed := (take excess all_pruned).

(** The tree below the new root. *)
Definition moved : BlockTree := mkBlockTree (id_to_block t) next (highest_certified_block_id t) (bt_highest_quorum_cert t)
  (bt_highest_timeout_cert t) (bt_highest_commit_cert t) (id_to_quorum_cert t) (drop excess all_pruned) (max_pruned_blocks_in_mem t).
Definition pruned_tree : BlockTree := foldl remove_block moved removed.

Lemma pruned_tree_lookup i : id_to_block pruned_tree !! i = (if decide (i ∈ removed) then None else id_to_block t !! i) /\
  id_to_quorum_cert pruned_tree !! i = (if decide (i ∈ removed) then None else id_to_quorum_cert t !! i).
Proof. apply (remove_blocks_lookup removed moved). Qed.

Lemma pruned_tree_rest : root_id pruned_tree = next /\ highest_certified_block_id pruned_tree = highest_certified_block_id t /\
  bt_highest_quorum_cert pruned_tree = bt_highest_quorum_cert t /\ bt_highest_timeout_cert pruned_tree = bt_highest_timeout_cert t /\
  bt_highest_commit_cert pruned_tree = bt_highest_commit_cert t /\ pruned_block_ids pruned_tree = drop excess all_pruned /\
  max_pruned_blocks_in_mem pruned_tree = max_pruned_blocks_in_mem t.
Proof. apply (remove_blocks_rest removed moved). Qed.

Lemma all_pruned_NoDup : NoDup all_pruned.
Proof.
  apply list.NoDup_app. split_and!; [apply Hok| |apply HP]. intros x Hx Hp. apply (ok_pruned_out t Hok x 0 Hx). by apply (pr_in _ HP) in Hp as [? _].
Qed.

Lemma all_pruned_order x y : child t x y -> y ∈ all_pruned -> before x y all_pruned.
Proof.
  intros Hc [Hy|Hy]%elem_of_app; [by apply before_app_l, (ok_order t Hok)|].
  destruct (pr_order _ HP x y Hc Hy) as [->|?]; [|by apply before_app_r]. apply before_app; [by apply (root_parent t Hok)|done].
Qed.

Lemma kept_below x : descends t next x -> x ∉ all_pruned.
Proof.
  intros Hd [Hx|[_ Hx]%(pr_in _ HP)]%elem_of_app; [|done]. apply (ok_pruned_out t Hok x 0 Hx). exact (descends_trans t _ _ _ Hnext Hd).
Qed.

Lemma removed_pruned x : x ∈ removed -> x ∈ all_pruned.
Proof. intros (i & Hi & _)%elem_of_take. by eapply list_elem_of_lookup_2. Qed.

Lemma kept_pruned x : x ∈ drop excess all_pruned -> x ∈ all_pruned.
Proof. intros Hx. rewrite <- (take_drop excess all_pruned). apply elem_of_app. by right. Qed.

Lemma pruned_tree_child x y : child pruned_tree x y <-> child t x y /\ x ∉ removed.
Proof. unfold child. rewrite (proj1 (pruned_tree_lookup x)). destruct (decide (x ∈ removed)); naive_solver. Qed.

Lemma pruned_tree_known x : is_Some (id_to_block pruned_tree !! x) <-> is_Some (id_to_block t !! x) /\ x ∉ removed.
Proof. rewrite (proj1 (pruned_tree_lookup x)). destruct (decide (x ∈ removed)); [|naive_solver]. split; [by intros []|by intros []]. Qed.

Lemma pruned_tree_in_tree x : in_tree pruned_tree x <-> descends t next x.
Proof.
  unfold in_tree. rewrite (proj1 pruned_tree_rest). split.
  - intros Hd. eapply rtc_subrel; [|exact Hd]. by intros ? ? [? _]%pruned_tree_child.
  - revert x. apply (rtc_ind_r (fun x => descends pruned_tree next x)); [constructor|]. intros y x Hy Hc IH. eapply rtc_r; [exact IH|].
    apply pruned_tree_child. split; [done|]. by intros Hr%removed_pruned%(kept_below y).
Qed.

Lemma pruned_tree_ok : tree_ok pruned_tree.
Proof.
  destruct pruned_tree_rest as (Er & Eh & Eq & _ & _ & Ep & _). pose proof all_pruned_NoDup as Hnd. split.
  - intros i lb. rewrite (proj1 (pruned_tree_lookup i)). destruct (decide (i ∈ removed)); [done|]. apply (ok_block t Hok).
  - apply pruned_tree_known. rewrite Er. split; [by apply (in_tree_known t Hok)|]. intros Hr%removed_pruned%kept_below; [done|constructor].
  - intros i c [Hc Hi]%pruned_tree_child. destruct (ok_link t Hok i c Hc) as (lc & Hlc & Hp). exists lc. rewrite (proj1 (pruned_tree_lookup c)).
    rewrite decide_False; [done|]. intros Hr. apply Hi. apply (before_take i c); [done|apply all_pruned_order; [done|by apply removed_pruned]|done].
  - intros c lc Hc Hp. rewrite (proj1 (pruned_tree_lookup c)) in Hc. destruct (decide (c ∈ removed)); [done|].
    apply pruned_tree_known in Hp as [Hp Hr]. apply pruned_tree_child. split; [by apply (ok_parent t Hok)|done].
  - intros i [Hi Hr]%pruned_tree_known. rewrite pruned_tree_in_tree, Ep.
    assert (Hall : i ∈ all_pruned -> i ∈ drop excess all_pruned).
    { intros Ha. rewrite <- (take_drop excess all_pruned) in Ha. by apply elem_of_app in Ha as [?|?]. }
    destruct (ok_where t Hok i Hi) as [Hin|Hin]; [|right; apply Hall, elem_of_app; by left].
    destruct (pr_all _ HP i Hin) as [?|?]; [right; apply Hall, elem_of_app; by right|by left].
  - intros i Hi. rewrite Ep in Hi. apply pruned_tree_known. rewrite <- (take_drop excess all_pruned) in Hnd. apply list.NoDup_app in Hnd as (_ & Hd & _).
    split; [|intros Hr; by apply (Hd i)]. apply kept_pruned in Hi as Hj.
    apply elem_of_app in Hj as [Hj|[Hj _]%(pr_in _ HP)]; [by apply (ok_pruned t Hok)|by apply (in_tree_known t Hok)].
  - rewrite Ep. rewrite <- (take_drop excess all_pruned) in Hnd. by apply list.NoDup_app in Hnd as (_ & _ & ?).
  - intros i n Hi Hin%pruned_tree_in_tree. rewrite Ep in Hi. apply kept_pruned in Hi as Hj.
    assert (Hin' : in_tree t (Nat.iter n parent_of i)) by exact (descends_trans t _ _ _ Hnext Hin).
    apply elem_of_app in Hj as [Hj|[Hj Hnd']%(pr_in _ HP)]; [by apply (ok_pruned_out t Hok i n)|].
    apply Hnd'. apply (descends_trans t _ _ _ Hin). by apply (ancestor_descends t Hok).
  - intros i c [Hc Hi]%pruned_tree_child Hp. rewrite Ep in Hp |- *. destruct (before_drop i c all_pruned excess Hnd) as [?|?]; [|done..].
    apply all_pruned_order; [done|]. by apply kept_pruned.
  - rewrite Eh, Eq. split; [by apply pruned_tree_in_tree|apply Hok].
  - intros i qc. rewrite (proj2 (pruned_tree_lookup i)). destruct (decide (i ∈ removed)); [done|]. intros Hq. rewrite Eh.
    destruct (ok_qcs t Hok i qc Hq) as (? & ? & ?). split_and!; [done|by apply pruned_tree_known|done].
Qed.

Lemma process_pruned_blocks_ok : process_pruned_blocks t next P = Ok pruned_tree.
Proof.
  unfold process_pruned_blocks, bt_block_exists. by rewrite bool_decide_eq_true_2 by (by apply (in_tree_known t Hok)).
Qed.
End Prune.

(** The root moves to a block of the tree below which the highest certified block is. *)
Lemma move_root_ok t next : tree_ok t -> in_tree t next -> descends t next (highest_certified_block_id t) -> exists ids t',
  find_blocks_to_prune t next = Ok ids /\ process_pruned_blocks t next ids = Ok t' /\ tree_ok t' /\ root_id t' = next /\
  bt_highest_timeout_cert t' = bt_highest_timeout_cert t /\ NoDup ids /\
  (forall x, in_tree t x -> (x ∈ ids <-> ~ descends t next x)) /\ (forall x, x ∈ ids -> in_tree t x) /\
  (forall x, in_tree t' x <-> descends t next x) /\
  (forall x, in_tree t' x -> id_to_block t' !! x = id_to_block t !! x /\ id_to_quorum_cert t' !! x = id_to_quorum_cert t !! x) /\
  (forall x lb, id_to_block t' !! x = Some lb -> id_to_block t !! x = Some lb) /\
  (length (pruned_block_ids t') <= max_pruned_blocks_in_mem t)%nat.
Proof.
  intros Hok Hn Hh. destruct (find_blocks_to_prune_ok t next Hok Hn) as (P & E1 & HP). exists P, (pruned_tree t next P).
  destruct (pruned_tree_rest t next P) as (Er & _ & _ & Et & _ & Ep & _).
  split_and!; [done|by apply process_pruned_blocks_ok|by apply pruned_tree_ok|done|done|apply HP| | | | | |].
  - intros x Hx. split; [apply HP|]. intros Hd. by destruct (pr_all _ _ _ HP x Hx).
  - intros x Hx. by apply (pr_in _ _ _ HP) in Hx as [? _].
  - by apply pruned_tree_in_tree.
  - intros x Hx. rewrite pruned_tree_in_tree in Hx by done. destruct (pruned_tree_lookup t next P x) as [-> ->].
    rewrite !decide_False; [done|..]; intros Hr%removed_pruned; revert Hr; by eapply kept_below.
  - intros x lb. rewrite (proj1 (pruned_tree_lookup t next P x)). by destruct (decide _).
  - rewrite Ep, length_drop. lia.
Qed.

(** ** Certificates *)

Lemma insert_quorum_cert_ok t qc : tree_ok t -> in_tree t (bi_id (certified_block qc)) -> exists t', bt_insert_quorum_cert t qc = Ok t' /\ tree_ok t' /\
  round_of (highest_certified_block_id t') = Z.max (round_of (highest_certified_block_id t)) (round_of (bi_id (certified_block qc))) /\
  bi_round (qc_commit_info (bt_highest_commit_cert t')) = Z.max (bi_round (qc_commit_info (bt_highest_commit_cert t))) (bi_round (qc_commit_info qc)) /\
  is_Some (id_to_quorum_cert t' !! bi_id (certified_block qc)).
Proof.
  intros Hok Hin. destruct (ok_certified t Hok) as [Hh Hhq]. destruct (in_tree_known t Hok _ Hin) as [lb Hlb].
  destruct (in_tree_known t Hok _ Hh) as [lh Hlh]. destruct (ok_block t Hok _ _ Hlb) as [Hid [Hr _ _]]. destruct (ok_block t Hok _ _ Hlh) as [Hhid [Hhr _ _]].
  unfold lb_id in Hid, Hhid. rewrite Hid in Hr. rewrite Hhid in Hhr.
  unfold bt_insert_quorum_cert, bt_highest_certified_block, bt_get_block, get_linkable_block. rewrite Hlb, Hlh. cbn [fmap option_fmap option_map expect mbind result_bind].
  rewrite <- Hr, <- Hhr, Hid. eexists. split; [done|]. cbn [highest_certified_block_id bt_highest_commit_cert id_to_quorum_cert].
  assert (Hq : forall m : gmap HashValue QuorumCert, is_Some ((match m !! bi_id (certified_block qc) with
    Some _ => m | None => <[bi_id (certified_block qc) := qc]> m end) !! bi_id (certified_block qc))).
  { intros m. destruct (m !! _) eqn:E; [by rewrite E|by rewrite lookup_insert_eq]. }
  split; [|split_and!; [destruct (Z.ltb_spec (round_of (highest_certified_block_id t)) (round_of (bi_id (certified_block qc)))); lia| |apply Hq];
    destruct (Z.ltb_spec (bi_round (qc_commit_info (bt_highest_commit_cert t))) (bi_round (qc_commit_info qc))); lia].
  split; try apply Hok; cbn.
  - destruct (_ <? _); [by split|apply Hok].
  - intros i q Hi. assert (Hle : forall i, round_of i <= round_of (highest_certified_block_id t) \/ i = bi_id (certified_block qc) ->
      round_of i <= round_of (if round_of (highest_certified_block_id t) <? round_of (bi_id (certified_block qc)) then bi_id (certified_block qc) else highest_certified_block_id t)).
    { intros j. destruct (Z.ltb_spec (round_of (highest_certified_block_id t)) (round_of (bi_id (certified_block qc)))); intros [?| ->]; lia. }
    destruct (id_to_quorum_cert t !! bi_id (certified_block qc)); [|apply lookup_insert_Some in Hi as [[<- <-]|[_ Hi]]].
    all: try (split_and!; [done|by rewrite Hlb|apply Hle; by right]).
    all: destruct (ok_qcs t Hok i q Hi) as (? & ? & ?); split_and!; [done..|apply Hle; by left].
Qed.

Lemma insert_quorum_cert_frame t qc t' : bt_insert_quorum_cert t qc = Ok t' ->
  id_to_block t' = id_to_block t /\ root_id t' = root_id t /\ bt_highest_timeout_cert t' = bt_highest_timeout_cert t /\ pruned_block_ids t' = pruned_block_ids t /\
  (forall i, is_Some (id_to_quorum_cert t' !! i) -> i = bi_id (certified_block qc) \/ is_Some (id_to_quorum_cert t !! i)).
Proof.
  intros E. unfold bt_insert_quorum_cert in E. destruct (bt_get_block t (bi_id (certified_block qc))) as [b|] eqn:Eb; [|done]. res_inv. split_and!; [done..|]. cbn. intros i.
  destruct (id_to_quorum_cert t !! bi_id (certified_block qc)); [by right|]. rewrite lookup_insert_is_Some'. intros [<-|?]; auto.
Qed.

(** ** Paths from the root *)

(** [p] leads from [x] to [y] through child links. *)
Fixpoint links (t : BlockTree) (x : HashValue) (p : list ExecutedBlock) (y : HashValue) : Prop :=
  match p with
  | [] => x = y
  | b :: p => child t x (eb_id b) /\ bt_get_block t (eb_id b) = Some b /\ links t (eb_id b) p y
  end.

Lemma links_snoc t x p y b : links t x p y -> child t y (eb_id b) -> bt_get_block t (eb_id b) = Some b -> links t x (p ++ [b]) (eb_id b).
Proof. revert x. induction p as [|c p IH]; intros x; cbn; [by intros ->|]. intros (? & ? & ?) ? ?. split_and!; auto. Qed.

Lemma links_descends t x p y : links t x p y -> descends t x y.
Proof. revert x. induction p as [|c p IH]; intros x; cbn; [by intros ->|]. intros (? & _ & ?%IH). by eapply rtc_l. Qed.

Section Path.
Variable t : BlockTree.
Hypothesis Hok : tree_ok t.

Lemma path_loop_ok fuel : forall cur res, NoDup (map eb_id res) ->
  (forall b, b ∈ res -> is_Some (id_to_block t !! eb_id b) /\ round_of cur < round_of (eb_id b)) -> (size (id_to_block t) < fuel + length res)%nat ->
  exists r, path_loop fuel t cur res = Ok r /\
    ((exists p, r = Some (root_id t, res ++ rev p) /\ links t (root_id t) p cur) \/
     ((forall stop res', r = Some (stop, res') -> stop <> root_id t) /\ ~ in_tree t cur)).
Proof.
  induction fuel as [|fuel IH]; intros cur res Hnd Hres Hf.
  { exfalso. assert ((length (map eb_id res) <= size (id_to_block t))%nat); [|rewrite length_map in *; lia].
    apply known_size; [done|]. intros x (b & -> & Hb)%list_elem_of_fmap. by apply Hres. }
  cbn [path_loop]. unfold bt_get_block, get_linkable_block. destruct (id_to_block t !! cur) as [lb|] eqn:Ecur; cbn [fmap option_fmap option_map].
  2: { eexists. split; [done|]. right. split; [done|]. intros [? ?]%(in_tree_known t Hok). congruence. }
  destruct (ok_root t Hok) as [lr Hlr]. unfold bt_root, bt_get_block, get_linkable_block. rewrite Hlr. cbn [fmap option_fmap option_map expect mbind result_bind].
  destruct (ok_block t Hok _ _ Ecur) as [Hid [Hr Hp Hl]]. destruct (ok_block t Hok _ _ Hlr) as [Hrid [Hrr _ _]]. unfold lb_id in Hid, Hrid.
  rewrite Hid in Hr. rewrite Hrid in Hrr. rewrite <- Hr in Hl. rewrite <- Hr, <- Hrr. destruct (Z.leb_spec (round_of cur) (round_of (root_id t))) as [Hle|Hgt].
  - eexists. split; [done|]. destruct (decide (cur = root_id t)) as [->|Hne]; [left; exists []; cbn; by rewrite app_nil_r|right].
    split; [by intros ? ? [= <- _]|]. intros [?|?]%(descends_round t Hok); [congruence|lia].
  - destruct (IH (eb_parent_id (lb_executed_block lb)) (res ++ [lb_executed_block lb])) as (r & -> & Hor).
    + rewrite map_app. apply list.NoDup_app. split_and!; [done| |apply NoDup_singleton]. intros x (b & -> & Hb)%list_elem_of_fmap Hx%list_elem_of_singleton.
      destruct (Hres b Hb) as [_ Hlt]. rewrite Hx, Hid in Hlt. lia.
    + intros b [Hb| ->%list_elem_of_singleton]%elem_of_app; [destruct (Hres b Hb); split; [done|lia]|rewrite Hid; split; [by rewrite Ecur|lia]].
    + rewrite length_app. cbn. lia.
    + exists r. split; [done|]. destruct Hor as [(p & -> & Hlinks)|[Hs Hn]]; [left|right].
      * exists (p ++ [lb_executed_block lb]). rewrite rev_app_distr. cbn. rewrite <- app_assoc. split; [done|].
        pose proof (links_snoc t (root_id t) p (eb_parent_id (lb_executed_block lb)) (lb_executed_block lb) Hlinks) as Hsn.
        unfold bt_get_block, get_linkable_block in Hsn. rewrite Hid, Ecur in Hsn. apply Hsn; [|done].
        apply (ok_parent t Hok); [done|]. by eapply (in_tree_known t Hok), links_descends.
      * split; [done|]. intros Hin. destruct (descends_last _ _ _ Hin) as [<-|(z & Hz & Hc)]; [lia|]. apply Hn.
        destruct (ok_link t Hok _ _ Hc) as (lc & Hlc & <-). rewrite Ecur in Hlc. by injection Hlc as ->.
Qed.

Lemma path_from_root_ok id : exists r, bt_path_from_root t id = Ok r /\
  match r with Some p => links t (root_id t) p id | None => ~ in_tree t id end.
Proof.
  unfold bt_path_from_root. destruct (path_loop_ok (S (size (id_to_block t))) id []) as (r & -> & Hor); [constructor|by intros b ?%elem_of_nil|cbn; lia|].
  cbn [mbind result_bind]. destruct Hor as [(p & -> & Hp)|[Hs Hn]].
  - cbn [app]. rewrite bool_decide_eq_true_2 by done. cbn [negb]. eexists. split; [done|]. by rewrite rev_involutive.
  - exists None. split; [|done]. destruct r as [[stop res]|]; [|done]. by rewrite bool_decide_eq_false_2 by (by eapply Hs).
Qed.
End Path.

(** ** The tree in use *)

(** The operations as the block store applies them: new blocks go below blocks of the
    tree, quorum certificates are for blocks of the tree, and the root moves to an ancestor
    of the certified block of the highest round. *)
Inductive tree_step : BlockTree -> BlockTree -> Prop :=
| step_block t b t' b' : valid_block b -> in_tree t (eb_parent_id b) -> insert_block t b = Ok (t', b') -> tree_step t t'
| step_quorum_cert t qc t' : in_tree t (bi_id (certified_block qc)) -> bt_insert_quorum_cert t qc = Ok t' -> tree_step t t'
| step_timeout_cert t tc : tree_step t (replace_timeout_cert t tc)
| step_prune t next ids t' : in_tree t next -> descends t next (highest_certified_block_id t) ->
    find_blocks_to_prune t next = Ok ids -> process_pruned_blocks t next ids = Ok t' -> tree_step t t'.

Lemma block_tree_new_ok root root_qc root_li max_pruned tc t : valid_block root -> bi_id (certified_block root_qc) = eb_id root ->
  block_tree_new root root_qc root_li max_pruned tc = Ok t -> tree_ok t.
Proof.
  intros Hr Hq E. unfold block_tree_new in E. res_inv.
  assert (Hno : forall i c, ~ child (mkBlockTree {[eb_id root := linkable_block_new root]} (eb_id root) (eb_id root) root_qc tc root_li
    {[bi_id (certified_block root_qc) := root_qc]} [] max_pruned) i c).
  { intros i c (lb & Hl & Hy). cbn in Hl. apply lookup_singleton_Some in Hl as [<- <-]. cbn in Hy. set_solver. }
  split; cbn; try (intros; by (exfalso; eapply Hno)); try (by intros ? ?%elem_of_nil); try (by intros ? ? ?%elem_of_nil); try (by intros ? ? ? ?%elem_of_nil).
  - by intros i lb [<- <-]%lookup_singleton_Some.
  - by rewrite lookup_singleton_eq.
  - intros c lc [<- <-]%lookup_singleton_Some. cbn. intros [lb [E _]%lookup_singleton_Some]. pose proof (vb_lower _ Hr) as Hl. rewrite <- E, (vb_round _ Hr) in Hl. lia.
  - intros i [lb [<- _]%lookup_singleton_Some]. left. constructor.
  - constructor.
  - split; [constructor|done].
  - intros i qc [<- <-]%lookup_singleton_Some. rewrite Hq, lookup_singleton_eq. split_and!; [done|by eexists|lia].
Qed.

Lemma tree_step_ok t t' : tree_ok t -> tree_step t t' -> tree_ok t'.
Proof.
  intros Hok Hs. destruct Hs as [t b t' b' Hb Hp E|t qc t' Hin E|t tc|t next ids t' Hn Hh E1 E2].
  - destruct (id_to_block t !! eb_id b) as [lb|] eqn:Eb.
    + unfold insert_block, bt_get_block, get_linkable_block in E. rewrite Eb in E. cbn in E. by res_inv.
    + destruct (insert_block_ok t b Hok Hb Hp Eb) as (t1 & E1 & ? & _). congruence.
  - destruct (insert_quorum_cert_ok t qc Hok Hin) as (t1 & E1 & ? & _). congruence.
  - destruct Hok. by split.
  - destruct (find_blocks_to_prune_ok t next Hok Hn) as (P & E & HP). assert (ids = P) as -> by congruence.
    rewrite (process_pruned_blocks_ok t next Hok Hn P) in E2. injection E2 as <-. by apply pruned_tree_ok.
Qed.

Lemma tree_reachable_ok t t' : tree_ok t -> rtc tree_step t t' -> tree_ok t'.
Proof. intros Hok Hr. induction Hr; [done|]. eauto using tree_step_ok. Qed.



(** The path from the root ends, and is the chain of blocks from the root, which is left
    out, down to the given block; there is none exactly when the block is not in the tree. *)
Theorem path_from_root_exact t id : tree_ok t -> exists r, bt_path_from_root t id = Ok r /\
  match r with Some p => in_tree t id /\ links t (root_id t) p id | None => ~ in_tree t id end.
Proof.
  intros Hok. destruct (path_from_root_ok t Hok id) as (r & E & Hr). exists r. split; [done|]. destruct r; [|done].
  split; [by eapply links_descends|done].
Qed.
End BlockTreeProof.
