(* ===== verification/ConsensusDb.v ===== *)
(** * The consensus database

    [consensus/src/consensusdb]: the blocks and quorum certificates of the block tree, the
    highest timeout certificate and the last vote, in three column families.  The lemmas
    say that the database behaves as the maps and entries of [Persisted]. *)

From stdpp Require Import sorting.
From S2P Require Import Prelude U64 Bytes Lcs SchemaDb Crypto Hash ValidatorVerifier LedgerInfo Accumulator AccumulatorProof Schema ConsensusTypes.

Definition BLOCK_CF_NAME : string := "block".
Definition QC_CF_NAME : string := "quorum_certificate".
Definition SINGLE_ENTRY_CF_NAME : string := "single_entry".

Inductive SingleEntryKey := HighestTimeoutCertificate | LastVoteMsg.

#[global] Instance SingleEntryKey_eq_dec : EqDecision SingleEntryKey.
Proof. solve_decision. Defined.
#[global] Instance SingleEntryKey_countable : Countable SingleEntryKey.
Proof.
  refine (inj_countable' (fun k => match k with HighestTimeoutCertificate => true | LastVoteMsg => false end)
            (fun b => if b : bool then HighestTimeoutCertificate else LastVoteMsg) _). by intros [].
Defined.

(** [to_u8] and [from_u8], derived. *)
Definition single_entry_key_to_u8 (self : SingleEntryKey) : Z := match self with HighestTimeoutCertificate => 0 | LastVoteMsg => 1 end.
Definition single_entry_key_from_u8 (n : Z) : option SingleEntryKey :=
  if n =? 0 then Some HighestTimeoutCertificate else if n =? 1 then Some LastVoteMsg else None.

Definition SingleEntrySchema : Schema SingleEntryKey bytes := {|
  COLUMN_FAMILY_NAME := SINGLE_ENTRY_CF_NAME;
  encode_key k := Ok [single_entry_key_to_u8 k];
  decode_key data :=
    _ ← ensure_slice_len_eq data 1;
    key ← expect (data !! 0%nat);
    ok_or (single_entry_key_from_u8 key) "FromPrimitive failed."%string;
  encode_value v := Ok v; decode_value data := Ok data |}.

#[export] Instance SingleEntrySchema_laws : SchemaLaws SingleEntrySchema.
Proof.
  refine {| key_ok := fun _ => True; value_ok := fun _ => True |}; cbn; [|by intros v raw _ [= <-]].
  intros [] _; by eexists.
Defined.

(** The order in which a [HashMap] is iterated is not specified. *)
Class HashMapOrder (K : Type) `{Countable K} := {
  into_iter : forall {V : Type}, gmap K V -> list (K * V);
  into_iter_perm : forall {V : Type} (m : gmap K V), into_iter m ≡ₚ map_to_list m
}.

Section ConsensusDb.
Context `{Crypto} `{HC : !Countable HashValue, !HashMapOrder HashValue} `{B : !HashBytes}.
Context `{!CryptoHash BlockData, !Lcs (BlockData * option Signature), !Lcs QuorumCert}.
Context {rocks raw_iter : Type} `{!RocksDB rocks raw_iter}.

(** A block is serialized without its identifier, which is computed on the way back. *)
Definition BlockSchema : Schema HashValue Block := {|
  COLUMN_FAMILY_NAME := BLOCK_CF_NAME;
  encode_key k := Ok (hash_to_vec k); decode_key := hash_from_slice;
  encode_value b := lcs_to_bytes (block_data b, block_signature b);
  decode_value data := '(bd, sig) ← lcs_from_bytes data; Ok (block_deserialize bd sig) |}.

Definition QCSchema : Schema HashValue QuorumCert := {|
  COLUMN_FAMILY_NAME := QC_CF_NAME;
  encode_key k := Ok (hash_to_vec k); decode_key := hash_from_slice;
  encode_value := lcs_to_bytes; decode_value := lcs_from_bytes |}.

Record ConsensusDB := mkConsensusDB { cdb_db : DB rocks }.

Definition cdb_commit (self : ConsensusDB) (batch : SchemaBatch) : result string ConsensusDB :=
  db ← write_schemas (cdb_db self) batch; Ok (mkConsensusDB db).

Definition save_highest_timeout_certificate (self : ConsensusDB) (highest_timeout_certificate : bytes) : result string ConsensusDB :=
  batch ← batch_put SingleEntrySchema batch_new HighestTimeoutCertificate highest_timeout_certificate;
  cdb_commit self batch.

Definition cdb_save_vote (self : ConsensusDB) (last_vote : bytes) : result string ConsensusDB :=
  batch ← batch_put SingleEntrySchema batch_new LastVoteMsg last_vote;
  cdb_commit self batch.

Definition save_blocks_and_quorum_certificates (self : ConsensusDB) (block_data : list Block) (qc_data : list QuorumCert)
    : result string ConsensusDB :=
  _ ← ensure (negb (is_nil block_data) || negb (is_nil qc_data)) "Consensus block and qc data is empty!"%string;
  batch ← result_fold (fun batch block => batch_put BlockSchema batch (block_id block) block) block_data batch_new;
  batch ← result_fold (fun batch qc => batch_put QCSchema batch (bi_id (certified_block qc)) qc) qc_data batch;
  cdb_commit self batch.

Definition delete_blocks_and_quorum_certificates (self : ConsensusDB) (block_ids : list HashValue) : result string ConsensusDB :=
  _ ← ensure (negb (is_nil block_ids)) "Consensus block ids is empty!"%string;
  batch ← result_fold (fun batch hash => batch ← batch_delete BlockSchema batch hash; batch_delete QCSchema batch hash) block_ids batch_new;
  cdb_commit self batch.

Definition get_highest_timeout_certificate (self : ConsensusDB) : result string (option bytes) :=
  db_get SingleEntrySchema (cdb_db self) HighestTimeoutCertificate.

Definition delete_highest_timeout_certificate (self : ConsensusDB) : result string ConsensusDB :=
  batch ← batch_delete SingleEntrySchema batch_new HighestTimeoutCertificate;
  cdb_commit self batch.

Definition get_last_vote (self : ConsensusDB) : result string (option bytes) := db_get SingleEntrySchema (cdb_db self) LastVoteMsg.

Definition delete_last_vote_msg (self : ConsensusDB) : result string ConsensusDB :=
  batch ← batch_delete SingleEntrySchema batch_new LastVoteMsg;
  cdb_commit self batch.

(** [iter.collect::<Result<HashMap<..>>>()]. *)
Definition collect_map_body {V} (S : Schema HashValue V) (s : SchemaIterator raw_iter * gmap HashValue V)
    : (SchemaIterator raw_iter * gmap HashValue V) + result string (gmap HashValue V) :=
  let '(it, m) := s in
  match next_impl S it with
  | (it, Ok (Some (k, v))) => inl (it, <[k := v]> m)
  | (_, Ok None) => inr (Ok m)
  | (_, Err e) => inr (Err e)
  | (_, Panic) => inr Panic
  end.
Definition collect_map {V} (S : Schema HashValue V) (db : DB rocks) : result string (gmap HashValue V) :=
  it ← iter S db; run_loop (collect_map_body S) (seek_to_first it, ∅).

Definition get_blocks (self : ConsensusDB) : result string (gmap HashValue Block) := collect_map BlockSchema (cdb_db self).
Definition get_quorum_certificates (self : ConsensusDB) : result string (gmap HashValue QuorumCert) := collect_map QCSchema (cdb_db self).

Definition get_data (self : ConsensusDB) : result string (option bytes * option bytes * list Block * list QuorumCert) :=
  last_vote ← get_last_vote self;
  highest_timeout_certificate ← get_highest_timeout_certificate self;
  consensus_blocks ← get_blocks self;
  consensus_qcs ← get_quorum_certificates self;
  Ok (last_vote, highest_timeout_certificate, map snd (into_iter consensus_blocks), map snd (into_iter consensus_qcs)).

(** ** What the database holds *)

Context `{!LcsLaws (BlockData * option Signature), !LcsLaws QuorumCert, !HashBytesLaws B, !RocksDBLaws rocks raw_iter}.

Definition block_hashed (b : Block) : Prop := block_id b = crypto_hash (block_data b).

#[export] Instance BlockSchema_laws : SchemaLaws BlockSchema.
Proof.
  refine {| key_ok := fun _ => True; value_ok := block_hashed |}; cbn.
  - intros k _. eexists. split; [done|]. by apply hash_roundtrip.
  - intros [i d s] raw Hb E%lcs_roundtrip. cbn in E. rewrite E. cbn. unfold block_deserialize. by rewrite <- Hb.
Defined.
#[export] Instance QCSchema_laws : SchemaLaws QCSchema.
Proof.
  refine {| key_ok := fun _ => True; value_ok := fun _ => True |}; cbn.
  - intros k _. eexists. split; [done|]. by apply hash_roundtrip.
  - intros v raw _. apply lcs_roundtrip.
Defined.

Record Persisted := mkPersisted {
  p_blocks : gmap HashValue Block;
  p_qcs : gmap HashValue QuorumCert;
  p_single : gmap SingleEntryKey bytes
}.

Record holds (self : ConsensusDB) (c : Persisted) : Prop := {
  holds_blocks : column BlockSchema (inner (cdb_db self)) (p_blocks c);
  holds_qcs : column QCSchema (inner (cdb_db self)) (p_qcs c);
  holds_single : column SingleEntrySchema (inner (cdb_db self)) (p_single c)
}.

(** ** Writes *)

Lemma put_fold_rows {V A} (S : Schema HashValue V) `{!SchemaLaws S} (key : A -> HashValue) (value : A -> V) l : forall b w b',
  batch_rows S b w -> (forall x, x ∈ l -> key_ok S (key x) /\ value_ok S (value x)) ->
  result_fold (fun b x => batch_put S b (key x) (value x)) l b = Ok b' -> batch_rows S b' (map_put (map (fun x => (key x, value x)) l) w).
Proof.
  induction l as [|x l IH]; intros b w b' Hb Hl E; cbn [result_fold] in E; [by injection E as <-|]. res_inv.
  match goal with Hp : batch_put _ _ _ _ = Ok ?b1 |- _ => eapply (IH b1); [eapply batch_put_rows; [done|..|done]; apply Hl; by constructor| |done] end.
  intros y Hy. apply Hl. by constructor.
Qed.

Lemma put_fold_other {K V V' A} `{Countable K} (S : Schema K V) `{!SchemaLaws S} (S' : Schema HashValue V') (key : A -> HashValue) (value : A -> V') l : forall b w b',
  COLUMN_FAMILY_NAME S' <> COLUMN_FAMILY_NAME S -> batch_rows S b w ->
  result_fold (fun b x => batch_put S' b (key x) (value x)) l b = Ok b' -> batch_rows S b' w.
Proof.
  induction l as [|x l IH]; intros b w b' Hne Hb E; cbn [result_fold] in E; [by injection E as <-|]. res_inv.
  eapply IH; [done| |done]. by eapply (batch_put_other S S').
Qed.

Lemma commit_holds self batch self' : cdb_commit self batch = Ok self' -> write_schemas (mkDB (inner (cdb_db self))) batch = Ok (mkDB (inner (cdb_db self'))).
Proof. unfold cdb_commit. intros E. res_inv. by destruct self as [[db]], x. Qed.

(** A batch that puts rows in the three columns. *)
Lemma commit_rows self batch self' c wb wq ws : holds self c -> batch_rows BlockSchema batch wb -> batch_rows QCSchema batch wq ->
  batch_rows SingleEntrySchema batch ws -> cdb_commit self batch = Ok self' ->
  holds self' (mkPersisted (wb ∪ p_blocks c) (wq ∪ p_qcs c) (ws ∪ p_single c)).
Proof. intros [Hb Hq Hs] Rb Rq Rs Hw%commit_holds. split; cbn; by eapply write_rows. Qed.

Lemma save_tree_holds self blocks qcs self' c : holds self c -> Forall block_hashed blocks ->
  save_blocks_and_quorum_certificates self blocks qcs = Ok self' ->
  holds self' (mkPersisted (map_put (map (fun b => (block_id b, b)) blocks) (p_blocks c))
    (map_put (map (fun qc => (bi_id (certified_block qc), qc)) qcs) (p_qcs c)) (p_single c)).
Proof.
  intros Hc Hh E. unfold save_blocks_and_quorum_certificates in E. res_inv. rename x0 into b1, x1 into b2.
  assert (R1 : batch_rows BlockSchema b1 (map_put (map (fun b => (block_id b, b)) blocks) ∅)).
  { eapply (put_fold_rows BlockSchema block_id id); [apply batch_rows_new| |done]. intros b Hb. rewrite list.Forall_forall in Hh. by split; [|apply Hh]. }
  assert (R2 : batch_rows QCSchema b2 (map_put (map (fun qc => (bi_id (certified_block qc), qc)) qcs) ∅)).
  { eapply (put_fold_rows QCSchema (fun qc => bi_id (certified_block qc)) id); [|by split|done]. eapply (put_fold_other QCSchema BlockSchema block_id id); [done|apply batch_rows_new|done]. }
  rewrite (map_put_union _ (p_blocks c)), (map_put_union _ (p_qcs c)), <- (map_empty_union (p_single c)). eapply commit_rows; [done| |done| |done].
  - by eapply (put_fold_other BlockSchema QCSchema (fun qc => bi_id (certified_block qc)) id).
  - eapply (put_fold_other SingleEntrySchema QCSchema (fun qc => bi_id (certified_block qc)) id); [done| |done].
    eapply (put_fold_other SingleEntrySchema BlockSchema block_id id); [done|apply batch_rows_new|done].
Qed.

Lemma single_put_holds self k v batch self' c : holds self c -> batch_put SingleEntrySchema batch_new k v = Ok batch -> cdb_commit self batch = Ok self' ->
  holds self' (mkPersisted (p_blocks c) (p_qcs c) (<[k := v]> (p_single c))).
Proof.
  intros Hc Hp Hw. rewrite <- (map_empty_union (p_blocks c)), <- (map_empty_union (p_qcs c)), insert_union_singleton_l, <- insert_empty.
  eapply commit_rows; [done| | | |done].
  - eapply (batch_put_other BlockSchema); [|done|apply batch_rows_new]. done.
  - eapply (batch_put_other QCSchema); [|done|apply batch_rows_new]. done.
  - by eapply batch_put_rows; [apply batch_rows_new| | |].
Qed.

Lemma save_highest_timeout_certificate_holds self tc self' c : holds self c -> save_highest_timeout_certificate self tc = Ok self' ->
  holds self' (mkPersisted (p_blocks c) (p_qcs c) (<[HighestTimeoutCertificate := tc]> (p_single c))).
Proof. intros Hc E. unfold save_highest_timeout_certificate in E. res_inv. by eapply single_put_holds. Qed.
Lemma save_vote_holds self vote self' c : holds self c -> cdb_save_vote self vote = Ok self' ->
  holds self' (mkPersisted (p_blocks c) (p_qcs c) (<[LastVoteMsg := vote]> (p_single c))).
Proof. intros Hc E. unfold cdb_save_vote in E. res_inv. by eapply single_put_holds. Qed.

(** ** Deletions *)

Lemma batch_deletes_new {K V} (S : Schema K V) `{!SchemaLaws S} : batch_deletes S batch_new [].
Proof. split; [by intros k ?%elem_of_nil|]. intros rk op. unfold batch_column, batch_new. rewrite lookup_empty. cbn. by rewrite lookup_empty. Qed.
Lemma batch_deletes_ext {K V} (S : Schema K V) `{!SchemaLaws S} b b' keys : b' !! COLUMN_FAMILY_NAME S = b !! COLUMN_FAMILY_NAME S ->
  batch_deletes S b keys -> batch_deletes S b' keys.
Proof. intros E [Hr Hn]. unfold batch_column in *. split; unfold batch_column; by rewrite E. Qed.

Lemma delete_fold_rows ids : forall b keys, batch_deletes BlockSchema b keys -> batch_deletes QCSchema b keys -> exists b',
  result_fold (fun batch hash => batch ← batch_delete BlockSchema batch hash; batch_delete QCSchema batch hash) ids b = Ok b' /\
  batch_deletes BlockSchema b' (keys ++ ids) /\ batch_deletes QCSchema b' (keys ++ ids) /\ b' !! SINGLE_ENTRY_CF_NAME = b !! SINGLE_ENTRY_CF_NAME.
Proof.
  induction ids as [|i ids IH]; intros b keys Hb Hq; cbn [result_fold]; [exists b; by rewrite app_nil_r|].
  destruct (batch_delete_rows BlockSchema b keys i Hb I) as (b1 & -> & Hb1 & Ho1). cbn [mbind result_bind].
  destruct (batch_delete_rows QCSchema b1 keys i) as (b2 & -> & Hq2 & Ho2); [by eapply batch_deletes_ext, Hq; apply Ho1|done|]. cbn [mbind result_bind].
  destruct (IH b2 (keys ++ [i])) as (b' & E & Hb' & Hq' & Hs); [eapply batch_deletes_ext, Hb1; by apply Ho2|done|].
  exists b'. rewrite <- app_assoc in Hb', Hq'. split_and!; [done..|]. by rewrite Hs, Ho2, Ho1.
Qed.

Lemma commit_deletes self batch self' c kb kq ks : holds self c -> batch_deletes BlockSchema batch kb -> batch_deletes QCSchema batch kq ->
  batch_deletes SingleEntrySchema batch ks -> cdb_commit self batch = Ok self' ->
  holds self' (mkPersisted (without kb (p_blocks c)) (without kq (p_qcs c)) (without ks (p_single c))).
Proof. intros [Hb Hq Hs] Rb Rq Rs Hw%commit_holds. split; cbn; by eapply write_deletes. Qed.

Lemma delete_tree_holds self ids self' c : holds self c -> delete_blocks_and_quorum_certificates self ids = Ok self' ->
  holds self' (mkPersisted (without ids (p_blocks c)) (without ids (p_qcs c)) (p_single c)).
Proof.
  intros Hc E. unfold delete_blocks_and_quorum_certificates in E.
  destruct (delete_fold_rows ids batch_new [] (batch_deletes_new _) (batch_deletes_new _)) as (b & Eb & Rb & Rq & Rs). rewrite Eb in E. res_inv.
  eapply (commit_deletes _ _ _ _ ids ids []); [done..| |done]. eapply batch_deletes_ext, (batch_deletes_new SingleEntrySchema). exact Rs.
Qed.

Lemma single_delete_holds self k batch self' c : holds self c -> batch_delete SingleEntrySchema batch_new k = Ok batch -> cdb_commit self batch = Ok self' ->
  holds self' (mkPersisted (p_blocks c) (p_qcs c) (delete k (p_single c))).
Proof.
  intros Hc Hp Hw. destruct (batch_delete_rows SingleEntrySchema batch_new [] k (batch_deletes_new _)) as (b1 & E1 & Hs & Ho); [done|].
  rewrite Hp in E1. injection E1 as <-. eapply (commit_deletes _ _ _ _ [] [] [k]); [done| | |done|done].
  all: eapply batch_deletes_ext, batch_deletes_new; by apply Ho.
Qed.

Lemma delete_highest_timeout_certificate_holds self self' c : holds self c -> delete_highest_timeout_certificate self = Ok self' ->
  holds self' (mkPersisted (p_blocks c) (p_qcs c) (delete HighestTimeoutCertificate (p_single c))).
Proof. intros Hc E. unfold delete_highest_timeout_certificate in E. res_inv. by eapply single_delete_holds. Qed.
Lemma delete_last_vote_msg_holds self self' c : holds self c -> delete_last_vote_msg self = Ok self' ->
  holds self' (mkPersisted (p_blocks c) (p_qcs c) (delete LastVoteMsg (p_single c))).
Proof. intros Hc E. unfold delete_last_vote_msg in E. res_inv. by eapply single_delete_holds. Qed.

(** *** Deletions succeed on a disk that takes writes *)

Definition own_columns (batch : SchemaBatch) : Prop := forall cf ops, batch !! cf = Some ops -> cf ∈ [BLOCK_CF_NAME; QC_CF_NAME; SINGLE_ENTRY_CF_NAME].

Lemma batch_delete_own {K V} (S : Schema K V) batch k batch' : COLUMN_FAMILY_NAME S ∈ [BLOCK_CF_NAME; QC_CF_NAME; SINGLE_ENTRY_CF_NAME] ->
  own_columns batch -> batch_delete S batch k = Ok batch' -> own_columns batch'.
Proof.
  intros Hs Ho E. unfold batch_delete in E. res_inv. intros cf ops. unfold batch_insert. intros [[<- _]|[_ ?]]%lookup_insert_Some; [done|by eapply Ho].
Qed.

Lemma delete_fold_own ids : forall b b', own_columns b ->
  result_fold (fun batch hash => batch ← batch_delete BlockSchema batch hash; batch_delete QCSchema batch hash) ids b = Ok b' -> own_columns b'.
Proof.
  induction ids as [|i ids IH]; intros b b' Ho E; cbn [result_fold] in E; [by injection E as <-|]. res_inv.
  eapply IH; [|done]. eapply (batch_delete_own QCSchema); [cbn; set_solver| |done]. eapply (batch_delete_own BlockSchema); [cbn; set_solver|done|done].
Qed.

Section Disk.
Hypothesis Hwrite : forall (db : rocks) batch, exists db', write_opt db batch = Ok db'.

Lemma commit_total self c batch : holds self c -> own_columns batch -> exists self', cdb_commit self batch = Ok self'.
Proof.
  intros [[Hb _ _] [Hq _ _] [Hs _ _]] Ho. destruct self as [[db]]. cbn [cdb_db inner] in *. unfold cdb_commit. cbn [cdb_db].
  destruct (write_schemas_total db batch) as [db' ->]; [|apply Hwrite|by eexists].
  intros cf ops Hcf%Ho. repeat (apply elem_of_cons in Hcf as [->|Hcf]; [done|]). by apply elem_of_nil in Hcf.
Qed.

Lemma own_columns_new : own_columns batch_new.
Proof. intros cf ops. unfold batch_new. by rewrite lookup_empty. Qed.

Lemma delete_tree_total self c ids : holds self c -> ids <> [] -> exists self', delete_blocks_and_quorum_certificates self ids = Ok self'.
Proof.
  intros Hc Hn. unfold delete_blocks_and_quorum_certificates. destruct ids as [|i ids]; [done|]. cbn [is_nil negb ensure mbind result_bind].
  destruct (delete_fold_rows (i :: ids) batch_new [] (batch_deletes_new _) (batch_deletes_new _)) as (b & Eb & _). rewrite Eb. cbn [mbind result_bind].
  eapply commit_total; [done|]. eapply delete_fold_own, Eb. apply own_columns_new.
Qed.

Lemma single_delete_total self c k : holds self c -> exists self', (batch ← batch_delete SingleEntrySchema batch_new k; cdb_commit self batch) = Ok self'.
Proof.
  intros Hc. destruct (batch_delete_rows SingleEntrySchema batch_new [] k (batch_deletes_new _)) as (b & E & _); [done|]. rewrite E. cbn [mbind result_bind].
  eapply commit_total; [done|]. eapply (batch_delete_own SingleEntrySchema); [cbn; set_solver|apply own_columns_new|done].
Qed.
End Disk.

(** ** Reads *)

Lemma collect_map_rounds {V} (S : Schema HashValue V) `{!SchemaLaws S} l : forall it m, yields S it l ->
  rounds (collect_map_body S) (Datatypes.S (length l)) (it, m) = inr (Ok (map_put l m)).
Proof.
  induction l as [|[k v] l IH]; intros it m Hy.
  - cbn [length rounds]. unfold collect_map_body. by rewrite (next_nil S it Hy).
  - destruct (next_cons S it (k, v) l Hy) as (it' & E & Hy'). change (length ((k, v) :: l)) with (Datatypes.S (length l)).
    cbn [rounds]. unfold collect_map_body at 1. rewrite E. by apply IH.
Qed.

Lemma collect_map_column {V} (S : Schema HashValue V) `{!SchemaLaws S} db m : column S (inner db) m -> Z.of_nat (size m) < 2 ^ 64 ->
  collect_map S db = Ok m.
Proof.
  intros Hc Hsz. destruct db as [db]. cbn in Hc. unfold collect_map. destruct (seek_to_first_yields S db m Hc) as (it & E & Hy). rewrite E. cbn [mbind result_bind].
  assert (Hp : sorted_rows S m ≡ₚ map_to_list m) by apply merge_sort_Permutation.
  rewrite (run_loop_exits _ (Datatypes.S (length (sorted_rows S m))) _ (Ok (map_put (sorted_rows S m) ∅))); [| |by apply (collect_map_rounds S)].
  - f_equal. apply map_eq. intros k. destruct (m !! k) as [v|] eqn:Ek.
    + apply map_put_elem; [by apply (sorted_rows_elem S)|]. intros v' Hv'%(sorted_rows_elem S). congruence.
    + rewrite map_put_notin; [apply lookup_empty|]. intros ([k' v] & -> & Hv%(sorted_rows_elem S))%list_elem_of_fmap. cbn in Ek. congruence.
  - rewrite Hp, length_map_to_list. lia.
Qed.

(** All that is read back at a start is what was written. *)
Lemma get_data_holds self c : holds self c -> Z.of_nat (size (p_blocks c)) < 2 ^ 64 -> Z.of_nat (size (p_qcs c)) < 2 ^ 64 ->
  get_data self = Ok (p_single c !! LastVoteMsg, p_single c !! HighestTimeoutCertificate, map snd (into_iter (p_blocks c)), map snd (into_iter (p_qcs c))).
Proof.
  intros [Hb Hq Hs] Sb Sq. unfold get_data, get_last_vote, get_highest_timeout_certificate, get_blocks, get_quorum_certificates.
  destruct self as [[db]]. cbn [cdb_db inner] in *. rewrite !(column_get SingleEntrySchema db (p_single c)) by done. cbn [mbind result_bind].
  by rewrite (collect_map_column BlockSchema (mkDB db) (p_blocks c)), (collect_map_column QCSchema (mkDB db) (p_qcs c)).
Qed.
End ConsensusDb.
