(* ===== verification/Recovery.v ===== *)
(** * Restarting consensus

    [consensus/src/persistent_liveness_storage.rs]: what consensus persists, the interface
    [PersistentLivenessStorage] with its implementation on the consensus database, and the
    data that a restart recovers: the last committed block as the root, and the stored
    blocks that descend from it. *)

From stdpp Require Import sorting.
From S2P Require Import Prelude U64 Bytes Lcs SchemaDb Crypto Hash ValidatorVerifier LedgerInfo Accumulator AccumulatorProof.
From S2P Require Import LedgerProof Schema LedgerStore ConsensusTypes ConsensusDb.

Section Recovery.
Context `{Crypto} `{HC : !Countable HashValue}.
Context `{!CryptoHash LedgerInfo, !CryptoHash VoteData, !CryptoHash BlockData}.

Record RootInfo := mkRootInfo { ri_block : Block; ri_quorum_cert : QuorumCert; ri_ledger_info : QuorumCert }.

Record LedgerRecoveryData := mkLedgerRecoveryData { storage_ledger : LedgerInfo }.
Definition commit_round (self : LedgerRecoveryData) : Z := li_round (storage_ledger self).

(** [sort_by_key(|b| (b.epoch(), b.round()))], a stable sort by the pair. *)
Definition key_le (b1 b2 : Block) : Prop := block_epoch b1 < block_epoch b2 \/ block_epoch b1 = block_epoch b2 /\ block_round b1 <= block_round b2.
#[export] Instance key_le_dec b1 b2 : Decision (key_le b1 b2).
Proof. unfold key_le. apply _. Defined.
Definition sort_blocks : list Block -> list Block := merge_sort key_le.

(** The start of [find_root]: where an epoch has ended, the root is the genesis block of the
    next one, which is not stored. *)
Definition with_genesis (self : LedgerRecoveryData) (blocks : list Block) (quorum_certs : list QuorumCert)
    : result string (HashValue * list Block * list QuorumCert) :=
  if li_ends_epoch (storage_ledger self) then
    genesis ← make_genesis_block_from_ledger_info (storage_ledger self);
    let genesis_qc := certificate_for_genesis_from_ledger_info (storage_ledger self) (block_id genesis) in
    Ok (block_id genesis, blocks ++ [genesis], quorum_certs ++ [genesis_qc])
  else Ok (li_consensus_block_id (storage_ledger self), blocks, quorum_certs).

(** [find_root] changes the lists it is given: they come back without the root. *)
Definition find_root (self : LedgerRecoveryData) (blocks : list Block) (quorum_certs : list QuorumCert)
    : result string (RootInfo * list Block * list QuorumCert) :=
  '(root_id, blocks, quorum_certs) ← with_genesis self blocks quorum_certs;
  let blocks := sort_blocks blocks in
  '(root_idx, root_block) ← ok_or (list_find (fun block => block_id block = root_id) blocks) "unable to find root"%string;
  let blocks := delete root_idx blocks in
  root_quorum_cert ← ok_or (List.find (fun qc => bool_decide (bi_id (certified_block qc) = block_id root_block)) quorum_certs) "No QC found for root"%string;
  root_ledger_info ← ok_or (List.find (fun qc => bool_decide (bi_id (qc_commit_info qc) = block_id root_block)) quorum_certs) "No LI found for root"%string;
  Ok (mkRootInfo root_block root_quorum_cert root_ledger_info, blocks, quorum_certs).

Record RootMetadata := mkRootMetadata { accu_hash : HashValue; frozen_root_hashes : list HashValue; rm_num_leaves : Z }.
Definition rm_version (self : RootMetadata) : Z := Z.max (rm_num_leaves self) 1 - 1.

Record RecoveryData := mkRecoveryData {
  rd_last_vote : option Vote;
  rd_root : RootInfo;
  rd_root_metadata : RootMetadata;
  rd_blocks : list Block;
  rd_quorum_certs : list QuorumCert;
  rd_blocks_to_prune : option (list HashValue);
  rd_highest_timeout_certificate : option TimeoutCertificate
}.

(** One step of [blocks.retain(..)]: the set [tree], the blocks kept, the ones to remove. *)
Definition retain_block (s : gset HashValue * list Block * list HashValue) (block : Block) : gset HashValue * list Block * list HashValue :=
  let '(tree, kept, to_remove) := s in
  if bool_decide (block_parent_id block ∈ tree)
  then ({[ block_id block ]} ∪ tree, kept ++ [block], to_remove)
  else (tree, kept, to_remove ++ [block_id block]).

Definition recovery_find_blocks_to_prune (root_id : HashValue) (blocks : list Block) (quorum_certs : list QuorumCert)
    : list HashValue * list Block * list QuorumCert :=
  let '(tree, blocks, to_remove) := foldl retain_block ({[ root_id ]}, [], []) blocks in
  (to_remove, blocks, List.filter (fun qc => bool_decide (bi_id (certified_block qc) ∈ tree)) quorum_certs).

Definition recovery_data_new (last_vote : option Vote) (ledger_recovery_data : LedgerRecoveryData) (blocks : list Block)
    (root_metadata : RootMetadata) (quorum_certs : list QuorumCert) (highest_timeout_certificate : option TimeoutCertificate)
    : result string RecoveryData :=
  '(root, blocks, quorum_certs) ← find_root ledger_recovery_data blocks quorum_certs;
  let '(blocks_to_prune, blocks, quorum_certs) := recovery_find_blocks_to_prune (block_id (ri_block root)) blocks quorum_certs in
  let epoch := block_epoch (ri_block root) in
  Ok (mkRecoveryData
        (match last_vote with Some v => if vote_epoch v =? epoch then Some v else None | None => None end)
        root root_metadata blocks quorum_certs (Some blocks_to_prune)
        (match highest_timeout_certificate with Some tc => if tc_epoch tc =? epoch then Some tc else None | None => None end)).

Definition rd_take (self : RecoveryData) : RootInfo * RootMetadata * list Block * list QuorumCert :=
  (rd_root self, rd_root_metadata self, rd_blocks self, rd_quorum_certs self).
Definition take_blocks_to_prune (self : RecoveryData) : result string (RecoveryData * list HashValue) :=
  ids ← expect (rd_blocks_to_prune self);
  Ok (mkRecoveryData (rd_last_vote self) (rd_root self) (rd_root_metadata self) (rd_blocks self) (rd_quorum_certs self) None
        (rd_highest_timeout_certificate self), ids).

Inductive LivenessStorageData :=
| RecoveryDataFound (data : RecoveryData)
| LedgerRecoveryDataFound (data : LedgerRecoveryData).
Definition expect_recovery_data (self : LivenessStorageData) : result string RecoveryData :=
  match self with RecoveryDataFound data => Ok data | LedgerRecoveryDataFound _ => Panic end.

(** The trait, for what consensus calls; an operation that fails changes nothing. *)
Class PersistentLivenessStorage (P : Type) := {
  save_tree : P -> list Block -> list QuorumCert -> result string P;
  pls_prune_tree : P -> list HashValue -> result string P;
  save_vote : P -> Vote -> result string P;
  recover_from_ledger : P -> result string LedgerRecoveryData;
  start : P -> result string (P * LivenessStorageData);
  save_highest_timeout_cert : P -> TimeoutCertificate -> result string P
}.

(** ** What is recovered *)

(** The blocks that descend from the root through stored blocks. *)
Inductive from_root (root_id : HashValue) (blocks : list Block) : Block -> Prop :=
| from_root_child b : b ∈ blocks -> block_parent_id b = root_id -> from_root root_id blocks b
| from_root_step p b : from_root root_id blocks p -> b ∈ blocks -> block_parent_id b = block_id p -> from_root root_id blocks b.

Definition key_lt (b1 b2 : Block) : Prop := ~ key_le b2 b1.
Definition parents_first (blocks : list Block) : Prop := forall p b, p ∈ blocks -> b ∈ blocks -> block_parent_id b = block_id p -> key_lt p b.

#[local] Instance key_le_total : Total key_le.
Proof. intros b1 b2. unfold key_le. lia. Qed.
#[local] Instance key_le_trans : Transitive key_le.
Proof. intros b1 b2 b3. unfold key_le. lia. Qed.
Lemma key_lt_trans b1 b2 b3 : key_lt b1 b2 -> key_lt b2 b3 -> key_lt b1 b3.
Proof. unfold key_lt, key_le. lia. Qed.

Lemma from_root_in root_id blocks b : from_root root_id blocks b -> b ∈ blocks.
Proof. by destruct 1. Qed.

Section Retain.
Variables (root_id : HashValue) (rest : list Block).
Hypothesis Hsorted : Sorted.StronglySorted key_le rest.
Hypothesis Hparents : parents_first rest.
Notation descendant := (from_root root_id rest).

Record retained (seen : list Block) (tree : gset HashValue) (kept : list Block) (to_remove : list HashValue) : Prop := {
  re_tree : forall i, i ∈ tree <-> i = root_id \/ exists b, b ∈ kept /\ block_id b = i;
  re_kept : forall b, b ∈ kept <-> b ∈ seen /\ descendant b;
  re_order : forall l1 b l2, kept = l1 ++ b :: l2 -> block_parent_id b = root_id \/ exists p, p ∈ l1 /\ block_id p = block_parent_id b;
  re_remove : forall i, i ∈ to_remove <-> exists b, b ∈ seen /\ block_id b = i /\ ~ descendant b
}.

(** A parent comes before its children in the sorted list. *)
Lemma parent_seen seen b l p : rest = seen ++ b :: l -> p ∈ rest -> block_parent_id b = block_id p -> p ∈ seen.
Proof.
  intros E Hp Hb. assert (Hbr : b ∈ rest) by (rewrite E; set_solver). pose proof (Hparents p b Hp Hbr Hb) as Hlt. rewrite E in Hp.
  apply elem_of_app in Hp as [?|Hp]; [done|]. exfalso. apply Hlt. rewrite E in Hsorted. apply StronglySorted_app_1_r in Hsorted. inv Hsorted.
  apply elem_of_cons in Hp as [->|Hp]; [unfold key_le; lia|]. by eapply list.Forall_forall.
Qed.

Lemma retain_step seen b l tree kept to_remove : rest = seen ++ b :: l -> retained seen tree kept to_remove ->
  let '(tree', kept', to_remove') := retain_block (tree, kept, to_remove) b in retained (seen ++ [b]) tree' kept' to_remove'.
Proof.
  intros E [Ht Hk Ho Hr]. assert (Hb : b ∈ rest) by (rewrite E; set_solver).
  assert (Hd : block_parent_id b ∈ tree <-> descendant b).
  { rewrite Ht. split.
    - intros [Hp|(p & [_ Hp]%Hk & Ep)]; [by apply from_root_child|by apply (from_root_step _ _ p)].
    - destruct 1 as [|p b Hp]; [by left|right]. exists p. split; [|done]. apply Hk. split; [|done]. eapply parent_seen; [done|by eapply from_root_in|done]. }
  cbn. destruct (bool_decide_reflect (block_parent_id b ∈ tree)) as [Hin|Hout]; split.
  - intros i. rewrite elem_of_union, Ht. set_solver.
  - intros x. rewrite !elem_of_app, !list_elem_of_singleton, Hk. naive_solver.
  - intros l1 x l2 El. destruct l2 as [|y l2 _] using rev_ind.
    + apply app_inj_tail in El as [<- <-]. apply Ht in Hin as [?|?]; [by left|right; naive_solver].
    + rewrite app_comm_cons, app_assoc in El. apply app_inj_tail in El as [El _]. by apply (Ho l1 x l2).
  - intros i. rewrite Hr. set_solver.
  - done.
  - intros x. rewrite elem_of_app, list_elem_of_singleton, Hk. naive_solver.
  - done.
  - intros i. rewrite elem_of_app, list_elem_of_singleton, Hr. set_solver.
Qed.

Lemma retain_all l : forall seen tree kept to_remove, rest = seen ++ l -> retained seen tree kept to_remove ->
  let '(tree', kept', to_remove') := foldl retain_block (tree, kept, to_remove) l in retained rest tree' kept' to_remove'.
Proof.
  induction l as [|b l IH]; intros seen tree kept to_remove E Hr; cbn [foldl]; [by rewrite E, app_nil_r|].
  pose proof (retain_step seen b l tree kept to_remove E Hr) as Hs. destruct (retain_block _ _) as [[tree' kept'] to_remove'].
  apply (IH (seen ++ [b])); [by rewrite <- app_assoc|done].
Qed.

Lemma retain_ok : let '(tree, kept, to_remove) := foldl retain_block ({[ root_id ]}, [], []) rest in retained rest tree kept to_remove.
Proof.
  apply (retain_all rest []); [done|]. split.
  - intros i. rewrite elem_of_singleton. set_solver.
  - set_solver.
  - by intros [] ? ?.
  - set_solver.
Qed.
End Retain.

(** Descending from the root does not depend on the root itself being listed. *)
Lemma from_root_above root_id blocks root b : parents_first blocks -> root ∈ blocks -> block_id root = root_id ->
  from_root root_id blocks b -> key_lt root b.
Proof.
  intros Hp Hr Ei. induction 1 as [b Hb Eb|p b Hd IH Hb Eb]; [apply Hp; congruence|].
  eapply key_lt_trans; [done|]. apply Hp; [by eapply from_root_in|done..].
Qed.

Lemma from_root_rest root_id blocks root rest b : parents_first blocks -> blocks ≡ₚ root :: rest -> block_id root = root_id ->
  from_root root_id blocks b <-> from_root root_id rest b.
Proof.
  intros Hp Hperm Ei. assert (Hin : forall x, x ∈ blocks <-> x = root \/ x ∈ rest) by (intros x; by rewrite Hperm, elem_of_cons).
  assert (Hroot : ~ from_root root_id blocks root).
  { intros Hd. apply (from_root_above root_id blocks root root) in Hd; [|done|apply Hin; by left|done]. apply Hd. unfold key_le. lia. }
  split.
  - induction 1 as [b Hb Eb|p b Hd IH Hb Eb].
    + apply from_root_child; [|done]. apply Hin in Hb as Hb'. destruct Hb' as [->|?]; [|done]. exfalso. apply Hroot. by apply from_root_child.
    + apply (from_root_step _ _ p); [done| |done]. apply Hin in Hb as Hb'. destruct Hb' as [->|?]; [|done]. exfalso. apply Hroot. by apply (from_root_step _ _ p).
  - induction 1 as [b Hb Eb|p b Hd IH Hb Eb]; [apply from_root_child|apply (from_root_step _ _ p)]; try done; apply Hin; by right.
Qed.

(** What recovery makes of all blocks and certificates. *)
Record recovered (root_id : HashValue) (blocks : list Block) (qcs : list QuorumCert) (rd : RecoveryData) : Prop := {
  rc_root : ri_block (rd_root rd) ∈ blocks /\ block_id (ri_block (rd_root rd)) = root_id;
  rc_root_qc : ri_quorum_cert (rd_root rd) ∈ qcs /\ bi_id (certified_block (ri_quorum_cert (rd_root rd))) = root_id;
  rc_root_li : ri_ledger_info (rd_root rd) ∈ qcs /\ bi_id (qc_commit_info (ri_ledger_info (rd_root rd))) = root_id;
  rc_blocks : forall b, b ∈ rd_blocks rd <-> from_root root_id blocks b;
  rc_order : forall l1 b l2, rd_blocks rd = l1 ++ b :: l2 -> block_parent_id b = root_id \/ exists p, p ∈ l1 /\ block_id p = block_parent_id b;
  rc_qcs : forall qc, qc ∈ rd_quorum_certs rd <-> qc ∈ qcs /\
    (bi_id (certified_block qc) = root_id \/ exists b, b ∈ rd_blocks rd /\ block_id b = bi_id (certified_block qc));
  rc_prune : exists ids, rd_blocks_to_prune rd = Some ids /\
    forall i, i ∈ ids <-> exists b, b ∈ blocks /\ block_id b = i /\ i <> root_id /\ ~ from_root root_id blocks b
}.

Lemma find_elem {A} (f : A -> bool) l x : x ∈ l -> f x = true -> exists y, List.find f l = Some y /\ y ∈ l /\ f y = true.
Proof.
  intros Hx Hf. destruct (List.find f l) as [y|] eqn:E.
  - exists y. apply List.find_some in E as [?%list_elem_of_In ?]. done.
  - apply list_elem_of_In in Hx. by rewrite (List.find_none _ _ E x Hx) in Hf.
Qed.

Lemma delete_sorted {A} (R : A -> A -> Prop) l : forall i, Sorted.StronglySorted R l -> Sorted.StronglySorted R (delete i l).
Proof.
  induction l as [|x l IH]; intros i Hs; [done|]. inv Hs. destruct i as [|i]; cbn; [done|]. constructor; [by apply IH|].
  by apply Forall_delete.
Qed.

Lemma NoDup_map_eq {A B} (f : A -> B) l x y : NoDup (map f l) -> x ∈ l -> y ∈ l -> f x = f y -> x = y.
Proof.
  induction l as [|z l IH]; cbn; intros Hnd Hx Hy E; [by apply elem_of_nil in Hx|]. apply list.NoDup_cons in Hnd as [Hz Hnd].
  apply elem_of_cons in Hx as [->|Hx]; apply elem_of_cons in Hy as [->|Hy]; [done| | |by apply IH].
  - exfalso. apply Hz. rewrite E. by apply list_elem_of_fmap_2.
  - exfalso. apply Hz. rewrite <- E. by apply list_elem_of_fmap_2.
Qed.

Lemma recovery_ok last_vote lrd stored_blocks meta stored_qcs tc root_id blocks qcs root : with_genesis lrd stored_blocks stored_qcs = Ok (root_id, blocks, qcs) ->
  NoDup (map block_id blocks) -> parents_first blocks -> root ∈ blocks -> block_id root = root_id ->
  (exists qc, qc ∈ qcs /\ bi_id (certified_block qc) = root_id) -> (exists qc, qc ∈ qcs /\ bi_id (qc_commit_info qc) = root_id) ->
  exists rd, recovery_data_new last_vote lrd stored_blocks meta stored_qcs tc = Ok rd /\ recovered root_id blocks qcs rd /\ ri_block (rd_root rd) = root /\
    (forall v, rd_last_vote rd = Some v <-> last_vote = Some v /\ vote_epoch v = block_epoch root) /\
    (forall c, rd_highest_timeout_certificate rd = Some c <-> tc = Some c /\ tc_epoch c = block_epoch root).
Proof.
  intros Eg Hnd Hp Hroot Hid (q1 & Hq1 & E1) (q2 & Hq2 & E2). unfold recovery_data_new, find_root. rewrite Eg. cbn [mbind result_bind].
  assert (Hs : sort_blocks blocks ≡ₚ blocks) by apply merge_sort_Permutation.
  destruct (list_find_elem_of (fun b => block_id b = root_id) (sort_blocks blocks) root) as [[idx r] Hf]; [by rewrite Hs|done|].
  rewrite Hf. cbn [ok_or mbind result_bind]. apply list_find_Some in Hf as (Hidx & Hr & _).
  assert (Hperm : blocks ≡ₚ r :: delete idx (sort_blocks blocks)) by (rewrite <- Hs at 1; by apply delete_Permutation).
  assert (r = root) as ->.
  { apply (NoDup_map_eq block_id blocks); [done| |done|congruence]. rewrite Hperm. by left. }
  destruct (find_elem (fun qc => bool_decide (bi_id (certified_block qc) = block_id root)) qcs q1) as (rq & -> & Hrq & Erq%bool_decide_eq_true);
    [done|apply bool_decide_eq_true; congruence|]. cbn [ok_or mbind result_bind].
  destruct (find_elem (fun qc => bool_decide (bi_id (qc_commit_info qc) = block_id root)) qcs q2) as (rl & -> & Hrl & Erl%bool_decide_eq_true);
    [done|apply bool_decide_eq_true; congruence|]. cbn [ok_or mbind result_bind].
  set (rest := delete idx (sort_blocks blocks)) in *. unfold recovery_find_blocks_to_prune. cbn [ri_block]. rewrite Hid.
  assert (Hsub : forall x, x ∈ rest -> x ∈ blocks) by (intros x Hx; rewrite Hperm; by right).
  assert (Hret := retain_ok root_id rest). destruct (foldl retain_block _ _) as [[tree kept] to_remove]. destruct Hret as [Ht Hk Ho Hrm].
  { apply delete_sorted, StronglySorted_merge_sort; apply _. }
  { intros p b Hpb Hb. apply Hp; auto. }
  assert (Hfr : forall b, from_root root_id blocks b <-> from_root root_id rest b) by (intros b; by apply (from_root_rest root_id blocks root rest)).
  eexists. split; [done|]. split_and!; [|done| |].
  - split; cbn; [done|by rewrite Erq|by rewrite Erl| |done| |].
    + intros b. rewrite Hfr, Hk. split; [by intros [_ ?]|]. intros Hd. split; [by eapply from_root_in|done].
    + intros qc. rewrite list_elem_of_In, filter_In, <- list_elem_of_In, bool_decide_eq_true, Ht. naive_solver.
    + exists to_remove. split; [done|]. intros i. rewrite Hrm. split.
      * intros (b & Hb & Eb & Hd). exists b. rewrite Hfr. split_and!; [by apply Hsub|done| |done]. intros ->.
        assert (b = root) as -> by (apply (NoDup_map_eq block_id blocks); [done|by apply Hsub|done|congruence]).
        rewrite Hperm in Hnd. cbn in Hnd. apply list.NoDup_cons in Hnd as [Hn _]. apply Hn. by apply list_elem_of_fmap_2.
      * intros (b & Hb & Eb & Hne & Hd). exists b. rewrite <- Hfr. split_and!; [|done|done].
        rewrite Hperm in Hb. apply elem_of_cons in Hb as [->|?]; [congruence|done].
  - intros v. cbn. destruct last_vote as [v'|]; [|naive_solver]. destruct (Z.eqb_spec (vote_epoch v') (block_epoch root)); naive_solver.
  - intros c. cbn. destruct tc as [c'|]; [|naive_solver]. destruct (Z.eqb_spec (tc_epoch c') (block_epoch root)); naive_solver.
Qed.

(** What a storage holds, and what its operations promise. *)
Record Stored := mkStored {
  s_blocks : gmap HashValue Block;
  s_qcs : gmap HashValue QuorumCert;
  s_vote : option Vote;
  s_tc : option TimeoutCertificate
}.

Definition stored_tree (c : Stored) (blocks : list Block) (qcs : list QuorumCert) : Stored :=
  mkStored (map_put (map (fun b => (block_id b, b)) blocks) (s_blocks c))
    (map_put (map (fun qc => (bi_id (certified_block qc), qc)) qcs) (s_qcs c)) (s_vote c) (s_tc c).
Definition stored_without (c : Stored) (ids : list HashValue) : Stored :=
  mkStored (without ids (s_blocks c)) (without ids (s_qcs c)) (s_vote c) (s_tc c).

Class PersistentLivenessStorageLaws (P : Type) `{!PersistentLivenessStorage P} := {
  stores : P -> Stored -> Prop;
  save_tree_stores : forall p c blocks qcs p', stores p c -> Forall block_hashed blocks -> save_tree p blocks qcs = Ok p' ->
    stores p' (stored_tree c blocks qcs);
  prune_tree_stores : forall p c ids p', stores p c -> pls_prune_tree p ids = Ok p' -> stores p' (stored_without c ids);
  save_vote_stores : forall p c vote p', stores p c -> save_vote p vote = Ok p' -> stores p' (mkStored (s_blocks c) (s_qcs c) (Some vote) (s_tc c));
  save_tc_stores : forall p c tc p', stores p c -> save_highest_timeout_cert p tc = Ok p' -> stores p' (mkStored (s_blocks c) (s_qcs c) (s_vote c) (Some tc))
}.

(** ** On the consensus database *)

(** [DbReader], as far as it is used here. *)
Class DbReader (D : Type) := dbr_get_startup_info : D -> result string (option StartupInfo).

Context `{!HashMapOrder HashValue} `{B : !HashBytes, !LedgerHashers}.
Context `{!Lcs (BlockData * option Signature), !Lcs QuorumCert, !Lcs Vote, !Lcs TimeoutCertificate}.
Context {rocks raw_iter D : Type} `{!RocksDB rocks raw_iter, !DbReader D}.

Record StorageWriteProxy := mkStorageWriteProxy { swp_db : ConsensusDB (rocks:=rocks); swp_libra_db : D }.

Definition on_db (self : StorageWriteProxy) (r : result string ConsensusDB) : result string StorageWriteProxy :=
  db ← r; Ok (mkStorageWriteProxy db (swp_libra_db self)).

Definition proxy_prune_tree (self : StorageWriteProxy) (block_ids : list HashValue) : result string StorageWriteProxy :=
  if negb (is_nil block_ids) then on_db self (delete_blocks_and_quorum_certificates (swp_db self) block_ids) else Ok self.

(** [get_startup_info().expect(..).expect(..)]. *)
Definition expect_startup_info (self : StorageWriteProxy) : result string StartupInfo :=
  info ← result_expect (dbr_get_startup_info (swp_libra_db self)); expect info.

(** [ExecutedTrees::from(committed_tree_state)]: its accumulator. *)
Definition executed_accumulator (tree_state : TreeState) : result string (InMemoryAccumulator (HashValue:=HashValue)) :=
  result_expect (accumulator_new TransactionAccumulatorInternalNode_hash ACCUMULATOR_PLACEHOLDER_HASH
    (ts_ledger_frozen_subtree_hashes tree_state) (ts_num_transactions tree_state)).

(** What [start] writes once the data is recovered. *)
Definition clean_up (self : StorageWriteProxy) (initial_data : RecoveryData) : result string (StorageWriteProxy * RecoveryData) :=
  '(initial_data, ids) ← take_blocks_to_prune initial_data;
  self ← result_expect (proxy_prune_tree self ids);
  self ← (match rd_last_vote initial_data with None => result_expect (on_db self (delete_last_vote_msg (swp_db self))) | Some _ => Ok self end);
  self ← (match rd_highest_timeout_certificate initial_data with
          | None => result_expect (on_db self (delete_highest_timeout_certificate (swp_db self)))
          | Some _ => Ok self
          end);
  Ok (self, initial_data).

Definition proxy_start (self : StorageWriteProxy) : result string (StorageWriteProxy * LivenessStorageData) :=
  '(raw_vote, raw_tc, blocks, quorum_certs) ← result_expect (get_data (swp_db self));
  last_vote ← (match raw_vote with Some v => v ← result_expect (lcs_from_bytes v); Ok (Some v) | None => Ok None end);
  highest_timeout_certificate ← (match raw_tc with Some ts => ts ← result_expect (lcs_from_bytes ts); Ok (Some ts) | None => Ok None end);
  startup_info ← expect_startup_info self;
  let ledger_recovery_data := mkLedgerRecoveryData (liws_ledger_info (si_latest_ledger_info startup_info)) in
  let frozen_root_hashes := ts_ledger_frozen_subtree_hashes (si_committed_tree_state startup_info) in
  root_executed_trees ← executed_accumulator (si_committed_tree_state startup_info);
  match recovery_data_new last_vote ledger_recovery_data blocks
          (mkRootMetadata (root_hash root_executed_trees) frozen_root_hashes (num_leaves root_executed_trees))
          quorum_certs highest_timeout_certificate with
  | Ok initial_data => '(self, initial_data) ← clean_up self initial_data; Ok (self, RecoveryDataFound initial_data)
  | Err _ => Ok (self, LedgerRecoveryDataFound ledger_recovery_data)
  | Panic => Panic
  end.

#[export] Instance storage_write_proxy : PersistentLivenessStorage StorageWriteProxy := {|
  save_tree self blocks quorum_certs := on_db self (save_blocks_and_quorum_certificates (swp_db self) blocks quorum_certs);
  pls_prune_tree := proxy_prune_tree;
  save_vote self vote := raw ← lcs_to_bytes vote; on_db self (cdb_save_vote (swp_db self) raw);
  recover_from_ledger self :=
    startup_info ← expect_startup_info self; Ok (mkLedgerRecoveryData (liws_ledger_info (si_latest_ledger_info startup_info)));
  start := proxy_start;
  save_highest_timeout_cert self tc := raw ← lcs_to_bytes tc; on_db self (save_highest_timeout_certificate (swp_db self) raw)
|}.

(** ** The consensus database keeps the promises *)

Context `{!LcsLaws (BlockData * option Signature), !LcsLaws QuorumCert, !LcsLaws Vote, !LcsLaws TimeoutCertificate, !HashBytesLaws B, !RocksDBLaws rocks raw_iter}.

(** A single entry is the serialized value. *)
Definition entry_of {T} `{!Lcs T} (raw : option bytes) (v : option T) : Prop :=
  match raw, v with
  | Some raw, Some v => lcs_from_bytes raw = Ok v
  | None, None => True
  | _, _ => False
  end.

Record proxy_stores (self : StorageWriteProxy) (c : Stored) : Prop := {
  ps_db : exists single, holds (swp_db self) (mkPersisted (s_blocks c) (s_qcs c) single) /\
    entry_of (single !! LastVoteMsg) (s_vote c) /\ entry_of (single !! HighestTimeoutCertificate) (s_tc c);
  ps_blocks : forall i b, s_blocks c !! i = Some b -> block_id b = i;
  ps_qcs : forall i qc, s_qcs c !! i = Some qc -> bi_id (certified_block qc) = i
}.

Lemma on_db_Ok self r self' : on_db self r = Ok self' -> r = Ok (swp_db self') /\ swp_libra_db self' = swp_libra_db self.
Proof. unfold on_db. intros E. by res_inv. Qed.

Lemma map_put_ids {V} (f : V -> HashValue) (l : list V) (m : gmap HashValue V) i v :
  map_put (map (fun v => (f v, v)) l) m !! i = Some v -> (forall i v, m !! i = Some v -> f v = i) -> f v = i.
Proof. intros [(x & [= -> ->] & _)%list_elem_of_fmap|Hm]%map_put_inv Hi; auto. Qed.

Lemma without_Some {V} (ids : list HashValue) (m : gmap HashValue V) i v : without ids m !! i = Some v -> m !! i = Some v.
Proof. rewrite without_lookup. by case_bool_decide. Qed.

#[export] Instance storage_write_proxy_laws : PersistentLivenessStorageLaws StorageWriteProxy.
Proof.
  refine {| stores := proxy_stores |}.
  - intros p c blocks qcs p' [(single & Hh & Hv & Ht) Hb Hq] Hs [E El]%on_db_Ok. split; cbn.
    + exists single. split; [|done]. exact (save_tree_holds _ _ _ _ _ Hh Hs E).
    + intros i b Hi. by eapply map_put_ids.
    + intros i qc Hi. by eapply (map_put_ids (fun qc => bi_id (certified_block qc))).
  - intros p c ids p' [(single & Hh & Hv & Ht) Hb Hq] E. cbn in E. unfold proxy_prune_tree in E. destruct (is_nil ids) eqn:En; cbn in E.
    + injection E as <-. destruct ids; [|done]. split; [by exists single|done..].
    + apply on_db_Ok in E as [E _]. split; cbn; [exists single; split; [exact (delete_tree_holds _ _ _ _ Hh E)|done]|intros i b ?%without_Some; auto|intros i b ?%without_Some; auto].
  - intros p c vote p' [(single & Hh & Hv & Ht) Hb Hq] E. cbn in E. destruct (lcs_to_bytes vote) as [x| |] eqn:Ex; [|done..]. apply on_db_Ok in E as [E _]. split; cbn; [|done..].
    exists (<[LastVoteMsg := x]> single). split; [exact (save_vote_holds _ _ _ _ Hh E)|]. rewrite lookup_insert_eq, lookup_insert_ne by done.
    split; [by apply lcs_roundtrip|done].
  - intros p c tc p' [(single & Hh & Hv & Ht) Hb Hq] E. cbn in E. destruct (lcs_to_bytes tc) as [x| |] eqn:Ex; [|done..]. apply on_db_Ok in E as [E _]. split; cbn; [|done..].
    exists (<[HighestTimeoutCertificate := x]> single). split; [exact (save_highest_timeout_certificate_holds _ _ _ _ Hh E)|]. rewrite lookup_insert_eq, lookup_insert_ne by done.
    split; [done|by apply lcs_roundtrip].
Defined.

(** ** A restart *)

Section Restart.
Variables (self : StorageWriteProxy) (c : Stored) (info : StartupInfo) (acc : InMemoryAccumulator (HashValue:=HashValue)).
Hypothesis Hc : proxy_stores self c.
Hypothesis Hinfo : dbr_get_startup_info (swp_libra_db self) = Ok (Some info).
Hypothesis Hacc : executed_accumulator (si_committed_tree_state info) = Ok acc.
Hypothesis Hsize : Z.of_nat (size (s_blocks c)) < 2 ^ 64 /\ Z.of_nat (size (s_qcs c)) < 2 ^ 64.
(** The disk takes the writes. *)
Hypothesis Hwrite : forall (db : rocks) batch, exists db', write_opt db batch = Ok db'.

Notation lrd := (mkLedgerRecoveryData (liws_ledger_info (si_latest_ledger_info info))).
Notation stored_blocks := (map snd (into_iter (s_blocks c))).
Notation stored_qcs := (map snd (into_iter (s_qcs c))).

Notation metadata := (mkRootMetadata (root_hash acc) (ts_ledger_frozen_subtree_hashes (si_committed_tree_state info)) (num_leaves acc)).

Lemma proxy_start_data : proxy_start self =
  match recovery_data_new (s_vote c) lrd stored_blocks metadata stored_qcs (s_tc c) with
  | Ok initial_data => '(self, initial_data) ← clean_up self initial_data; Ok (self, RecoveryDataFound initial_data)
  | Err _ => Ok (self, LedgerRecoveryDataFound lrd)
  | Panic => Panic
  end.
Proof.
  destruct Hc as [(single & Hh & Hv & Ht) _ _]. unfold proxy_start. rewrite (get_data_holds _ _ Hh) by apply Hsize. cbn [result_expect mbind result_bind p_single].
  unfold expect_startup_info. rewrite Hinfo. cbn [result_expect expect mbind result_bind].
  destruct (single !! LastVoteMsg) as [rv|], (s_vote c) as [v|]; try done; destruct (single !! HighestTimeoutCertificate) as [rt|], (s_tc c) as [tc|]; try done; cbn [entry_of] in Hv, Ht;
    rewrite ?Hv, ?Ht; cbn [result_expect mbind result_bind]; rewrite Hacc; done.
Qed.

(** The storage after [start]: what is not recovered is gone. *)
Lemma clean_up_ok rd ids : rd_blocks_to_prune rd = Some ids ->
  (forall v, rd_last_vote rd = Some v -> s_vote c = Some v) -> (forall tc, rd_highest_timeout_certificate rd = Some tc -> s_tc c = Some tc) ->
  exists self' rd', clean_up self rd = Ok (self', rd') /\ rd_take rd' = rd_take rd /\ rd_last_vote rd' = rd_last_vote rd /\
    rd_highest_timeout_certificate rd' = rd_highest_timeout_certificate rd /\ swp_libra_db self' = swp_libra_db self /\
    proxy_stores self' (mkStored (without ids (s_blocks c)) (without ids (s_qcs c)) (rd_last_vote rd) (rd_highest_timeout_certificate rd)).
Proof.
  intros Hids Hlv Hltc. destruct Hc as [(single & Hh & Hv & Ht) Hb Hq]. unfold clean_up, take_blocks_to_prune. rewrite Hids. cbn [expect mbind result_bind].
  assert (H1 : exists self1, proxy_prune_tree self ids = Ok self1 /\ swp_libra_db self1 = swp_libra_db self /\
    holds (swp_db self1) (mkPersisted (without ids (s_blocks c)) (without ids (s_qcs c)) single)).
  { unfold proxy_prune_tree. destruct ids as [|i ids]; [by exists self|]. cbn [is_nil negb].
    destruct (delete_tree_total Hwrite (swp_db self) _ (i :: ids) Hh) as [db1 E1]; [done|]. unfold on_db. rewrite E1. cbn [mbind result_bind].
    eexists. split_and!; [done|done|]. exact (delete_tree_holds _ _ _ _ Hh E1). }
  destruct H1 as (self1 & -> & El1 & Hh1). cbn [result_expect mbind result_bind rd_last_vote rd_highest_timeout_certificate].
  assert (H2 : exists self2 single2, match rd_last_vote rd with None => result_expect (on_db self1 (delete_last_vote_msg (swp_db self1))) | Some _ => Ok self1 end = Ok (E:=string) self2 /\
    swp_libra_db self2 = swp_libra_db self /\ holds (swp_db self2) (mkPersisted (without ids (s_blocks c)) (without ids (s_qcs c)) single2) /\
    entry_of (single2 !! LastVoteMsg) (rd_last_vote rd) /\ single2 !! HighestTimeoutCertificate = single !! HighestTimeoutCertificate).
  { destruct (rd_last_vote rd) as [v|] eqn:Ev; [exists self1, single; rewrite (Hlv v) in Hv by done; done|].
    destruct (single_delete_total Hwrite (swp_db self1) _ LastVoteMsg Hh1) as [db2 E2]. unfold on_db, delete_last_vote_msg. rewrite E2. cbn [mbind result_bind result_expect].
    exists (mkStorageWriteProxy db2 (swp_libra_db self1)), (delete LastVoteMsg single). split_and!; [done|done| | |by rewrite lookup_delete_ne].
    - exact (delete_last_vote_msg_holds _ _ _ Hh1 E2).
    - by rewrite lookup_delete_eq. }
  destruct H2 as (self2 & single2 & E2 & El2 & Hh2 & Hv2 & Ht2). rewrite E2. cbn [mbind result_bind].
  destruct (rd_highest_timeout_certificate rd) as [tc|] eqn:Etc.
  - cbn [mbind result_bind]. do 2 eexists. split_and!; [done..|]. split; cbn; [exists single2; split_and!; [done|done|]|intros i b ?%without_Some; auto|intros i b ?%without_Some; auto].
    rewrite Ht2. by rewrite (Hltc tc) in Ht.
  - destruct (single_delete_total Hwrite (swp_db self2) _ HighestTimeoutCertificate Hh2) as [db3 E3]. unfold on_db, delete_highest_timeout_certificate. rewrite E3.
    cbn [mbind result_bind result_expect]. do 2 eexists. split_and!; [done..|].
    split; cbn; [exists (delete HighestTimeoutCertificate single2); split_and!; [exact (delete_highest_timeout_certificate_holds _ _ _ Hh2 E3)| |]|intros i b ?%without_Some; auto|intros i b ?%without_Some; auto].
    + by rewrite lookup_delete_ne.
    + by rewrite lookup_delete_eq.
Qed.

(** C7: A restart finds everything again: if the last committed block of the ledger is
    stored with a certificate for it and one that commits it, consensus starts with it as
    the root, with exactly the stored blocks that descend from it, parents before children,
    with the certificates of these blocks, and with the last vote and the highest timeout
    certificate as far as they are of the root's epoch.  Deleted from storage are exactly the
    stored blocks that are neither the root nor descend from it, with the certificates for
    them; the root, its certificate and everything else stay. *)
Theorem restart_recovers root_id blocks qcs root : with_genesis lrd stored_blocks stored_qcs = Ok (root_id, blocks, qcs) ->
  NoDup (map block_id blocks) -> parents_first blocks -> root ∈ blocks -> block_id root = root_id ->
  (exists qc, qc ∈ qcs /\ bi_id (certified_block qc) = root_id) -> (exists qc, qc ∈ qcs /\ bi_id (qc_commit_info qc) = root_id) ->
  exists self' rd ids, proxy_start self = Ok (self', RecoveryDataFound rd) /\ ri_block (rd_root rd) = root /\
    bi_id (certified_block (ri_quorum_cert (rd_root rd))) = root_id /\ bi_id (qc_commit_info (ri_ledger_info (rd_root rd))) = root_id /\
    (forall b, b ∈ rd_blocks rd <-> from_root root_id blocks b) /\
    (forall l1 b l2, rd_blocks rd = l1 ++ b :: l2 -> block_parent_id b = root_id \/ exists p, p ∈ l1 /\ block_id p = block_parent_id b) /\
    (forall qc, qc ∈ rd_quorum_certs rd <-> qc ∈ qcs /\
      (bi_id (certified_block qc) = root_id \/ exists b, b ∈ rd_blocks rd /\ block_id b = bi_id (certified_block qc))) /\
    (forall v, rd_last_vote rd = Some v <-> s_vote c = Some v /\ vote_epoch v = block_epoch root) /\
    (forall tc, rd_highest_timeout_certificate rd = Some tc <-> s_tc c = Some tc /\ tc_epoch tc = block_epoch root) /\
    (forall i, i ∈ ids <-> exists b, b ∈ blocks /\ block_id b = i /\ i <> root_id /\ ~ from_root root_id blocks b) /\
    proxy_stores self' (mkStored (without ids (s_blocks c)) (without ids (s_qcs c)) (rd_last_vote rd) (rd_highest_timeout_certificate rd)).
Proof.
  intros Eg Hnd Hp Hr Hid Hq Hl. rewrite proxy_start_data.
  destruct (recovery_ok (s_vote c) lrd stored_blocks metadata stored_qcs (s_tc c) root_id blocks qcs root) as (rd & Erd & Hrec & Hroot & Hv & Ht); [done..|]. rewrite Erd.
  destruct Hrec as [_ [_ H2] [_ H3] H4 H5 H6 (ids & Hids & H7)]. destruct (clean_up_ok rd ids Hids) as (self' & rd' & -> & Etake & Ev & Et & _ & Hst); [apply Hv|apply Ht|].
  injection Etake as E1 E2 E3 E4. cbn [mbind result_bind]. exists self', rd', ids. rewrite E1, E3, E4, Ev, Et. by split_and!.
Qed.
End Restart.
End Recovery.
