(* ===== verification/BlockStore.v ===== *)
(** * The block store

    [consensus/src/block_storage/block_store.rs] and [sync_manager.rs]: the block tree with
    the executor that computes the results of its blocks, the storage that every change
    goes to first, and the peers from which missing blocks are fetched.  The executor, the
    storage and the network are the traits [StateComputer], [PersistentLivenessStorage]
    and [NetworkSender]; they are shared and mutable, so their states are part of the
    state of the store. *)

From S2P Require Import Prelude U64 Crypto ValidatorVerifier LedgerInfo Accumulator AccumulatorProof ConsensusTypes.
From S2P Require Import BlockTree LedgerStore Recovery.

(** ** Retrieving blocks *)

Section BlockRetrieval.
Context `{Crypto}.

(** [consensus/consensus-types/src/block_retrieval.rs]. *)
Record BlockRetrievalRequest := mkBlockRetrievalRequest { brr_block_id : HashValue; brr_num_blocks : Z }.
Inductive BlockRetrievalStatus := Succeeded | IdNotFound | NotEnoughBlocks.
Record BlockRetrievalResponse := mkBlockRetrievalResponse { brs_status : BlockRetrievalStatus; brs_blocks : list Block }.

#[export] Instance BlockRetrievalStatus_eq_dec : EqDecision BlockRetrievalStatus.
Proof. solve_decision. Defined.

Context `{!CryptoHash LedgerInfo, !CryptoHash VoteData, !CryptoHash BlockData}.

Definition verify_chain_step (sig_verifier : ValidatorVerifier) (expected_id : HashValue) (block : Block) : result string HashValue :=
  _ ← validate_signature block sig_verifier;
  _ ← verify_well_formed block;
  _ ← ensure (bool_decide (block_id block = expected_id)) "blocks doesn't form a chain"%string;
  Ok (block_parent_id block).

Definition response_verify (self : BlockRetrievalResponse) (block_id : HashValue) (num_blocks : Z) (sig_verifier : ValidatorVerifier)
    : result string unit :=
  _ ← ensure (negb (bool_decide (brs_status self = Succeeded)) || (Z.of_nat (length (brs_blocks self)) =? num_blocks)) "not enough blocks returned"%string;
  _ ← result_fold (verify_chain_step sig_verifier) (brs_blocks self) block_id;
  Ok tt.

(** [consensus/src/network.rs]: the sender, of which [send_rpc] is the network itself; a
    reply that is not a [BlockRetrievalResponse] is [None]. *)
Class NetworkSender (N : Type) := {
  ns_author : N -> Author;
  ns_validators : N -> ValidatorVerifier;
  send_rpc : N -> AccountAddress -> BlockRetrievalRequest -> Z -> N * result string (option BlockRetrievalResponse);
  broadcast_epoch_change : N -> EpochChangeProof -> N;
  notify_epoch_change : N -> EpochChangeProof -> N
}.

Context {N : Type} `{!NetworkSender N}.

Definition request_block (retrieval_request : BlockRetrievalRequest) (from : Author) (timeout : Z) : M N string BlockRetrievalResponse := fun self =>
  (run* m_ensure (negb (bool_decide (from = ns_author self))) "Retrieve block from self"%string in
   let* response := (fun n => send_rpc n from retrieval_request timeout) in
   let* response := m_lift (ok_or response "Invalid response to request"%string) in
   run* m_lift (response_verify response (brr_block_id retrieval_request) (brr_num_blocks retrieval_request) (ns_validators self)) in
   m_ret response) self.

Definition RETRIEVAL_INITIAL_TIMEOUT : Z := 200.
Definition RETRIEVAL_MAX_EXP : Z := 4.
Definition retrieval_timeout (attempt : Z) : result string Z :=
  _ ← assert_ (0 <? attempt);
  Ok (RETRIEVAL_INITIAL_TIMEOUT * 2 ^ Z.min RETRIEVAL_MAX_EXP (attempt - 1)).

(** [thread_rng().gen_range(0, n)], by the number of the attempt. *)
Variable gen_range : Z -> nat -> nat.

(** [for i in 0..peers.len() { if .. { peers.remove(i); break; } }]. *)
Definition remove_peer (peers : list AccountAddress) (peer : AccountAddress) : list AccountAddress :=
  match list_find (fun p => p = peer) peers with Some (i, _) => delete i peers | None => peers end.

Definition pick_peer (preferred_peer : Author) (attempt : Z) (peers : list AccountAddress) : result string (AccountAddress * list AccountAddress) :=
  _ ← assert_ (negb (is_nil peers));
  if attempt =? 0 then Ok (preferred_peer, remove_peer peers preferred_peer)
  else
    let peer_idx := gen_range attempt (length peers) in
    peer ← expect (peers !! peer_idx);
    Ok (peer, delete peer_idx peers).

(** The loop of [retrieve_block_for_qc]: every attempt but the first one uses up a peer. *)
Fixpoint retrieve_loop (fuel : nat) (preferred_peer : Author) (block_id : HashValue) (num_blocks : Z) (peers : list AccountAddress) (attempt : Z)
    : M N string (list Block) :=
  if is_nil peers then m_err "no more peers available"%string
  else
    match fuel with
    | O => m_lift Panic
    | S fuel =>
      let* picked := m_lift (pick_peer preferred_peer attempt peers) in
      let* timeout := m_lift (retrieval_timeout (attempt + 1)) in
      fun n =>
        match request_block (mkBlockRetrievalRequest block_id num_blocks) picked.1 timeout n with
        | (n, Ok response) =>
          if bool_decide (brs_status response = Succeeded) then (n, Ok (brs_blocks response))
          else retrieve_loop fuel preferred_peer block_id num_blocks picked.2 (attempt + 1) n
        | (n, Err _) => retrieve_loop fuel preferred_peer block_id num_blocks picked.2 (attempt + 1) n
        | (n, Panic) => (n, Panic)
        end
    end.

Definition retrieve_block_for_qc (preferred_peer : Author) (qc : QuorumCert) (num_blocks : Z) : M N string (list Block) :=
  let peers := sig_authors (liws_signatures (qc_signed_ledger_info qc)) in
  retrieve_loop (S (length peers)) preferred_peer (bi_id (certified_block qc)) num_blocks peers 0.
End BlockRetrieval.

(** ** The store *)

(** [execution/executor-types/src/error.rs]. *)
Inductive ExecutorError `{Crypto} :=
| BlockNotFound (id : HashValue)
| InternalError (error : string)
| SerializationError (error : string).

(** [consensus/src/state_replication.rs]. *)
Class StateComputer `{Crypto} (C : Type) := {
  compute : C -> Block -> HashValue -> C * result ExecutorError StateComputeResult;
  sc_commit : C -> list HashValue -> LedgerInfoWithSignatures -> C * result string unit;
  sync_to : C -> LedgerInfoWithSignatures -> C * result string unit
}.

Section BlockStore.
Context `{Crypto} `{HC : !Countable HashValue, !HashSetOrder HashValue}.
Context `{!CryptoHash LedgerInfo, !CryptoHash VoteData, !CryptoHash BlockData}.
Context {C P N : Type} `{!StateComputer C, !PersistentLivenessStorage P, !NetworkSender N}.

Record BlockStore := mkBlockStore { bs_inner : BlockTree; bs_computer : C; bs_storage : P; bs_network : N }.

Definition on_tree {A} (f : BlockTree -> result string (BlockTree * A)) : M BlockStore string A := fun self =>
  match f (bs_inner self) with
  | Ok (t, a) => (mkBlockStore t (bs_computer self) (bs_storage self) (bs_network self), Ok a)
  | Err e => (self, Err e)
  | Panic => (self, Panic)
  end.
Definition on_computer {E A} (f : C -> C * result E A) : M BlockStore E A := fun self =>
  let '(c, r) := f (bs_computer self) in (mkBlockStore (bs_inner self) c (bs_storage self) (bs_network self), r).
Definition on_storage (f : P -> result string P) : M BlockStore string unit := fun self =>
  match f (bs_storage self) with
  | Ok p => (mkBlockStore (bs_inner self) (bs_computer self) p (bs_network self), Ok tt)
  | Err e => (self, Err e)
  | Panic => (self, Panic)
  end.
Definition on_network {A} (f : M N string A) : M BlockStore string A := fun self =>
  let '(n, r) := f (bs_network self) in (mkBlockStore (bs_inner self) (bs_computer self) (bs_storage self) n, r).
Definition from_tree {A} (f : BlockTree -> A) : M BlockStore string A := m_gets (fun self => f (bs_inner self)).
Definition from_tree_try {A} (f : BlockTree -> result string A) : M BlockStore string A := m_reads (fun self => f (bs_inner self)).

(** *** Blocks *)

Definition execute_block (block : Block) : M BlockStore ExecutorError ExecutedBlock :=
  let* state_compute_result := on_computer (fun c => compute c block (block_parent_id block)) in
  m_ret (mkExecutedBlock block state_compute_result).

Definition executor_message (e : ExecutorError) : string :=
  match e with
  | BlockNotFound _ => "Cannot find speculation result for block id"%string
  | InternalError error => error
  | SerializationError error => error
  end.

(** The result of a block; when the executor has lost the parent, the blocks from the root
    down to it are executed again first. *)
Definition execute_or_recover (block : Block) : M BlockStore string ExecutedBlock := fun self =>
  match execute_block block self with
  | (self, Err (BlockNotFound parent_block_id)) =>
    (let* blocks_to_reexecute := from_tree_try (fun t => bt_path_from_root t parent_block_id) in
     run* m_for_each (fun b => run* m_map_err executor_message (execute_block (eb_block b)) in m_ret tt) (default [] blocks_to_reexecute) in
     m_map_err executor_message (execute_block block)) self
  | (self, r) => (self, map_err executor_message r)
  end.

Definition execute_and_insert_block (block : Block) : M BlockStore string ExecutedBlock :=
  let* existing := from_tree (fun t => bt_get_block t (block_id block)) in
  match existing with
  | Some existing_block => m_ret existing_block
  | None =>
    let* root := from_tree_try bt_root in
    run* m_ensure (eb_round root <? block_round block) "Block with old round"%string in
    let* executed_block := execute_or_recover block in
    run* on_storage (fun p => save_tree p [eb_block executed_block] []) in
    on_tree (fun t => insert_block t executed_block)
  end.

(** *** Certificates *)

Definition insert_single_quorum_cert (qc : QuorumCert) : M BlockStore string unit :=
  let* executed_block := from_tree (fun t => bt_get_block t (bi_id (certified_block qc))) in
  match executed_block with
  | Some executed_block =>
    run* m_ensure (bool_decide (eb_block_info executed_block = certified_block qc)) "QC for block has different info than local"%string in
    run* on_storage (fun p => save_tree p [] [qc]) in
    on_tree (fun t => t ← bt_insert_quorum_cert t qc; Ok (t, tt))
  | None => m_err "Insert without having the block in store first"%string
  end.

Definition insert_timeout_certificate (tc : TimeoutCertificate) : M BlockStore string unit :=
  let* cur_tc := from_tree bt_highest_timeout_cert in
  let cur_tc_round := match cur_tc with Some tc => tc_round tc | None => 0 end in
  if tc_round tc <=? cur_tc_round then m_ret tt
  else
    run* on_storage (fun p => save_highest_timeout_cert p tc) in
    on_tree (fun t => Ok (replace_timeout_cert t tc, tt)).

(** *** Commits *)

Definition bs_prune_tree (next_root_id : HashValue) : M BlockStore string (list HashValue) :=
  let* id_to_remove := from_tree_try (fun t => find_blocks_to_prune t next_root_id) in
  run* m_ignore (on_storage (fun p => pls_prune_tree p id_to_remove)) in
  run* on_tree (fun t => t ← process_pruned_blocks t next_root_id id_to_remove; Ok (t, tt)) in
  m_ret id_to_remove.

Definition bs_commit (finality_proof : LedgerInfoWithSignatures) : M BlockStore string unit :=
  let block_id_to_commit := li_consensus_block_id (liws_ledger_info finality_proof) in
  let* block_to_commit := from_tree_try (fun t => ok_or (bt_get_block t block_id_to_commit) "Committed block id not found"%string) in
  let* root := from_tree_try bt_root in
  run* m_ensure (eb_round root <? eb_round block_to_commit) "Committed block round lower than root"%string in
  let* path := from_tree_try (fun t => bt_path_from_root t block_id_to_commit) in
  let blocks_to_commit := default [] path in
  run* m_expect (on_computer (fun c => sc_commit c (map eb_id blocks_to_commit) finality_proof)) in
  run* bs_prune_tree (eb_id block_to_commit) in
  m_ret tt.

(** *** Building *)

Definition build (root : RootInfo) (root_metadata : RootMetadata) (blocks : list Block) (quorum_certs : list QuorumCert)
    (highest_timeout_cert : option TimeoutCertificate) (state_computer : C) (storage : P) (network : N) (max_pruned_blocks_in_mem : nat)
    : result string BlockStore :=
  let '(mkRootInfo root_block root_qc root_li) := root in
  _ ← assert_ (bi_version (certified_block root_qc) =? rm_version root_metadata);
  _ ← assert_ (bool_decide (bi_executed_state_id (certified_block root_qc) = accu_hash root_metadata));
  let result := state_compute_result_new (accu_hash root_metadata) (frozen_root_hashes root_metadata) (rm_num_leaves root_metadata) [] 0 None [] [] in
  tree ← block_tree_new (mkExecutedBlock root_block result) root_qc root_li max_pruned_blocks_in_mem highest_timeout_cert;
  let '(block_store, r) :=
    (run* m_for_each (fun block => run* m_expect (execute_and_insert_block block) in m_ret tt) blocks in
     m_for_each (fun qc => m_expect (E':=string) (insert_single_quorum_cert qc)) quorum_certs)
      (mkBlockStore tree state_computer storage network) in
  _ ← r; Ok block_store.

Definition block_store_new (storage : P) (initial_data : RecoveryData) (state_computer : C) (network : N) (max_pruned_blocks_in_mem : nat)
    : result string BlockStore :=
  let highest_tc := rd_highest_timeout_certificate initial_data in
  let '(root, root_metadata, blocks, quorum_certs) := rd_take initial_data in
  build root root_metadata blocks quorum_certs highest_tc state_computer storage network max_pruned_blocks_in_mem.

Definition rebuild (root : RootInfo) (root_metadata : RootMetadata) (blocks : list Block) (quorum_certs : list QuorumCert)
    : M BlockStore string unit := fun self =>
  let prev_htc := bt_highest_timeout_cert (bs_inner self) in
  match build root root_metadata blocks quorum_certs prev_htc (bs_computer self) (bs_storage self) (bs_network self)
          (max_pruned_blocks_in_mem (bs_inner self)) with
  | Ok new =>
    let to_remove := get_all_block_id (bs_inner self) in
    (run* m_ignore (on_storage (fun p => pls_prune_tree p to_remove)) in
     let* highest_commit_cert := from_tree bt_highest_commit_cert in
     let* root := from_tree_try bt_root in
     if eb_round root <? bi_round (qc_commit_info highest_commit_cert)
     then m_ignore (bs_commit (qc_signed_ledger_info highest_commit_cert))
     else m_ret tt) new
  | _ => (self, Panic)
  end.

(** *** Reading *)

Definition bs_sync_info (self : BlockStore) : SyncInfo :=
  sync_info_new (bt_highest_quorum_cert (bs_inner self)) (bt_highest_commit_cert (bs_inner self)) (bt_highest_timeout_cert (bs_inner self)).

(** ** Catching up with peers *)

Inductive NeedFetchResult := QCRoundBeforeRoot | QCAlreadyExist | QCBlockExist | NeedFetch.

Definition need_sync_for_quorum_cert (qc : QuorumCert) : M BlockStore string bool :=
  let* root := from_tree_try bt_root in
  run* m_lift (assert_ (eb_round root <? u64_max - 1)) in
  from_tree (fun t => negb (bt_block_exists t (bi_id (qc_commit_info qc)) || (bi_round (qc_commit_info qc) <=? eb_round root))).

Definition need_fetch_for_quorum_cert (qc : QuorumCert) : M BlockStore string NeedFetchResult :=
  let* root := from_tree_try bt_root in
  from_tree (fun t =>
    if bi_round (certified_block qc) <? eb_round root then QCRoundBeforeRoot
    else if bool_decide (is_Some (bt_get_quorum_cert_for_block t (bi_id (certified_block qc)))) then QCAlreadyExist
    else if bt_block_exists t (bi_id (certified_block qc)) then QCBlockExist
    else NeedFetch).

Variable gen_range : Z -> nat -> nat.

(** The first loop of [fetch_quorum_cert]; [pending] has its last block first. *)
Definition fetch_body (preferred_peer : Author) (s : QuorumCert * list Block) : M BlockStore string ((QuorumCert * list Block) + list Block) :=
  let '(retrieve_qc, pending) := s in
  let* exists_ := from_tree (fun t => bt_block_exists t (bi_id (certified_block retrieve_qc))) in
  if exists_ : bool then m_ret (inr pending)
  else
    let* blocks := on_network (retrieve_block_for_qc gen_range preferred_peer retrieve_qc 1) in
    let* block := m_lift (expect (head blocks)) in
    m_ret (inl (block_quorum_cert block, block :: pending)).

Definition fetch_quorum_cert (qc : QuorumCert) (preferred_peer : Author) : M BlockStore string unit :=
  let* pending := m_loop (fetch_body preferred_peer) (qc, []) in
  run* m_for_each (fun block =>
         run* insert_single_quorum_cert (block_quorum_cert block) in
         run* execute_and_insert_block block in
         m_ret tt) pending in
  insert_single_quorum_cert qc.

Definition bs_insert_quorum_cert (qc : QuorumCert) (preferred_peer : Author) : M BlockStore string unit :=
  let* need := need_fetch_for_quorum_cert qc in
  run* (match need with
        | NeedFetch => fetch_quorum_cert qc preferred_peer
        | QCBlockExist => insert_single_quorum_cert qc
        | _ => m_ret tt
        end) in
  let* root := from_tree_try bt_root in
  if eb_round root <? bi_round (qc_commit_info qc) then
    let finality_proof := qc_signed_ledger_info qc in
    run* bs_commit finality_proof in
    if qc_ends_epoch qc
    then on_network (fun n => (broadcast_epoch_change n (mkEpochChangeProof [finality_proof] false), Ok tt))
    else m_ret tt
  else m_ret tt.

(** This needs no tree: it is also how a validator recovers that cannot build one. *)
Definition fast_forward_sync (highest_commit_cert : QuorumCert) (preferred_peer : Author) : M (C * P * N) string RecoveryData := fun '(c, p, n) =>
  let '(n, r) := retrieve_block_for_qc gen_range preferred_peer highest_commit_cert 3 n in
  match (blocks ← r;
         last ← expect (list.last blocks);
         _ ← assert_ (bool_decide (block_id last = bi_id (qc_commit_info highest_commit_cert)));
         let quorum_certs := highest_commit_cert :: map block_quorum_cert (take 2 blocks) in
         _ ← result_fold (fun i block =>
               qc ← expect (quorum_certs !! i);
               _ ← assert_ (bool_decide (block_id block = bi_id (certified_block qc)));
               Ok (S i)) blocks 0%nat;
         save_tree p blocks quorum_certs) with
  | Ok p =>
    let '(c, r) := sync_to c (qc_signed_ledger_info highest_commit_cert) in
    match r with
    | Ok _ =>
      match start p with
      | Ok (p, data) => ((c, p, n), expect_recovery_data data)
      | Err _ | Panic => ((c, p, n), Panic)
      end
    | Err e => ((c, p, n), Err e)
    | Panic => ((c, p, n), Panic)
    end
  | Err e => ((c, p, n), Err e)
  | Panic => ((c, p, n), Panic)
  end.

Definition on_others {A} (f : M (C * P * N) string A) : M BlockStore string A := fun self =>
  let '((c, p, n), r) := f (bs_computer self, bs_storage self, bs_network self) in (mkBlockStore (bs_inner self) c p n, r).

Definition sync_to_highest_commit_cert (highest_commit_cert : QuorumCert) (preferred_peer : Author) : M BlockStore string unit :=
  let* need := need_sync_for_quorum_cert highest_commit_cert in
  if negb need then m_ret tt
  else
    let* data := on_others (fast_forward_sync highest_commit_cert preferred_peer) in
    run* rebuild (rd_root data) (rd_root_metadata data) (rd_blocks data) (rd_quorum_certs data) in
    if qc_ends_epoch highest_commit_cert
    then on_network (fun n => (notify_epoch_change n (mkEpochChangeProof [qc_signed_ledger_info highest_commit_cert] false), Ok tt))
    else m_ret tt.

Definition add_certs (sync_info : SyncInfo) (preferred_peer : Author) : M BlockStore string unit :=
  run* sync_to_highest_commit_cert (highest_commit_cert sync_info) preferred_peer in
  run* bs_insert_quorum_cert (highest_commit_cert sync_info) preferred_peer in
  run* bs_insert_quorum_cert (si_highest_quorum_cert sync_info) preferred_peer in
  match si_highest_timeout_cert sync_info with
  | Some tc => insert_timeout_certificate tc
  | None => m_ret tt
  end.
End BlockStore.
