(* ===== verification/BlockStoreProof.v ===== *)
(** * The block store is sound

    Whatever the executor, the storage and the peers return, the block store keeps its
    tree well formed, and nothing is in the tree that is not in the storage: a crash loses
    no block and no certificate.  A commit hands the executor exactly the chain from the
    last committed block. *)

From S2P Require Import Prelude U64 Crypto ValidatorVerifier LedgerInfo Accumulator AccumulatorProof ConsensusTypes.
From S2P Require Import SchemaDb BlockTree BlockTreeProof ConsensusDb LedgerStore Recovery BlockStore.

(** What the executor promises: it computes a block only on a parent whose result it has,
    and a commit leaves it with the results of the descendants of the committed block. *)
Class StateComputerLaws `{Crypto} (parent_of : HashValue -> HashValue) (C : Type) `{!StateComputer C} := {
  speculated : C -> HashValue -> Prop;
  compute_speculated : forall c b parent c' r x, compute c b parent = (c', r) -> speculated c' x ->
    speculated c x \/ x = block_id b /\ speculated c parent;
  compute_parent : forall c b parent c' res, compute c b parent = (c', Ok res) -> speculated c parent;
  commit_speculated : forall c ids li c' r x, sc_commit c ids li = (c', r) -> speculated c' x -> speculated c x;
  commit_descendants : forall c ids li c' i x, sc_commit c (ids ++ [i]) li = (c', Ok tt) -> speculated c' x -> exists n, Nat.iter n parent_of x = i
}.

Section BlockStoreProof.
Context `{Crypto} `{HC : !Countable HashValue, !HashSetOrder HashValue}.
Context `{!CryptoHash LedgerInfo, !CryptoHash VoteData, !CryptoHash BlockData}.
Context {C P N : Type} `{!StateComputer C, !PersistentLivenessStorage P, !NetworkSender N}.
Variables (round_of : HashValue -> Z) (parent_of : HashValue -> HashValue).
Hypothesis Hmono : forall x, round_of (parent_of x) <= round_of x.
Context `{!PersistentLivenessStorageLaws P, !StateComputerLaws parent_of C}.
Notation tree_ok := (tree_ok round_of parent_of).
Notation valid_block := (valid_block round_of parent_of).
Notation BlockStore := (BlockStore (C:=C) (P:=P) (N:=N)).

(** A block that consensus lets in. *)
Record good (b : Block) : Prop := { good_hashed : block_hashed b; good_valid : forall r, valid_block (mkExecutedBlock b r) }.

(** [origin] is the root that the store was built with. *)
Variable origin : HashValue.

Record store_ok (t : BlockTree) (c : Stored) (s : BlockStore) : Prop := {
  so_inner : bs_inner s = t;
  so_tree : tree_ok t;
  so_stores : stores (bs_storage s) c;
  so_blocks : forall i b, in_tree t i -> i <> origin -> bt_get_block t i = Some b -> s_blocks c !! i = Some (eb_block b);
  so_qcs : forall i, in_tree t i -> i <> origin -> is_Some (id_to_quorum_cert t !! i) -> is_Some (s_qcs c !! i);
  so_tc : forall tc, bt_highest_timeout_cert t = Some tc -> s_tc c = Some tc;
  so_speculated : forall x, speculated (bs_computer s) x -> is_Some (id_to_block t !! x) -> in_tree t x
}.
Definition sound (s : BlockStore) : Prop := exists t c, store_ok t c s.

Lemma sound_intro t c s : store_ok t c s -> sound s.
Proof. intros Hs. by exists t, c. Qed.

(** ** The parts of the state *)

Lemma from_tree_triple {A} t c (f : BlockTree -> A) (Q : A -> BlockStore -> Prop) R :
  (forall s, store_ok t c s -> Q (f t) s) -> triple (store_ok t c) (from_tree f) Q R.
Proof. intros Hq. apply triple_gets. intros s Hs. rewrite (so_inner _ _ _ Hs). auto. Qed.

Lemma from_tree_try_triple {A} t c (f : BlockTree -> result string A) (Q : A -> BlockStore -> Prop) (R : BlockStore -> Prop) :
  (forall s, store_ok t c s -> match f t with Ok a => Q a s | _ => R s end) -> triple (store_ok t c) (from_tree_try f) Q R.
Proof. intros Hq. apply triple_reads. intros s Hs. rewrite (so_inner _ _ _ Hs). by apply Hq. Qed.

Lemma on_storage_triple t c c' f : (forall p p', stores p c -> f p = Ok p' -> stores p' c') ->
  (forall i b, s_blocks c !! i = Some b -> in_tree t i -> i <> origin -> is_Some (id_to_block t !! i) -> s_blocks c' !! i = Some b) ->
  (forall i, is_Some (s_qcs c !! i) -> in_tree t i -> is_Some (s_qcs c' !! i)) -> (forall tc, bt_highest_timeout_cert t = Some tc -> s_tc c = Some tc -> s_tc c' = Some tc) ->
  triple (store_ok t c) (on_storage f) (fun _ => store_ok t c') (store_ok t c).
Proof.
  intros Hf Hb Hq Htc s Hs. unfold on_storage. destruct (f (bs_storage s)) as [p|e|] eqn:E; [|done..]. destruct Hs as [Hi Ht Hst Hbs Hqs Htcs Hsp].
  split; cbn; try done; [by eapply Hf| | |].
  - intros i b Hin Ho Hg. apply Hb; [by apply Hbs|done|done|]. apply fmap_Some in Hg as (lb & Hl & _). by exists lb.
  - intros i Hin Ho Hi'. apply Hq; [by apply Hqs|done].
  - intros tc Etc. apply Htc; auto.
Qed.

(** ** Executing blocks *)

Lemma execute_block_triple t c b : (is_Some (id_to_block t !! block_id b) -> in_tree t (block_id b)) ->
  triple (store_ok t c) (execute_block b)
    (fun eb s => store_ok t c s /\ eb_block eb = b /\ (is_Some (id_to_block t !! block_parent_id b) -> in_tree t (block_parent_id b))) (store_ok t c).
Proof.
  intros Hb s Hs. unfold execute_block, on_computer, m_bind. destruct (compute (bs_computer s) b (block_parent_id b)) as [c' r] eqn:E.
  assert (Hs' : store_ok t c (mkBlockStore (bs_inner s) c' (bs_storage s) (bs_network s))).
  { destruct Hs. split; cbn; try done. intros x [Hx|[-> _]]%(compute_speculated _ _ _ _ _ _ E); auto. }
  destruct r as [res|e|]; [|done..]. cbn. split_and!; [done|done|]. intros Hk. apply (so_speculated _ _ _ Hs); [|done]. by eapply compute_parent.
Qed.

Lemma links_elem t x p y b : in_tree t x -> links t x p y -> b ∈ p -> in_tree t (eb_id b) /\ bt_get_block t (eb_id b) = Some b.
Proof.
  revert x. induction p as [|z p IH]; intros x Hx Hl Hb; [by apply elem_of_nil in Hb|]. destruct Hl as (Hc & Hg & Hl).
  assert (Hz : in_tree t (eb_id z)) by (eapply rtc_r; [exact Hx|exact Hc]). apply elem_of_cons in Hb as [->|Hb]; [done|by apply (IH (eb_id z))].
Qed.

Lemma execute_or_recover_triple t c b : id_to_block t !! block_id b = None ->
  triple (store_ok t c) (execute_or_recover b)
    (fun eb s => store_ok t c s /\ eb_block eb = b /\ (is_Some (id_to_block t !! block_parent_id b) -> in_tree t (block_parent_id b))) (store_ok t c).
Proof.
  intros Hn s Hs. unfold execute_or_recover. assert (He := execute_block_triple t c b ltac:(rewrite Hn; by intros []) s Hs).
  destruct (execute_block b s) as [s1 [eb|[parent|e|e]|]]; cbn [map_err]; try done. revert s1 He.
  change (triple (store_ok t c) (let* blocks_to_reexecute := from_tree_try (fun t => bt_path_from_root t parent) in
     run* m_for_each (fun b => run* m_map_err executor_message (execute_block (eb_block b)) in m_ret tt) (default [] blocks_to_reexecute) in
     m_map_err executor_message (execute_block b))
    (fun eb s => store_ok t c s /\ eb_block eb = b /\ (is_Some (id_to_block t !! block_parent_id b) -> in_tree t (block_parent_id b))) (store_ok t c)).
  destruct (path_from_root_ok round_of parent_of t (so_tree _ _ _ Hs) parent) as (r & Er & Hr).
  eapply triple_bind; [apply (from_tree_try_triple t c _ (fun a s => a = r /\ store_ok t c s)); intros s1 H1; by rewrite Er|]. intros path. apply triple_pure. intros ->.
  eapply triple_bind; [apply (triple_for_each (store_ok t c))|].
  - intros x Hx. eapply triple_bind; [apply triple_map_err, execute_block_triple|].
    + intros _. destruct r as [p|]; [|by apply elem_of_nil in Hx]. apply (links_elem t (root_id t) p parent x) in Hx as [Hin _]; [done|constructor|done].
    + intros eb. apply triple_ret. by intros s1 [? _].
  - intros []. apply triple_map_err, execute_block_triple. by rewrite Hn; intros [].
Qed.

Lemma get_block_None t i : bt_get_block t i = None <-> id_to_block t !! i = None.
Proof. apply fmap_None. Qed.
Lemma get_block_Some t i : is_Some (bt_get_block t i) <-> is_Some (id_to_block t !! i).
Proof. apply fmap_is_Some. Qed.

(** A tree that has grown. *)
Record grown (t t' : BlockTree) : Prop := {
  gr_root : root_id t' = root_id t;
  gr_in : forall x, in_tree t x -> in_tree t' x;
  gr_known : forall x, is_Some (id_to_block t !! x) -> is_Some (id_to_block t' !! x);
  gr_pruned : pruned_block_ids t' = pruned_block_ids t
}.
Lemma grown_refl t : grown t t.
Proof. by split. Qed.
Lemma grown_trans t1 t2 t3 : grown t1 t2 -> grown t2 t3 -> grown t1 t3.
Proof. intros [] []. split; auto; congruence. Qed.

(** ** Inserting blocks *)

Lemma inserted_ok t c eb s t' eb' : store_ok t c s -> good (eb_block eb) -> id_to_block t !! eb_id eb = None ->
  in_tree t (eb_parent_id eb) -> s_blocks c !! eb_id eb = Some (eb_block eb) -> insert_block t eb = Ok (t', eb') ->
  store_ok t' c (mkBlockStore t' (bs_computer s) (bs_storage s) (bs_network s)) /\ grown t t' /\ is_Some (id_to_block t' !! eb_id eb).
Proof.
  intros [Hi Ht Hst Hb Hq Htc Hsp] Hg Hn Hp Hc E. assert (Hv : valid_block eb) by (destruct eb; apply (good_valid _ Hg)).
  destruct (insert_block_ok _ _ Hmono t eb Ht Hv Hp Hn) as (t1 & E1 & Hok & Hget & Hin). assert (t1 = t') as -> by congruence.
  destruct (insert_block_frame _ _ _ _ E Hn) as (Er & _ & Etc & Eq & Epr & Hgb).
  assert (Hk : forall x, is_Some (id_to_block t' !! x) <-> x = eb_id eb \/ is_Some (id_to_block t !! x)).
  { intros x. rewrite <- !get_block_Some, Hgb. destruct (decide (x = eb_id eb)); [split; [by left|by eexists]|naive_solver]. }
  split_and!; [|split|apply Hk; by left].
  - split; cbn; try done.
    + intros i b [Hx| ->]%Hin Ho. { rewrite Hgb. destruct (decide (i = eb_id eb)) as [->|]; [by intros [= <-]|auto]. } rewrite Hget. by intros [= <-].
    + intros i [Hx| ->]%Hin Ho; rewrite Eq; [auto|]. intros [qc Hqc]. destruct (ok_qcs _ _ t Ht _ _ Hqc) as (_ & Hk' & _). rewrite Hn in Hk'. by destruct Hk'.
    + intros tc. rewrite Etc. auto.
    + intros x Hx [->|Hx']%Hk; apply Hin; [by right|left; auto].
  - done.
  - intros x Hx. apply Hin. by left.
  - intros x Hx. apply Hk. by right.
  - done.
Qed.

Lemma execute_and_insert_block_triple t c b : good b ->
  triple (store_ok t c) (execute_and_insert_block b)
    (fun _ s => exists t' c', store_ok t' c' s /\ grown t t' /\ is_Some (id_to_block t' !! block_id b)) (fun s => exists c', store_ok t c' s).
Proof.
  intros Hg. unfold execute_and_insert_block.
  eapply triple_bind; [apply (from_tree_triple t c _ (fun a s => a = bt_get_block t (block_id b) /\ store_ok t c s)); by intros s Hs|].
  intros existing. apply triple_pure. intros ->. destruct (bt_get_block t (block_id b)) as [eb|] eqn:Eb.
  { apply triple_ret. intros s Hs. exists t, c. split_and!; [done|apply grown_refl|]. apply get_block_Some. by rewrite Eb. }
  apply get_block_None in Eb.
  eapply triple_bind; [apply (from_tree_try_triple t c _ (fun _ => store_ok t c)); intros s Hs; destruct (bt_root t); [done|by exists c..]|]. intros root.
  eapply triple_bind; [apply (triple_ensure _ _ _ (fun _ => store_ok t c)); intros s Hs; destruct (_ <? _); [done|by exists c]|]. intros [].
  eapply triple_bind; [eapply triple_conseq; [by apply (execute_or_recover_triple t c b)|done|done|intros s Hs; by exists c]|]. intros eb.
  intros s (Hs & Eeb & Hp). assert (Eid : eb_id eb = block_id b) by (unfold eb_id; by rewrite Eeb).
  assert (Hst := on_storage_triple t c (stored_tree c [eb_block eb] []) (fun p => save_tree p [eb_block eb] [])).
  assert (Hst' : triple (store_ok t c) (on_storage (fun p => save_tree p [eb_block eb] [])) (fun _ => store_ok t (stored_tree c [eb_block eb] [])) (store_ok t c)).
  { apply Hst.
    - intros p p' Hc Hsv. eapply save_tree_stores; [done| |done]. rewrite Eeb. constructor; [apply Hg|constructor].
    - intros i x Hx _ _ [lb Hk]. cbn. rewrite Eeb. unfold map_put. cbn. rewrite lookup_insert_ne; [done|]. intros <-. by rewrite Eb in Hk.
    - done.
    - done. }
  specialize (Hst' s Hs). unfold m_bind. destruct (on_storage _ s) as [s1 [u|e|]]; [|by exists c..].
  unfold on_tree. rewrite (so_inner _ _ _ Hst').
  destruct (insert_block t eb) as [[t' eb']|e|] eqn:Ei; [|by eexists..].
  assert (Hpar : in_tree t (eb_parent_id eb)).
  { unfold eb_parent_id, eb_quorum_cert. rewrite Eeb. apply Hp. unfold insert_block in Ei. rewrite (proj2 (get_block_None t (eb_id eb))) in Ei by (by rewrite Eid).
    unfold get_linkable_block, eb_parent_id, eb_quorum_cert in Ei. rewrite Eeb in Ei.
    change (block_parent_id b) with (bi_id (certified_block (block_quorum_cert b))). destruct (id_to_block t !! bi_id (certified_block (block_quorum_cert b))); [by eexists|done]. }
  exists t', (stored_tree c [eb_block eb] []). rewrite <- Eid. eapply (inserted_ok t _ eb s1 t' eb'); try done.
  - by rewrite Eeb.
  - by rewrite Eid.
  - cbn. rewrite Eid, Eeb. unfold map_put. cbn. by rewrite lookup_insert_eq.
Qed.

(** ** Certificates *)

Lemma quorum_cert_ok t c qc s t' : store_ok t c s -> in_tree t (bi_id (certified_block qc)) -> is_Some (s_qcs c !! bi_id (certified_block qc)) ->
  bt_insert_quorum_cert t qc = Ok t' -> store_ok t' c (mkBlockStore t' (bs_computer s) (bs_storage s) (bs_network s)) /\ grown t t'.
Proof.
  intros [Hi Ht Hst Hb Hq Htc Hsp] Hin Hs E. destruct (insert_quorum_cert_ok _ _ t qc Ht Hin) as (t1 & E1 & Hok & _). assert (t1 = t') as -> by congruence.
  destruct (insert_quorum_cert_frame t qc t' E) as (Eb & Er & Etc & Epr & Hqs).
  assert (Hch : forall x y, child t' x y <-> child t x y) by (intros x y; unfold child; by rewrite Eb).
  assert (Hin' : forall x, in_tree t' x <-> in_tree t x).
  { intros x. unfold in_tree. rewrite Er. split; apply rtc_subrel; intros ? ?; apply Hch. }
  assert (Hg : forall x, bt_get_block t' x = bt_get_block t x) by (intros x; unfold bt_get_block, get_linkable_block; by rewrite Eb).
  split; split; cbn; try done.
  - intros i b Hx Ho. rewrite Hg. apply Hb; [by apply Hin'|done].
  - intros i Hx Ho [->|Hi']%Hqs; [done|]. apply Hq; [by apply Hin'|done|done].
  - intros tc. rewrite Etc. auto.
  - intros x Hx Hx'. rewrite Eb in Hx'. apply Hin'. auto.
  - intros x Hx. by apply Hin'.
  - intros x. by rewrite Eb.
Qed.

Lemma insert_single_quorum_cert_triple t c qc : (is_Some (id_to_block t !! bi_id (certified_block qc)) -> in_tree t (bi_id (certified_block qc))) ->
  triple (store_ok t c) (insert_single_quorum_cert qc) (fun _ s => exists t' c', store_ok t' c' s /\ grown t t') (fun s => exists c', store_ok t c' s).
Proof.
  intros Hk. unfold insert_single_quorum_cert.
  eapply triple_bind; [apply (from_tree_triple t c _ (fun a s => a = bt_get_block t (bi_id (certified_block qc)) /\ store_ok t c s)); by intros s Hs|].
  intros existing. apply triple_pure. intros ->. destruct (bt_get_block t (bi_id (certified_block qc))) as [eb|] eqn:Eb; [|apply triple_err; by eexists].
  assert (Hin : in_tree t (bi_id (certified_block qc))) by (apply Hk, get_block_Some; by rewrite Eb).
  eapply triple_bind; [apply (triple_ensure _ _ _ (fun _ => store_ok t c)); intros s Hs; destruct (bool_decide _); [done|by exists c]|]. intros [].
  eapply triple_bind; [eapply triple_conseq; [apply (on_storage_triple t c (stored_tree c [] [qc]))|done|done|intros s Hs; by exists c]|].
  - intros p p' Hc Hsv. eapply save_tree_stores; [done|constructor|done].
  - done.
  - intros i Hi _. cbn. unfold map_put. cbn. rewrite lookup_insert_is_Some'. by right.
  - done.
  - intros [] s Hs. unfold on_tree. rewrite (so_inner _ _ _ Hs). destruct (bt_insert_quorum_cert t qc) as [t'|e|] eqn:E; cbn; [|by eexists..].
    exists t', (stored_tree c [] [qc]). eapply quorum_cert_ok; [done|done| |done]. cbn. unfold map_put. cbn. by rewrite lookup_insert_eq.
Qed.

Lemma insert_timeout_certificate_triple t c tc :
  triple (store_ok t c) (insert_timeout_certificate tc) (fun _ => sound) (fun s => exists c', store_ok t c' s).
Proof.
  unfold insert_timeout_certificate. eapply triple_bind; [apply (from_tree_triple t c _ (fun _ => store_ok t c)); by intros s Hs|]. intros cur.
  destruct (_ <=? _); [apply triple_ret; intros s Hs; by eapply sound_intro|].
  eapply triple_bind with (Q := fun _ s => exists c', s_tc c' = Some tc /\ s_blocks c' = s_blocks c /\ s_qcs c' = s_qcs c /\ stores (bs_storage s) c' /\ exists p, store_ok t c (mkBlockStore (bs_inner s) (bs_computer s) p (bs_network s))).
  - intros s Hs. unfold on_storage. destruct (save_highest_timeout_cert (bs_storage s) tc) as [p|e|] eqn:E; [|by exists c..]. cbn.
    exists (mkStored (s_blocks c) (s_qcs c) (s_vote c) (Some tc)). split_and!; try done; [by eapply save_tc_stores, E; apply Hs|]. exists (bs_storage s). by destruct s.
  - intros [] s (c' & Ec & Eb & Eq & Hst & p & Hs). unfold on_tree. cbn. destruct Hs as [Hi Ht _ Hb Hq _ Hsp]. cbn in Hi, Hsp. rewrite Hi. exists (replace_timeout_cert t tc), c'. split; cbn; try done.
    + eapply tree_step_ok; [done|exact Ht|constructor].
    + intros i b. rewrite Eb. apply Hb.
    + intros i. rewrite Eq. apply Hq.
    + by intros tc' [= <-].
Qed.

(** ** Commits *)

(** A block that may be committed: in the tree, and above it the certified block of the
    highest round, as quorum certificates on forks exclude each other. *)
Definition committable (t : BlockTree) (id : HashValue) : Prop := in_tree t id /\ descends t id (highest_certified_block_id t).

Lemma pruned_ok t c next s t' p c' : store_ok t c s -> tree_ok t' ->
  bt_highest_timeout_cert t' = bt_highest_timeout_cert t -> in_tree t next -> (forall x, in_tree t' x <-> descends t next x) ->
  (forall x, in_tree t' x -> id_to_block t' !! x = id_to_block t !! x /\ id_to_quorum_cert t' !! x = id_to_quorum_cert t !! x) ->
  (forall x lb, id_to_block t' !! x = Some lb -> id_to_block t !! x = Some lb) ->
  (forall x, speculated (bs_computer s) x -> exists n, Nat.iter n parent_of x = next) ->
  stores p c' -> s_tc c' = s_tc c -> (forall x, descends t next x -> s_blocks c' !! x = s_blocks c !! x /\ s_qcs c' !! x = s_qcs c !! x) ->
  store_ok t' c' (mkBlockStore t' (bs_computer s) p (bs_network s)).
Proof.
  intros [Hi Ht Hst Hb Hq Htc Hsp] Ht' Etc Hnext Hin Hkeep Hsub Hspec Hp Ec Hc.
  assert (Hold : forall x, in_tree t' x -> in_tree t x) by (intros x Hx%Hin; exact (descends_trans t _ _ _ Hnext Hx)).
  split; cbn; try done.
  - intros i b Hx Ho Hg. destruct (Hc i) as [-> _]; [by apply Hin|]. apply Hb; [auto|done|]. unfold bt_get_block, get_linkable_block in *. by rewrite <- (proj1 (Hkeep i Hx)).
  - intros i Hx Ho Hg. destruct (Hc i) as [_ ->]; [by apply Hin|]. apply Hq; [auto|done|]. by rewrite <- (proj2 (Hkeep i Hx)).
  - intros tc. rewrite Etc, Ec. auto.
  - intros x Hx [lb Hlb%Hsub]. apply Hin. assert (Hxt : in_tree t x) by (apply Hsp; [done|by exists lb]). destruct (Hspec x Hx) as [n En].
    rewrite <- En in Hnext |- *. by apply (ancestor_descends _ _ Hmono t Ht).
Qed.

Lemma bs_prune_tree_triple t c next : committable t next ->
  triple (fun s => store_ok t c s /\ forall x, speculated (bs_computer s) x -> exists n, Nat.iter n parent_of x = next) (bs_prune_tree next)
    (fun _ s => exists t' c', store_ok t' c' s /\ root_id t' = next /\ forall x, in_tree t' x <-> descends t next x) (fun s => exists c', store_ok t c' s).
Proof.
  intros [Hin Hh] s [Hs Hspec].
  destruct (move_root_ok _ _ Hmono t next (so_tree _ _ _ Hs) Hin Hh) as (ids & t' & E1 & E2 & Ht' & Er & Etc & _ & Hids & Hidin & Hin' & Hkeep & Hsub & _).
  unfold bs_prune_tree, from_tree_try, m_reads, m_bind. rewrite (so_inner _ _ _ Hs), E1.
  assert (Hnew : exists p c', m_ignore (E':=string) (on_storage (fun p => pls_prune_tree p ids)) s = (mkBlockStore t (bs_computer s) p (bs_network s), Ok tt) /\
    store_ok t' c' (mkBlockStore t' (bs_computer s) p (bs_network s)) \/ exists r, m_ignore (E':=string) (on_storage (fun p => pls_prune_tree p ids)) s = (s, r) /\ r = Panic).
  { unfold m_ignore, on_storage. rewrite (so_inner _ _ _ Hs). destruct (pls_prune_tree (bs_storage s) ids) as [p|e|] eqn:Ep.
    - exists p, (stored_without c ids). left. split; [done|]. eapply (pruned_ok t c next s); try done.
      + by eapply prune_tree_stores, Ep; apply Hs.
      + intros x Hx. cbn. rewrite !without_lookup. rewrite !bool_decide_eq_false_2; [done|..]; intros Hx'; by apply Hids in Hx'; [|apply Hidin].
    - exists (bs_storage s), c. left. split; [by destruct s as [? ? ? ?]; rewrite <- (so_inner _ _ _ Hs)|]. eapply (pruned_ok t c next s); try done. apply Hs.
    - exists (bs_storage s), c. right. by eexists. }
  destruct Hnew as (p & c' & [[-> Hok]|(r & -> & ->)]); [|by exists c]. unfold on_tree. cbn. rewrite E2. cbn. exists t', c'. by split_and!.
Qed.

Lemma bs_prune_tree_total t c next s : committable t next -> store_ok t c s -> (forall p ids, pls_prune_tree (P:=P) p ids <> Panic) ->
  exists s' ids, bs_prune_tree next s = (s', Ok ids) /\ bs_computer s' = bs_computer s.
Proof.
  intros [Hin Hh] Hs Hp. destruct (move_root_ok _ _ Hmono t next (so_tree _ _ _ Hs) Hin Hh) as (ids & t' & E1 & E2 & _).
  unfold bs_prune_tree, from_tree_try, m_reads, m_bind, m_ignore, on_storage, on_tree. rewrite (so_inner _ _ _ Hs), E1. specialize (Hp (bs_storage s) ids).
  destruct (pls_prune_tree (bs_storage s) ids) as [p|e|]; cbn; [| |done]; rewrite ?(so_inner _ _ _ Hs), E2; cbn; by do 2 eexists.
Qed.

Lemma links_last t x p y : links t x p y -> p <> [] -> exists p', map eb_id p = p' ++ [y].
Proof.
  revert x. induction p as [|b p IH]; intros x Hl Hn; [done|]. destruct Hl as (_ & _ & Hl). destruct p as [|b' p].
  - cbn in Hl. subst y. by exists [].
  - destruct (IH _ Hl) as [p' E]; [done|]. exists (eb_id b :: p'). cbn [map] in E |- *. by rewrite E.
Qed.

(** What a commit does: the executor is given the chain from the root to the block, then
    the root moves. *)
Lemma bs_commit_run t c li s : store_ok t c s -> committable t (li_consensus_block_id (liws_ledger_info li)) ->
  li_consensus_block_id (liws_ledger_info li) <> root_id t -> exists path, links t (root_id t) path (li_consensus_block_id (liws_ledger_info li)) /\
  bs_commit li s = match sc_commit (bs_computer s) (map eb_id path) li with
    | (c', Ok _) => (run* bs_prune_tree (li_consensus_block_id (liws_ledger_info li)) in m_ret tt) (mkBlockStore t c' (bs_storage s) (bs_network s))
    | (c', _) => (mkBlockStore t c' (bs_storage s) (bs_network s), Panic)
    end /\
  forall c' u, sc_commit (bs_computer s) (map eb_id path) li = (c', Ok u) -> forall x, speculated c' x -> exists n, Nat.iter n parent_of x = li_consensus_block_id (liws_ledger_info li).
Proof.
  intros Hs [Hin Hh] Hne. set (id := li_consensus_block_id (liws_ledger_info li)) in *. pose proof (so_tree _ _ _ Hs) as Ht.
  destruct (in_tree_known _ _ t Ht id Hin) as [lb Hlb]. destruct (ok_root _ _ t Ht) as [lr Hlr].
  destruct (ok_block _ _ t Ht _ _ Hlb) as [Eid [Hr _ _]]. destruct (ok_block _ _ t Ht _ _ Hlr) as [Erid [Hrr _ _]]. unfold lb_id in Eid, Erid.
  rewrite Eid in Hr. rewrite Erid in Hrr. destruct (descends_round _ _ t Ht _ _ Hin) as [?|Hlt]; [congruence|].
  destruct (path_from_root_ok _ _ t Ht id) as (r & Er & Hpath). destruct r as [path|]; [|done]. exists path. split; [done|].
  destruct (links_last t (root_id t) path id Hpath) as [p' Ep']; [intros ->; cbn in Hpath; congruence|]. split.
  - unfold bs_commit. fold id. unfold from_tree_try, m_reads, m_bind at 1. rewrite (so_inner _ _ _ Hs). unfold bt_get_block at 1, get_linkable_block at 1. rewrite Hlb. cbn [fmap option_fmap option_map ok_or].
    unfold m_bind at 1. rewrite (so_inner _ _ _ Hs). unfold bt_root, bt_get_block, get_linkable_block. rewrite Hlr. cbn [fmap option_fmap option_map expect].
    unfold m_bind at 1, m_ensure, m_lift. rewrite <- Hr, <- Hrr, (proj2 (Z.ltb_lt _ _)) by done. cbn [ensure].
    unfold m_bind at 1. rewrite (so_inner _ _ _ Hs), Er. cbn [from_option]. unfold Datatypes.id, m_bind at 1, m_expect, on_computer. rewrite (so_inner _ _ _ Hs).
    destruct (sc_commit (bs_computer s) (map eb_id path) li) as [c' [u|e|]]; cbn [result_expect]; [|done..]. by rewrite Eid.
  - intros c' [] Ec x Hx. rewrite Ep' in Ec. by eapply commit_descendants.
Qed.

Lemma bs_commit_triple t c li : committable t (li_consensus_block_id (liws_ledger_info li)) -> li_consensus_block_id (liws_ledger_info li) <> root_id t ->
  triple (store_ok t c) (bs_commit li)
    (fun _ s => exists t' c', store_ok t' c' s /\ root_id t' = li_consensus_block_id (liws_ledger_info li) /\
      forall x, in_tree t' x <-> descends t (li_consensus_block_id (liws_ledger_info li)) x) (fun s => exists c', store_ok t c' s).
Proof.
  intros Hc Hne s Hs. destruct (bs_commit_run t c li s Hs Hc Hne) as (path & Hl & -> & Hspec). destruct (sc_commit _ _ _) as [c' r] eqn:E.
  assert (Hs' : store_ok t c (mkBlockStore t c' (bs_storage s) (bs_network s))).
  { destruct Hs. split; cbn; try done. intros x Hx. eapply commit_speculated in Hx; [|exact E]. auto. }
  destruct r as [u|e|]; [|by exists c..].
  assert (Ht : triple (fun s => store_ok t c s /\ forall x, speculated (bs_computer s) x -> exists n, Nat.iter n parent_of x = li_consensus_block_id (liws_ledger_info li))
    (run* bs_prune_tree (li_consensus_block_id (liws_ledger_info li)) in m_ret tt)
    (fun _ s => exists t' c', store_ok t' c' s /\ root_id t' = li_consensus_block_id (liws_ledger_info li) /\
      forall x, in_tree t' x <-> descends t (li_consensus_block_id (liws_ledger_info li)) x) (fun s => exists c', store_ok t c' s)).
  { eapply triple_bind; [by apply bs_prune_tree_triple|]. intros ids. by apply triple_ret. }
  apply Ht. split; [done|]. cbn. by eapply Hspec.
Qed.

(** ** Building and running *)

Lemma grown_unpruned t t' c s : store_ok t' c s -> grown t t' -> pruned_block_ids t = [] -> forall x, is_Some (id_to_block t' !! x) -> in_tree t' x.
Proof.
  intros Hs Hg Hp x Hx. destruct (ok_where _ _ t' (so_tree _ _ _ Hs) x Hx) as [?|Hi]; [done|]. rewrite (gr_pruned _ _ Hg), Hp in Hi. by apply elem_of_nil in Hi.
Qed.

Definition unpruned (s : BlockStore) : Prop := exists t c, store_ok t c s /\ pruned_block_ids t = [].

Lemma build_block_triple b : good b -> triple unpruned (run* m_expect (E':=string) (execute_and_insert_block b) in m_ret tt) (fun _ => unpruned) sound.
Proof.
  intros Hg. eapply triple_bind with (Q := fun _ => unpruned); [|intros eb; by apply triple_ret].
  apply triple_exists. intros t. apply triple_exists. intros c s [Hs Hp]. revert s Hs. apply triple_expect.
  eapply triple_conseq; [by apply (execute_and_insert_block_triple t c b)|done| |].
  - intros eb s (t' & c' & Hs & Hgr & _). exists t', c'. split; [done|]. by rewrite (gr_pruned _ _ Hgr).
  - intros s [c' Hs]. by eapply sound_intro.
Qed.

Lemma build_qc_triple qc : triple unpruned (m_expect (E':=string) (insert_single_quorum_cert qc)) (fun _ => unpruned) sound.
Proof.
  apply triple_exists. intros t. apply triple_exists. intros c s [Hs Hp].
  pose proof (grown_unpruned t t c s Hs (grown_refl t) Hp) as Hk. revert s Hs. apply triple_expect.
  eapply triple_conseq; [apply (insert_single_quorum_cert_triple t c qc); apply Hk|done| |].
  - intros [] s (t' & c' & Hs & Hgr). exists t', c'. split; [done|]. by rewrite (gr_pruned _ _ Hgr).
  - intros s [c' Hs]. by eapply sound_intro.
Qed.

(** A store built from recovered data. *)
Lemma build_ok root_block root_qc root_li metadata blocks qcs tc computer storage network max_pruned c s :
  build (mkRootInfo root_block root_qc root_li) metadata blocks qcs tc computer storage network max_pruned = Ok s ->
  (forall r, valid_block (mkExecutedBlock root_block r)) -> bi_id (certified_block root_qc) = block_id root_block -> origin = block_id root_block ->
  Forall good blocks -> stores storage c -> (forall x, tc = Some x -> s_tc c = Some x) -> sound s.
Proof.
  intros E Hr Hq Ho Hb Hst Htc. unfold build in E. res_inv. set (result := state_compute_result_new _ _ _ _ _ _ _ _) in *.
  rename x1 into t0. assert (Ht0 : tree_ok t0) by (eapply (block_tree_new_ok _ _ Hmono); [apply Hr|exact Hq|eassumption]).
  match goal with Hn : block_tree_new _ _ _ _ _ = Ok t0 |- _ => unfold block_tree_new in Hn; res_inv end. set (t0 := mkBlockTree _ _ _ _ _ _ _ _ _) in *.
  assert (Hu : unpruned (mkBlockStore t0 computer storage network)).
  { exists t0, c. split; [|done]. assert (Hin : forall i, in_tree t0 i -> i = block_id root_block).
    { intros i Hi%(in_tree_known _ _ t0 Ht0). cbn in Hi. destruct Hi as [lb [Hi _]%lookup_singleton_Some]. done. }
    split; cbn; try done.
    - intros i b Hi%Hin Hne. congruence.
    - intros i Hi%Hin Hne. congruence.
    - intros y _ [lb [<- _]%lookup_singleton_Some]. constructor. }
  assert (Htr : triple unpruned (run* m_for_each (fun block => run* m_expect (E':=string) (execute_and_insert_block block) in m_ret tt) blocks in
     m_for_each (fun qc => m_expect (E':=string) (insert_single_quorum_cert qc)) qcs) (fun _ => unpruned) sound).
  { eapply triple_bind; [apply triple_for_each|intros []; apply triple_for_each].
    - intros b Hin. apply build_block_triple. rewrite list.Forall_forall in Hb. auto.
    - intros qc _. apply build_qc_triple. }
  specialize (Htr _ Hu). destruct (m_bind _ _ _) as [s1 r]. res_inv. destruct Htr as (t1 & c1 & ? & _). by eapply sound_intro.
Qed.

(** The operations, whatever their outcome.  Certificates are for blocks of the tree, and
    the block of a commit is below the root: this is what agreement provides. *)
Inductive store_step : BlockStore -> BlockStore -> Prop :=
| step_insert_block s b : good b -> store_step s (execute_and_insert_block b s).1
| step_insert_quorum_cert s qc :
    (is_Some (id_to_block (bs_inner s) !! bi_id (certified_block qc)) -> in_tree (bs_inner s) (bi_id (certified_block qc))) ->
    store_step s (insert_single_quorum_cert qc s).1
| step_insert_timeout_certificate s tc : store_step s (insert_timeout_certificate tc s).1
| step_commit s li : committable (bs_inner s) (li_consensus_block_id (liws_ledger_info li)) ->
    li_consensus_block_id (liws_ledger_info li) <> root_id (bs_inner s) -> store_step s (bs_commit li s).1.

Lemma triple_sound {A} (m : M BlockStore string A) Pre Q R s : triple Pre m Q R -> Pre s -> (forall a s, Q a s -> sound s) -> (forall s, R s -> sound s) -> sound (m s).1.
Proof. intros Hm Hs HQ HR. specialize (Hm s Hs). destruct (m s) as [s' [a|e|]]; eauto. Qed.

Lemma store_step_sound s s' : sound s -> store_step s s' -> sound s'.
Proof.
  assert (HR : forall t s, (exists c, store_ok t c s) -> sound s) by (intros t s1 [c ?]; by exists t, c).
  intros (t & c & Hs) Hst. destruct Hst as [s b Hg|s qc Hk|s tc|s li Hc Hne]; rewrite ?(so_inner _ _ _ Hs) in *.
  - eapply triple_sound; [by apply (execute_and_insert_block_triple t c b)|done| |by apply HR]. intros _ s1 (t' & c' & ? & _). by exists t', c'.
  - eapply triple_sound; [by apply (insert_single_quorum_cert_triple t c qc)|done| |by apply HR]. intros _ s1 (t' & c' & ? & _). by exists t', c'.
  - eapply triple_sound; [by apply (insert_timeout_certificate_triple t c tc)|done|done|by apply HR].
  - eapply triple_sound; [by apply (bs_commit_triple t c li)|done| |by apply HR]. intros _ s1 (t' & c' & ? & _). by exists t', c'.
Qed.

Lemma store_reachable_sound s s' : sound s -> rtc store_step s s' -> sound s'.
Proof. intros Hs Hr. induction Hr; [done|]. eauto using store_step_sound. Qed.
End BlockStoreProof.

Section StoreTheorems.
Context `{Crypto} `{HC : !Countable HashValue, !HashSetOrder HashValue}.
Context `{!CryptoHash LedgerInfo, !CryptoHash VoteData, !CryptoHash BlockData}.
Context {C P N : Type} `{!StateComputer C, !PersistentLivenessStorage P, !NetworkSender N}.
Variables (round_of : HashValue -> Z) (parent_of : HashValue -> HashValue).
Hypothesis Hmono : forall x, round_of (parent_of x) <= round_of x.
Context `{!PersistentLivenessStorageLaws P, !StateComputerLaws parent_of C}.


End StoreTheorems.

(** ** Blocks from peers *)

Section Retrieval.
Context `{Crypto} `{!CryptoHash LedgerInfo, !CryptoHash VoteData, !CryptoHash BlockData}.
Context {N : Type} `{!NetworkSender N}.
Variable gen_range : Z -> nat -> nat.
Variable verifier : ValidatorVerifier.

(** Verified blocks, each the parent of the one before it, from the block [id] on. *)
Fixpoint chain_from (id : HashValue) (blocks : list Block) : Prop :=
  match blocks with
  | [] => True
  | b :: blocks => block_id b = id /\ validate_signature b verifier = Ok tt /\ verify_well_formed b = Ok tt /\ chain_from (block_parent_id b) blocks
  end.

Lemma verify_chain_ok blocks : forall id x, result_fold (verify_chain_step verifier) blocks id = Ok x -> chain_from id blocks.
Proof.
  induction blocks as [|b blocks IH]; intros id x E; cbn [result_fold] in E; [done|]. apply bind_Ok in E as (y & Ey & E). apply IH in E.
  unfold verify_chain_step in Ey. res_inv. repeat match goal with u : unit |- _ => destruct u end. by split_and!.
Qed.

Lemma request_block_chain req from timeout n n' response : request_block req from timeout n = (n', Ok response) -> ns_validators n = verifier ->
  brs_status response = Succeeded -> Z.of_nat (length (brs_blocks response)) = brr_num_blocks req /\ chain_from (brr_block_id req) (brs_blocks response).
Proof.
  intros E Hv Hst. unfold request_block in E. apply m_bind_Ok in E as (n1 & u & _ & E). apply m_bind_Ok in E as (n2 & r2 & _ & E).
  apply m_bind_Ok in E as (n3 & r3 & _ & E). apply m_bind_Ok in E as (n4 & r4 & E4 & E5). injection E5 as _ <-. injection E4 as _ E4.
  rewrite Hv in E4. unfold response_verify in E4. res_inv. rewrite bool_decide_eq_true_2 in * by done. cbn in *. split; [by apply Z.eqb_eq|by eapply verify_chain_ok].
Qed.

(** The network keeps its validators. *)
Hypothesis Hsend : forall n from req timeout, ns_validators (send_rpc n from req timeout).1 = ns_validators n.

Lemma request_block_validators req from timeout n : ns_validators (request_block req from timeout n).1 = ns_validators n.
Proof.
  pose proof (Hsend n from req timeout) as Hs. unfold request_block, m_ensure, m_lift, m_bind. destruct (ensure _ _); [|done..].
  destruct (send_rpc n from req timeout) as [n1 [o|e|]]; [|done..]. cbn in Hs. destruct (ok_or o _); [|done..]. by destruct (response_verify _ _ _ _).
Qed.

Lemma retrieve_loop_chain fuel : forall preferred id num_blocks peers attempt n n' blocks, ns_validators n = verifier ->
  retrieve_loop gen_range fuel preferred id num_blocks peers attempt n = (n', Ok blocks) -> Z.of_nat (length blocks) = num_blocks /\ chain_from id blocks.
Proof.
  induction fuel as [|fuel IH]; intros preferred id num_blocks peers attempt n n' blocks Hn E; cbn [retrieve_loop] in E; (destruct (is_nil peers); [done|]); [done|].
  apply m_bind_Ok in E as (n1 & picked & E1 & E). injection E1 as <- _. apply m_bind_Ok in E as (n2 & timeout & E2 & E). injection E2 as <- _.
  pose proof (request_block_chain (mkBlockRetrievalRequest id num_blocks) picked.1 timeout n) as Hc.
  pose proof (request_block_validators (mkBlockRetrievalRequest id num_blocks) picked.1 timeout n) as Hv. rewrite Hn in Hv.
  destruct (request_block _ _ _ n) as [n3 [response|e|]]; [|by eapply IH|done]. destruct (bool_decide_reflect (brs_status response = Succeeded)) as [Hst|]; [|by eapply IH].
  injection E as _ <-. by apply (Hc n3 response).
Qed.

Lemma remove_peer_length peers peer : (length (remove_peer peers peer) <= length peers)%nat.
Proof.
  unfold remove_peer. destruct (list_find _ peers) as [[i p]|] eqn:E; [|lia]. apply list_find_Some in E as (Hi & _).
  rewrite length_delete by (by exists p). lia.
Qed.

(** More fuel changes nothing: the loop ends when the peers are used up. *)
Lemma retrieve_loop_fuel k fuel : forall preferred id num_blocks peers attempt n, 0 <= attempt -> (length peers <= fuel)%nat -> (attempt = 0 -> (length peers < fuel)%nat) ->
  retrieve_loop gen_range (fuel + k) preferred id num_blocks peers attempt n = retrieve_loop gen_range fuel preferred id num_blocks peers attempt n.
Proof.
  induction fuel as [|fuel IH]; intros preferred id num_blocks peers attempt n Ha Hl H0.
  - destruct peers; [|cbn in Hl; lia]. by destruct k.
  - cbn [Nat.add retrieve_loop]. destruct peers as [|p peers]; [done|]. cbn [is_nil]. set (ps := p :: peers) in *. unfold m_bind, m_lift.
    destruct (pick_peer gen_range preferred attempt ps) as [[peer rest]|e|] eqn:Ep; [|done..]. destruct (retrieval_timeout (attempt + 1)) as [timeout|e|]; [|done..]. cbn [fst snd].
    assert (Hr : (length rest <= fuel)%nat).
    { unfold pick_peer in Ep. cbn in Ep. destruct (Z.eqb_spec attempt 0) as [->|Hne]; res_inv.
      - pose proof (remove_peer_length ps peer) as Hp. specialize (H0 eq_refl). change (length ps) with (S (length peers)) in Hp. lia.
      - match goal with Hx : ps !! _ = Some _ |- _ => pose proof (length_delete ps _ (mk_is_Some _ _ Hx)) as Hp end. change (length ps) with (S (length peers)) in Hp. lia. }
    destruct (request_block _ _ _ n) as [n3 [response|e|]]; [|apply IH; lia|done]. destruct (bool_decide _); [done|]. apply IH; lia.
Qed.

(** C25: Blocks come from peers verified: what the retrieval of [num_blocks] blocks for a
    certificate returns is so many blocks with valid signatures and certificates, the
    first of them the certified block and each the child of the next one; and it ends, as
    more rounds than one more than the signers of the certificate change nothing. *)
Theorem retrieved_chain preferred qc num_blocks n k : ns_validators n = verifier ->
  retrieve_loop gen_range (S (length (sig_authors (liws_signatures (qc_signed_ledger_info qc)))) + k) preferred (bi_id (certified_block qc)) num_blocks
    (sig_authors (liws_signatures (qc_signed_ledger_info qc))) 0 n = retrieve_block_for_qc gen_range preferred qc num_blocks n /\
  forall n' blocks, retrieve_block_for_qc gen_range preferred qc num_blocks n = (n', Ok blocks) ->
    Z.of_nat (length blocks) = num_blocks /\ chain_from (bi_id (certified_block qc)) blocks.
Proof.
  intros Hn. split; [apply retrieve_loop_fuel; lia|]. intros n' blocks E. by eapply retrieve_loop_chain.
Qed.
End Retrieval.
