(* ===== verification/SecureStorage.v ===== *)
(** * Secure storage

    [secure/storage/src]: the key-value interface behind which validators keep their
    keys and their consensus state, its in-memory and namespaced implementations,
    and key management on top of it.  [KVStorage] is the trait; [KVStorageLaws] is
    what a backend promises, including when an operation fails. *)

From S2P Require Import Prelude U64 Crypto.

Section Values.
Context `{Crypto}.

(** [value.rs]; a transaction is kept serialized. *)
Inductive Value : Type :=
| VEd25519PrivateKey (k : PrivateKey)
| VEd25519PublicKey (k : PublicKey)
| VHashValue (h : HashValue)
| VString (s : list Ascii.ascii)
| VTransaction (t : Bytes)
| VU64 (n : Z)
| VBytes (b : Bytes).

(** [error.rs]. *)
Inductive SError : Type :=
| EntropyError (s : string)
| SInternalError (s : string)
| KeyAlreadyExists (s : string)
| KeyNotSet (s : string)
| PermissionDenied
| SSerializationError (s : string)
| UnexpectedValueType
| KeyVersionNotFound (version : PublicKey).

Record GetResponse := mkGetResponse { gr_last_update : Z; gr_value : Value }.

Definition value_ed25519_private_key (v : Value) : result SError PrivateKey :=
  match v with VEd25519PrivateKey k => Ok k | _ => Err UnexpectedValueType end.
Definition value_ed25519_public_key (v : Value) : result SError PublicKey :=
  match v with VEd25519PublicKey k => Ok k | _ => Err UnexpectedValueType end.
Definition value_hash_value (v : Value) : result SError HashValue :=
  match v with VHashValue h => Ok h | _ => Err UnexpectedValueType end.
Definition value_string (v : Value) : result SError (list Ascii.ascii) :=
  match v with VString s => Ok s | _ => Err UnexpectedValueType end.
Definition value_u64 (v : Value) : result SError Z :=
  match v with VU64 n => Ok n | _ => Err UnexpectedValueType end.
Definition value_transaction (v : Value) : result SError Bytes :=
  match v with VTransaction t => Ok t | _ => Err UnexpectedValueType end.
Definition value_bytes (v : Value) : result SError Bytes :=
  match v with VBytes b => Ok b | _ => Err UnexpectedValueType end.
End Values.

(** ** The interface *)

(** The trait [KVStorage].  A backend may be a remote service, so that reading it
    may fail and may advance its state. *)
Class KVStorage `{Crypto} (S : Type) := {
  kv_available : M S SError unit;
  kv_get : string -> M S SError GetResponse;
  kv_set : string -> Value -> M S SError unit
}.

(** What a backend promises: a value read is the value stored, a successful write
    changes exactly its key, and a failed write either did or did not happen. *)
Class KVStorageLaws `{Crypto} (S : Type) `{!KVStorage S} := {
  kv_contents : S -> string -> option Value;
  kv_get_contents k s : kv_contents (kv_get k s).1 = kv_contents s;
  kv_get_Ok k s r : (kv_get k s).2 = Ok r -> kv_contents s k = Some (gr_value r);
  kv_set_Ok k v s : (kv_set k v s).2 = Ok tt ->
    forall k', kv_contents (kv_set k v s).1 k' = if bool_decide (k' = k) then Some v else kv_contents s k';
  kv_set_fail k v s : (kv_set k v s).2 <> Ok tt ->
    kv_contents (kv_set k v s).1 = kv_contents s \/
    forall k', kv_contents (kv_set k v s).1 k' = if bool_decide (k' = k) then Some v else kv_contents s k'
}.

(** ** In-memory storage *)

Section InMemory.
Context `{Crypto}.

Record InMemoryStorage := mkInMemoryStorage {
  ims_data : gmap string GetResponse;
  ims_now : Z
}.

#[global] Instance in_memory_kv : KVStorage InMemoryStorage := {|
  kv_available := m_ret tt;
  kv_get k := fun s => (s, ok_or (ims_data s !! k) (KeyNotSet k));
  kv_set k v := fun s =>
    ({| ims_data := <[k := {| gr_last_update := ims_now s; gr_value := v |}]> (ims_data s);
        ims_now := ims_now s |}, Ok tt)
|}.

#[global] Program Instance in_memory_laws : KVStorageLaws InMemoryStorage := {|
  kv_contents s k := gr_value <$> ims_data s !! k
|}.
Next Obligation. done. Qed.
Next Obligation. cbn. intros k s r Hr. apply ok_or_Ok in Hr. by rewrite Hr. Qed.
Next Obligation.
  cbn. intros k v s _ k'. destruct (bool_decide_reflect (k' = k)) as [->|Hne].
  - by rewrite lookup_insert_eq.
  - by rewrite lookup_insert_ne.
Qed.
Next Obligation. cbn. intros k v s Hf. done. Qed.
End InMemory.

(** ** Namespaced storage *)

Section Namespaced.
Context `{Crypto} (S : Type) `{!KVStorage S}.

Record NamespacedStorage := mkNamespacedStorage { ns_namespace : string; ns_inner : S }.

Definition ns_name (namespace key : string) : string := (namespace ++ "/" ++ key)%string.

(** Runs an operation of the inner storage. *)
Definition ns_lift {E A} (f : string -> M S E A) : M NamespacedStorage E A := fun s =>
  let '(inner, r) := f (ns_namespace s) (ns_inner s) in
  ({| ns_namespace := ns_namespace s; ns_inner := inner |}, r).

#[global] Instance namespaced_kv : KVStorage NamespacedStorage := {|
  kv_available := ns_lift (fun _ => kv_available);
  kv_get k := ns_lift (fun ns => kv_get (ns_name ns k));
  kv_set k v := ns_lift (fun ns => kv_set (ns_name ns k) v)
|}.
End Namespaced.

Section NamespacedLaws.
Context `{Crypto} (S : Type) `{!KVStorage S} `{!KVStorageLaws S}.

Lemma ns_name_inj ns k k' : ns_name ns k = ns_name ns k' -> k = k'.
Proof. intros E. apply (inj (String.app ns)) in E. by apply (inj (String.app "/")) in E. Qed.

#[global] Program Instance namespaced_laws : KVStorageLaws (NamespacedStorage S) := {|
  kv_contents s k := kv_contents (ns_inner _ s) (ns_name (ns_namespace _ s) k)
|}.
Next Obligation.
  intros k [ns s]. cbn. unfold ns_lift. cbn. pose proof (kv_get_contents (ns_name ns k) s) as E.
  destruct (kv_get (ns_name ns k) s) as [s' r]. cbn in *. by rewrite E.
Qed.
Next Obligation.
  intros k [ns s] r. cbn. unfold ns_lift. cbn. pose proof (kv_get_Ok (ns_name ns k) s r) as E.
  destruct (kv_get (ns_name ns k) s) as [s' r']. cbn in *. done.
Qed.
Next Obligation.
  intros k v [ns s] Hok k'. cbn in *. unfold ns_lift in *. cbn in *.
  pose proof (kv_set_Ok (ns_name ns k) v s) as E.
  destruct (kv_set (ns_name ns k) v s) as [s' r]. cbn in *. rewrite (E Hok).
  destruct (bool_decide_reflect (ns_name ns k' = ns_name ns k)) as [Hk%ns_name_inj|Hk].
  - by rewrite bool_decide_eq_true_2.
  - rewrite bool_decide_eq_false_2; [done|congruence].
Qed.
Next Obligation.
  intros k v [ns s] Hf. cbn in *. unfold ns_lift in *. cbn in *.
  pose proof (kv_set_fail (ns_name ns k) v s) as E.
  destruct (kv_set (ns_name ns k) v s) as [s' r]. cbn in *. destruct (E Hf) as [E'|E'].
  - left. by rewrite E'.
  - right. intros k'. rewrite E'.
    destruct (bool_decide_reflect (ns_name ns k' = ns_name ns k)) as [Hk%ns_name_inj|Hk].
    + by rewrite bool_decide_eq_true_2.
    + rewrite bool_decide_eq_false_2; [done|congruence].
Qed.
End NamespacedLaws.

(** ** Key management: [CryptoStorage] over a [KVStorage] *)

Section CryptoStorage.
Context `{Crypto} (S : Type) `{!KVStorage S}.
Local Open Scope libra_scope.

Definition get_previous_version_name (name : string) : string := (name ++ "_previous")%string.

Definition export_private_key (name : string) : M S SError PrivateKey :=
  let* r := kv_get name in m_lift (value_ed25519_private_key (gr_value r)).

Definition export_private_key_for_version (name : string) (version : PublicKey) : M S SError PrivateKey :=
  let* current_private_key := export_private_key name in
  if bool_decide (public_key current_private_key = version) then m_ret current_private_key
  else fun s =>
    match export_private_key (get_previous_version_name name) s with
    | (s, Ok previous_private_key) =>
      (s, if bool_decide (public_key previous_private_key = version) then Ok previous_private_key
          else Err (KeyVersionNotFound version))
    | (s, Err (KeyNotSet _)) => (s, Err (KeyVersionNotFound version))
    | (s, r) => (s, r)
    end.

Definition import_private_key (name : string) (key : PrivateKey) : M S SError unit :=
  kv_set name (VEd25519PrivateKey key).

(** [create_key] and [rotate_key] take the fresh key pair from the operating
    system's entropy; here it is an argument. *)
Definition create_key (name : string) (fresh : PrivateKey) : M S SError PublicKey :=
  run* import_private_key name fresh in m_ret (public_key fresh).

Definition storage_get_public_key (name : string) : M S SError (Z * PublicKey) :=
  let* response := kv_get name in
  let* k := m_lift (value_ed25519_private_key (gr_value response)) in
  m_ret (gr_last_update response, public_key k).

Definition rotate_key (name : string) (fresh : PrivateKey) : M S SError PublicKey :=
  let* r := kv_get name in
  let* private_key := m_lift (value_ed25519_private_key (gr_value r)) in
  run* kv_set (get_previous_version_name name) (VEd25519PrivateKey private_key) in
  run* kv_set name (VEd25519PrivateKey fresh) in
  m_ret (public_key fresh).

Definition storage_sign `{!CryptoHash T} (name : string) (message : T) : M S SError Signature :=
  let* private_key := export_private_key name in
  m_ret (sign_struct private_key message).

Definition storage_sign_using_version `{!CryptoHash T} (name : string) (version : PublicKey) (message : T)
    : M S SError Signature :=
  let* private_key := export_private_key_for_version name version in
  m_ret (sign_struct private_key message).

Context `{!KVStorageLaws S}.

Lemma name_previous_ne name : get_previous_version_name name <> name.
Proof.
  unfold get_previous_version_name. induction name as [|c name IH]; [done|]. cbn. intros [= E]. auto.
Qed.

Lemma kv_get_read k s s' r : kv_get k s = (s', Ok r) ->
  kv_contents s' = kv_contents s /\ kv_contents s k = Some (gr_value r).
Proof.
  intros E. pose proof (kv_get_contents k s) as Hc. pose proof (kv_get_Ok k s r) as Ho.
  rewrite E in Hc, Ho. cbn in *. auto.
Qed.

Lemma kv_set_write k v s s' : kv_set k v s = (s', Ok tt) ->
  forall k', kv_contents s' k' = if bool_decide (k' = k) then Some v else kv_contents s k'.
Proof. intros E. pose proof (kv_set_Ok k v s) as Ho. rewrite E in Ho. cbn in Ho. auto. Qed.

Lemma export_private_key_Ok name s s' k : export_private_key name s = (s', Ok k) ->
  kv_contents s' = kv_contents s /\ kv_contents s name = Some (VEd25519PrivateKey k).
Proof.
  unfold export_private_key. intros E. apply m_bind_Ok in E as (s1 & r & Hg & Hl).
  apply kv_get_read in Hg as [Hc Hv]. cbn in Hl. injection Hl as <- Hl.
  destruct (gr_value r) eqn:Er; simplify_eq/=. by rewrite Hc, Hv.
Qed.

(** A key exported for a version is a stored key of that version. *)
Lemma export_for_version_Ok name version s s' k :
  export_private_key_for_version name version s = (s', Ok k) ->
  kv_contents s' = kv_contents s /\ public_key k = version /\
  (kv_contents s name = Some (VEd25519PrivateKey k) \/
   kv_contents s (get_previous_version_name name) = Some (VEd25519PrivateKey k)).
Proof.
  unfold export_private_key_for_version. intros E. apply m_bind_Ok in E as (s1 & k1 & H1 & E).
  apply export_private_key_Ok in H1 as [Hc1 Hv1].
  destruct (bool_decide_reflect (public_key k1 = version)) as [Hp|_].
  - injection E as <- <-. split_and!; auto.
  - destruct (export_private_key (get_previous_version_name name) s1) as [s2 [k2|e|]] eqn:E2.
    + apply export_private_key_Ok in E2 as [Hc2 Hv2].
      destruct (bool_decide_reflect (public_key k2 = version)) as [Hp|_]; simplify_eq.
      rewrite Hc2, Hc1. rewrite Hc1 in Hv2. split_and!; auto.
    + destruct e; simplify_eq.
    + simplify_eq.
Qed.

(** After a rotation the new key is the current version, the old one is kept as the previous
    version, and no other entry changes.  *)
Theorem rotate_key_Ok name fresh s s' pk : rotate_key name fresh s = (s', Ok pk) ->
  pk = public_key fresh /\ kv_contents s' name = Some (VEd25519PrivateKey fresh) /\
  kv_contents s' (get_previous_version_name name) = kv_contents s name /\
  (exists old, kv_contents s name = Some (VEd25519PrivateKey old)) /\
  forall k, k <> name -> k <> get_previous_version_name name -> kv_contents s' k = kv_contents s k.
Proof.
  unfold rotate_key. intros E. apply m_bind_Ok in E as (s1 & r & Hg & E). apply kv_get_read in Hg as [Hc Hv].
  apply m_bind_Ok in E as (s2 & old & Hl & E). cbn in Hl. injection Hl as <- Hl.
  destruct (gr_value r) eqn:Er; simplify_eq/=.
  apply m_bind_Ok in E as (s3 & [] & H3 & E). apply m_bind_Ok in E as (s4 & [] & H4 & E).
  injection E as <- <-.
  pose proof (kv_set_write _ _ _ _ H3) as C3. pose proof (kv_set_write _ _ _ _ H4) as C4.
  pose proof (name_previous_ne name).
  split_and!; [done| | |by exists old|].
  - rewrite C4. by rewrite bool_decide_eq_true_2.
  - rewrite C4, bool_decide_eq_false_2 by done. rewrite C3, bool_decide_eq_true_2 by done. congruence.
  - intros k Hk1 Hk2. rewrite C4, bool_decide_eq_false_2 by done.
    rewrite C3, bool_decide_eq_false_2 by done. by rewrite Hc.
Qed.
End CryptoStorage.
