(* ===== verification/SafetyRules.v ===== *)
(** * Safety rules

    [consensus/safety-rules/src]: the component that holds the consensus key and decides
    what a validator may sign.  [PersistentSafetyStorage] keeps its state behind the
    [KVStorage] interface; the operations of [TSafetyRules] are state transformers that
    keep the writes made before an error. *)

From S2P Require Import Prelude U64 Crypto ValidatorVerifier LedgerInfo Accumulator.
From S2P Require Import AccumulatorProof ConsensusTypes SecureStorage.

Local Open Scope libra_scope.

(** [config/global-constants]. *)
Definition CONSENSUS_KEY : string := "consensus".
Definition EXECUTION_KEY : string := "execution".
Definition OPERATOR_ACCOUNT : string := "operator_account".
Definition EPOCH : string := "epoch".
Definition LAST_VOTED_ROUND : string := "last_voted_round".
Definition PREFERRED_ROUND : string := "preferred_round".
Definition WAYPOINT : string := "waypoint".
Definition LAST_VOTE : string := "last_vote".

(** The gauges and counters of [counters.rs]. *)
Record Counters := mkCounters {
  c_last_voted_round : Z;
  c_preferred_round : Z;
  c_sign_proposal_request : Z;
  c_sign_proposal_success : Z;
  c_sign_timeout_request : Z;
  c_sign_timeout_success : Z
}.

(** [error.rs]. *)
Inductive Error : Type :=
| IncorrectEpoch (provided expected : Z)
| IncorrectLastVotedRound (provided last : Z)
| IncorrectPreferredRound (provided preferred : Z)
| InvalidAccumulatorExtension (s : string)
| InvalidEpochChangeProof (s : string)
| InternalError (s : string)
| InvalidLedgerInfo
| InvalidProposal (s : string)
| InvalidQuorumCertificate (s : string)
| NotInitialized (s : string)
| SerializationError (s : string)
| VoteProposalSignatureNotFound.

Section SafetyRules.
Context `{Crypto} {S : Type} `{!KVStorage S} `{!HexText}.
Context `{!CryptoHash LedgerInfo, !CryptoHash Ledger2WaypointConverter, !CryptoHash VoteData,
          !CryptoHash Timeout, !CryptoHash BlockData, !CryptoHash VoteProposal}.
(** The hash of the internal nodes of the transaction accumulator. *)
Context (hash_internal : HashValue -> HashValue -> HashValue) (ACCUMULATOR_PLACEHOLDER_HASH : HashValue).

(** Serialization of the last vote ([lcs]) and of account addresses. *)
Class SafetyCodec := {
  vote_to_bytes : option Vote -> result string Bytes;
  vote_from_bytes : Bytes -> result string (option Vote);
  author_to_string : Author -> list Ascii.ascii;
  author_from_str : list Ascii.ascii -> result string Author
}.
Class SafetyCodecLaws `{!SafetyCodec} : Prop := {
  vote_bytes_roundtrip v b : vote_to_bytes v = Ok b -> vote_from_bytes b = Ok v;
  author_text_roundtrip a : author_from_str (author_to_string a) = Ok a
}.
Context `{!SafetyCodec}.

(** ** [PersistentSafetyStorage] *)

Record PersistentSafetyStorage := mkPersistentSafetyStorage {
  internal_store : S;
  counters : Counters
}.

(** An error of the storage becomes an [anyhow::Error]. *)
Definition pss_kv {A} (m : M S SError A) : M PersistentSafetyStorage string A := fun s =>
  let '(st, r) := m (internal_store s) in
  ({| internal_store := st; counters := counters s |}, map_err (fun _ => "storage error"%string) r).

Definition pss_get {A} (key : string) (f : Value -> result SError A) : M PersistentSafetyStorage string A :=
  pss_kv (let* r := kv_get key in m_lift (f (gr_value r))).

Definition set_preferred_round_gauge (v : Z) : M PersistentSafetyStorage string unit :=
  m_modify (fun s => {|
    internal_store := internal_store s;
    counters := {|
      c_last_voted_round := c_last_voted_round (counters s);
      c_preferred_round := v;
      c_sign_proposal_request := c_sign_proposal_request (counters s);
      c_sign_proposal_success := c_sign_proposal_success (counters s);
      c_sign_timeout_request := c_sign_timeout_request (counters s);
      c_sign_timeout_success := c_sign_timeout_success (counters s) |} |}).

Definition pss_initialize (author : Author) (consensus_private_key execution_private_key : PrivateKey)
    (waypoint : Waypoint) : M PersistentSafetyStorage string unit :=
  run* pss_kv (import_private_key S CONSENSUS_KEY consensus_private_key) in
  run* pss_kv (import_private_key S EXECUTION_KEY execution_private_key) in
  run* pss_kv (kv_set EPOCH (VU64 1)) in
  run* pss_kv (kv_set LAST_VOTED_ROUND (VU64 0)) in
  run* pss_kv (kv_set OPERATOR_ACCOUNT (VString (author_to_string author))) in
  run* pss_kv (kv_set PREFERRED_ROUND (VU64 0)) in
  run* pss_kv (kv_set WAYPOINT (VString (waypoint_to_string waypoint))) in
  let* b := m_lift (vote_to_bytes None) in
  pss_kv (kv_set LAST_VOTE (VBytes b)).

Definition pss_author : M PersistentSafetyStorage string Author :=
  let* s := pss_get OPERATOR_ACCOUNT value_string in m_lift (author_from_str s).
Definition consensus_key_for_version (version : PublicKey) : M PersistentSafetyStorage string PrivateKey :=
  pss_kv (export_private_key_for_version S CONSENSUS_KEY version).
Definition pss_execution_public_key : M PersistentSafetyStorage string PublicKey :=
  let* r := pss_kv (storage_get_public_key S EXECUTION_KEY) in m_ret r.2.
Definition pss_epoch : M PersistentSafetyStorage string Z := pss_get EPOCH value_u64.
Definition set_epoch (epoch : Z) : M PersistentSafetyStorage string unit := pss_kv (kv_set EPOCH (VU64 epoch)).
Definition pss_last_voted_round : M PersistentSafetyStorage string Z := pss_get LAST_VOTED_ROUND value_u64.
(** Both round setters update the gauge of the preferred round. *)
Definition set_last_voted_round (last_voted_round : Z) : M PersistentSafetyStorage string unit :=
  run* pss_kv (kv_set LAST_VOTED_ROUND (VU64 last_voted_round)) in
  set_preferred_round_gauge last_voted_round.
Definition pss_preferred_round : M PersistentSafetyStorage string Z := pss_get PREFERRED_ROUND value_u64.
Definition set_preferred_round (preferred_round : Z) : M PersistentSafetyStorage string unit :=
  run* pss_kv (kv_set PREFERRED_ROUND (VU64 preferred_round)) in
  set_preferred_round_gauge preferred_round.
Definition pss_waypoint : M PersistentSafetyStorage string Waypoint :=
  let* s := pss_get WAYPOINT value_string in
  m_lift (map_err (fun _ => "Unable to parse waypoint"%string) (waypoint_from_str s)).
Definition set_waypoint (waypoint : Waypoint) : M PersistentSafetyStorage string unit :=
  pss_kv (kv_set WAYPOINT (VString (waypoint_to_string waypoint))).
Definition pss_last_vote : M PersistentSafetyStorage string (option Vote) :=
  let* b := pss_get LAST_VOTE value_bytes in m_lift (vote_from_bytes b).
Definition set_last_vote (vote : option Vote) : M PersistentSafetyStorage string unit :=
  let* b := m_lift (vote_to_bytes vote) in
  pss_kv (kv_set LAST_VOTE (VBytes b)).

(** ** [SafetyRules] *)

Record SafetyRules := mkSafetyRules {
  persistent_storage : PersistentSafetyStorage;
  execution_public_key : option PublicKey;
  validator_signer : option ValidatorSigner;
  epoch_state : option EpochState
}.

Record ConsensusState := mkConsensusState {
  cs_epoch : Z;
  cs_last_voted_round : Z;
  cs_preferred_round : Z;
  cs_waypoint : Waypoint;
  cs_in_validator_set : bool
}.

(** A storage operation inside [SafetyRules]; [anyhow::Error] becomes
    [Error::InternalError]. *)
Definition storage {A} (m : M PersistentSafetyStorage string A) : M SafetyRules Error A := fun s =>
  let '(ps, r) := m (persistent_storage s) in
  ({| persistent_storage := ps; execution_public_key := execution_public_key s;
      validator_signer := validator_signer s; epoch_state := epoch_state s |}, map_err InternalError r).

Definition set_validator_signer (v : option ValidatorSigner) : M SafetyRules Error unit :=
  m_modify (fun s => {| persistent_storage := persistent_storage s;
    execution_public_key := execution_public_key s; validator_signer := v; epoch_state := epoch_state s |}).
Definition set_epoch_state (v : option EpochState) : M SafetyRules Error unit :=
  m_modify (fun s => {| persistent_storage := persistent_storage s;
    execution_public_key := execution_public_key s; validator_signer := validator_signer s; epoch_state := v |}).

Definition safety_rules_new (ps : PersistentSafetyStorage) (verify_vote_proposal_signature : bool)
    : result string SafetyRules :=
  if verify_vote_proposal_signature then
    match pss_execution_public_key ps with
    | (ps, Ok key) => Ok {| persistent_storage := ps; execution_public_key := Some key;
                            validator_signer := None; epoch_state := None |}
    | _ => Panic
    end
  else Ok {| persistent_storage := ps; execution_public_key := None;
             validator_signer := None; epoch_state := None |}.

Definition signer : M SafetyRules Error ValidatorSigner :=
  m_reads (fun s => ok_or (validator_signer s) (NotInitialized "validator_signer")).
Definition get_epoch_state : M SafetyRules Error EpochState :=
  m_reads (fun s => ok_or (epoch_state s) (NotInitialized "epoch_state")).

(** First voting rule: the proposed block extends the certified state. *)
Definition extension_check (vote_proposal : VoteProposal) : result Error VoteData :=
  let proposed_block := vp_block vote_proposal in
  new_tree ← map_err InvalidAccumulatorExtension
    (extension_proof_verify hash_internal ACCUMULATOR_PLACEHOLDER_HASH
       (vp_accumulator_extension_proof vote_proposal)
       (bi_executed_state_id (certified_block (block_quorum_cert proposed_block))));
  Ok {| vd_proposed := gen_block_info proposed_block (root_hash new_tree) (accumulator_version new_tree)
                         (vp_next_epoch_state vote_proposal);
        vd_parent := certified_block (block_quorum_cert proposed_block) |}.

Definition construct_ledger_info (proposed_block : Block) : LedgerInfo :=
  let block2 := block_round proposed_block in
  let block1 := bi_round (certified_block (block_quorum_cert proposed_block)) in
  let block0 := bi_round (parent_block (block_quorum_cert proposed_block)) in
  let commit := (u64_add block0 1 =? block1) && (u64_add block1 1 =? block2) in
  if commit then
    {| li_commit_info := parent_block (block_quorum_cert proposed_block);
       li_consensus_data_hash := HashValue_zero |}
  else {| li_commit_info := block_info_empty; li_consensus_data_hash := HashValue_zero |}.

(** Second voting rule. *)
Definition verify_and_update_preferred_round (quorum_cert : QuorumCert) : M SafetyRules Error unit :=
  let* preferred_round := storage pss_preferred_round in
  let one_chain_round := bi_round (certified_block quorum_cert) in
  let two_chain_round := bi_round (parent_block quorum_cert) in
  if one_chain_round <? preferred_round then
    m_err (IncorrectPreferredRound one_chain_round preferred_round)
  else if preferred_round <? two_chain_round then storage (set_preferred_round two_chain_round)
  else m_ret tt.

Definition verify_author (author : option Author) : M SafetyRules Error unit :=
  let* validator_signer := signer in
  let* author := m_lift (ok_or author (InvalidProposal "No author found in the proposal")) in
  if bool_decide (signer_author validator_signer <> author)
  then m_err (InvalidProposal "Proposal author is not validator signer!") else m_ret tt.

Definition verify_epoch (epoch : Z) : M SafetyRules Error unit :=
  let* expected_epoch := storage pss_epoch in
  if epoch =? expected_epoch then m_ret tt else m_err (IncorrectEpoch epoch expected_epoch).

Definition verify_last_vote_round (proposed_block : BlockData) : M SafetyRules Error unit :=
  let* last_voted_round := storage pss_last_voted_round in
  if last_voted_round <? bd_round proposed_block then m_ret tt
  else m_err (IncorrectLastVotedRound (bd_round proposed_block) last_voted_round).

Definition verify_qc (qc : QuorumCert) : M SafetyRules Error unit :=
  let* es := get_epoch_state in
  m_lift (map_err InvalidQuorumCertificate (quorum_cert_verify qc (es_verifier es))).

(** ** [TSafetyRules] *)

Definition consensus_state : M SafetyRules Error ConsensusState :=
  let* epoch := storage pss_epoch in
  let* last_voted_round := storage pss_last_voted_round in
  let* preferred_round := storage pss_preferred_round in
  let* waypoint := storage pss_waypoint in
  let* in_validator_set := m_gets (fun s => match validator_signer s with Some _ => true | None => false end) in
  m_ret {| cs_epoch := epoch; cs_last_voted_round := last_voted_round;
           cs_preferred_round := preferred_round; cs_waypoint := waypoint;
           cs_in_validator_set := in_validator_set |}.

(** Brings the signing key in line with the key of the validator set. *)
Definition reconcile_key (es : EpochState) (author : Author) : M SafetyRules Error unit :=
  match get_public_key (es_verifier es) author with
  | Some expected_key =>
    let* curr_key := m_gets (fun s => signer_public_key <$> validator_signer s) in
    if bool_decide (curr_key <> Some expected_key) then
      fun s =>
        match storage (consensus_key_for_version expected_key) s with
        | (s, Ok consensus_key) =>
          set_validator_signer (Some {| signer_author := author; signer_private_key := consensus_key |}) s
        | (s, _) => (run* set_validator_signer None in m_err (InternalError "Validator key not found")) s
        end
    else m_ret tt
  | None => set_validator_signer None
  end.

(** The new epoch starts with fresh round information; the epoch is written last. *)
Definition start_epoch (ledger_info : LedgerInfo) (es : EpochState) : M SafetyRules Error unit :=
  let* waypoint := m_lift (map_err InternalError (waypoint_new_epoch_boundary ledger_info)) in
  run* storage (set_waypoint waypoint) in
  run* storage (set_last_voted_round 0) in
  run* storage (set_preferred_round 0) in
  run* storage (set_last_vote None) in
  storage (set_epoch (es_epoch es)).

Definition initialize (proof : EpochChangeProof) : M SafetyRules Error unit :=
  let* waypoint := storage pss_waypoint in
  let* last_li := m_lift (map_err InvalidEpochChangeProof (epoch_change_verify proof (VWaypoint waypoint))) in
  let ledger_info := liws_ledger_info last_li in
  let* es := m_lift (ok_or (li_next_epoch_state ledger_info) InvalidLedgerInfo) in
  let* author := storage pss_author in
  run* reconcile_key es author in
  let* current_epoch := storage pss_epoch in
  run* (if current_epoch <? es_epoch es then start_epoch ledger_info es else m_ret tt) in
  set_epoch_state (Some es).

(** The end of [construct_and_sign_vote], when the last vote is not repeated. *)
Definition sign_new_vote (vote_proposal : VoteProposal) : M SafetyRules Error Vote :=
  let proposed_block := vp_block vote_proposal in
  run* verify_last_vote_round (block_data proposed_block) in
  let* vote_data := m_lift (extension_check vote_proposal) in
  run* storage (set_last_voted_round (block_round proposed_block)) in
  let* validator_signer := signer in
  let vote := vote_new vote_data (signer_author validator_signer)
                (construct_ledger_info proposed_block) validator_signer in
  run* storage (set_last_vote (Some vote)) in
  run* storage (set_last_voted_round (block_round proposed_block)) in
  m_ret vote.

Definition construct_and_sign_vote (maybe_signed_vote_proposal : MaybeSignedVoteProposal)
    : M SafetyRules Error Vote :=
  run* signer in
  let vote_proposal := msvp_vote_proposal maybe_signed_vote_proposal in
  let execution_signature := msvp_signature maybe_signed_vote_proposal in
  let* execution_public_key := m_gets execution_public_key in
  run* m_lift (match execution_public_key with
               | Some public_key =>
                 sig ← ok_or execution_signature VoteProposalSignatureNotFound;
                 ensure (verify_struct_signature public_key vote_proposal sig) (InternalError "verify")
               | None => Ok tt
               end) in
  let proposed_block := vp_block vote_proposal in
  run* verify_epoch (block_epoch proposed_block) in
  run* verify_qc (block_quorum_cert proposed_block) in
  let* es := get_epoch_state in
  run* m_lift (map_err InternalError (validate_signature proposed_block (es_verifier es))) in
  run* verify_and_update_preferred_round (block_quorum_cert proposed_block) in
  let* last_vote := storage pss_last_vote in
  match last_vote with
  | Some vote =>
    if vote_round vote =? block_round proposed_block then
      run* storage (set_last_voted_round (block_round proposed_block)) in m_ret vote
    else sign_new_vote vote_proposal
  | None => sign_new_vote vote_proposal
  end.

Definition count (f : Counters -> Counters) : M SafetyRules Error unit :=
  m_modify (fun s => {|
    persistent_storage := {| internal_store := internal_store (persistent_storage s);
                             counters := f (counters (persistent_storage s)) |};
    execution_public_key := execution_public_key s; validator_signer := validator_signer s;
    epoch_state := epoch_state s |}).

Definition inc_sign_proposal_request (c : Counters) : Counters := {|
  c_last_voted_round := c_last_voted_round c; c_preferred_round := c_preferred_round c;
  c_sign_proposal_request := c_sign_proposal_request c + 1; c_sign_proposal_success := c_sign_proposal_success c;
  c_sign_timeout_request := c_sign_timeout_request c; c_sign_timeout_success := c_sign_timeout_success c |}.
Definition inc_sign_proposal_success (c : Counters) : Counters := {|
  c_last_voted_round := c_last_voted_round c; c_preferred_round := c_preferred_round c;
  c_sign_proposal_request := c_sign_proposal_request c; c_sign_proposal_success := c_sign_proposal_success c + 1;
  c_sign_timeout_request := c_sign_timeout_request c; c_sign_timeout_success := c_sign_timeout_success c |}.
Definition inc_sign_timeout_request (c : Counters) : Counters := {|
  c_last_voted_round := c_last_voted_round c; c_preferred_round := c_preferred_round c;
  c_sign_proposal_request := c_sign_proposal_request c; c_sign_proposal_success := c_sign_proposal_success c;
  c_sign_timeout_request := c_sign_timeout_request c + 1; c_sign_timeout_success := c_sign_timeout_success c |}.
Definition inc_sign_timeout_success (c : Counters) : Counters := {|
  c_last_voted_round := c_last_voted_round c; c_preferred_round := c_preferred_round c;
  c_sign_proposal_request := c_sign_proposal_request c; c_sign_proposal_success := c_sign_proposal_success c;
  c_sign_timeout_request := c_sign_timeout_request c; c_sign_timeout_success := c_sign_timeout_success c + 1 |}.

Definition sign_proposal (bd : BlockData) : M SafetyRules Error Block :=
  run* count inc_sign_proposal_request in
  run* signer in
  run* verify_author (bd_author bd) in
  run* verify_epoch (bd_epoch bd) in
  run* verify_last_vote_round bd in
  run* verify_qc (bd_quorum_cert bd) in
  run* verify_and_update_preferred_round (bd_quorum_cert bd) in
  run* count inc_sign_proposal_success in
  let* validator_signer := signer in
  m_ret (new_proposal_from_block_data bd validator_signer).

Definition sign_timeout (timeout : Timeout) : M SafetyRules Error Signature :=
  run* count inc_sign_timeout_request in
  run* signer in
  run* verify_epoch (to_epoch timeout) in
  let* preferred_round := storage pss_preferred_round in
  run* m_ensure (preferred_round <? to_round timeout)
         (IncorrectPreferredRound (to_round timeout) preferred_round) in
  let* last_voted_round := storage pss_last_voted_round in
  run* m_ensure (last_voted_round <=? to_round timeout)
         (IncorrectLastVotedRound (to_round timeout) last_voted_round) in
  run* (if last_voted_round <? to_round timeout
        then storage (set_last_voted_round (to_round timeout)) else m_ret tt) in
  let* validator_signer := signer in
  let signature := timeout_sign timeout validator_signer in
  run* count inc_sign_timeout_success in
  m_ret signature.
End SafetyRules.
