(* ===== verification/Concrete.v ===== *)
(** * A concrete instance of the interfaces

    The symbolic signature scheme of [Crypto] extended to the data the system signs,
    a serialization of votes, a text form of hash values, and a small network of four
    validators that commits blocks.  It shows that the interfaces and the assumptions of the
    theorems can be met together, and the definitions evaluate on it. *)

From Stdlib Require Import Ascii.
From stdpp Require Import countable.
From S2P Require Import Prelude U64 Text Crypto ValidatorVerifier LedgerInfo Accumulator.
From S2P Require Import AccumulatorProof ConsensusTypes SecureStorage SafetyRules.

Module Concrete.
Import Symbolic.

(** ** Serialization *)

#[export] Instance ValidatorConsensusInfo_countable : Countable ValidatorConsensusInfo.
Proof.
  refine (inj_countable' (fun v => (vci_public_key v, vci_voting_power v))
            (fun '(k, p) => mkValidatorConsensusInfo k p) _). by intros [].
Defined.
#[export] Instance ValidatorVerifier_countable : Countable ValidatorVerifier.
Proof.
  refine (inj_countable' (fun v => (address_to_validator_info v, quorum_voting_power v, total_voting_power v))
            (fun '(m, q, t) => mkValidatorVerifier m q t) _). by intros [].
Defined.
#[export] Instance EpochState_countable : Countable EpochState.
Proof.
  refine (inj_countable' (fun v => (es_epoch v, es_verifier v)) (fun '(e, v) => mkEpochState e v) _). by intros [].
Defined.

Definition enc_epoch_state (o : option EpochState) : term :=
  match o with None => GenNode 0 [] | Some es => GenLeaf (Z.pos (encode es)) end.
Definition dec_epoch_state (t : term) : option EpochState :=
  match t with GenLeaf (Z.pos p) => decode p | _ => None end.

Definition enc_block_info (b : BlockInfo) : term :=
  GenNode 1 [GenLeaf (bi_epoch b); GenLeaf (bi_round b); bi_id b; bi_executed_state_id b;
             GenLeaf (bi_version b); GenLeaf (bi_timestamp_usecs b); enc_epoch_state (bi_next_epoch_state b)].
Definition dec_block_info (t : term) : BlockInfo :=
  match t with
  | GenNode 1 [GenLeaf e; GenLeaf r; i; x; GenLeaf v; GenLeaf ts; o] => mkBlockInfo e r i x v ts (dec_epoch_state o)
  | _ => block_info_empty
  end.

Definition enc_ledger_info (l : LedgerInfo) : term :=
  GenNode 2 [enc_block_info (li_commit_info l); li_consensus_data_hash l].
Definition dec_ledger_info (t : term) : LedgerInfo :=
  match t with
  | GenNode 2 [b; h] => mkLedgerInfo (dec_block_info b) h
  | _ => mkLedgerInfo block_info_empty HashValue_zero
  end.

Definition enc_vote_data (v : VoteData) : term :=
  GenNode 3 [enc_block_info (vd_proposed v); enc_block_info (vd_parent v)].
Definition dec_vote_data (t : term) : VoteData :=
  match t with
  | GenNode 3 [p; q] => mkVoteData (dec_block_info p) (dec_block_info q)
  | _ => mkVoteData block_info_empty block_info_empty
  end.

Definition enc_signature (s : Signature) : term := GenNode 4 [GenLeaf s.1; s.2].
Definition dec_signature (t : term) : option Signature :=
  match t with GenNode 4 [GenLeaf k; m] => Some (k, m) | _ => None end.

Definition enc_vote (o : option Vote) : term :=
  match o with
  | None => GenNode 0 []
  | Some v => GenNode 5 [enc_vote_data (vote_data v); GenLeaf (vote_author v); enc_ledger_info (vote_ledger_info v);
      enc_signature (vote_signature v);
      match vote_timeout_signature v with None => GenNode 0 [] | Some s => enc_signature s end]
  end.
Definition dec_vote (t : term) : result string (option Vote) :=
  match t with
  | GenNode 0 [] => Ok None
  | GenNode 5 [d; GenLeaf a; l; s; o] =>
    sig ← ok_or (dec_signature s) "signature"%string;
    Ok (Some (mkVote (dec_vote_data d) a (dec_ledger_info l) sig (dec_signature o)))
  | _ => Err "vote"%string
  end.

Lemma dec_enc_epoch_state o : dec_epoch_state (enc_epoch_state o) = o.
Proof. destruct o as [es|]; [|done]. unfold dec_epoch_state, enc_epoch_state. apply decode_encode. Qed.
Lemma dec_enc_block_info b : dec_block_info (enc_block_info b) = b.
Proof. destruct b. unfold dec_block_info, enc_block_info. by rewrite dec_enc_epoch_state. Qed.
Lemma dec_enc_ledger_info l : dec_ledger_info (enc_ledger_info l) = l.
Proof. destruct l. unfold dec_ledger_info, enc_ledger_info. by rewrite dec_enc_block_info. Qed.
Lemma dec_enc_vote_data v : dec_vote_data (enc_vote_data v) = v.
Proof. destruct v. unfold dec_vote_data, enc_vote_data. by rewrite !dec_enc_block_info. Qed.
Lemma dec_enc_vote o : dec_vote (enc_vote o) = Ok o.
Proof.
  destruct o as [[d a l [k m] [[k' m']|]]|]; [| |done]; unfold dec_vote, enc_vote, mbind, result_bind;
    cbn [dec_signature enc_signature ok_or vote_data vote_author vote_ledger_info vote_signature
      vote_timeout_signature fst snd]; by rewrite dec_enc_vote_data, dec_enc_ledger_info.
Qed.

(** ** Hashes and signing messages *)

#[export] Instance ledger_info_hash : CryptoHash LedgerInfo := {|
  signing_message := enc_ledger_info; crypto_hash := enc_ledger_info |}.
#[export] Instance vote_data_hash : CryptoHash VoteData := {|
  signing_message := enc_vote_data; crypto_hash := enc_vote_data |}.
#[export] Instance timeout_hash : CryptoHash Timeout := {|
  signing_message t := GenNode 6 [GenLeaf (to_epoch t); GenLeaf (to_round t)];
  crypto_hash t := GenNode 6 [GenLeaf (to_epoch t); GenLeaf (to_round t)] |}.
Definition block_data_term (b : BlockData) : term :=
  GenNode 7 [GenLeaf (bd_epoch b); GenLeaf (bd_round b); GenLeaf (bd_timestamp_usecs b);
             enc_vote_data (qc_vote_data (bd_quorum_cert b));
             enc_ledger_info (qc_ledger_info (bd_quorum_cert b));
             match bd_block_type b with
             | Proposal payload author => GenNode 0 (GenLeaf author :: payload)
             | NilBlock => GenLeaf 0
             | Genesis => GenLeaf 1
             end].
#[export] Instance block_data_hash : CryptoHash BlockData := {|
  signing_message := block_data_term; crypto_hash := block_data_term |}.
#[export] Instance vote_proposal_hash : CryptoHash VoteProposal := {|
  signing_message v := GenNode 8 [block_id (vp_block v)]; crypto_hash v := GenNode 8 [block_id (vp_block v)] |}.
#[export] Instance waypoint_hash : CryptoHash Ledger2WaypointConverter := {|
  signing_message w := GenNode 9 [GenLeaf (lw_epoch w); lw_root_hash w; GenLeaf (lw_version w);
    GenLeaf (lw_timestamp_usecs w); enc_epoch_state (lw_next_epoch_state w)];
  crypto_hash w := GenNode 9 [GenLeaf (lw_epoch w); lw_root_hash w; GenLeaf (lw_version w);
    GenLeaf (lw_timestamp_usecs w); enc_epoch_state (lw_next_epoch_state w)] |}.

Definition hash_internal (l r : HashValue) : HashValue := GenNode 10 [l; r].
Definition placeholder : HashValue := GenNode 11 [].

(** ** Text *)

(** A number written in binary. *)
Fixpoint pos_bits (p : positive) : list Ascii.ascii :=
  match p with
  | 1%positive => []
  | (p~0)%positive => "0"%char :: pos_bits p
  | (p~1)%positive => "1"%char :: pos_bits p
  end.
Fixpoint bits_pos (l : list Ascii.ascii) : positive :=
  match l with
  | [] => 1%positive
  | c :: l => if bool_decide (c = "0"%char) then (bits_pos l)~0 else (bits_pos l)~1
  end.
Lemma bits_pos_bits p : bits_pos (pos_bits p) = p.
Proof. by induction p as [p IH|p IH|]; cbn; rewrite ?IH. Qed.
Lemma pos_bits_chars p : ":"%char ∉ pos_bits p.
Proof. induction p as [p IH|p IH|]; cbn; rewrite ?not_elem_of_cons; [done..|apply not_elem_of_nil]. Qed.

#[export] Instance hex_text : HexText := {|
  to_hex h := pos_bits (encode (h : term));
  from_hex l := ok_or (decode (bits_pos l)) "hex"%string
|}.
#[export] Instance hex_text_laws : HexTextLaws.
Proof.
  split; [|intros h; apply pos_bits_chars]. intros h. unfold from_hex, to_hex, hex_text.
  rewrite bits_pos_bits. by rewrite decode_encode.
Qed.

#[export] Instance safety_codec : SafetyCodec := {|
  vote_to_bytes v := Ok (enc_vote v);
  vote_from_bytes := dec_vote;
  author_to_string a := pos_bits (encode (a : Z));
  author_from_str l := ok_or (decode (bits_pos l)) "address"%string
|}.
#[export] Instance safety_codec_laws : SafetyCodecLaws.
Proof.
  split.
  - intros v b [= <-]. apply dec_enc_vote.
  - intros a. unfold author_from_str, author_to_string, safety_codec. rewrite bits_pos_bits. by rewrite decode_encode.
Qed.
End Concrete.
