(* ===== verification/SafetyRulesProof.v ===== *)
(** * The voting invariant of a validator

    What a validator that follows [SafetyRules] signs within an epoch, whatever the
    sequence of requests and whichever storage operations fail: every vote is for a
    block whose certificate verifies, no two votes of a round differ, and a vote never
    contradicts a commit voted for before. *)

From S2P Require Import Prelude U64 Crypto ValidatorVerifier LedgerInfo Accumulator.
From S2P Require Import AccumulatorProof ConsensusTypes SecureStorage SafetyRules.

Local Open Scope libra_scope.

Section Voting.
Context `{Crypto} {S : Type} `{!KVStorage S} `{!KVStorageLaws S} `{!HexText}.
Context `{!CryptoHash LedgerInfo, !CryptoHash Ledger2WaypointConverter, !CryptoHash VoteData,
          !CryptoHash Timeout, !CryptoHash BlockData, !CryptoHash VoteProposal}.
Context (hash_internal : HashValue -> HashValue -> HashValue) (ACCUMULATOR_PLACEHOLDER_HASH : HashValue).
Context `{!SafetyCodec} `{!SafetyCodecLaws}.

Notation SafetyRules := (SafetyRules (S:=S)).
Notation PersistentSafetyStorage := (PersistentSafetyStorage (S:=S)).
Notation sign_new_vote := (sign_new_vote hash_internal ACCUMULATOR_PLACEHOLDER_HASH).
Notation extension_check := (extension_check hash_internal ACCUMULATOR_PLACEHOLDER_HASH).
Notation construct_and_sign_vote := (construct_and_sign_vote hash_internal ACCUMULATOR_PLACEHOLDER_HASH).

(** The epoch and its validators, and the proposals the caller hands over. *)
Context (e : Z) (V : ValidatorVerifier) (request : VoteProposal -> Prop).

Definition contents (s : SafetyRules) : string -> option Value :=
  kv_contents (internal_store (persistent_storage s)).

(** The stored state: last voted round, preferred round and last vote of epoch [e]. *)
Record stored (lvr pref : Z) (lv : option Vote) (s : SafetyRules) : Prop := {
  stored_epoch : contents s EPOCH = Some (VU64 e);
  stored_lvr : contents s LAST_VOTED_ROUND = Some (VU64 lvr);
  stored_pref : contents s PREFERRED_ROUND = Some (VU64 pref);
  stored_lv : exists b, contents s LAST_VOTE = Some (VBytes b) /\ vote_from_bytes b = Ok lv;
  stored_es : epoch_state s = Some {| es_epoch := e; es_verifier := V |}
}.

(** ** Votes *)

Definition commit_round (v : Vote) : Z := bi_round (li_commit_info (vote_ledger_info v)).
Definition parent_round (v : Vote) : Z := bi_round (vd_parent (vote_data v)).

(** [v] is the vote for the block of [vp]. *)
Record vote_for (vp : VoteProposal) (v : Vote) : Prop := {
  vf_request : request vp;
  vf_epoch : block_epoch (vp_block vp) = e;
  vf_qc : quorum_cert_verify (block_quorum_cert (vp_block vp)) V = Ok tt;
  vf_data : extension_check vp = Ok (vote_data v);
  vf_commit : li_commit_info (vote_ledger_info v) = li_commit_info (construct_ledger_info (vp_block vp));
  vf_hash : li_consensus_data_hash (vote_ledger_info v) = crypto_hash (vote_data v)
}.
Definition good_vote (v : Vote) : Prop := exists vp, vote_for vp v.

(** Votes that respect each other: one vote per round, and a later vote extends a
    block at least as high as any commit voted for before. *)
Definition compatible (v1 v2 : Vote) : Prop :=
  (vote_round v1 = vote_round v2 -> v1 = v2) /\
  (vote_round v1 < vote_round v2 -> commit_round v1 <= parent_round v2) /\
  (vote_round v2 < vote_round v1 -> commit_round v2 <= parent_round v1).

(** The invariant: [hist] are the votes given out so far. *)
Record voting_inv (hist : list Vote) (lvr pref : Z) (lv : option Vote) : Prop := {
  vi_good v : v ∈ hist \/ lv = Some v -> good_vote v;
  vi_lvr v : v ∈ hist \/ lv = Some v -> vote_round v <= lvr;
  vi_pref v : v ∈ hist \/ lv = Some v -> commit_round v <= pref;
  vi_last v : v ∈ hist -> exists w, lv = Some w /\ (v = w \/ vote_round v < vote_round w);
  vi_compatible v w : v ∈ hist \/ lv = Some v -> w ∈ hist \/ lv = Some w -> compatible v w;
  vi_nonneg : 0 <= pref
}.

Definition Inv (hist : list Vote) (s : SafetyRules) : Prop :=
  exists lvr pref lv, stored lvr pref lv s /\ voting_inv hist lvr pref lv.

Lemma voting_inv_raise hist lvr pref lv lvr' pref' : lvr <= lvr' -> pref <= pref' ->
  voting_inv hist lvr pref lv -> voting_inv hist lvr' pref' lv.
Proof.
  intros Hl Hp [Ig Il Ip Ila Ic In]. split; try done.
  - intros v Hv. specialize (Il v Hv). lia.
  - intros v Hv. specialize (Ip v Hv). lia.
  - lia.
Qed.

Lemma voting_inv_reuse hist lvr pref v : voting_inv hist lvr pref (Some v) ->
  voting_inv hist (vote_round v) pref (Some v).
Proof.
  intros [Ig Il Ip Ila Ic In]. split; try done. intros w [Hw|[= ->]]; [|lia].
  destruct (Ila w Hw) as (? & [= <-] & [->|?]); lia.
Qed.

Lemma voting_inv_release hist lvr pref v : voting_inv hist lvr pref (Some v) ->
  voting_inv (hist ++ [v]) lvr pref (Some v).
Proof.
  intros [Ig Il Ip Ila Ic In].
  assert (Hin : forall w, w ∈ hist ++ [v] \/ Some v = Some w -> w ∈ hist \/ Some v = Some w).
  { intros w [[?|Hw%list_elem_of_singleton]%elem_of_app|?]; subst; auto. }
  split; eauto. intros w [Hw|Hw%list_elem_of_singleton]%elem_of_app; subst; eauto.
Qed.

(** A fresh vote of a round above all others. *)
Lemma voting_inv_store hist lvr pref lv v : voting_inv hist lvr pref lv -> good_vote v ->
  (forall w, w ∈ hist \/ lv = Some w -> vote_round w < vote_round v) -> vote_round v <= lvr ->
  (forall w, w ∈ hist \/ lv = Some w -> commit_round w <= parent_round v) -> commit_round v <= pref ->
  voting_inv hist lvr pref (Some v).
Proof.
  intros [Ig Il Ip Ila Ic In] Hg Hlt Hle Hc Hp.
  assert (Hcase : forall w, w ∈ hist \/ Some v = Some w -> w = v \/ w ∈ hist) by naive_solver.
  assert (Hcomp : forall w, w ∈ hist -> compatible v w).
  { intros w Hw. specialize (Hlt w (or_introl Hw)). specialize (Hc w (or_introl Hw)).
    split_and!; intros; lia || done. }
  assert (Hsym : forall x y, compatible x y -> compatible y x).
  { intros x y (A1 & A2 & A3). split_and!; auto. intros Hr. symmetry. auto. }
  split.
  - intros w [->|Hw]%Hcase; auto.
  - intros w [->|Hw]%Hcase; auto.
  - intros w [->|Hw]%Hcase; auto.
  - intros w Hw. exists v. split; [done|right]. apply Hlt. by left.
  - intros x y [->|Hx]%Hcase [->|Hy]%Hcase; auto. split_and!; done || lia.
  - done.
Qed.

(** ** Storage operations *)

Definition same_memory (s s' : SafetyRules) : Prop :=
  epoch_state s' = epoch_state s /\ validator_signer s' = validator_signer s /\
  execution_public_key s' = execution_public_key s.

Definition updated (k : string) (v : Value) (c c' : string -> option Value) : Prop :=
  forall k', c' k' = if bool_decide (k' = k) then Some v else c k'.

Lemma storage_get {A} k (f : Value -> result SError A) s s' r :
  storage (pss_get k f) s = (s', r) ->
  same_memory s s' /\ contents s' = contents s /\
  (forall a, r = Ok a -> exists v, contents s k = Some v /\ f v = Ok a).
Proof.
  unfold storage, pss_get, pss_kv, m_bind. pose proof (kv_get_contents k (internal_store (persistent_storage s))) as Hc.
  pose proof (kv_get_Ok k (internal_store (persistent_storage s))) as Ho.
  destruct (kv_get k (internal_store (persistent_storage s))) as [st [resp|err|]]; cbn in *;
    intros [= <- <-]; (split; [done|]); (split; [exact Hc|]); intros a Ha; try done.
  destruct (f (gr_value resp)) eqn:Ef; cbn in Ha; simplify_eq. exists (gr_value resp). split; [by apply Ho|done].
Qed.

Lemma storage_set k v (g : option Z) s s' r :
  storage (run* pss_kv (kv_set k v) in
           match g with Some n => set_preferred_round_gauge n | None => m_ret tt end) s = (s', r) ->
  same_memory s s' /\ (r = Ok tt -> updated k v (contents s) (contents s')) /\
  (contents s' = contents s \/ updated k v (contents s) (contents s')).
Proof.
  unfold storage, pss_kv, m_bind. pose proof (kv_set_Ok k v (internal_store (persistent_storage s))) as Ho.
  pose proof (kv_set_fail k v (internal_store (persistent_storage s))) as Hf.
  destruct (kv_set k v (internal_store (persistent_storage s))) as [st [[]|err|]]; cbn in *;
    destruct g; cbn; intros [= <- <-]; (split; [done|]); (split; [try done|]).
  all: try (intros _; exact (Ho eq_refl)). all: try (right; exact (Ho eq_refl)). all: by apply Hf.
Qed.

Lemma stored_ext lvr pref lv s s' : same_memory s s' -> contents s' = contents s ->
  stored lvr pref lv s -> stored lvr pref lv s'.
Proof. intros (He & _) Hc [A1 A2 A3 A4 A5]. split; rewrite ?Hc; try done. by rewrite He. Qed.

Lemma get_triple {A} lvr pref lv k (f : Value -> result SError A) :
  triple (stored lvr pref lv) (storage (pss_get k f))
    (fun a s => (exists v, contents s k = Some v /\ f v = Ok a) /\ stored lvr pref lv s) (stored lvr pref lv).
Proof.
  intros s Hs. destruct (storage (pss_get k f) s) as [s' r] eqn:E.
  apply storage_get in E as (Hm & Hc & Hr). destruct r as [a|err|]; [|by eapply stored_ext..].
  split; [|by eapply stored_ext]. rewrite Hc. by apply Hr.
Qed.

(** The keys are different, so a write changes one component. *)
Ltac stored_update :=
  match goal with Hu : updated _ _ _ _ |- _ =>
    split; rewrite ?Hu; try done; first
      [ rewrite bool_decide_eq_true_2 by done
      | rewrite bool_decide_eq_false_2 by done
      | idtac ]; eauto end.

Lemma stored_set_lvr lvr pref lv r s s' : same_memory s s' ->
  updated LAST_VOTED_ROUND (VU64 r) (contents s) (contents s') -> stored lvr pref lv s -> stored r pref lv s'.
Proof. intros (He & _) Hu [A1 A2 A3 A4 A5]. rewrite <- He in A5. stored_update. Qed.

Lemma stored_set_pref lvr pref lv p s s' : same_memory s s' ->
  updated PREFERRED_ROUND (VU64 p) (contents s) (contents s') -> stored lvr pref lv s -> stored lvr p lv s'.
Proof. intros (He & _) Hu [A1 A2 A3 A4 A5]. rewrite <- He in A5. stored_update. Qed.

Lemma stored_set_lv lvr pref lv v b s s' : same_memory s s' -> vote_from_bytes b = Ok v ->
  updated LAST_VOTE (VBytes b) (contents s) (contents s') -> stored lvr pref lv s -> stored lvr pref v s'.
Proof. intros (He & _) Hb Hu [A1 A2 A3 A4 A5]. rewrite <- He in A5. stored_update. Qed.

Lemma set_lvr_triple lvr pref lv r :
  triple (stored lvr pref lv) (storage (set_last_voted_round r)) (fun _ => stored r pref lv)
    (fun s => stored lvr pref lv s \/ stored r pref lv s).
Proof.
  intros s Hs. destruct (storage (set_last_voted_round r) s) as [s' res] eqn:E.
  apply (storage_set LAST_VOTED_ROUND (VU64 r) (Some r)) in E as (Hm & Ho & Hf).
  destruct res as [[]|err|]; [by eapply stored_set_lvr; eauto|..];
    destruct Hf; [left; by eapply stored_ext|right; by eapply stored_set_lvr|left; by eapply stored_ext
      |right; by eapply stored_set_lvr].
Qed.

Lemma set_pref_triple lvr pref lv p :
  triple (stored lvr pref lv) (storage (set_preferred_round p)) (fun _ => stored lvr p lv)
    (fun s => stored lvr pref lv s \/ stored lvr p lv s).
Proof.
  intros s Hs. destruct (storage (set_preferred_round p) s) as [s' res] eqn:E.
  apply (storage_set PREFERRED_ROUND (VU64 p) (Some p)) in E as (Hm & Ho & Hf).
  destruct res as [[]|err|]; [by eapply stored_set_pref; eauto|..];
    destruct Hf; [left; by eapply stored_ext|right; by eapply stored_set_pref|left; by eapply stored_ext
      |right; by eapply stored_set_pref].
Qed.

Lemma set_lv_triple lvr pref lv v :
  triple (stored lvr pref lv) (storage (set_last_vote v)) (fun _ => stored lvr pref v)
    (fun s => stored lvr pref lv s \/ stored lvr pref v s).
Proof.
  intros s Hs. destruct (vote_to_bytes v) as [b|err|] eqn:Eb;
    [|unfold storage, set_last_vote, m_bind; rewrite Eb; cbn; left; apply (stored_ext _ _ _ s); done..].
  pose proof (vote_bytes_roundtrip v b Eb) as Hb.
  destruct (storage (set_last_vote v) s) as [s' res] eqn:E.
  assert (E' : storage (run* pss_kv (kv_set LAST_VOTE (VBytes b)) in m_ret tt) s = (s', res)).
  { rewrite <- E. unfold storage, set_last_vote, m_bind. rewrite Eb. cbn.
    destruct (pss_kv _ _) as [ps [[]|?|]]; done. }
  apply (storage_set LAST_VOTE (VBytes b) None) in E' as (Hm & Ho & Hf).
  destruct res as [[]|err|]; [by eapply stored_set_lv; eauto|..];
    destruct Hf; [left; by eapply stored_ext|right; by eapply stored_set_lv|left; by eapply stored_ext
      |right; by eapply stored_set_lv].
Qed.

(** ** The checks *)

Lemma signer_triple (P : SafetyRules -> Prop) : triple P signer (fun _ => P) P.
Proof. apply triple_reads. intros s Hs. by destruct (validator_signer s). Qed.

Lemma verify_author_triple author (P : SafetyRules -> Prop) : triple P (verify_author author) (fun _ => P) P.
Proof.
  eapply triple_bind; [apply signer_triple|]. intros sg.
  eapply triple_bind; [apply (triple_lift _ _ (fun _ => P)); intros s Hs; by destruct author|].
  intros a. destruct (bool_decide _); [by apply triple_err|by apply triple_ret].
Qed.

Lemma verify_epoch_triple lvr pref lv ep :
  triple (stored lvr pref lv) (verify_epoch ep) (fun _ s => ep = e /\ stored lvr pref lv s) (stored lvr pref lv).
Proof.
  eapply triple_bind; [apply get_triple|]. intros a s [(v & Hv & Ha) Hs].
  rewrite (stored_epoch _ _ _ _ Hs) in Hv. injection Hv as <-. injection Ha as <-. by destruct (Z.eqb_spec ep e).
Qed.

Lemma get_epoch_state_triple lvr pref lv :
  triple (stored lvr pref lv) get_epoch_state (fun es s => es_verifier es = V /\ stored lvr pref lv s)
    (stored lvr pref lv).
Proof. apply triple_reads. intros s Hs. by rewrite (stored_es _ _ _ _ Hs). Qed.

Lemma verify_qc_triple lvr pref lv qc :
  triple (stored lvr pref lv) (verify_qc qc) (fun _ s => quorum_cert_verify qc V = Ok tt /\ stored lvr pref lv s)
    (stored lvr pref lv).
Proof.
  eapply triple_bind; [apply get_epoch_state_triple|]. intros es. apply triple_pure. intros ->.
  apply triple_lift. intros s Hs. by destruct (quorum_cert_verify qc V) as [[]| |].
Qed.

Lemma lvr_triple lvr pref lv :
  triple (stored lvr pref lv) (storage pss_last_voted_round) (fun a s => a = lvr /\ stored lvr pref lv s)
    (stored lvr pref lv).
Proof.
  eapply triple_conseq; [apply get_triple|done| |done]. intros a s [(v & Hv & Ha) Hs].
  rewrite (stored_lvr _ _ _ _ Hs) in Hv. injection Hv as <-. by injection Ha as <-.
Qed.

Lemma verify_last_vote_round_triple lvr pref lv bd :
  triple (stored lvr pref lv) (verify_last_vote_round bd) (fun _ s => lvr < bd_round bd /\ stored lvr pref lv s)
    (stored lvr pref lv).
Proof.
  eapply triple_bind; [apply lvr_triple|]. intros a s [-> Hs]. by destruct (Z.ltb_spec lvr (bd_round bd)).
Qed.

(** The certified block is not below the preferred round, which rises to the
    certified block's parent. *)
Lemma preferred_round_triple lvr pref lv qc :
  triple (stored lvr pref lv) (verify_and_update_preferred_round qc)
    (fun _ s => pref <= bi_round (certified_block qc) /\
                stored lvr (Z.max pref (bi_round (parent_block qc))) lv s)
    (fun s => stored lvr pref lv s \/ stored lvr (Z.max pref (bi_round (parent_block qc))) lv s).
Proof.
  eapply triple_bind.
  { eapply triple_conseq; [apply get_triple|done|done|]. intros s Hs. by left. }
  intros a s [(v & Hv & Ha) Hs]. rewrite (stored_pref _ _ _ _ Hs) in Hv. injection Hv as <-. injection Ha as <-. cbv zeta.
  destruct (Z.ltb_spec (bi_round (certified_block qc)) pref); [cbn; by left|].
  destruct (Z.ltb_spec pref (bi_round (parent_block qc))).
  - rewrite Z.max_r by lia. pose proof (set_pref_triple lvr pref lv (bi_round (parent_block qc)) s Hs) as Hp.
    by destruct (storage (set_preferred_round (bi_round (parent_block qc))) s) as [s' [[]|err|]].
  - cbn. rewrite Z.max_l by lia. done.
Qed.

Lemma last_vote_triple lvr pref lv :
  triple (stored lvr pref lv) (storage pss_last_vote) (fun a s => a = lv /\ stored lvr pref lv s)
    (stored lvr pref lv).
Proof.
  intros s Hs. pose proof (get_triple lvr pref lv LAST_VOTE value_bytes s Hs) as Hg.
  unfold storage, pss_last_vote in *. unfold m_bind at 1.
  destruct (pss_get LAST_VOTE value_bytes (persistent_storage s)) as [ps [b|err|]]; cbn in *; try done.
  destruct Hg as [(v & Hv & Hb) Hs']. destruct (stored_lv _ _ _ _ Hs') as (b' & Hb' & Hd).
  rewrite Hb' in Hv. simplify_eq/=. by rewrite Hd.
Qed.

Lemma Inv_intro hist lvr pref lv s : voting_inv hist lvr pref lv -> stored lvr pref lv s -> Inv hist s.
Proof. intros. by exists lvr, pref, lv. Qed.

Lemma Inv_triple {A} hist (m : M SafetyRules Error A) Q R :
  (forall lvr pref lv, voting_inv hist lvr pref lv -> triple (stored lvr pref lv) m Q R) ->
  triple (Inv hist) m Q R.
Proof. intros Hm s (lvr & pref & lv & Hs & Hi). by apply (Hm lvr pref lv Hi). Qed.

(** ** Signing *)

Lemma extension_check_Ok vp vd : extension_check vp = Ok vd ->
  bi_epoch (vd_proposed vd) = block_epoch (vp_block vp) /\
  bi_round (vd_proposed vd) = block_round (vp_block vp) /\
  bi_id (vd_proposed vd) = block_id (vp_block vp) /\
  vd_parent vd = certified_block (block_quorum_cert (vp_block vp)).
Proof. unfold SafetyRules.extension_check. intros E. by res_inv. Qed.

Lemma construct_ledger_info_round b :
  let ci := li_commit_info (construct_ledger_info b) in
  ci = block_info_empty \/
  (ci = parent_block (block_quorum_cert b) /\
   u64_add (bi_round ci) 1 = bi_round (certified_block (block_quorum_cert b)) /\
   u64_add (bi_round (certified_block (block_quorum_cert b))) 1 = block_round b).
Proof.
  unfold construct_ledger_info. destruct (_ && _) eqn:E; [right|by left].
  apply andb_true_iff in E as [E1%Z.eqb_eq E2%Z.eqb_eq]. done.
Qed.

Lemma sign_new_vote_triple hist lvr pref lv vp : voting_inv hist lvr pref lv ->
  request vp -> block_epoch (vp_block vp) = e ->
  quorum_cert_verify (block_quorum_cert (vp_block vp)) V = Ok tt ->
  pref <= bi_round (certified_block (block_quorum_cert (vp_block vp))) ->
  triple (stored lvr (Z.max pref (bi_round (parent_block (block_quorum_cert (vp_block vp))))) lv)
    (sign_new_vote vp) (fun v s => Inv (hist ++ [v]) s) (Inv hist).
Proof.
  intros Hi Hwf He Hqc Hpref. set (pref' := Z.max pref _).
  assert (Hi' : voting_inv hist lvr pref' lv) by (eapply voting_inv_raise; [done| |exact Hi]; lia).
  eapply triple_bind; [eapply triple_conseq; [apply verify_last_vote_round_triple|done|done|eauto using Inv_intro]|].
  intros []. apply triple_pure. intros Hlvr.
  eapply triple_bind; [apply (triple_lift _ _ (fun vd s => extension_check vp = Ok vd /\ stored lvr pref' lv s))|].
  { intros s Hs. destruct (extension_check vp); eauto using Inv_intro. }
  intros vd. apply triple_pure. intros Hvd. destruct (extension_check_Ok _ _ Hvd) as (_ & Hr & _ & Hp).
  set (r := block_round (vp_block vp)) in *. change (bd_round (block_data (vp_block vp))) with r in Hlvr.
  assert (Hi2 : voting_inv hist r pref' lv) by (eapply voting_inv_raise; [| |exact Hi']; lia).
  eapply triple_bind; [eapply triple_conseq; [apply set_lvr_triple|done|done|]|].
  { intros s [?|?]; eauto using Inv_intro. }
  intros []. eapply triple_bind; [eapply triple_conseq; [apply signer_triple|done|done|eauto using Inv_intro]|].
  intros sg. set (v := vote_new vd _ _ sg).
  assert (Hi3 : voting_inv hist r pref' (Some v)).
  { apply (voting_inv_store _ _ _ lv); [done| | | | |].
    - exists vp. by split.
    - intros w Hw. pose proof (vi_lvr _ _ _ _ Hi w Hw). change (vote_round v) with (bi_round (vd_proposed vd)). lia.
    - change (vote_round v) with (bi_round (vd_proposed vd)). lia.
    - intros w Hw. pose proof (vi_pref _ _ _ _ Hi w Hw).
      change (parent_round v) with (bi_round (vd_parent vd)). rewrite Hp. lia.
    - change (commit_round v) with (bi_round (li_commit_info (construct_ledger_info (vp_block vp)))).
      pose proof (vi_nonneg _ _ _ _ Hi). unfold pref'.
      destruct (construct_ledger_info_round (vp_block vp)) as [->|(-> & _)]; cbn; lia. }
  eapply triple_bind; [eapply triple_conseq; [apply set_lv_triple|done|done|]|].
  { intros s [?|?]; eauto using Inv_intro. }
  intros []. eapply triple_bind; [eapply triple_conseq; [apply set_lvr_triple|done|done|]|].
  { intros s [?|?]; eauto using Inv_intro. }
  intros []. apply triple_ret. intros s Hs. eapply Inv_intro; [|exact Hs]. by apply voting_inv_release.
Qed.

(** A step that keeps the stored state, in a computation that must keep the
    invariant when it fails. *)
Ltac keep_step lem :=
  eapply triple_bind; [eapply triple_conseq; [apply lem|done|done|eauto using Inv_intro]|].

Lemma vote_triple hist msvp : request (msvp_vote_proposal msvp) ->
  triple (Inv hist) (construct_and_sign_vote msvp) (fun v s => Inv (hist ++ [v]) s) (Inv hist).
Proof.
  intros Hwf. apply Inv_triple. intros lvr pref lv Hi. keep_step signer_triple. intros sg. cbv zeta.
  eapply triple_bind; [apply (triple_gets _ _ (fun _ => stored lvr pref lv)); done|]. intros epk.
  eapply triple_bind; [apply (triple_lift _ _ (fun _ => stored lvr pref lv))|].
  { intros s Hs. destruct (match epk with Some _ => _ | None => _ end); eauto using Inv_intro. }
  intros []. keep_step verify_epoch_triple. intros []. apply triple_pure. intros He.
  keep_step verify_qc_triple. intros []. apply triple_pure. intros Hqc.
  keep_step get_epoch_state_triple. intros es. apply triple_pure. intros _.
  eapply triple_bind; [apply (triple_lift _ _ (fun _ => stored lvr pref lv))|].
  { intros s Hs. destruct (map_err _ _); eauto using Inv_intro. }
  intros []. set (b := vp_block (msvp_vote_proposal msvp)) in *.
  set (pref' := Z.max pref (bi_round (parent_block (block_quorum_cert b)))).
  assert (Hi' : voting_inv hist lvr pref' lv) by (eapply voting_inv_raise; [done| |exact Hi]; lia).
  eapply triple_bind; [eapply triple_conseq; [apply preferred_round_triple|done|done|]|].
  { intros s [?|?]; eauto using Inv_intro. }
  intros []. apply triple_pure. intros Hpref. fold pref'.
  keep_step last_vote_triple. intros last_vote. apply triple_pure. intros ->.
  destruct lv as [v|]; [|by eapply sign_new_vote_triple].
  destruct (Z.eqb_spec (vote_round v) (block_round b)) as [Hr|_]; [|by eapply sign_new_vote_triple].
  rewrite <- Hr. pose proof (voting_inv_reuse _ _ _ _ Hi') as Hi2.
  eapply triple_bind; [eapply triple_conseq; [apply set_lvr_triple|done|done|]|].
  { intros s [?|?]; eauto using Inv_intro. }
  intros []. apply triple_ret. intros s Hs. eapply Inv_intro; [|exact Hs]. by apply voting_inv_release.
Qed.

Lemma count_triple lvr pref lv f R : triple (stored lvr pref lv) (count f) (fun _ => stored lvr pref lv) R.
Proof. apply triple_modify. intros s Hs. apply (stored_ext _ _ _ s); done. Qed.

Lemma proposal_triple hist bd : triple (Inv hist) (sign_proposal bd) (fun _ => Inv hist) (Inv hist).
Proof.
  apply Inv_triple. intros lvr pref lv Hi.
  eapply triple_bind; [apply count_triple|]. intros [].
  keep_step signer_triple. intros sg.
  keep_step (verify_author_triple (bd_author bd) (stored lvr pref lv)).
  intros []. keep_step verify_epoch_triple. intros []. apply triple_pure. intros He.
  keep_step verify_last_vote_round_triple. intros []. apply triple_pure. intros Hl.
  keep_step verify_qc_triple. intros []. apply triple_pure. intros Hqc.
  set (pref' := Z.max pref (bi_round (parent_block (bd_quorum_cert bd)))).
  assert (Hi' : voting_inv hist lvr pref' lv) by (eapply voting_inv_raise; [done| |exact Hi]; lia).
  eapply triple_bind; [eapply triple_conseq; [apply preferred_round_triple|done|done|]|].
  { intros s [?|?]; eauto using Inv_intro. }
  intros []. apply triple_pure. intros _. fold pref'.
  eapply triple_bind; [apply count_triple|]. intros [].
  keep_step signer_triple. intros sg'. apply triple_ret. eauto using Inv_intro.
Qed.

Lemma timeout_triple hist t : triple (Inv hist) (sign_timeout t) (fun _ => Inv hist) (Inv hist).
Proof.
  apply Inv_triple. intros lvr pref lv Hi.
  eapply triple_bind; [apply count_triple|]. intros [].
  keep_step signer_triple. intros sg. keep_step verify_epoch_triple. intros []. apply triple_pure. intros He.
  keep_step (get_triple lvr pref lv PREFERRED_ROUND value_u64). intros pr.
  eapply triple_bind; [apply (triple_ensure _ _ _ (fun _ => stored lvr pref lv))|].
  { intros s [_ Hs]. destruct (_ <? _); eauto using Inv_intro. }
  intros []. keep_step lvr_triple. intros l. apply triple_pure. intros ->.
  eapply triple_bind; [apply (triple_ensure _ _ _ (fun _ s => lvr <= to_round t /\ stored lvr pref lv s))|].
  { intros s Hs. destruct (Z.leb_spec lvr (to_round t)); eauto using Inv_intro. }
  intros []. apply triple_pure. intros Hle.
  assert (Hi' : voting_inv hist (to_round t) pref lv) by (eapply voting_inv_raise; [|done|exact Hi]; lia).
  eapply (triple_bind _ _ (fun _ => Inv hist)).
  { destruct (lvr <? to_round t); [|apply triple_ret; eauto using Inv_intro].
    eapply triple_conseq; [apply set_lvr_triple|done|eauto using Inv_intro|]. intros s [?|?]; eauto using Inv_intro. }
  intros []. eapply triple_bind; [apply signer_triple|]. intros sg'. cbv zeta.
  eapply (triple_bind _ _ (fun _ => Inv hist)); [|intros []; by apply triple_ret].
  apply Inv_triple. intros l' p' v' Hi2. eapply triple_conseq; [apply count_triple|done|eauto using Inv_intro|].
  intros s Hs. exact Hs.
Qed.

(** ** Initialization *)

Lemma storage_bind_Ok {A B} (m : M PersistentSafetyStorage string A) (k : A -> M PersistentSafetyStorage string B) s s' b :
  storage (m_bind m k) s = (s', Ok b) ->
  exists s1 a, storage m s = (s1, Ok a) /\ storage (k a) s1 = (s', Ok b).
Proof.
  unfold storage, m_bind. destruct (m (persistent_storage s)) as [ps [a|err|]]; cbn; [|done..].
  intros E. exists {| persistent_storage := ps; execution_public_key := execution_public_key s;
    validator_signer := validator_signer s; epoch_state := epoch_state s |}, a. by split.
Qed.

Lemma storage_lift {A} (r : result string A) (s s' : SafetyRules) a :
  storage (m_lift r) s = (s', Ok a) -> same_memory s s' /\ contents s' = contents s.
Proof. unfold storage. cbn. by intros [= <- _]. Qed.

(** A read with a decoder. *)
Lemma storage_get_lift {A B} k (f : Value -> result SError A) (g : A -> result string B) s s' b :
  storage (let* a := pss_get k f in m_lift (g a)) s = (s', Ok b) ->
  same_memory s s' /\ contents s' = contents s.
Proof.
  intros E. apply storage_bind_Ok in E as (s1 & a & Hg & Hl).
  apply storage_get in Hg as (Hm & Hc & _). apply storage_lift in Hl as [Hm' Hc']. split; [|congruence].
  destruct Hm as (? & ? & ?), Hm' as (? & ? & ?). split_and!; congruence.
Qed.

Lemma consensus_key_contents version s s' k :
  storage (consensus_key_for_version version) s = (s', Ok k) -> same_memory s s' /\ contents s' = contents s.
Proof.
  unfold storage, consensus_key_for_version, pss_kv.
  destruct (export_private_key_for_version S CONSENSUS_KEY version _) as [st [k'|err|]] eqn:E; cbn; [|done..].
  intros [= <- _]. pose proof (export_for_version_Ok S _ _ _ _ _ E) as [Hc _]. done.
Qed.

(** Reconciling the key only reads the storage. *)
Lemma reconcile_key_contents es author s s' :
  reconcile_key es author s = (s', Ok tt) -> contents s' = contents s.
Proof.
  unfold reconcile_key. destruct (get_public_key _ _) as [pk|]; [|by intros [= <-]].
  unfold m_bind at 1. cbn. destruct (bool_decide _); [|by intros [= <-]].
  destruct (storage (consensus_key_for_version pk) s) as [s1 [k|err|]] eqn:E; cbn; [|done..].
  intros [= <-]. by apply consensus_key_contents in E as [_ ?].
Qed.

Lemma storage_set_Ok k v g s s' :
  storage (run* pss_kv (kv_set k v) in
           match g with Some n => set_preferred_round_gauge n | None => m_ret tt end) s = (s', Ok tt) ->
  updated k v (contents s) (contents s').
Proof. intros E. apply storage_set in E as (_ & Ho & _). auto. Qed.

Lemma storage_kv_set_Ok k v s s' :
  storage (pss_kv (kv_set k v)) s = (s', Ok tt) -> updated k v (contents s) (contents s').
Proof.
  intros E. apply (storage_set_Ok k v None). rewrite <- E. unfold storage, m_bind.
  by destruct (pss_kv _ _) as [ps [[]|err|]].
Qed.

(** Starting an epoch resets the rounds and the last vote. *)
Lemma start_epoch_Ok li es s s' : start_epoch li es s = (s', Ok tt) ->
  contents s' EPOCH = Some (VU64 (es_epoch es)) /\ contents s' LAST_VOTED_ROUND = Some (VU64 0) /\
  contents s' PREFERRED_ROUND = Some (VU64 0) /\
  exists b, contents s' LAST_VOTE = Some (VBytes b) /\ vote_from_bytes b = Ok None.
Proof.
  unfold start_epoch. intros E. apply m_bind_Ok in E as (s0 & w & _ & E).
  apply m_bind_Ok in E as (s1 & [] & E1 & E). apply m_bind_Ok in E as (s2 & [] & E2 & E).
  apply m_bind_Ok in E as (s3 & [] & E3 & E). apply m_bind_Ok in E as (s4 & [] & E4 & E5).
  apply storage_kv_set_Ok in E5. apply (storage_set_Ok _ _ (Some 0)) in E2.
  apply (storage_set_Ok _ _ (Some 0)) in E3.
  apply storage_bind_Ok in E4 as (s4' & b & El & E4). apply storage_kv_set_Ok in E4.
  assert (Hb : vote_to_bytes None = Ok b).
  { unfold storage in El. cbn in El. destruct (vote_to_bytes None); cbn in El; congruence. }
  apply storage_lift in El as [_ Hc]. apply vote_bytes_roundtrip in Hb.
  assert (Hk : forall k, contents s' k = if bool_decide (k = EPOCH) then Some (VU64 (es_epoch es))
    else if bool_decide (k = LAST_VOTE) then Some (VBytes b)
    else if bool_decide (k = PREFERRED_ROUND) then Some (VU64 0)
    else if bool_decide (k = LAST_VOTED_ROUND) then Some (VU64 0) else contents s1 k).
  { intros k. by rewrite E5, E4, Hc, E3, E2. }
  rewrite !Hk. split_and!; [done..|]. by exists b.
Qed.

(** What a successful initialization leaves behind. *)
Lemma initialize_Ok proof s s' : initialize proof s = (s', Ok tt) ->
  exists es cur, epoch_state s' = Some es /\ contents s EPOCH = Some (VU64 cur) /\
  (cur < es_epoch es ->
    contents s' EPOCH = Some (VU64 (es_epoch es)) /\ contents s' LAST_VOTED_ROUND = Some (VU64 0) /\
    contents s' PREFERRED_ROUND = Some (VU64 0) /\
    exists b, contents s' LAST_VOTE = Some (VBytes b) /\ vote_from_bytes b = Ok None) /\
  (es_epoch es <= cur -> contents s' = contents s).
Proof.
  unfold initialize. intros E. apply m_bind_Ok in E as (s1 & w & E1 & E).
  apply storage_get_lift in E1 as [_ Hc1].
  apply m_bind_Ok in E as (s2 & li & E2 & E). injection E2 as <- _.
  apply m_bind_Ok in E as (s2 & es & E2 & E). injection E2 as <- _.
  apply m_bind_Ok in E as (s3 & author & E3 & E). apply storage_get_lift in E3 as [_ Hc3].
  apply m_bind_Ok in E as (s4 & [] & E4 & E). apply reconcile_key_contents in E4.
  apply m_bind_Ok in E as (s5 & cur & E5 & E). apply storage_get in E5 as (_ & Hc5 & Hr).
  destruct (Hr cur eq_refl) as (v & Hv & Hu). destruct v; try done. injection Hu as <-.
  assert (Hs : contents s4 = contents s) by congruence.
  apply m_bind_Ok in E as (s6 & [] & E6 & E). cbn in E. injection E as <-.
  exists es, n. split_and!; [done|by rewrite <- Hs| |].
  - intros Hlt. destruct (Z.ltb_spec n (es_epoch es)); [|lia]. by apply start_epoch_Ok in E6.
  - intros Hge. destruct (Z.ltb_spec n (es_epoch es)); [lia|]. injection E6 as <-. etrans; [exact Hc5|exact Hs].
Qed.

(** ** Runs within an epoch *)

(** One request.  The process may restart and initialize again in the same epoch; any
    storage operation may fail. *)
Inductive sr_step : SafetyRules -> option Vote -> SafetyRules -> Prop :=
| step_vote s s' msvp v :
    request (msvp_vote_proposal msvp) ->
    construct_and_sign_vote msvp s = (s', Ok v) -> sr_step s (Some v) s'
| step_vote_refused s s' msvp r :
    request (msvp_vote_proposal msvp) ->
    construct_and_sign_vote msvp s = (s', r) -> is_ok r = false -> sr_step s None s'
| step_proposal s bd : sr_step s None (sign_proposal bd s).1
| step_timeout s t : sr_step s None (sign_timeout t s).1
| step_restart s s0 s' proof :
    contents s0 = contents s -> initialize proof s0 = (s', Ok tt) ->
    epoch_state s' = Some {| es_epoch := e; es_verifier := V |} -> sr_step s None s'.

(** The votes handed out along a sequence of requests. *)
Inductive sr_run (s : SafetyRules) : list Vote -> SafetyRules -> Prop :=
| run_nil : sr_run s [] s
| run_step hist s1 o s2 : sr_run s hist s1 -> sr_step s1 o s2 -> sr_run s (hist ++ option_list o) s2.

(** The state when an epoch starts. *)
Definition epoch_start (s : SafetyRules) : Prop := stored 0 0 None s.

Lemma voting_inv_start : voting_inv [] 0 0 None.
Proof.
  assert (Hno : forall v : Vote, ~ (v ∈ [] \/ None = Some v)) by (intros v [?%elem_of_nil|?]; done).
  split; try (intros v Hv; exfalso; by eapply Hno).
  - intros v Hv%elem_of_nil. done.
  - intros v w Hv. exfalso. by eapply Hno.
  - lia.
Qed.

Lemma triple_fst {A} (P : SafetyRules -> Prop) (m : M SafetyRules Error A) s :
  triple P m (fun _ => P) P -> P s -> P (m s).1.
Proof. intros Hm Hs. specialize (Hm s Hs). by destruct (m s) as [s' [a|err|]]. Qed.

Lemma sr_step_Inv hist s o s' : Inv hist s -> sr_step s o s' -> Inv (hist ++ option_list o) s'.
Proof.
  intros Hi Hstep. destruct Hstep as [s s' msvp v Hwf E|s s' msvp r Hwf E Hr|s bd|s t|s s0 s' proof Hc E He];
    cbn [option_list]; rewrite ?app_nil_r.
  - pose proof (vote_triple hist msvp Hwf s Hi) as Ht. by rewrite E in Ht.
  - pose proof (vote_triple hist msvp Hwf s Hi) as Ht. rewrite E in Ht. by destruct r.
  - apply triple_fst; [apply proposal_triple|done].
  - apply triple_fst; [apply timeout_triple|done].
  - destruct Hi as (lvr & pref & lv & [A1 A2 A3 A4 A5] & Hi).
    destruct (initialize_Ok _ _ _ E) as (es & cur & Hes & Hcur & _ & Hsame). rewrite He in Hes. injection Hes as <-.
    rewrite Hc, A1 in Hcur. injection Hcur as <-. specialize (Hsame ltac:(cbn; lia)).
    eapply Inv_intro; [exact Hi|]. split; rewrite ?Hsame, ?Hc; done.
Qed.

Lemma sr_run_Inv s hist s' : epoch_start s -> sr_run s hist s' -> Inv hist s'.
Proof.
  intros Hs. induction 1 as [|hist s1 o s2 _ IH Hstep]; [by eapply Inv_intro; [apply voting_inv_start|]|].
  by eapply sr_step_Inv.
Qed.

Lemma run_votes s hist s' : epoch_start s -> sr_run s hist s' ->
  (forall v, v ∈ hist -> good_vote v) /\ (forall v w, v ∈ hist -> w ∈ hist -> compatible v w).
Proof.
  intros Hs Hrun. destruct (sr_run_Inv _ _ _ Hs Hrun) as (lvr & pref & lv & _ & [Ig _ _ _ Ic _]).
  split; intros; [apply Ig|apply Ic]; by left.
Qed.

(** ** What [SafetyRules] promises *)

(** C2: Within an epoch, over any sequence of requests, restarts and storage failures, every vote
    given out is for a requested block of the epoch whose certificate verifies; there is at most one
    vote per round; and a vote extends a block at or above every commit voted for in a lower round. *)
Theorem voting_safety s hist s' : epoch_start s -> sr_run s hist s' ->
  (forall v, v ∈ hist -> good_vote v) /\
  (forall v w, v ∈ hist -> w ∈ hist -> vote_round v = vote_round w -> v = w) /\
  (forall v w, v ∈ hist -> w ∈ hist -> vote_round v < vote_round w -> commit_round v <= parent_round w).
Proof.
  intros Hs Hrun. destruct (run_votes s hist s' Hs Hrun) as [Hg Hc]. split_and!; [done| |];
    intros v w Hv Hw; apply (Hc v w Hv Hw).
Qed.

Lemma sign_new_vote_round lvr pref lv vp :
  triple (stored lvr pref lv) (sign_new_vote vp)
    (fun v s => lvr < block_round (vp_block vp) /\ vote_round v = block_round (vp_block vp) /\
                stored (block_round (vp_block vp)) pref (Some v) s) (fun _ => True).
Proof.
  set (r := block_round (vp_block vp)).
  eapply triple_bind; [eapply triple_conseq; [apply verify_last_vote_round_triple|done..]|].
  intros []. apply triple_pure. change (bd_round (block_data (vp_block vp))) with r. intros Hlvr.
  eapply triple_bind; [apply (triple_lift _ _ (fun vd s => extension_check vp = Ok vd /\ stored lvr pref lv s))|].
  { intros s Hs. by destruct (extension_check vp). }
  intros vd. apply triple_pure. intros (_ & Hr & _)%extension_check_Ok.
  eapply triple_bind; [eapply triple_conseq; [apply set_lvr_triple|done..]|]. intros [].
  eapply triple_bind; [eapply triple_conseq; [apply (signer_triple (stored r pref lv))|done..]|]. intros sg.
  eapply triple_bind; [eapply triple_conseq; [apply set_lv_triple|done..]|]. intros [].
  eapply triple_bind; [eapply triple_conseq; [apply set_lvr_triple|done..]|]. intros [].
  apply triple_ret. intros s Hs. split_and!; [done|exact Hr|exact Hs].
Qed.

Lemma timeout_signed_triple lvr pref lv t :
  triple (stored lvr pref lv) (sign_timeout t)
    (fun _ s => to_epoch t = e /\ pref < to_round t /\ lvr <= to_round t /\ stored (to_round t) pref lv s)
    (fun _ => True).
Proof.
  eapply triple_bind; [apply count_triple|]. intros [].
  eapply triple_bind; [eapply triple_conseq; [apply (signer_triple (stored lvr pref lv))|done..]|]. intros sg.
  eapply triple_bind; [eapply triple_conseq; [apply verify_epoch_triple|done..]|]. intros [].
  apply triple_pure. intros He.
  eapply triple_bind; [eapply triple_conseq; [apply (get_triple lvr pref lv PREFERRED_ROUND value_u64)|done..]|].
  intros pr. eapply (triple_bind _ _ (fun _ s => pref < to_round t /\ stored lvr pref lv s)).
  { apply triple_ensure. intros s [(x & Hx & Hp) Hs]. rewrite (stored_pref _ _ _ _ Hs) in Hx.
    injection Hx as <-. injection Hp as <-. by destruct (Z.ltb_spec pref (to_round t)). }
  intros []. apply triple_pure. intros Hpref.
  eapply triple_bind; [eapply triple_conseq; [apply lvr_triple|done..]|]. intros l. apply triple_pure. intros ->.
  eapply (triple_bind _ _ (fun _ s => lvr <= to_round t /\ stored lvr pref lv s)).
  { apply triple_ensure. intros s Hs. by destruct (Z.leb_spec lvr (to_round t)). }
  intros []. apply triple_pure. intros Hle. eapply (triple_bind _ _ (fun _ => stored (to_round t) pref lv)).
  { destruct (Z.ltb_spec lvr (to_round t)).
    - eapply triple_conseq; [apply set_lvr_triple|done..].
    - apply triple_ret. intros s Hs. by replace (to_round t) with lvr by lia. }
  intros []. eapply triple_bind; [eapply triple_conseq; [apply (signer_triple (stored (to_round t) pref lv))|done..]|].
  intros sg'. cbv zeta. eapply triple_bind; [apply count_triple|]. intros []. by apply triple_ret.
Qed.

(** A timeout is signed only for the current epoch and a round above the preferred round and not
    below the last voted round, and it raises the last voted round to its own. *)
Theorem timeout_signed s lvr pref lv t s' sig : stored lvr pref lv s -> sign_timeout t s = (s', Ok sig) ->
  to_epoch t = e /\ pref < to_round t /\ lvr <= to_round t /\ stored (to_round t) pref lv s'.
Proof. intros Hs E. pose proof (timeout_signed_triple lvr pref lv t s Hs) as Ht. by rewrite E in Ht. Qed.

Ltac skip_step lem := eapply triple_bind; [eapply triple_conseq; [apply lem|done..]|].

Lemma vote_round_triple lvr pref lv msvp :
  let b := vp_block (msvp_vote_proposal msvp) in
  triple (stored lvr pref lv) (construct_and_sign_vote msvp)
    (fun v s => vote_round v = block_round b /\ block_epoch b = e /\ pref <= bi_round (certified_block (block_quorum_cert b)) /\
       (lvr < block_round b \/ lv = Some v) /\
       stored (block_round b) (Z.max pref (bi_round (parent_block (block_quorum_cert b)))) (Some v) s) (fun _ => True).
Proof.
  cbv zeta. skip_step (signer_triple (stored lvr pref lv)). intros sg. cbv zeta.
  eapply triple_bind; [apply (triple_gets _ _ (fun _ => stored lvr pref lv)); done|]. intros epk.
  eapply triple_bind; [apply (triple_lift _ _ (fun _ => stored lvr pref lv))|].
  { intros s Hs. by destruct (match epk with Some _ => _ | None => _ end). }
  intros []. skip_step verify_epoch_triple. intros []. apply triple_pure. intros He.
  skip_step verify_qc_triple. intros []. apply triple_pure. intros _.
  skip_step get_epoch_state_triple. intros es. apply triple_pure. intros _.
  eapply triple_bind; [apply (triple_lift _ _ (fun _ => stored lvr pref lv))|].
  { intros s Hs. by destruct (map_err _ _). }
  intros []. set (b := vp_block (msvp_vote_proposal msvp)) in *.
  skip_step preferred_round_triple. intros []. apply triple_pure. intros Hpref.
  set (pref' := Z.max pref (bi_round (parent_block (block_quorum_cert b)))).
  skip_step last_vote_triple. intros last_vote. apply triple_pure. intros ->.
  assert (Hnew : triple (stored lvr pref' lv) (sign_new_vote (msvp_vote_proposal msvp))
    (fun v s => vote_round v = block_round b /\ block_epoch b = e /\ pref <= bi_round (certified_block (block_quorum_cert b)) /\
      (lvr < block_round b \/ lv = Some v) /\ stored (block_round b) pref' (Some v) s) (fun _ => True)).
  { eapply triple_conseq; [apply sign_new_vote_round|done| |done]. intros v s (Hl & Hv & Hs). split_and!; auto. }
  destruct lv as [v|]; [|exact Hnew].
  destruct (Z.eqb_spec (vote_round v) (block_round b)) as [Hr|_]; [|exact Hnew].
  skip_step set_lvr_triple. intros []. apply triple_ret. intros s Hs. split_and!; auto.
Qed.

(** C30: A vote is given out only for a block of the current epoch on top of a certified block at or
    above the preferred round, and it is either the last vote again or for a round above the last
    voted round; it becomes the stored last vote, and the preferred round rises to the grandparent. *)
Theorem vote_signed s lvr pref lv msvp s' v : stored lvr pref lv s -> construct_and_sign_vote msvp s = (s', Ok v) ->
  let b := vp_block (msvp_vote_proposal msvp) in
  vote_round v = block_round b /\ block_epoch b = e /\ pref <= bi_round (certified_block (block_quorum_cert b)) /\
  (lvr < block_round b \/ lv = Some v) /\
  stored (block_round b) (Z.max pref (bi_round (parent_block (block_quorum_cert b)))) (Some v) s'.
Proof. intros Hs E. pose proof (vote_round_triple lvr pref lv msvp s Hs) as Ht. by rewrite E in Ht. Qed.

(** Initialization with an epoch change proof installs the validator set of the proof; when the
    proof starts a later epoch, the stored epoch becomes the new one and the rounds and the last vote
    are reset; otherwise nothing stored changes. *)
Theorem initialize_effect proof s s' : initialize proof s = (s', Ok tt) ->
  exists es cur, epoch_state s' = Some es /\ contents s EPOCH = Some (VU64 cur) /\
  (cur < es_epoch es ->
    contents s' EPOCH = Some (VU64 (es_epoch es)) /\ contents s' LAST_VOTED_ROUND = Some (VU64 0) /\
    contents s' PREFERRED_ROUND = Some (VU64 0) /\
    exists b, contents s' LAST_VOTE = Some (VBytes b) /\ vote_from_bytes b = Ok None) /\
  (es_epoch es <= cur -> contents s' = contents s).
Proof. apply initialize_Ok. Qed.

(** ** Interrupted initialization *)

(** What the storage holds and the epoch the process works in. *)
Definition kept (c : string -> option Value) (es0 : option EpochState) (s : SafetyRules) : Prop :=
  contents s = c /\ epoch_state s = es0.
Definition kept_store (c : string -> option Value) (ps : PersistentSafetyStorage) : Prop := kv_contents (internal_store ps) = c.

Lemma storage_keeps {A} c es0 (m : M PersistentSafetyStorage string A) : preserves (kept_store c) m -> preserves (kept c es0) (storage m).
Proof.
  intros Hm s [Hc He]. specialize (Hm (persistent_storage s) Hc). unfold storage.
  destruct (m (persistent_storage s)) as [ps [a|err|]]; cbn; by split.
Qed.

Lemma pss_kv_keeps {A} c (m : M S SError A) : preserves (fun st => kv_contents st = c) m -> preserves (kept_store c) (pss_kv m).
Proof.
  intros Hm ps Hc. specialize (Hm (internal_store ps) Hc). unfold pss_kv.
  by destruct (m (internal_store ps)) as [st [a|err|]].
Qed.

Lemma kv_get_keeps c k : preserves (fun st : S => kv_contents st = c) (kv_get k).
Proof. intros st Hc. pose proof (kv_get_contents k st) as E. destruct (kv_get k st) as [st' [r|err|]]; cbn in E; congruence. Qed.

Lemma pss_get_keeps {A} c k (f : Value -> result SError A) : preserves (kept_store c) (pss_get k f).
Proof. apply pss_kv_keeps. apply preserves_bind; [apply kv_get_keeps|intros r; apply preserves_lift]. Qed.

Lemma consensus_key_keeps c version : preserves (kept_store c) (consensus_key_for_version version).
Proof.
  apply pss_kv_keeps. unfold export_private_key_for_version, export_private_key.
  assert (He : forall name, preserves (fun st => kv_contents st = c) (export_private_key S name))
    by (intros name; apply preserves_bind; [apply kv_get_keeps|intros r; apply preserves_lift]).
  apply preserves_bind; [apply He|]. intros k. destruct (bool_decide _); [apply preserves_ret|].
  intros st Hc. specialize (He (get_previous_version_name CONSENSUS_KEY) st Hc). unfold export_private_key in He.
  destruct (m_bind _ _ st) as [st' [k'|err|]]; [by destruct (bool_decide _)|by destruct err|done].
Qed.
#[local] Hint Resolve storage_keeps pss_get_keeps consensus_key_keeps : preserves.

Lemma set_validator_signer_keeps c es0 v : preserves (kept c es0) (set_validator_signer (S:=S) v).
Proof. intros s Hs. exact Hs. Qed.

Lemma reconcile_key_keeps c es0 es author : preserves (kept c es0) (reconcile_key es author).
Proof.
  unfold reconcile_key. destruct (get_public_key _ _); [|apply set_validator_signer_keeps].
  apply preserves_bind; [apply preserves_gets|]. intros cur. destruct (bool_decide _); [|apply preserves_ret].
  intros s Hs. pose proof (storage_keeps c es0 _ (consensus_key_keeps c p) s Hs) as Hk.
  by destruct (storage _ s) as [s' [k|err|]].
Qed.

(** Writes of the storage in order. *)
Definition write_cell (c : string -> option Value) (kv : string * Value) : string -> option Value :=
  fun k => if bool_decide (k = kv.1) then Some kv.2 else c k.
Definition write_cells (ws : list (string * Value)) (c : string -> option Value) : string -> option Value := foldl write_cell c ws.

(** [s'] is [s] after the first [n] of the writes, with nothing else changed. *)
Definition wrote (ws : list (string * Value)) (n : nat) (s s' : SafetyRules) : Prop :=
  (n <= length ws)%nat /\ epoch_state s' = epoch_state s /\ forall k, contents s' k = write_cells (take n ws) (contents s) k.

(** A method that performs the writes one after the other: it succeeds only after all of
    them, and otherwise it has done some first of them. *)
Definition writes (m : M SafetyRules Error unit) (ws : list (string * Value)) : Prop :=
  forall s, match m s with (s', Ok _) => wrote ws (length ws) s s' | (s', _) => exists n, wrote ws n s s' end.

Lemma write_cells_ext ws : forall c c', (forall k, c k = c' k) -> forall k, write_cells ws c k = write_cells ws c' k.
Proof.
  induction ws as [|[k0 v] ws IH]; intros c c' Hc k; cbn; [done|]. apply IH. intros k'. unfold write_cell. by destruct (bool_decide _).
Qed.

Lemma wrote_app ws1 ws2 n s1 s2 s3 : wrote ws1 (length ws1) s1 s2 -> wrote ws2 n s2 s3 -> wrote (ws1 ++ ws2) (length ws1 + n) s1 s3.
Proof.
  intros (_ & He1 & Hc1) (Hn & He2 & Hc2). split_and!; [rewrite length_app; lia|congruence|]. intros k.
  rewrite Hc2, take_app_add'; [|done]. unfold write_cells. rewrite foldl_app. apply write_cells_ext. intros k'. by rewrite Hc1, firstn_all.
Qed.

Lemma writes_bind m1 m2 ws1 ws2 : writes m1 ws1 -> writes m2 ws2 -> writes (run* m1 in m2) (ws1 ++ ws2).
Proof.
  intros Hm1 Hm2 s. specialize (Hm1 s). unfold m_bind. destruct (m1 s) as [s1 [[]|err|]].
  - specialize (Hm2 s1). destruct (m2 s1) as [s2 [[]|err|]]; [rewrite length_app; by eapply wrote_app|..].
    all: destruct Hm2 as [n Hn]; exists (length ws1 + n)%nat; by eapply wrote_app.
  - destruct Hm1 as (n & Hn & He & Hc). exists n. split_and!; [rewrite length_app; lia|done|]. intros k. by rewrite take_app_le.
  - destruct Hm1 as (n & Hn & He & Hc). exists n. split_and!; [rewrite length_app; lia|done|]. intros k. by rewrite take_app_le.
Qed.

Lemma storage_set_writes k v g :
  writes (storage (run* pss_kv (kv_set k v) in match g with Some n => set_preferred_round_gauge n | None => m_ret tt end)) [(k, v)].
Proof.
  intros s. destruct (storage _ s) as [s' r] eqn:E. apply storage_set in E as ((He & _) & Ho & Hf).
  destruct r as [[]|err|]; [by split_and!; [cbn; lia|done|apply Ho]|..].
  all: destruct Hf as [Hf|Hf]; [exists 0%nat|exists 1%nat]; (split_and!; [cbn; lia|done|]); [by rewrite Hf|apply Hf].
Qed.

Lemma writes_ext m m' ws : (forall s, m s = m' s) -> writes m ws -> writes m' ws.
Proof. intros E Hw s. rewrite <- E. apply Hw. Qed.

Lemma storage_kv_set_writes k v : writes (storage (pss_kv (kv_set k v))) [(k, v)].
Proof.
  apply (writes_ext (storage (run* pss_kv (kv_set k v) in m_ret tt))); [|apply (storage_set_writes k v None)].
  intros s. unfold storage, m_bind. by destruct (pss_kv _ _) as [ps [[]|err|]].
Qed.

(** The writes of [start_epoch]; without an encoding of the empty last vote it stops there. *)
Definition epoch_writes (waypoint : Waypoint) (epoch : Z) : list (string * Value) :=
  [(WAYPOINT, VString (waypoint_to_string waypoint)); (LAST_VOTED_ROUND, VU64 0); (PREFERRED_ROUND, VU64 0)] ++
  match vote_to_bytes None with Ok b => [(LAST_VOTE, VBytes b); (EPOCH, VU64 epoch)] | _ => [] end.

Lemma start_epoch_writes li es waypoint : waypoint_new_epoch_boundary li = Ok waypoint ->
  writes (start_epoch li es) (epoch_writes waypoint (es_epoch es)).
Proof.
  intros Hw. apply (writes_ext (run* storage (set_waypoint waypoint) in run* storage (set_last_voted_round 0) in
    run* storage (set_preferred_round 0) in run* storage (set_last_vote None) in storage (set_epoch (es_epoch es)))).
  { intros s. unfold start_epoch. by rewrite Hw. }
  apply (writes_bind _ _ [_]); [apply storage_kv_set_writes|]. apply (writes_bind _ _ [_]); [apply (storage_set_writes _ _ (Some 0))|].
  apply (writes_bind _ _ [_]); [apply (storage_set_writes _ _ (Some 0))|]. destruct (vote_to_bytes None) as [b|err|] eqn:Eb.
  - apply (writes_bind _ _ [_]); [|apply storage_kv_set_writes].
    apply (writes_ext (storage (pss_kv (kv_set LAST_VOTE (VBytes b))))); [|apply storage_kv_set_writes].
    intros s. unfold storage, set_last_vote, m_bind. by rewrite Eb.
  - intros s. unfold m_bind at 1, storage, set_last_vote, m_bind at 1. rewrite Eb. by exists 0%nat.
  - intros s. unfold m_bind at 1, storage, set_last_vote, m_bind at 1. rewrite Eb. by exists 0%nat.
Qed.

(** What [initialize] may leave behind, from the state [s]; [ok] says whether it succeeded. *)
Definition interrupted (proof : EpochChangeProof) (s : SafetyRules) (ok : bool) (s' : SafetyRules) : Prop :=
  (contents s' = contents s /\
    (ok = true -> exists es cur, epoch_state s' = Some es /\ contents s EPOCH = Some (VU64 cur) /\ es_epoch es <= cur)) \/
  (exists text trusted li es waypoint cur n, contents s WAYPOINT = Some (VString text) /\ waypoint_from_str text = Ok trusted /\
    epoch_change_verify proof (VWaypoint trusted) = Ok li /\ li_next_epoch_state (liws_ledger_info li) = Some es /\
    waypoint_new_epoch_boundary (liws_ledger_info li) = Ok waypoint /\
    contents s EPOCH = Some (VU64 cur) /\ cur < es_epoch es /\
    (n <= 5)%nat /\ (forall k, contents s' k = write_cells (take n (epoch_writes waypoint (es_epoch es))) (contents s) k) /\
    (ok = true -> n = 5%nat /\ epoch_state s' = Some es) /\
    (n = 4%nat -> ok = false -> forall lvr pref lv, stored lvr pref lv s -> epoch_start s')).

Lemma epoch_writes_length waypoint epoch : (length (epoch_writes waypoint epoch) <= 5)%nat.
Proof. unfold epoch_writes. by destruct (vote_to_bytes None); cbn; lia. Qed.

(** Four of the five writes: the rounds and the last vote are reset, in the old epoch. *)
Lemma four_writes_reset waypoint epoch s s' lvr pref lv : wrote (epoch_writes waypoint epoch) 4 s s' ->
  stored lvr pref lv s -> epoch_start s'.
Proof.
  unfold epoch_writes. intros (Hn & He & Hc) [A1 _ _ _ A5]. destruct (vote_to_bytes None) as [b|err|] eqn:Eb; cbn in Hn; [|lia..].
  apply vote_bytes_roundtrip in Eb. unfold write_cells, write_cell in Hc. cbn in Hc. split; rewrite ?Hc; cbn; [done..| |by rewrite He].
  by exists b.
Qed.

Lemma start_epoch_interrupted proof s s1 text trusted li es cur :
  contents s1 = contents s -> epoch_state s1 = epoch_state s ->
  contents s WAYPOINT = Some (VString text) -> waypoint_from_str text = Ok trusted ->
  epoch_change_verify proof (VWaypoint trusted) = Ok li -> li_next_epoch_state (liws_ledger_info li) = Some es ->
  contents s EPOCH = Some (VU64 cur) -> cur < es_epoch es ->
  match (run* start_epoch (liws_ledger_info li) es in set_epoch_state (Some es)) s1 with
  | (s', r) => (is_ok r = false -> epoch_state s' = epoch_state s) /\ interrupted proof s (is_ok r) s'
  end.
Proof.
  intros Hc1 He1 Ht Hw Hv Hes Hcur Hlt. destruct (waypoint_new_epoch_boundary (liws_ledger_info li)) as [w|err|] eqn:Ew.
  2,3: unfold m_bind, start_epoch, m_bind; rewrite Ew; cbn; split; [done|]; left; by split.
  pose proof (start_epoch_writes (liws_ledger_info li) es w Ew s1) as Hs. pose proof (epoch_writes_length w (es_epoch es)).
  assert (Hgen : forall n s2, wrote (epoch_writes w (es_epoch es)) n s1 s2 -> wrote (epoch_writes w (es_epoch es)) n s s2).
  { intros n s2 (Hn & He & Hc). split_and!; [done|congruence|]. by rewrite <- Hc1. }
  unfold m_bind at 1. destruct (start_epoch _ _ s1) as [s2 [[]|err|]]; cbn [is_ok].
  { apply Hgen in Hs as (_ & _ & Hc). split; [done|right]. exists text, trusted, li, es, w, cur, 5%nat. split_and!; try done.
    intros k. rewrite take_ge by lia. rewrite firstn_all in Hc. apply Hc. }
  all: destruct Hs as [n Hw2%Hgen]; (split; [intros _; apply Hw2|right]); exists text, trusted, li, es, w, cur, n;
    pose proof Hw2 as (Hn & He & Hc).
  all: split_and!; try done; [lia|]; intros -> _ lvr pref lv; by eapply four_writes_reset.
Qed.

Lemma kept_interrupted proof s s' : kept (contents s) (epoch_state s) s' -> epoch_state s' = epoch_state s /\ interrupted proof s false s'.
Proof. intros [Hc He]. split; [done|]. left. by split. Qed.

(** A read of the storage, in a computation that has not written yet. *)
Lemma get_interrupted {A} proof s k (f : Value -> result SError A) :
  triple (kept (contents s) (epoch_state s)) (storage (pss_get k f))
    (fun a s1 => (exists v, contents s k = Some v /\ f v = Ok a) /\ kept (contents s) (epoch_state s) s1)
    (fun s' => epoch_state s' = epoch_state s /\ interrupted proof s false s').
Proof.
  intros s1 Hs. pose proof (storage_keeps _ (epoch_state s) _ (pss_get_keeps (contents s) k f) s1 Hs) as Hk.
  destruct (storage (pss_get k f) s1) as [s2 r] eqn:E. apply storage_get in E as (_ & _ & Hr).
  destruct r as [a|err|]; [|by apply kept_interrupted..]. split; [|done]. destruct Hs as [<- _]. by apply Hr.
Qed.

(** One with a decoder. *)
Lemma get_lift_interrupted {A B} proof s k (f : Value -> result SError A) (g : A -> result string B) :
  triple (kept (contents s) (epoch_state s)) (storage (let* a := pss_get k f in m_lift (g a)))
    (fun b s1 => (exists v a, contents s k = Some v /\ f v = Ok a /\ g a = Ok b) /\ kept (contents s) (epoch_state s) s1)
    (fun s' => epoch_state s' = epoch_state s /\ interrupted proof s false s').
Proof.
  intros s1 Hs. pose proof (get_interrupted proof s k f s1 Hs) as Hg. revert Hg. unfold storage, m_bind.
  destruct (pss_get k f (persistent_storage s1)) as [ps [a|err|]]; cbn; [|done..].
  intros [(v & Hv & Hf) Hk]. destruct (g a) eqn:Eg; cbn; [|exact (kept_interrupted proof s _ Hk)..]. split; [|done]. by exists v, a.
Qed.

(** C36: An initialization that fails leaves the process in its old epoch and the storage with some first
    ones of the writes of the epoch change, in the order waypoint, last voted round, preferred round, last
    vote, epoch, and with nothing else changed; writes happen only for a proof that verifies against the
    stored waypoint and starts a later epoch, and success means that all five are done or that none was
    due.  After four of the five the validator stands at the start of the old epoch again, with its
    rounds and its last vote forgotten. *)
Theorem initialize_interrupted proof s s' r : initialize proof s = (s', r) ->
  (is_ok r = false -> epoch_state s' = epoch_state s) /\ interrupted proof s (is_ok r) s'.
Proof.
  intros E. assert (Ht : triple (kept (contents s) (epoch_state s)) (initialize proof)
    (fun _ s' => interrupted proof s true s') (fun s' => epoch_state s' = epoch_state s /\ interrupted proof s false s')).
  2:{ specialize (Ht s (conj eq_refl eq_refl)). rewrite E in Ht. destruct r; cbn; [by split|by destruct Ht..]. }
  eapply triple_bind; [apply get_lift_interrupted|]. intros trusted. apply triple_pure. intros (v & text & Htext & Hv & Hw).
  destruct v; try done. injection Hv as ->. clear E s' r.
  apply map_err_Ok in Hw.
  eapply (triple_bind _ _ (fun li s1 => epoch_change_verify proof (VWaypoint trusted) = Ok li /\ kept (contents s) (epoch_state s) s1)).
  { apply triple_lift. intros s1 Hs. destruct (epoch_change_verify _ _); cbn; [by split|by apply kept_interrupted..]. }
  intros li. apply triple_pure. intros Hv.
  eapply (triple_bind _ _ (fun es s1 => li_next_epoch_state (liws_ledger_info li) = Some es /\ kept (contents s) (epoch_state s) s1)).
  { apply triple_lift. intros s1 Hs. destruct (li_next_epoch_state _); cbn; [by split|by apply kept_interrupted]. }
  intros es. apply triple_pure. intros Hes. eapply triple_bind; [apply get_lift_interrupted|]. intros author. apply triple_pure. intros _.
  eapply triple_bind; [eapply triple_conseq; [apply reconcile_key_keeps|done..|by apply kept_interrupted]|]. intros [].
  eapply triple_bind; [apply get_interrupted|]. intros cur. apply triple_pure. intros (v & Hcur & Hv2). destruct v; try done.
  injection Hv2 as ->. intros s1 [Hc He]. destruct (Z.ltb_spec cur (es_epoch es)) as [Hlt|Hge].
  - pose proof (start_epoch_interrupted proof s s1 text trusted li es cur Hc He Htext Hw Hv Hes Hcur Hlt) as Hi.
    destruct (m_bind _ _ s1) as [s2 [[]|err|]]; cbn in Hi; [apply Hi|by destruct Hi; auto..].
  - cbn. left. split; [done|]. intros _. by exists es, cur.
Qed.


End Voting.
