(* ===== verification/ConsensusSafety.v ===== *)
(** * Safety of the consensus protocol

    The validators of an epoch run [SafetyRules]; validators with less than a third of
    the voting power behave arbitrarily.  Any two ledger infos of the epoch that carry a
    quorum of signatures commit blocks of one chain.  The argument uses the voting
    invariant of every correct validator ([SafetyRulesProof]), quorum intersection
    ([ValidatorVerifier]) and nothing about the network. *)

From S2P Require Import Prelude U64 Crypto ValidatorVerifier LedgerInfo Accumulator.
From S2P Require Import AccumulatorProof ConsensusTypes SecureStorage SafetyRules SafetyRulesProof.

Section ConsensusSafety.
Context `{Crypto} {S : Type} `{!KVStorage S} `{!KVStorageLaws S} `{!HexText} `{!CryptoLaws _}.
Context `{!CryptoHash LedgerInfo, !CryptoHash Ledger2WaypointConverter, !CryptoHash VoteData,
          !CryptoHash Timeout, !CryptoHash BlockData, !CryptoHash VoteProposal}.
Context (hash_internal : HashValue -> HashValue -> HashValue) (ACCUMULATOR_PLACEHOLDER_HASH : HashValue).
Context `{!SafetyCodec} `{!SafetyCodecLaws}.

Notation epoch_start := (epoch_start (S:=S)).

(** The signatures that exist: those in messages some validator received or could
    have sent. *)
Context (observed : Signature -> Prop).

Definition observed_signatures (l : LedgerInfoWithSignatures) : Prop :=
  forall a sig, liws_signatures l !! a = Some sig -> observed sig.

(** What a validator asks its [SafetyRules] to vote for: a block it found well formed
    ([Block::verify_well_formed], checked when a proposal arrives), with a certificate
    it received. *)
Definition proposed (vp : VoteProposal) : Prop :=
  verify_well_formed (vp_block vp) = Ok tt /\
  observed_signatures (qc_signed_ledger_info (block_quorum_cert (vp_block vp))).

Notation good_vote ep V := (good_vote hash_internal ACCUMULATOR_PLACEHOLDER_HASH ep V proposed).
Notation sr_run ep V := (sr_run (S:=S) hash_internal ACCUMULATOR_PLACEHOLDER_HASH ep V proposed).

(** The validator sets of the epochs, the votes every validator gave out in every
    epoch, and the Byzantine validators of epoch [e]. *)
Context (committee : Z -> ValidatorVerifier) (votes_of : AccountAddress -> Z -> list Vote).
Context (e : Z) (infos : gmap AccountAddress ValidatorConsensusInfo) (byzantine : list AccountAddress).

Definition honest (a : AccountAddress) : Prop := a ∈ validators infos /\ a ∉ byzantine.

(** The assumptions of the protocol. *)
Record protocol : Prop := {
  pr_committee : committee e = verifier_new infos;
  pr_infos : wf_infos infos;
  pr_byzantine : NoDup byzantine /\ byzantine ⊆ validators infos /\
    3 * zsum (power_of infos) byzantine < total_power infos;
  (** Correct validators sign votes only by running [SafetyRules]. *)
  pr_runs a ep : honest a -> exists s s',
    epoch_start ep (committee ep) s /\ sr_run ep (committee ep) s (votes_of a ep) s';
  (** A signature on a ledger info under the key of a correct validator was made by it. *)
  pr_unforgeable a pk li sig : observed sig -> honest a -> get_public_key (committee e) a = Some pk ->
    verify_struct_signature pk li sig = true ->
    exists ep v, v ∈ votes_of a ep /\ vote_ledger_info v = li;
  (** The hash of vote data is free of collisions. *)
  pr_vote_hash : Inj (=) (=) (crypto_hash (T:=VoteData))
}.

Context (P : protocol).

(** A ledger info with a quorum of signatures. *)
Definition quorum_signed (li : LedgerInfo) : Prop :=
  exists l, liws_ledger_info l = li /\ observed_signatures l /\ verify_signatures l (committee e) = Ok tt.

Definition certified (vd : VoteData) : Prop :=
  exists li, quorum_signed li /\ li_consensus_data_hash li = crypto_hash vd /\
    bi_epoch (vd_proposed vd) = e.

Lemma honest_votes a ep : honest a ->
  (forall v, v ∈ votes_of a ep -> good_vote ep (committee ep) v) /\
  (forall v w, v ∈ votes_of a ep -> w ∈ votes_of a ep -> compatible v w).
Proof. intros Ha. destruct (pr_runs P a ep Ha) as (s & s' & Hs & Hr). by eapply run_votes. Qed.

Lemma good_vote_epoch ep v : good_vote ep (committee ep) v -> vote_epoch v = ep.
Proof. intros [vp [_ He _ Hd _ _]]. apply extension_check_Ok in Hd as (Hep & _). unfold vote_epoch. congruence. Qed.

(** The signers of a quorum-signed ledger info: a quorum, whose correct members
    voted with this ledger info. *)
Lemma quorum_signed_voters li : quorum_signed li -> exists q, NoDup q /\ quorum_of (verifier_new infos) q /\
  forall a, a ∈ q -> a ∉ byzantine -> honest a /\ exists ep v, v ∈ votes_of a ep /\ vote_ledger_info v = li.
Proof.
  intros (l & <- & Ho & Hv). unfold verify_signatures in Hv. rewrite (pr_committee P) in Hv.
  apply verified_quorum in Hv as [Hq Hs]; [|apply (pr_infos P)].
  exists (sig_authors (liws_signatures l)). split_and!; [apply sig_authors_NoDup|done|].
  intros a Ha Hb. assert (Hh : honest a) by (split; [apply (proj1 Hq)|]; done). split; [done|].
  destruct (Hs a Ha) as (pk & sig & Hpk & Hsig & Hver). rewrite <- (pr_committee P) in Hpk.
  by apply (pr_unforgeable P a pk _ sig); [eapply Ho| | |].
Qed.

(** Two quorum-signed ledger infos have a common correct signer. *)
Lemma common_voter li1 li2 : quorum_signed li1 -> quorum_signed li2 -> exists a, honest a /\
  (exists ep v, v ∈ votes_of a ep /\ vote_ledger_info v = li1) /\
  (exists ep v, v ∈ votes_of a ep /\ vote_ledger_info v = li2).
Proof.
  intros (q1 & N1 & Q1 & V1)%quorum_signed_voters (q2 & N2 & Q2 & V2)%quorum_signed_voters.
  destruct (pr_byzantine P) as (Nb & Sb & Fb).
  destruct (quorums_intersect infos q1 q2 byzantine) as (a & A1 & A2 & Ab); try done; [apply (pr_infos P)|].
  exists a. destruct (V1 a A1 Ab), (V2 a A2 Ab). auto.
Qed.

(** The vote data that a ledger info signed by a correct validator stands for. *)
Lemma vote_of_hash a ep v li vd : honest a -> v ∈ votes_of a ep -> vote_ledger_info v = li ->
  li_consensus_data_hash li = crypto_hash vd -> bi_epoch (vd_proposed vd) = e ->
  vote_data v = vd /\ ep = e.
Proof.
  intros Ha Hv <- Hh He. pose proof (proj1 (honest_votes a ep Ha) v Hv) as Hg.
  assert (Hvd : vote_data v = vd).
  { destruct Hg as [vp [_ _ _ _ _ Hvh]]. rewrite Hvh in Hh. by apply (pr_vote_hash P) in Hh. }
  split; [done|]. apply good_vote_epoch in Hg. unfold vote_epoch in Hg. congruence.
Qed.

Lemma common_vote vd1 vd2 : certified vd1 -> certified vd2 -> exists a v1 v2, honest a /\
  v1 ∈ votes_of a e /\ v2 ∈ votes_of a e /\ vote_data v1 = vd1 /\ vote_data v2 = vd2.
Proof.
  intros (li1 & Q1 & G1 & E1) (li2 & Q2 & G2 & E2).
  destruct (common_voter li1 li2 Q1 Q2) as (a & Ha & (ep1 & v1 & V1 & L1) & (ep2 & v2 & V2 & L2)).
  destruct (vote_of_hash _ _ _ _ _ Ha V1 L1 G1 E1) as [? ->].
  destruct (vote_of_hash _ _ _ _ _ Ha V2 L2 G2 E2) as [? ->]. eauto 10.
Qed.

(** At most one block is certified per round. *)
Lemma certified_unique vd1 vd2 : certified vd1 -> certified vd2 ->
  bi_round (vd_proposed vd1) = bi_round (vd_proposed vd2) -> vd1 = vd2.
Proof.
  intros C1 C2 Hr. destruct (common_vote vd1 vd2 C1 C2) as (a & v1 & v2 & Ha & V1 & V2 & <- & <-).
  destruct (proj2 (honest_votes a e Ha) v1 v2 V1 V2) as [Heq _]. by rewrite (Heq Hr).
Qed.

(** A quorum certificate a correct validator accepted, of a round above 0. *)
Lemma qc_certified qc : observed_signatures (qc_signed_ledger_info qc) -> quorum_cert_verify qc (committee e) = Ok tt ->
  bi_round (certified_block qc) <> 0 -> bi_epoch (certified_block qc) = e ->
  certified (qc_vote_data qc) /\ vote_data_verify (qc_vote_data qc) = Ok tt.
Proof.
  unfold quorum_cert_verify. intros Ho Hv Hr He. apply bind_Ok in Hv as ([] & Hh & Hv). apply ensure_Ok in Hh.
  apply bool_decide_eq_true in Hh. destruct (Z.eqb_spec (bi_round (certified_block qc)) 0); [done|].
  apply bind_Ok in Hv as ([] & Hs & Hv). apply map_err_Ok in Hs. split; [|done].
  exists (qc_ledger_info qc). split_and!; [|done|done]. by exists (qc_signed_ledger_info qc).
Qed.

(** The parent of a block voted for by a correct validator is certified, unless it is
    the genesis block of the epoch. *)
Lemma vote_parent v : good_vote e (committee e) v -> parent_round v <> 0 ->
  exists vd, certified vd /\ vote_data_verify vd = Ok tt /\ vd_proposed vd = vd_parent (vote_data v).
Proof.
  intros [vp [[Hwf Ho] He Hqc Hd _ _]] Hr. apply extension_check_Ok in Hd as (_ & _ & _ & Hp).
  unfold parent_round in Hr. rewrite Hp in Hr |- *. unfold verify_well_formed in Hwf.
  assert (Hep : bi_epoch (certified_block (block_quorum_cert (vp_block vp))) = e) by (res_inv; lia).
  destruct (qc_certified _ Ho Hqc Hr Hep). by exists (qc_vote_data (block_quorum_cert (vp_block vp))).
Qed.

Lemma certified_vote vd : certified vd -> exists a v, honest a /\ v ∈ votes_of a e /\ vote_data v = vd.
Proof. intros C. destruct (common_vote vd vd C C) as (a & v & _ & Ha & Hv & _ & Hd & _). eauto. Qed.

Lemma certified_parent vd : certified vd -> bi_round (vd_parent vd) <> 0 ->
  exists vd', certified vd' /\ vote_data_verify vd' = Ok tt /\ vd_proposed vd' = vd_parent vd.
Proof.
  intros (a & v & Ha & Hv & <-)%certified_vote Hr. apply vote_parent; [|done]. by apply (honest_votes a e Ha).
Qed.

Lemma vote_data_verify_round vd : vote_data_verify vd = Ok tt ->
  bi_round (vd_parent vd) < bi_round (vd_proposed vd).
Proof. unfold vote_data_verify. intros E. res_inv. lia. Qed.

(** ** Commits *)

Definition committed (li : LedgerInfo) : Prop := quorum_signed li /\ li_epoch li = e /\ 1 <= li_round li.

(** A wrap-around free reading of the three-chain rule. *)
Lemma u64_succ_above r r' : 0 <= r -> u64_add r 1 = r' -> r < r' -> r' = r + 1.
Proof.
  unfold u64_add, wrap64. intros Hr <- Hlt. pose proof (Z.mod_le (r + 1) (2 ^ 64) ltac:(lia) ltac:(lia)). lia.
Qed.

(** The three-chain behind a commit vote. *)
Lemma commit_vote li a ep v : committed li -> honest a -> v ∈ votes_of a ep -> vote_ledger_info v = li ->
  ep = e /\ exists vd1, certified vd1 /\ vd_parent vd1 = li_commit_info li /\
  vd_proposed vd1 = vd_parent (vote_data v) /\
  bi_round (vd_proposed vd1) = li_round li + 1 /\ vote_round v = li_round li + 2.
Proof.
  intros (Hq & Hep & Hr) Ha Hv Hli. pose proof (proj1 (honest_votes a ep Ha) v Hv) as Hg.
  destruct Hg as [vp [[Hwf Ho] He Hqc Hd Hc _]]. apply extension_check_Ok in Hd as (_ & Hrd & _ & Hp).
  rewrite Hli in Hc. unfold verify_well_formed in Hwf.
  assert (Hpe : bi_epoch (certified_block (block_quorum_cert (vp_block vp))) = ep /\
    bi_round (certified_block (block_quorum_cert (vp_block vp))) < block_round (vp_block vp)) by (res_inv; lia).
  destruct Hpe as [Hpe Hpr]. set (qc := block_quorum_cert (vp_block vp)) in *.
  destruct (construct_ledger_info_round (vp_block vp)) as [Hem|(Hcp & Hr1 & Hr2)].
  { unfold li_round in Hr. rewrite Hc, Hem in Hr. cbn in Hr. lia. }
  fold qc in Hcp, Hr1, Hr2. rewrite <- Hc in Hcp, Hr1.
  assert (Hqv : bi_round (certified_block qc) <> 0 /\ vote_data_verify (qc_vote_data qc) = Ok tt).
  { unfold quorum_cert_verify in Hqc. apply bind_Ok in Hqc as ([] & _ & Hqc).
    destruct (Z.eqb_spec (bi_round (certified_block qc)) 0) as [Hz|Hz].
    - apply bind_Ok in Hqc as ([] & Hpc & _). apply ensure_Ok, bool_decide_eq_true in Hpc.
      unfold li_round in Hr. rewrite Hcp, Hpc in Hr. lia.
    - split; [done|]. by apply bind_Ok in Hqc as ([] & _ & Hqc). }
  destruct Hqv as [Hnz Hvv]. pose proof (vote_data_verify_round _ Hvv) as Hlt.
  assert (Hee : ep = e).
  { unfold vote_data_verify in Hvv. unfold li_epoch in Hep. rewrite Hcp in Hep.
    unfold certified_block, parent_block in *. res_inv. lia. }
  rewrite Hee in Hqc, Hpe. split; [done|]. exists (qc_vote_data qc).
  destruct (qc_certified qc Ho Hqc Hnz Hpe) as [Hcert _]. unfold li_round in *.
  rewrite Hcp in *. unfold parent_block, certified_block in *.
  apply u64_succ_above in Hr1; [|lia|done]. apply u64_succ_above in Hr2; [|lia|done].
  split_and!; try done. unfold vote_round. lia.
Qed.

Lemma certified_round vd : certified vd -> bi_round (vd_parent vd) < bi_round (vd_proposed vd).
Proof.
  intros (a & v & Ha & Hv & <-)%certified_vote.
  destruct (proj1 (honest_votes a e Ha) v Hv) as [vp [[Hwf _] _ _ Hd _ _]].
  apply extension_check_Ok in Hd as (_ & -> & _ & ->). unfold verify_well_formed in Hwf. res_inv. lia.
Qed.

(** The chain of certified blocks: every block is the parent of the next one. *)
Inductive extends (b : BlockInfo) : BlockInfo -> Prop :=
  | extends_refl : extends b b
  | extends_step vd : extends b (vd_parent vd) -> certified vd -> extends b (vd_proposed vd).

(** The certified blocks behind a commit: the committed block and its two successors. *)
Lemma commit_chain li : committed li -> exists vd0 vd1 vd2, certified vd0 /\ certified vd1 /\ certified vd2 /\
  li_commit_info li = vd_proposed vd0 /\ vd_parent vd1 = vd_proposed vd0 /\ vd_parent vd2 = vd_proposed vd1 /\
  bi_round (vd_proposed vd1) = li_round li + 1 /\ bi_round (vd_proposed vd2) = li_round li + 2.
Proof.
  intros Hc. pose proof Hc as (Hq & Hep & Hr).
  destruct (common_voter li li Hq Hq) as (a & Ha & (ep & v & Hv & Hli) & _).
  destruct (commit_vote li a ep v Hc Ha Hv Hli) as (-> & vd1 & C1 & Hp1 & Hp2 & R1 & R2).
  pose proof (proj1 (honest_votes a e Ha) v Hv) as Hg. pose proof (good_vote_epoch _ _ Hg) as Hve.
  destruct Hg as [vp [_ _ _ _ _ Hh]].
  assert (C2 : certified (vote_data v)) by (exists li; rewrite <- Hli at 2; done).
  destruct (certified_parent vd1 C1) as (vd0 & C0 & _ & Hp0); [rewrite Hp1; unfold li_round in Hr; lia|].
  exists vd0, vd1, (vote_data v). split_and!; try done; congruence.
Qed.

(** A block certified above the commit vote has a parent at or above the commit. *)
Lemma later_parent li vd : committed li -> certified vd -> li_round li + 2 < bi_round (vd_proposed vd) ->
  li_round li <= bi_round (vd_parent vd).
Proof.
  intros Hc (li' & Hq' & Hh' & He') Hr. pose proof Hc as (Hq & _).
  destruct (common_voter li li' Hq Hq') as (a & Ha & (ep & v & Hv & Hli) & (ep' & w & Hw & Hli')).
  destruct (vote_of_hash _ _ _ _ _ Ha Hw Hli' Hh' He') as [<- ->].
  destruct (commit_vote li a ep v Hc Ha Hv Hli) as (-> & _ & _ & _ & _ & _ & Hvr).
  destruct (proj2 (honest_votes a e Ha) v w Hv Hw) as (_ & Hcw & _).
  unfold commit_round in Hcw. rewrite Hli in Hcw. apply Hcw. rewrite Hvr. exact Hr.
Qed.

(** Every certified block at or above the round of a commit extends the committed block. *)
Lemma certified_extends li vd : committed li -> certified vd -> li_round li <= bi_round (vd_proposed vd) ->
  extends (li_commit_info li) (vd_proposed vd).
Proof.
  intros Hc. destruct (commit_chain li Hc) as (vd0 & vd1 & vd2 & C0 & C1 & C2 & E0 & P1 & P2 & R1 & R2).
  remember (bi_round (vd_proposed vd)) as r eqn:Er. revert vd Er.
  induction (Z.lt_wf 0 r) as [r _ IH]. intros vd -> C Hr.
  assert (X0 : extends (li_commit_info li) (vd_proposed vd0)) by (rewrite E0; constructor).
  assert (X1 : extends (li_commit_info li) (vd_proposed vd1)) by (constructor; [by rewrite P1|done]).
  unfold li_round in *. pose proof Hc as (_ & _ & Hpos). unfold li_round in Hpos.
  destruct (Z.eq_dec (bi_round (vd_proposed vd)) (bi_round (li_commit_info li))) as [Heq|].
  { rewrite (certified_unique vd vd0 C C0); [done|]. by rewrite Heq, E0. }
  destruct (Z.eq_dec (bi_round (vd_proposed vd)) (bi_round (vd_proposed vd1))) as [Heq|].
  { by rewrite (certified_unique vd vd1 C C1 Heq). }
  destruct (Z.eq_dec (bi_round (vd_proposed vd)) (bi_round (vd_proposed vd2))) as [Heq|].
  { rewrite (certified_unique vd vd2 C C2 Heq). constructor; [by rewrite P2|done]. }
  constructor; [|done]. pose proof (certified_round vd C).
  assert (Hpar : bi_round (li_commit_info li) <= bi_round (vd_parent vd)) by (apply later_parent; [done..|unfold li_round; lia]).
  destruct (certified_parent vd C) as (vd' & C' & _ & Hp'); [lia|]. rewrite <- Hp' in *.
  apply (IH (bi_round (vd_proposed vd'))); [lia|done|done|lia].
Qed.

(** C1: Commits are ordered by round on one chain of certified blocks, and there is one
    commit per round. *)
Theorem consensus_safety li li' : committed li -> committed li' -> li_round li <= li_round li' ->
  extends (li_commit_info li) (li_commit_info li') /\
  (li_round li = li_round li' -> li_commit_info li = li_commit_info li').
Proof.
  intros Hc Hc' Hr. destruct (commit_chain li' Hc') as (vd & _ & _ & C & _ & _ & E & _).
  destruct (commit_chain li Hc) as (vd0 & _ & _ & C0 & _ & _ & E0 & _). unfold li_round in *. split.
  - rewrite E in *. by apply certified_extends.
  - intros Heq. rewrite E, E0 in *. by rewrite (certified_unique vd0 vd C0 C Heq).
Qed.
End ConsensusSafety.
