(* ===== verification/RoundManager.v ===== *)
(** * The round manager

    [consensus/src/round_manager.rs] and [liveness/proposal_generator.rs]: the handlers of
    the events of a validator, on top of the block store, the state of the round, the
    proposer election and the safety rules.  One handler runs at a time.  The transaction
    pool, the safety rules and the election are traits.  A clock gives the times that are
    read, one after the other; the messages that are sent and the timers that are started
    are logged in their order. *)

From S2P Require Import Prelude U64 Crypto ValidatorVerifier LedgerInfo Accumulator AccumulatorProof ConsensusTypes.
From S2P Require Import PendingVotes ProposerElection RoundState BlockTree LedgerStore Recovery BlockStore SafetyRules.

(** [consensus/src/state_replication.rs]. *)
Class TxnManager `{Crypto} (T : Type) := {
  pull_txns : T -> Z -> list Payload -> T * result string Payload;
  notify : T -> Block -> StateComputeResult -> T * result string unit
}.

(** [consensus/safety-rules/src/t_safety_rules.rs], as far as the handlers call it. *)
Class TSafetyRules `{Crypto} (R : Type) := {
  tsr_construct_and_sign_vote : MaybeSignedVoteProposal -> M R Error Vote;
  tsr_sign_proposal : BlockData -> M R Error Block;
  tsr_sign_timeout : Timeout -> M R Error Signature
}.

(** What is sent to the network. *)
Inductive OutMsg `{Crypto} :=
| OutProposal (msg : ProposalMsg)
| OutVote (msg : VoteMsg) (recipients : list Author)
| OutVoteToAll (msg : VoteMsg)
| OutSyncInfo (sync_info : SyncInfo) (recipient : Author).

Section RoundManager.
Context `{Crypto} `{HC : !Countable HashValue, !HashSetOrder HashValue}.
Context `{!CryptoHash LedgerInfo, !CryptoHash VoteData, !CryptoHash BlockData, !CryptoHash Timeout}.
Context {C P N T R L : Type} `{!StateComputer C, !PersistentLivenessStorage P, !NetworkSender N, !TxnManager T, !TSafetyRules R, !ProposerElection L}.
Variable gen_range : Z -> nat -> nat.

(** ** Messages as they come in *)

Inductive UnverifiedEvent := UProposalMsg (p : ProposalMsg) | UVoteMsg (v : VoteMsg) | USyncInfo (s : SyncInfo).
Inductive VerifiedEvent := VProposalMsg (p : ProposalMsg) | VVoteMsg (v : VoteMsg) | VSyncInfo (s : SyncInfo).

Definition event_verify (self : UnverifiedEvent) (validator : ValidatorVerifier) : result string VerifiedEvent :=
  match self with
  | UProposalMsg p => _ ← proposal_msg_verify p validator; Ok (VProposalMsg p)
  | UVoteMsg v => _ ← vote_msg_verify v validator; Ok (VVoteMsg v)
  | USyncInfo s => _ ← sync_info_verify s validator; Ok (VSyncInfo s)
  end.
Definition event_epoch (self : UnverifiedEvent) : Z :=
  match self with
  | UProposalMsg p => block_epoch (pm_proposal p)
  | UVoteMsg v => vote_epoch (vm_vote v)
  | USyncInfo s => si_epoch s
  end.

(** ** The state *)

Record RoundManager := mkRoundManager {
  rm_epoch_state : EpochState;
  rm_block_store : BlockStore (C:=C) (P:=P) (N:=N);
  rm_round_state : RoundState;
  rm_proposer_election : L;
  (** [ProposalGenerator]: the author, the largest block, the last round proposed in. *)
  rm_author : Author;
  rm_max_block_size : Z;
  rm_last_round_generated : Z;
  rm_safety_rules : R;
  rm_txn_manager : T;
  rm_clock : nat -> Z;
  rm_ticks : nat;
  rm_out : list OutMsg;
  rm_timers : list (Z * Z)
}.

Definition on_store {A} (f : M (BlockStore (C:=C) (P:=P) (N:=N)) string A) : M RoundManager string A := fun self =>
  let '(bs, r) := f (rm_block_store self) in
  (mkRoundManager (rm_epoch_state self) bs (rm_round_state self) (rm_proposer_election self) (rm_author self) (rm_max_block_size self)
     (rm_last_round_generated self) (rm_safety_rules self) (rm_txn_manager self) (rm_clock self) (rm_ticks self) (rm_out self) (rm_timers self), r).
Definition on_rules {A} (f : M R Error A) : M RoundManager string A := fun self =>
  let '(sr, r) := f (rm_safety_rules self) in
  (mkRoundManager (rm_epoch_state self) (rm_block_store self) (rm_round_state self) (rm_proposer_election self) (rm_author self) (rm_max_block_size self)
     (rm_last_round_generated self) sr (rm_txn_manager self) (rm_clock self) (rm_ticks self) (rm_out self) (rm_timers self),
   map_err (fun _ => "SafetyRules"%string) r).
Definition on_txns {A} (f : T -> T * result string A) : M RoundManager string A := fun self =>
  let '(t, r) := f (rm_txn_manager self) in
  (mkRoundManager (rm_epoch_state self) (rm_block_store self) (rm_round_state self) (rm_proposer_election self) (rm_author self) (rm_max_block_size self)
     (rm_last_round_generated self) (rm_safety_rules self) t (rm_clock self) (rm_ticks self) (rm_out self) (rm_timers self), r).
(** An operation of the round state, with the timers it starts. *)
Definition on_round {A} (f : RoundState -> RoundState * A * list (Z * Z)) : M RoundManager string A := fun self =>
  let '(rs, a, timers) := f (rm_round_state self) in
  (mkRoundManager (rm_epoch_state self) (rm_block_store self) rs (rm_proposer_election self) (rm_author self) (rm_max_block_size self)
     (rm_last_round_generated self) (rm_safety_rules self) (rm_txn_manager self) (rm_clock self) (rm_ticks self) (rm_out self) (rm_timers self ++ timers), Ok a).
Definition send (msg : OutMsg) : M RoundManager string unit := m_modify (fun self =>
  mkRoundManager (rm_epoch_state self) (rm_block_store self) (rm_round_state self) (rm_proposer_election self) (rm_author self) (rm_max_block_size self)
    (rm_last_round_generated self) (rm_safety_rules self) (rm_txn_manager self) (rm_clock self) (rm_ticks self) (rm_out self ++ [msg]) (rm_timers self)).
Definition set_last_round_generated (round : Z) : M RoundManager string unit := m_modify (fun self =>
  mkRoundManager (rm_epoch_state self) (rm_block_store self) (rm_round_state self) (rm_proposer_election self) (rm_author self) (rm_max_block_size self)
    round (rm_safety_rules self) (rm_txn_manager self) (rm_clock self) (rm_ticks self) (rm_out self) (rm_timers self)).
Definition get_current_timestamp : M RoundManager string Z := fun self =>
  (mkRoundManager (rm_epoch_state self) (rm_block_store self) (rm_round_state self) (rm_proposer_election self) (rm_author self) (rm_max_block_size self)
     (rm_last_round_generated self) (rm_safety_rules self) (rm_txn_manager self) (rm_clock self) (S (rm_ticks self)) (rm_out self) (rm_timers self),
   Ok (rm_clock self (rm_ticks self))).
(** The result of [m] as a value: [let result = m.await]. *)
Definition m_result {S E A} (m : M S E A) : M S E (result E A) := fun s =>
  match m s with (s', Panic) => (s', Panic) | (s', r) => (s', Ok r) end.

(** ** Proposals *)

Definition ensure_highest_quorum_cert (round : Z) : M RoundManager string QuorumCert :=
  let* hqc := on_store (from_tree bt_highest_quorum_cert) in
  run* m_ensure (bi_round (certified_block hqc) <? round) "Given round is lower than hqc round"%string in
  run* m_ensure (negb (qc_ends_epoch hqc)) "The epoch has already ended"%string in
  m_ret hqc.

Definition generate_nil_block (round : Z) : M RoundManager string Block :=
  let* hqc := ensure_highest_quorum_cert round in m_ret (block_new_nil round hqc).

Definition generate_reconfig_empty_suffix (round : Z) : M RoundManager string BlockData :=
  let* hqc := ensure_highest_quorum_cert round in
  let* author := m_gets rm_author in
  m_ret (block_data_new_proposal [] author round (bi_timestamp_usecs (certified_block hqc)) hqc).

(** [ProposalGenerator::generate_proposal]. *)
Definition generator_generate_proposal (round : Z) : M RoundManager string BlockData :=
  let* last_round_generated := m_gets rm_last_round_generated in
  run* (if last_round_generated <? round then set_last_round_generated round else m_err "Already proposed in the round"%string) in
  let* hqc := ensure_highest_quorum_cert round in
  if has_reconfiguration (certified_block hqc) then generate_reconfig_empty_suffix round
  else
    let* path := on_store (from_tree_try (fun t => bt_path_from_root t (bi_id (certified_block hqc)))) in
    let* pending_blocks := m_lift (ok_or path "HQC already pruned"%string) in
    let exclude_payload := omap (fun block => block_payload (eb_block block)) pending_blocks in
    let* block_timestamp := get_current_timestamp in
    let* max_block_size := m_gets rm_max_block_size in
    let* txns := on_txns (fun t => pull_txns t max_block_size exclude_payload) in
    let* author := m_gets rm_author in
    m_ret (block_data_new_proposal txns author round block_timestamp hqc).

(** [RoundManager::generate_proposal]. *)
Definition generate_proposal (new_round_event : NewRoundEvent) : M RoundManager string ProposalMsg :=
  let* proposal := generator_generate_proposal (nre_round new_round_event) in
  let* signed_proposal := on_rules (tsr_sign_proposal proposal) in
  let* sync_info := m_gets (fun self => bs_sync_info (rm_block_store self)) in
  m_ret (mkProposalMsg signed_proposal sync_info).

Definition process_new_round_event (new_round_event : NewRoundEvent) : M RoundManager string unit :=
  let* valid := m_reads (fun self => is_valid_proposer (rm_proposer_election self) (rm_author self) (nre_round new_round_event)) in
  if valid : bool then
    let* proposal_msg := generate_proposal new_round_event in
    send (OutProposal proposal_msg)
  else m_ret tt.

(** [RoundManager::process_certificates]. *)
Definition rm_process_certificates : M RoundManager string unit :=
  let* sync_info := m_gets (fun self => bs_sync_info (rm_block_store self)) in
  let* now := get_current_timestamp in
  let* event := on_round (fun rs => process_certificates rs sync_info now) in
  match event with Some new_round_event => process_new_round_event new_round_event | None => m_ret tt end.

(** ** Synchronization *)

Definition sync_up (sync_info : SyncInfo) (author : Author) (help_remote : bool) : M RoundManager string unit :=
  let* local_sync_info := m_gets (fun self => bs_sync_info (rm_block_store self)) in
  run* (if help_remote && has_newer_certificates local_sync_info sync_info then send (OutSyncInfo local_sync_info author) else m_ret tt) in
  if has_newer_certificates sync_info local_sync_info then
    let* epoch_state := m_gets rm_epoch_state in
    run* m_lift (sync_info_verify sync_info (es_verifier epoch_state)) in
    let* result := m_result (on_store (add_certs gen_range sync_info author)) in
    run* rm_process_certificates in
    m_lift result
  else m_ret tt.

Definition ensure_round_and_sync_up (message_round : Z) (sync_info : SyncInfo) (author : Author) (help_remote : bool) : M RoundManager string bool :=
  let* round := m_gets (fun self => current_round (rm_round_state self)) in
  if message_round <? round then m_ret false
  else
    run* sync_up sync_info author help_remote in
    let* round := m_gets (fun self => current_round (rm_round_state self)) in
    run* m_ensure (message_round =? round) "After sync, round doesn't match local"%string in
    m_ret true.

Definition process_sync_info_msg (sync_info : SyncInfo) (peer : Author) : M RoundManager string unit :=
  run* ensure_round_and_sync_up (u64_add (highest_round sync_info) 1) sync_info peer false in
  m_ret tt.

(** ** Voting *)

Definition execute_and_vote (proposed_block : Block) : M RoundManager string Vote :=
  let* executed_block := on_store (execute_and_insert_block proposed_block) in
  run* m_ignore (on_txns (fun t => notify t (eb_block executed_block) (eb_compute_result executed_block))) in
  let* sent := m_gets (fun self => vote_sent (rm_round_state self)) in
  run* m_ensure (match sent with None => true | Some _ => false end) "Already vote on this round"%string in
  let* vote := on_rules (tsr_construct_and_sign_vote (maybe_signed_vote_proposal executed_block)) in
  run* on_store (on_storage (fun p => save_vote p vote)) in
  m_ret vote.

Definition process_proposal (proposal : Block) : M RoundManager string unit :=
  let* valid := m_reads (fun self => is_valid_proposal (rm_proposer_election self) proposal) in
  run* (if valid : bool then m_ret tt
        else let* author := m_lift (expect (block_author proposal)) in m_err "Proposer is not a valid proposer for this round"%string) in
  let* deadline := m_gets (fun self => current_round_deadline (rm_round_state self)) in
  run* m_ensure (block_timestamp_usecs proposal <? deadline) "Waiting until proposal block timestamp would exceed the round duration"%string in
  let* vote := execute_and_vote proposal in
  let* recipients := m_reads (fun self => get_valid_proposer (rm_proposer_election self) (u64_add (block_round proposal) 1)) in
  run* on_round (fun rs => (record_vote rs vote, tt, [])) in
  let* sync_info := m_gets (fun self => bs_sync_info (rm_block_store self)) in
  send (OutVote (mkVoteMsg vote sync_info) [recipients]).

(** [proposal_msg.proposer()]. *)
Definition proposer (self : ProposalMsg) : result string Author := expect (block_author (pm_proposal self)).

Definition process_proposal_msg (proposal_msg : ProposalMsg) : M RoundManager string unit :=
  let* author := m_lift (proposer proposal_msg) in
  let* in_round := ensure_round_and_sync_up (block_round (pm_proposal proposal_msg)) (pm_sync_info proposal_msg) author true in
  if in_round : bool then process_proposal (pm_proposal proposal_msg) else m_err "Stale proposal"%string.

(** [RoundManager::process_local_timeout]; the time read is used in the current round only. *)
Definition rm_process_local_timeout (round : Z) : M RoundManager string unit :=
  let* now := get_current_timestamp in
  let* in_round := on_round (fun rs => process_local_timeout rs round now) in
  if negb in_round then m_ret tt
  else
    let* sent := m_gets (fun self => vote_sent (rm_round_state self)) in
    let* timeout_vote := match sent with
      | Some vote => if vote_round vote =? round then m_ret vote else let* nil_block := generate_nil_block round in execute_and_vote nil_block
      | None => let* nil_block := generate_nil_block round in execute_and_vote nil_block
      end in
    run* m_reads (fun self => get_valid_proposer (rm_proposer_election self) round) in
    let* timeout_vote :=
      (if negb (vote_is_timeout timeout_vote) then
         let* signature := on_rules (tsr_sign_timeout (vote_timeout timeout_vote)) in
         m_ret (add_timeout_signature timeout_vote signature)
       else m_ret timeout_vote) in
    run* on_round (fun rs => (record_vote rs timeout_vote, tt, [])) in
    let* sync_info := m_gets (fun self => bs_sync_info (rm_block_store self)) in
    send (OutVoteToAll (mkVoteMsg timeout_vote sync_info)).

(** ** Votes of others *)

Definition new_qc_aggregated (qc : QuorumCert) (preferred_peer : Author) : M RoundManager string unit :=
  let* result := m_result (on_store (bs_insert_quorum_cert gen_range qc preferred_peer)) in
  run* rm_process_certificates in
  m_lift result.
Definition new_tc_aggregated (tc : TimeoutCertificate) : M RoundManager string unit :=
  let* result := m_result (on_store (insert_timeout_certificate tc)) in
  run* rm_process_certificates in
  m_lift result.

Definition process_vote (vote : Vote) : M RoundManager string unit :=
  run* (if negb (vote_is_timeout vote) then
          let next_round := u64_add (vote_round vote) 1 in
          let* valid := m_reads (fun self => is_valid_proposer (rm_proposer_election self) (rm_author self) next_round) in
          m_ensure valid "I am not a valid proposer for round, ignore."%string
        else m_ret tt) in
  let block_id := bi_id (vd_proposed (vote_data vote)) in
  let* qc := on_store (from_tree (fun t => bt_get_quorum_cert_for_block t block_id)) in
  match qc with
  | Some _ => m_ret tt
  | None =>
    let* epoch_state := m_gets rm_epoch_state in
    let* r := on_round (fun rs => (rs_insert_vote rs vote (es_verifier epoch_state), [])) in
    match r with
    | NewQuorumCertificate qc => new_qc_aggregated qc (vote_author vote)
    | NewTimeoutCertificate tc => new_tc_aggregated tc
    | _ => m_ret tt
    end
  end.

Definition process_vote_msg (vote_msg : VoteMsg) : M RoundManager string unit :=
  let* in_round := ensure_round_and_sync_up (vote_round (vm_vote vote_msg)) (vm_sync_info vote_msg) (vote_author (vm_vote vote_msg)) true in
  if in_round : bool then process_vote (vm_vote vote_msg) else m_ret tt.

(** ** Serving blocks *)

(** The loop of [process_block_retrieval], which stops at a block that is not there. *)
Fixpoint collect_blocks (num_blocks : nat) (t : BlockTree) (id : HashValue) : list Block * BlockRetrievalStatus :=
  match num_blocks with
  | O => ([], Succeeded)
  | S num_blocks =>
    match bt_get_block t id with
    | Some executed_block =>
      let '(blocks, status) := collect_blocks num_blocks t (eb_parent_id executed_block) in (eb_block executed_block :: blocks, status)
    | None => ([], NotEnoughBlocks)
    end
  end.

Definition process_block_retrieval (self : RoundManager) (req : BlockRetrievalRequest) : BlockRetrievalResponse :=
  let '(blocks, status) := collect_blocks (Z.to_nat (brr_num_blocks req)) (bs_inner (rm_block_store self)) (brr_block_id req) in
  mkBlockRetrievalResponse (if is_nil blocks then IdNotFound else status) blocks.

(** ** Starting *)

(** [RoundManager::start]. *)
Definition rm_start (last_vote_sent : option Vote) : M RoundManager string unit :=
  let* sync_info := m_gets (fun self => bs_sync_info (rm_block_store self)) in
  let* now := get_current_timestamp in
  let* event := on_round (fun rs => process_certificates rs sync_info now) in
  let* new_round_event := m_lift (expect event) in
  run* (match last_vote_sent with Some vote => on_round (fun rs => (record_vote rs vote, tt, [])) | None => m_ret tt end) in
  m_ignore (process_new_round_event new_round_event).

(** ** Recovering from peers *)

(** [RecoveryManager]: when the blocks cannot be recovered from the storage, the first
    certificates that come in are used to fetch them. *)
Record RecoveryManager := mkRecoveryManager { rec_epoch_state : EpochState; rec_last_committed_round : Z; rec_others : C * P * N }.

Definition recovery_sync_up (sync_info : SyncInfo) (peer : Author) : M RecoveryManager string RecoveryData := fun self =>
  match (_ ← sync_info_verify sync_info (es_verifier (rec_epoch_state self));
         _ ← ensure (rec_last_committed_round self <? highest_round sync_info) "Received sync info has lower round number than committed block"%string;
         ensure (si_epoch sync_info =? es_epoch (rec_epoch_state self)) "Received sync info is in different epoch than committed block"%string) with
  | Ok _ =>
    let '(others, r) := fast_forward_sync gen_range (highest_commit_cert sync_info) peer (rec_others self) in
    (mkRecoveryManager (rec_epoch_state self) (rec_last_committed_round self) others, r)
  | Err e => (self, Err e)
  | Panic => (self, Panic)
  end.
Definition recovery_process_proposal_msg (proposal_msg : ProposalMsg) : M RecoveryManager string RecoveryData :=
  let* author := m_lift (proposer proposal_msg) in
  recovery_sync_up (pm_sync_info proposal_msg) author.
Definition recovery_process_vote_msg (vote_msg : VoteMsg) : M RecoveryManager string RecoveryData :=
  recovery_sync_up (vm_sync_info vote_msg) (vote_author (vm_vote vote_msg)).
End RoundManager.
