(* ===== verification/RoundManagerProof.v ===== *)
(** * What the round manager sends

    Whatever messages and timeouts come in, a validator proposes at most once per round and
    its votes of a round are one vote, up to the timeout signature that it adds.  This does
    not rely on the safety rules beyond the round of the votes they sign: it is the check
    of [vote_sent] that keeps the validator from voting twice. *)

From S2P Require Import Prelude U64 Crypto ValidatorVerifier LedgerInfo Accumulator AccumulatorProof ConsensusTypes.
From S2P Require Import PendingVotes ProposerElection RoundState BlockTree BlockTreeProof ConsensusDb LedgerStore Recovery BlockStore SecureStorage SafetyRules RoundManager.

Lemma preserves_result {S E A} (I : S -> Prop) (m : M S E A) : preserves I m -> preserves I (m_result m).
Proof. intros Hm s Hs. specialize (Hm s Hs). unfold m_result. by destruct (m s) as [s' [a|e|]]. Qed.
#[export] Hint Resolve preserves_result : preserves.

(** ** The blocks of the store *)

Section Store.
Context `{Crypto} `{HC : !Countable HashValue, !HashSetOrder HashValue}.
Context `{!CryptoHash LedgerInfo, !CryptoHash VoteData, !CryptoHash BlockData}.
Context {C P N : Type} `{!StateComputer C, !PersistentLivenessStorage P, !NetworkSender N}.
Variable gen_range : Z -> nat -> nat.

(** Blocks that come from a peer or from the storage are deserialized, which computes their
    identifiers. *)
Hypothesis Hnet : forall (n : N) from req timeout n' resp, send_rpc n from req timeout = (n', Ok (Some resp)) -> Forall block_hashed (brs_blocks resp).
Hypothesis Hstart : forall (p : P) p' rd, start p = Ok (p', RecoveryDataFound rd) -> block_hashed (ri_block (rd_root rd)) /\ Forall block_hashed (rd_blocks rd).

Definition hashed_tree (t : BlockTree) : Prop := forall i lb, id_to_block t !! i = Some lb -> lb_id lb = i /\ block_hashed (eb_block (lb_executed_block lb)).
Definition hashed_store (s : BlockStore (C:=C) (P:=P) (N:=N)) : Prop := hashed_tree (bs_inner s).

Lemma insert_block_hashed t b t' b' : hashed_tree t -> block_hashed (eb_block b) -> insert_block t b = Ok (t', b') -> hashed_tree t' /\ eb_id b' = eb_id b /\ block_hashed (eb_block b').
Proof.
  intros Ht Hb E. unfold insert_block, bt_get_block, get_linkable_block in E. destruct (id_to_block t !! eb_id b) as [lb|] eqn:Eb; cbn [fmap option_fmap option_map] in E.
  - res_inv. destruct (Ht _ _ Eb). by split_and!.
  - destruct (id_to_block t !! eb_parent_id b) as [lp|] eqn:Ep; [|done]. unfold add_child in E. res_inv. split_and!; [|done|done].
    intros i lb. cbn. intros [[<- <-]|[_ [[<- <-]|[_ Hi]]%lookup_insert_Some]]%lookup_insert_Some; [done|by apply (Ht _ _ Ep)|by apply Ht].
Qed.

Lemma insert_quorum_cert_blocks t qc t' : bt_insert_quorum_cert t qc = Ok t' -> id_to_block t' = id_to_block t.
Proof. intros E. unfold bt_insert_quorum_cert in E. destruct (bt_get_block t _); [|done]. by res_inv. Qed.

Lemma remove_blocks_subset l : forall t i lb, id_to_block (foldl remove_block t l) !! i = Some lb -> id_to_block t !! i = Some lb.
Proof. induction l as [|x l IH]; intros t i lb Hi; [done|]. apply IH in Hi. cbn in Hi. by apply lookup_delete_Some in Hi as [_ ?]. Qed.

Lemma process_pruned_blocks_hashed t next ids t' : hashed_tree t -> process_pruned_blocks t next ids = Ok t' -> hashed_tree t'.
Proof. intros Ht E i lb Hi. unfold process_pruned_blocks in E. res_inv. apply remove_blocks_subset in Hi. by apply Ht. Qed.

Lemma on_tree_preserves {A} (f : BlockTree -> result string (BlockTree * A)) : (forall t t' a, hashed_tree t -> f t = Ok (t', a) -> hashed_tree t') -> preserves hashed_store (on_tree f).
Proof. intros Hf s Hs. unfold on_tree. destruct (f (bs_inner s)) as [[t a]|e|] eqn:E; [|done..]. by eapply Hf. Qed.
Lemma on_computer_preserves {E A} (f : C -> C * result E A) : preserves hashed_store (on_computer f).
Proof. intros s Hs. unfold on_computer. by destruct (f (bs_computer s)) as [c [a|e|]]. Qed.
Lemma on_storage_preserves f : preserves hashed_store (on_storage f).
Proof. intros s Hs. unfold on_storage. by destruct (f (bs_storage s)). Qed.
Lemma on_network_preserves {A} (f : M N string A) : preserves hashed_store (on_network f).
Proof. intros s Hs. unfold on_network. by destruct (f (bs_network s)) as [n [a|e|]]. Qed.
Lemma from_tree_preserves {A} (f : BlockTree -> A) : preserves hashed_store (from_tree f).
Proof. apply preserves_gets. Qed.
Lemma from_tree_try_preserves {A} (f : BlockTree -> result string A) : preserves hashed_store (from_tree_try f).
Proof. apply preserves_reads. Qed.
#[local] Hint Resolve on_computer_preserves on_storage_preserves on_network_preserves from_tree_preserves from_tree_try_preserves : preserves.

Lemma execute_block_preserves b : preserves hashed_store (execute_block b).
Proof. unfold execute_block. preserve. Qed.
#[local] Hint Resolve execute_block_preserves : preserves.

Lemma execute_or_recover_preserves b : triple hashed_store (execute_or_recover b) (fun eb s => hashed_store s /\ eb_block eb = b) hashed_store.
Proof.
  assert (He : forall s, hashed_store s -> match execute_block b s with (s', Ok eb) => hashed_store s' /\ eb_block eb = b | (s', _) => hashed_store s' end).
  { intros s Hs. unfold execute_block, on_computer, m_bind. by destruct (compute _ b _) as [c [r|e|]]. }
  intros s Hs. unfold execute_or_recover. specialize (He s Hs) as H1. destruct (execute_block b s) as [s1 [eb|[parent|e|e]|]]; cbn [map_err]; try done.
  revert s1 H1. eapply triple_bind; [apply from_tree_try_preserves|]. intros path. eapply triple_bind with (Q := fun _ => hashed_store); [|intros []; apply triple_map_err; exact He].
  apply preserves_for_each. intros x _. preserve.
Qed.

(** The block that is returned has the round of the block that was to be inserted. *)
Hypothesis Hbind : forall d1 d2 : BlockData, crypto_hash d1 = crypto_hash d2 -> bd_round d1 = bd_round d2.

Lemma execute_and_insert_block_preserves b : block_hashed b ->
  triple hashed_store (execute_and_insert_block b) (fun eb s => hashed_store s /\ block_round (eb_block eb) = block_round b) hashed_store.
Proof.
  intros Hb. assert (Hround : forall eb, eb_id eb = block_id b -> block_hashed (eb_block eb) -> block_round (eb_block eb) = block_round b).
  { intros eb Ei He. apply Hbind. by rewrite <- He, <- Hb. }
  unfold execute_and_insert_block. eapply triple_bind with (Q := fun existing s => hashed_store s /\ existing = bt_get_block (bs_inner s) (block_id b)); [by intros s Hs|].
  intros [eb|].
  - apply triple_ret. intros s [Hs E]. split; [done|]. symmetry in E. apply fmap_Some in E as (lb & Hl & ->). destruct (Hs _ _ Hl). by apply Hround.
  - eapply triple_conseq with (P := hashed_store) (R := hashed_store); [|by intros s []|intros a s Ha; exact Ha|done].
    eapply triple_bind; [apply from_tree_try_preserves|]. intros root. eapply triple_bind; [apply preserves_ensure|]. intros [].
    eapply triple_bind; [apply execute_or_recover_preserves|]. intros eb s [Hs Eb].
    pose proof (on_storage_preserves (fun p => save_tree p [eb_block eb] []) s Hs) as Hst. unfold m_bind. destruct (on_storage _ s) as [s1 [u|e|]]; [|done..].
    unfold on_tree. destruct (insert_block (bs_inner s1) eb) as [[t eb']|e|] eqn:Ei; [|done..].
    destruct (insert_block_hashed _ _ _ _ Hst ltac:(by rewrite Eb) Ei) as (Ht & E' & Hh). split; [exact Ht|]. apply Hround; [|done]. rewrite E'. unfold eb_id. by rewrite Eb.
Qed.
Lemma insert_block_preserves b : block_hashed b -> preserves hashed_store (execute_and_insert_block b).
Proof. intros Hb. eapply triple_conseq; [by apply execute_and_insert_block_preserves|done| |done]. by intros eb s []. Qed.
#[local] Hint Resolve insert_block_preserves : preserves.

Lemma insert_single_quorum_cert_preserves qc : preserves hashed_store (insert_single_quorum_cert qc).
Proof.
  unfold insert_single_quorum_cert. preserve. apply on_tree_preserves. intros t t' [] Ht E. res_inv. intros i lb Hi. erewrite insert_quorum_cert_blocks in Hi by eassumption. by apply Ht.
Qed.
Lemma insert_timeout_certificate_preserves tc : preserves hashed_store (insert_timeout_certificate tc).
Proof. unfold insert_timeout_certificate. preserve. apply on_tree_preserves. intros t t' [] Ht E. by res_inv. Qed.
Lemma bs_prune_tree_preserves next : preserves hashed_store (bs_prune_tree next).
Proof. unfold bs_prune_tree. preserve. apply on_tree_preserves. intros t t' [] Ht E. res_inv. by eapply process_pruned_blocks_hashed. Qed.
#[local] Hint Resolve insert_single_quorum_cert_preserves insert_timeout_certificate_preserves bs_prune_tree_preserves : preserves.
Lemma bs_commit_preserves li : preserves hashed_store (bs_commit li).
Proof. unfold bs_commit. preserve. Qed.
#[local] Hint Resolve bs_commit_preserves : preserves.

Lemma build_hashed root metadata blocks qcs tc c p n max_pruned s : block_hashed (ri_block root) -> Forall block_hashed blocks ->
  build root metadata blocks qcs tc c p n max_pruned = Ok s -> hashed_store s.
Proof.
  intros Hr Hb E. destruct root as [root_block root_qc root_li]. unfold build in E. res_inv. rename x1 into t0.
  assert (Ht0 : hashed_tree t0).
  { match goal with Hn : block_tree_new _ _ _ _ _ = Ok t0 |- _ => unfold block_tree_new in Hn; res_inv end. intros i lb. cbn. by intros [<- <-]%lookup_singleton_Some. }
  assert (Htr : preserves hashed_store (run* m_for_each (fun block => run* m_expect (E':=string) (execute_and_insert_block block) in m_ret tt) blocks in
     m_for_each (fun qc => m_expect (E':=string) (insert_single_quorum_cert qc)) qcs)).
  { apply preserves_bind; [|intros []]; apply preserves_for_each; [|intros; preserve]. intros b Hin. rewrite list.Forall_forall in Hb. specialize (Hb b Hin). preserve. }
  specialize (Htr (mkBlockStore t0 c p n) Ht0). destruct (m_bind _ _ _) as [s1 r]. by res_inv.
Qed.

Lemma rebuild_preserves root metadata blocks qcs : block_hashed (ri_block root) -> Forall block_hashed blocks -> preserves hashed_store (rebuild root metadata blocks qcs).
Proof.
  intros Hr Hb s Hs. unfold rebuild. destruct (build _ _ _ _ _ _ _ _ _) as [new|e|] eqn:E; [|done..]. apply build_hashed in E; [|done..].
  revert new E. change (preserves hashed_store (run* m_ignore (on_storage (fun p => pls_prune_tree p (get_all_block_id (bs_inner s)))) in
     let* highest_commit_cert := from_tree bt_highest_commit_cert in
     let* root := from_tree_try bt_root in
     if eb_round root <? bi_round (qc_commit_info highest_commit_cert)
     then m_ignore (E':=string) (bs_commit (qc_signed_ledger_info highest_commit_cert))
     else m_ret tt)). preserve.
Qed.

(** Blocks from peers. *)
Lemma request_block_hashed req from timeout n n' resp : request_block req from timeout n = (n', Ok resp) -> Forall block_hashed (brs_blocks resp).
Proof.
  unfold request_block, m_bind, m_ensure, m_lift, ensure. destruct (negb _); [|done]. destruct (send_rpc _ _ _ _) as [n1 [[r|]|e|]] eqn:E; cbn; try done.
  destruct (response_verify _ _ _ _); cbn; try done. intros [= _ <-]. by eapply Hnet.
Qed.
Lemma retrieve_loop_hashed fuel : forall preferred id num_blocks peers attempt n n' blocks,
  retrieve_loop gen_range fuel preferred id num_blocks peers attempt n = (n', Ok blocks) -> Forall block_hashed blocks.
Proof.
  induction fuel as [|fuel IH]; intros preferred id num_blocks peers attempt n n' blocks E; cbn [retrieve_loop] in E; (destruct (is_nil peers); [done|]); [done|].
  unfold m_bind, m_lift in E. destruct (pick_peer _ _ _ _) as [picked|e|]; [|done..]. destruct (retrieval_timeout _) as [timeout|e|]; [|done..].
  destruct (request_block _ _ _ n) as [n1 [resp|e|]] eqn:Er; [|by eauto|done]. destruct (bool_decide _); [|by eauto]. injection E as <- <-. by eapply request_block_hashed.
Qed.
Lemma retrieve_preserves preferred qc num_blocks :
  triple hashed_store (on_network (retrieve_block_for_qc gen_range preferred qc num_blocks)) (fun blocks s => Forall block_hashed blocks /\ hashed_store s) hashed_store.
Proof.
  intros s Hs. unfold on_network. destruct (retrieve_block_for_qc _ _ _ _ _) as [n [blocks|e|]] eqn:E; [|done..]. split; [|done]. by eapply retrieve_loop_hashed.
Qed.

Lemma fetch_quorum_cert_preserves qc preferred : preserves hashed_store (fetch_quorum_cert gen_range qc preferred).
Proof.
  unfold fetch_quorum_cert. eapply triple_bind with (Q := fun pending s => Forall block_hashed pending /\ hashed_store s).
  - eapply triple_conseq with (P := fun s => Forall block_hashed (qc, []).2 /\ hashed_store s); [|intros s Hs; exact (conj (Forall_nil_2 _) Hs)|intros a s Ha; exact Ha|intros s Hs; exact Hs].
    apply (triple_loop (fun x s => Forall block_hashed x.2 /\ hashed_store s)); [|by intros x s []]. intros [q pending]. unfold fetch_body. apply triple_pure. intros Hp.
    eapply triple_bind; [apply from_tree_preserves|]. intros [|]; [by apply triple_ret|]. eapply triple_bind; [apply retrieve_preserves|]. intros blocks. apply triple_pure. intros Hb.
    destruct blocks as [|b blocks]; [by apply triple_lift|]. apply list.Forall_cons in Hb as [Hb _]. intros s Hs. exact (conj (Forall_cons_2 _ _ _ Hb Hp) Hs).
  - intros pending. apply triple_pure. intros Hp. apply preserves_bind; [|intros []; preserve]. apply preserves_for_each. intros b Hb. rewrite list.Forall_forall in Hp. specialize (Hp b Hb). preserve.
Qed.
#[local] Hint Resolve fetch_quorum_cert_preserves : preserves.

Lemma bs_insert_quorum_cert_preserves qc preferred : preserves hashed_store (bs_insert_quorum_cert gen_range qc preferred).
Proof. unfold bs_insert_quorum_cert, need_fetch_for_quorum_cert. preserve. Qed.

Lemma fast_forward_sync_hashed qc preferred parts parts' rd : fast_forward_sync gen_range qc preferred parts = (parts', Ok rd) ->
  block_hashed (ri_block (rd_root rd)) /\ Forall block_hashed (rd_blocks rd).
Proof.
  destruct parts as [[c p] n]. unfold fast_forward_sync. intros E. repeat case_match; try done. injection E as _ E.
  match goal with Hs : start _ = Ok (_, ?data) |- _ => destruct data; [|done]; injection E as ->; by eapply Hstart end.
Qed.

Lemma fast_forward_sync_preserves qc preferred : triple hashed_store (on_others (fast_forward_sync gen_range qc preferred))
  (fun rd s => (block_hashed (ri_block (rd_root rd)) /\ Forall block_hashed (rd_blocks rd)) /\ hashed_store s) hashed_store.
Proof.
  intros s Hs. unfold on_others. destruct (fast_forward_sync _ _ _ _) as [[[c p] n] [rd|e|]] eqn:E; [|done..]. split; [|done]. by eapply fast_forward_sync_hashed.
Qed.

Lemma sync_to_highest_commit_cert_preserves qc preferred : preserves hashed_store (sync_to_highest_commit_cert gen_range qc preferred).
Proof.
  unfold sync_to_highest_commit_cert, need_sync_for_quorum_cert. apply preserves_bind; [preserve|]. intros [|]; cbn [negb]; [|preserve].
  eapply triple_bind; [apply fast_forward_sync_preserves|]. intros rd. apply triple_pure. intros [Hr Hb]. apply preserves_bind; [by apply rebuild_preserves|]. intros []. preserve.
Qed.

Lemma add_certs_preserves si preferred : preserves hashed_store (add_certs gen_range si preferred).
Proof. unfold add_certs. repeat (apply preserves_bind; [first [apply sync_to_highest_commit_cert_preserves|apply bs_insert_quorum_cert_preserves]|intros []]). preserve. Qed.
End Store.

(** ** The safety rules behind the trait *)

(** A vote is of the round of its block, a signed proposal is the data that was given. *)
Class TSafetyRulesLaws `{Crypto} (R : Type) `{!TSafetyRules R} : Prop := {
  vote_of_block : forall p (r r' : R) v, tsr_construct_and_sign_vote p r = (r', Ok v) -> vote_round v = block_round (vp_block (msvp_vote_proposal p));
  signed_block : forall bd (r r' : R) b, tsr_sign_proposal bd r = (r', Ok b) -> block_data b = bd
}.

Section LocalClient.
Context `{Crypto} {S : Type} `{!KVStorage S} `{!HexText}.
Context `{!CryptoHash LedgerInfo, !CryptoHash Ledger2WaypointConverter, !CryptoHash VoteData, !CryptoHash BlockData, !CryptoHash VoteProposal, !CryptoHash Timeout}.
Context (hash_internal : HashValue -> HashValue -> HashValue) (ACCUMULATOR_PLACEHOLDER_HASH : HashValue).
Context `{!SafetyCodec}.

(** [LocalClient], which calls the safety rules of its process. *)
#[export] Instance local_client : TSafetyRules (SafetyRules (S:=S)) := {|
  tsr_construct_and_sign_vote := construct_and_sign_vote hash_internal ACCUMULATOR_PLACEHOLDER_HASH;
  tsr_sign_proposal := sign_proposal;
  tsr_sign_timeout := sign_timeout
|}.

Lemma sign_new_vote_Ok vp (s s' : SafetyRules (S:=S)) v : sign_new_vote hash_internal ACCUMULATOR_PLACEHOLDER_HASH vp s = (s', Ok v) -> vote_round v = block_round (vp_block vp).
Proof.
  unfold sign_new_vote. intros E. apply m_bind_Ok in E as (s1 & [] & _ & E). apply m_bind_Ok in E as (s2 & vd & Ev & E). injection Ev as <- Ev.
  repeat (apply m_bind_Ok in E as (? & ? & _ & E)). injection E as _ <-. unfold extension_check in Ev. by res_inv.
Qed.

#[export] Instance local_client_laws : TSafetyRulesLaws (SafetyRules (S:=S)).
Proof.
  split.
  - intros p r r' v E. cbv beta zeta iota delta [tsr_construct_and_sign_vote local_client construct_and_sign_vote] in E. repeat (apply m_bind_Ok in E as (? & ? & _ & E)).
    repeat case_match; try by eapply sign_new_vote_Ok. apply m_bind_Ok in E as (? & ? & _ & E). injection E as _ <-. by apply Z.eqb_eq.
  - intros bd r r' b E. cbv [tsr_sign_proposal local_client sign_proposal] in E. repeat (apply m_bind_Ok in E as (? & ? & _ & E)). by injection E as _ <-.
Qed.
End LocalClient.

(** ** What has been sent *)

Section Sent.
Context `{Crypto} `{HC : !Countable HashValue} `{!CryptoHash LedgerInfo, !CryptoHash VoteData, !CryptoHash BlockData}.

Definition sent_vote (m : OutMsg) : option Vote :=
  match m with OutVote msg _ | OutVoteToAll msg => Some (vm_vote msg) | _ => None end.
Definition sent_proposal (m : OutMsg) : option Block :=
  match m with OutProposal msg => Some (pm_proposal msg) | _ => None end.
Definition votes_of (out : list OutMsg) : list Vote := omap sent_vote out.
Definition proposals_of (out : list OutMsg) : list Block := omap sent_proposal out.

(** A vote without its timeout signature. *)
Definition vote_core (v : Vote) : VoteData * Author * LedgerInfo * Signature := (vote_data v, vote_author v, vote_ledger_info v, vote_signature v).

Lemma vote_core_round v w : vote_core v = vote_core w -> vote_round v = vote_round w.
Proof. unfold vote_core, vote_round. congruence. Qed.
Lemma add_timeout_signature_core v sig : vote_core (add_timeout_signature v sig) = vote_core v.
Proof. unfold add_timeout_signature. by destruct (vote_timeout_signature v). Qed.

Record sends_ok (rs : RoundState) (last : Z) (out : list OutMsg) : Prop := {
  so_sent : forall v, vote_sent rs = Some v -> vote_round v = current_round rs;
  so_past : forall v, v ∈ votes_of out -> vote_round v < current_round rs \/ (vote_round v = current_round rs /\ exists w, vote_sent rs = Some w /\ vote_core w = vote_core v);
  so_one : forall v w, v ∈ votes_of out -> w ∈ votes_of out -> vote_round v = vote_round w -> vote_core v = vote_core w;
  so_votes : Sorted.StronglySorted Z.le (map vote_round (votes_of out));
  so_proposals : Sorted.StronglySorted Z.lt (map block_round (proposals_of out));
  so_last : forall b, b ∈ proposals_of out -> block_round b <= last
}.

(** A round was reserved for a proposal. *)
Definition fresh (round : Z) (rs : RoundState) (last : Z) (out : list OutMsg) : Prop :=
  sends_ok rs last out /\ last = round /\ forall b, b ∈ proposals_of out -> block_round b < round.
(** A vote of the current round that agrees with the votes sent, and one that is noted too. *)
Definition votable (v : Vote) (rs : RoundState) (last : Z) (out : list OutMsg) : Prop :=
  sends_ok rs last out /\ vote_round v = current_round rs /\ forall w, vote_sent rs = Some w -> vote_core w = vote_core v.
Definition voted (v : Vote) (rs : RoundState) (last : Z) (out : list OutMsg) : Prop := sends_ok rs last out /\ vote_sent rs = Some v.

Lemma sorted_snoc (R : Z -> Z -> Prop) l x : Sorted.StronglySorted R l -> Forall (fun y => R y x) l -> Sorted.StronglySorted R (l ++ [x]).
Proof.
  induction 1 as [|y l Hl IH Hy]; intros Hx; cbn; [repeat constructor|]. apply list.Forall_cons in Hx as [Hxy Hx]. constructor; [by apply IH|].
  apply Forall_app. split; [done|]. by constructor.
Qed.

(** The round state matters for its round and for the vote sent only. *)
Lemma sends_ok_same rs rs' last out : current_round rs' = current_round rs -> vote_sent rs' = vote_sent rs -> sends_ok rs last out -> sends_ok rs' last out.
Proof. intros Er Ev [H1 H2 H3 H4 H5 H6]. split; rewrite ?Er, ?Ev; done. Qed.

Lemma sends_ok_certificates rs si now last out : sends_ok rs last out -> let '(rs', event, _) := process_certificates rs si now in
  sends_ok rs' last out /\ (event = None \/ vote_sent rs' = None).
Proof.
  intros Hok. unfold process_certificates, setup_timeout, setup_deadline. cbn. destruct (Z.ltb_spec (current_round rs) (u64_add (highest_round si) 1)); cbn.
  - split; [|by right]. destruct Hok as [H1 H2 H3 H4 H5 H6]. split; cbn; try done. intros v Hv. left. destruct (H2 v Hv) as [|[? _]]; lia.
  - split; [|by left]. by apply (sends_ok_same rs).
Qed.

Lemma sends_ok_reserve rs last out round : last < round -> sends_ok rs last out -> fresh round rs round out.
Proof.
  intros Hr [H1 H2 H3 H4 H5 H6]. split_and!; [|done|]; [split; try done|]; intros b Hb; specialize (H6 b Hb); lia.
Qed.

Lemma fresh_send rs last out round msg : fresh round rs last out -> block_round (pm_proposal msg) = round -> sends_ok rs last (out ++ [OutProposal msg]).
Proof.
  intros ([H1 H2 H3 H4 H5 H6] & -> & Hf) Er.
  split; unfold votes_of, proposals_of in *; rewrite ?omap_app, ?map_app; cbn [omap list_omap sent_vote sent_proposal map]; rewrite ?app_nil_r; try done.
  - apply sorted_snoc; [done|]. rewrite List.Forall_map, Er. apply list.Forall_forall. intros b Hb. by apply Hf.
  - intros b [Hb| ->%list_elem_of_singleton]%elem_of_app; [by apply H6|lia].
Qed.

Lemma sync_info_send rs last out si peer : sends_ok rs last out -> sends_ok rs last (out ++ [OutSyncInfo si peer]).
Proof.
  intros [H1 H2 H3 H4 H5 H6]. split; unfold votes_of, proposals_of in *; rewrite ?omap_app, ?map_app; cbn [omap list_omap sent_vote sent_proposal map]; by rewrite ?app_nil_r.
Qed.

Lemma votable_record v rs last out : votable v rs last out -> voted v (record_vote rs v) last out.
Proof.
  intros ([H1 H2 H3 H4 H5 H6] & Er & Ev). unfold record_vote. fold (vote_round v). rewrite Er, Z.eqb_refl. split; [|done]. split; cbn; try done.
  - by intros w [= <-].
  - intros w Hw. destruct (H2 w Hw) as [?|(? & w' & Hw' & Ec)]; [by left|]. right. split; [done|]. exists v. split; [done|]. by rewrite <- (Ev w' Hw').
Qed.
Lemma sends_ok_record v rs last out : vote_sent rs = None -> sends_ok rs last out -> sends_ok (record_vote rs v) last out.
Proof.
  intros Ev Hok. unfold record_vote. destruct (Z.eqb_spec (bi_round (vd_proposed (vote_data v))) (current_round rs)) as [Er|_]; [|done].
  assert (Hv : votable v rs last out) by (split_and!; [done|done|by rewrite Ev]). apply votable_record in Hv as [Hv _]. unfold record_vote in Hv. by rewrite Er, Z.eqb_refl in Hv.
Qed.

Lemma voted_send v rs last out msg : voted v rs last out -> sent_vote msg = Some v -> sends_ok rs last (out ++ [msg]).
Proof.
  intros ([H1 H2 H3 H4 H5 H6] & Ev) Em. assert (Hp : sent_proposal msg = None) by (by destruct msg).
  assert (Hv : votes_of (out ++ [msg]) = votes_of out ++ [v]) by (unfold votes_of; rewrite omap_app; cbn; by rewrite Em).
  assert (Hb : proposals_of (out ++ [msg]) = proposals_of out) by (unfold proposals_of; rewrite omap_app; cbn; by rewrite Hp, app_nil_r).
  assert (Hone : forall w, w ∈ votes_of out -> vote_round w = vote_round v -> vote_core w = vote_core v).
  { intros w Hw E. rewrite (H1 v Ev) in E. destruct (H2 w Hw) as [?|(_ & w' & Hw' & <-)]; [lia|]. congruence. }
  split; rewrite ?Hv, ?Hb; try done.
  - intros w [Hw| ->%list_elem_of_singleton]%elem_of_app; [by apply H2|]. right. split; [by apply H1|]. by exists v.
  - intros w1 w2 [Hw1| ->%list_elem_of_singleton]%elem_of_app [Hw2| ->%list_elem_of_singleton]%elem_of_app E; [by apply H3|by apply Hone|symmetry; by apply Hone|done].
  - rewrite map_app. apply sorted_snoc; [done|]. rewrite List.Forall_map, (H1 v Ev). apply list.Forall_forall. intros w Hw. destruct (H2 w Hw) as [?|[? _]]; lia.
Qed.
End Sent.

(** ** The handlers *)

Section Handlers.
Context `{Crypto} `{HC : !Countable HashValue, !HashSetOrder HashValue}.
Context `{!CryptoHash LedgerInfo, !CryptoHash VoteData, !CryptoHash BlockData, !CryptoHash Timeout}.
Context {C P N T R L : Type} `{!StateComputer C, !PersistentLivenessStorage P, !NetworkSender N, !TxnManager T, !TSafetyRules R, !ProposerElection L}.
Context `{!TSafetyRulesLaws R}.
Variable gen_range : Z -> nat -> nat.

Hypothesis Hnet : forall (n : N) from req timeout n' resp, send_rpc n from req timeout = (n', Ok (Some resp)) -> Forall block_hashed (brs_blocks resp).
Hypothesis Hstart : forall (p : P) p' rd, start p = Ok (p', RecoveryDataFound rd) -> block_hashed (ri_block (rd_root rd)) /\ Forall block_hashed (rd_blocks rd).
Hypothesis Hbind : forall d1 d2 : BlockData, crypto_hash d1 = crypto_hash d2 -> bd_round d1 = bd_round d2.

Notation manager := (RoundManager (C:=C) (P:=P) (N:=N) (T:=T) (R:=R) (L:=L)).

(** The identifiers of the store are right, and [Φ] holds of what the handlers remember. *)
Definition state_ok (Φ : RoundState -> Z -> list OutMsg -> Prop) (s : manager) : Prop :=
  hashed_store (rm_block_store s) /\ Φ (rm_round_state s) (rm_last_round_generated s) (rm_out s).

Lemma state_ok_impl (Φ Ψ : RoundState -> Z -> list OutMsg -> Prop) s : (forall rs last out, Φ rs last out -> Ψ rs last out) -> state_ok Φ s -> state_ok Ψ s.
Proof. intros Hi [Hs Hf]. split; [done|by apply Hi]. Qed.

(** Operations on the other parts. *)
Lemma on_store_post {A} Φ (f : M BlockStore string A) Q R' : triple hashed_store f (fun a s => Q a /\ hashed_store s) hashed_store ->
  (forall rs last out, Φ rs last out -> R' rs last out) ->
  triple (state_ok Φ) (on_store (T:=T) (R:=R) (L:=L) f) (fun a s => Q a /\ state_ok Φ s) (state_ok R').
Proof.
  intros Hf Hi s [Hs HΦ]. specialize (Hf _ Hs). unfold on_store. destruct (f (rm_block_store s)) as [bs [a|e|]]; [|by split; auto..]. destruct Hf. split; [done|by split].
Qed.
Lemma on_store_preserves {A} Φ (f : M BlockStore string A) : preserves hashed_store f -> preserves (state_ok Φ) (on_store f).
Proof. intros Hf s [Hs HΦ]. specialize (Hf _ Hs). unfold on_store. by destruct (f (rm_block_store s)) as [bs [a|e|]]; split. Qed.
Lemma on_rules_preserves {A} Φ (f : M R Error A) : preserves (state_ok Φ) (on_rules f).
Proof. intros s [Hs HΦ]. unfold on_rules. by destruct (f (rm_safety_rules s)) as [r [a|e|]]; split. Qed.
Lemma on_txns_preserves {A} Φ (f : T -> T * result string A) : preserves (state_ok Φ) (on_txns f).
Proof. intros s [Hs HΦ]. unfold on_txns. by destruct (f (rm_txn_manager s)) as [t [a|e|]]; split. Qed.
Lemma get_current_timestamp_preserves Φ : preserves (state_ok Φ) get_current_timestamp.
Proof. by intros s [Hs HΦ]. Qed.
Lemma from_store_preserves {A} Φ (f : BlockTree -> A) : preserves (state_ok Φ) (on_store (from_tree f)).
Proof. apply on_store_preserves, from_tree_preserves. Qed.
Lemma from_store_try_preserves {A} Φ (f : BlockTree -> result string A) : preserves (state_ok Φ) (on_store (from_tree_try f)).
Proof. apply on_store_preserves, from_tree_try_preserves. Qed.
#[local] Hint Resolve on_rules_preserves on_txns_preserves get_current_timestamp_preserves from_store_preserves from_store_try_preserves : preserves.

(** Operations on the round state and messages. *)
Lemma on_round_triple {A} (Φ : RoundState -> Z -> list OutMsg -> Prop) Q R' (f : RoundState -> RoundState * A * list (Z * Z)) :
  (forall rs last out, Φ rs last out -> Q (f rs).1.2 (f rs).1.1 last out) ->
  triple (state_ok Φ) (on_round f) (fun a => state_ok (Q a)) R'.
Proof. intros Hf s [Hs HΦ]. unfold on_round. specialize (Hf _ _ _ HΦ). destruct (f (rm_round_state s)) as [[rs a] ts]. by split. Qed.
Lemma send_triple (Φ Q : RoundState -> Z -> list OutMsg -> Prop) R' msg : (forall rs last out, Φ rs last out -> Q rs last (out ++ [msg])) ->
  triple (state_ok Φ) (send msg) (fun _ => state_ok Q) R'.
Proof. intros Hf. apply triple_modify. intros s [Hs HΦ]. split; [done|by apply Hf]. Qed.

Lemma ensure_highest_quorum_cert_preserves Φ round : preserves (state_ok Φ) (ensure_highest_quorum_cert round).
Proof. unfold ensure_highest_quorum_cert. preserve. Qed.
#[local] Hint Resolve ensure_highest_quorum_cert_preserves : preserves.

Lemma triple_preserves {A} (I I' : manager -> Prop) (m : M manager string A) : preserves I m -> (forall s, I s -> I' s) -> triple I m (fun _ => I) I'.
Proof. intros Hm Hi. by eapply triple_conseq. Qed.

(** *** Proposals *)

Lemma fresh_ok round s : state_ok (fresh round) s -> state_ok sends_ok s.
Proof. apply state_ok_impl. by intros rs last out []. Qed.

Ltac step_preserves Hi := eapply triple_bind; [apply triple_preserves; [solve [preserve]|exact Hi]|intros ?].

Lemma generator_triple round : triple (state_ok sends_ok) (generator_generate_proposal round) (fun bd s => bd_round bd = round /\ state_ok (fresh round) s) (state_ok sends_ok).
Proof.
  unfold generator_generate_proposal. eapply triple_bind with (Q := fun last s => state_ok sends_ok s /\ rm_last_round_generated s = last); [by intros s Hs|]. intros last.
  eapply triple_bind with (Q := fun _ => state_ok (fresh round)).
  - intros s [[Hs Hok] <-]. destruct (Z.ltb_spec (rm_last_round_generated s) round); [|done]. split; [done|]. by eapply sends_ok_reserve.
  - intros []. step_preserves (fresh_ok round). destruct (has_reconfiguration _).
    + unfold generate_reconfig_empty_suffix. do 2 step_preserves (fresh_ok round). by apply triple_ret.
    + do 6 step_preserves (fresh_ok round). by apply triple_ret.
Qed.

Lemma generate_proposal_triple event :
  triple (state_ok sends_ok) (generate_proposal event) (fun msg s => block_round (pm_proposal msg) = nre_round event /\ state_ok (fresh (nre_round event)) s) (state_ok sends_ok).
Proof.
  unfold generate_proposal. eapply triple_bind; [apply generator_triple|]. intros bd. apply triple_pure. intros Eb.
  eapply triple_bind with (Q := fun b s => block_data b = bd /\ state_ok (fresh (nre_round event)) s).
  - intros s Hs. pose proof (signed_block bd (rm_safety_rules s)) as Hl. pose proof (on_rules_preserves (fresh (nre_round event)) (tsr_sign_proposal bd) s Hs) as Hk.
    unfold on_rules in *. destruct (tsr_sign_proposal bd (rm_safety_rules s)) as [r [b|e|]]; cbn in *; [|by eapply fresh_ok..]. split; [by eapply Hl|done].
  - intros b. apply triple_pure. intros <-. step_preserves (fresh_ok (nre_round event)). by apply triple_ret.
Qed.

Lemma process_new_round_event_preserves event : preserves (state_ok sends_ok) (process_new_round_event event).
Proof.
  unfold process_new_round_event. apply preserves_bind; [preserve|]. intros [|]; [|preserve]. eapply triple_bind; [apply generate_proposal_triple|].
  intros msg. apply triple_pure. intros Er. apply send_triple. intros rs last out Hf. by eapply fresh_send.
Qed.

Lemma certificates_triple si now :
  triple (state_ok sends_ok) (on_round (fun rs => process_certificates rs si now)) (fun event => state_ok (fun rs last out => sends_ok rs last out /\ (event = None \/ vote_sent rs = None))) (state_ok sends_ok).
Proof. apply on_round_triple. intros rs last out Hok. pose proof (sends_ok_certificates rs si now last out Hok) as Hc. by destruct (process_certificates rs si now) as [[rs' event] ts]. Qed.

Lemma rm_process_certificates_preserves : preserves (state_ok sends_ok) rm_process_certificates.
Proof.
  unfold rm_process_certificates. do 2 (apply preserves_bind; [preserve|]; intros ?). eapply triple_bind; [apply certificates_triple|]. intros event.
  eapply triple_conseq with (P := state_ok sends_ok); [|intros s; apply state_ok_impl; by intros rs last out []|intros ? s Hs; exact Hs|done].
  destruct event as [e|]; [apply process_new_round_event_preserves|apply preserves_ret].
Qed.
#[local] Hint Resolve rm_process_certificates_preserves : preserves.

(** *** Synchronization *)

Lemma sync_up_preserves si author help : preserves (state_ok sends_ok) (sync_up gen_range si author help).
Proof.
  unfold sync_up. apply preserves_bind; [preserve|]. intros local. apply preserves_bind.
  { destruct (help && _); [|preserve]. apply send_triple. intros rs last out. apply sync_info_send. }
  intros []. destruct (has_newer_certificates _ _); [|preserve]. pose proof (on_store_preserves sends_ok _ (add_certs_preserves gen_range Hnet Hstart Hbind si author)). preserve.
Qed.

Definition in_round (round : Z) (rs : RoundState) (last : Z) (out : list OutMsg) : Prop := sends_ok rs last out /\ current_round rs = round.
Lemma in_round_ok round s : state_ok (in_round round) s -> state_ok sends_ok s.
Proof. apply state_ok_impl. by intros rs last out []. Qed.

Lemma ensure_round_triple round si author help :
  triple (state_ok sends_ok) (ensure_round_and_sync_up gen_range round si author help) (fun b => state_ok (if b : bool then in_round round else sends_ok)) (state_ok sends_ok).
Proof.
  unfold ensure_round_and_sync_up. eapply triple_bind; [apply preserves_gets|]. intros cur. destruct (round <? cur); [by apply triple_ret|].
  eapply triple_bind; [apply sync_up_preserves|]. intros []. eapply triple_bind with (Q := fun cur s => state_ok (in_round cur) s); [by intros s [Hs Hok]|]. intros cur'.
  destruct (Z.eqb_spec round cur') as [->|_]; intros s Hs; [exact Hs|]. by eapply in_round_ok.
Qed.

(** *** Votes *)

Lemma votable_ok v s : state_ok (votable v) s -> state_ok sends_ok s.
Proof. apply state_ok_impl. by intros rs last out []. Qed.

Lemma execute_and_vote_triple b : block_hashed b ->
  triple (state_ok (in_round (block_round b))) (execute_and_vote b) (fun v => state_ok (votable v)) (state_ok sends_ok).
Proof.
  intros Hb. unfold execute_and_vote. eapply triple_bind with (Q := fun eb s => block_round (eb_block eb) = block_round b /\ state_ok (in_round (block_round b)) s).
  { apply on_store_post; [|by intros rs last out []]. eapply triple_conseq; [by apply execute_and_insert_block_preserves|done| |done]. by intros eb s []. }
  intros eb. apply triple_pure. intros Eb. step_preserves (in_round_ok (block_round b)).
  eapply triple_bind with (Q := fun sent => state_ok (fun rs last out => in_round (block_round b) rs last out /\ vote_sent rs = sent)); [by intros s [Hs Hok]|]. intros sent.
  eapply triple_bind with (Q := fun _ => state_ok (fun rs last out => in_round (block_round b) rs last out /\ vote_sent rs = None)).
  { intros s Hs. destruct sent; [|done]. eapply state_ok_impl; [|exact Hs]. by intros rs last out [[] _]. }
  intros []. eapply triple_bind with (Q := fun v => state_ok (votable v)).
  - intros s [Hs [[Hok Er] Ev]]. pose proof (vote_of_block (maybe_signed_vote_proposal eb) (rm_safety_rules s)) as Hl. unfold on_rules.
    destruct (tsr_construct_and_sign_vote _ _) as [r [v|e|]]; cbn; [|by split..]. specialize (Hl r v eq_refl). split; [done|]. cbn in *. split_and!; [done|congruence|by rewrite Ev].
  - intros v. eapply triple_bind; [apply triple_preserves; [apply on_store_preserves, on_storage_preserves|apply votable_ok]|]. intros []. by apply triple_ret.
Qed.

Lemma record_and_send_triple v make : (forall si, sent_vote (make si) = Some v) ->
  triple (state_ok (votable v)) (run* on_round (fun rs => (record_vote rs v, tt, [])) in let* si := m_gets (fun self => bs_sync_info (rm_block_store self)) in send (make si))
    (fun _ => state_ok sends_ok) (state_ok sends_ok).
Proof.
  intros Hm. eapply triple_bind; [apply (on_round_triple _ (fun _ => voted v)); intros rs last out; apply votable_record|]. intros [].
  eapply triple_bind with (Q := fun _ => state_ok (voted v)); [by intros s Hs|]. intros si. apply send_triple. intros rs last out Hv. by eapply voted_send.
Qed.

Lemma process_proposal_triple b : block_hashed b -> triple (state_ok (in_round (block_round b))) (process_proposal b) (fun _ => state_ok sends_ok) (state_ok sends_ok).
Proof.
  intros Hb. unfold process_proposal. do 2 step_preserves (in_round_ok (block_round b)). do 2 step_preserves (in_round_ok (block_round b)).
  eapply triple_bind; [by apply execute_and_vote_triple|]. intros v. step_preserves (votable_ok v). by apply (record_and_send_triple v (fun si => OutVote (mkVoteMsg v si) _)).
Qed.

Lemma process_proposal_msg_preserves msg : block_hashed (pm_proposal msg) -> preserves (state_ok sends_ok) (process_proposal_msg gen_range msg).
Proof.
  intros Hb. unfold process_proposal_msg. apply preserves_bind; [preserve|]. intros author. eapply triple_bind; [apply ensure_round_triple|]. intros [|]; [by apply process_proposal_triple|apply preserves_err].
Qed.

Lemma nil_vote_triple round :
  triple (state_ok (in_round round)) (let* nil_block := generate_nil_block round in execute_and_vote nil_block) (fun v => state_ok (votable v)) (state_ok sends_ok).
Proof.
  eapply triple_bind with (Q := fun b s => (block_hashed b /\ block_round b = round) /\ state_ok (in_round round) s).
  - unfold generate_nil_block. step_preserves (in_round_ok round). by apply triple_ret.
  - intros b. apply triple_pure. intros [Hb <-]. by apply execute_and_vote_triple.
Qed.

Lemma timeout_signature_triple v :
  triple (state_ok (votable v)) (if negb (vote_is_timeout v) then let* signature := on_rules (tsr_sign_timeout (vote_timeout v)) in m_ret (add_timeout_signature v signature) else m_ret v)
    (fun v' => state_ok (votable v')) (state_ok sends_ok).
Proof.
  destruct (negb _); [|by apply triple_ret]. step_preserves (votable_ok v). apply triple_ret. intros s. apply state_ok_impl. intros rs last out (Hok & Er & Ev).
  pose proof (add_timeout_signature_core v a) as Ec. split_and!; [done|by rewrite (vote_core_round _ _ Ec)|]. intros w Hw. by rewrite Ec, (Ev w Hw).
Qed.

Lemma rm_process_local_timeout_preserves round : preserves (state_ok sends_ok) (rm_process_local_timeout round).
Proof.
  unfold rm_process_local_timeout. apply preserves_bind; [preserve|]. intros now. eapply triple_bind with (Q := fun b => state_ok (if b : bool then in_round round else sends_ok)).
  { apply (on_round_triple sends_ok (fun b => if b : bool then in_round round else sends_ok)). intros rs last out Hok.
    unfold process_local_timeout, setup_timeout, setup_deadline. destruct (Z.eqb_spec round (current_round rs)) as [->|_]; cbn; [|done]. split; [|done]. by apply (sends_ok_same rs). }
  intros [|]; cbn [negb]; [|apply preserves_ret].
  eapply triple_bind with (Q := fun sent => state_ok (fun rs last out => in_round round rs last out /\ vote_sent rs = sent)); [by intros s [Hs Hok]|]. intros sent.
  assert (Hnil := triple_conseq _ (state_ok (fun rs last out => in_round round rs last out /\ vote_sent rs = sent)) _ _ _ _ _ (nil_vote_triple round)
    ltac:(intros s; apply state_ok_impl; by intros rs last out []) (fun _ _ Hq => Hq) (fun _ Hr => Hr)).
  eapply triple_bind with (Q := fun v => state_ok (votable v)).
  { destruct sent as [v|]; [|exact Hnil]. destruct (vote_round v =? round); [|exact Hnil]. apply triple_ret. intros s. apply state_ok_impl. intros rs last out [[Hok Er] Ev].
    split_and!; [done|by apply (so_sent _ _ _ Hok)|]. intros w Hw. congruence. }
  intros v. step_preserves (votable_ok v). eapply triple_bind; [apply timeout_signature_triple|]. intros v'. by apply (record_and_send_triple v' (fun si => OutVoteToAll (mkVoteMsg v' si))).
Qed.

(** *** Votes of others *)

Lemma process_vote_preserves vote : preserves (state_ok sends_ok) (process_vote gen_range vote).
Proof.
  unfold process_vote. apply preserves_bind; [preserve|]. intros []. apply preserves_bind; [preserve|]. intros [qc|]; [preserve|]. apply preserves_bind; [preserve|]. intros es. apply preserves_bind.
  - apply (on_round_triple sends_ok (fun _ => sends_ok)). intros rs last out Hok. unfold rs_insert_vote. destruct (_ =? _); [|done].
    destruct (insert_vote _ _ _) as [pending r]. by apply (sends_ok_same rs).
  - intros r. pose proof (fun qc peer => on_store_preserves sends_ok _ (bs_insert_quorum_cert_preserves gen_range Hnet Hbind qc peer)).
    pose proof (fun tc => on_store_preserves sends_ok _ (insert_timeout_certificate_preserves tc)). unfold new_qc_aggregated, new_tc_aggregated. preserve.
Qed.

Lemma process_vote_msg_preserves msg : preserves (state_ok sends_ok) (process_vote_msg gen_range msg).
Proof.
  unfold process_vote_msg. eapply triple_bind; [apply ensure_round_triple|]. intros [|]; [|apply preserves_ret].
  eapply triple_conseq; [apply process_vote_preserves|apply in_round_ok|done|done].
Qed.

Lemma process_sync_info_msg_preserves si peer : preserves (state_ok sends_ok) (process_sync_info_msg gen_range si peer).
Proof.
  unfold process_sync_info_msg. eapply triple_bind; [apply ensure_round_triple|]. intros b. apply triple_ret. intros s. apply state_ok_impl. intros rs last out. by destruct b; [intros []|].
Qed.

Lemma rm_start_preserves last_vote : preserves (state_ok sends_ok) (rm_start last_vote).
Proof.
  unfold rm_start. do 2 (apply preserves_bind; [preserve|]; intros ?). eapply triple_bind; [apply certificates_triple|]. intros [event|].
  - eapply triple_bind with (Q := fun _ => state_ok (fun rs last out => sends_ok rs last out /\ vote_sent rs = None)).
    { intros s Hs. eapply state_ok_impl; [|exact Hs]. by intros rs last out [? [?|?]]. }
    intros e. eapply triple_bind with (Q := fun _ => state_ok sends_ok).
    + destruct last_vote as [v|]; [|apply triple_ret; intros s; apply state_ok_impl; by intros rs last out []].
      apply (on_round_triple _ (fun _ => sends_ok)). intros rs last out [Hok Ev]. by apply sends_ok_record.
    + intros []. apply preserves_ignore, process_new_round_event_preserves.
  - apply triple_lift. intros s. apply state_ok_impl. by intros rs last out [].
Qed.

(** *** Runs *)

(** The events of a validator; the blocks in its messages are deserialized. *)
Inductive manager_step : manager -> manager -> Prop :=
| step_proposal_msg s msg : block_hashed (pm_proposal msg) -> manager_step s (process_proposal_msg gen_range msg s).1
| step_vote_msg s msg : manager_step s (process_vote_msg gen_range msg s).1
| step_sync_info_msg s si peer : manager_step s (process_sync_info_msg gen_range si peer s).1
| step_timeout_event s round : manager_step s (rm_process_local_timeout round s).1
| step_start s last_vote : manager_step s (rm_start last_vote s).1.

Lemma preserves_fst {A} (I : manager -> Prop) (m : M manager string A) s : preserves I m -> I s -> I (m s).1.
Proof. intros Hm Hs. specialize (Hm s Hs). by destruct (m s) as [s' [a|e|]]. Qed.

Lemma manager_step_ok s s' : manager_step s s' -> state_ok sends_ok s -> state_ok sends_ok s'.
Proof.
  intros [] Hs; (eapply preserves_fst; [|exact Hs]).
  - by apply process_proposal_msg_preserves.
  - apply process_vote_msg_preserves.
  - apply process_sync_info_msg_preserves.
  - apply rm_process_local_timeout_preserves.
  - apply rm_start_preserves.
Qed.

Lemma manager_run_ok s s' : rtc manager_step s s' -> state_ok sends_ok s -> state_ok sends_ok s'.
Proof. induction 1; eauto using manager_step_ok. Qed.

(** A validator that has not sent anything yet. *)
Definition manager_start (s : manager) : Prop :=
  hashed_store (rm_block_store s) /\ rm_out s = [] /\ exists interval now, rm_round_state s = round_state_new interval now.

Lemma manager_start_ok s : manager_start s -> state_ok sends_ok s.
Proof.
  intros (Hs & Ho & interval & now & Er). split; [done|]. rewrite Ho, Er.
  split; cbn; [done|by intros v ?%elem_of_nil|by intros v w ?%elem_of_nil|constructor|constructor|by intros b ?%elem_of_nil].
Qed.

(** C3: Whatever proposals, votes, certificates and timeouts a validator processes, in
    whatever order: its votes go out in the order of their rounds, two votes that it sends
    in the same round are the same vote, except that one of them may carry a timeout
    signature too, and it proposes at most one block per round, in rounds that increase. *)
Theorem no_equivocation s0 s : manager_start s0 -> rtc manager_step s0 s ->
  Sorted.StronglySorted Z.le (map vote_round (votes_of (rm_out s))) /\
  (forall v w, v ∈ votes_of (rm_out s) -> w ∈ votes_of (rm_out s) -> vote_round v = vote_round w -> vote_core v = vote_core w) /\
  Sorted.StronglySorted Z.lt (map block_round (proposals_of (rm_out s))).
Proof. intros H0 Hr. destruct (manager_run_ok _ _ Hr (manager_start_ok _ H0)) as [_ []]. by split_and!. Qed.
End Handlers.
