(* ===== verification/Network.v ===== *)
(** * A network of four validators *)

From S2P Require Import Prelude U64 Crypto ValidatorVerifier LedgerInfo Accumulator.
From S2P Require Import AccumulatorProof ConsensusTypes SecureStorage SafetyRules SafetyRulesProof.
From S2P Require Import ConsensusSafety Concrete.

Module Network.
Import Symbolic Concrete.

(** Validators 1 to 4 of equal voting power; validator 4 is Byzantine. *)
Definition infos : gmap AccountAddress ValidatorConsensusInfo :=
  list_to_map (map (fun a => (a, mkValidatorConsensusInfo (a + 100) 1)) [1; 2; 3; 4]).
Definition byzantine : list AccountAddress := [4].

(** The genesis ledger info ends epoch 0 and starts epoch 1. *)
Definition genesis : LedgerInfo :=
  mkLedgerInfo (mkBlockInfo 0 0 HashValue_zero placeholder 0 0
    (Some (mkEpochState 1 (verifier_new infos)))) HashValue_zero.
Definition genesis_id : HashValue :=
  match make_genesis_block_from_ledger_info genesis with Ok b => block_id b | _ => HashValue_zero end.
Definition genesis_qc : QuorumCert := certificate_for_genesis_from_ledger_info genesis genesis_id.

Definition genesis_waypoint : Waypoint :=
  match waypoint_new_epoch_boundary genesis with Ok w => w | _ => mkWaypoint 0 HashValue_zero end.

(** Validator [a] after its storage is set up and [SafetyRules] is initialized. *)
Definition blank : PersistentSafetyStorage (S:=InMemoryStorage) :=
  mkPersistentSafetyStorage (mkInMemoryStorage ∅ 0) (mkCounters 0 0 0 0 0 0).
Definition started (a : AccountAddress) : SafetyRules (S:=InMemoryStorage) :=
  let ps := (pss_initialize a (a + 100) (a + 200) genesis_waypoint blank).1 in
  match safety_rules_new ps false with
  | Ok s => (initialize {| ledger_info_with_sigs := [mkLedgerInfoWithSignatures genesis ∅]; more := false |} s).1
  | _ => mkSafetyRules ps None None None
  end.

(** A proposal of round [r] on top of [qc] that changes nothing in the ledger. *)
Definition proposal (r : Z) (qc : QuorumCert) : MaybeSignedVoteProposal := {|
  msvp_vote_proposal := {|
    vp_accumulator_extension_proof := {| ext_frozen_subtree_roots := []; ext_num_leaves := 0; ext_leaves := [] |};
    vp_block := block_new_nil r qc;
    vp_next_epoch_state := None |};
  msvp_signature := None |}.

Definition vote_on (s : SafetyRules (S:=InMemoryStorage)) (p : MaybeSignedVoteProposal)
    : SafetyRules * result Error Vote :=
  construct_and_sign_vote hash_internal placeholder p s.

(** The certificate made of the votes of a round. *)
Definition certificate (votes : list Vote) : QuorumCert :=
  match votes with
  | [] => genesis_qc
  | v :: _ => mkQuorumCert (vote_data v) (mkLedgerInfoWithSignatures (vote_ledger_info v)
                (list_to_map (map (fun v => (vote_author v, vote_signature v)) votes)))
  end.

(** A validator with the votes it gave out. *)
Definition validator : Type := AccountAddress * SafetyRules (S:=InMemoryStorage) * list Vote.

Definition validator_step (p : MaybeSignedVoteProposal) (x : validator) : validator :=
  let '(a, s, h) := x in
  match vote_on s p with
  | (s', Ok v) => (a, s', h ++ [v])
  | (s', _) => (a, s', h)
  end.

(** One round: the correct validators vote, their votes make the next certificate. *)
Definition net_step (n : list validator * QuorumCert) (r : Z) : list validator * QuorumCert :=
  let vs := map (validator_step (proposal r n.2)) n.1 in
  (vs, certificate (omap (fun x => list.last x.2) vs)).

Definition start : list validator * QuorumCert := (map (fun a => (a, started a, [])) [1; 2; 3], genesis_qc).
Definition net (rounds : list Z) : list validator * QuorumCert := fold_left net_step rounds start.
Definition final : list validator := (net [1; 2; 3; 4]).1.

(** The votes of validator [a]. *)
Definition history (vs : list validator) (a : AccountAddress) : list Vote :=
  match find (fun x : validator => x.1.1 =? a) vs with Some x => x.2 | None => [] end.

Definition votes_of (a : AccountAddress) (epoch : Z) : list Vote :=
  if epoch =? 1 then history final a else [].
Definition signatures_of (vs : list validator) : list Signature :=
  concat (map (fun x : validator => map vote_signature x.2) vs).
Definition observed (sig : Signature) : Prop := sig ∈ signatures_of final.
Definition committee (epoch : Z) : ValidatorVerifier := verifier_new infos.

Notation request := (proposed observed).
Notation run := (sr_run (S:=InMemoryStorage) hash_internal placeholder).

Lemma validator_step_run p a s0 s h : request (msvp_vote_proposal p) ->
  run 1 (committee 1) request s0 h s ->
  let x := validator_step p (a, s, h) in run 1 (committee 1) request s0 x.2 x.1.2.
Proof.
  intros Hp Hr. unfold validator_step. cbv zeta.
  destruct (vote_on s p) as [s' [v|err|]] eqn:E; cbn; unfold vote_on in E.
  - eapply (run_step _ _ _ _ _ _ _ _ (Some v)); [exact Hr|]. by eapply step_vote.
  - rewrite <- (app_nil_r h). eapply (run_step _ _ _ _ _ _ _ _ None); [exact Hr|]. by eapply step_vote_refused.
  - rewrite <- (app_nil_r h). eapply (run_step _ _ _ _ _ _ _ _ None); [exact Hr|]. by eapply step_vote_refused.
Qed.

Definition runs_from_start (vs : list validator) : Prop :=
  Forall (fun x => run 1 (committee 1) request (started x.1.1) x.2 x.1.2) vs.

Lemma net_step_runs n r : request (msvp_vote_proposal (proposal r n.2)) ->
  runs_from_start n.1 -> runs_from_start (net_step n r).1.
Proof.
  intros Hp Hn. unfold runs_from_start, net_step in *. cbv zeta. cbn [fst].
  apply List.Forall_map. eapply list.Forall_impl; [exact Hn|].
  intros [[a s] h] Hr. assert (Ha : (validator_step (proposal r n.2) (a, s, h)).1.1 = a).
  { unfold validator_step. by destruct (vote_on _ _) as [s' []]. }
  cbn beta. rewrite Ha. by apply validator_step_run.
Qed.

Definition observedb (l : LedgerInfoWithSignatures) : bool :=
  forallb (fun kv => bool_decide (kv.2 ∈ signatures_of final)) (map_to_list (liws_signatures l)).

Lemma observedb_spec l : observedb l = true -> observed_signatures observed l.
Proof.
  intros Ho a sig Hs. apply elem_of_map_to_list in Hs. unfold observedb in Ho. rewrite forallb_forall in Ho.
  specialize (Ho (a, sig)). apply list_elem_of_In, Ho, bool_decide_eq_true in Hs. exact Hs.
Qed.

Lemma request_check p : verify_well_formed (vp_block p) = Ok tt ->
  observedb (qc_signed_ledger_info (block_quorum_cert (vp_block p))) = true -> request p.
Proof. intros Hw Ho. split; [done|by apply observedb_spec]. Qed.

Lemma final_runs : runs_from_start final.
Proof.
  unfold final, net. cbn [fold_left].
  do 4 (apply net_step_runs; [apply request_check; vm_compute; reflexivity|]).
  unfold runs_from_start, start. cbn [fst]. apply List.Forall_map, list.Forall_forall. intros a _. apply run_nil.
Qed.

(** A state in which epoch [ep] starts. *)
Definition fresh (ep : Z) : SafetyRules (S:=InMemoryStorage) :=
  mkSafetyRules (mkPersistentSafetyStorage (mkInMemoryStorage
    (list_to_map [(EPOCH, mkGetResponse 0 (VU64 ep)); (LAST_VOTED_ROUND, mkGetResponse 0 (VU64 0));
       (PREFERRED_ROUND, mkGetResponse 0 (VU64 0)); (LAST_VOTE, mkGetResponse 0 (VBytes (enc_vote None)))]) 0)
    (mkCounters 0 0 0 0 0 0)) None None (Some (mkEpochState ep (committee ep))).

Lemma fresh_start ep : epoch_start ep (committee ep) (fresh ep).
Proof. split; try reflexivity. by exists (enc_vote None). Qed.

Lemma started_start a : a ∈ [1; 2; 3] -> epoch_start 1 (committee 1) (started a).
Proof.
  intros [<-|[<-|[<-|[]]]]%list_elem_of_In; (split; [vm_compute; reflexivity..| |vm_compute; reflexivity]);
    exists (enc_vote None); (split; [vm_compute; reflexivity|reflexivity]).
Qed.

Lemma votes_signed : Forall (fun x => Forall (fun v =>
  vote_signature v = (x.1.1 + 100, enc_ledger_info (vote_ledger_info v))) x.2) final.
Proof.
  apply List.Forall_forall. intros x Hx.
  assert (Hb : forallb (fun x => forallb (fun v =>
    bool_decide (vote_signature v = (x.1.1 + 100, enc_ledger_info (vote_ledger_info v)))) x.2) final = true)
    by (vm_compute; reflexivity).
  rewrite forallb_forall in Hb. apply Hb in Hx. rewrite forallb_forall in Hx.
  apply List.Forall_forall. intros v Hv. by apply Hx, bool_decide_eq_true in Hv.
Qed.
#[local] Opaque final started.

Lemma honest_cases a : honest infos byzantine a -> a ∈ [1; 2; 3].
Proof.
  intros [Hv Hb]. assert (E : forallb (fun a => bool_decide (a ∈ [1; 2; 3; 4])) (validators infos) = true)
    by (vm_compute; reflexivity).
  rewrite forallb_forall in E. apply list_elem_of_In, E, bool_decide_eq_true in Hv.
  unfold byzantine in Hb. rewrite !elem_of_cons in *. tauto.
Qed.

Lemma history_entry vs a v : v ∈ history vs a -> exists x, x ∈ vs /\ x.1.1 = a /\ v ∈ x.2.
Proof.
  unfold history. destruct (find (fun x : validator => x.1.1 =? a) vs) as [x|] eqn:E; [|by intros ?%elem_of_nil].
  apply find_some in E as [Hin Ha]. intros Hv. exists x. split_and!; [by apply list_elem_of_In|lia|done].
Qed.

Lemma history_intro vs x v : NoDup (map (fun x : validator => x.1.1) vs) -> x ∈ vs -> v ∈ x.2 -> v ∈ history vs x.1.1.
Proof.
  intros Hn Hx Hv. unfold history. induction vs as [|y vs IH]; [by apply elem_of_nil in Hx|]. cbn in *.
  apply list.NoDup_cons in Hn as [Hy Hn]. destruct (Z.eqb_spec y.1.1 x.1.1) as [E|E].
  - apply elem_of_cons in Hx as [->|Hx]; [done|]. exfalso. apply Hy. rewrite E.
    apply list_elem_of_In, in_map_iff. exists x. by rewrite <- list_elem_of_In.
  - apply elem_of_cons in Hx as [->|Hx]; [done|]. auto.
Qed.

Lemma history_run vs a : runs_from_start vs -> exists s,
  run 1 (committee 1) request (started a) (history vs a) s.
Proof.
  intros Hr. unfold history. destruct (find (fun x : validator => x.1.1 =? a) vs) as [x|] eqn:E.
  - apply find_some in E as [Hin Hx%Z.eqb_eq]. exists x.1.2. rewrite <- Hx.
    exact (proj1 (List.Forall_forall _ _) Hr x Hin).
  - exists (started a). apply run_nil.
Qed.

Lemma network_runs a ep : honest infos byzantine a -> exists s s',
  epoch_start ep (committee ep) s /\ run ep (committee ep) request s (votes_of a ep) s'.
Proof.
  intros Ha%honest_cases. unfold votes_of. destruct (Z.eqb_spec ep 1) as [->|].
  - destruct (history_run final a final_runs) as [s' Hs']. exists (started a), s'.
    split; [by apply started_start|exact Hs'].
  - exists (fresh ep), (fresh ep). split; [apply fresh_start|apply run_nil].
Qed.
(** A signature in circulation is the signature of a vote in some history. *)
Lemma signatures_of_vote vs sig : sig ∈ signatures_of vs ->
  exists x v, x ∈ vs /\ v ∈ x.2 /\ vote_signature v = sig.
Proof.
  unfold signatures_of. intros Hs. apply list_elem_of_In, in_concat in Hs as (l & Hl & Hs).
  apply in_map_iff in Hl as (x & <- & Hx). apply in_map_iff in Hs as (v & Hv & Hin).
  exists x, v. by rewrite !list_elem_of_In.
Qed.

Lemma network_unforgeable a pk li sig : observed sig -> honest infos byzantine a ->
  get_public_key (committee 1) a = Some pk -> verify_struct_signature pk li sig = true ->
  exists ep v, v ∈ votes_of a ep /\ vote_ledger_info v = li.
Proof.
  intros (x & v & Hx & Hv & <-)%signatures_of_vote Ha%honest_cases Hpk Hs.
  pose proof votes_signed as Hsig. rewrite list.Forall_forall in Hsig. specialize (Hsig x Hx).
  rewrite list.Forall_forall in Hsig. specialize (Hsig v Hv). rewrite Hsig in Hs.
  apply bool_decide_eq_true in Hs. apply pair_equal_spec in Hs as [Hk Hm]. change (enc_ledger_info (vote_ledger_info v) = enc_ledger_info li) in Hm.
  assert (Hpk' : pk = a + 100).
  { apply list_elem_of_In in Ha as [<-|[<-|[<-|[]]]]; vm_compute in Hpk; injection Hpk as <-; reflexivity. }
  exists 1, v. split.
  - rewrite Hpk' in Hk. apply Z.add_cancel_r in Hk. rewrite <- Hk. change (v ∈ history final x.1.1).
    apply history_intro; [|done|done]. apply (bool_decide_unpack _). vm_compute. exact I.
  - rewrite <- (dec_enc_ledger_info (vote_ledger_info v)), Hm. apply dec_enc_ledger_info.
Qed.

Lemma network_protocol : protocol hash_internal placeholder observed committee votes_of 1 infos byzantine.
Proof.
  split.
  - reflexivity.
  - split; [done| |vm_compute; reflexivity].
    intros a i Hi. apply elem_of_map_to_list, list_elem_of_In in Hi.
    assert (E : forallb (fun kv => 0 <=? vci_voting_power kv.2) (map_to_list infos) = true)
      by (vm_compute; reflexivity).
    rewrite forallb_forall in E. apply E in Hi. cbn in Hi. lia.
  - split; [apply NoDup_singleton|]. split; [|vm_compute; reflexivity].
    intros a Ha%list_elem_of_singleton. subst a. apply (bool_decide_unpack _). vm_compute. exact I.
  - exact network_runs.
  - exact network_unforgeable.
  - intros v w E. rewrite <- (dec_enc_vote_data v), <- (dec_enc_vote_data w). by f_equal.
Qed.
Lemma certificate_committed rounds : let l := qc_signed_ledger_info (net rounds).2 in
  observedb l = true -> verify_signatures l (committee 1) = Ok tt ->
  li_epoch (liws_ledger_info l) = 1 -> 1 <=? li_round (liws_ledger_info l) = true ->
  committed observed committee 1 (qc_ledger_info (net rounds).2).
Proof.
  cbv zeta. intros Ho Hv He Hr. split_and!; [|exact He|unfold qc_ledger_info; lia].
  exists (qc_signed_ledger_info (net rounds).2). split_and!; [done|by apply observedb_spec|done].
Qed.

(** The certificates of rounds 3 and 4 commit the blocks of rounds 1 and 2. *)
Lemma consensus_safety_witness :
  extends observed committee 1 (qc_commit_info (net [1; 2; 3]).2) (qc_commit_info (net [1; 2; 3; 4]).2).
Proof.
  apply (consensus_safety hash_internal placeholder observed committee votes_of 1 infos byzantine network_protocol
           (qc_ledger_info (net [1; 2; 3]).2) (qc_ledger_info (net [1; 2; 3; 4]).2)).
  - apply certificate_committed; vm_compute; reflexivity.
  - apply certificate_committed; vm_compute; reflexivity.
  - apply Z.leb_le. vm_compute. reflexivity.
Defined.
End Network.
