(* ===== verification/Examples.v ===== *)
(** * Instances of the theorems

    The theorems with assumptions, applied to the symbolic instance of the interfaces
    ([Concrete]) on small inputs: accumulators of a few leaves, and the network of four
    validators ([Network]). *)

From Stdlib Require Import Ascii.
From S2P Require Import Prelude U64 Position Accumulator AccumulatorProof MerkleAccumulator Text.
From S2P Require Import Crypto ValidatorVerifier LedgerInfo ConsensusTypes SecureStorage.
From S2P Require Import SafetyRules Concrete SafetyRulesProof ConsensusSafety Network.

Module Examples.
Import Symbolic Concrete Network.

Definition leaf (i : Z) : term := GenLeaf i.
Definition leaves (n : nat) : list HashValue := map (fun i => leaf (Z.of_nat i)) (seq 0 n).

(** A storage that holds the nodes of the reference tree. *)
Definition tree_reader : Type := list HashValue.
#[local] Instance tree_hash_reader : HashReader tree_reader HashValue := fun L v =>
  Ok (nhash hash_internal placeholder L (Position.level v) (v / 2 ^ (Position.level v + 1))).

Lemma tree_reader_ok L n : n <= 2 ^ 63 -> reader_ok hash_internal placeholder L L n.
Proof.
  intros Hn l p Hl Hp Hb. assert (Hv : valid_node l p) by (apply valid_node_full; lia).
  unfold reader_get, tree_hash_reader. rewrite level_inorder by done. do 2 f_equal.
  unfold inorder. assert (0 < 2 ^ l) by (apply pow2_pos; lia).
  symmetry. apply (Z.div_unique_pos _ _ _ (2 ^ l - 1)); rewrite Z.pow_add_r by lia; lia.
Qed.

(** ** Positions *)

Lemma position_navigation_witness : Position.parent (inorder 2 5) = inorder 3 2 /\ Position.level (inorder 2 5) = 2.
Proof. destruct (position_navigation 2 5) as (-> & _ & -> & _); [by vm_compute|lia|done]. Defined.

Lemma postorder_index_roundtrip_witness :
  Position.from_postorder_index (Position.to_postorder_index 1000) = 1000.
Proof. apply (postorder_index_roundtrip 1000); [lia|by vm_compute]. Defined.

Lemma frozen_subtrees_cover_witness : exists nodes,
  Position.frozen_subtrees 11 = map (fun '(l, p) => inorder l p) nodes /\ zsum (fun '(l, p) => 2 ^ l) nodes = 11.
Proof. destruct (frozen_subtrees_cover 11) as (nodes & Hf & _ & Hz & _); [lia|]. by exists nodes. Defined.

(** ** Accumulators *)

Lemma in_memory_refines_witness : exists acc acc',
  from_leaves hash_internal placeholder (leaves 3) = Ok acc /\
  append hash_internal placeholder acc (leaves 2) = Ok acc' /\ num_leaves acc' = 5.
Proof.
  destruct (in_memory_refines hash_internal placeholder (leaves 3) (leaves 2)) as (acc & acc' & ? & ? & _ & ? & _);
    [by vm_compute|]. by exists acc, acc'.
Defined.

Lemma append_correct_witness : exists writes,
  view_append hash_internal placeholder {| reader := leaves 5; view_num_leaves := 5 |} (leaves 3) =
    Ok (tree_root hash_internal placeholder (leaves 5 ++ leaves 3), writes).
Proof.
  destruct (append_correct hash_internal placeholder (leaves 5) (leaves 5) (leaves 3)) as (writes & Hw & _);
    [by vm_compute|done|by apply tree_reader_ok|]. by exists writes.
Defined.

Lemma stored_proof_verifies_witness : exists pf,
  get_proof hash_internal placeholder {| reader := leaves 6; view_num_leaves := 6 |} 4 = Ok pf /\
  accumulator_proof_verify hash_internal pf (tree_root hash_internal placeholder (leaves 6)) (leaf 4) 4 = Ok tt.
Proof.
  apply (stored_proof_verifies hash_internal placeholder (leaves 6) (leaves 6) 4 (leaf 4));
    [by vm_compute|by apply tree_reader_ok|lia|reflexivity].
Defined.

Lemma stored_range_proof_verifies_witness : exists pf,
  get_range_proof hash_internal placeholder {| reader := leaves 7; view_num_leaves := 7 |} (Some 2) 3 = Ok pf /\
  range_proof_verify hash_internal pf (tree_root hash_internal placeholder (leaves 7)) (Some 2)
    [leaf 2; leaf 3; leaf 4] = Ok tt.
Proof.
  apply (stored_range_proof_verifies hash_internal placeholder (leaves 7) (leaves 7) 2 3);
    [by vm_compute|by apply tree_reader_ok|lia|lia|by vm_compute].
Defined.

Lemma consistency_proof_correct_witness : exists pf,
  get_consistency_proof (HashValue:=HashValue) {| reader := leaves 5 ++ leaves 6; view_num_leaves := 11 |} 5 = Ok pf /\
  append_subtrees hash_internal placeholder (accumulator_of hash_internal placeholder (leaves 5)) (subtrees pf) 6 =
    Ok (accumulator_of hash_internal placeholder (leaves 5 ++ leaves 6)).
Proof.
  apply (consistency_proof_correct hash_internal placeholder (leaves 5 ++ leaves 6) (leaves 5) (leaves 6));
    [by vm_compute|by apply tree_reader_ok].
Defined.

Definition depth (n : nat) : nat := Z.to_nat (root_level (Z.of_nat n)).

Lemma inclusion_sound_witness :
  let pf := {| siblings := honest_siblings hash_internal placeholder (leaves 5) (depth 5) 3 |} in
  leaf 3 = leaf 3 \/ collision hash_internal (path_pairs hash_internal (siblings pf) (leaf 3) 3)
    (path_pairs hash_internal (siblings pf) (leaf 3) 3).
Proof.
  apply (inclusion_sound hash_internal placeholder (leaves 5) 3 (leaf 3)
    {| siblings := honest_siblings hash_internal placeholder (leaves 5) (depth 5) 3 |} (leaf 3));
    [lia|reflexivity|reflexivity|by vm_compute].
Defined.

Definition honest_range (n : nat) (i : Z) (m : Z) : AccumulatorRangeProof := {|
  left_siblings := honest_lefts hash_internal placeholder (leaves n) (depth n) 0 i;
  right_siblings := honest_rights hash_internal placeholder (leaves n) (depth n) 0 (i + m - 1) |}.

Lemma range_sound_witness : [leaf 1; leaf 2] = [leaf 1; leaf 2] \/
  collision hash_internal (range_verify_pairs hash_internal (honest_range 5 1 2) 1 [leaf 1; leaf 2])
    (range_verify_pairs hash_internal (honest_range 5 1 2) 1 [leaf 1; leaf 2]).
Proof.
  apply (range_sound hash_internal placeholder (leaves 5) 1 [leaf 1; leaf 2] (honest_range 5 1 2));
    [lia|cbn; lia|by vm_compute|by vm_compute|reflexivity|reflexivity|by vm_compute].
Defined.

Definition honest_extension : AccumulatorExtensionProof := {|
  ext_frozen_subtree_roots := frozen_hashes hash_internal placeholder (leaves 5) (frozen_nodes 0 5);
  ext_num_leaves := 5; ext_leaves := leaves 2 |}.

Lemma extension_sound_witness : exists acc,
  extension_proof_verify hash_internal placeholder honest_extension
    (tree_root hash_internal placeholder (leaves 5)) = Ok acc /\
  (acc = accumulator_of hash_internal placeholder (leaves 5 ++ leaves 2) \/
   collision hash_internal
     (root_pairs hash_internal placeholder (ext_frozen_subtree_roots honest_extension) 5)
     (root_pairs hash_internal placeholder (ext_frozen_subtree_roots honest_extension) 5)).
Proof.
  eexists. split; [vm_compute; reflexivity|].
  apply (extension_sound hash_internal placeholder (leaves 5) honest_extension);
    [by vm_compute|reflexivity|vm_compute; reflexivity].
Defined.

Lemma extension_version_unauthenticated_witness : exists acc,
  extension_proof_verify hash_internal placeholder
    {| ext_frozen_subtree_roots := [leaf 0]; ext_num_leaves := 1024; ext_leaves := [] |} (leaf 0) = Ok acc /\
  root_hash acc = leaf 0 /\ accumulator_version acc = 1023.
Proof. apply (extension_version_unauthenticated hash_internal placeholder (leaf 0) 10). lia. Defined.

(** ** Validator sets *)

Lemma infos_wf : wf_infos infos.
Proof. apply (pr_infos _ _ _ _ _ _ _ _ network_protocol). Qed.

Definition certificate_of (rounds : list Z) : LedgerInfoWithSignatures := qc_signed_ledger_info (net rounds).2.

Lemma verified_signatures_intersect_witness : exists a, a ∉ byzantine /\
  signed_by (verifier_new infos) (liws_ledger_info (certificate_of [1; 2])) (liws_signatures (certificate_of [1; 2])) a /\
  signed_by (verifier_new infos) (liws_ledger_info (certificate_of [1])) (liws_signatures (certificate_of [1])) a.
Proof.
  apply (verified_signatures_intersect infos (liws_ledger_info (certificate_of [1; 2]))
    (liws_ledger_info (certificate_of [1])) _ _ byzantine); [apply infos_wf|apply NoDup_singleton| | | |].
  - apply (pr_byzantine _ _ _ _ _ _ _ _ network_protocol).
  - apply (pr_byzantine _ _ _ _ _ _ _ _ network_protocol).
  - vm_compute. reflexivity.
  - vm_compute. reflexivity.
Defined.

Lemma batch_equals_sequential_witness :
  batch_verify_aggregated_signatures (verifier_new infos) (liws_ledger_info (certificate_of [1; 2]))
    (liws_signatures (certificate_of [1; 2])) =
  verify_aggregated_struct_signature (verifier_new infos) (liws_ledger_info (certificate_of [1; 2]))
    (liws_signatures (certificate_of [1; 2])).
Proof. apply batch_equals_sequential. Defined.

Definition rich : gmap AccountAddress ValidatorConsensusInfo :=
  {[ 1 := mkValidatorConsensusInfo 101 (2 ^ 62); 2 := mkValidatorConsensusInfo 102 (2 ^ 62) ]}.

Lemma quorum_overflow_witness : quorum_voting_power (verifier_new rich) = 1.
Proof.
  rewrite (quorum_overflow rich); [reflexivity|done| |by vm_compute].
  unfold rich. apply map_Forall_insert_2; [cbn; lia|]. apply map_Forall_singleton. cbn. lia.
Defined.

(** ** Waypoints and trusted states *)

Lemma waypoint_text_roundtrip_witness :
  waypoint_from_str (waypoint_to_string genesis_waypoint) = Ok genesis_waypoint.
Proof. apply (waypoint_text_roundtrip genesis_waypoint). by vm_compute. Defined.

(** A client that knows the genesis waypoint moves to the first commit of epoch 1. *)
Definition genesis_change : EpochChangeProof :=
  {| ledger_info_with_sigs := [mkLedgerInfoWithSignatures genesis ∅]; more := false |}.

Definition client : TrustedState := trusted_state_from_waypoint genesis_waypoint.
Definition first_commit : LedgerInfoWithSignatures := certificate_of [1; 2; 3].
Definition ratcheted : TrustedStateChange :=
  match verify_and_ratchet client first_commit genesis_change with Ok c => c | _ => TSNoChange end.

Lemma verify_and_ratchet_trusts_witness :
  ts_verified_state (change_state client ratcheted) = waypoint_new_any (liws_ledger_info first_commit) /\
  trusts (VWaypoint genesis_waypoint) first_commit.
Proof.
  destruct (verify_and_ratchet_trusts client first_commit genesis_change ratcheted) as (Hs & _ & Ht & _);
    [vm_compute; reflexivity|]. split; [exact Hs|]. apply Ht. intros E.
  apply (f_equal (fun c => match c with TSNoChange => true | _ => false end)) in E. vm_compute in E. discriminate E.
Defined.

(** ** Key rotation *)

Definition with_key : InMemoryStorage :=
  mkInMemoryStorage {[ CONSENSUS_KEY := mkGetResponse 0 (VEd25519PrivateKey 7) ]} 0.

Definition new_key : PrivateKey := 8.
Definition rotated : InMemoryStorage := (rotate_key InMemoryStorage CONSENSUS_KEY new_key with_key).1.

Lemma rotate_key_Ok_witness : kv_contents rotated CONSENSUS_KEY = Some (VEd25519PrivateKey new_key) /\
  kv_contents rotated "consensus_previous" = kv_contents with_key CONSENSUS_KEY.
Proof.
  destruct (rotate_key_Ok InMemoryStorage CONSENSUS_KEY new_key with_key rotated new_key) as (_ & Hn & Hp & _);
    [vm_compute; reflexivity|]. split; [exact Hn|exact Hp].
Defined.

(** ** Safety rules *)

#[local] Opaque started final net.

Lemma started_1 : epoch_start 1 (committee 1) (started 1).
Proof. apply started_start. by left. Qed.

Lemma voting_safety_witness : length (votes_of 1 1) = 4%nat /\
  forall v w, v ∈ votes_of 1 1 -> w ∈ votes_of 1 1 -> vote_round v = vote_round w -> v = w.
Proof.
  split; [vm_compute; reflexivity|]. destruct (history_run final 1 final_runs) as [s Hs].
  destruct (voting_safety hash_internal placeholder 1 (committee 1) (proposed observed) (started 1) (votes_of 1 1) s)
    as (_ & Hone & _); [exact started_1|exact Hs|exact Hone].
Defined.

Lemma ok_pair {S E A} (r : S * result E A) : is_ok r.2 = true -> exists s a, r = (s, Ok a).
Proof. destruct r as [s [a|e|]]; [by exists s, a|done..]. Qed.

Lemma vote_signed_witness : exists s v, vote_on (started 1) (proposal 1 genesis_qc) = (s, Ok v) /\
  vote_round v = block_round (vp_block (msvp_vote_proposal (proposal 1 genesis_qc))).
Proof.
  destruct (ok_pair (vote_on (started 1) (proposal 1 genesis_qc))) as (s & v & E); [vm_compute; reflexivity|].
  exists s, v. split; [exact E|].
  pose proof (vote_signed hash_internal placeholder 1 (committee 1) (started 1) 0 0 None (proposal 1 genesis_qc) s v
    started_1 E) as [Hr _]. exact Hr.
Defined.

Lemma timeout_signed_witness : exists s sig, sign_timeout (mkTimeout 1 5) (started 1) = (s, Ok sig) /\
  stored 1 (committee 1) 5 0 None s.
Proof.
  destruct (ok_pair (sign_timeout (mkTimeout 1 5) (started 1))) as (s & sig & E); [vm_compute; reflexivity|].
  exists s, sig. split; [exact E|].
  pose proof (timeout_signed 1 (committee 1) (started 1) 0 0 None (mkTimeout 1 5) s sig started_1 E) as (_ & _ & _ & Hs).
  exact Hs.
Defined.

Lemma initialize_effect_witness : exists s u, initialize genesis_change (started 1) = (s, Ok u) /\
  exists es cur, epoch_state s = Some es /\ contents (started 1) EPOCH = Some (VU64 cur).
Proof.
  destruct (ok_pair (initialize genesis_change (started 1))) as (s & [] & E); [vm_compute; reflexivity|].
  exists s, tt. split; [exact E|].
  destruct (initialize_effect genesis_change (started 1) s E) as (es & cur & He & Hc & _). exists es, cur. exact (conj He Hc).
Defined.

(** ** Behaviours worth knowing *)

Definition after_vote : SafetyRules := (vote_on (started 1) (proposal 1 genesis_qc)).1.
Definition after_timeout : SafetyRules := (sign_timeout (mkTimeout 1 5) after_vote).1.
Definition after_revote : SafetyRules := (vote_on after_timeout (proposal 1 genesis_qc)).1.

(** Repeating the last vote lowers the last voted round: a validator that voted in round 1 and then
    signed a timeout for round 5 gives out the vote of round 1 again, which sets the last voted round
    back from 5 to 1 and reopens rounds 2 to 5 for voting. *)
Example revote_lowers_last_voted_round :
  is_ok (vote_on (started 1) (proposal 1 genesis_qc)).2 = true /\
  is_ok (sign_timeout (mkTimeout 1 5) after_vote).2 = true /\
  contents after_timeout LAST_VOTED_ROUND = Some (VU64 5) /\
  result_ok (vote_on after_timeout (proposal 1 genesis_qc)).2 = result_ok (vote_on (started 1) (proposal 1 genesis_qc)).2 /\
  contents after_revote LAST_VOTED_ROUND = Some (VU64 1).
Proof. split_and!; vm_compute; reflexivity. Qed.

(** A storage in which one write fails without effect. *)
Record FlakyStorage := mkFlakyStorage { fl_inner : InMemoryStorage; fl_writes : Z; fl_failing : Z }.

#[local] Instance flaky_kv : KVStorage FlakyStorage := {|
  kv_available := m_ret tt;
  kv_get k := fun s => (s, (kv_get k (fl_inner s)).2);
  kv_set k v := fun s =>
    let n := fl_writes s + 1 in
    if n =? fl_failing s then ({| fl_inner := fl_inner s; fl_writes := n; fl_failing := fl_failing s |}, Err (SInternalError "io"))
    else ({| fl_inner := (kv_set k v (fl_inner s)).1; fl_writes := n; fl_failing := fl_failing s |}, Ok tt)
|}.

#[local] Program Instance flaky_laws : KVStorageLaws FlakyStorage := {|
  kv_contents s k := kv_contents (fl_inner s) k
|}.
Next Obligation. done. Qed.
Next Obligation. intros k s r Hr. by apply (kv_get_Ok k (fl_inner s)). Qed.
Next Obligation.
  cbn. intros k v s. destruct (Z.eqb_spec (fl_writes s + 1) (fl_failing s)); [done|].
  intros _ k'. exact (kv_set_Ok k v (fl_inner s) eq_refl k').
Qed.
Next Obligation. cbn. intros k v s. destruct (Z.eqb_spec (fl_writes s + 1) (fl_failing s)); [by left|done]. Qed.

(** Epoch 1 ends with this ledger info, signed by the validators 1 to 3. *)
Definition end_of_epoch : LedgerInfo :=
  mkLedgerInfo (mkBlockInfo 1 9 HashValue_zero placeholder 0 0 (Some (mkEpochState 2 (verifier_new infos)))) HashValue_zero.
Definition signed_end_of_epoch : LedgerInfoWithSignatures :=
  mkLedgerInfoWithSignatures end_of_epoch
    (list_to_map (map (fun a => (a, signer_sign (T:=LedgerInfo) {| signer_author := a; signer_private_key := a + 100 |} end_of_epoch)) [1; 2; 3])).

(** Two blocks of round 1. *)
Definition block_at (timestamp : Z) : MaybeSignedVoteProposal := {|
  msvp_vote_proposal := {|
    vp_accumulator_extension_proof := {| ext_frozen_subtree_roots := []; ext_num_leaves := 0; ext_leaves := [] |};
    vp_block := block_new_proposal [] 1 timestamp genesis_qc {| signer_author := 2; signer_private_key := 102 |};
    vp_next_epoch_state := None |};
  msvp_signature := None |}.

Definition fl_started : SafetyRules (S:=FlakyStorage) :=
  let ps := (pss_initialize 1 101 201 genesis_waypoint
    (mkPersistentSafetyStorage (mkFlakyStorage (mkInMemoryStorage ∅ 0) 0 16) (mkCounters 0 0 0 0 0 0))).1 in
  (initialize genesis_change (mkSafetyRules ps None None None)).1.
Definition fl_vote (s : SafetyRules (S:=FlakyStorage)) (timestamp : Z) : SafetyRules * result Error Vote :=
  construct_and_sign_vote hash_internal placeholder (block_at timestamp) s.
Definition fl_voted : SafetyRules (S:=FlakyStorage) := (fl_vote fl_started 10).1.
Definition epoch_change : EpochChangeProof :=
  {| ledger_info_with_sigs := [mkLedgerInfoWithSignatures genesis ∅; signed_end_of_epoch]; more := false |}.
Definition fl_epoch_change : SafetyRules * result Error unit :=
  initialize epoch_change fl_voted.

(** A write that fails while [initialize] moves to the next epoch leaves the old epoch with its last
    voted round and last vote already reset: a validator that voted in round 1, saw the epoch change
    fail at its last write, and is asked again votes for a different block of round 1 of the same
    epoch. *)
Example interrupted_epoch_change_equivocates :
  is_ok fl_epoch_change.2 = false /\
  match result_ok (fl_vote fl_started 10).2, result_ok (fl_vote fl_epoch_change.1 20).2 with
  | Some v1, Some v2 =>
    vote_author v1 = vote_author v2 /\ vote_epoch v1 = vote_epoch v2 /\ vote_round v1 = vote_round v2 /\
    bool_decide (bi_id (vd_proposed (vote_data v1)) = bi_id (vd_proposed (vote_data v2))) = false
  | _, _ => False
  end.
Proof. vm_compute. split_and!; reflexivity. Qed.

(** The epoch change that stops after four of its five writes. *)
Lemma initialize_interrupted_witness : exists s r, initialize epoch_change fl_voted = (s, r) /\ is_ok r = false /\
  epoch_state s = epoch_state fl_voted /\ interrupted 1 (committee 1) epoch_change fl_voted false s.
Proof.
  destruct (initialize epoch_change fl_voted) as [s r] eqn:E. exists s, r. split; [reflexivity|].
  assert (Hr : is_ok r = false) by (change r with (s, r).2; rewrite <- E; vm_compute; reflexivity). split; [exact Hr|].
  destruct (initialize_interrupted 1 (committee 1) epoch_change fl_voted s r E) as [He Hi].
  rewrite Hr in Hi. exact (conj (He Hr) Hi).
Defined.
End Examples.
