(* ===== verification/ByteConcrete.v ===== *)
(** * A concrete instance of the ledger and storage interfaces

    Hash values of exactly 32 bytes, a polynomial hash over them, and a canonical
    serialization of the stored values.  It meets the laws of [HashBytes] and [Lcs]
    together with those of [Crypto], and the verifiers and the database evaluate on it.
    The hash is not collision resistant and need not be: the soundness theorems return
    collisions explicitly. *)

From stdpp Require Import countable.
From S2P Require Import Prelude U64 Bytes Lcs LedgerCounters Crypto Hash Accumulator ValidatorVerifier LedgerInfo.
From S2P Require Import SparseMerkleProof LedgerProof NodeType Schema.

Module ByteConcrete.

(** ** Hash values *)

Definition is_hash (z : Z) : Prop := 0 <= z < 256 ^ 32.
#[export] Instance is_hash_dec z : Decision (is_hash z).
Proof. unfold is_hash. apply _. Defined.

Definition hash256 : Type := dsig is_hash.

Lemma is_hash_mod z : is_hash (z mod 256 ^ 32).
Proof. apply Z.mod_pos_bound. lia. Qed.

Definition hash_of (z : Z) : hash256 := dexist (z mod 256 ^ 32) (is_hash_mod z).
Definition to_Z (h : hash256) : Z := `h.

#[export] Instance crypto : Crypto := {|
  HashValue := hash256;
  HashValue_zero := hash_of 0;
  PublicKey := Z;
  PrivateKey := Z;
  Signature := Z * list Z;
  Bytes := list Z;
  public_key sk := sk;
  sign_bytes sk m := (sk, m);
  verify_bytes pk m sig := bool_decide (sig = (pk, m));
  batch_verify_bytes m l := forallb (fun '(pk, sig) => bool_decide (sig = (pk, m))) l
|}.

#[export] Instance crypto_laws : CryptoLaws crypto.
Proof.
  split.
  - intros sk m. by apply bool_decide_eq_true.
  - intros m l Hl. apply List.Forall_forall. intros [pk sig] Hin.
    by apply (proj1 (forallb_forall _ _) Hl) in Hin.
Qed.

#[export] Instance hash_bytes_inst : HashBytes := {|
  hash_bytes h := to_be_bytes 32 (to_Z h);
  hash_new b := hash_of (from_be_bytes b)
|}.

Lemma hash_of_to_Z h : hash_of (to_Z h) = h.
Proof. apply dsig_eq. cbn. apply Z.mod_small. apply (proj2_dsig h). Qed.

#[export] Instance hash_bytes_laws : HashBytesLaws hash_bytes_inst.
Proof.
  split; unfold hash_bytes, hash_new, hash_bytes_inst.
  - intros h. apply to_be_bytes_length.
  - intros h. apply to_be_bytes_bytes.
  - intros h. rewrite from_to_be_bytes. change (256 ^ Z.of_nat 32) with (256 ^ 32).
    rewrite Z.mod_small by apply (proj2_dsig h). apply hash_of_to_Z.
  - intros b Hl Hb. unfold hash_of, to_Z. cbn [proj1_sig dexist]. pose proof (from_be_bytes_bound b Hb) as Hr.
    rewrite Hl in Hr. rewrite Z.mod_small by exact Hr. change 32%nat with HASH_LENGTH. rewrite <- Hl. by apply to_from_be_bytes.
Qed.

(** A polynomial in the numbers of the list, after a tag for the type. *)
Definition poly_hash (tag : Z) (l : list Z) : hash256 :=
  hash_of (fold_left (fun acc x => (acc * 1000003 + x + 1) mod 256 ^ 32) l (tag * 7919 + 104729)).

#[export] Instance ledger_hashers : LedgerHashers := {|
  TransactionAccumulatorInternalNode_hash l r := poly_hash 1 [to_Z l; to_Z r];
  EventAccumulatorInternalNode_hash l r := poly_hash 2 [to_Z l; to_Z r];
  SparseMerkleInternalNode_hash l r := poly_hash 3 [to_Z l; to_Z r];
  ACCUMULATOR_PLACEHOLDER_HASH := poly_hash 4 [];
  SPARSE_MERKLE_PLACEHOLDER_HASH := poly_hash 5 []
|}.

(** ** Serialization *)

#[export] Instance ValidatorConsensusInfo_countable : Countable ValidatorConsensusInfo.
Proof.
  refine (inj_countable' (fun v => (vci_public_key v, vci_voting_power v))
            (fun '(k, p) => mkValidatorConsensusInfo k p) _). by intros [].
Defined.
#[export] Instance ValidatorVerifier_countable : Countable ValidatorVerifier.
Proof.
  refine (inj_countable' (fun v => (address_to_validator_info v, quorum_voting_power v, total_voting_power v))
            (fun '(m, q, t) => mkValidatorVerifier m q t) _). by intros [].
Defined.
#[export] Instance EpochState_countable : Countable EpochState.
Proof.
  refine (inj_countable' (fun v => (es_epoch v, es_verifier v)) (fun '(e, v) => mkEpochState e v) _). by intros [].
Defined.
#[export] Instance hash256_countable : Countable hash256.
Proof. refine (inj_countable' to_Z hash_of _). apply hash_of_to_Z. Defined.
#[export] Instance BlockInfo_countable : Countable BlockInfo.
Proof.
  refine (inj_countable' (fun b => (bi_epoch b, bi_round b, (bi_id b : hash256), (bi_executed_state_id b : hash256),
      bi_version b, bi_timestamp_usecs b, bi_next_epoch_state b))
    (fun '(e, r, i, x, v, t, n) => mkBlockInfo e r i x v t n) _). by intros [].
Defined.
#[export] Instance LedgerInfoWithSignatures_countable : Countable LedgerInfoWithSignatures.
Proof.
  refine (inj_countable' (fun l => (li_commit_info (liws_ledger_info l),
      (li_consensus_data_hash (liws_ledger_info l) : hash256), (liws_signatures l : gmap Z (Z * list Z))))
    (fun '(c, h, s) => mkLedgerInfoWithSignatures (mkLedgerInfo c h) s) _). by intros [[] ?].
Defined.
#[export] Instance TransactionInfo_countable : Countable TransactionInfo.
Proof.
  refine (inj_countable' (fun i => ((ti_transaction_hash i : hash256), (ti_state_root_hash i : hash256),
      (ti_event_root_hash i : hash256), ti_gas_used i, ti_major_status i))
    (fun '(t, s, e, g, m) => mkTransactionInfo t s e g m) _). by intros [].
Defined.
#[export] Instance SignedTransaction_countable : Countable SignedTransaction.
Proof.
  refine (inj_countable' (fun t => let r := st_raw_txn t in (rt_sender r, rt_sequence_number r, (rt_payload r : list Z),
      rt_max_gas_amount r, rt_gas_unit_price r, rt_gas_currency_code r, rt_expiration_time r, (st_authenticator t : list Z)))
    (fun '(s, n, p, g, u, c, e, a) => mkSignedTransaction (mkRawTransaction s n p g u c e) a) _). by intros [[] ?].
Defined.
#[export] Instance BlockMetadata_countable : Countable BlockMetadata.
Proof.
  refine (inj_countable' (fun b => ((bm_id b : hash256), bm_round b, bm_timestamp_usecs b, bm_previous_block_votes b, bm_proposer b))
    (fun '(i, r, t, v, p) => mkBlockMetadata i r t v p) _). by intros [].
Defined.
#[export] Instance Transaction_countable : Countable Transaction.
Proof.
  refine (inj_countable' (fun t => match t with
      | UserTransaction t => inl t
      | WaypointWriteSet c => inr (inl (c : list Z))
      | BlockMetadataTransaction b => inr (inr b) end)
    (fun s => match s with
      | inl t => UserTransaction t
      | inr (inl c) => WaypointWriteSet c
      | inr (inr b) => BlockMetadataTransaction b end) _). by intros [].
Defined.
#[export] Instance ContractEvent_countable : Countable ContractEvent.
Proof.
  refine (inj_countable' (fun e => (ce_key e, ce_sequence_number e, (ce_type_tag e : list Z), ce_event_data e))
    (fun '(k, s, t, d) => mkContractEvent k s t d) _). by intros [].
Defined.

#[export] Instance LeafNode_countable : Countable LeafNode.
Proof.
  refine (inj_countable' (fun l => ((account_key l : hash256), (blob_hash l : hash256), blob (leaf_blob l)))
    (fun '(k, h, b) => mkLeafNode k h (mkAccountStateBlob b)) _). by intros [? ? []].
Defined.

Fixpoint pos_bits (p : positive) : bytes :=
  match p with
  | 1%positive => []
  | (p~0)%positive => 0 :: pos_bits p
  | (p~1)%positive => 1 :: pos_bits p
  end.
Fixpoint bits_pos (l : bytes) : positive :=
  match l with
  | [] => 1%positive
  | c :: l => if c =? 0 then (bits_pos l)~0 else (bits_pos l)~1
  end.
Lemma lcs_bits_roundtrip p : bits_pos (pos_bits p) = p.
Proof. by induction p as [p IH|p IH|]; cbn; rewrite ?IH. Qed.

#[export] Instance countable_lcs `{Countable T} : Lcs T := {|
  lcs_to_bytes v := Ok (pos_bits (encode v));
  lcs_from_bytes b := ok_or (decode (bits_pos b)) "lcs"%string
|}.
#[export] Instance countable_lcs_laws `{Countable T} : LcsLaws T.
Proof. intros v raw [= <-]. cbn. rewrite lcs_bits_roundtrip. by rewrite decode_encode. Qed.

(** ** Hashes of the data *)

Definition enc_hash (tag : Z) `{Countable T} : CryptoHash T := {|
  signing_message v := [tag; Z.pos (encode v)];
  crypto_hash v := poly_hash tag [Z.pos (encode v)]
|}.

#[export] Instance transaction_info_hash : CryptoHash TransactionInfo := enc_hash 10.
#[export] Instance transaction_hash : CryptoHash Transaction := enc_hash 11.
#[export] Instance contract_event_hash : CryptoHash ContractEvent := enc_hash 12.
#[export] Instance account_state_blob_hash : CryptoHash AccountStateBlob := {|
  signing_message b := 13 :: blob b; crypto_hash b := poly_hash 13 (blob b) |}.
#[export] Instance sparse_leaf_hash : CryptoHash SparseMerkleLeafNode := {|
  signing_message l := [14; to_Z (leaf_key l); to_Z (leaf_value_hash l)];
  crypto_hash l := poly_hash 14 [to_Z (leaf_key l); to_Z (leaf_value_hash l)] |}.
#[export] Instance account_address_hash : CryptoHash AccountAddress := {|
  signing_message a := [15; a]; crypto_hash a := poly_hash 15 [a] |}.
#[export] Instance ledger_info_hash : CryptoHash LedgerInfo := {|
  signing_message l := [16; Z.pos (encode (mkLedgerInfoWithSignatures l ∅))];
  crypto_hash l := poly_hash 16 [Z.pos (encode (mkLedgerInfoWithSignatures l ∅))] |}.
#[export] Instance waypoint_hash : CryptoHash Ledger2WaypointConverter := {|
  signing_message w := [17; lw_epoch w; to_Z (lw_root_hash w); lw_version w; lw_timestamp_usecs w;
    Z.pos (encode (lw_next_epoch_state w))];
  crypto_hash w := poly_hash 17 [lw_epoch w; to_Z (lw_root_hash w); lw_version w; lw_timestamp_usecs w;
    Z.pos (encode (lw_next_epoch_state w))] |}.
End ByteConcrete.
