(* ===== verification/ConsensusExamples.v ===== *)
(** * The consensus node on concrete data

    Votes of the network of four validators, the tree of their blocks, the rounds they go
    through and the leaders that are drawn. *)

From stdpp Require Import countable.
From S2P Require Import Prelude U64 Bytes Crypto Hash ValidatorVerifier LedgerInfo Accumulator AccumulatorProof ConsensusTypes.
From S2P Require Import PendingVotes ProposerElection LeaderReputation RoundState BlockTree BlockTreeProof.
From S2P Require Import SecureStorage SafetyRules Concrete SafetyRulesProof ConsensusSafety Network Examples ByteConcrete.

Module ConsensusExamples.

(** An equation that evaluates to the same on both sides. *)
Ltac by_vm := match goal with |- _ = ?r => vm_cast_no_check (eq_refl r) | |- ?x < ?y => vm_cast_no_check (eq_refl Lt) end.

Module OnTerms.
Import Symbolic Concrete Network Examples.

#[export] Instance term_countable : Countable (@HashValue crypto) := gen_tree_countable.

(** ** Votes *)

(** The vote of validator [a] in round 1. *)
Definition vote_of (a : AccountAddress) : Vote :=
  match (vote_on (started a) (proposal 1 genesis_qc)).2 with
  | Ok v => v
  | _ => mkVote (mkVoteData block_info_empty block_info_empty) a genesis (a, GenLeaf 0) None
  end.
Definition votes : list Vote := Eval vm_compute in map vote_of [1; 2; 3].

Definition third : Vote := nth 2 votes (vote_of 3).

Lemma hash_no_collision l : no_collision l.
Proof. intros v1 v2 _ _ Hd. rewrite <- (dec_enc_ledger_info (vote_ledger_info v1)), <- (dec_enc_ledger_info (vote_ledger_info v2)). f_equal. exact Hd. Qed.

Lemma cast_votes_valid : Forall (valid_vote infos 1 1) votes.
Proof. repeat (constructor; [split; vm_compute; reflexivity|]). constructor. Qed.

Lemma votes_counted_witness : exists qc,
  (insert_vote (receive infos (take 2 votes)) (third) (verifier_new infos)).2 = NewQuorumCertificate qc /\
  quorum_cert_verify qc (verifier_new infos) = Ok tt.
Proof.
  pose proof (votes_counted infos 1 1 infos_wf (take 2 votes) third cast_votes_valid (hash_no_collision _)) as Hr. unfold received in Hr.
  case_match eqn:Eb; [vm_compute in Eb; discriminate Eb|]. unfold counted in Hr. case_match eqn:Eq; [|vm_compute in Eq; discriminate Eq].
  destruct Hr as (qc & E & _ & _ & _ & Hv). exists qc. split; [exact E|]. rewrite Hv by done. vm_compute. reflexivity.
Defined.

End OnTerms.

Module OnNumbers.

(** Numbers as hash values keep the trees small. *)
#[export] Instance crypto : Crypto := {|
  HashValue := Z;
  HashValue_zero := 0;
  PublicKey := Z;
  PrivateKey := Z;
  Signature := Z * Z;
  Bytes := Z;
  public_key sk := sk;
  sign_bytes sk m := (sk, m);
  verify_bytes pk m sig := bool_decide (sig = (pk, m));
  batch_verify_bytes m l := forallb (fun '(pk, sig) => bool_decide (sig = (pk, m))) l
|}.

#[export] Instance number_countable : Countable (@HashValue crypto) := Z_countable.
#[export] Instance number_order : HashSetOrder (@HashValue crypto) := {| set_iter := elements; set_iter_perm X := reflexivity _ |}.
#[export] Instance block_data_hash : CryptoHash BlockData := {| signing_message b := bd_round b + 1; crypto_hash b := bd_round b + 1 |}.

(** ** Blocks *)

(** The genesis block, two blocks of rounds 1 and 2 on top of it, and one of round 3 on the
    second: the hash value of a block is one more than its round. *)
Definition round_of (x : HashValue) : Z := x - 1.
Definition parent_of (x : HashValue) : HashValue := if x =? 3 then 1 else x - 1.

Lemma rounds_mono x : round_of (parent_of x) <= round_of x.
Proof. unfold round_of, parent_of. destruct (Z.eqb_spec x 3); lia. Qed.

(** A certificate for a block, which commits another one. *)
Definition certify (b commit : BlockInfo) : QuorumCert :=
  mkQuorumCert (mkVoteData b block_info_empty) (mkLedgerInfoWithSignatures (mkLedgerInfo commit 0) ∅).
Definition info (round : Z) : BlockInfo := mkBlockInfo 1 round (if round =? -1 then 0 else round + 1) 0 0 0 None.
Definition executed (b : Block) : ExecutedBlock := mkExecutedBlock b (state_compute_result_new 0 [] 0 [] 0 None [] []).
Definition b0 : ExecutedBlock := executed (block_new_nil 0 (certify (info (-1)) (info (-1)))).
Definition b1 : ExecutedBlock := executed (block_new_nil 1 (certify (info 0) (info 0))).
Definition b2 : ExecutedBlock := executed (block_new_nil 2 (certify (info 0) (info 0))).
Definition b3 : ExecutedBlock := executed (block_new_nil 3 (certify (info 2) (info 0))).

Definition get {A} (d : A) (r : result string A) : A := match r with Ok t => t | _ => d end.
Definition blank : BlockTree := mkBlockTree ∅ 0 0 (certify (info 0) (info 0)) None (certify (info 0) (info 0)) ∅ [] 0.
Definition t0 : BlockTree := Eval vm_compute in get blank (block_tree_new b0 (certify (info 0) (info 0)) (certify (info 0) (info 0)) 1 None).
Definition t1 : BlockTree := Eval vm_compute in (get (blank, b0) (insert_block t0 b1)).1.
Definition t2 : BlockTree := Eval vm_compute in (get (blank, b0) (insert_block t1 b2)).1.
Definition t3 : BlockTree := Eval vm_compute in (get (blank, b0) (insert_block t2 b3)).1.
Definition t4 : BlockTree := Eval vm_compute in get blank (bt_insert_quorum_cert t3 (certify (info 3) (info 2))).

Lemma b0_valid : valid_block round_of parent_of b0.
Proof. split; by_vm. Qed.
Lemma b1_valid : valid_block round_of parent_of b1.
Proof. split; by_vm. Qed.
Lemma b2_valid : valid_block round_of parent_of b2.
Proof. split; by_vm. Qed.
Lemma b3_valid : valid_block round_of parent_of b3.
Proof. split; by_vm. Qed.

(** Reachability, by walking down child links. *)
Fixpoint walk (t : BlockTree) (x : HashValue) (path : list HashValue) : option HashValue :=
  match path with
  | [] => Some x
  | y :: path => match id_to_block t !! x with Some lb => if bool_decide (y ∈ lb_children lb) then walk t y path else None | None => None end
  end.

Lemma walk_descends t path : forall x y, walk t x path = Some y -> descends t x y.
Proof.
  induction path as [|z path IH]; intros x y; cbn; [intros [= ->]; constructor|].
  case_match eqn:E; [|done]. case_match eqn:Hz; [|done]. apply bool_decide_eq_true in Hz.
  intros Hw. eapply rtc_l; [by exists l|by apply IH].
Qed.

Lemma t4_reached : rtc (tree_step round_of parent_of) t0 t4.
Proof.
  eapply rtc_l; [apply (step_block _ _ t0 b1 t1 b1); [exact b1_valid|apply (walk_descends _ [])|]; by_vm|].
  eapply rtc_l; [apply (step_block _ _ t1 b2 t2 b2); [exact b2_valid|apply (walk_descends _ [])|]; by_vm|].
  eapply rtc_l; [apply (step_block _ _ t2 b3 t3 b3); [exact b3_valid|apply (walk_descends _ [3])|]; by_vm|].
  eapply rtc_l; [|constructor].
  apply (step_quorum_cert _ _ t3 (certify (info 3) (info 2)) t4); [apply (walk_descends _ [3; 4])|]; by_vm.
Qed.


Lemma t4_ok : tree_ok round_of parent_of t4.
Proof.
  apply (tree_reachable_ok round_of parent_of rounds_mono t0 t4); [|exact t4_reached].
  apply (block_tree_new_ok round_of parent_of rounds_mono b0 (certify (info 0) (info 0)) (certify (info 0) (info 0)) 1 None);
    [exact b0_valid|by_vm|by_vm].
Qed.


Lemma path_from_root_exact_witness : bt_path_from_root t4 4 = Ok (Some [b2; b3]) /\ links t4 1 [b2; b3] 4.
Proof.
  assert (E : bt_path_from_root t4 4 = Ok (Some [b2; b3])) by (by_vm). split; [exact E|].
  destruct (path_from_root_exact round_of parent_of t4 4 t4_ok) as (r & Er & Hr). rewrite E in Er. injection Er as <-. apply Hr.
Defined.

(** ** Rounds *)

#[export] Instance ledger_info_hash : CryptoHash LedgerInfo := {| signing_message _ := 0; crypto_hash _ := 0 |}.
#[export] Instance vote_data_hash : CryptoHash VoteData := {| signing_message _ := 0; crypto_hash _ := 0 |}.
#[export] Instance timeout_hash : CryptoHash Timeout := {| signing_message _ := 0; crypto_hash _ := 0 |}.

(** The certificates of rounds 3 and 5. *)
Definition sync_info (round : Z) : SyncInfo := sync_info_new (certify (info round) (info (round - 2))) (certify (info round) (info (round - 2))) None.
Definition round_0 : RoundState := round_state_new (fun _ => 1000) 0.
Definition round_4 : RoundState := (process_certificates round_0 (sync_info 3) 10).1.1.
Definition round_6 : RoundState := (process_certificates round_4 (sync_info 5) 20).1.1.

Lemma new_rounds_increase_witness : Sorted.StronglySorted Z.lt [0; 4; 6] /\ Some 6 = Some (current_round round_6).
Proof.
  destruct (new_rounds_increase (verifier_new ∅) (fun _ => 1000) 0 [4; 6] round_6) as (Hs & Hl & _); [|split; [exact Hs|exact Hl]].
  apply (RoundState.run_step (verifier_new ∅) round_0 (Some (mkNewRoundEvent 4 QCReady 1000)) round_4 [6] round_6).
  { exact (step_certificates (verifier_new ∅) round_0 (sync_info 3) 10). }
  apply (RoundState.run_step (verifier_new ∅) round_4 (Some (mkNewRoundEvent 6 QCReady 1000)) round_6 [] round_6); [|apply RoundState.run_nil].
  exact (step_certificates (verifier_new ∅) round_4 (sync_info 5) 20).
Defined.
End OnNumbers.

(** ** Leaders *)

Module OnBytes.
Import ByteConcrete.

(** Three proposers, of which the second one voted lately. *)
Definition history : list NewBlockEvent := [mkNewBlockEvent 7 2 [2] 100].
Definition reputation : LeaderReputation :=
  mkLeaderReputation [1; 2; 3] (fun _ => history) (get_weights (mkActiveInactiveHeuristic 99 1)).
Definition some_hash (b : bytes) : HashValue := hash_of (from_be_bytes b * 31 + 5).

Lemma leader_drawn_by_weight_witness : exists k proposer,
  get_valid_proposer (ProposerElection := leader_reputation_election some_hash) reputation 11 = Ok proposer /\
  [1; 2; 3] !! k = Some proposer /\
  zsum id (take k [1; 99; 1]) <= drawn some_hash 11 mod 101 < zsum id (take (S k) [1; 99; 1]).
Proof.
  exact (leader_drawn_by_weight some_hash reputation 11 [1; 99; 1] ltac:(vm_compute; reflexivity) eq_refl
    ltac:(repeat (constructor; [done|]); constructor) ltac:(vm_compute; reflexivity)).
Defined.
End OnBytes.
End ConsensusExamples.
