(* ===== verification/NodeExamples.v ===== *)
(** * The block store and the round manager on concrete data

    A validator with an executor that keeps the identifiers of the blocks it has computed,
    a storage in memory and a peer that serves blocks. *)

From stdpp Require Import countable.
From S2P Require Import Prelude U64 Crypto Hash ValidatorVerifier LedgerInfo Accumulator AccumulatorProof ConsensusTypes.
From S2P Require Import PendingVotes ProposerElection RoundState BlockTree BlockTreeProof ConsensusDb LedgerStore Recovery BlockStore BlockStoreProof.
From S2P Require Import SafetyRules RoundManager RoundManagerProof ConsensusExamples.

Module NodeExamples.
Import ConsensusExamples ConsensusExamples.OnNumbers.

(** ** The surroundings *)

(** The executor forgets everything but the block that was committed last. *)
#[export] Instance list_computer : StateComputer (list Z) := {|
  compute (c : list Z) b parent := if bool_decide ((parent : Z) ∈ c) then ((block_id b : Z) :: c, Ok (eb_compute_result (executed b))) else (c, Err (BlockStore.BlockNotFound parent));
  sc_commit c ids li := match list.last ids with Some i => (filter (fun x => x = i) c, Ok tt) | None => (c, Ok tt) end;
  sync_to c li := (c, Ok tt)
|}.

#[export] Instance list_computer_laws : StateComputerLaws parent_of (list Z).
Proof.
  refine {| speculated := fun (c : list Z) x => x ∈ c |}.
  - intros c b parent c' r x E Hx. cbn in E. case_bool_decide as Hp; injection E as <- <-; [|by left]. apply elem_of_cons in Hx as [->|?]; [by right|by left].
  - intros c b parent c' res E. cbn in E. by case_bool_decide.
  - intros c ids li c' r x E Hx. cbn in E. case_match; injection E as <- <-; [|done]. by apply list_elem_of_filter in Hx as [_ ?].
  - intros c ids li c' i x E Hx. change (match list.last (ids ++ [i]) with Some i => (filter (fun x => x = i) c, Ok tt) | None => (c, Ok tt) end = (c', Ok (E:=string) tt)) in E.
    rewrite last_snoc in E. injection E as <-. apply list_elem_of_filter in Hx as [-> _]. by exists 0%nat.
Defined.

Definition genesis_qc : QuorumCert := mkQuorumCert (mkVoteData (info 0) (info 0)) (mkLedgerInfoWithSignatures (mkLedgerInfo (info 0) 0) ∅).
Definition root : RootInfo := mkRootInfo (eb_block b0) genesis_qc genesis_qc.
Definition metadata : RootMetadata := mkRootMetadata 0 [] 0.

#[export] Instance memory_storage : PersistentLivenessStorage Stored := {|
  save_tree p blocks qcs := Ok (stored_tree p blocks qcs);
  pls_prune_tree p ids := Ok (stored_without p ids);
  save_vote p vote := Ok (mkStored (s_blocks p) (s_qcs p) (Some vote) (s_tc p));
  recover_from_ledger p := Ok (mkLedgerRecoveryData (mkLedgerInfo (info 0) 0));
  start p := Ok (p, RecoveryDataFound (mkRecoveryData (s_vote p) root metadata [] [] None (s_tc p)));
  save_highest_timeout_cert p tc := Ok (mkStored (s_blocks p) (s_qcs p) (s_vote p) (Some tc))
|}.
#[export] Instance memory_storage_laws : PersistentLivenessStorageLaws Stored.
Proof. refine {| stores := fun p c => p = c |}; [by intros p c blocks qcs p' -> _ [= <-]|by intros p c x p' -> [= <-]..]. Defined.
Definition nothing : Stored := mkStored ∅ ∅ None None.

(** The peer answers every request with the same blocks. *)
Definition infos : gmap AccountAddress ValidatorConsensusInfo := {[ 1 := mkValidatorConsensusInfo 1 1 ]}.
Record Peer := mkPeer { peer_blocks : list (BlockData * option Signature) }.
#[export] Instance peer : NetworkSender Peer := {|
  ns_author _ := 1;
  ns_validators _ := verifier_new infos;
  send_rpc n from req timeout := (n, Ok (Some (mkBlockRetrievalResponse Succeeded (map (fun '(bd, sig) => block_deserialize bd sig) (peer_blocks n)))));
  broadcast_epoch_change n proof := n;
  notify_epoch_change n proof := n
|}.
Definition gen_range (attempt : Z) (n : nat) : nat := 0.

(** ** The store *)

Definition blocks : list Block := [eb_block b1; eb_block b2; eb_block b3].
Definition store_of (r : result string (BlockStore (C:=list Z) (P:=Stored) (N:=Peer))) : BlockStore :=
  match r with Ok s => s | _ => mkBlockStore blank [] nothing (mkPeer []) end.
Definition built : result string (BlockStore (C:=list Z) (P:=Stored) (N:=Peer)) :=
  build root metadata blocks [certify (info 2) (info 0)] None [1] nothing (mkPeer []) 1.
Definition s0 : BlockStore := Eval vm_compute in store_of built.
Definition s1 : BlockStore := Eval vm_compute in (insert_single_quorum_cert (certify (info 3) (info 2)) s0).1.
Definition final : LedgerInfoWithSignatures := mkLedgerInfoWithSignatures (mkLedgerInfo (info 2) 0) ∅.
Definition s2 : BlockStore := Eval vm_compute in (bs_commit final s1).1.

Lemma built_Ok : built = Ok s0.
Proof. by_vm. Qed.

Lemma blocks_good : Forall (good round_of parent_of) blocks.
Proof. repeat (constructor; [split; [reflexivity|intros r; split; by_vm]|]). constructor. Qed.

Lemma root_valid r : valid_block round_of parent_of (mkExecutedBlock (eb_block b0) r).
Proof. split; by_vm. Qed.

Lemma s1_reached : rtc (store_step round_of parent_of) s0 s1.
Proof.
  assert (E : (insert_single_quorum_cert (certify (info 3) (info 2)) s0).1 = s1) by by_vm. rewrite <- E.
  eapply rtc_l; [|constructor]. apply (step_insert_quorum_cert round_of parent_of s0 (certify (info 3) (info 2))).
  intros _. apply (walk_descends _ [3; 4]). by_vm.
Qed.

Lemma s1_committable : committable (bs_inner s1) 3.
Proof. split; [apply (walk_descends _ [3])|apply (walk_descends _ [4])]; by_vm. Qed.


Lemma s1_sound : sound round_of parent_of 1 s1.
Proof.
  apply (store_reachable_sound round_of parent_of rounds_mono 1 s0 s1); [|exact s1_reached].
  apply (build_ok round_of parent_of rounds_mono 1 (eb_block b0) genesis_qc genesis_qc metadata blocks [certify (info 2) (info 0)] None [1] nothing (mkPeer []) 1 nothing s0);
    [exact built_Ok|exact root_valid|reflexivity|reflexivity|exact blocks_good|reflexivity|discriminate].
Qed.


(** ** Retrieving blocks *)

(** The block of round 1, certified by the one validator. *)
Definition block_1 : Block := block_new_nil 1 genesis_qc.
Definition block_1_qc : QuorumCert := mkQuorumCert (mkVoteData (info 1) (info 0)) (mkLedgerInfoWithSignatures (mkLedgerInfo (info 0) 0) {[ 2 := (2, 0) ]}).
Definition server : Peer := mkPeer [(block_data block_1, None)].

Lemma peer_keeps (n : Peer) from req timeout : ns_validators (send_rpc n from req timeout).1 = ns_validators n.
Proof. reflexivity. Qed.

Lemma retrieved_chain_witness : (retrieve_block_for_qc gen_range 2 block_1_qc 1 server).2 = Ok [block_1] /\ chain_from (verifier_new infos) 2 [block_1].
Proof.
  assert (E : retrieve_block_for_qc gen_range 2 block_1_qc 1 server = (server, Ok [block_1])) by by_vm. split; [exact (f_equal snd E)|].
  destruct (retrieved_chain gen_range (verifier_new infos) peer_keeps 2 block_1_qc 1 server 0 eq_refl) as [_ Hc]. by apply (Hc _ _ E).
Defined.

(** ** The round manager *)

#[export] Instance no_txns : TxnManager unit := {| pull_txns t max exclude := (t, Ok []); notify t b r := (t, Ok tt) |}.
(** A signer that signs everything. *)
#[export] Instance sign_all : TSafetyRules unit := {|
  tsr_construct_and_sign_vote p := m_ret (mkVote (mkVoteData (gen_block_info (vp_block (msvp_vote_proposal p)) 0 0 None) (info 0)) 1 (mkLedgerInfo block_info_empty 0) (1, 0) None);
  tsr_sign_proposal bd := m_ret (mkBlock (crypto_hash bd) bd (Some (1, 0)));
  tsr_sign_timeout t := m_ret (1, 0)
|}.
#[export] Instance sign_all_laws : TSafetyRulesLaws unit.
Proof. split; [by intros p r r' v [= _ <-]|by intros bd r r' b [= _ <-]]. Qed.

Definition empty_store : result string (BlockStore (C:=list Z) (P:=Stored) (N:=Peer)) := build root metadata [] [] None [1] nothing (mkPeer []) 1.

Notation manager := (RoundManager (C:=list Z) (P:=Stored) (N:=Peer) (T:=unit) (R:=unit) (L:=RotatingProposer)).
Definition m0 : manager :=
  mkRoundManager (mkEpochState 1 (verifier_new infos)) (store_of empty_store) (round_state_new (fun _ => 1000) 0) (mkRotatingProposer [1] 1) 1 10 0 tt tt Z.of_nat 0 [] [].
(** The validator starts round 1 and proposes, votes for its proposal, and times out. *)
Definition m1 : manager := Eval vm_compute in (rm_start None m0).1.
Definition proposal : ProposalMsg := Eval vm_compute in match rm_out m1 with [OutProposal msg] => msg | _ => mkProposalMsg block_1 (sync_info 0) end.
Definition m2 : manager := Eval vm_compute in (process_proposal_msg gen_range proposal m1).1.
Definition m3 : manager := Eval vm_compute in (rm_process_local_timeout 1 m2).1.

Lemma m3_reached : rtc (manager_step gen_range) m0 m3.
Proof.
  assert (E1 : (rm_start None m0).1 = m1) by by_vm. assert (E2 : (process_proposal_msg gen_range proposal m1).1 = m2) by by_vm.
  assert (E3 : (rm_process_local_timeout 1 m2).1 = m3) by by_vm. rewrite <- E3.
  eapply rtc_r; [|exact (step_timeout_event gen_range m2 1)]. rewrite <- E2. eapply rtc_r; [|exact (step_proposal_msg gen_range m1 proposal eq_refl)].
  rewrite <- E1. apply rtc_once. exact (step_start gen_range m0 None).
Qed.

Lemma hash_binds (d1 d2 : BlockData) : crypto_hash d1 = crypto_hash d2 -> bd_round d1 = bd_round d2.
Proof. intros E. cbn in E. apply (Z.add_cancel_r _ _ 1). exact E. Qed.

Lemma no_equivocation_witness : length (votes_of (rm_out m3)) = 2%nat /\ length (proposals_of (rm_out m3)) = 1%nat /\
  forall v w, v ∈ votes_of (rm_out m3) -> w ∈ votes_of (rm_out m3) -> vote_round v = vote_round w -> vote_core v = vote_core w.
Proof.
  split; [by_vm|]. split; [by_vm|].
  destruct (no_equivocation gen_range (N:=Peer) (P:=Stored) (C:=list Z) (R:=unit) (T:=unit) (L:=RotatingProposer)) with (s0 := m0) (s := m3) as (_ & Hv & _); [..|exact Hv].
  - intros n from req timeout n' resp [= _ <-]. apply List.Forall_map, List.Forall_forall. by intros [bd sig] _.
  - intros p p' rd [= _ <-]. split; [reflexivity|constructor].
  - exact hash_binds.
  - split; [|split; [reflexivity|by exists (fun _ => 1000), 0]].
    apply (build_hashed hash_binds root metadata [] [] None [1] nothing (mkPeer []) 1); [reflexivity|constructor|by_vm].
  - exact m3_reached.
Defined.
End NodeExamples.
