(* ===== verification/RecoveryExamples.v ===== *)
(** * A restart on concrete data

    The consensus database in memory, with the last committed block, a block on top of it
    and one that does not descend from it. *)

From stdpp Require Import countable.
From S2P Require Import Prelude U64 Bytes Lcs SchemaDb Crypto Hash ValidatorVerifier LedgerInfo Accumulator AccumulatorProof.
From S2P Require Import LedgerProof Schema LedgerStore ConsensusTypes ConsensusDb Recovery ByteConcrete.

Module RecoveryExamples.
Import ByteConcrete MemRocks.

(** ** Serialization *)

Definition info_list (b : BlockInfo) : list Z :=
  [bi_epoch b; bi_round b; to_Z (bi_id b); to_Z (bi_executed_state_id b); bi_version b; bi_timestamp_usecs b; Z.pos (encode (bi_next_epoch_state b))].
Definition qc_list (qc : QuorumCert) : list Z :=
  info_list (certified_block qc) ++ info_list (parent_block qc) ++ info_list (qc_commit_info qc) ++
  [to_Z (li_consensus_data_hash (qc_ledger_info qc)); Z.pos (encode (liws_signatures (qc_signed_ledger_info qc) : gmap Z (Z * list Z)))].

Definition info_of (e r i x v t n : Z) : option BlockInfo := n ← decode (Z.to_pos n); Some (mkBlockInfo e r (hash_of i) (hash_of x) v t n).
Definition qc_of (l : list Z) : option QuorumCert :=
  match l with
  | [e1; r1; i1; x1; v1; t1; n1; e2; r2; i2; x2; v2; t2; n2; e3; r3; i3; x3; v3; t3; n3; h; s] =>
    proposed ← info_of e1 r1 i1 x1 v1 t1 n1;
    parent ← info_of e2 r2 i2 x2 v2 t2 n2;
    commit ← info_of e3 r3 i3 x3 v3 t3 n3;
    signatures ← (decode (Z.to_pos s) : option (gmap Z (Z * list Z)));
    Some (mkQuorumCert (mkVoteData proposed parent) (mkLedgerInfoWithSignatures (mkLedgerInfo commit (hash_of h)) signatures))
  | _ => None
  end.

Lemma info_roundtrip e r (i x : hash256) v t (n : option EpochState) :
  info_of e r (to_Z i) (to_Z x) v t (Z.pos (encode n)) = Some (mkBlockInfo e r i x v t n).
Proof. unfold info_of. cbn [Z.to_pos]. rewrite decode_encode. cbn [mbind option_bind]. by rewrite !hash_of_to_Z. Qed.
Lemma qc_roundtrip qc : qc_of (qc_list qc) = Some qc.
Proof.
  destruct qc as [[[] []] [[[] ?] ?]]. unfold qc_list, info_list. cbn -[encode decode to_Z hash_of info_of].
  rewrite !info_roundtrip. cbn [mbind option_bind Z.to_pos]. rewrite decode_encode. cbn [mbind option_bind]. by rewrite hash_of_to_Z.
Qed.
#[export] Instance QuorumCert_countable : Countable QuorumCert := inj_countable qc_list qc_of qc_roundtrip.

#[export] Instance BlockType_countable : Countable BlockType.
Proof.
  refine (inj_countable' (fun t => match t with Proposal payload author => inl (payload : list (list Z), author) | NilBlock => inr true | Genesis => inr false end)
    (fun x => match x with inl (payload, author) => Proposal payload author | inr true => NilBlock | inr false => Genesis end) _). by intros [].
Defined.

Definition block_list (b : BlockData * option Signature) : list Z :=
  [bd_epoch b.1; bd_round b.1; bd_timestamp_usecs b.1; Z.pos (encode (bd_block_type b.1)); Z.pos (encode (b.2 : option (Z * list Z)))] ++ qc_list (bd_quorum_cert b.1).
Definition block_of (l : list Z) : option (BlockData * option Signature) :=
  match l with
  | e :: r :: t :: ty :: s :: l =>
    qc ← qc_of l; ty ← decode (Z.to_pos ty); s ← (decode (Z.to_pos s) : option (option (Z * list Z))); Some (mkBlockData e r t qc ty, s)
  | _ => None
  end.
Lemma block_roundtrip b : block_of (block_list b) = Some b.
Proof.
  destruct b as [[e r t qc ty] s]. unfold block_list. cbn [fst snd bd_epoch bd_round bd_timestamp_usecs bd_block_type bd_quorum_cert app block_of]. rewrite qc_roundtrip.
  cbn [mbind option_bind Z.to_pos]. rewrite decode_encode. cbn [mbind option_bind]. by rewrite decode_encode.
Qed.
#[export] Instance block_countable : Countable (BlockData * option Signature) | 0 := inj_countable block_list block_of block_roundtrip.

#[export] Instance LedgerInfo_countable : Countable LedgerInfo.
Proof. refine (inj_countable' (fun l => (li_commit_info l, (li_consensus_data_hash l : hash256))) (fun '(c, h) => mkLedgerInfo c h) _). by intros []. Defined.
#[export] Instance Vote_countable : Countable Vote.
Proof.
  refine (inj_countable' (fun v => (vd_proposed (vote_data v), vd_parent (vote_data v), vote_author v, vote_ledger_info v, (vote_signature v : Z * list Z), (vote_timeout_signature v : option (Z * list Z))))
    (fun '(p, q, a, l, s, t) => mkVote (mkVoteData p q) a l s t) _). by intros [[] ? ? ? ?].
Defined.
#[export] Instance TimeoutCertificate_countable : Countable TimeoutCertificate.
Proof.
  refine (inj_countable' (fun t => (to_epoch (tc_timeout t), to_round (tc_timeout t), (tc_signatures t : gmap Z (Z * list Z)))) (fun '(e, r, s) => mkTimeoutCertificate (mkTimeout e r) s) _). by intros [[]].
Defined.

#[export] Instance block_data_hash : CryptoHash BlockData := {| signing_message b := 20 :: block_list (b, None); crypto_hash b := poly_hash 20 (block_list (b, None)) |}.
#[export] Instance vote_data_hash : CryptoHash VoteData := {|
  signing_message v := 21 :: info_list (vd_proposed v) ++ info_list (vd_parent v); crypto_hash v := poly_hash 21 (info_list (vd_proposed v) ++ info_list (vd_parent v)) |}.

#[export] Instance hash_countable : Countable (@HashValue crypto) := hash256_countable.
#[export] Instance map_order : HashMapOrder (@HashValue crypto) := {| into_iter V m := map_to_list m; into_iter_perm V m := reflexivity _ |}.

(** ** The database *)

#[export] Instance constant_ledger : DbReader StartupInfo := fun info => Ok (Some info).

Definition info (round : Z) (id : HashValue) : BlockInfo := mkBlockInfo 1 round id (hash_of 0) 0 0 None.
Definition certify (b commit : BlockInfo) : QuorumCert := mkQuorumCert (mkVoteData b (info 0 (hash_of 1))) (mkLedgerInfoWithSignatures (mkLedgerInfo commit (hash_of 0)) ∅).
Definition genesis : BlockInfo := info 0 (hash_of 1).
Definition committed : Block := block_new_nil 3 (certify genesis genesis).
Definition child_block : Block := block_new_nil 4 (certify (info 3 (block_id committed)) genesis).
Definition stray : Block := block_new_nil 5 (certify (info 2 (hash_of 2)) genesis).
Definition saved_blocks : list Block := [committed; child_block; stray].
Definition saved_qcs : list QuorumCert := [certify (info 3 (block_id committed)) genesis; certify (info 4 (block_id child_block)) (info 3 (block_id committed))].

Definition ledger : StartupInfo := mkStartupInfo (mkLedgerInfoWithSignatures (mkLedgerInfo (info 3 (block_id committed)) (hash_of 0)) ∅) None (mkTreeState 0 [] (hash_of 0)) None.
Definition empty_proxy : StorageWriteProxy (rocks:=rocks) (D:=StartupInfo) := mkStorageWriteProxy (mkConsensusDB (mkDB (mkRocks [BLOCK_CF_NAME; QC_CF_NAME; SINGLE_ENTRY_CF_NAME] ∅))) ledger.
Definition nothing : Stored := mkStored ∅ ∅ None None.

Lemma empty_stores : proxy_stores empty_proxy nothing.
Proof.
  split; [|done..]. exists ∅. split; [|done]. split; apply empty_column, (bool_decide_unpack _); by vm_compute.
Qed.

Lemma saved_is_ok : is_ok (save_tree empty_proxy saved_blocks saved_qcs) = true.
Proof. vm_compute. reflexivity. Qed.
Definition saved : StorageWriteProxy := match save_tree empty_proxy saved_blocks saved_qcs with Ok p => p | _ => empty_proxy end.
Definition contents : Stored := stored_tree nothing saved_blocks saved_qcs.

Lemma saved_Ok : save_tree empty_proxy saved_blocks saved_qcs = Ok saved.
Proof. pose proof saved_is_ok as Hok. unfold saved. by destruct (save_tree empty_proxy saved_blocks saved_qcs). Qed.

Lemma saved_stores : proxy_stores saved contents.
Proof. change (stores saved contents). apply (save_tree_stores empty_proxy nothing saved_blocks saved_qcs); [exact empty_stores|repeat constructor|exact saved_Ok]. Qed.

Lemma saved_ledger : swp_libra_db saved = ledger.
Proof. exact (proj2 (on_db_Ok _ _ _ saved_Ok)). Qed.

(** ** The restart *)

Definition acc : InMemoryAccumulator (HashValue:=HashValue) := match executed_accumulator (si_committed_tree_state ledger) with Ok acc => acc | _ => mkInMemoryAccumulator [] 0 (hash_of 0) end.
Definition stored_blocks : list Block := map snd (into_iter (s_blocks contents)).
Definition stored_qcs : list QuorumCert := map snd (into_iter (s_qcs contents)).

Lemma acc_Ok : executed_accumulator (si_committed_tree_state ledger) = Ok acc.
Proof.
  assert (Hok : is_ok (executed_accumulator (si_committed_tree_state ledger)) = true) by (vm_compute; reflexivity).
  unfold acc. by destruct (executed_accumulator (si_committed_tree_state ledger)).
Qed.

(** Checks on the finite lists. *)
Lemma parents_first_check (l : list Block) :
  forallb (fun p => forallb (fun b => implb (bool_decide (block_parent_id b = block_id p)) (bool_decide (~ key_le b p))) l) l = true -> parents_first l.
Proof.
  intros Hc p b Hp%list_elem_of_In Hb%list_elem_of_In E. rewrite forallb_forall in Hc. specialize (Hc p Hp). rewrite forallb_forall in Hc. specialize (Hc b Hb).
  rewrite (bool_decide_eq_true_2 _ E) in Hc. by apply bool_decide_eq_true in Hc.
Qed.

Lemma restart_recovers_witness : exists self rd, proxy_start saved = Ok (self, RecoveryDataFound rd) /\ ri_block (rd_root rd) = committed /\ child_block ∈ rd_blocks rd.
Proof.
  destruct (restart_recovers saved contents ledger acc) with (root_id := block_id committed) (blocks := stored_blocks) (qcs := stored_qcs) (root := committed)
    as (self & rd & ids & E & Er & _ & _ & Hb & _).
  - exact saved_stores.
  - by rewrite saved_ledger.
  - exact acc_Ok.
  - split; vm_compute; reflexivity.
  - intros db batch. by eexists.
  - reflexivity.
  - apply (bool_decide_unpack _). vm_compute. reflexivity.
  - apply parents_first_check. vm_compute. reflexivity.
  - apply (bool_decide_unpack _). vm_compute. reflexivity.
  - reflexivity.
  - exists (certify (info 3 (block_id committed)) genesis). split; [apply (bool_decide_unpack _); vm_compute|]; reflexivity.
  - exists (certify (info 4 (block_id child_block)) (info 3 (block_id committed))). split; [apply (bool_decide_unpack _); vm_compute|]; reflexivity.
  - exists self, rd. split_and!; [exact E|exact Er|]. apply Hb, from_root_child; [|reflexivity]. apply (bool_decide_unpack _). vm_compute. reflexivity.
Defined.
End RecoveryExamples.
