(* ===== verification/LedgerExamples.v ===== *)
(** * Instances of the theorems about the ledger and its storage

    The theorems about ledger proofs and LibraDB, applied to a ledger of four
    transactions over the instance [ByteConcrete] of the interfaces. *)

From S2P Require Import Prelude U64 Bytes Lcs SchemaDb LedgerCounters Position Accumulator AccumulatorProof ProofSoundness.
From S2P Require Import MerkleAccumulator Crypto Hash SparseMerkleProof ValidatorVerifier LedgerInfo LedgerProof Schema.
From S2P Require Import ByteConcrete.

Module LedgerExamples.
Import ByteConcrete.

Definition leaf (i : Z) : HashValue := hash_of i.
Definition id_hash (h : HashValue) : HashValue := h.
Definition leaves (n : nat) : list HashValue := map (fun i => leaf (Z.of_nat i)) (seq 0 n).

Notation txn_node := TransactionAccumulatorInternalNode_hash.
Notation txn_root := (tree_root txn_node ACCUMULATOR_PLACEHOLDER_HASH).
Notation event_tree_root := (tree_root EventAccumulatorInternalNode_hash ACCUMULATOR_PLACEHOLDER_HASH).
Notation state_root := (sparse_root SparseMerkleInternalNode_hash SPARSE_MERKLE_PLACEHOLDER_HASH).

(** ** Accumulator proofs of any shape *)

Definition inclusion_pf : AccumulatorProof (HashValue:=HashValue) := {|
  siblings := [leaf 2; txn_node (leaf 0) (leaf 1); txn_node (txn_node (leaf 4) ACCUMULATOR_PLACEHOLDER_HASH) ACCUMULATOR_PLACEHOLDER_HASH] |}.

(** The proof for leaf 3 of 5 is accepted at index 11, which is read as 3. *)
Lemma inclusion_sound_any_witness : leaves 5 !! 3%nat = Some (leaf 3) /\
    accumulator_proof_verify txn_node inclusion_pf (txn_root (map id_hash (leaves 5))) (id_hash (leaf 3)) 3 = Ok tt \/
  hash_collision txn_node ACCUMULATOR_PLACEHOLDER_HASH id_hash
    (inclusion_preimages txn_node id_hash (siblings inclusion_pf) (leaf 3) 11) (leaves 5).
Proof.
  destruct (inclusion_sound_any txn_node ACCUMULATOR_PLACEHOLDER_HASH id_hash (leaves 5) inclusion_pf (leaf 3) 11)
    as [(Hx & _ & Hj)|Hc]; [by vm_compute|by vm_compute| |by right].
  left. split; [exact Hx|]. by apply Hj.
Defined.

Definition range_pf : AccumulatorRangeProof (HashValue:=HashValue) := {|
  left_siblings := [leaf 0];
  right_siblings := [leaf 3; txn_node (txn_node (leaf 4) ACCUMULATOR_PLACEHOLDER_HASH) ACCUMULATOR_PLACEHOLDER_HASH] |}.

Lemma range_sound_any_witness : take 2 (drop 1 (leaves 5)) = [leaf 1; leaf 2] /\
    range_proof_verify txn_node range_pf (txn_root (map id_hash (leaves 5))) (Some 9) (map id_hash [leaf 1; leaf 2]) = Ok tt \/
  hash_collision txn_node ACCUMULATOR_PLACEHOLDER_HASH id_hash
    (range_preimages txn_node id_hash range_pf 1 [leaf 1; leaf 2]) (leaves 5).
Proof.
  destruct (range_sound_any txn_node ACCUMULATOR_PLACEHOLDER_HASH id_hash (leaves 5) range_pf [leaf 1; leaf 2] (Some 1))
    as (_ & [(Ht & _ & Hj)|Hc]); [intros i [= <-]; by vm_compute|cbn; lia|by vm_compute| |by right].
  left. split; [exact Ht|]. apply Hj; by vm_compute.
Defined.

Lemma bits_roundtrip_witness : from_bit_iter (iter_bits (leaf 77)) = Ok (leaf 77) /\ HashBytesLaws hash_bytes_inst.
Proof. split; [apply (bits_roundtrip (leaf 77))|apply _]. Defined.

(** ** A ledger of four transactions *)

Definition address : AccountAddress := 7.
Definition txn (i : Z) : Transaction :=
  UserTransaction (mkSignedTransaction (mkRawTransaction address i [i] 100 1 "LBR"%string 1000) [1; 2]).
Definition key : bytes := replicate 24 1.
Definition event (i : Z) : ContractEvent := mkContractEvent key i [] [i; 5].

(** Versions 0 to 3 emit one event each, version 3 a second one. *)
Definition events (i : Z) : list ContractEvent := if i =? 3 then [event 3; event 4] else [event i].
Definition accounts (i : Z) : list (HashValue * AccountStateBlob) := [(crypto_hash address, mkAccountStateBlob [i])].

Definition entry (i : Z) : LedgerEntry := {|
  le_transaction := txn i; le_events := events i; le_accounts := accounts i;
  le_info := mkTransactionInfo (crypto_hash (txn i)) (state_root (accounts i)) (event_tree_root (map crypto_hash (events i))) 9 4001
|}.
Definition ledger : list LedgerEntry := map entry [0; 1; 2; 3].
Definition infos : list TransactionInfo := map le_info ledger.

Definition li : LedgerInfo :=
  mkLedgerInfo (mkBlockInfo 1 5 (leaf 9) (txn_root (map crypto_hash infos)) 3 1000 None) (leaf 0).

Lemma ledger_committed : commits_to li ledger.
Proof.
  split; [cbn; lia|reflexivity|reflexivity|].
  repeat constructor; cbn; by (apply not_elem_of_nil || constructor).
Qed.

Definition info_hash (i : Z) : HashValue := crypto_hash (le_info (entry i)).

(** The info of version 2 or 3, with its accumulator proof. *)
Definition info_pf (i : Z) : TransactionInfoWithProof := {|
  ledger_info_to_transaction_info_proof := {| siblings := [info_hash (5 - i); txn_node (info_hash 0) (info_hash 1)] |};
  tip_transaction_info := le_info (entry i) |}.

Definition transaction_pf : TransactionWithProof := {|
  twp_version := 2; twp_transaction := txn 2; twp_events := Some (events 2); twp_proof := info_pf 2 |}.

Lemma transaction_sound_witness : (exists e t, ledger !! 2%nat = Some e /\ twp_transaction transaction_pf = le_transaction e /\
     le_transaction e = UserTransaction t /\ st_sender t = address /\ st_sequence_number t = 2 /\
     forall evs, twp_events transaction_pf = Some evs -> evs = le_events e) \/
  info_collision (twp_proof transaction_pf) 2 ledger \/
  exists e, ledger !! 2%nat = Some e /\
    (transaction_collision (twp_transaction transaction_pf) e \/
     exists evs, twp_events transaction_pf = Some evs /\ events_collision evs e).
Proof.
  apply (transaction_sound li ledger transaction_pf 2 address 2); [apply ledger_committed|lia| |by vm_compute].
  intros evs [= <-]. by vm_compute.
Defined.

Definition event_pf : EventWithProof := {|
  ewp_transaction_version := 3; ewp_event_index := 1; ewp_event := event 4;
  ewp_proof := {| ep_transaction_info_with_proof := info_pf 3;
                  transaction_info_to_event_proof := {| siblings := [crypto_hash (event 3)] |} |} |}.

Lemma event_sound_witness : (exists e, ledger !! 3%nat = Some e /\
     let n := Z.of_nat (length (le_events e)) in
     le_events e !! Z.to_nat (index_read n 1) = Some (event 4) /\ (1 < n -> index_read n 1 = 1) /\ ce_key (event 4) = key /\ ce_sequence_number (event 4) = 4) \/
  info_collision (info_pf 3) 3 ledger \/
  exists e, ledger !! 3%nat = Some e /\
    hash_collision EventAccumulatorInternalNode_hash ACCUMULATOR_PLACEHOLDER_HASH crypto_hash
      (inclusion_preimages EventAccumulatorInternalNode_hash crypto_hash [crypto_hash (event 3)] (event 4) 1) (le_events e).
Proof.
  apply (event_sound li ledger event_pf key 4 3 1); [apply ledger_committed|by vm_compute|by vm_compute|by vm_compute].
Defined.

Lemma event_index_unauthenticated_witness :
  event_with_proof_verify (mkEventWithProof 3 (1 + 500 * 2 ^ 1) (event 4) (ewp_proof event_pf)) li key 4 3 (1 + 500 * 2 ^ 1) = Ok tt.
Proof. apply (event_index_unauthenticated event_pf li key 4 3 1 500). by vm_compute. Defined.

Definition account_pf : AccountStateWithProof := {|
  aswp_version := 3; aswp_blob := Some (mkAccountStateBlob [3]);
  aswp_proof := {| asp_transaction_info_with_proof := info_pf 3;
    transaction_info_to_account_proof := {|
      smp_leaf := Some (mkSparseMerkleLeafNode (crypto_hash address) (crypto_hash (mkAccountStateBlob [3])));
      smp_siblings := [] |} |} |}.

Lemma account_state_sound_witness : (exists e, ledger !! 3%nat = Some e /\
     (crypto_hash address, mkAccountStateBlob [3]) ∈ le_accounts e) \/
  info_collision (info_pf 3) 3 ledger \/
  exists e, ledger !! 3%nat = Some e /\
    sparse_collision SparseMerkleInternalNode_hash SPARSE_MERKLE_PLACEHOLDER_HASH
      (sparse_preimages SparseMerkleInternalNode_hash SPARSE_MERKLE_PLACEHOLDER_HASH
         (transaction_info_to_account_proof (aswp_proof account_pf)) (crypto_hash address) (aswp_blob account_pf)) (le_accounts e).
Proof.
  apply (account_state_sound li ledger account_pf 3 address); [apply ledger_committed|lia|by vm_compute].
Defined.

(** An account that is absent, in a tree with one leaf. *)
Lemma sparse_sound_witness : crypto_hash (8 : AccountAddress) ∉ (accounts 3).*1 \/
  sparse_collision SparseMerkleInternalNode_hash SPARSE_MERKLE_PLACEHOLDER_HASH
    (sparse_preimages SparseMerkleInternalNode_hash SPARSE_MERKLE_PLACEHOLDER_HASH
       (transaction_info_to_account_proof (aswp_proof account_pf)) (crypto_hash (8 : AccountAddress)) None) (accounts 3).
Proof.
  apply (sparse_sound SparseMerkleInternalNode_hash SPARSE_MERKLE_PLACEHOLDER_HASH (accounts 3)
    (transaction_info_to_account_proof (aswp_proof account_pf)) (crypto_hash (8 : AccountAddress)) None);
    [cbn; repeat constructor; apply not_elem_of_nil|by vm_compute].
Defined.

Definition list_pf : TransactionListWithProof := {|
  tlwp_transactions := [txn 1; txn 2]; tlwp_events := Some [events 1; events 2];
  tlwp_first_transaction_version := Some 1;
  tlwp_proof := {| ledger_info_to_transaction_infos_proof := {| left_siblings := [info_hash 0]; right_siblings := [info_hash 3] |};
                   tlp_transaction_infos := [le_info (entry 1); le_info (entry 2)] |} |}.

(** The same list, passed off as starting at version 5 of a ledger with four versions. *)
Definition late_list_pf : TransactionListWithProof := {|
  tlwp_transactions := tlwp_transactions list_pf; tlwp_events := tlwp_events list_pf;
  tlwp_first_transaction_version := Some 5; tlwp_proof := tlwp_proof list_pf |}.

Lemma transaction_list_sound_witness : index_read 4 5 = 1 /\
  ((forall j, (j < 2)%nat -> exists e, ledger !! (1 + j)%nat = Some e /\ listed late_list_pf j e) \/
   infos_collision late_list_pf 5 ledger \/
   exists j e, ledger !! (1 + j)%nat = Some e /\ listed_collision late_list_pf j e).
Proof.
  split; [by vm_compute|].
  apply (transaction_list_sound li ledger late_list_pf (Some 5)); [apply ledger_committed|intros v [= <-]; by vm_compute| |by vm_compute].
  intros l [= <-]. repeat constructor; by vm_compute.
Defined.
End LedgerExamples.
