(* ===== verification/StorageExamples.v ===== *)
(** * Instances of the theorems about storage

    The four transactions of [LedgerExamples], saved to an empty in-memory database and
    read from it, with a pruner that keeps one version before the latest. *)

From S2P Require Import Prelude U64 Bytes Lcs SchemaDb LedgerCounters Position Accumulator AccumulatorProof.
From S2P Require Import MerkleAccumulator Crypto Hash SparseMerkleProof SparseMerkleTree ValidatorVerifier LedgerInfo LedgerProof.
From S2P Require Import NibblePath NodeType NodeTypeProof NodeCodec JellyfishMerkle JellyfishMerkleProof JellyfishMerkleUpdate JellyfishMerkleBatch.
From S2P Require Import Schema Tables LedgerStore LedgerStoreProof StateStore StateStoreProof EventStore EventStoreProof.
From S2P Require Import TransactionStore TransactionStoreProof Pruner LibraDB LibraDBProof LibraDBReads PrunerProof.
From S2P Require Import ByteConcrete LedgerExamples.

Module StorageExamples.
Import ByteConcrete LedgerExamples MemRocks.

(** ** An empty database *)

Definition cfs : list ColumnFamilyName :=
  [EPOCH_BY_VERSION_CF_NAME; DEFAULT_CF_NAME; TRANSACTION_INFO_CF_NAME; TRANSACTION_CF_NAME; LEDGER_COUNTERS_CF_NAME;
   TRANSACTION_ACCUMULATOR_CF_NAME; EVENT_CF_NAME; EVENT_ACCUMULATOR_CF_NAME; EVENT_BY_KEY_CF_NAME;
   TRANSACTION_BY_ACCOUNT_CF_NAME; JELLYFISH_MERKLE_NODE_CF_NAME; STALE_NODE_INDEX_CF_NAME].
Definition rocks0 : rocks := mkRocks cfs ∅.

Lemma tables0 : tables rocks0 tables_empty.
Proof. split; apply empty_column, (bool_decide_unpack _); by vm_compute. Qed.

Definition pruner0 : Pruner := mkPruner 1 [].
Definition db0 : LibraDB := mkLibraDB (mkDB rocks0) None (Some pruner0).

Lemma db0_ok : db_ok db0 [] 0 [] [].
Proof. apply db_ok_empty, tables0. Qed.

(** ** The transactions *)

Definition to_commit (i : Z) : TransactionToCommit :=
  mkTransactionToCommit (txn i) {[ address := mkAccountStateBlob [i] ]} (events i) 9 4001.
Definition txns : list TransactionToCommit := map to_commit [0; 1; 2; 3].
Definition saved : list LedgerEntry := commit_entries [] txns.

Definition signed_li : LedgerInfoWithSignatures :=
  mkLedgerInfoWithSignatures (mkLedgerInfo (mkBlockInfo 0 5 (leaf 9) (txn_root (map crypto_hash (map le_info saved))) 3 1000
    (Some (mkEpochState 1 (mkValidatorVerifier ∅ 0 0)))) (leaf 0)) ∅.

Lemma encodable_any {T} `{Countable T} (v : T) : encodable v.
Proof. done. Qed.

Lemma event_ok i : is_u64 i -> event_storable (event i).
Proof. intros Hi. split; [apply encodable_any|done|done]. Qed.

Lemma to_commit_ok i : 0 <= i < 2 ^ 63 -> txn_ok (to_commit i).
Proof.
  intros Hi. split; cbn [to_commit tc_account_states tc_events tc_transaction].
  - apply map_non_empty_singleton.
  - intros a b _ k. apply encodable_any.
  - unfold events. destruct (i =? 3); repeat (constructor; [apply event_ok; unfold is_u64; lia|]); constructor.
  - unfold events, fits. destruct (i =? 3); cbn; lia.
  - split; [apply encodable_any|]. intros a s [= <- <-]. unfold is_address, is_u64, address. cbn. lia.
Qed.

Lemma txns_ok : Forall txn_ok txns.
Proof. unfold txns. cbn [map]. repeat (constructor; [apply to_commit_ok; lia|]). constructor. Qed.

Lemma saved_sequenced : sequenced (map tc_events txns).
Proof.
  intros k j r. destruct (decide (k = key)) as [->|Hne].
  - assert (E : key_events key (map tc_events txns) = [(0, 0, event 0); (1, 0, event 1); (2, 0, event 2); (3, 0, event 3); (3, 1, event 4)]) by reflexivity.
    rewrite E. intros Hj. do 5 (destruct j as [|j]; [cbn in Hj; by injection Hj as <-|]). done.
  - intros Hr%list_elem_of_lookup_2. apply key_events_elem in Hr as [Hr Hk]. exfalso. apply Hne. rewrite <- Hk.
    assert (E : all_events 0 (map tc_events txns) = [(0, 0, event 0); (1, 0, event 1); (2, 0, event 2); (3, 0, event 3); (3, 1, event 4)]) by reflexivity.
    rewrite E in Hr. repeat (apply elem_of_cons in Hr as [->|Hr]; [done|]). by apply elem_of_nil in Hr.
Qed.

Lemma saved_follows : batch_follows [] saved.
Proof.
  unfold saved. split; cbn [app].
  - rewrite commit_entries_length. done.
  - rewrite commit_entries_transactions. intros i j t1 t2 a H1 H2 A1 A2.
    do 4 (destruct i as [|i]; [cbn in H1; injection H1 as <-; do 4 (destruct j as [|j]; [cbn in H2; injection H2 as <-; cbn in A1, A2; congruence|]); done|]). done.
  - rewrite commit_entries_events. apply saved_sequenced.
  - apply list.Forall_forall. intros i _. apply encodable_any.
Qed.

Lemma signed_li_ok : li_ok [] signed_li.
Proof. split; [|apply encodable_any|done]. split; cbn; try done; try (unfold is_u64; lia); by constructor. Qed.

Lemma counters_ok : counters_encodable.
Proof. intros c _. apply encodable_any. Qed.

Lemma saved_acceptable : acceptable saved txns (Some signed_li) = true.
Proof. unfold acceptable. rewrite bool_decide_eq_true_2 by reflexivity. unfold saved. by rewrite commit_entries_length. Qed.

(** ** Saved *)

Definition db1 : LibraDB := match save_transactions db0 txns 0 (Some signed_li) with Ok self => self | _ => db0 end.

Lemma save_runs : is_ok (save_transactions db0 txns 0 (Some signed_li)) = true.
Proof. by vm_compute. Qed.

Lemma save_db1 : save_transactions db0 txns 0 (Some signed_li) = Ok db1.
Proof. pose proof save_runs as Hr. unfold db1. by destruct (save_transactions db0 txns 0 (Some signed_li)). Qed.

Definition ok_or_else {E A} (d : A) (r : result E A) : A := match r with Ok a => a | _ => d end.
Definition index1 : DB rocks := ldb_db db1.

(** What the pruner reads and deletes then. *)
Definition stale1 : list StaleNodeIndex :=
  ok_or_else [] (stale_indices index1 0 2 MAX_VERSIONS_TO_PRUNE_PER_BATCH).
#[local] Opaque stale1.
Definition db2 : DB rocks := (ok_or_else (index1, 0) (delete_stale_nodes index1 0 stale1)).1.

Lemma read_runs : is_ok (stale_indices index1 0 2 MAX_VERSIONS_TO_PRUNE_PER_BATCH) = true.
Proof. by vm_compute. Qed.
Lemma delete_runs : match delete_stale_nodes index1 0 stale1 with Ok (_, least) => least =? 2 | _ => false end = true.
Proof. by vm_compute. Qed.
Lemma index_count : Z.of_nat (size (default ∅ (contents (inner index1) !! STALE_NODE_INDEX_CF_NAME))) <? 2 ^ 64 = true.
Proof. by vm_compute. Qed.

Lemma ok_or_else_Ok {E A} (d : A) (r : result E A) : is_ok r = true -> r = Ok (ok_or_else d r).
Proof. by destruct r. Qed.
Lemma ok_or_else_fst {E A} (d : A * Z) n (r : result E (A * Z)) : match r with Ok (_, m) => m =? n | _ => false end = true -> r = Ok ((ok_or_else d r).1, n).
Proof. destruct r as [[a m]| |]; [|done..]. by intros ->%Z.eqb_eq. Qed.

Lemma read_stale1 : stale_indices index1 0 2 MAX_VERSIONS_TO_PRUNE_PER_BATCH = Ok stale1.
Proof. exact (ok_or_else_Ok [] _ read_runs). Qed.
Lemma delete_db2 : delete_stale_nodes index1 0 stale1 = Ok (db2, 2).
Proof.
  pose proof delete_runs as Hr. unfold db2. revert Hr. generalize (delete_stale_nodes index1 0 stale1). intros r Hr. by apply ok_or_else_fst.
Qed.

Lemma index1_db1 : index1 = ldb_db db1.
Proof. done. Qed.

#[local] Opaque db1 index1 db2.

Lemma Ok_inj {E A} (a b : A) : Ok (E:=E) a = Ok b -> a = b.
Proof. by intros [= ->]. Qed.

Lemma db1_ok : db_ok db1 [] 0 saved [signed_li].
Proof.
  pose proof (save_transactions_rows db0 [] 0 [] [] txns (Some signed_li) db0_ok txns_ok saved_follows) as Hs.
  cbn [app] in Hs. fold saved in Hs. change (commit_entries (current [] (map le_accounts [])) txns) with saved in Hs.
  rewrite saved_acceptable in Hs. destruct Hs as (sealed & _ & Hs); [intros x [= <-]; apply signed_li_ok|apply counters_ok|unfold saved; by rewrite commit_entries_length|].
  change (Z.of_nat (length [])) with 0 in Hs. destruct (write_schemas _ _) as [db|e|]; [|by rewrite save_db1 in Hs..].
  destruct Hs as (self' & Es & _ & Hok & _). rewrite save_db1 in Es. apply Ok_inj in Es. by subst self'.
Qed.

Lemma saved_lookup (i : nat) : (i < 4)%nat -> exists e, saved !! i = Some e.
Proof. intros Hi. apply lookup_lt_is_Some_2. unfold saved. by rewrite commit_entries_length. Qed.

Lemma signed_li_commits : commits saved signed_li.
Proof.
  split; [unfold saved; rewrite commit_entries_length; cbn; lia|]. unfold ledger_at. rewrite firstn_all2; [done|]. unfold saved. rewrite commit_entries_length. cbn. lia.
Qed.

Lemma save_transactions_extends_witness :
  exists sealed, prepare_transactions db0 txns 0 (Some signed_li) = Ok sealed /\
    match write_schemas (ldb_db db0) (scs_batch sealed) with
    | Ok db => exists self', save_transactions db0 txns 0 (Some signed_li) = Ok self' /\ ldb_db self' = db /\ db_ok self' [] 0 saved [signed_li]
    | Err e => save_transactions db0 txns 0 (Some signed_li) = Err e
    | Panic => save_transactions db0 txns 0 (Some signed_li) = Panic
    end.
Proof.
  pose proof (save_transactions_extends db0 [] 0 [] [] txns (Some signed_li) db0_ok txns_ok saved_follows) as Hs. cbv zeta in Hs.
  change ([] ++ commit_entries (current [] (map le_accounts [])) txns) with saved in Hs.
  rewrite saved_acceptable in Hs. apply Hs; [intros x [= <-]; apply signed_li_ok|apply counters_ok|unfold saved; by rewrite commit_entries_length].
Defined.

Lemma reopen_finds_saved_witness : exists self',
  libradb_open (ldb_db db1) (Some 1) = Ok self' /\ ldb_latest_ledger_info self' = ldb_latest_ledger_info db1 /\ db_ok self' [] 0 saved [signed_li].
Proof. apply (reopen_finds_saved db1 [] 0 saved [signed_li] (Some 1)). apply db1_ok. Defined.

(** ** Served *)

Lemma account_state_served_witness : exists e r, saved !! 2%nat = Some e /\
  get_account_state_with_proof db1 address 2 3 = Ok r /\ aswp_blob r = lookup_entry (crypto_hash address) (le_accounts e) /\
  account_state_with_proof_verify r (liws_ledger_info signed_li) 2 address = Ok tt.
Proof.
  destruct (saved_lookup 2) as [e He]; [lia|]. destruct (account_state_served db1 [] 0 saved [signed_li] signed_li signed_li address 2 e) as [r Hr];
    [apply db1_ok|apply signed_li_commits|done|done|cbn; lia|lia|done|]. by exists e, r.
Defined.

Lemma transactions_served_witness : exists r, get_transactions db1 1 2 3 true = Ok r /\
  tlwp_transactions r = map le_transaction (take 2 (drop 1 saved)) /\ tlwp_events r = Some (map le_events (take 2 (drop 1 saved))) /\
  transaction_list_with_proof_verify r (liws_ledger_info signed_li) (Some 1) = Ok tt.
Proof.
  apply (transactions_served db1 [] 0 saved [signed_li] signed_li 1 2 true); [apply db1_ok|apply signed_li_commits|cbn; lia|unfold MAX_LIMIT; lia].
Defined.

Lemma events_served_witness : exists evs, get_events_by_event_key db1 key u64_max false 2 3 = Ok evs /\
  Forall2 (event_served (liws_ledger_info signed_li) key) (event_window false u64_max 2 (events_upto (map le_events saved) key 3)) evs.
Proof.
  apply (events_served db1 [] 0 saved [signed_li] signed_li key u64_max false 2);
    [apply db1_ok|apply signed_li_commits|done|unfold is_u64, u64_max; lia|unfold MAX_LIMIT; lia].
Defined.

Lemma state_proof_served_witness : exists pf, get_state_proof db1 1 = Ok (signed_li, mkEpochChangeProof [signed_li] false, pf) /\
  append_subtrees txn_node ACCUMULATOR_PLACEHOLDER_HASH
    (accumulator_of txn_node ACCUMULATOR_PLACEHOLDER_HASH (map crypto_hash (map le_info (ledger_at saved 1)))) (subtrees pf) 2 =
  Ok (accumulator_of txn_node ACCUMULATOR_PLACEHOLDER_HASH (map crypto_hash (map le_info (ledger_at saved 3)))).
Proof. apply (state_proof_served db1 [] 0 saved [signed_li] signed_li 1); [apply db1_ok|done|done|cbn; lia]. Defined.

Lemma latest_sequence_number_found_witness : get_latest_sequence_number (event_store db1) 2 key = Ok (Some 2).
Proof.
  destruct (ok_tables _ _ _ _ _ db1_ok) as (T & Htab & HT). unfold event_store.
  replace (ldb_db db1) with (mkDB (inner (ldb_db db1))) by (by destruct (ldb_db db1)).
  rewrite (latest_sequence_number_found _ T Htab (map le_events saved) (tables_events _ _ _ _ _ HT) key eq_refl 2).
  unfold saved. rewrite commit_entries_events. reflexivity.
Defined.

(** The ledger info of version 3 ends epoch 0, and is not found. *)
Lemma epoch_ending_ledger_info_by_epoch_witness :
  ends signed_li = true /\ version_of signed_li = 3 /\
  get_epoch_ending_ledger_info (ledger_store db1) 3 = Err "Epoch change LedgerInfo not found."%string.
Proof.
  split; [done|]. split; [done|]. destruct (ok_tables _ _ _ _ _ db1_ok) as (T & Htab & HT).
  apply (epoch_ending_ledger_info_by_epoch (ledger_store db1) T [signed_li] Htab (tables_epochs _ _ _ _ _ HT) 3). unfold is_u64. lia.
Defined.

(** ** Nodes of the state tree *)

Definition branches : gmap Z Child := <[3 := mkChild (leaf 1) 0 true]> {[ 12 := mkChild (leaf 2) 1 false ]}.
Definition branch : Node := Internal (mkInternalNode branches).

Lemma node_roundtrip_witness : exists raw, node_encode branch = Ok raw /\ node_decode raw = Ok branch.
Proof.
  apply (node_roundtrip branch); [|done]. cbn [wf_node branch children]. unfold wf_children, child_versions, branches.
  split; [|split; [|apply insert_non_empty]].
  - intros i c [[<- _]|[_ [<- _]%lookup_singleton_Some]]%lookup_insert_Some; unfold is_nibble; lia.
  - intros i c [[_ <-]|[_ [_ <-]%lookup_singleton_Some]]%lookup_insert_Some; unfold is_u64; cbn; lia.
Defined.

Definition no_nodes : TreeReader := mkTreeReader (fun _ => Ok None).
Definition two_sets : list (list (HashValue * AccountStateBlob)) :=
  [[(leaf 1, mkAccountStateBlob [1])]; [(leaf 1, mkAccountStateBlob [2]); (leaf 2, mkAccountStateBlob [3])]].

Lemma put_blob_sets_refines_witness : exists batch, put_blob_sets no_nodes two_sets 0 = Ok (map state_root (states [] two_sets), batch) /\
  forall j h, states [] two_sets !! j = Some h ->
    version_tree (reader_get_node (overlay (node_batch batch) no_nodes)) (add_stale (fun _ => False) (stale_node_index_batch batch)) (0 + Z.of_nat j) h.
Proof.
  destruct (put_blob_sets_refines no_nodes (fun _ => False) 0 [] two_sets) as (batch & E & _ & Hnew & _);
    [lia|done|done|repeat constructor; done|unfold u64_max; cbn; lia|]. exists batch. split; [exact E|exact Hnew].
Defined.

(** ** The pruner *)

Definition start : System := mkSystem db0 (worker_new 0) Receiving.

Lemma start_ok : sys_ok [] 1 0 0 start (mkLedger [] []).
Proof.
  apply (sys_start [] 1 0 0 db0 [] [] pruner0 0); [apply db0_ok|done|done|done| |lia]. intros T _ w Hw. cbn in Hw. lia.
Qed.

Lemma start_save : rtc (sys_step []) (start, Idle, mkLedger [] []) (mkSystem db1 (worker_new 0) Receiving, Idle, mkLedger saved [signed_li]).
Proof.
  change (mkLedger saved [signed_li]) with (mkLedger ([] ++ saved_entries [] [] txns) (lis_after [] (Some signed_li))).
  apply (save_steps [] db0 (worker_new 0) Receiving [] [] txns (Some signed_li) db1); [|apply save_db1].
  split; [apply txns_ok|apply saved_follows|intros x [= <-]; apply signed_li_ok|]. cbn [lg_entries].
  change ([] ++ saved_entries [] [] txns) with saved. unfold saved. by rewrite commit_entries_length.
Qed.

Lemma db1_pruner : ldb_pruner db1 = Some (mkPruner 1 [Prune 2]).
Proof. by vm_compute. Qed.

Definition drained : LibraDB := mkLibraDB index1 (ldb_latest_ledger_info db1) (Some (mkPruner 1 [])).
Lemma drained_db1 : with_channel db1 [] = drained.
Proof. unfold with_channel, drained. by rewrite db1_pruner, index1_db1. Qed.

Definition pruning : System := mkSystem drained (set_target (worker_new 0) 2) Reading.

Lemma start_pruning : rtc (sys_step []) (start, Idle, mkLedger [] []) (pruning, Idle, mkLedger saved [signed_li]).
Proof.
  etrans; [apply start_save|]. eapply rtc_l; [|apply rtc_refl]. apply sys_work. unfold pruning. rewrite <- drained_db1.
  by apply (step_receive db1 (worker_new 0) (mkPruner 1 [Prune 2]) (set_target (worker_new 0) 2) [] true db1_pruner).
Qed.

Lemma pruner_safe_witness :
  let st := mkSystem (with_db drained db2) (store_progress (set_target (worker_new 0) 2) 2) Purging in
  db_ok (sys_db st) [] 2 saved [signed_li] /\
  forall w e address, 2 <= w -> saved !! Z.to_nat w = Some e ->
    state_get_account_state_with_proof_by_version (state_store (sys_db st)) address w =
    Ok (lookup_entry (crypto_hash address) (le_accounts e),
      ref_sparse_proof SparseMerkleInternalNode_hash SPARSE_MERKLE_PLACEHOLDER_HASH (crypto_hash address) (le_accounts e)).
Proof.
  assert (Hk : Z.max 0 (keep_from 1 saved) = 2) by (unfold keep_from, saved; by rewrite commit_entries_length). cbv zeta.
  pose proof (pruner_safe [] 1 0 0 db0 (worker_new 0) [] []
    (mkSystem (with_db drained db2) (store_progress (set_target (worker_new 0) 2) 2) Purging) Idle saved [signed_li]) as Hs.
  rewrite Hk in Hs. apply Hs; [lia|apply counters_ok|apply start_ok|].
  etrans; [apply start_pruning|]. eapply rtc_l; [apply sys_work, (step_read drained _ stale1), read_stale1|].
  eapply rtc_l; [apply sys_work, (step_delete drained _ stale1 db2 2), delete_db2|apply rtc_refl].
Defined.

Lemma mem_write_total (db : rocks) b : exists db', write_opt db b = Ok db'.
Proof. by eexists. Qed.
Lemma mem_range_total (db : rocks) cf b e : exists db', delete_range_cf db cf b e = Ok db'.
Proof. by eexists. Qed.

Lemma pruner_catches_up_witness : exists worker' db,
  work_rounds [1] (set_target (worker_new 0) 2) index1 = Ok (worker', db) /\ least_readable_version worker' = 2 /\ blocking_recv worker' = true.
Proof.
  apply (pruner_catches_up mem_write_total mem_range_total [] 1 0 0 drained
    (set_target (worker_new 0) 2) saved [signed_li] [1]); [|lia|cbn; lia| |cbn; lia|done].
  - apply (reachable_ok [] 1 0 0 ltac:(lia) counters_ok _ _ start_pruning (conj start_ok I)).
  - intros T HT. pose proof (mem_column_size StaleNodeIndexSchema _ _ (col_stale_node_index _ _ HT)) as Hs. pose proof index_count as Hc%Z.ltb_lt.
    cbn [drained ldb_db] in Hs. change (COLUMN_FAMILY_NAME StaleNodeIndexSchema) with STALE_NODE_INDEX_CF_NAME in Hs. lia.
Defined.

End StorageExamples.
