(* ===== verification/ScratchpadExamples.v ===== *)
(** * The trees of uncommitted transactions on concrete data

    Two batches of account states on an empty state, of which the first is committed while
    the tree of the second is in use. *)

From S2P Require Import Prelude U64 Bytes Crypto Hash SparseMerkleProof SparseMerkleTree LedgerProof.
From S2P Require Import Scratchpad ScratchpadProof ByteConcrete.

Module ScratchpadExamples.
#[local] Existing Instance ByteConcrete.crypto.
#[local] Existing Instance ByteConcrete.hash_bytes_inst.
#[local] Existing Instance ByteConcrete.hash_bytes_laws.
Import ByteConcrete(hash_of, to_Z).

(** Hash values of nodes are even, that of the empty tree is odd. *)
Definition even_hash (l : list Z) : ByteConcrete.hash256 := hash_of (2 * to_Z (ByteConcrete.poly_hash 3 l)).
#[local] Instance even_hashers : LedgerHashers := {|
  TransactionAccumulatorInternalNode_hash l r := even_hash [to_Z l; to_Z r];
  EventAccumulatorInternalNode_hash l r := even_hash [to_Z l; to_Z r];
  SparseMerkleInternalNode_hash l r := even_hash [to_Z l; to_Z r];
  ACCUMULATOR_PLACEHOLDER_HASH := hash_of 1;
  SPARSE_MERKLE_PLACEHOLDER_HASH := hash_of 1
|}.
#[local] Instance blob_hash : CryptoHash AccountStateBlob := {| signing_message b := blob b; crypto_hash b := ByteConcrete.poly_hash 1 (blob b) |}.
#[local] Instance leaf_hash : CryptoHash SparseMerkleLeafNode := {|
  signing_message l := [to_Z (leaf_key l); to_Z (leaf_value_hash l)];
  crypto_hash l := even_hash [to_Z (leaf_key l); to_Z (leaf_value_hash l)]
|}.

Lemma even_hash_fresh l : even_hash l <> hash_of 1.
Proof.
  intros E%(f_equal to_Z). assert (Hm : (2 * to_Z (ByteConcrete.poly_hash 3 l)) mod 256 ^ 32 = 1 mod 256 ^ 32) by exact E.
  change (256 ^ 32) with (2 * 2 ^ 255) in Hm. rewrite Z.mul_mod_distr_l, (Z.mod_small 1) in Hm by lia. lia.
Qed.
#[local] Instance placeholder_fresh : PlaceholderFresh.
Proof. split; intros; apply even_hash_fresh. Qed.

(** ** A run *)

Definition account (n : Z) : HashValue := ByteConcrete.poly_hash 2 [n].
Definition state_of (n : Z) : AccountStateBlob := mkAccountStateBlob [n].
Definition first_batch : list (HashValue * AccountStateBlob) := [(account 1, state_of 10); (account 2, state_of 20)].
Definition second_batch : list (HashValue * AccountStateBlob) := [(account 3, state_of 30); (account 1, state_of 11)].
Definition no_proofs (key : HashValue) : option SparseMerkleProof := None.

Definition tree_of (r : result UpdateError SparseMerkleTree) : SparseMerkleTree := match r with Ok t => t | _ => mkSparseMerkleTree 0 end.
Lemma run_ok (r : list Node * result UpdateError SparseMerkleTree) : is_ok r.2 = true -> r = (r.1, Ok (tree_of r.2)).
Proof. destruct r as [h [t|e|]]; done. Qed.

Lemma prune_ok (r : list Node * result UpdateError unit) : is_ok r.2 = true -> r = (r.1, Ok tt).
Proof. destruct r as [h [[]|e|]]; done. Qed.

Definition run0 : list Node * result UpdateError SparseMerkleTree := sparse_merkle_tree_new (sparse_root SparseMerkleInternalNode_hash SPARSE_MERKLE_PLACEHOLDER_HASH (state [] [])) [].
Definition run1 : list Node * result UpdateError SparseMerkleTree := update (tree_of run0.2) first_batch no_proofs run0.1.
Definition run2 : list Node * result UpdateError SparseMerkleTree := update (tree_of run1.2) second_batch no_proofs run1.1.
Definition committed : list Node * result UpdateError unit := smt_prune (tree_of run1.2) run2.1.
Definition in_use : Scratch := mkScratch committed.1 first_batch [(tree_of run2.2, first_batch ++ second_batch)].

Lemma runs_ok : is_ok run0.2 = true /\ is_ok run1.2 = true /\ is_ok run2.2 = true /\ is_ok committed.2 = true.
Proof. vm_compute. done. Qed.

(** Whatever the trees, this is a run. *)
Lemma run_reached h0 h1 h2 h3 t0 t1 t2 u1 u2 :
  sparse_merkle_tree_new (sparse_root SparseMerkleInternalNode_hash SPARSE_MERKLE_PLACEHOLDER_HASH (state [] [])) [] = (h0, Ok t0) ->
  update t0 u1 no_proofs h0 = (h1, Ok t1) -> update t1 u2 no_proofs h1 = (h2, Ok t2) -> smt_prune t1 h2 = (h3, Ok tt) ->
  rtc (sp_step []) (mkScratch [] [] []) (mkScratch h3 u1 [(t2, u1 ++ u2)]).
Proof.
  intros E0 E1 E2 E3. eapply rtc_l; [by eapply sp_new|]. eapply rtc_l; [by eapply (sp_update _ _ _ _ _ t0 [] u1 no_proofs t1); [left|..]|].
  eapply rtc_l; [by eapply (sp_update _ _ _ _ _ t1 u1 u2 no_proofs t2); [left|..]|]. eapply rtc_l; [|apply rtc_refl].
  eapply (sp_commit _ _ _ _ _ t1 u1); [right; by left|done|]. intros t ->%list_elem_of_singleton. split; [by left|by exists u2].
Qed.

Lemma in_use_reached : rtc (sp_step []) (mkScratch [] [] []) in_use.
Proof.
  destruct runs_ok as (O0 & O1 & O2 & O3). apply (run_reached run0.1 run1.1 run2.1 committed.1 (tree_of run0.2) (tree_of run1.2) (tree_of run2.2)).
  - rewrite <- (run_ok run0 O0). unfold run0. reflexivity.
  - rewrite <- (run_ok run1 O1). unfold run1. reflexivity.
  - rewrite <- (run_ok run2 O2). unfold run2. reflexivity.
  - rewrite <- (prune_ok committed O3). unfold committed. reflexivity.
Qed.

#[local] Opaque run0 run1 run2 committed.
Lemma scratchpad_refines_witness :
  smt_root_hash (tree_of run2.2) committed.1 =
    (committed.1, Ok (sparse_root SparseMerkleInternalNode_hash SPARSE_MERKLE_PLACEHOLDER_HASH (state [] (first_batch ++ second_batch)))) /\
  exists status, smt_get (tree_of run2.2) (account 2) committed.1 = (committed.1, Ok status) /\ status_ok [] first_batch (first_batch ++ second_batch) (account 2) status.
Proof.
  destruct (scratchpad_refines [] (NoDup_nil_2) in_use in_use_reached (tree_of run2.2) (first_batch ++ second_batch)) as (Hroot & Hget & _); [by left|].
  exact (conj Hroot (Hget (account 2))).
Defined.
End ScratchpadExamples.
